(* ===== verification/_CoqProject ===== *)
-Q . S2P
Prelude.v
External.v
Concrete.v
Resources.v
Api.v
Pods.v
Match.v
PdbEval.v
Store.v
StoreFacts.v
Quota.v
Queue.v
Manager.v
QueueFacts.v
ManagerFacts.v
ManagerProps.v
Aggregator.v
Synchronizer.v
Evaluator.v
State.v
Plugin.v
PluginFacts.v
PluginProps.v
ValueEquiv.v
Preemptor.v
PreemptorFacts.v
VictimSelection.v
VictimProps.v
Cycle.v
Threads.v
ThreadFacts.v
Locking.v
LockingFacts.v
LockSafety.v
LockMethods.v
ConcurrencyProps.v
Serial.v
DeepCopy.v
Informers.v
Clients.v
Startup.v
Entry.v
Schemes.v
Kubetest.v
TestContext.v
Kassert.v
Regions.v
Snapshots.v
Isolation.v
Observers.v
Frozen.v
DryRuns.v
Callers.v
System.v
