(* ===== verification/Prelude.v ===== *)
(** * Verification of kaschnit-scheduler

    kaschnit-scheduler is a Kubernetes scheduler with one plugin,
    QuotaAwarePreempt.  Pods name a queue in a label; a queue (a cluster-wide
    [Queue] object) has a quota, that is a maximum for the resources its pods
    may use together, and rules that say which of its pods may preempt which
    others.  The plugin lets a pod pass only if it fits in its queue's quota,
    and selects preemption victims so that the pod then fits on the node and in
    the quota.

    ** Parts of the program and of this library

    - [internal/alloc/resource.go]: maps from resource names to quantities with
      in-place and copying arithmetic and comparisons.  File [Resources]: one
      definition per method, [Resources_<Method>]; a nil map is [None].
    - [internal/queue/quota.go], [queue.go], [manager.go]: the registry of
      queues and what their pods use.  The objects are linked by pointers and
      [Clone] decides what is shared, so the methods work on a typed heap
      (file [Store]); files [Quota], [Queue] and [Manager] hold the methods, with
      the receiver as a possibly-nil pointer.  [StoreFacts] gives every manager a
      value, a map from names to queue values ([view_mgr]), and the heap's
      well-formedness ([wf]: no sharing between queues); [QueueFacts] and
      [ManagerFacts] prove each method correct against an operation on values;
      [ManagerProps] has the refinement theorem for all calls, the isolation of
      clones and the accounting of used amounts, for any weight of a recorded pod
      ([weighed]): the recorded object's own request, or one fixed for its UID.
    - [internal/queue/preemption.go]: rules made from specs (file [Match], with
      [internal/match]) and the evaluator's decisions (file [Evaluator]).
    - [internal/plugin/quotaawarepreempt/state.go] and [internal/kubesched]: the
      queue snapshot in the framework's cycle state.  File [State].
    - [plugin.go]: the extension points.  File [Plugin]; their effects on values
      are in [PluginFacts]; [PluginProps] has an execution model (relation
      [step], with the informers' handlers of [Synchronizer] in the background)
      with the quota safety invariant, and each extension point's contract.
    - [preemption.go] of the plugin: the framework's preemption interface.  File
      [Preemptor]: [SelectVictimsOnNode] and its closures work on a simulation
      state of world, node and victims.  [PreemptorFacts] characterises
      eligibility and potential victims; [VictimSelection] states the greedy
      specification ([greedy], [selected]) and proves the refinement;
      [ValueEquiv] has the equivalence of values that the order of additions and
      removals respects; [VictimProps] has the properties of the victims.
    - [internal/pods], [internal/pdbeval]: files [Pods] and [PdbEval]; the pass
      over the disruption budgets is proved equal to a reference without
      counters.
    - [internal/alloc/node_aggregator.go], [cluster_tracker.go]: the cluster's
      total.  File [Aggregator].
    - One cycle to the next: file [Cycle] proves that the selection in one cycle
      and [PreFilter] in a later one agree.
    - [internal/queue/synchronizer.go]: the informer handlers and the status
      loop.  File [Synchronizer].
    - The locks of [internal/queue], that is the same methods as goroutines run
      them: [Threads] has programs of atomic
      steps under read-write locks and their interleavings, [ThreadFacts] the
      generic results (no deadlock, termination, absence of races, and a
      rely-guarantee rule); [Locking] has every method of quotas, queues and the
      manager with its critical sections ([go_<Type>_<Method>]); [LockingFacts]
      relates them to the sequential methods and to the lock order, [LockSafety]
      and [LockMethods] prove them safe under interference; [ConcurrencyProps]
      and [Serial] have the theorems about goroutines.
    - What goroutines share and what is their own: [Regions] has regions of heap
      cells and the judgement [conf] (an action stays in its region), [Isolation]
      proves it of every method with its locks, [Snapshots] says what a clone taken
      amid other goroutines shows, and [Observers] follows one goroutine through
      a run: the cells that it makes and does not publish are out of the others'
      reach, so it may read them without locks and computes as if it were alone.
    - The framework tries the candidates of a preemption at once: file [DryRuns] has
      [SelectVictimsOnNode] as a program of calls on the queue package
      ([dry_program]), which run alone is the code of [Preemptor], and [Frozen] the
      objects that a set of goroutines only clones, which stay as they are.
    - The whole program on the queue package: file [Callers] has the informers'
      handlers, the status loop ([statusUpdateLoop]), the plugin's calls and the
      dry runs as goroutines ([program]), and relates them, run alone, to the
      definitions of [Synchronizer], [Plugin] and [Preemptor]; [System] has what
      holds when they run together.
    - [zz_generated.deepcopy.go]: file [DeepCopy], on a memory of its own with
      pointers to structs, maps, arrays and selectors.
    - [client/informers/externalversions]: file [Informers], the factory as a
      state machine (relation [fstep]) over its critical sections.
    - [client/clientset]: file [Clients], the constructors.  The registration of
      types with schemes, the fake clientset and the listers: file [Schemes].
    - [NewPlugin], [NewSynchronizer], [NewClusterResourceTracker]: file [Startup],
      with what the first notifications leave in the manager.  Registration,
      [PostFilter] and configuration defaulting ([internal/kubesched]): file
      [Entry].
    - [apis]: the names and fields that the scheduler reads.  File [Api].
    - [internal/kubetest], [internal/kassert]: the managers of test objects (file
      [Kubetest], over an API server that is a class of answers), the context of
      a scheduler test with its clean-up (file [TestContext]) and the assertions
      (file [Kassert], over testify as a class with laws).

    ** Conventions

    A Go call returns or panics: [outcome].  Code with state is a function of
    type [st S A], from a state to an outcome, composed with stdpp's bind
    notation; [wp m K s] says that [m] run in [s] returns, without panicking,
    in a state and with a result that satisfy [K], so a theorem of that shape
    also proves that the code does not panic and, all loops being structural,
    that it terminates: there is no fuel anywhere (schedules of goroutines are
    finite by theorem).  Errors are values of [go_error].  A Go map is an option
    of a [gmap] ([gomap]).  Iteration over a Go map follows [map_to_list]; the theorems either do not depend on the order or
    are stated up to permutation.  Quantities, label selectors, the framework and
    the standard sort are classes of [External], operations and laws apart;
    [Concrete] has an instance of each, at which every theorem with hypotheses is
    applied once (the lemmas named [..._witness]).  [int32] counters wrap around.

    The sequential files take each method call as one step.  That calls of
    goroutines may be interleaved at the level of critical sections is the
    subject of the concurrency files: their locks are Go's [sync.RWMutex]
    (a waiting writer keeps new readers out), one step is one access under the
    locks held, and a schedule is any sequence of goroutine numbers.

    ** What the groups of theorems show

    Accounting: an addition charges the pod's own request, but a deletion gives
    back the request of the version that it is passed.  So used amounts are the
    sum of the requests of the recorded pods along any sequence of calls or
    informer events in which no pod is resized between its addition and its
    release ([Manager_accounting], [Synchronizer_accounting]), and are off by the
    change otherwise ([resize_drift]).  What an event stream leaves registered and
    recorded is stated of the events alone ([registered], [charged]).  Clones are
    isolated.  Quota safety: in every execution of scheduling cycles and
    informer events, resizes and updates of queues included, no queue is used
    beyond its maximum unless an update sets the maximum below what is used or
    an informer reports a bound pod that no cycle reserved ([quota_safety]), and
    no admission overruns its queue even then ([admission_safe]).  Preemption: the selection
    refines the greedy specification, is sound and minimal, succeeds exactly
    when it can, and makes the preemptor pass once the victims are gone;
    permissions follow priorities and both queues' rules, and admit no cycle.
    Concurrency: goroutines that call the queue package properly never crash,
    deadlock, run for ever or race, pod calls are serializable, and a clone taken meanwhile
    need not be a state of any one moment, though each of its queues shows what
    the manager's queue was at moments of the run.  The program's goroutines, the
    status loop's and [PreFilter]'s unlocked reads of their clones included, do
    not crash, race or hang, as long as queue notifications carry queues (a
    tombstone makes the handler panic) and budgets stay in [int32]; each status
    report and each admission decision is the one that the sequential code makes
    on such a clone, and the dry runs of a preemption, all at once, each answer with the greedy
    selection on the value of the one snapshot that they clone.  These theorems
    take what is known of the pods' requests as a parameter ([requests]): with
    requests fixed for each UID the used amounts are accounted for at every
    moment, without it pods may be resized and all the rest holds.
    Startup: construction stops at its
    first error; the order of the first notifications decides which pods are
    counted.  Generated code: deep copies share nothing, informers run once,
    every type is registered.  Test support: waiting loops end and say the truth,
    a clean-up tries everything and reports every failure.
    Components: each operation's behaviour on every branch, the places where it
    differs from its documentation included (subtraction of missing names,
    [AllLess], re-put nodes, update and tombstone handling).

    ** Not modelled

    Logging and metrics; the framework's preemption evaluator that [PostFilter] calls:
    it chooses the nodes to try and among the candidates found, and starts the
    goroutines that try them, which are modelled from their start; the
    methods of the
    typed queue client and of the lister, which are generic Kubernetes code (their
    construction is modelled).  The timer of the status loop and the end of its
    context appear as the list of ticks that it makes, the queues' deep copies as
    values once they are in an event.  The node aggregator's lock is one critical
    section per method, so its methods are steps; the concurrency files treat the
    queue package, and [Informers] the factory. *)

From stdpp Require Import base tactics option list gmap strings sorting.
From stdpp Require Export fin_maps.
From Stdlib Require Export ZArith Lia.

#[export] Set Warnings "-clear-no-such-hyp,-register-all".

(** ** Go's run-time outcomes

    A Go call either returns or panics (nil dereference, write to a nil map). *)
Inductive outcome (A : Type) : Type :=
| Ret (a : A)
| Panic.
Arguments Ret {A} _.
Arguments Panic {A}.

#[global] Instance outcome_ret : MRet outcome := @Ret.
#[global] Instance outcome_bind : MBind outcome :=
  λ A B f m, match m with Ret a => f a | Panic => Panic end.

(** ** State passing with panics *)
Definition st (S A : Type) : Type := S → outcome (A * S).

#[global] Instance st_ret S : MRet (st S) := λ A a s, Ret (a, s).
#[global] Instance st_bind S : MBind (st S) :=
  λ A B f m s, match m s with Ret (a, s') => f a s' | Panic => Panic end.

Definition st_get {S} : st S S := λ s, Ret (s, s).
Definition st_put {S} (s' : S) : st S unit := λ _, Ret (tt, s').
Definition st_modify {S} (f : S → S) : st S unit := λ s, Ret (tt, f s).
Definition st_panic {S A} : st S A := λ _, Panic.
Definition st_lift {S A} (m : outcome A) : st S A :=
  λ s, match m with Ret a => Ret (a, s) | Panic => Panic end.
(** A dereference: panics when the cell is absent. *)
Definition st_some {S A} (o : option A) : st S A :=
  match o with Some a => mret a | None => st_panic end.

(** [for _, x := range l { f(x) }] *)
Fixpoint st_for {S A} (l : list A) (f : A → st S unit) : st S unit :=
  match l with
  | [] => mret tt
  | x :: l => f x ;; st_for l f
  end.

(** The same with a value carried from one iteration to the next; [inr r] returns
    [r] from inside the loop. *)
Fixpoint st_loop {S A B R} (l : list A) (f : B → A → st S (B + R)) (b : B) : st S (B + R) :=
  match l with
  | [] => mret (inl b)
  | x :: l =>
      r ← f b x;
      match r with inl b => st_loop l f b | inr r => mret (inr r) end
  end.

(** Total-correctness assertion: [m] returns from [s] and its result satisfies [Q]. *)
Definition wp {S A} (m : st S A) (Q : A → S → Prop) (s : S) : Prop :=
  match m s with Ret (a, s') => Q a s' | Panic => False end.

(** ** Go maps with string keys

    [None] is the nil map: it reads as empty and a write to it panics. *)
Abbreviation gomap V := (option (gmap string V)).

Definition gomap_make {V} : gomap V := Some ∅.
Definition gomap_lookup {V} (m : gomap V) (k : string) : option V := m ≫= λ m, m !! k.
Definition gomap_items {V} (m : gomap V) : list (string * V) :=
  match m with None => [] | Some m => map_to_list m end.
Definition gomap_dom {V} (m : gomap V) : gset string :=
  match m with None => ∅ | Some m => dom m end.
Definition gomap_len {V} (m : gomap V) : nat :=
  match m with None => 0 | Some m => size m end.
Definition gomap_set {V} (m : gomap V) (k : string) (v : V) : outcome (gomap V) :=
  match m with None => Panic | Some m => Ret (Some (<[k := v]> m)) end.

(** [for name, x := range m { r = f(r, name, x) }] over the items of a map in
    the order [l]; the body may panic. *)
Fixpoint range_fold {A B} (f : B → A → outcome B) (l : list A) (b : B) : outcome B :=
  match l with
  | [] => mret b
  | x :: l => b' ← f b x; range_fold f l b'
  end.

(** ** Machine integers: Go's [int32] *)
Definition int32_wrap (z : Z) : Z := ((z + 2 ^ 31) mod 2 ^ 32 - 2 ^ 31)%Z.
Definition int32_range (z : Z) : Prop := (- 2 ^ 31 ≤ z < 2 ^ 31)%Z.

(** ** Go's [error] values

    [errors.New], [fmt.Errorf] with one or two [%w] verbs (the message is the
    formatted text), and [errors.Join] of non-nil errors. *)
Inductive go_error : Type :=
| ErrNew (msg : string)
| ErrWrapf (msg : string) (wrapped : go_error)
| ErrWrapf2 (msg : string) (wrapped1 wrapped2 : go_error)
| ErrJoin (errs : list go_error).

(** [err.Error()]; [errors.Join] separates the messages with newlines. *)
Definition newline : string := String (Ascii.ascii_of_nat 10) EmptyString.
Fixpoint error_Error (e : go_error) : string :=
  match e with
  | ErrNew msg | ErrWrapf msg _ | ErrWrapf2 msg _ _ => msg
  | ErrJoin errs => String.concat newline (error_Error <$> errs)
  end.

(** [errors.Is(e, target)] for a target made by [errors.New]. *)
Fixpoint errors_Is (e : go_error) (target : string) : bool :=
  match e with
  | ErrNew msg => bool_decide (msg = target)
  | ErrWrapf _ e => errors_Is e target
  | ErrWrapf2 _ e1 e2 => errors_Is e1 target || errors_Is e2 target
  | ErrJoin errs => existsb (λ e, errors_Is e target) errs
  end.

(** [errors.Join] on possibly-nil errors: the nil ones are left out, and the
    result is nil when all are nil. *)
Definition errors_JoinAll (errs : list (option go_error)) : option go_error :=
  match omap id errs with [] => None | errs => Some (ErrJoin errs) end.

Definition errors_Join (e1 e2 : option go_error) : option go_error := errors_JoinAll [e1; e2].

(** ** Lemmas on the state monad *)
Section wp_lemmas.
Context {S : Type}.

Lemma wp_ret {A} (a : A) (Q : A → S → Prop) s : wp (mret a) Q s ↔ Q a s.
Proof. done. Qed.

Lemma wp_bind {A B} (m : st S A) (f : A → st S B) (Q : B → S → Prop) s :
  wp (m ≫= f) Q s ↔ wp m (λ a s', wp (f a) Q s') s.
Proof. unfold wp, mbind, st_bind. destruct (m s) as [[a s']|]; done. Qed.

Lemma wp_mono {A} (m : st S A) (P Q : A → S → Prop) s :
  wp m P s → (∀ a s', P a s' → Q a s') → wp m Q s.
Proof. unfold wp. destruct (m s) as [[a s']|]; [|done]. intros HP Hm. by apply Hm. Qed.

Lemma wp_get (Q : S → S → Prop) s : wp st_get Q s ↔ Q s s.
Proof. done. Qed.

Lemma wp_put s' (Q : unit → S → Prop) s : wp (st_put s') Q s ↔ Q tt s'.
Proof. done. Qed.

Lemma wp_modify f (Q : unit → S → Prop) s : wp (st_modify f) Q s ↔ Q tt (f s).
Proof. done. Qed.

Lemma wp_some {A} (o : option A) (Q : A → S → Prop) s :
  wp (st_some o) Q s ↔ ∃ a, o = Some a ∧ Q a s.
Proof.
  destruct o as [a|]; unfold wp; simpl; split.
  - intros HQ. by exists a.
  - by intros (a' & [= ->] & HQ).
  - done.
  - by intros (a' & [=] & _).
Qed.

Lemma wp_lift {A} (m : outcome A) (Q : A → S → Prop) s :
  wp (st_lift m) Q s ↔ ∃ a, m = Ret a ∧ Q a s.
Proof.
  destruct m as [a|]; unfold wp; simpl; split.
  - intros HQ. by exists a.
  - by intros (a' & [= ->] & HQ).
  - done.
  - by intros (a' & [=] & _).
Qed.

Lemma wp_exec {A} (m : st S A) (Q : A → S → Prop) s :
  wp m Q s ↔ ∃ a s', m s = Ret (a, s') ∧ Q a s'.
Proof.
  unfold wp. destruct (m s) as [[a s']|]; split.
  - intros HQ. by exists a, s'.
  - by intros (a' & s'' & [= -> ->] & HQ).
  - done.
  - by intros (a' & s'' & [=] & _).
Qed.

Lemma wp_result {A} (m : st S A) (K : A → S → Prop) s :
  wp m K s → wp m (λ a s', K a s' ∧ m s = Ret (a, s')) s.
Proof. unfold wp. by destruct (m s) as [[a s']|]. Qed.

(** The loop rule: an invariant over the part of the list still to do. *)
Lemma wp_for {A} (I : list A → S → Prop) (f : A → st S unit) l s :
  I l s →
  (∀ x l s, I (x :: l) s → wp (f x) (λ _ s', I l s') s) →
  wp (st_for l f) (λ _ s', I [] s') s.
Proof.
  intros HI Hstep. induction l as [|x l IH] in s, HI |- *; simpl.
  { exact HI. }
  apply wp_bind. eapply wp_mono; [by apply Hstep|]. intros a s' HI'. by apply IH.
Qed.
End wp_lemmas.

(** ** Lemmas on Go maps *)
Section gomap_lemmas.
Context {V : Type}.
Implicit Types m : gomap V.

Lemma gomap_items_nodup m : NoDup (gomap_items m).*1.
Proof. destruct m; simpl; [apply NoDup_fst_map_to_list|constructor]. Qed.

Lemma gomap_items_elem m k v : (k, v) ∈ gomap_items m ↔ gomap_lookup m k = Some v.
Proof.
  destruct m; simpl; unfold gomap_lookup; simpl.
  - apply elem_of_map_to_list.
  - split; [inversion 1|done].
Qed.

Lemma gomap_dom_elem m k : k ∈ gomap_dom m ↔ is_Some (gomap_lookup m k).
Proof.
  destruct m; simpl; unfold gomap_lookup; simpl.
  - apply elem_of_dom.
  - split; [set_solver|intros [? [=]]].
Qed.
End gomap_lemmas.

(** A loop that updates each key of a map from the matching item of [l]
    computes a [union_with], whatever the order of the items. *)
Lemma range_fold_union_with {V} (f : V → V → V) (g : gomap V → string * V → outcome (gomap V)) l (m : gmap string V) :
  (∀ (m : gmap string V) k v,
     g (Some m) (k, v) = Ret (Some (<[k := match m !! k with Some c => f c v | None => v end]> m))) →
  NoDup l.*1 →
  range_fold g l (Some m) = Ret (Some (union_with (λ a b, Some (f a b)) m (list_to_map l))).
Proof.
  intros Hg. revert m. induction l as [|[k v] l IH]; intros m Hnd; simpl.
  { unfold mret, outcome_ret. do 2 f_equal. symmetry. apply (right_id_L ∅ _). }
  apply NoDup_cons in Hnd as [Hk Hnd]. rewrite Hg. unfold mbind; simpl.
  rewrite IH by done. do 2 f_equal. apply map_eq. intros j.
  rewrite !lookup_union_with, !lookup_insert.
  apply not_elem_of_list_to_map_1 in Hk. simpl in Hk.
  case_decide; [subst j; rewrite Hk|done]. by destruct (m !! k).
Qed.

(** ** Lemmas on joined errors *)
Lemma errors_JoinAll_None errs : errors_JoinAll errs = None ↔ Forall (λ e, e = None) errs.
Proof.
  unfold errors_JoinAll. induction errs as [|[e|] errs IH]; simpl.
  - split; [constructor|done].
  - split; [done|]. by intros [[=] _]%Forall_cons.
  - rewrite Forall_cons, <- IH. tauto.
Qed.

(** A joined error is each of the errors that were joined. *)
Lemma errors_JoinAll_Is errs e target :
  Some e ∈ errs → errors_Is e target = true →
  ∃ j, errors_JoinAll errs = Some j ∧ errors_Is j target = true.
Proof.
  intros Hin He. unfold errors_JoinAll.
  assert (e ∈ omap id errs) as Hin' by (apply list_elem_of_omap; by exists (Some e)).
  destruct (omap id errs) as [|e0 l] eqn:E; [by apply elem_of_nil in Hin'|].
  eexists. split; [done|]. cbn [errors_Is]. apply existsb_exists. exists e. split; [|done].
  by apply list_elem_of_In.
Qed.

(** ** Lemmas on [int32] *)
Lemma int32_wrap_id z : int32_range z → int32_wrap z = z.
Proof.
  unfold int32_range, int32_wrap. intros Hz.
  rewrite Z.mod_small; lia.
Qed.

Lemma int32_wrap_range z : int32_range (int32_wrap z).
Proof.
  unfold int32_range, int32_wrap.
  pose proof (Z.mod_pos_bound (z + 2 ^ 31) (2 ^ 32) ltac:(lia)). lia.
Qed.

(** ** Automation

    The rewriting rules of [wp] compute weakest preconditions of the monad's
    primitives; [golib] collects the facts about the heap and about abstract
    operations that close routine goals. *)
Create HintDb golib discriminated.
Create Rewrite HintDb wp.
#[export] Hint Rewrite @wp_ret @wp_bind @wp_get @wp_put @wp_modify : wp.

Ltac wp_simpl := autorewrite with wp; simpl.
(** Case analysis on the scrutinee of a [match] in the goal. *)
Ltac case_goal := match goal with |- context [match ?x with _ => _ end] => destruct x eqn:? end.
