(* ===== verification/External.v ===== *)
(** * External: the interfaces of the code the scheduler is built on

    Everything here stands for code outside the repository: the Kubernetes
    API types ([corev1], [metav1], [policyv1]), [resource.Quantity],
    [labels.Selector], the helper functions of [component-helpers] and
    [schedutil], and the scheduling framework's interfaces.  Each operation is
    a field of a class; what the scheduler relies on is stated as a law of a
    second class.  [Concrete] gives one instance that satisfies all laws.

    Records ([Pod], [Node], [PodDisruptionBudget]) keep the fields that the
    repository's code reads or writes. *)

From stdpp Require Import base tactics option list gmap strings sorting.
From Stdlib Require Import ZArith Lia.
From S2P Require Import Prelude.

(** ** API types *)
Class ApiTypes := {
  (** [resource.Quantity] *)
  Quantity : Type;
  (** [corev1.Container] *)
  Container : Type;
  (** [metav1.LabelSelector] *)
  LabelSelector : Type;
  (** [labels.Selector] *)
  Selector : Type;
}.

(** [types.UID] is a string type. *)
Abbreviation UID := string.

(** [corev1.PodCondition] *)
Record PodCondition := mkPodCondition {
  cond_Type : string;
  cond_Status : string;
  cond_Reason : string;
}.

(** [corev1.Pod] *)
Record Pod {T : ApiTypes} := mkPod {
  pod_Name : string;
  pod_Namespace : string;
  pod_UID : UID;
  pod_Labels : gomap string;
  pod_DeletionTimestamp : option Z;
  pod_Containers : list Container;
  pod_Priority : option Z;
  pod_PreemptionPolicy : option string;
  pod_PriorityClassName : string;
  pod_SchedulerName : string;
  pod_NodeName : string;
  pod_Phase : string;
  pod_Conditions : list PodCondition;
  pod_NominatedNodeName : string;
}.

(** [corev1.Node] *)
Record Node {T : ApiTypes} := mkNode {
  node_Name : string;
  node_UID : UID;
  node_Allocatable : gomap Quantity;
}.

(** [policyv1.PodDisruptionBudget]; [DisruptedPods] maps a pod's name to the
    time of its eviction, of which only the presence is read. *)
Record PodDisruptionBudget {T : ApiTypes} := mkPDB {
  pdb_Namespace : string;
  pdb_Selector : option LabelSelector;
  pdb_DisruptionsAllowed : Z;
  pdb_DisruptedPods : gomap Z;
}.

(** Values of the string-typed API constants the code compares with. *)
Definition PodPending : string := "Pending".
Definition PodRunning : string := "Running".
Definition PodSucceeded : string := "Succeeded".
Definition PodFailed : string := "Failed".
Definition PreemptLowerPriority : string := "PreemptLowerPriority".
Definition PreemptNever : string := "Never".
Definition DisruptionTarget : string := "DisruptionTarget".
Definition ConditionTrue : string := "True".
Definition PodReasonPreemptionByScheduler : string := "PreemptionByScheduler".
Definition ResourcePods : string := "pods".

(** ** [resource.Quantity] *)
Class QuantityOps {T : ApiTypes} := {
  (** the zero value [resource.Quantity{}] *)
  Quantity_zero : Quantity;
  (** [*resource.NewQuantity(n, resource.BinarySI)] *)
  NewQuantity : Z → Quantity;
  Quantity_Add : Quantity → Quantity → Quantity;
  Quantity_Sub : Quantity → Quantity → Quantity;
  Quantity_Cmp : Quantity → Quantity → Z;
  Quantity_Equal : Quantity → Quantity → bool;
  Quantity_DeepCopy : Quantity → Quantity;
  Quantity_String : Quantity → string;
}.

(** A quantity denotes a fixed-point number, here in units of 10^-9, the
    finest precision the type keeps; arithmetic and comparison are exact on
    it.  Two representations of one number may differ in format. *)
Class QuantityLaws {T : ApiTypes} {Q : QuantityOps} := {
  qval : Quantity → Z;
  qval_zero : qval Quantity_zero = 0%Z;
  qval_new n : qval (NewQuantity n) = (n * 10 ^ 9)%Z;
  qval_add a b : qval (Quantity_Add a b) = (qval a + qval b)%Z;
  qval_sub a b : qval (Quantity_Sub a b) = (qval a - qval b)%Z;
  qcmp_lt a b : (Quantity_Cmp a b < 0)%Z ↔ (qval a < qval b)%Z;
  qcmp_gt a b : (Quantity_Cmp a b > 0)%Z ↔ (qval a > qval b)%Z;
  qequal_true a b : Quantity_Equal a b = true ↔ qval a = qval b;
  qdeepcopy a : Quantity_DeepCopy a = a;
}.

(** ** [labels.Selector] *)
Class SelectorOps {T : ApiTypes} := {
  (** [metav1.LabelSelector{}] *)
  LabelSelector_empty : LabelSelector;
  (** [metav1.LabelSelectorAsSelector]: a selector (nil as [None]) and an error *)
  LabelSelectorAsSelector : option LabelSelector → option Selector * option go_error;
  (** [labels.Nothing()] *)
  labels_Nothing : Selector;
  Selector_Matches : Selector → gomap string → bool;
  Selector_Empty : Selector → bool;
  (** [==] on two selectors held in interfaces *)
  Selector_eq : Selector → Selector → bool;
}.

Class SelectorLaws {T : ApiTypes} {L : SelectorOps} : Prop := {
  matches_nothing ls : Selector_Matches labels_Nothing ls = false;
  (** a selector comes back whenever no error does *)
  selector_some o : (LabelSelectorAsSelector o).2 = None → is_Some (LabelSelectorAsSelector o).1;
  selector_nil : LabelSelectorAsSelector None = (Some labels_Nothing, None);
  selector_empty :
    ∃ s, LabelSelectorAsSelector (Some LabelSelector_empty) = (Some s, None)
      ∧ ∀ ls, Selector_Matches s ls = true;
}.

(** ** Pod helpers of [component-helpers] and [schedutil] *)
Class PodOps {T : ApiTypes} := {
  (** [reshelper.PodRequests(pod, PodResourcesOptions{})], a fresh non-nil map *)
  PodRequests : Pod → gmap string Quantity;
  (** [corev1helpers.PodPriority] *)
  PodPriority : Pod → Z;
  (** [schedutil.MoreImportantPod] *)
  MoreImportantPod : Pod → Pod → bool;
}.

(** [MoreImportantPod] is documented as an ordering by priority, then by start
    time: a strict weak ordering on which a higher priority comes first. *)
Class PodLaws {T : ApiTypes} {P : PodOps} : Prop := {
  more_important_asym a b : MoreImportantPod a b = true → MoreImportantPod b a = false;
  more_important_trans a b c :
    MoreImportantPod a b = true → MoreImportantPod b c = true → MoreImportantPod a c = true;
  more_important_cotrans a b c :
    MoreImportantPod a c = true → MoreImportantPod a b = true ∨ MoreImportantPod b c = true;
  more_important_priority a b :
    (PodPriority a > PodPriority b)%Z → MoreImportantPod a b = true;
}.

(** ** The scheduling framework *)

(** [fwk.Code] *)
Inductive Code :=
| Success | Error | Unschedulable | UnschedulableAndUnresolvable | Wait | Skip | Pending.

#[global] Instance Code_eq_dec : EqDecision Code.
Proof. solve_decision. Defined.

Class FrameworkOps {T : ApiTypes} := {
  (** [*fwk.Status], the nil pointer included *)
  Status : Type;
  Status_nil : Status;
  NewStatus : Code → list string → Status;
  AsStatus : go_error → Status;
  Status_IsSuccess : Status → bool;
  Status_Code : Status → Code;
  Status_AsError : Status → go_error;
  (** [fwk.PodInfo] *)
  PodInfo : Type;
  PodInfo_GetPod : PodInfo → Pod;
  (** [fwk.NodeInfo]; [RemovePod] fails when the pod is not on the node *)
  NodeInfo : Type;
  NodeInfo_Node : NodeInfo → Node;
  NodeInfo_GetPods : NodeInfo → list PodInfo;
  NodeInfo_RemovePod : NodeInfo → Pod → NodeInfo + go_error;
  NodeInfo_AddPodInfo : NodeInfo → PodInfo → NodeInfo;
}.

Class FrameworkLaws {T : ApiTypes} {F : FrameworkOps} : Prop := {
  status_nil_code : Status_Code Status_nil = Success;
  status_new_code c msgs : Status_Code (NewStatus c msgs) = c;
  status_as_code e : Status_Code (AsStatus e) = Error;
  status_success s : Status_IsSuccess s = true ↔ Status_Code s = Success;
}.

(** A node's pods as a multiset: removal takes one pod with the given UID out,
    addition puts one in, and neither says anything of the order. *)
Class NodeInfoLaws {T : ApiTypes} {F : FrameworkOps} : Prop := {
  node_add_pods n pi :
    NodeInfo_GetPods (NodeInfo_AddPodInfo n pi) ≡ₚ pi :: NodeInfo_GetPods n;
  node_add_node n pi : NodeInfo_Node (NodeInfo_AddPodInfo n pi) = NodeInfo_Node n;
  node_remove_pods n p n' :
    NodeInfo_RemovePod n p = inl n' →
    ∃ pi, pod_UID (PodInfo_GetPod pi) = pod_UID p
      ∧ NodeInfo_GetPods n ≡ₚ pi :: NodeInfo_GetPods n';
  node_remove_node n p n' :
    NodeInfo_RemovePod n p = inl n' → NodeInfo_Node n' = NodeInfo_Node n;
  node_remove_present n pi :
    pi ∈ NodeInfo_GetPods n → ∃ n', NodeInfo_RemovePod n (PodInfo_GetPod pi) = inl n';
}.

(** [fwk.CycleState]: a store from keys to the plugins' data of type [D]. *)
Class CycleStateOps (D : Type) := {
  CycleState : Type;
  CycleState_Read : CycleState → string → D + go_error;
  CycleState_Write : CycleState → string → D → CycleState;
}.

Class CycleStateLaws (D : Type) {C : CycleStateOps D} : Prop := {
  cycle_read_write c k d : CycleState_Read (CycleState_Write c k d) k = inl d;
  cycle_read_write_ne c k k' d :
    k ≠ k' → CycleState_Read (CycleState_Write c k d) k' = CycleState_Read c k';
}.

(** ** [immut.Map]

    A persistent map: an update returns a new map and leaves the old one alone,
    so its contents are a [gmap]; the order of [Values] is unspecified. *)
Class ImmutMap := {
  immut_Values : ∀ {V : Type}, gmap string V → list V;
}.

Class ImmutMapLaws {I : ImmutMap} : Prop := {
  immut_values_perm {V} (m : gmap string V) : immut_Values m ≡ₚ (map_to_list m).*2;
}.

(** ** [slices.SortFunc]

    The standard library's sort is not stable; its contract is that for a
    strict weak ordering the result is a sorted permutation. *)
Class SliceSort := {
  slices_SortFunc : ∀ {A : Type}, (A → A → Z) → list A → list A;
}.

Definition strict_weak {A} (cmp : A → A → Z) : Prop :=
  (∀ a b, (cmp a b < 0 → cmp b a > 0)%Z) ∧
  (∀ a b, (cmp a b > 0 → cmp b a < 0)%Z) ∧
  (∀ a b c, (cmp a b <= 0 → cmp b c <= 0 → cmp a c <= 0)%Z).

Class SliceSortLaws {S : SliceSort} : Prop := {
  sort_perm {A} (cmp : A → A → Z) l : slices_SortFunc cmp l ≡ₚ l;
  sort_sorted {A} (cmp : A → A → Z) l :
    strict_weak cmp → StronglySorted (λ a b, (cmp a b <= 0)%Z) (slices_SortFunc cmp l);
}.
