(* ===== verification/Concrete.v ===== *)
(** * Concrete: one instance of the external interfaces

    A small instance of every class of [External], with proofs that it
    satisfies the laws.  It shows that the laws are consistent and gives the
    concrete inputs at which theorems are applied.  The values are plain
    definitions, made instances only where they are used. *)

From stdpp Require Import base tactics option list gmap strings sorting.
From Stdlib Require Import ZArith Lia.
From S2P Require Import Prelude.
From S2P Require Import External.

Open Scope Z_scope.

(** A label selector is a set of required labels, or one that does not parse. *)
Inductive CLabelSelector :=
| CMatchLabels (ls : list (string * string))
| CInvalid.

Inductive CSelector :=
| CNothing
| CRequire (ls : list (string * string)).

#[export] Instance CSelector_eq_dec : EqDecision CSelector.
Proof. solve_decision. Defined.

Definition c_api : ApiTypes := {|
  Quantity := Z;
  Container := list (string * Z);
  LabelSelector := CLabelSelector;
  Selector := CSelector;
|}.

(** A quantity is its number of units of 10^-9. *)
Definition c_quantity : @QuantityOps c_api := {|
  Quantity_zero := 0 : @Quantity c_api;
  NewQuantity n := n * 10 ^ 9;
  Quantity_Add := Z.add;
  Quantity_Sub := Z.sub;
  Quantity_Cmp a b := match (a ?= b) with Lt => -1 | Eq => 0 | Gt => 1 end;
  Quantity_Equal := Z.eqb;
  Quantity_DeepCopy q := q;
  Quantity_String q := "q"%string;
|}.

Definition c_quantity_laws : @QuantityLaws c_api c_quantity.
Proof.
  refine {| qval := λ q : @Quantity c_api, (q : Z) |}; simpl; try done.
  - intros a b. destruct (Z.compare_spec a b); split; lia.
  - intros a b. destruct (Z.compare_spec a b); split; lia.
  - intros a b. apply Z.eqb_eq.
Defined.

Definition c_selector : @SelectorOps c_api := {|
  LabelSelector_empty := CMatchLabels [] : @LabelSelector c_api;
  LabelSelectorAsSelector o :=
    match o with
    | None => (Some CNothing, None)
    | Some (CMatchLabels ls) => (Some (CRequire ls), None)
    | Some CInvalid => (None, Some (ErrNew "invalid selector"))
    end;
  labels_Nothing := CNothing : @Selector c_api;
  Selector_Matches s ls :=
    match s with
    | CNothing => false
    | CRequire req => forallb (λ '(k, v), bool_decide (gomap_lookup ls k = Some v)) req
    end;
  Selector_Empty s := match s with CRequire [] => true | _ => false end;
  Selector_eq s1 s2 := bool_decide (s1 = s2);
|}.

Definition c_selector_laws : @SelectorLaws c_api c_selector.
Proof.
  constructor.
  - done.
  - intros [[ls|]|]; simpl; intros H; [by eexists|discriminate H|by eexists].
  - done.
  - by exists (CRequire []).
Defined.

(** Requests are the sums over the containers. *)
Definition c_PodRequests (p : @Pod c_api) : gmap string Z :=
  foldr (λ c m, union_with (λ a b, Some (a + b)) (list_to_map c) m) ∅ (pod_Containers p).

Definition c_pods : @PodOps c_api := {|
  PodRequests p := c_PodRequests p : gmap string (@Quantity c_api);
  PodPriority p := default 0 (pod_Priority p);
  MoreImportantPod a b := default 0 (pod_Priority a) >? default 0 (pod_Priority b);
|}.

Definition c_pods_laws : @PodLaws c_api c_pods.
Proof.
  constructor; simpl; intros a b; try intros c; rewrite ?Z.gtb_gt, ?Z.gtb_ltb, ?Z.ltb_ge;
    rewrite ?Z.gtb_lt, ?Z.ltb_lt; lia.
Defined.

(** A status is a code with messages; the nil pointer is [CNil]. *)
Inductive CStatus := CNil | CStat (c : Code) (msgs : list string).

Fixpoint c_remove (uid : UID) (l : list (@Pod c_api)) : option (list (@Pod c_api)) :=
  match l with
  | [] => None
  | p :: l =>
      if bool_decide (pod_UID p = uid) then Some l else (p ::.) <$> c_remove uid l
  end.

Definition c_framework : @FrameworkOps c_api := {|
  Status := CStatus;
  Status_nil := CNil;
  NewStatus := CStat;
  AsStatus e := CStat Error [error_Error e];
  Status_IsSuccess s :=
    match s with CNil => true | CStat c _ => bool_decide (c = Success) end;
  Status_Code s := match s with CNil => Success | CStat c _ => c end;
  Status_AsError s := ErrNew "status";
  PodInfo := @Pod c_api;
  PodInfo_GetPod p := p;
  NodeInfo := @Node c_api * list (@Pod c_api);
  NodeInfo_Node n := n.1;
  NodeInfo_GetPods n := n.2;
  NodeInfo_RemovePod n p :=
    match c_remove (pod_UID p) n.2 with
    | Some l => inl (n.1, l)
    | None => inr (ErrNew "no corresponding pod in pods of node")
    end;
  NodeInfo_AddPodInfo n p := (n.1, p :: n.2);
|}.

Definition c_framework_laws : @FrameworkLaws c_api c_framework.
Proof.
  constructor; try done. intros [|c l]; simpl; [done|]. apply bool_decide_eq_true.
Defined.

Lemma c_remove_perm uid l l' :
  c_remove uid l = Some l' → ∃ p, pod_UID p = uid ∧ l ≡ₚ p :: l'.
Proof.
  induction l as [|q l IH] in l' |- *; simpl; [done|].
  case_bool_decide as Hq.
  - intros [= <-]. by exists q.
  - intros (l1 & Hl1 & ->)%fmap_Some. destruct (IH _ Hl1) as (p & Hp & Hperm).
    exists p. split; [done|]. rewrite Hperm. apply Permutation_swap.
Qed.

Lemma c_remove_present p l : p ∈ l → is_Some (c_remove (pod_UID p) l).
Proof.
  induction l as [|q l IH]; simpl; [by intros ?%elem_of_nil|].
  intros [->|Hp]%elem_of_cons.
  - rewrite bool_decide_true by done. by eexists.
  - case_bool_decide; [by eexists|]. destruct (IH Hp) as [l' ->]. by eexists.
Qed.

Definition c_node_laws : @NodeInfoLaws c_api c_framework.
Proof.
  constructor; try done; simpl.
  - intros [n l] p n'. simpl. destruct (c_remove _ _) as [l'|] eqn:E; [|done].
    intros [= <-]. simpl. by apply c_remove_perm.
  - intros [n l] p n'. simpl. by destruct (c_remove _ _); intros [= <-].
  - intros [n l] p Hp. simpl in *. destruct (c_remove_present _ _ Hp) as [l' ->]. by eexists.
Defined.

Definition c_cycle (D : Type) : CycleStateOps D := {|
  CycleState := gmap string D;
  CycleState_Read c k := match c !! k with Some d => inl d | None => inr (ErrNew "not found") end;
  CycleState_Write c k d := <[k := d]> c;
|}.

Definition c_cycle_laws D : @CycleStateLaws D (c_cycle D).
Proof.
  constructor; simpl.
  - intros c k d. by rewrite lookup_insert_eq.
  - intros c k k' d Hk. by rewrite lookup_insert_ne.
Defined.

Definition c_immut : ImmutMap := {| immut_Values V m := (map_to_list m).*2 |}.

Definition c_immut_laws : @ImmutMapLaws c_immut.
Proof. by constructor. Defined.

(** Insertion sort, to which the standard library's sort reduces on short slices. *)
Fixpoint insert_cmp {A} (cmp : A → A → Z) (x : A) (l : list A) : list A :=
  match l with
  | [] => [x]
  | y :: l => if cmp y x <=? 0 then y :: insert_cmp cmp x l else x :: y :: l
  end.

Definition insertion_sort {A} (cmp : A → A → Z) (l : list A) : list A :=
  foldl (λ acc x, insert_cmp cmp x acc) [] l.

Definition c_sort : SliceSort := {| slices_SortFunc := @insertion_sort |}.

Lemma insert_cmp_perm {A} (cmp : A → A → Z) x l : insert_cmp cmp x l ≡ₚ x :: l.
Proof.
  induction l as [|y l IH]; simpl; [done|]. case_match; [|done].
  rewrite IH. apply Permutation_swap.
Qed.

Lemma insert_cmp_sorted {A} (cmp : A → A → Z) x l :
  strict_weak cmp → StronglySorted (λ a b, cmp a b <= 0) l →
  StronglySorted (λ a b, cmp a b <= 0) (insert_cmp cmp x l).
Proof.
  intros (Hlt & Hgt & Htr) Hl. induction Hl as [|y l Hl IH Hy]; simpl.
  { by repeat constructor. }
  case_match eqn:E.
  - apply Z.leb_le in E. constructor; [done|].
    rewrite (insert_cmp_perm cmp x l). by constructor.
  - apply Z.leb_gt in E.
    assert (cmp x y <= 0) as Hxy by (specialize (Hgt y x); lia).
    constructor; [by constructor|]. constructor; [done|].
    eapply Forall_impl; [exact Hy|]. simpl. intros z Hz. by eapply Htr.
Qed.

Definition c_sort_laws : @SliceSortLaws c_sort.
Proof.
  assert (∀ {A} (cmp : A → A → Z) l acc, foldl (λ acc x, insert_cmp cmp x acc) acc l ≡ₚ l ++ acc) as Hp.
  { intros A cmp l. induction l as [|x l IH]; intros acc; simpl; [done|].
    rewrite IH, insert_cmp_perm. symmetry. apply Permutation_middle. }
  constructor; intros A cmp l; simpl; unfold insertion_sort.
  - by rewrite Hp, app_nil_r.
  - intros Hc. assert (StronglySorted (λ a b, cmp a b <= 0) []) as Hacc by constructor.
    revert Hacc. generalize (@nil A). induction l as [|x l IH]; intros acc Hacc; simpl; [done|].
    apply IH. by apply insert_cmp_sorted.
Defined.

(** A pod and a node with the given identity and amounts. *)
Definition c_pod (uid queue : string) (prio : Z) (req : list (string * Z)) : @Pod c_api := {|
  pod_Name := uid; pod_Namespace := "default"; pod_UID := uid;
  pod_Labels :=
    if bool_decide (queue = ""%string) then None
    else Some {[ "scheduling.kaschnit.github.io/queue"%string := queue ]};
  pod_DeletionTimestamp := None;
  pod_Containers := [req : @Container c_api];
  pod_Priority := Some prio; pod_PreemptionPolicy := None;
  pod_PriorityClassName := ""; pod_SchedulerName := ""; pod_NodeName := "n1";
  pod_Phase := PodRunning; pod_Conditions := []; pod_NominatedNodeName := "";
|}.

Definition c_node (uid : string) (alloc : list (string * Z)) : @Node c_api := {|
  node_Name := uid; node_UID := uid;
  node_Allocatable := Some (list_to_map alloc : gmap string (@Quantity c_api));
|}.
