(* ===== verification/Resources.v ===== *)
(** * Resources: [internal/alloc/resource.go]

    Groups of named quantities.  [Resources] is a Go map, so [None] is the nil
    map.  A method that mutates its receiver returns the receiver's contents
    after the call; a write to a nil map panics.  [range] loops run over
    [gomap_items] (or [elements] of a name set); the theorems on loops state
    that the order of iteration does not matter. *)

From stdpp Require Import base tactics option list gmap strings sorting.
From Stdlib Require Import ZArith Lia.
From S2P Require Import Prelude.
From S2P Require Import External.
From S2P Require Import Concrete.

Declare Scope resources_scope.
Delimit Scope resources_scope with res.

Section resources.
Context {T : ApiTypes} {Q : QuantityOps}.

Abbreviation ResourceName := string.
Abbreviation Resources := (gomap Quantity).

Definition ResourceNameCPU : ResourceName := "cpu".
Definition ResourceNameMemory : ResourceName := "memory".
Definition ResourceNamePods : ResourceName := "pods".

(** [r[name]]: the zero quantity when the name is absent. *)
Definition res_get (r : Resources) (name : ResourceName) : Quantity :=
  default Quantity_zero (gomap_lookup r name).

(** [cloned[name] = qty.DeepCopy()] for each item, into a fresh map. *)
Definition copy_items (l : list (ResourceName * Quantity)) : gmap ResourceName Quantity :=
  foldl (λ m '(name, qty), <[name := Quantity_DeepCopy qty]> m) ∅ l.

Definition FromResourceList (rl : gomap Quantity) : Resources :=
  Some (copy_items (gomap_items rl)).

Definition FromPodReq {P : PodOps} (pod : option Pod) : Resources :=
  match pod with
  | None => gomap_make
  | Some pod =>
      let rl := <[ResourcePods := NewQuantity 1]> (PodRequests pod) in
      FromResourceList (Some rl)
  end.

Definition FromNodeAllocatable (node : option Node) : Resources :=
  match node with
  | None => gomap_make
  | Some node => FromResourceList (node_Allocatable node)
  end.

Definition Resources_Add_body (r : Resources) (item : ResourceName * Quantity) : outcome Resources :=
  let '(name, otherQty) := item in
  match gomap_lookup r name with
  | Some currentQty => gomap_set r name (Quantity_Add currentQty otherQty)
  | None => gomap_set r name (Quantity_DeepCopy otherQty)
  end.

Definition Resources_Add (r other : Resources) : outcome Resources :=
  match other with
  | None => mret r
  | Some _ => range_fold Resources_Add_body (gomap_items other) r
  end.

Definition Resources_Sub_body (r : Resources) (item : ResourceName * Quantity) : outcome Resources :=
  let '(name, otherQty) := item in
  match gomap_lookup r name with
  | Some currentQty => gomap_set r name (Quantity_Sub currentQty otherQty)
  | None => gomap_set r name (Quantity_DeepCopy otherQty)
  end.

Definition Resources_Sub (r other : Resources) : outcome Resources :=
  match other with
  | None => mret r
  | Some _ => range_fold Resources_Sub_body (gomap_items other) r
  end.

Definition Resources_Negate (r : Resources) : outcome Resources :=
  range_fold (λ r '(k, q), gomap_set r k (Quantity_Sub Quantity_zero q)) (gomap_items r) r.

Definition Resources_SetIfNotPresent (r : Resources) (name : ResourceName) (qty : Quantity) : outcome Resources :=
  match gomap_lookup r name with
  | None => gomap_set r name qty
  | Some _ => mret r
  end.

Definition Resources_SetMinExisting_body (r : Resources) (item : ResourceName * Quantity) : outcome Resources :=
  let '(name, maxQty) := item in
  if (Quantity_Cmp maxQty (res_get r name) <? 0)%Z
  then gomap_set r name (Quantity_DeepCopy maxQty)
  else mret r.

Definition Resources_SetMinExisting (r other : Resources) : outcome Resources :=
  range_fold Resources_SetMinExisting_body (gomap_items other) r.

Definition Resources_Clone (r : Resources) : Resources :=
  match r with
  | None => None
  | Some _ => Some (copy_items (gomap_items r))
  end.

Definition Resources_TakeMinExisting (r other : Resources) : outcome Resources :=
  let newRes := Resources_Clone r in
  Resources_SetMinExisting newRes other.

Definition Resources_Plus (r other : Resources) : outcome Resources :=
  match r with
  | None => mret (Resources_Clone other)
  | Some _ => Resources_Add (Resources_Clone r) other
  end.

Definition Resources_Minus (r other : Resources) : outcome Resources :=
  match r with
  | None => mret (Resources_Clone other)
  | Some _ => Resources_Sub (Resources_Clone r) other
  end.

Definition Resources_Negated (r : Resources) : outcome Resources :=
  Resources_Negate (Resources_Clone r).

(** [if r == nil { r = make(Resources) }] *)
Definition or_make (r : Resources) : Resources :=
  match r with None => gomap_make | Some m => Some m end.

Definition getResNames (resources : list Resources) : gset ResourceName :=
  foldl (λ names res,
    match res with
    | None => names
    | Some _ => foldl (λ names '(name, _), names ∪ {[name]}) names (gomap_items res)
    end) ∅ resources.

Definition Resources_AllGreater (r other : Resources) : bool :=
  let r := or_make r in
  let other := or_make other in
  forallb (λ name, negb (Quantity_Cmp (res_get r name) (res_get other name) <? 0)%Z)
    (elements (getResNames [r; other])).

Definition Resources_AllGreaterIntersecting (r other : Resources) : bool :=
  let r := or_make r in
  let other := or_make other in
  forallb (λ '(name, qty),
    match gomap_lookup other name with
    | Some otherQty => negb (Quantity_Cmp qty otherQty <? 0)%Z
    | None => true
    end) (gomap_items r).

Definition Resources_AnyGreaterIntersecting (r other : Resources) : bool :=
  let r := or_make r in
  let other := or_make other in
  existsb (λ '(name, qty),
    match gomap_lookup other name with
    | Some otherQty => (Quantity_Cmp qty otherQty >? 0)%Z
    | None => false
    end) (gomap_items r).

Definition Resources_AllLess (r other : Resources) : bool :=
  let r := or_make r in
  let other := or_make other in
  forallb (λ name, negb (Quantity_Cmp (res_get r name) (res_get other name) <? 0)%Z)
    (elements (getResNames [r; other])).

Definition Resources_AllLessIntersecting (r other : Resources) : bool :=
  let r := or_make r in
  let other := or_make other in
  forallb (λ '(name, qty),
    match gomap_lookup other name with
    | Some otherQty => negb (Quantity_Cmp qty otherQty >? 0)%Z
    | None => true
    end) (gomap_items r).

Definition Resources_AnyLessIntersecting (r other : Resources) : bool :=
  let r := or_make r in
  let other := or_make other in
  existsb (λ '(name, qty),
    match gomap_lookup other name with
    | Some otherQty => (Quantity_Cmp qty otherQty <? 0)%Z
    | None => false
    end) (gomap_items r).

Definition Resources_Equal (r other : Resources) : bool :=
  let r := or_make r in
  let other := or_make other in
  forallb (λ name,
    match gomap_lookup r name with
    | None => false
    | Some qty1 =>
        match gomap_lookup other name with
        | None => false
        | Some qty2 => Quantity_Equal qty1 qty2
        end
    end) (elements (getResNames [r; other])).

Definition Resources_EqualIntersecting (r other : Resources) : bool :=
  let other := or_make other in
  forallb (λ '(name, qty),
    match gomap_lookup other name with
    | Some otherQty => Quantity_Equal qty otherQty
    | None => true
    end) (gomap_items r).

Definition Resources_Equivalent (r other : Resources) : bool :=
  let r := or_make r in
  let other := or_make other in
  forallb (λ name, Quantity_Equal (res_get r name) (res_get other name))
    (elements (getResNames [r; other])).

Definition Resources_ToResourceList (r : Resources) : gomap Quantity :=
  match r with
  | None => None
  | Some _ => Some (copy_items (gomap_items r))
  end.

(** [framework.NewResource] is the framework's. *)
Definition Resources_ToFrameworkResource {R} (NewResource : gomap Quantity → R) (r : Resources) : option R :=
  match r with
  | None => None
  | Some _ => Some (NewResource (Resources_ToResourceList r))
  end.

(** [cmp.Compare] on strings, which Go orders bytewise. *)
Definition cmp_Compare (name1 name2 : string) : Z :=
  match String.compare name1 name2 with Lt => -1 | Eq => 0 | Gt => 1 end.

Fixpoint Resources_String_loop (r : Resources) (i : nat) (names : list ResourceName) : string :=
  match names with
  | [] => ""
  | name :: names =>
      (if (0 <? i)%nat then ", " else "") +:+
      name +:+ ": " +:+ Quantity_String (res_get r name) +:+
      Resources_String_loop r (S i) names
  end.

Definition Resources_String {SS : SliceSort} (r : Resources) : string :=
  let names := slices_SortFunc cmp_Compare (map fst (gomap_items r)) in
  "{" +:+ Resources_String_loop r 0 names +:+ "}".
End resources.

Abbreviation ResourceName := string.
Abbreviation Resources := (gomap Quantity).

(** ** The numbers a [Resources] denotes *)
Section values.
Context {T : ApiTypes} {Q : QuantityOps} {L : QuantityLaws}.
Implicit Types (r other : Resources) (m o : gmap string Quantity) (n : ResourceName).

(** The amount of [n] in [r]; absent names count as zero. *)
Definition qty r n : Z := qval (res_get r n).

(** Numerical equality: absent and zero are the same. *)
Definition res_equiv r1 r2 : Prop := ∀ n, qty r1 n = qty r2 n.

(** No amount is negative. *)
Definition res_nonneg r : Prop := ∀ n, (0 ≤ qty r n)%Z.
End values.

#[export] Instance res_equiv_equivalence {T : ApiTypes} {Q : QuantityOps} {L : QuantityLaws} :
  Equivalence res_equiv.
Proof.
  split.
  - by intros r n.
  - by intros r1 r2 H n.
  - intros r1 r2 r3 H12 H23 n. by rewrite (H12 n).
Qed.

Section lemmas.
Context {T : ApiTypes} {Q : QuantityOps} {L : QuantityLaws}.
Implicit Types (r other : Resources) (m o : gmap string Quantity) (n : ResourceName).

Lemma qty_lookup m n q : m !! n = Some q → qty (Some m) n = qval q.
Proof. unfold qty, res_get, gomap_lookup. simpl. by intros ->. Qed.

Lemma qty_Some m n : qty (Some m) n = qval (default Quantity_zero (m !! n)).
Proof. done. Qed.

Lemma qty_absent r n : gomap_lookup r n = None → qty r n = 0%Z.
Proof. unfold qty, res_get. intros ->. apply qval_zero. Qed.

Lemma qty_nil n : qty None n = 0%Z.
Proof. by apply qty_absent. Qed.

Lemma qty_empty n : qty (Some ∅) n = 0%Z.
Proof. by apply qty_absent. Qed.

Lemma qty_or_make r n : qty (or_make r) n = qty r n.
Proof. destruct r; [done|]. by rewrite qty_nil, qty_empty. Qed.

Lemma res_get_or_make r n : res_get (or_make r) n = res_get r n.
Proof. by destruct r. Qed.

(** The copying loop rebuilds the map it ranges over. *)
Lemma copy_items_perm l m : l ≡ₚ map_to_list m → copy_items l = m.
Proof.
  intros Hl. unfold copy_items.
  assert (NoDup l.*1) as Hnd by (rewrite Hl; apply NoDup_fst_map_to_list).
  cut (∀ acc : gmap string Quantity, foldl (λ m '(name, qty), <[name := Quantity_DeepCopy qty]> m) acc l
         = list_to_map l ∪ acc).
  { intros ->. rewrite (right_id_L ∅ (∪)).
    rewrite (list_to_map_proper _ (map_to_list m)) by done. apply list_to_map_to_list. }
  clear Hl m. induction l as [|[k v] l IH]; intros acc; simpl.
  { by rewrite (left_id_L ∅ (∪)). }
  apply NoDup_cons in Hnd as [Hk Hnd]. rewrite IH by done. simpl in Hk.
  rewrite qdeepcopy, <- insert_union_l, insert_union_r; [done|].
  by apply not_elem_of_list_to_map_1.
Qed.

Lemma copy_items_id m : copy_items (map_to_list m) = m.
Proof. by apply copy_items_perm. Qed.

Lemma FromResourceList_eq rl : FromResourceList rl = Some (default ∅ rl).
Proof. unfold FromResourceList. destruct rl; simpl; [by rewrite copy_items_id|done]. Qed.

Lemma Resources_Clone_eq r : Resources_Clone r = r.
Proof. destruct r; simpl; [by rewrite copy_items_id|done]. Qed.

Lemma Resources_ToResourceList_eq r : Resources_ToResourceList r = r.
Proof. destruct r; simpl; [by rewrite copy_items_id|done]. Qed.

(** The receiver's loops, in any order of the other map's items. *)
Definition add_map m o := union_with (λ a b, Some (Quantity_Add a b)) m o.
Definition sub_map m o := union_with (λ a b, Some (Quantity_Sub a b)) m o.

Lemma Resources_Add_loop m o l :
  l ≡ₚ map_to_list o → range_fold Resources_Add_body l (Some m) = Ret (Some (add_map m o)).
Proof.
  intros Hl.
  assert (NoDup l.*1) as Hnd by (rewrite Hl; apply NoDup_fst_map_to_list).
  rewrite (range_fold_union_with Quantity_Add); [|intros m' k v|done].
  - unfold add_map. rewrite (list_to_map_proper l (map_to_list o)) by done.
    by rewrite list_to_map_to_list.
  - simpl. unfold gomap_lookup; simpl. destruct (m' !! k); [done|]. by rewrite qdeepcopy.
Qed.

Lemma Resources_Sub_loop m o l :
  l ≡ₚ map_to_list o → range_fold Resources_Sub_body l (Some m) = Ret (Some (sub_map m o)).
Proof.
  intros Hl.
  assert (NoDup l.*1) as Hnd by (rewrite Hl; apply NoDup_fst_map_to_list).
  rewrite (range_fold_union_with Quantity_Sub); [|intros m' k v|done].
  - unfold sub_map. rewrite (list_to_map_proper l (map_to_list o)) by done.
    by rewrite list_to_map_to_list.
  - simpl. unfold gomap_lookup; simpl. destruct (m' !! k); [done|]. by rewrite qdeepcopy.
Qed.

Lemma Resources_Add_eq m other :
  Resources_Add (Some m) other = Ret (Some (add_map m (default ∅ other))).
Proof.
  destruct other as [o|]; simpl.
  - by apply Resources_Add_loop.
  - unfold add_map. by rewrite (right_id_L ∅ _).
Qed.

Lemma Resources_Sub_eq m other :
  Resources_Sub (Some m) other = Ret (Some (sub_map m (default ∅ other))).
Proof.
  destruct other as [o|]; simpl.
  - by apply Resources_Sub_loop.
  - unfold sub_map. by rewrite (right_id_L ∅ _).
Qed.

Lemma qty_default other n : qty (Some (default ∅ other)) n = qty other n.
Proof. destruct other; [done|]. by rewrite qty_nil, qty_empty. Qed.

Lemma qty_add_map m o n : qty (Some (add_map m o)) n = (qty (Some m) n + qty (Some o) n)%Z.
Proof.
  unfold qty, res_get, gomap_lookup, add_map; simpl. rewrite lookup_union_with.
  destruct (m !! n), (o !! n); simpl; rewrite ?qval_add, ?qval_zero; lia.
Qed.

Lemma qty_sub_map m o n :
  qty (Some (sub_map m o)) n =
  (if bool_decide (n ∈ dom m) then qty (Some m) n - qty (Some o) n else qty (Some o) n)%Z.
Proof.
  unfold qty, res_get, gomap_lookup, sub_map; simpl. rewrite lookup_union_with.
  case_bool_decide as Hn; rewrite elem_of_dom in Hn.
  - destruct Hn as [q Hq]. rewrite Hq.
    destruct (o !! n); simpl; rewrite ?qval_sub, ?qval_zero; lia.
  - apply eq_None_not_Some in Hn. rewrite Hn. by destruct (o !! n).
Qed.

Lemma dom_add_map m o : dom (add_map m o) = dom m ∪ dom o.
Proof.
  apply set_eq. intros n. unfold add_map.
  rewrite elem_of_union, !elem_of_dom, lookup_union_with.
  destruct (m !! n), (o !! n); simpl; rewrite <- ?not_eq_None_Some; naive_solver.
Qed.

Lemma dom_sub_map m o : dom (sub_map m o) = dom m ∪ dom o.
Proof.
  apply set_eq. intros n. unfold sub_map.
  rewrite elem_of_union, !elem_of_dom, lookup_union_with.
  destruct (m !! n), (o !! n); simpl; rewrite <- ?not_eq_None_Some; naive_solver.
Qed.

(** Subtraction is exact when every name missing from the receiver is zero in
    the other map. *)
Lemma qty_sub_map_exact m o n :
  (n ∉ dom m → qty (Some o) n = 0%Z) →
  qty (Some (sub_map m o)) n = (qty (Some m) n - qty (Some o) n)%Z.
Proof.
  intros Hn. rewrite qty_sub_map. case_bool_decide as Hd; [done|].
  rewrite (qty_absent (Some m)) by by apply not_elem_of_dom.
  rewrite Hn by done. lia.
Qed.

Lemma getResNames_elem r1 r2 n :
  n ∈ getResNames [r1; r2] ↔ is_Some (gomap_lookup r1 n) ∨ is_Some (gomap_lookup r2 n).
Proof.
  assert (∀ (l : list (string * Quantity)) (s : gset string),
    n ∈ foldl (λ names '(name, _), names ∪ {[name]}) s l ↔ n ∈ s ∨ n ∈ l.*1) as Hfold.
  { induction l as [|[k v] l IH]; intros s; simpl; [set_solver|]. rewrite IH. set_solver. }
  assert (∀ r, n ∈ (gomap_items r).*1 ↔ is_Some (gomap_lookup r n)) as Hitems.
  { intros r. rewrite list_elem_of_fmap. unfold is_Some. split.
    - intros ([k v] & -> & Hk). exists v. by apply gomap_items_elem.
    - intros [v Hv]. exists (n, v). split; [done|]. by apply gomap_items_elem. }
  unfold getResNames. simpl.
  destruct r1 as [m1|], r2 as [m2|]; rewrite ?Hfold, <- ?Hitems; simpl; set_solver.
Qed.
End lemmas.

#[local] Open Scope Z_scope.

Section comparisons.
Context {T : ApiTypes} {Q : QuantityOps} {L : QuantityLaws}.
Implicit Types (r other : Resources) (m o : gmap string Quantity) (n : ResourceName).

Lemma gomap_lookup_qty r n q : gomap_lookup r n = Some q → qty r n = qval q.
Proof. unfold qty, res_get. by intros ->. Qed.

Lemma or_make_lookup r n : gomap_lookup (or_make r) n = gomap_lookup r n.
Proof. by destruct r. Qed.

Lemma or_make_items r : gomap_items (or_make r) = gomap_items r.
Proof. destruct r; [done|]. apply map_to_list_empty. Qed.

(** A loop over all names of two maps decides a statement about the names that
    one of them has. *)
Lemma forallb_names r other (f : string → bool) (P : string → Prop) :
  (∀ n, f n = true ↔ P n) →
  forallb f (elements (getResNames [or_make r; or_make other])) = true ↔
  ∀ n, n ∈ gomap_dom r ∪ gomap_dom other → P n.
Proof.
  intros Hf. rewrite forallb_forall.
  assert (∀ n, In n (elements (getResNames [or_make r; or_make other])) ↔
    n ∈ gomap_dom r ∪ gomap_dom other) as Hin.
  { intros n. rewrite <- list_elem_of_In, elem_of_elements, getResNames_elem.
    by rewrite !or_make_lookup, elem_of_union, !gomap_dom_elem. }
  split.
  - intros H n Hn. by apply Hf, H, Hin.
  - intros H n Hn. by apply Hf, H, Hin.
Qed.

Lemma qty_not_in_dom r n : n ∉ gomap_dom r → qty r n = 0.
Proof. rewrite gomap_dom_elem, <- eq_None_not_Some. apply qty_absent. Qed.

(** A statement about amounts that holds of 0 and 0 holds at all names once it
    holds at the names one of the maps has. *)
Lemma all_names r other (P : Z → Z → Prop) :
  P 0 0 → (∀ n, n ∈ gomap_dom r ∪ gomap_dom other → P (qty r n) (qty other n)) ↔
  ∀ n, P (qty r n) (qty other n).
Proof.
  intros H0. split; [|by auto]. intros H n.
  destruct (decide (n ∈ gomap_dom r ∪ gomap_dom other)) as [|Hn]; [by auto|].
  apply not_elem_of_union in Hn as [Hr Ho]. by rewrite !qty_not_in_dom.
Qed.

(** A loop over the items of [r] decides an existential about common names. *)
Lemma existsb_common r other (f : string * Quantity → bool) (P : Z → Z → Prop) :
  (∀ n q, f (n, q) = true ↔
    ∃ q', gomap_lookup other n = Some q' ∧ P (qval q) (qval q')) →
  existsb f (gomap_items r) = true ↔
  ∃ n, n ∈ gomap_dom r ∧ n ∈ gomap_dom other ∧ P (qty r n) (qty other n).
Proof.
  intros Hf. rewrite existsb_exists. split.
  - intros ([n q] & Hin & Hq). apply list_elem_of_In, gomap_items_elem in Hin.
    apply Hf in Hq as (q' & Hq' & HP). exists n.
    rewrite !gomap_dom_elem, (gomap_lookup_qty _ _ _ Hin), (gomap_lookup_qty _ _ _ Hq').
    eauto.
  - intros (n & [q Hq]%gomap_dom_elem & [q' Hq']%gomap_dom_elem & HP).
    rewrite (gomap_lookup_qty _ _ _ Hq), (gomap_lookup_qty _ _ _ Hq') in HP.
    exists (n, q). split; [by apply list_elem_of_In, gomap_items_elem|].
    apply Hf. eauto.
Qed.

Lemma forallb_negb {A} (f : A → bool) l : forallb f l = negb (existsb (λ x, negb (f x)) l).
Proof. induction l as [|x l IH]; simpl; [done|]. rewrite IH. by destruct (f x). Qed.

Lemma AnyGreaterIntersecting_spec r other :
  Resources_AnyGreaterIntersecting r other = true ↔
  ∃ n, n ∈ gomap_dom r ∧ n ∈ gomap_dom other ∧ (qty r n > qty other n)%Z.
Proof.
  unfold Resources_AnyGreaterIntersecting. rewrite or_make_items.
  apply (existsb_common r other _ (λ a b, (a > b)%Z)). intros n q.
  rewrite or_make_lookup. destruct (gomap_lookup other n) as [q'|].
  - rewrite Z.gtb_gt, qcmp_gt. naive_solver.
  - naive_solver.
Qed.

Lemma AnyGreaterIntersecting_false r other :
  Resources_AnyGreaterIntersecting r other = false ↔
  ∀ n, n ∈ gomap_dom r → n ∈ gomap_dom other → (qty r n ≤ qty other n)%Z.
Proof.
  rewrite <- not_true_iff_false, AnyGreaterIntersecting_spec. split.
  - intros H n Hr Ho. destruct (decide (qty r n ≤ qty other n)%Z) as [|Hn]; [done|].
    exfalso. apply H. exists n. split_and!; [done|done|lia].
  - intros H (n & Hr & Ho & Hgt). specialize (H n Hr Ho). lia.
Qed.

Lemma AnyLessIntersecting_spec r other :
  Resources_AnyLessIntersecting r other = true ↔
  ∃ n, n ∈ gomap_dom r ∧ n ∈ gomap_dom other ∧ (qty r n < qty other n)%Z.
Proof.
  unfold Resources_AnyLessIntersecting. rewrite or_make_items.
  apply (existsb_common r other _ (λ a b, (a < b)%Z)). intros n q.
  rewrite or_make_lookup. destruct (gomap_lookup other n) as [q'|].
  - rewrite Z.ltb_lt, qcmp_lt. naive_solver.
  - naive_solver.
Qed.

Lemma existsb_ext' {A} (f g : A → bool) l : (∀ x, f x = g x) → existsb f l = existsb g l.
Proof. intros H. induction l as [|x l IH]; simpl; [done|]. by rewrite H, IH. Qed.

Lemma AllLessIntersecting_negb r other :
  Resources_AllLessIntersecting r other = negb (Resources_AnyGreaterIntersecting r other).
Proof.
  unfold Resources_AllLessIntersecting, Resources_AnyGreaterIntersecting.
  rewrite forallb_negb. f_equal. apply existsb_ext'. intros [n q].
  destruct (gomap_lookup _ _); [apply negb_involutive|done].
Qed.

Lemma AllGreaterIntersecting_negb r other :
  Resources_AllGreaterIntersecting r other = negb (Resources_AnyLessIntersecting r other).
Proof.
  unfold Resources_AllGreaterIntersecting, Resources_AnyLessIntersecting.
  rewrite forallb_negb. f_equal. apply existsb_ext'. intros [n q].
  destruct (gomap_lookup _ _); [apply negb_involutive|done].
Qed.

Lemma AllGreater_spec r other :
  Resources_AllGreater r other = true ↔ ∀ n, qty r n >= qty other n.
Proof.
  rewrite <- (all_names r other Z.ge) by lia. apply forallb_names.
  intros n. rewrite !res_get_or_make, negb_true_iff, Z.ltb_ge. unfold qty.
  pose proof (qcmp_lt (res_get r n) (res_get other n)). lia.
Qed.

Lemma Equivalent_spec r other : Resources_Equivalent r other = true ↔ res_equiv r other.
Proof.
  unfold res_equiv. rewrite <- (all_names r other eq) by done. apply forallb_names.
  intros n. rewrite !res_get_or_make. apply qequal_true.
Qed.

Lemma Equal_spec r other :
  Resources_Equal r other = true ↔ gomap_dom r = gomap_dom other ∧ res_equiv r other.
Proof.
  unfold Resources_Equal, res_equiv. rewrite <- (all_names r other eq) by done.
  rewrite (forallb_names r other _ (λ n,
    n ∈ gomap_dom r ∧ n ∈ gomap_dom other ∧ qty r n = qty other n)).
  - split; [intros H; split; [apply set_eq; intros n; split; intros Hn|intros n Hn]|].
    + apply (H n). set_solver.
    + apply (H n). set_solver.
    + apply H, Hn.
    + intros [Hd H] n Hn. rewrite Hd in *. set_solver.
  - intros n. rewrite !or_make_lookup, !gomap_dom_elem. unfold qty, res_get.
    destruct (gomap_lookup r n), (gomap_lookup other n); simpl; rewrite ?qequal_true;
      split; (done || (intros [[] ?]; done) || (intros (?&[]&?); done) || idtac).
Qed.
End comparisons.

Section updates.
Context {T : ApiTypes} {Q : QuantityOps} {L : QuantityLaws}.
Implicit Types (r other : Resources) (m o : gmap string Quantity) (n : ResourceName).

(** The entry of [n] after [SetMinExisting], from the entries before. *)
Definition min_entry (cur max : option Quantity) : option Quantity :=
  match max with
  | Some v => if Quantity_Cmp v (default Quantity_zero cur) <? 0 then Some v else cur
  | None => cur
  end.

Lemma SetMinExisting_loop l m :
  NoDup l.*1 →
  ∃ m', range_fold Resources_SetMinExisting_body l (Some m) = Ret (Some m')
    ∧ ∀ n, m' !! n = min_entry (m !! n) ((list_to_map l : gmap _ _) !! n).
Proof.
  induction l as [|[k v] l IH] in m |- *; intros Hnd; simpl.
  { exists m. by split. }
  apply NoDup_cons in Hnd as [Hk Hnd]. simpl in Hk.
  apply not_elem_of_list_to_map_1 in Hk.
  unfold res_get, gomap_lookup; simpl.
  destruct (Quantity_Cmp v _ <? 0) eqn:E; unfold mbind, mret; simpl.
  - destruct (IH (<[k := Quantity_DeepCopy v]> m) Hnd) as (m' & Hm' & Hl).
    exists m'. split; [done|]. intros n. rewrite Hl, !lookup_insert.
    case_decide; [|done]. subst n. rewrite Hk. simpl. by rewrite E, qdeepcopy.
  - destruct (IH m Hnd) as (m' & Hm' & Hl).
    exists m'. split; [done|]. intros n. rewrite Hl, !lookup_insert.
    case_decide; [|done]. subst n. rewrite Hk. simpl. by rewrite E.
Qed.

Lemma qval_min_entry cur max :
  qval (default Quantity_zero (min_entry cur max)) =
  match max with
  | Some v => Z.min (qval (default Quantity_zero cur)) (qval v)
  | None => qval (default Quantity_zero cur)
  end.
Proof.
  destruct max as [v|]; simpl; [|done].
  pose proof (qcmp_lt v (default Quantity_zero cur)).
  destruct (Z.ltb_spec (Quantity_Cmp v (default Quantity_zero cur)) 0); simpl; lia.
Qed.

Lemma Negate_loop l m :
  NoDup l.*1 → (∀ k v, (k, v) ∈ l → is_Some (m !! k)) →
  ∃ m', range_fold (λ r '(k, q), gomap_set r k (Quantity_Sub Quantity_zero q)) l (Some m) = Ret (Some m')
    ∧ dom m' = dom m
    ∧ ∀ n, m' !! n = match (list_to_map l : gmap _ _) !! n with
                     | Some v => Some (Quantity_Sub Quantity_zero v)
                     | None => m !! n
                     end.
Proof.
  induction l as [|[k v] l IH] in m |- *; intros Hnd Hin; simpl.
  { by exists m. }
  apply NoDup_cons in Hnd as [Hk Hnd]. simpl in Hk.
  apply not_elem_of_list_to_map_1 in Hk. unfold mbind; simpl.
  destruct (IH (<[k := Quantity_Sub Quantity_zero v]> m) Hnd) as (m' & Hm' & Hd & Hl).
  { intros k' v' Hkv. rewrite lookup_insert. case_decide; [done|].
    eapply Hin. apply elem_of_cons. by right. }
  exists m'. split; [done|]. split.
  - rewrite Hd, dom_insert_L.
    assert (k ∈ dom m) by (apply elem_of_dom, (Hin k v), elem_of_cons; by left). set_solver.
  - intros n. rewrite Hl, !lookup_insert. case_decide; [|done]. subst n. by rewrite Hk.
Qed.
End updates.

(** ** Properties *)
Section properties.
Context {T : ApiTypes} {Q : QuantityOps} {L : QuantityLaws}.
Implicit Types (r other : Resources) (m o : gmap string Quantity) (n : ResourceName).

(** [Add] on a non-nil receiver never panics; its result does not depend
    on the order in which Go iterates over [other], has the names of both maps,
    and holds the sum of the amounts of every resource. *)
Theorem Resources_Add_correct m other :
  ∃ m', Resources_Add (Some m) other = Ret (Some m')
    ∧ (∀ l, l ≡ₚ gomap_items other → range_fold Resources_Add_body l (Some m) = Ret (Some m'))
    ∧ dom m' = dom m ∪ gomap_dom other
    ∧ ∀ n, qty (Some m') n = qty (Some m) n + qty other n.
Proof.
  exists (add_map m (default ∅ other)). rewrite Resources_Add_eq. split_and!; [done|..].
  - intros l Hl. apply Resources_Add_loop. by destruct other; rewrite ?map_to_list_empty.
  - rewrite dom_add_map. by destruct other; rewrite ?dom_empty_L.
  - intros n. by rewrite qty_add_map, qty_default.
Qed.

(** C37: [Sub] on a non-nil receiver never panics and is independent of the
    iteration order; it subtracts the amounts of the names the receiver has,
    but a name the receiver lacks is stored with the amount of [other] itself,
    not its negation. *)
Theorem Resources_Sub_correct m other :
  ∃ m', Resources_Sub (Some m) other = Ret (Some m')
    ∧ (∀ l, l ≡ₚ gomap_items other → range_fold Resources_Sub_body l (Some m) = Ret (Some m'))
    ∧ dom m' = dom m ∪ gomap_dom other
    ∧ ∀ n, qty (Some m') n =
        if bool_decide (n ∈ dom m) then qty (Some m) n - qty other n else qty other n.
Proof.
  exists (sub_map m (default ∅ other)). rewrite Resources_Sub_eq. split_and!; [done|..].
  - intros l Hl. apply Resources_Sub_loop. by destruct other; rewrite ?map_to_list_empty.
  - rewrite dom_sub_map. by destruct other; rewrite ?dom_empty_L.
  - intros n. by rewrite qty_sub_map, qty_default.
Qed.

(** C38: adding resources and then subtracting the same resources restores
    every amount (the names stay, possibly with amount zero). *)
Theorem Resources_Add_Sub_roundtrip m other :
  ∃ m1 m2, Resources_Add (Some m) other = Ret (Some m1)
    ∧ Resources_Sub (Some m1) other = Ret (Some m2)
    ∧ res_equiv (Some m2) (Some m)
    ∧ dom m2 = dom m ∪ gomap_dom other.
Proof.
  exists (add_map m (default ∅ other)), (sub_map (add_map m (default ∅ other)) (default ∅ other)).
  rewrite Resources_Add_eq, Resources_Sub_eq. split_and!; [done..| |].
  - intros n. rewrite qty_sub_map_exact, qty_add_map; [lia|].
    rewrite dom_add_map. intros Hn. apply qty_not_in_dom. simpl. set_solver.
  - rewrite dom_sub_map, dom_add_map. destruct other; simpl; set_solver.
Qed.

(** The non-mutating [Plus], [Minus], [Negated] and [TakeMinExisting] never
    panic on a non-nil receiver; [Minus] inherits the sign error of [Sub] for
    names the receiver lacks, and on a nil receiver [Minus] returns [other]
    itself rather than its negation. *)
Theorem Resources_copying_operations m other :
  (∃ m', Resources_Plus (Some m) other = Ret (Some m')
     ∧ ∀ n, qty (Some m') n = qty (Some m) n + qty other n)
  ∧ (∃ m', Resources_Minus (Some m) other = Ret (Some m')
     ∧ ∀ n, qty (Some m') n =
         if bool_decide (n ∈ dom m) then qty (Some m) n - qty other n else qty other n)
  ∧ (∃ m', Resources_Negated (Some m) = Ret (Some m') ∧ dom m' = dom m
     ∧ ∀ n, qty (Some m') n = - qty (Some m) n)
  ∧ Resources_Minus None other = Ret other.
Proof.
  unfold Resources_Plus, Resources_Minus, Resources_Negated.
  rewrite !Resources_Clone_eq, Resources_Add_eq, Resources_Sub_eq. split_and!; [..|done].
  - eexists. split; [done|]. intros n. by rewrite qty_add_map, qty_default.
  - eexists. split; [done|]. intros n. by rewrite qty_sub_map, qty_default.
  - destruct (Negate_loop (map_to_list m) m) as (m' & Hm' & Hd & Hl).
    { apply NoDup_fst_map_to_list. }
    { intros k v Hkv%elem_of_map_to_list. by eexists. }
    exists m'. unfold Resources_Negate; simpl. split_and!; [done..|]. intros n.
    unfold qty, res_get, gomap_lookup; simpl. rewrite Hl, list_to_map_to_list.
    destruct (m !! n); simpl; rewrite ?qval_sub, ?qval_zero; lia.
Qed.

Lemma TakeMinExisting_qty m other :
  ∃ m', Resources_TakeMinExisting (Some m) other = Ret (Some m')
    ∧ (∀ n, qty (Some m') n =
         if bool_decide (n ∈ gomap_dom other) then Z.min (qty (Some m) n) (qty other n)
         else qty (Some m) n)
    ∧ (res_nonneg other → dom m' = dom m).
Proof.
  unfold Resources_TakeMinExisting, Resources_SetMinExisting. rewrite Resources_Clone_eq.
  destruct (SetMinExisting_loop (gomap_items other) m (gomap_items_nodup other)) as (m' & Hm' & Hl).
  assert (∀ n, (list_to_map (gomap_items other) : gmap _ _) !! n = gomap_lookup other n) as Ho.
  { intros n. destruct other; simpl; [by rewrite list_to_map_to_list|done]. }
  exists m'. split_and!; [done|..].
  - intros n. rewrite !qty_Some, Hl, qval_min_entry, Ho. unfold qty, res_get.
    case_bool_decide as Hn; rewrite gomap_dom_elem in Hn.
    + by destruct Hn as [v ->].
    + apply eq_None_not_Some in Hn. by rewrite Hn.
  - intros Hnn. apply set_eq. intros n. rewrite !elem_of_dom, Hl, Ho.
    specialize (Hnn n). unfold qty, res_get in Hnn. unfold min_entry.
    destruct (gomap_lookup other n) as [v|], (m !! n) as [c|]; simpl in *; try done.
    + destruct (_ <? _); split; intros _; by eexists.
    + destruct (Z.ltb_spec (Quantity_Cmp v Quantity_zero) 0) as [Hlt|]; [|done].
      apply qcmp_lt in Hlt. rewrite qval_zero in Hlt. lia.
Qed.

(** [TakeMinExisting] on a non-nil receiver holds, for every name of
    [other], the smaller of the two amounts, and the receiver's amount for the
    other names; it keeps exactly the receiver's names when no amount of
    [other] is negative. *)
Theorem Resources_TakeMinExisting_correct m other :
  ∃ m', Resources_TakeMinExisting (Some m) other = Ret (Some m')
    ∧ (∀ n, qty (Some m') n =
         if bool_decide (n ∈ gomap_dom other) then Z.min (qty (Some m) n) (qty other n)
         else qty (Some m) n)
    ∧ (res_nonneg other → dom m' = dom m).
Proof. apply TakeMinExisting_qty. Qed.

(** What each comparison decides.  [AllGreater] is a pointwise [>=] with
    absent names as zero; the [Intersecting] comparisons look at the common
    names only; [Equivalent] is numerical equality and [Equal] also asks for
    the same names; and [AllLess] computes the very same [>=] as [AllGreater]. *)
Theorem Resources_comparisons_correct r other :
  (Resources_AllGreater r other = true ↔ ∀ n, qty r n >= qty other n)
  ∧ (Resources_AllLess r other = true ↔ ∀ n, qty r n >= qty other n)
  ∧ (Resources_AnyGreaterIntersecting r other = true ↔
      ∃ n, n ∈ gomap_dom r ∧ n ∈ gomap_dom other ∧ qty r n > qty other n)
  ∧ Resources_AllLessIntersecting r other = negb (Resources_AnyGreaterIntersecting r other)
  ∧ (Resources_AnyLessIntersecting r other = true ↔
      ∃ n, n ∈ gomap_dom r ∧ n ∈ gomap_dom other ∧ qty r n < qty other n)
  ∧ Resources_AllGreaterIntersecting r other = negb (Resources_AnyLessIntersecting r other)
  ∧ (Resources_Equivalent r other = true ↔ res_equiv r other)
  ∧ (Resources_Equal r other = true ↔ gomap_dom r = gomap_dom other ∧ res_equiv r other).
Proof.
  split_and!.
  - apply AllGreater_spec.
  - apply AllGreater_spec.
  - apply AnyGreaterIntersecting_spec.
  - apply AllLessIntersecting_negb.
  - apply AnyLessIntersecting_spec.
  - apply AllGreaterIntersecting_negb.
  - apply Equivalent_spec.
  - apply Equal_spec.
Qed.
End properties.

(** ** The properties at concrete maps *)
Section witnesses.
#[local] Existing Instances c_api c_quantity c_quantity_laws.

Definition ex_m : gmap ResourceName Quantity := {[ "cpu" := (5%Z : Quantity) ]}.
Definition ex_o : Resources := Some {[ "gpu" := (2%Z : Quantity) ]}.

Lemma Resources_Add_correct_witness : ∃ m', Resources_Add (Some ex_m) ex_o = Ret (Some m').
Proof. destruct (Resources_Add_correct ex_m ex_o) as (m' & H & _). exists m'. exact H. Defined.

(** Subtracting 2 "gpu" from a map without "gpu" leaves 2, not -2. *)
Lemma Resources_Sub_correct_witness :
  ∃ m', Resources_Sub (Some ex_m) ex_o = Ret (Some m') ∧ qty (Some m') "gpu" = 2.
Proof.
  destruct (Resources_Sub_correct ex_m ex_o) as (m' & H & _ & _ & Hq). exists m'. split; [exact H|].
  rewrite Hq. vm_compute. reflexivity.
Defined.

Lemma Resources_Add_Sub_roundtrip_witness :
  ∃ m1 m2, Resources_Add (Some ex_m) ex_o = Ret (Some m1) ∧ Resources_Sub (Some m1) ex_o = Ret (Some m2)
    ∧ qty (Some m2) "gpu" = 0.
Proof.
  destruct (Resources_Add_Sub_roundtrip ex_m ex_o) as (m1 & m2 & H1 & H2 & Hq & _). exists m1, m2.
  split; [exact H1|]. split; [exact H2|]. rewrite (Hq "gpu"). vm_compute. reflexivity.
Defined.

Lemma Resources_comparisons_correct_witness :
  Resources_AllLess (Some ex_m) None = true ↔ ∀ n, qty (Some ex_m) n >= qty None n.
Proof. exact (proj1 (proj2 (Resources_comparisons_correct (Some ex_m) None))). Defined.
End witnesses.

#[global] Arguments FromPodReq : simpl never.
#[global] Arguments FromResourceList : simpl never.
#[global] Arguments Resources_Add : simpl never.
#[global] Arguments Resources_Sub : simpl never.
#[global] Arguments Resources_Plus : simpl never.
#[global] Arguments Resources_Clone : simpl never.
#[global] Arguments Resources_AnyGreaterIntersecting : simpl never.
