(* ===== verification/Api.v ===== *)
(** * Api: the Queue custom resource and the plugin's arguments

    [apis/scheduling] and [apis/config]: group and label names, the spec and
    status of a [Queue] object, the helpers that build preemption rules, and
    the plugin's configuration.  Type and object metadata keep the fields the
    scheduler reads. *)

From stdpp Require Import base tactics option list gmap strings sorting.
From Stdlib Require Import ZArith Lia.
From S2P Require Import Prelude.
From S2P Require Import External.

Section api.
Context {T : ApiTypes}.

Definition GroupName : string := "scheduling.kaschnit.github.io".
Definition LabelKeyQueue : string := GroupName +:+ "/queue".
Definition Version : string := "v1".
Definition QueueFQRN : string := "queues." +:+ Version +:+ "." +:+ GroupName.

Record QuotaSpec := mkQuotaSpec { quotaSpec_Max : gomap Quantity }.

Record PreemptionRule := mkPreemptionRule {
  rule_FromPods : option LabelSelector;
  rule_ToPods : option LabelSelector;
}.

Record PreemptionSpec := mkPreemptionSpec {
  spec_Preempts : PreemptionRule;
  spec_PreemptedBy : PreemptionRule;
}.

Record QueueSpec := mkQueueSpec {
  queueSpec_Quota : QuotaSpec;
  queueSpec_Preemption : PreemptionSpec;
}.

Record QuotaStatus := mkQuotaStatus {
  quotaStatus_EffectiveMax : gomap Quantity;
  quotaStatus_Used : gomap Quantity;
}.

Record QueueStatus := mkQueueStatus { queueStatus_Quota : QuotaStatus }.

(** The API object; [schedv1.Queue] in the code. *)
Record QueueObj := mkQueueObj {
  queueObj_Name : string;
  queueObj_Labels : gomap string;
  queueObj_Spec : QueueSpec;
  queueObj_Status : QueueStatus;
}.

Definition PreemptionEverything {L : SelectorOps} : PreemptionRule := {|
  rule_FromPods := Some LabelSelector_empty;
  rule_ToPods := Some LabelSelector_empty;
|}.

Definition PreemptionNothing : PreemptionRule := {|
  rule_FromPods := None;
  rule_ToPods := None;
|}.

(** [configv1.PreemptionConfig] and [QuotaAwarePreemptionArgs]. *)
Record ArgsPreemptionConfig := mkArgsPreemptionConfig { MaxCandidateNodes : option Z }.
Record QuotaAwarePreemptionArgs := mkArgs { args_Preemption : ArgsPreemptionConfig }.
End api.
