(* ===== verification/Pods.v ===== *)
(** * Pods: [internal/pods]

    The builder's options, the phase and condition predicates, the preemption
    policy, and the importance order that sorts victims. *)

From stdpp Require Import base tactics option list gmap strings sorting.
From Stdlib Require Import ZArith Lia.
From S2P Require Import Prelude.
From S2P Require Import External.
From S2P Require Import Concrete.
From S2P Require Import Api.

Section pods.
Context {T : ApiTypes}.

(** *** builder.go *)

(** [&corev1.Pod{Name: name}] *)
Definition Pod_named (name : string) : Pod := {|
  pod_Name := name; pod_Namespace := ""; pod_UID := "";
  pod_Labels := None; pod_DeletionTimestamp := None; pod_Containers := [];
  pod_Priority := None; pod_PreemptionPolicy := None; pod_PriorityClassName := "";
  pod_SchedulerName := ""; pod_NodeName := ""; pod_Phase := "";
  pod_Conditions := []; pod_NominatedNodeName := "";
|}.

(** The fields the options write; every other field is copied. *)
Definition Pod_update (p : Pod) (name namespace schedulerName priorityClassName : string)
    (labels : gomap string) (containers : list Container) : Pod := {|
  pod_Name := name; pod_Namespace := namespace; pod_UID := pod_UID p;
  pod_Labels := labels; pod_DeletionTimestamp := pod_DeletionTimestamp p;
  pod_Containers := containers; pod_Priority := pod_Priority p;
  pod_PreemptionPolicy := pod_PreemptionPolicy p;
  pod_PriorityClassName := priorityClassName; pod_SchedulerName := schedulerName;
  pod_NodeName := pod_NodeName p; pod_Phase := pod_Phase p;
  pod_Conditions := pod_Conditions p; pod_NominatedNodeName := pod_NominatedNodeName p;
|}.

(** [Option] is a function on a pod pointer: the pod after the call. *)
Definition PodOption : Type := Pod → outcome Pod.

Definition pods_New (name : string) (opts : list PodOption) : outcome Pod :=
  range_fold (λ p opt, opt p) opts (Pod_named name).

Definition WithName (name : string) : PodOption := λ p,
  mret (Pod_update p name (pod_Namespace p) (pod_SchedulerName p)
    (pod_PriorityClassName p) (pod_Labels p) (pod_Containers p)).

Definition WithNamespace (namespace : string) : PodOption := λ p,
  mret (Pod_update p (pod_Name p) namespace (pod_SchedulerName p)
    (pod_PriorityClassName p) (pod_Labels p) (pod_Containers p)).

Definition WithSchedulerName (schedulerName : string) : PodOption := λ p,
  mret (Pod_update p (pod_Name p) (pod_Namespace p) schedulerName
    (pod_PriorityClassName p) (pod_Labels p) (pod_Containers p)).

Definition AddContainer (containers : list Container) : PodOption := λ p,
  mret (Pod_update p (pod_Name p) (pod_Namespace p) (pod_SchedulerName p)
    (pod_PriorityClassName p) (pod_Labels p) (pod_Containers p ++ containers)).

Definition WithQueue (queueName : string) : PodOption := λ p,
  let labels := match pod_Labels p with None => gomap_make | Some m => Some m end in
  labels' ← gomap_set labels LabelKeyQueue queueName;
  mret (Pod_update p (pod_Name p) (pod_Namespace p) (pod_SchedulerName p)
    (pod_PriorityClassName p) labels' (pod_Containers p)).

Definition WithPriorityClass (priorityClassName : string) : PodOption := λ p,
  mret (Pod_update p (pod_Name p) (pod_Namespace p) (pod_SchedulerName p)
    priorityClassName (pod_Labels p) (pod_Containers p)).

(** *** conditions.go *)
Definition HasCondition (pod : Pod) (typ status reason : string) : bool :=
  existsb (λ condition,
    bool_decide (cond_Type condition = typ) && bool_decide (cond_Status condition = status)
      && bool_decide (cond_Reason condition = reason)) (pod_Conditions pod).

(** *** pod_states.go *)
Definition IsTerminalPhase (phase : string) : bool :=
  bool_decide (phase = PodSucceeded) || bool_decide (phase = PodFailed).

Definition IsTerminal (pod : option Pod) : bool :=
  match pod with None => true | Some pod => IsTerminalPhase (pod_Phase pod) end.

Definition IsNonTerminalPhase (phase : string) : bool :=
  bool_decide (phase = PodPending) || bool_decide (phase = PodRunning).

Definition IsNonTerminal (pod : option Pod) : bool :=
  match pod with None => false | Some pod => IsNonTerminalPhase (pod_Phase pod) end.

(** *** preemption.go *)
Definition PolicyAllowsPreemption (pod : option Pod) : bool :=
  match pod with
  | None => false
  | Some pod =>
      match pod_PreemptionPolicy pod with
      | None => true
      | Some policy =>
          if bool_decide (policy = PreemptLowerPriority) then true
          else if bool_decide (policy = PreemptNever) then false
          else if bool_decide (policy = ""%string) then true
          else false
      end
  end.

Definition TerminatingByPreemption (pod : Pod) : bool :=
  match pod_DeletionTimestamp pod with
  | None => false
  | Some _ => HasCondition pod DisruptionTarget ConditionTrue PodReasonPreemptionByScheduler
  end.

(** *** compare.go *)
Definition CompareImportanceDesc {P : PodOps} (a b : Pod) : Z :=
  if MoreImportantPod a b then -1
  else if MoreImportantPod b a then 1
  else 0.
End pods.

(** ** Lemmas *)
#[local] Open Scope Z_scope.

Section importance.
Context {T : ApiTypes} {P : PodOps} {PL : PodLaws}.
Implicit Types a b c : Pod.

Lemma CompareImportanceDesc_le a b : CompareImportanceDesc a b <= 0 ↔ MoreImportantPod b a = false.
Proof.
  unfold CompareImportanceDesc. destruct (MoreImportantPod a b) eqn:E.
  - split; [intros _; by apply more_important_asym|lia].
  - destruct (MoreImportantPod b a); split; (done || lia).
Qed.

(** The comparison is a strict weak ordering, as the sort requires. *)
Lemma CompareImportanceDesc_strict_weak : strict_weak CompareImportanceDesc.
Proof.
  split_and!.
  - intros a b. unfold CompareImportanceDesc. destruct (MoreImportantPod a b) eqn:E.
    + rewrite (more_important_asym _ _ E). lia.
    + destruct (MoreImportantPod b a); lia.
  - intros a b. unfold CompareImportanceDesc. destruct (MoreImportantPod a b) eqn:E; [lia|].
    destruct (MoreImportantPod b a) eqn:E'; lia.
  - intros a b c. rewrite !CompareImportanceDesc_le. intros Hab Hbc.
    destruct (MoreImportantPod c a) eqn:E; [|done].
    destruct (more_important_cotrans c b a E); congruence.
Qed.

(** Sorting by importance yields non-increasing priorities. *)
Lemma sorted_importance_priority l :
  StronglySorted (λ a b, CompareImportanceDesc a b <= 0) l →
  StronglySorted (λ a b, PodPriority a >= PodPriority b) l.
Proof.
  induction 1 as [|a l Hl IH Ha]; constructor; [done|].
  eapply Forall_impl; [exact Ha|]. simpl. intros b Hb%CompareImportanceDesc_le.
  destruct (decide (PodPriority a >= PodPriority b)) as [|Hn]; [done|].
  rewrite more_important_priority in Hb by lia. done.
Qed.
End importance.

Section phases.
Context {T : ApiTypes}.

(** No pod is both terminal and non-terminal, and a pod is neither exactly
    when its phase is not one of the four phases the code names: the two
    predicates are not complements of each other. *)
Theorem pod_phases_partition (pod : Pod) :
  (IsTerminal (Some pod) = true → IsNonTerminal (Some pod) = false)
  ∧ (IsTerminal (Some pod) = false ∧ IsNonTerminal (Some pod) = false ↔
      pod_Phase pod ∉ [PodPending; PodRunning; PodSucceeded; PodFailed])
  ∧ IsTerminal None = true ∧ IsNonTerminal None = false.
Proof.
  unfold IsTerminal, IsNonTerminal, IsTerminalPhase, IsNonTerminalPhase.
  rewrite !orb_true_iff, !orb_false_iff, !bool_decide_eq_true, !bool_decide_eq_false.
  rewrite !not_elem_of_cons. split_and!; [|split|done..].
  - intros [-> | ->]; done.
  - intros [[??][??]]. split_and!; try done. by intros ?%elem_of_nil.
  - intros (?&?&?&?&_). done.
Qed.

(** A pod built with options: the queue option never panics, on a pod with
    or without labels, sets the queue label and keeps every other label; the
    last of several queue options wins. *)
Theorem WithQueue_correct (pod : Pod) q :
  ∃ pod', WithQueue q pod = Ret pod'
    ∧ gomap_lookup (pod_Labels pod') LabelKeyQueue = Some q
    ∧ (∀ k, k ≠ LabelKeyQueue → gomap_lookup (pod_Labels pod') k = gomap_lookup (pod_Labels pod) k)
    ∧ ∀ q', WithQueue q' pod' = WithQueue q' pod.
Proof.
  destruct pod as [nm ns uid [ls|] dt cs pr pp pc sn nn ph cd nom]; unfold WithQueue; simpl.
  - eexists. split; [done|]. simpl. unfold gomap_lookup; simpl. split_and!.
    + apply lookup_insert_eq.
    + intros k Hk. by rewrite lookup_insert_ne.
    + intros q'. by rewrite insert_insert_eq.
  - eexists. split; [done|]. simpl. unfold gomap_lookup; simpl. split_and!.
    + apply lookup_insert_eq.
    + intros k Hk. rewrite lookup_insert_ne by done. apply lookup_empty.
    + intros q'. by rewrite insert_insert_eq.
Qed.
End phases.

Section sorting.
Context {T : ApiTypes} {P : PodOps} {PL : PodLaws} {SS : SliceSort} {SL : SliceSortLaws}.

Lemma sort_by_importance_sorted (l : list Pod) :
  StronglySorted (λ a b, MoreImportantPod b a = false) (slices_SortFunc CompareImportanceDesc l).
Proof.
  pose proof (sort_sorted CompareImportanceDesc l CompareImportanceDesc_strict_weak) as Hs.
  induction Hs as [|a l' Hl IH Ha]; constructor; [done|].
  eapply Forall_impl; [exact Ha|]. intros b. by apply CompareImportanceDesc_le.
Qed.

(** Sorting pods with [CompareImportanceDesc] gives a permutation in which
    no pod is followed by a more important one, whence the priorities never
    increase. *)
Theorem sort_by_importance (l : list Pod) :
  slices_SortFunc CompareImportanceDesc l ≡ₚ l
  ∧ StronglySorted (λ a b, MoreImportantPod b a = false) (slices_SortFunc CompareImportanceDesc l)
  ∧ StronglySorted (λ a b, PodPriority a >= PodPriority b) (slices_SortFunc CompareImportanceDesc l).
Proof.
  pose proof (sort_sorted CompareImportanceDesc l CompareImportanceDesc_strict_weak) as Hs.
  split_and!; [apply sort_perm|apply sort_by_importance_sorted|by apply sorted_importance_priority].
Qed.
End sorting.

Lemma sort_by_importance_witness :
  let l := [c_pod "a" "" 50 []; c_pod "b" "" 10 []; c_pod "c" "" 30 []] in
  @slices_SortFunc c_sort _ (@CompareImportanceDesc c_api c_pods) l ≡ₚ l.
Proof.
  simpl. apply (@sort_by_importance c_api c_pods c_pods_laws c_sort c_sort_laws
    [c_pod "a" "" 50 []; c_pod "b" "" 10 []; c_pod "c" "" 30 []]).
Defined.
