(* ===== verification/Match.v ===== *)
(** * Match: [internal/match] and the rule types of [internal/queue/preemption.go]

    Label matchers, and the conversion of a queue's preemption spec into the
    rules the evaluator consults.  A [LabelMatcher] is an interface value:
    [None] is the nil interface. *)

From stdpp Require Import base tactics option list gmap strings sorting.
From Stdlib Require Import ZArith Lia.
From S2P Require Import Prelude.
From S2P Require Import External.
From S2P Require Import Concrete.
From S2P Require Import Api.

Section matchers.
Context {T : ApiTypes} {L : SelectorOps}.

(** The interface's dynamic values are selectors. *)
Definition LabelMatcher : Type := option Selector.

(** [matcher.Matches(labels)]: a nil interface panics. *)
Definition LabelMatcher_Matches (matcher : LabelMatcher) (ls : gomap string) : outcome bool :=
  match matcher with
  | None => Panic
  | Some s => Ret (Selector_Matches s ls)
  end.

(** [matcher == labels.Nothing()]; a nil interface equals no value. *)
Definition match_Nothing (matcher : LabelMatcher) : bool :=
  match matcher with
  | None => false
  | Some s => Selector_eq s labels_Nothing
  end.

Definition LabelSelectorAsMatcherOrNothing (selector : option LabelSelector)
    : LabelMatcher * option go_error :=
  let '(matcher, err) := LabelSelectorAsSelector selector in
  let matcher' :=
    match matcher, err with
    | None, _ => Some labels_Nothing
    | _, Some _ => Some labels_Nothing
    | Some s, None => Some s
    end in
  (matcher', err).

Record preemptionRule := mkRule {
  FromPods : LabelMatcher;
  ToPods : LabelMatcher;
}.

(** [PreemptsRule] and [PreemptedByRule] are [preemptionRule] under two names. *)
Record PreemptionConfig := mkPreemptionConfig {
  Preempts : preemptionRule;
  PreemptedBy : preemptionRule;
}.

(** The zero values of the two struct types. *)
Definition preemptionRule_zero : preemptionRule := mkRule None None.
Definition PreemptionConfig_zero : PreemptionConfig :=
  mkPreemptionConfig preemptionRule_zero preemptionRule_zero.

Definition CanPreempt (rule : preemptionRule) : bool :=
  bool_decide (is_Some (FromPods rule)) && bool_decide (is_Some (ToPods rule)).

Definition CanBePreempted (rule : preemptionRule) : bool :=
  bool_decide (is_Some (FromPods rule)) && bool_decide (is_Some (ToPods rule)).

Definition makePreemptionRuleFromSpecRule (rule : PreemptionRule)
    : preemptionRule * option go_error :=
  let '(fromPods, err1) := LabelSelectorAsMatcherOrNothing (rule_FromPods rule) in
  let errs := match err1 with Some _ => errors_Join None err1 | None => None end in
  let '(toPods, err2) := LabelSelectorAsMatcherOrNothing (rule_ToPods rule) in
  let errs := match err2 with Some _ => errors_Join errs err2 | None => errs end in
  (mkRule fromPods toPods, errs).

Definition NewPreemptionConfigFromSpec (spec : PreemptionSpec)
    : PreemptionConfig * option go_error :=
  let '(preempts, err1) := makePreemptionRuleFromSpecRule (spec_Preempts spec) in
  let errs := match err1 with Some _ => errors_Join None err1 | None => None end in
  let '(preemptedBy, err2) := makePreemptionRuleFromSpecRule (spec_PreemptedBy spec) in
  let errs := match err2 with Some _ => errors_Join errs err2 | None => errs end in
  (mkPreemptionConfig preempts preemptedBy, errs).
End matchers.

(** ** Lemmas and properties *)
Section matcher_lemmas.
Context {T : ApiTypes} {L : SelectorOps} {LL : SelectorLaws}.

(** A matcher made from a selector is never nil. *)
Lemma matcher_is_some sel : is_Some (LabelSelectorAsMatcherOrNothing sel).1.
Proof.
  unfold LabelSelectorAsMatcherOrNothing.
  destruct (LabelSelectorAsSelector sel) as [[s|] [e|]]; simpl; by eexists.
Qed.

Lemma make_rule_some rule :
  is_Some (FromPods (makePreemptionRuleFromSpecRule rule).1)
  ∧ is_Some (ToPods (makePreemptionRuleFromSpecRule rule).1).
Proof.
  unfold makePreemptionRuleFromSpecRule.
  destruct (LabelSelectorAsMatcherOrNothing (rule_FromPods rule)) as [f e1] eqn:E1.
  destruct (LabelSelectorAsMatcherOrNothing (rule_ToPods rule)) as [t e2] eqn:E2.
  pose proof (matcher_is_some (rule_FromPods rule)) as H1.
  pose proof (matcher_is_some (rule_ToPods rule)) as H2.
  rewrite E1 in H1. rewrite E2 in H2. by simpl.
Qed.

(** A rule made from a spec always has both matchers, whatever the
    selectors, so its matchers never panic and [CanPreempt]/[CanBePreempted]
    hold; an omitted selector or one that does not parse matches no labels, an
    explicit empty selector matches all labels, and an error is reported
    exactly when one of the four selectors does not parse. *)
Theorem NewPreemptionConfigFromSpec_correct (spec : PreemptionSpec) :
  let '(cfg, err) := NewPreemptionConfigFromSpec spec in
  CanPreempt (Preempts cfg) = true ∧ CanBePreempted (PreemptedBy cfg) = true
  ∧ (∀ sel m, In (sel, m)
       [(rule_FromPods (spec_Preempts spec), FromPods (Preempts cfg));
        (rule_ToPods (spec_Preempts spec), ToPods (Preempts cfg));
        (rule_FromPods (spec_PreemptedBy spec), FromPods (PreemptedBy cfg));
        (rule_ToPods (spec_PreemptedBy spec), ToPods (PreemptedBy cfg))] →
       ∀ ls, LabelMatcher_Matches m ls = Ret
         match sel, LabelSelectorAsSelector sel with
         | None, _ => false
         | Some _, (Some s, None) => Selector_Matches s ls
         | Some _, _ => false
         end)
  ∧ (err = None ↔
      (LabelSelectorAsSelector (rule_FromPods (spec_Preempts spec))).2 = None
      ∧ (LabelSelectorAsSelector (rule_ToPods (spec_Preempts spec))).2 = None
      ∧ (LabelSelectorAsSelector (rule_FromPods (spec_PreemptedBy spec))).2 = None
      ∧ (LabelSelectorAsSelector (rule_ToPods (spec_PreemptedBy spec))).2 = None).
Proof.
  assert (∀ sel ls, LabelMatcher_Matches (LabelSelectorAsMatcherOrNothing sel).1 ls = Ret
         match sel, LabelSelectorAsSelector sel with
         | None, _ => false
         | Some _, (Some s, None) => Selector_Matches s ls
         | Some _, _ => false
         end) as Hm.
  { intros sel ls. unfold LabelSelectorAsMatcherOrNothing.
    destruct sel as [sel|]; [|by rewrite selector_nil; simpl; rewrite matches_nothing].
    destruct (LabelSelectorAsSelector (Some sel)) as [[s|] [e|]]; simpl;
      by rewrite ?matches_nothing. }
  assert (∀ sel, (LabelSelectorAsMatcherOrNothing sel).2 = (LabelSelectorAsSelector sel).2) as He.
  { intros sel. unfold LabelSelectorAsMatcherOrNothing. by destruct (LabelSelectorAsSelector sel). }
  pose proof (make_rule_some (spec_Preempts spec)) as [Hs1 Hs2].
  pose proof (make_rule_some (spec_PreemptedBy spec)) as [Hs3 Hs4].
  unfold NewPreemptionConfigFromSpec, makePreemptionRuleFromSpecRule in *.
  destruct spec as [[s1 s2] [s3 s4]]; simpl in *.
  pose proof (Hm s1) as H1. pose proof (Hm s2) as H2.
  pose proof (Hm s3) as H3. pose proof (Hm s4) as H4.
  rewrite <- !He. clear Hm He.
  destruct (LabelSelectorAsMatcherOrNothing s1) as [m1 e1],
    (LabelSelectorAsMatcherOrNothing s2) as [m2 e2],
    (LabelSelectorAsMatcherOrNothing s3) as [m3 e3],
    (LabelSelectorAsMatcherOrNothing s4) as [m4 e4]; simpl in *.
  unfold CanPreempt, CanBePreempted. simpl.
  rewrite !bool_decide_true by done. split_and!; [done..| |].
  - intros sel m Hin ls. naive_solver.
  - destruct e1, e2, e3, e4; simpl; naive_solver.
Qed.

(** The rule builders of the API package: [PreemptionEverything] matches
    every pod on both sides, [PreemptionNothing] matches none. *)
Theorem PreemptionEverything_Nothing_correct ls :
  (let rule := (makePreemptionRuleFromSpecRule PreemptionEverything).1 in
   LabelMatcher_Matches (FromPods rule) ls = Ret true ∧ LabelMatcher_Matches (ToPods rule) ls = Ret true)
  ∧ (let rule := (makePreemptionRuleFromSpecRule PreemptionNothing).1 in
   LabelMatcher_Matches (FromPods rule) ls = Ret false ∧ LabelMatcher_Matches (ToPods rule) ls = Ret false).
Proof.
  destruct selector_empty as (s & Hs & Hall).
  unfold makePreemptionRuleFromSpecRule, LabelSelectorAsMatcherOrNothing; simpl.
  rewrite selector_nil, Hs; simpl. by rewrite Hall, matches_nothing.
Qed.
End matcher_lemmas.

Section witnesses.
#[local] Existing Instances c_api c_selector c_selector_laws.

Lemma NewPreemptionConfigFromSpec_witness :
  CanPreempt (Preempts (NewPreemptionConfigFromSpec
    (mkPreemptionSpec (mkPreemptionRule (T := c_api) (Some CInvalid) None) (mkPreemptionRule None None))).1) = true.
Proof.
  destruct (NewPreemptionConfigFromSpec_correct
    (mkPreemptionSpec (mkPreemptionRule (T := c_api) (Some CInvalid) None) (mkPreemptionRule None None)))
    as [H _].
  exact H.
Defined.

Lemma PreemptionEverything_Nothing_witness :
  LabelMatcher_Matches (FromPods (makePreemptionRuleFromSpecRule PreemptionEverything).1) None = Ret true.
Proof. apply (PreemptionEverything_Nothing_correct None). Defined.
End witnesses.
