(* ===== verification/PdbEval.v ===== *)
(** * PdbEval: [internal/pdbeval/removal_violation.go]

    The split of potential victims by whether evicting them would violate a
    disruption budget.  The budgets are [int32] counters that one pass over the
    pods decrements in place. *)

From stdpp Require Import base tactics option list gmap strings sorting.
From Stdlib Require Import ZArith Lia.
From S2P Require Import Prelude.
From S2P Require Import External.
From S2P Require Import Concrete.

Section pdbeval.
Context {T : ApiTypes} {L : SelectorOps} {F : FrameworkOps}.

Record CheckPodRemovalViolationsResult := mkCheckResult {
  ViolatingPods : list PodInfo;
  NonViolatingPods : list PodInfo;
}.

(** The body of the loop over the budgets, at index [i]; the state is the
    remaining budgets and [pdbForPodIsViolated].  A nil selector with a nil
    error would be dereferenced. *)
Definition pdb_body (pod : Pod) (st : list Z * bool) (item : nat * PodDisruptionBudget)
    : outcome (list Z * bool) :=
  let '(pdbsAllowed, pdbForPodIsViolated) := st in
  let '(i, pdb) := item in
  if negb (bool_decide (pdb_Namespace pdb = pod_Namespace pod)) then mret st
  else
    match LabelSelectorAsSelector (pdb_Selector pdb) with
    | (_, Some _) => mret st
    | (None, None) => Panic
    | (Some selector, None) =>
        if Selector_Empty selector || negb (Selector_Matches selector (pod_Labels pod)) then mret st
        else
          match gomap_lookup (pdb_DisruptedPods pdb) (pod_Name pod) with
          | Some _ => mret st
          | None =>
              let pdbsAllowed := alter (λ a, int32_wrap (a - 1)) i pdbsAllowed in
              match pdbsAllowed !! i with
              | None => Panic
              | Some a => mret (pdbsAllowed, if (a <? 0)%Z then true else pdbForPodIsViolated)
              end
          end
    end.

(** The body of the loop over the pods. *)
Definition pod_body (pdbs : list PodDisruptionBudget)
    (st : list Z * CheckPodRemovalViolationsResult) (podInfo : PodInfo)
    : outcome (list Z * CheckPodRemovalViolationsResult) :=
  let '(pdbsAllowed, result) := st in
  let pod := PodInfo_GetPod podInfo in
  '(pdbsAllowed, pdbForPodIsViolated) ←
    (if (0 <? gomap_len (pod_Labels pod))%nat
     then range_fold (pdb_body pod) (imap pair pdbs) (pdbsAllowed, false)
     else mret (pdbsAllowed, false));
  if pdbForPodIsViolated : bool
  then mret (pdbsAllowed, mkCheckResult (ViolatingPods result ++ [podInfo]) (NonViolatingPods result))
  else mret (pdbsAllowed, mkCheckResult (ViolatingPods result) (NonViolatingPods result ++ [podInfo])).

Definition CheckPodRemovalViolations (podInfos : list PodInfo) (pdbs : list PodDisruptionBudget)
    : outcome CheckPodRemovalViolationsResult :=
  let pdbsAllowed := pdb_DisruptionsAllowed <$> pdbs in
  '(_, result) ← range_fold (pod_body pdbs) podInfos (pdbsAllowed, mkCheckResult [] []);
  mret result.
End pdbeval.

(** ** The reference definition

    Without counters: a pod is in violation when, for some budget that covers
    it, more pods up to and including it are covered than the budget allows. *)
Section reference.
Context {T : ApiTypes} {L : SelectorOps} {F : FrameworkOps}.

(** Does evicting [pod] consume the budget of [pdb]? *)
Definition pdb_covers (pod : Pod) (pdb : PodDisruptionBudget) : bool :=
  (0 <? gomap_len (pod_Labels pod))%nat
  && bool_decide (pdb_Namespace pdb = pod_Namespace pod)
  && match LabelSelectorAsSelector (pdb_Selector pdb) with
     | (Some selector, None) =>
         negb (Selector_Empty selector) && Selector_Matches selector (pod_Labels pod)
     | _ => false
     end
  && bool_decide (gomap_lookup (pdb_DisruptedPods pdb) (pod_Name pod) = None).

(** The number of pods of [l] that [pdb] covers. *)
Definition covered_count (pdb : PodDisruptionBudget) (l : list PodInfo) : Z :=
  Z.of_nat (length (filter (λ pi, pdb_covers (PodInfo_GetPod pi) pdb = true) l)).

Definition violates_after (pdbs : list PodDisruptionBudget) (before : list PodInfo) (pi : PodInfo) : bool :=
  existsb (λ pdb, pdb_covers (PodInfo_GetPod pi) pdb
    && (pdb_DisruptionsAllowed pdb <? covered_count pdb (before ++ [pi]))%Z) pdbs.

(** The pods of [l] in violation, and the others, when [before] came first. *)
Fixpoint split_violations (pdbs : list PodDisruptionBudget) (before l : list PodInfo)
    : list PodInfo * list PodInfo :=
  match l with
  | [] => ([], [])
  | pi :: l =>
      let '(v, n) := split_violations pdbs (before ++ [pi]) l in
      if violates_after pdbs before pi then (pi :: v, n) else (v, pi :: n)
  end.

(** The counters never leave the [int32] range. *)
Definition budgets_in_range (pdbs : list PodDisruptionBudget) (n : nat) : Prop :=
  Forall (λ pdb, int32_range (pdb_DisruptionsAllowed pdb)
    ∧ int32_range (pdb_DisruptionsAllowed pdb - Z.of_nat n)) pdbs.
End reference.

#[local] Open Scope Z_scope.

Section lemmas.
Context {T : ApiTypes} {L : SelectorOps} {F : FrameworkOps} {LL : SelectorLaws}.
Implicit Types (pdbs : list PodDisruptionBudget) (before l : list PodInfo) (pi : PodInfo).

(** One budget: the body decrements counter [i] when the pod is covered. *)
Lemma pdb_body_covers pod pdbsAllowed b i pdb a :
  (0 <? gomap_len (pod_Labels pod))%nat = true →
  pdbsAllowed !! i = Some a → int32_range (a - 1) →
  pdb_body pod (pdbsAllowed, b) (i, pdb) =
    Ret (if pdb_covers pod pdb
         then (<[i := a - 1]> pdbsAllowed, if a - 1 <? 0 then true else b)
         else (pdbsAllowed, b)).
Proof.
  intros Hlen Ha Hr. unfold pdb_body, pdb_covers. rewrite Hlen. simpl.
  case_bool_decide; simpl; [|done].
  pose proof (selector_some (pdb_Selector pdb)) as Hsome.
  destruct (LabelSelectorAsSelector (pdb_Selector pdb)) as [[s|] [e|]]; simpl in *; try done.
  2:{ destruct Hsome; done. }
  destruct (Selector_Empty s); simpl; [done|].
  destruct (Selector_Matches s _); simpl; [|done].
  destruct (gomap_lookup _ _) eqn:E; simpl.
  { done. }
  rewrite list_lookup_alter_eq, Ha. simpl.
  rewrite int32_wrap_id by done. unfold mret, outcome_ret. do 2 f_equal.
  apply list_eq. intros j. destruct (decide (i = j)) as [<-|Hij].
  - rewrite list_lookup_alter_eq, Ha, list_lookup_insert_eq; simpl;
      [by rewrite int32_wrap_id|by eapply lookup_lt_Some].
  - by rewrite list_lookup_alter_ne, list_lookup_insert_ne.
Qed.

#[local] Arguments pdb_body : simpl never.

(** All budgets, for one pod: the counters after the loop. *)
Definition count_down (pod : Pod) (pdbs : list PodDisruptionBudget) (allowed : list Z) : list Z :=
  zip_with (λ pdb a, if pdb_covers pod pdb then a - 1 else a) pdbs allowed.

Lemma pdb_loop pod pdbs k before_allowed allowed b :
  (0 <? gomap_len (pod_Labels pod))%nat = true →
  length before_allowed = k →
  length allowed = length pdbs →
  Forall (λ a, int32_range (a - 1)) allowed →
  range_fold (pdb_body pod) (imap (λ i, pair (k + i)%nat) pdbs) (before_allowed ++ allowed, b) =
    Ret (before_allowed ++ count_down pod pdbs allowed,
         existsb (λ '(pdb, a), pdb_covers pod pdb && (a - 1 <? 0)) (zip pdbs allowed) || b).
Proof.
  intros Hlen. induction pdbs as [|pdb pdbs IH] in k, before_allowed, allowed, b |- *;
    intros Hk Hl Hr; destruct allowed as [|a allowed]; try done.
  apply Forall_cons in Hr as [Ha Hr]. simpl in *.
  rewrite Nat.add_0_r.
  rewrite (pdb_body_covers _ _ _ _ _ a); [|done| |done].
  2:{ rewrite lookup_app_r by lia. by rewrite Hk, Nat.sub_diag. }
  unfold mbind; simpl.
  match goal with |- context [imap ?f pdbs] =>
    assert (imap f pdbs = imap (λ i, pair (S k + i)%nat) pdbs) as ->
      by (apply imap_ext; intros; simpl; f_equal; lia)
  end.
  assert (∀ a', before_allowed ++ a' :: allowed = (before_allowed ++ [a']) ++ allowed) as Happ.
  { intros a'. by rewrite <- app_assoc. }
  destruct (pdb_covers pod pdb); simpl.
  - rewrite <- Hk, insert_app_r_alt, Nat.sub_diag by lia. simpl. rewrite Happ, Hk.
    rewrite (IH (S k)); [|rewrite length_app; simpl; lia|lia|done].
    rewrite <- app_assoc. simpl. do 2 f_equal.
    destruct (a - 1 <? 0); simpl; [by rewrite orb_true_r|done].
  - rewrite Happ, (IH (S k)); [|rewrite length_app; simpl; lia|lia|done].
    by rewrite <- app_assoc.
Qed.
End lemmas.

Section split.
Context {T : ApiTypes} {L : SelectorOps} {F : FrameworkOps} {LL : SelectorLaws}.
Implicit Types (pdbs : list PodDisruptionBudget) (before l : list PodInfo) (pi : PodInfo).

Definition covers_Z pdb pi : Z := if pdb_covers (PodInfo_GetPod pi) pdb then 1 else 0.

Lemma covered_count_app pdb l1 l2 :
  covered_count pdb (l1 ++ l2) = covered_count pdb l1 + covered_count pdb l2.
Proof. unfold covered_count. rewrite filter_app, length_app. lia. Qed.

Lemma covered_count_cons pdb pi l : covered_count pdb (pi :: l) = covers_Z pdb pi + covered_count pdb l.
Proof.
  unfold covered_count, covers_Z. rewrite filter_cons.
  case_decide as H; [rewrite H; simpl; lia|]. by destruct (pdb_covers _ _).
Qed.

Lemma covered_count_nil pdb : covered_count pdb [] = 0.
Proof. done. Qed.

Lemma covered_count_snoc pdb l pi :
  covered_count pdb (l ++ [pi]) = covered_count pdb l + covers_Z pdb pi.
Proof. rewrite covered_count_app, covered_count_cons, covered_count_nil. lia. Qed.

Lemma covered_count_bounds pdb l : 0 <= covered_count pdb l <= Z.of_nat (length l).
Proof.
  unfold covered_count.
  pose proof (length_filter (λ pi, pdb_covers (PodInfo_GetPod pi) pdb = true) l). lia.
Qed.

Lemma pdb_covers_labelled pod pdb :
  (0 <? gomap_len (pod_Labels pod))%nat = false → pdb_covers pod pdb = false.
Proof. unfold pdb_covers. by intros ->. Qed.

(** The counters after the pods of [before]. *)
Definition remaining pdbs before : list Z :=
  (λ pdb, pdb_DisruptionsAllowed pdb - covered_count pdb before) <$> pdbs.

Lemma pod_body_step pdbs before pi V N :
  budgets_in_range pdbs (S (length before)) →
  pod_body pdbs (remaining pdbs before, mkCheckResult V N) pi =
    Ret (remaining pdbs (before ++ [pi]),
         if violates_after pdbs before pi then mkCheckResult (V ++ [pi]) N
         else mkCheckResult V (N ++ [pi])).
Proof.
  intros Hr.
  pose proof (λ pdb, covered_count_snoc pdb before pi) as Hc.
  assert (remaining pdbs (before ++ [pi]) = count_down (PodInfo_GetPod pi) pdbs (remaining pdbs before)) as Hrem.
  { unfold remaining, count_down. clear Hr. induction pdbs as [|pdb pdbs IH]; csimpl; [done|].
    rewrite Hc, IH. f_equal. unfold covers_Z. destruct (pdb_covers _ _); lia. }
  unfold pod_body.
  destruct (0 <? gomap_len (pod_Labels (PodInfo_GetPod pi)))%nat eqn:Hlen.
  - pose proof (pdb_loop (PodInfo_GetPod pi) pdbs 0 [] (remaining pdbs before) false) as Hl.
    change (imap (λ i, pair (0 + i)%nat) pdbs) with (imap (@pair nat PodDisruptionBudget) pdbs) in Hl.
    rewrite !app_nil_l in Hl. rewrite Hl; clear Hl; [|done|done|by unfold remaining; rewrite length_fmap|].
    2:{ unfold remaining. apply Forall_fmap. eapply Forall_impl; [exact Hr|].
        intros pdb [H1 H2]. simpl. pose proof (covered_count_bounds pdb before).
        unfold int32_range in *. lia. }
    unfold mbind; simpl. rewrite <- Hrem, orb_false_r.
    assert (existsb (λ '(pdb, a), pdb_covers (PodInfo_GetPod pi) pdb && (a - 1 <? 0))
      (zip pdbs (remaining pdbs before)) = violates_after pdbs before pi) as ->.
    { unfold violates_after, remaining. clear Hr Hrem. induction pdbs as [|pdb pdbs IH]; csimpl; [done|].
      rewrite IH, Hc. f_equal. unfold covers_Z. destruct (pdb_covers _ _); simpl; [|done].
      destruct (Z.ltb_spec (pdb_DisruptionsAllowed pdb - covered_count pdb before - 1) 0),
        (Z.ltb_spec (pdb_DisruptionsAllowed pdb) (covered_count pdb before + 1)); (done || lia). }
    by destruct (violates_after _ _ _).
  - assert (violates_after pdbs before pi = false) as ->.
    { unfold violates_after. clear Hr Hrem. induction pdbs as [|pdb pdbs IH]; simpl; [done|].
      by rewrite pdb_covers_labelled. }
    rewrite Hrem. unfold mbind, mret; simpl. do 2 f_equal. unfold count_down, remaining.
    clear Hr Hrem. induction pdbs as [|pdb pdbs IH]; simpl; [done|].
    rewrite pdb_covers_labelled by done. f_equal. apply IH.
Qed.

#[local] Arguments pod_body : simpl never.

Lemma pod_loop pdbs before l V N :
  budgets_in_range pdbs (length before + length l) →
  range_fold (pod_body pdbs) l (remaining pdbs before, mkCheckResult V N) =
    Ret (remaining pdbs (before ++ l),
         mkCheckResult (V ++ (split_violations pdbs before l).1) (N ++ (split_violations pdbs before l).2)).
Proof.
  induction l as [|pi l IH] in before, V, N |- *; intros Hr; simpl.
  { by rewrite !app_nil_r. }
  rewrite pod_body_step.
  2:{ eapply Forall_impl; [exact Hr|]. simpl. intros pdb [H1 H2]. unfold int32_range in *. lia. }
  assert (budgets_in_range pdbs (length (before ++ [pi]) + length l)) as Hr'.
  { rewrite length_app. simpl. by rewrite <- Nat.add_assoc. }
  unfold mbind; simpl. specialize (IH (before ++ [pi])). rewrite <- app_assoc in IH. simpl in IH.
  destruct (split_violations pdbs (before ++ [pi]) l) as [v n]; simpl in *.
  destruct (violates_after pdbs before pi); rewrite IH by done; by rewrite <- app_assoc.
Qed.

Lemma CheckPodRemovalViolations_split l pdbs :
  budgets_in_range pdbs (length l) →
  CheckPodRemovalViolations l pdbs =
    Ret (mkCheckResult (split_violations pdbs [] l).1 (split_violations pdbs [] l).2).
Proof.
  intros Hr. unfold CheckPodRemovalViolations.
  assert (pdb_DisruptionsAllowed <$> pdbs = remaining pdbs []) as ->.
  { unfold remaining. apply list_fmap_ext. intros i pdb _. unfold covered_count. simpl. lia. }
  by rewrite pod_loop.
Qed.

Lemma split_violations_perm pdbs before l :
  (split_violations pdbs before l).1 ++ (split_violations pdbs before l).2 ≡ₚ l.
Proof.
  induction l as [|pi l IH] in before |- *; simpl; [done|]. specialize (IH (before ++ [pi])).
  destruct (split_violations _ _ l) as [v n]; simpl in *.
  destruct (violates_after _ _ _); simpl; rewrite <- IH; [done|].
  by rewrite <- Permutation_middle.
Qed.

Lemma split_violations_sublist pdbs before l :
  (split_violations pdbs before l).1 `sublist_of` l ∧ (split_violations pdbs before l).2 `sublist_of` l.
Proof.
  induction l as [|pi l IH] in before |- *; simpl; [done|].
  destruct (IH (before ++ [pi])) as [IH1 IH2].
  destruct (split_violations _ _ l) as [v n]; simpl in *.
  destruct (violates_after _ _ _); simpl; split; by constructor.
Qed.

Lemma split_violations_budget pdbs before l pdb :
  pdb ∈ pdbs →
  covered_count pdb (split_violations pdbs before l).2 = 0 ∨
  covered_count pdb before + covered_count pdb (split_violations pdbs before l).2
    <= pdb_DisruptionsAllowed pdb.
Proof.
  intros Hin. induction l as [|pi l IH] in before |- *; simpl; [by left|].
  specialize (IH (before ++ [pi])). rewrite covered_count_snoc in IH.
  destruct (split_violations _ _ l) as [v n]; simpl in *.
  assert (0 <= covers_Z pdb pi) as Hb by (unfold covers_Z; destruct (pdb_covers _ _); lia).
  destruct (violates_after pdbs before pi) eqn:Hv; simpl; [lia|].
  rewrite covered_count_cons.
  destruct (pdb_covers (PodInfo_GetPod pi) pdb) eqn:Hc;
    [|unfold covers_Z in *; rewrite Hc in *; lia].
  assert (covered_count pdb (before ++ [pi]) <= pdb_DisruptionsAllowed pdb) as Hle.
  { apply not_true_iff_false in Hv. apply Z.nlt_ge. intros Hlt. apply Hv. unfold violates_after.
    apply existsb_exists. exists pdb. split; [by apply list_elem_of_In|].
    rewrite Hc. simpl. by apply Z.ltb_lt. }
  rewrite covered_count_snoc in Hle. lia.
Qed.
End split.

(** ** Properties *)
Section properties.
Context {T : ApiTypes} {L : SelectorOps} {F : FrameworkOps} {LL : SelectorLaws}.
Implicit Types (pdbs : list PodDisruptionBudget) (l : list PodInfo).

(** C30: as long as no counter leaves [int32], the pass over the pods with its
    in-place counters computes exactly the counter-free reference
    [split_violations]: a pod is violating when some budget that covers it
    (same namespace, a non-empty selector that parses and matches, the pod not
    already in DisruptedPods) allows fewer disruptions than there are covered
    pods up to and including it.  The call never panics. *)
Theorem CheckPodRemovalViolations_reference l pdbs
  (Hrange : budgets_in_range pdbs (length l)) :
  CheckPodRemovalViolations l pdbs =
    Ret (mkCheckResult (split_violations pdbs [] l).1 (split_violations pdbs [] l).2).
Proof. by apply CheckPodRemovalViolations_split. Qed.

(** C31: the two groups partition the input, each keeps the order of the input,
    and evicting all the non-violating pods stays within every budget. *)
Theorem CheckPodRemovalViolations_safe l pdbs
  (Hrange : budgets_in_range pdbs (length l)) :
  ∃ res, CheckPodRemovalViolations l pdbs = Ret res
    ∧ ViolatingPods res ++ NonViolatingPods res ≡ₚ l
    ∧ ViolatingPods res `sublist_of` l
    ∧ NonViolatingPods res `sublist_of` l
    ∧ ∀ pdb, pdb ∈ pdbs →
        covered_count pdb (NonViolatingPods res) <= Z.max 0 (pdb_DisruptionsAllowed pdb).
Proof.
  eexists. split; [by apply CheckPodRemovalViolations_split|]. simpl.
  destruct (split_violations_sublist pdbs [] l) as [Hv Hn].
  split_and!; [apply split_violations_perm|done|done|].
  intros pdb Hin. pose proof (split_violations_budget pdbs [] l pdb Hin) as Hb.
  rewrite covered_count_nil in Hb. lia.
Qed.
End properties.

Section witnesses.
#[local] Existing Instances c_api c_selector c_framework c_selector_laws.

(** Two labelled pods under a budget of one disruption: the second violates it. *)
Definition w_pods : list PodInfo := [c_pod "a" "q" 0 []; c_pod "b" "q" 0 []].
Definition w_pdbs : list PodDisruptionBudget :=
  [@mkPDB c_api "default" (Some (CMatchLabels [("scheduling.kaschnit.github.io/queue", "q")%string])) 1 None].

Lemma w_in_range : budgets_in_range w_pdbs (length w_pods).
Proof. repeat constructor; simpl; unfold int32_range; lia. Qed.

Definition result_uids (m : outcome CheckPodRemovalViolationsResult) : list string * list string :=
  match m with
  | Ret res => (map pod_UID (ViolatingPods res), map pod_UID (NonViolatingPods res))
  | Panic => ([], [])
  end.

Lemma CheckPodRemovalViolations_reference_witness :
  result_uids (CheckPodRemovalViolations w_pods w_pdbs) = (["b"], ["a"])%string.
Proof.
  rewrite (CheckPodRemovalViolations_reference w_pods w_pdbs w_in_range).
  vm_compute. reflexivity.
Defined.

Lemma CheckPodRemovalViolations_safe_witness :
  ∃ res, CheckPodRemovalViolations w_pods w_pdbs = Ret res
    ∧ ViolatingPods res ++ NonViolatingPods res ≡ₚ w_pods.
Proof.
  destruct (CheckPodRemovalViolations_safe w_pods w_pdbs w_in_range) as (res & H1 & H2 & _).
  exact (ex_intro _ res (conj H1 H2)).
Defined.
End witnesses.
