(* ===== verification/Store.v ===== *)
(** * Store: the heap of the queue package

    [internal/queue] works on pointers: managers point to queues, queues to
    quotas, quotas to resource maps, and [Clone] decides what is shared.  The
    model keeps one typed heap with a table of cells per kind of object; a
    pointer is a location, and a pointer that may be nil is an option.  A Go
    map of resources is a cell too, because [Resources] values alias.  Label
    sets, preemption configs, pods and the persistent map of pods are immutable
    in the code ("treated as immutable") and are kept by value.

    Each exported method of the package runs under its object's lock.  Here one
    call is one step; file [Locking] has the same methods as sequences of
    critical sections, for goroutines that interleave. *)

From stdpp Require Import base tactics option list gmap strings sorting.
From Stdlib Require Import ZArith Lia.
From S2P Require Import Prelude.
From S2P Require Import External.
From S2P Require Import Resources.
From S2P Require Import Match.

Abbreviation loc := positive.

Section store.
Context {T : ApiTypes}.

(** quota.go: the fields of [Quota] (the lock aside). *)
Record Quota := mkQuota {
  quota_max : option loc;
  quota_used : option loc;
  quota_podsByID : gmap UID Pod;
}.

(** queue.go: the fields of [Queue].  [queue_labels] is an interface value that
    holds a label set. *)
Record Queue := mkQueue {
  queue_name : string;
  queue_quota : option loc;
  queue_labels : option (gomap string);
  queue_preemptionCfg : PreemptionConfig;
}.

(** manager.go: the field [queueByName] of [Manager]. *)
Record Manager := mkManager { queueByName : gmap string loc }.

Record heap := mkHeap {
  h_res : gmap loc (gmap string Quantity);
  h_quota : gmap loc Quota;
  h_queue : gmap loc Queue;
  h_mgr : gmap loc Manager;
}.

Definition empty_heap : heap := mkHeap ∅ ∅ ∅ ∅.

Definition set_res (l : loc) (m : gmap string Quantity) (h : heap) : heap :=
  mkHeap (<[l := m]> (h_res h)) (h_quota h) (h_queue h) (h_mgr h).
Definition set_quota (l : loc) (q : Quota) (h : heap) : heap :=
  mkHeap (h_res h) (<[l := q]> (h_quota h)) (h_queue h) (h_mgr h).
Definition set_queue (l : loc) (q : Queue) (h : heap) : heap :=
  mkHeap (h_res h) (h_quota h) (<[l := q]> (h_queue h)) (h_mgr h).
Definition set_mgr (l : loc) (m : Manager) (h : heap) : heap :=
  mkHeap (h_res h) (h_quota h) (h_queue h) (<[l := m]> (h_mgr h)).

(** *** Primitives: a load panics on a location that is not allocated. *)
Definition load_quota (l : loc) : st heap Quota := h ← st_get; st_some (h_quota h !! l).
Definition load_queue (l : loc) : st heap Queue := h ← st_get; st_some (h_queue h !! l).
Definition load_mgr (l : loc) : st heap Manager := h ← st_get; st_some (h_mgr h !! l).

Definition store_quota (l : loc) (q : Quota) : st heap unit := st_modify (set_quota l q).
Definition store_queue (l : loc) (q : Queue) : st heap unit := st_modify (set_queue l q).
Definition store_mgr (l : loc) (m : Manager) : st heap unit := st_modify (set_mgr l m).

Definition alloc_quota (q : Quota) : st heap loc :=
  h ← st_get; let l := fresh (dom (h_quota h)) in store_quota l q ;; mret l.
Definition alloc_queue (q : Queue) : st heap loc :=
  h ← st_get; let l := fresh (dom (h_queue h)) in store_queue l q ;; mret l.
Definition alloc_mgr (m : Manager) : st heap loc :=
  h ← st_get; let l := fresh (dom (h_mgr h)) in store_mgr l m ;; mret l.

(** The resource map a reference denotes. *)
Definition res_val (h : heap) (r : option loc) : Resources := l ← r; h_res h !! l.
Definition load_res (r : option loc) : st heap Resources := h ← st_get; mret (res_val h r).

(** A new map holding [r]; the nil map needs no cell. *)
Definition alloc_res (r : Resources) : st heap (option loc) :=
  match r with
  | None => mret None
  | Some m =>
      h ← st_get; let l := fresh (dom (h_res h)) in
      st_modify (set_res l m) ;; mret (Some l)
  end.

(** Run an in-place method of [Resources] on the map behind [r]. *)
Definition update_res (r : option loc) (f : Resources → outcome Resources) : st heap unit :=
  m ← load_res r;
  m' ← st_lift (f m);
  match r, m' with
  | Some l, Some m' => st_modify (set_res l m')
  | _, _ => mret tt
  end.
End store.
