(* ===== verification/StoreFacts.v ===== *)
(** * StoreFacts: well-formed heaps and what heap updates preserve

    The heap's ownership discipline: each queue sits in one manager under its
    own name, each queue owns its quota, each quota owns its map of used
    amounts, and no map of maximum amounts is somebody's map of used amounts.
    [view_queue] and [view_mgr] read the abstract value off the pointers;
    [ext_except X] says that an update leaves every queue outside [X] alone. *)

From stdpp Require Import base tactics option list gmap strings sorting.
From Stdlib Require Import ZArith Lia.
From S2P Require Import Prelude.
From S2P Require Import External.
From S2P Require Import Resources.
From S2P Require Import Api.
From S2P Require Import Match.
From S2P Require Import Store.

Section views.
Context {T : ApiTypes}.

(** ** Abstract values *)
Record QuotaV := mkQuotaV {
  qv_max : Resources;
  qv_used : Resources;
  qv_pods : gmap UID Pod;
}.

Record QueueV := mkQueueV {
  v_name : string;
  v_quota : QuotaV;
  v_labels : option (gomap string);
  v_cfg : PreemptionConfig;
}.

Abbreviation ManagerV := (gmap string QueueV).

Definition view_quota (h : heap) (qo : Quota) : QuotaV :=
  mkQuotaV (res_val h (quota_max qo)) (res_val h (quota_used qo)) (quota_podsByID qo).

Definition view_queue (h : heap) (ql : loc) : option QueueV :=
  qu ← h_queue h !! ql;
  tl ← queue_quota qu;
  qo ← h_quota h !! tl;
  Some (mkQueueV (queue_name qu) (view_quota h qo) (queue_labels qu) (queue_preemptionCfg qu)).

Definition view_mgr (h : heap) (m : loc) : option ManagerV :=
  M ← h_mgr h !! m;
  Some (omap (view_queue h) (queueByName M)).

(** ** Well-formed heaps *)
Record wf (h : heap) : Prop := mkWf {
  wf_mgr_queue m M n ql :
    h_mgr h !! m = Some M → queueByName M !! n = Some ql →
    ∃ qu, h_queue h !! ql = Some qu ∧ queue_name qu = n;
  wf_mgr_inj m1 M1 n1 m2 M2 n2 ql :
    h_mgr h !! m1 = Some M1 → queueByName M1 !! n1 = Some ql →
    h_mgr h !! m2 = Some M2 → queueByName M2 !! n2 = Some ql → m1 = m2 ∧ n1 = n2;
  wf_queue_quota ql qu :
    h_queue h !! ql = Some qu → ∃ tl qo, queue_quota qu = Some tl ∧ h_quota h !! tl = Some qo;
  wf_queue_inj ql1 qu1 ql2 qu2 :
    h_queue h !! ql1 = Some qu1 → h_queue h !! ql2 = Some qu2 →
    queue_quota qu1 = queue_quota qu2 → ql1 = ql2;
  wf_quota_used tl qo :
    h_quota h !! tl = Some qo → ∃ ul m, quota_used qo = Some ul ∧ h_res h !! ul = Some m;
  wf_quota_max tl qo ml :
    h_quota h !! tl = Some qo → quota_max qo = Some ml → is_Some (h_res h !! ml);
  wf_used_inj tl1 qo1 tl2 qo2 :
    h_quota h !! tl1 = Some qo1 → h_quota h !! tl2 = Some qo2 →
    quota_used qo1 = quota_used qo2 → tl1 = tl2;
  wf_used_max tl1 qo1 tl2 qo2 l :
    h_quota h !! tl1 = Some qo1 → h_quota h !! tl2 = Some qo2 →
    quota_used qo1 = Some l → quota_max qo2 ≠ Some l;
}.

(** A reference that may become a quota's maximum: it denotes [r] and is no
    quota's map of used amounts. *)
Definition max_ref (h : heap) (ref : option loc) (r : Resources) : Prop :=
  res_val h ref = r ∧
  ∀ l, ref = Some l → is_Some (h_res h !! l) ∧
    ∀ tl qo, h_quota h !! tl = Some qo → quota_used qo ≠ Some l.

Definition ext_except (X : gset loc) (h h' : heap) : Prop :=
  h_mgr h' = h_mgr h ∧
  (∀ ql v, ql ∉ X → view_queue h ql = Some v → view_queue h' ql = Some v) ∧
  (∀ ref r, max_ref h ref r → max_ref h' ref r).
End views.

Abbreviation ManagerV := (gmap string QueueV).

(** Case analysis on hypotheses about lookups in updated maps. *)
Ltac lookup_cases :=
  repeat match goal with
  | H : <[_ := _]> _ !! _ = _ |- _ => rewrite lookup_insert in H; case_decide; simplify_eq/=
  end.

Section facts.
Context {T : ApiTypes}.
Implicit Types (h : heap) (ql tl ul ml : loc) (v : QueueV).

Lemma view_queue_Some h ql v :
  view_queue h ql = Some v ↔
  ∃ qu tl qo, h_queue h !! ql = Some qu ∧ queue_quota qu = Some tl ∧ h_quota h !! tl = Some qo
    ∧ v = mkQueueV (queue_name qu) (view_quota h qo) (queue_labels qu) (queue_preemptionCfg qu).
Proof.
  unfold view_queue. split.
  - destruct (h_queue h !! ql) as [qu|] eqn:E1; simpl; [|done].
    destruct (queue_quota qu) as [tl|] eqn:E2; simpl; [|done].
    destruct (h_quota h !! tl) as [qo|] eqn:E3; simpl; [|done].
    intros [= <-]. by exists qu, tl, qo.
  - intros (qu & tl & qo & H1 & H2 & H3 & ->). by rewrite H1; simpl; rewrite H2; simpl; rewrite H3.
Qed.

Lemma wf_view_queue h ql qu : wf h → h_queue h !! ql = Some qu → ∃ v, view_queue h ql = Some v.
Proof.
  intros Hwf Hq. destruct (wf_queue_quota h Hwf _ _ Hq) as (tl & qo & Ht & Ho).
  eexists. apply view_queue_Some. by exists qu, tl, qo.
Qed.

Lemma ext_refl X h : ext_except X h h.
Proof. by split_and!. Qed.

Lemma ext_trans X Y h1 h2 h3 :
  ext_except X h1 h2 → ext_except Y h2 h3 → ext_except (X ∪ Y) h1 h3.
Proof.
  intros (H1 & H2 & H3) (H1' & H2' & H3'). split_and!; [congruence| |by auto].
  intros ql v Hq Hv. apply H2'; [set_solver|]. apply H2; [set_solver|done].
Qed.

Lemma ext_mono X Y h1 h2 : X ⊆ Y → ext_except X h1 h2 → ext_except Y h1 h2.
Proof.
  intros HXY (H1 & H2 & H3). split_and!; [done| |done].
  intros ql v Hq. apply H2. set_solver.
Qed.

Lemma ext_trans_same X h1 h2 h3 :
  ext_except X h1 h2 → ext_except X h2 h3 → ext_except X h1 h3.
Proof. intros H1 H2. eapply ext_mono; [|by eapply ext_trans]. set_solver. Qed.

Lemma max_ref_nil h : max_ref h None None.
Proof. by split. Qed.

(** *** L1: a fresh map *)
Lemma res_val_set_fresh h l m ref :
  h_res h !! l = None → (∀ l', ref = Some l' → is_Some (h_res h !! l')) →
  res_val (set_res l m h) ref = res_val h ref.
Proof.
  intros Hl Href. destruct ref as [l'|]; [|done]. unfold res_val; simpl.
  rewrite lookup_insert_ne; [done|]. intros <-. destruct (Href l eq_refl). congruence.
Qed.

Lemma wf_refs_allocated h tl qo :
  wf h → h_quota h !! tl = Some qo →
  (∀ l, quota_max qo = Some l → is_Some (h_res h !! l)) ∧
  (∀ l, quota_used qo = Some l → is_Some (h_res h !! l)).
Proof.
  intros Hwf Hq. split.
  - intros l Hl. by eapply wf_quota_max.
  - intros l Hl. destruct (wf_quota_used h Hwf _ _ Hq) as (ul & m & Hu & Hm).
    simplify_eq. by eexists.
Qed.

Lemma set_res_fresh h l m :
  wf h → h_res h !! l = None → wf (set_res l m h) ∧ ext_except ∅ h (set_res l m h).
Proof.
  intros Hwf Hl. split.
  - destruct Hwf as [H1 H2 H3 H4 H5 H6 H7 H8]. split; simpl; try done.
    + intros tl qo Hq. destruct (H5 _ _ Hq) as (ul & m' & Hu & Hm). exists ul, m'.
      split; [done|]. rewrite lookup_insert_ne by congruence. done.
    + intros tl qo ml Hq Hm. destruct (H6 _ _ _ Hq Hm) as [m' Hm'].
      exists m'. rewrite lookup_insert_ne by congruence. done.
  - split_and!; [done| |].
    + intros ql v _ (qu & tl & qo & Hq & Ht & Ho & ->)%view_queue_Some.
      apply view_queue_Some. exists qu, tl, qo. split_and!; try done. f_equal.
      unfold view_quota. destruct (wf_refs_allocated h tl qo Hwf Ho) as [Hmx Hus].
      by rewrite !res_val_set_fresh.
    + intros ref r [Hr Href]. split.
      * rewrite res_val_set_fresh; [done|done|]. intros l' ->. by apply Href.
      * intros l' ->. destruct (Href l' eq_refl) as [[m' Hm'] Hn]. split; [|done].
        exists m'. simpl. rewrite lookup_insert_ne by congruence. done.
Qed.

(** *** L2: a new quota with its own fresh map *)
Lemma new_quota h ul tl mx r m pods :
  wf h → h_res h !! ul = None → h_quota h !! tl = None → max_ref h mx r →
  let h' := set_quota tl (mkQuota mx (Some ul) pods) (set_res ul m h) in
  wf h' ∧ ext_except ∅ h h'
  ∧ view_quota h' (mkQuota mx (Some ul) pods) = mkQuotaV r (Some m) pods
  ∧ (∀ ql qu, h_queue h' !! ql = Some qu → queue_quota qu ≠ Some tl).
Proof.
  intros Hwf Hul Htl Hmx h'.
  destruct (set_res_fresh h ul m Hwf Hul) as [Hwf1 Hext1].
  assert (∀ tl' qo, h_quota h !! tl' = Some qo → quota_used qo ≠ Some ul ∧ quota_max qo ≠ Some ul) as Hn.
  { intros tl' qo Hq. destruct (wf_refs_allocated h _ _ Hwf Hq) as [Ha Hb].
    split; intros Heq; [destruct (Hb _ Heq)|destruct (Ha _ Heq)]; congruence. }
  assert (mx ≠ Some ul) as Hne.
  { intros ->. destruct Hmx as [_ Hm]. destruct (Hm ul eq_refl) as [[? ?] _]. congruence. }
  destruct (proj2 (proj2 Hext1) _ _ Hmx) as [Hr1 Ha1].
  assert (∀ ql qu, h_queue h !! ql = Some qu → queue_quota qu ≠ Some tl) as Hno.
  { intros ql qu Hq Ht. destruct (wf_queue_quota h Hwf _ _ Hq) as (? & ? & ? & ?). congruence. }
  split_and!; [| | |done].
  - destruct Hwf1 as [H1 H2 H3 H4 H5 H6 H7 H8]. split; simpl in *; try done.
    + intros ql qu Hq. destruct (H3 _ _ Hq) as (tl' & qo & ? & ?). exists tl', qo.
      split; [done|]. rewrite lookup_insert_ne by congruence. done.
    + intros tl' qo Hq. lookup_cases; [|by eapply H5]. exists ul, m. by rewrite lookup_insert_eq.
    + intros tl' qo ml Hq Hm. lookup_cases; [by apply Ha1|by eapply H6].
    + intros tl1 qo1 tl2 qo2 Hq1 Hq2 He. lookup_cases; [done| | |by eapply H7].
      * by destruct (Hn _ _ Hq1).
      * by destruct (Hn _ _ Hq2).
    + intros tl1 qo1 tl2 qo2 l Hq1 Hq2 Hu. lookup_cases; [done| | |exact (H8 _ _ _ _ _ Hq1 Hq2 Hu)].
      * intros ->. by destruct (proj2 (Ha1 _ eq_refl) _ _ Hq1).
      * by apply (Hn _ _ Hq2).
  - destruct Hext1 as (_ & Hv & Hm). split_and!; [done| |].
    + intros ql v Hx Hq. specialize (Hv ql v Hx Hq).
      apply view_queue_Some in Hv as (qu & tl' & qo & Hq' & Ht & Ho & ->).
      apply view_queue_Some. exists qu, tl', qo. split_and!; try done.
      simpl. rewrite lookup_insert_ne; [done|]. intros <-. by eapply Hno.
    + intros ref r' Href. specialize (Hm _ _ Href) as [Hr' Ha']. split; [done|].
      intros l ->. destruct (Ha' l eq_refl) as [? Hu]. split; [done|].
      intros tl' qo Hq. simpl in Hq. lookup_cases; [|by eapply Hu].
      intros [= ->]. destruct (proj2 Href l eq_refl) as [[? ?] _]. congruence.
  - unfold view_quota; simpl. f_equal; [done|]. unfold res_val; simpl. apply lookup_insert_eq.
Qed.

(** *** L3: a new queue *)
Lemma new_queue h ql qu tl qo :
  wf h → h_queue h !! ql = None → queue_quota qu = Some tl → h_quota h !! tl = Some qo →
  (∀ ql' qu', h_queue h !! ql' = Some qu' → queue_quota qu' ≠ Some tl) →
  wf (set_queue ql qu h) ∧ ext_except ∅ h (set_queue ql qu h)
  ∧ view_queue (set_queue ql qu h) ql =
      Some (mkQueueV (queue_name qu) (view_quota h qo) (queue_labels qu) (queue_preemptionCfg qu)).
Proof.
  intros Hwf Hql Ht Ho Hno. split_and!.
  - destruct Hwf as [H1 H2 H3 H4 H5 H6 H7 H8]. split; simpl in *; try done.
    + intros m M n ql' Hm Hn. destruct (H1 _ _ _ _ Hm Hn) as (qu' & ? & ?). exists qu'.
      split; [|done]. rewrite lookup_insert_ne by congruence. done.
    + intros ql' qu' Hq. lookup_cases; [by exists tl, qo|by eapply H3].
    + intros ql1 qu1 ql2 qu2 Hq1 Hq2 He. lookup_cases; [done| | |exact (H4 _ _ _ _ Hq1 Hq2 He)].
      * exfalso. eapply Hno; [exact Hq1|congruence].
      * exfalso. eapply Hno; [exact Hq2|congruence].
  - split_and!; [done| |done]. intros ql' v _ (qu' & tl' & qo' & Hq & ? & ? & ->)%view_queue_Some.
    apply view_queue_Some. exists qu', tl', qo'. split_and!; try done.
    simpl. rewrite lookup_insert_ne by congruence. done.
  - apply view_queue_Some. exists qu, tl, qo. simpl. by rewrite lookup_insert_eq.
Qed.
End facts.

#[export] Hint Resolve ext_refl max_ref_nil : golib.

Section updates.
Context {T : ApiTypes}.
Implicit Types (h : heap) (ql tl ul ml : loc) (v : QueueV).

(** Two queues with different locations have different quotas, and these have
    different maps of used amounts. *)
Lemma wf_tl_ne h ql1 qu1 ql2 qu2 tl1 tl2 :
  wf h → ql1 ≠ ql2 → h_queue h !! ql1 = Some qu1 → h_queue h !! ql2 = Some qu2 →
  queue_quota qu1 = Some tl1 → queue_quota qu2 = Some tl2 → tl1 ≠ tl2.
Proof.
  intros Hwf Hne H1 H2 Ht1 Ht2 ->. apply Hne.
  eapply wf_queue_inj; [done|exact H1|exact H2|congruence].
Qed.

Lemma res_val_set_ne h l m ref : ref ≠ Some l → res_val (set_res l m h) ref = res_val h ref.
Proof.
  intros Hne. destruct ref as [l'|]; [|done]. unfold res_val; simpl.
  rewrite lookup_insert_ne; [done|]. congruence.
Qed.

(** Two heaps whose quotas have the same references. *)
Definition same_refs (h h' : heap) : Prop :=
  ∀ tl qo', h_quota h' !! tl = Some qo' →
    ∃ qo, h_quota h !! tl = Some qo ∧ quota_used qo' = quota_used qo ∧ quota_max qo' = quota_max qo.

(** Writing to allocated maps and to quotas' pods keeps a heap well-formed. *)
Lemma same_refs_wf h h' :
  wf h → h_mgr h' = h_mgr h → h_queue h' = h_queue h → same_refs h h' →
  (∀ tl, is_Some (h_quota h !! tl) → is_Some (h_quota h' !! tl)) →
  (∀ l, is_Some (h_res h !! l) → is_Some (h_res h' !! l)) → wf h'.
Proof.
  intros [H1 H2 H3 H4 H5 H6 H7 H8] Hm Hq Hback Hqs Hal.
  split; rewrite ?Hm, ?Hq; [exact H1|exact H2| |exact H4|..].
  - intros ql qu Hqu. destruct (H3 _ _ Hqu) as (tl & qo & Ht & Ho).
    destruct (Hqs tl ltac:(by eexists)) as [qo' ?]. by exists tl, qo'.
  - intros tl qo' Hq'. destruct (Hback _ _ Hq') as (qo & Hqo & -> & _).
    destruct (H5 _ _ Hqo) as (ul & m & Hu & Hmu). exists ul.
    destruct (Hal ul ltac:(by eexists)) as [m' ?]. by exists m'.
  - intros tl qo' ml Hq' Hml. destruct (Hback _ _ Hq') as (qo & Hqo & _ & Hmx).
    apply Hal. eapply H6; [exact Hqo|congruence].
  - intros tl1 qo1 tl2 qo2 Hq1 Hq2 He.
    destruct (Hback _ _ Hq1) as (? & Hq1' & He1 & _), (Hback _ _ Hq2) as (? & Hq2' & He2 & _).
    eapply H7; [exact Hq1'|exact Hq2'|congruence].
  - intros tl1 qo1 tl2 qo2 l Hq1 Hq2 He1.
    destruct (Hback _ _ Hq1) as (? & Hq1' & Hu1 & _), (Hback _ _ Hq2) as (? & Hq2' & _ & Hm2).
    rewrite Hm2. eapply H8; [exact Hq1'|exact Hq2'|congruence].
Qed.

(** *** L4: new contents for a queue's quota, in place *)
Lemma update_quota h ql qu tl qo ul m0 m pods :
  wf h → h_queue h !! ql = Some qu → queue_quota qu = Some tl →
  h_quota h !! tl = Some qo → quota_used qo = Some ul → h_res h !! ul = Some m0 →
  let h' := set_res ul m (set_quota tl (mkQuota (quota_max qo) (Some ul) pods) h) in
  wf h' ∧ ext_except {[ql]} h h'
  ∧ view_queue h' ql = Some (mkQueueV (queue_name qu)
      (mkQuotaV (res_val h (quota_max qo)) (Some m) pods) (queue_labels qu) (queue_preemptionCfg qu)).
Proof.
  intros Hwf Hq Ht Ho Hu Hm0 h'.
  assert (same_refs h h') as Hback.
  { intros tl' qo' Hq'. simpl in Hq'. lookup_cases; [by exists qo|by exists qo']. }
  assert (∀ l, is_Some (h_res h !! l) → is_Some (h_res h' !! l)) as Hal.
  { intros l Hl. simpl. rewrite lookup_insert. by case_decide. }
  split_and!.
  - apply (same_refs_wf h); try done. intros tl' Hq'. simpl. rewrite lookup_insert. by case_decide.
  - split_and!; [done| |].
    + intros ql' v Hne (qu' & tl' & qo' & Hq' & Ht' & Ho' & ->)%view_queue_Some.
      apply not_elem_of_singleton in Hne.
      assert (tl' ≠ tl) as Htl by (eapply (wf_tl_ne h ql' qu' ql qu); done).
      apply view_queue_Some. exists qu', tl', qo'. split_and!; try done; [simpl; by rewrite lookup_insert_ne|].
      f_equal. unfold view_quota, h'. rewrite !res_val_set_ne; [done| |].
      * intros He. apply Htl. eapply (wf_used_inj h); [done|exact Ho'|exact Ho|congruence].
      * eapply (wf_used_max h); [done|exact Ho|exact Ho'|done].
    + intros ref r [Hr Href]. split.
      * unfold h'. rewrite res_val_set_ne; [done|]. intros ->.
        by apply (proj2 (Href ul eq_refl) tl qo).
      * intros l ->. destruct (Href l eq_refl) as [Hl Hn]. split; [by apply Hal|].
        intros tl' qo' Hq'. destruct (Hback _ _ Hq') as (qo'' & Hq'' & -> & _). by eapply Hn.
  - apply view_queue_Some. eexists qu, tl, _. split_and!; [done|done|simpl; apply lookup_insert_eq|].
    f_equal. unfold view_quota; simpl. f_equal.
    + unfold h'. rewrite res_val_set_ne; [done|]. by eapply (wf_used_max h).
    + unfold res_val; simpl. by rewrite lookup_insert_eq.
Qed.

(** *** L5: a new maximum for a queue's quota *)
Lemma update_max h ql qu tl qo mx r :
  wf h → h_queue h !! ql = Some qu → queue_quota qu = Some tl → h_quota h !! tl = Some qo →
  max_ref h mx r →
  let h' := set_quota tl (mkQuota mx (quota_used qo) (quota_podsByID qo)) h in
  wf h' ∧ ext_except {[ql]} h h'
  ∧ view_queue h' ql = Some (mkQueueV (queue_name qu)
      (mkQuotaV r (res_val h (quota_used qo)) (quota_podsByID qo)) (queue_labels qu) (queue_preemptionCfg qu)).
Proof.
  intros Hwf Hq Ht Ho [Hr Hmx] h'.
  assert (∀ tl' qo', h_quota h' !! tl' = Some qo' →
    ∃ qo'', h_quota h !! tl' = Some qo'' ∧ quota_used qo' = quota_used qo'') as Hback.
  { intros tl' qo' Hq'. simpl in Hq'. lookup_cases; [by exists qo|by exists qo']. }
  pose proof Hwf as [H1 H2 H3 H4 H5 H6 H7 H8].
  split_and!.
  - split; simpl; try done.
    + intros ql' qu' Hq'. destruct (H3 _ _ Hq') as (tl' & qo' & Ht' & Ho').
      exists tl'. rewrite lookup_insert. case_decide; [by eexists|by exists qo'].
    + intros tl' qo' Hq'. destruct (Hback _ _ Hq') as (qo'' & Hq'' & ->). by eapply H5.
    + intros tl' qo' ml Hq' Hml. lookup_cases; [by apply Hmx|by eapply H6].
    + intros tl1 qo1 tl2 qo2 Hq1 Hq2 He.
      destruct (Hback _ _ Hq1) as (? & Hq1' & He1), (Hback _ _ Hq2) as (? & Hq2' & He2).
      eapply H7; [exact Hq1'|exact Hq2'|congruence].
    + intros tl1 qo1 tl2 qo2 l Hq1 Hq2 He1.
      destruct (Hback _ _ Hq1) as (qo1' & Hq1' & Hu1). rewrite Hu1 in He1. clear Hq1.
      lookup_cases; [|by apply (H8 _ _ _ _ _ Hq1' Hq2)].
      intros ->. by apply (proj2 (Hmx l eq_refl) _ _ Hq1').
  - split_and!; [done| |].
    + intros ql' v Hne (qu' & tl' & qo' & Hq' & Ht' & Ho' & ->)%view_queue_Some.
      apply not_elem_of_singleton in Hne.
      assert (tl' ≠ tl) as Htl by (eapply (wf_tl_ne h ql' qu' ql qu); done).
      apply view_queue_Some. exists qu', tl', qo'. split_and!; try done.
      simpl. by rewrite lookup_insert_ne.
    + intros ref r' [Hr' Href]. split; [done|].
      intros l ->. destruct (Href l eq_refl) as [Hl Hn]. split; [done|].
      intros tl' qo' Hq'. destruct (Hback _ _ Hq') as (qo'' & Hq'' & ->). by eapply Hn.
  - apply view_queue_Some. eexists qu, tl, _. split_and!; [done|done|simpl; apply lookup_insert_eq|].
    f_equal. unfold view_quota; simpl. by f_equal.
Qed.

(** *** L6: new labels or configuration for a queue *)
Lemma update_queue h ql qu tl qo ls cfg :
  wf h → h_queue h !! ql = Some qu → queue_quota qu = Some tl → h_quota h !! tl = Some qo →
  let h' := set_queue ql (mkQueue (queue_name qu) (queue_quota qu) ls cfg) h in
  wf h' ∧ ext_except {[ql]} h h'
  ∧ view_queue h' ql = Some (mkQueueV (queue_name qu) (view_quota h qo) ls cfg).
Proof.
  intros Hwf Hq Ht Ho h'. pose proof Hwf as [H1 H2 H3 H4 H5 H6 H7 H8].
  assert (∀ ql' qu', h_queue h' !! ql' = Some qu' →
    ∃ qu'', h_queue h !! ql' = Some qu'' ∧ queue_quota qu' = queue_quota qu'') as Hback.
  { intros ql' qu' Hq'. simpl in Hq'. lookup_cases; [by exists qu|by exists qu']. }
  split_and!.
  - split; simpl; try done.
    + intros m M n ql' Hm Hn. destruct (H1 _ _ _ _ Hm Hn) as (qu' & Hq' & Hnm).
      rewrite lookup_insert. case_decide; [|by exists qu']. eexists. split; [done|].
      simpl. congruence.
    + intros ql' qu' Hq'. destruct (Hback _ _ Hq') as (qu'' & Hq'' & ->). by eapply H3.
    + intros ql1 qu1 ql2 qu2 Hq1 Hq2 He.
      destruct (Hback _ _ Hq1) as (? & Hq1' & He1), (Hback _ _ Hq2) as (? & Hq2' & He2).
      eapply H4; [exact Hq1'|exact Hq2'|congruence].
  - split_and!; [done| |done].
    intros ql' v Hne (qu' & tl' & qo' & Hq' & Ht' & Ho' & ->)%view_queue_Some.
    apply not_elem_of_singleton in Hne.
    apply view_queue_Some. exists qu', tl', qo'. split_and!; try done.
    simpl. by rewrite lookup_insert_ne.
  - apply view_queue_Some. eexists _, tl, qo. split_and!; [simpl; apply lookup_insert_eq|done..].
Qed.

(** ** Managers *)
Lemma view_mgr_Some h m V :
  view_mgr h m = Some V ↔ ∃ M, h_mgr h !! m = Some M ∧ V = omap (view_queue h) (queueByName M).
Proof.
  unfold view_mgr. destruct (h_mgr h !! m) as [M|]; simpl; split.
  - intros [= <-]. by exists M.
  - by intros (M' & [= <-] & ->).
  - done.
  - by intros (M' & [=] & _).
Qed.

(** A manager has a queue under a name exactly when its value does. *)
Lemma view_mgr_lookup h m M V n :
  wf h → h_mgr h !! m = Some M → view_mgr h m = Some V →
  match queueByName M !! n with
  | None => V !! n = None
  | Some ql => ∃ v, V !! n = Some v ∧ view_queue h ql = Some v ∧ v_name v = n
  end.
Proof.
  intros Hwf HM HV. apply view_mgr_Some in HV as (M' & HM' & ->). simplify_eq.
  destruct (queueByName M !! n) as [ql|] eqn:E.
  - destruct (wf_mgr_queue h Hwf _ _ _ _ HM E) as (qu & Hq & Hn).
    destruct (wf_view_queue h ql qu Hwf Hq) as [v Hv]. exists v. split_and!; [|done|].
    + rewrite lookup_omap, E. by simpl.
    + apply view_queue_Some in Hv as (qu' & ? & ? & ? & ? & ? & ->). simpl. congruence.
  - by rewrite lookup_omap, E.
Qed.

(** Updates that touch no manager's queue leave every manager alone. *)
Lemma ext_view_mgr h h' m : wf h → ext_except ∅ h h' → view_mgr h' m = view_mgr h m.
Proof.
  intros Hwf (Hm & Hv & _). unfold view_mgr. rewrite Hm.
  destruct (h_mgr h !! m) as [M|] eqn:HM; simpl; [|done]. f_equal. apply map_eq. intros n.
  rewrite !lookup_omap. destruct (queueByName M !! n) as [ql|] eqn:E; simpl; [|done].
  destruct (wf_mgr_queue h Hwf _ _ _ _ HM E) as (qu & Hq & _).
  destruct (wf_view_queue h ql qu Hwf Hq) as [v Hv']. rewrite Hv'.
  apply Hv; [set_solver|done].
Qed.

(** An update of one of a manager's queues is an update of its value, and
    leaves every other manager alone. *)
Lemma ext_view_mgr_queue h h' m M V n ql v' :
  wf h → h_mgr h !! m = Some M → view_mgr h m = Some V → queueByName M !! n = Some ql →
  ext_except {[ql]} h h' → view_queue h' ql = Some v' →
  view_mgr h' m = Some (<[n := v']> V) ∧
  ∀ m', m' ≠ m → view_mgr h' m' = view_mgr h m'.
Proof.
  intros Hwf HM HV Hn (Hm & Hv & _) Hv'.
  assert (∀ m' M' n' ql', h_mgr h !! m' = Some M' → queueByName M' !! n' = Some ql' →
    ql' ≠ ql → view_queue h' ql' = view_queue h ql') as Hother.
  { intros m' M' n' ql' HM' Hn' Hne.
    destruct (wf_mgr_queue h Hwf _ _ _ _ HM' Hn') as (qu & Hq & _).
    destruct (wf_view_queue h ql' qu Hwf Hq) as [v Hqv]. rewrite Hqv.
    apply Hv; [set_solver|done]. }
  split.
  - apply view_mgr_Some in HV as (M' & HM' & ->). simplify_eq.
    apply view_mgr_Some. exists M. split; [congruence|]. apply map_eq. intros n'.
    rewrite lookup_insert, !lookup_omap. case_decide as He.
    + subst n'. rewrite Hn. by simpl.
    + destruct (queueByName M !! n') as [ql'|] eqn:E; simpl; [|done].
      symmetry. eapply (Hother m M n' ql'); [done..|].
      intros ->. apply He. by destruct (wf_mgr_inj h Hwf m M n m M n' ql).
  - intros m' Hne. unfold view_mgr. rewrite Hm.
    destruct (h_mgr h !! m') as [M'|] eqn:HM'; simpl; [|done]. f_equal. apply map_eq. intros n'.
    rewrite !lookup_omap. destruct (queueByName M' !! n') as [ql'|] eqn:E; simpl; [|done].
    eapply (Hother m' M' n' ql'); [done..|].
    intros ->. apply Hne. by destruct (wf_mgr_inj h Hwf m' M' n' m M n ql).
Qed.
(** *** L7: a manager with new contents *)
Lemma set_mgr_facts h m C :
  wf h →
  (∀ n ql, C !! n = Some ql → ∃ v, view_queue h ql = Some v ∧ v_name v = n) →
  (∀ n1 n2 ql, C !! n1 = Some ql → C !! n2 = Some ql → n1 = n2) →
  (∀ m' M' n' n ql, m' ≠ m → h_mgr h !! m' = Some M' → queueByName M' !! n' = Some ql → C !! n ≠ Some ql) →
  let h' := set_mgr m (mkManager C) h in
  wf h' ∧ view_mgr h' m = Some (omap (view_queue h) C)
  ∧ ∀ m', m' ≠ m → view_mgr h' m' = view_mgr h m'.
Proof.
  intros Hwf Ha Hb Hc h'. pose proof Hwf as [H1 H2 H3 H4 H5 H6 H7 H8]. split_and!.
  - split; simpl; try done.
    + intros m' M n ql HM Hn. lookup_cases; [|by eapply H1].
      destruct (Ha _ _ Hn) as (v & (qu & tl & qo & Hq & Ht & Ho & ->)%view_queue_Some & <-).
      by exists qu.
    + intros m1 M1 n1 m2 M2 n2 ql HM1 Hn1 HM2 Hn2.
      lookup_cases; [by rewrite (Hb n1 n2 ql)|exfalso..|exact (H2 _ _ _ _ _ _ _ HM1 Hn1 HM2 Hn2)].
      * by eapply (Hc m1 M1 n1 n2 ql).
      * by eapply (Hc m2 M2 n2 n1 ql).
  - unfold view_mgr; simpl. by rewrite lookup_insert_eq.
  - intros m' Hne. unfold view_mgr; simpl. by rewrite lookup_insert_ne.
Qed.
End updates.
