(* ===== verification/Quota.v ===== *)
(** * Quota: [internal/queue/quota.go]

    The quota of a queue: its maximum, what its pods use, and which pods those
    are.  Methods take the receiver as a possibly-nil pointer. *)

From stdpp Require Import base tactics option list gmap strings sorting pretty.
From Stdlib Require Import ZArith Lia.
From S2P Require Import Prelude.
From S2P Require Import External.
From S2P Require Import Resources.
From S2P Require Import Match.
From S2P Require Import Store.

Section quota.
Context {T : ApiTypes} {Q : QuantityOps} {P : PodOps}.

(** [used] is a fresh, empty map; [max] is shared with the caller. *)
Definition NewQuota (max : option loc) : st heap loc :=
  used ← alloc_res gomap_make;
  alloc_quota (mkQuota max used ∅).

Definition Quota_AddPod_body (ql : loc) (pod : option Pod) : st heap unit :=
  match pod with
  | None => mret tt
  | Some p =>
      qo ← load_quota ql;
      match quota_podsByID qo !! pod_UID p with
      | Some _ => mret tt
      | None =>
          store_quota ql (mkQuota (quota_max qo) (quota_used qo) (<[pod_UID p := p]> (quota_podsByID qo))) ;;
          update_res (quota_used qo) (λ r, Resources_Add r (FromPodReq (Some p)))
      end
  end.

Definition Quota_AddPodIfNotPresent (q : option loc) (pods : list (option Pod)) : st heap unit :=
  match q with
  | None => mret tt
  | Some ql =>
      if (length pods =? 0)%nat then mret tt
      else st_for pods (Quota_AddPod_body ql)
  end.

Definition Quota_DeletePod_body (ql : loc) (pod : option Pod) : st heap unit :=
  match pod with
  | None => mret tt
  | Some p =>
      qo ← load_quota ql;
      match quota_podsByID qo !! pod_UID p with
      | None => mret tt
      | Some _ =>
          store_quota ql (mkQuota (quota_max qo) (quota_used qo) (delete (pod_UID p) (quota_podsByID qo))) ;;
          update_res (quota_used qo) (λ r, Resources_Sub r (FromPodReq (Some p)))
      end
  end.

Definition Quota_DeletePodIfPresent (q : option loc) (pods : list (option Pod)) : st heap unit :=
  match q with
  | None => mret tt
  | Some ql =>
      if (length pods =? 0)%nat then mret tt
      else st_for pods (Quota_DeletePod_body ql)
  end.

(** The pods are read in one critical section and deleted in a later one. *)
Definition Quota_DeletePodsFunc {I : ImmutMap} (q : option loc) (predicate : option (Pod → bool))
    : st heap unit :=
  match q, predicate with
  | Some ql, Some predicate =>
      qo ← load_quota ql;
      let victims := filter (λ p, predicate p = true) (immut_Values (quota_podsByID qo)) in
      Quota_DeletePodIfPresent q (Some <$> victims)
  | _, _ => mret tt
  end.

Definition Quota_Max (q : option loc) : st heap (option loc) :=
  match q with
  | None => mret None
  | Some ql => qo ← load_quota ql; mret (quota_max qo)
  end.

Definition Quota_SetMax (q : option loc) (max : option loc) : st heap unit :=
  match q with
  | None => mret tt
  | Some ql =>
      qo ← load_quota ql;
      store_quota ql (mkQuota max (quota_used qo) (quota_podsByID qo))
  end.

(** The live map, not a copy. *)
Definition Quota_Used (q : option loc) : st heap (option loc) :=
  match q with
  | None => mret None
  | Some ql => qo ← load_quota ql; mret (quota_used qo)
  end.

Definition Quota_ContainsPod (q : option loc) (pod : option Pod) : st heap bool :=
  match q with
  | None => mret false
  | Some ql =>
      qo ← load_quota ql;
      p ← st_some pod;
      mret (bool_decide (is_Some (quota_podsByID qo !! pod_UID p)))
  end.

Definition Quota_WouldPutOverMax (q : option loc) (request : Resources) : st heap bool :=
  match q with
  | None => mret false
  | Some ql =>
      qo ← load_quota ql;
      used ← load_res (quota_used qo);
      max ← load_res (quota_max qo);
      sum ← st_lift (Resources_Plus used request);
      mret (Resources_AnyGreaterIntersecting sum max)
  end.

Definition Quota_Clone (q : option loc) : st heap (option loc) :=
  match q with
  | None => mret None
  | Some ql =>
      qo ← load_quota ql;
      max ← load_res (quota_max qo);
      max' ← alloc_res (Resources_Clone max);
      used ← load_res (quota_used qo);
      used' ← alloc_res (Resources_Clone used);
      l ← alloc_quota (mkQuota max' used' (quota_podsByID qo));
      mret (Some l)
  end.

(** *** String *)
Definition maxPodSamples : nat := 3.

(** The loop over the pods stops once it has [maxPodSamples] samples. *)
Fixpoint podSamples_loop (samples : list string) (pods : list Pod) : list string :=
  match pods with
  | [] => samples
  | pod :: pods =>
      if (maxPodSamples <=? length samples)%nat then samples
      else podSamples_loop (samples ++ [pod_Namespace pod +:+ "/" +:+ pod_Name pod]) pods
  end.

Definition Quota_stringNoLock {I : ImmutMap} {SS : SliceSort} (q : option loc) : st heap string :=
  match q with
  | None => mret "<nil>"
  | Some ql =>
      qo ← load_quota ql;
      let podSamples := podSamples_loop [] (immut_Values (quota_podsByID qo)) in
      let len := size (quota_podsByID qo) in
      let podsSummary :=
        if (len =? 0)%nat then "[]"
        else if (len <=? maxPodSamples)%nat then "[" +:+ String.concat ", " podSamples +:+ "]"
        else "[" +:+ String.concat ", " podSamples +:+ ", ... (+"
               +:+ pretty (len - maxPodSamples) +:+ " more)]" in
      max ← load_res (quota_max qo);
      used ← load_res (quota_used qo);
      mret ("{Max: " +:+ Resources_String max +:+ ", Used: " +:+ Resources_String used
              +:+ ", Pods: " +:+ podsSummary +:+ "}")
  end.

Definition Quota_String {I : ImmutMap} {SS : SliceSort} (q : option loc) : st heap string :=
  clone ← Quota_Clone q;
  Quota_stringNoLock clone.
End quota.
