(* ===== verification/Queue.v ===== *)
(** * Queue: [internal/queue/queue.go]

    A queue: name, quota, labels and preemption configuration.  Accessors
    accept a nil receiver. *)

From stdpp Require Import base tactics option list gmap strings sorting.
From Stdlib Require Import ZArith Lia.
From S2P Require Import Prelude.
From S2P Require Import External.
From S2P Require Import Resources.
From S2P Require Import Api.
From S2P Require Import Match.
From S2P Require Import Store.
From S2P Require Import Quota.

Section queue.
Context {T : ApiTypes} {Q : QuantityOps} {P : PodOps} {L : SelectorOps}.

(** A function on a possibly-nil queue pointer. *)
Definition QueueOption : Type := option loc → st heap unit.

Definition Queue_ApplyOpts (q : option loc) (opts : list QueueOption) : st heap unit :=
  match q with
  | None => mret tt
  | Some _ => st_for opts (λ opt, opt q)
  end.

Definition Queue_New (name : string) (opts : list QueueOption) : st heap loc :=
  quota ← NewQuota None;
  q ← alloc_queue (mkQueue name (Some quota) (Some gomap_make) PreemptionConfig_zero);
  Queue_ApplyOpts (Some q) opts ;;
  mret q.

Definition Queue_Name (q : option loc) : st heap string :=
  match q with
  | None => mret ""
  | Some l => qu ← load_queue l; mret (queue_name qu)
  end.

Definition Queue_Quota (q : option loc) : st heap (option loc) :=
  match q with
  | None => mret None
  | Some l => qu ← load_queue l; mret (queue_quota qu)
  end.

Definition Queue_PreemptionConfig (q : option loc) : st heap PreemptionConfig :=
  match q with
  | None => mret PreemptionConfig_zero
  | Some l => qu ← load_queue l; mret (queue_preemptionCfg qu)
  end.

Definition Queue_CanPodBePreemptedByOthers (q : option loc) (pod : option Pod) : st heap bool :=
  match q, pod with
  | Some l, Some pod =>
      qu ← load_queue l;
      if negb (bool_decide (default "" (gomap_lookup (pod_Labels pod) LabelKeyQueue) = queue_name qu))
      then mret false
      else if negb (CanBePreempted (PreemptedBy (queue_preemptionCfg qu))) then mret false
      else
        matched ← st_lift (LabelMatcher_Matches (ToPods (PreemptedBy (queue_preemptionCfg qu))) (pod_Labels pod));
        if negb matched then mret false else mret true
  | _, _ => mret false
  end.

Definition Queue_Labels (q : option loc) : st heap (option (gomap string)) :=
  match q with
  | None => mret None
  | Some l =>
      qu ← load_queue l;
      match queue_labels qu with
      | None => mret (Some gomap_make)
      | Some ls => mret (Some ls)
      end
  end.

Definition Queue_Clone (q : option loc) : st heap (option loc) :=
  match q with
  | None => mret None
  | Some l =>
      qu ← load_queue l;
      quota ← Quota_Clone (queue_quota qu);
      l' ← alloc_queue (mkQueue (queue_name qu) quota (queue_labels qu) (queue_preemptionCfg qu));
      mret (Some l')
  end.

Definition WithQuotaMax (max : option loc) : QueueOption := λ q,
  match q with
  | None => mret tt
  | Some l => qu ← load_queue l; Quota_SetMax (queue_quota qu) max
  end.

Definition WithLabels (lbls : option (gomap string)) : QueueOption := λ q,
  match q with
  | None => mret tt
  | Some l =>
      let lbls := match lbls with None => Some gomap_make | Some ls => Some ls end in
      qu ← load_queue l;
      store_queue l (mkQueue (queue_name qu) (queue_quota qu) lbls (queue_preemptionCfg qu))
  end.

Definition WithPreemptionConfig (config : PreemptionConfig) : QueueOption := λ q,
  match q with
  | None => mret tt
  | Some l =>
      qu ← load_queue l;
      store_queue l (mkQueue (queue_name qu) (queue_quota qu) (queue_labels qu) config)
  end.
End queue.
