(* ===== verification/Manager.v ===== *)
(** * Manager: [internal/queue/manager.go]

    The registry of queues by name, and the routing of pods to the quota of
    the queue that their label names. *)

From stdpp Require Import base tactics option list gmap strings sorting.
From Stdlib Require Import ZArith Lia.
From S2P Require Import Prelude.
From S2P Require Import External.
From S2P Require Import Resources.
From S2P Require Import Api.
From S2P Require Import Match.
From S2P Require Import Store.
From S2P Require Import Quota.
From S2P Require Import Queue.

Section manager.
Context {T : ApiTypes} {Q : QuantityOps} {P : PodOps} {L : SelectorOps}.

Definition ErrAddPodToQuota : go_error := ErrNew "failed to add pod to quota".
Definition ErrRemovePodFromQuota : go_error := ErrNew "failed to remove pod from quota".

(** [fmt.Errorf("%w: queue '%s' does not exist", err, queueName)] *)
Definition queue_does_not_exist (err : go_error) (queueName : string) : go_error :=
  ErrWrapf (error_Error err +:+ ": queue '" +:+ queueName +:+ "' does not exist") err.

Definition NewManager : st heap loc := alloc_mgr (mkManager ∅).

Definition Manager_GetByName (qm : loc) (name : string) : st heap (option loc) :=
  m ← load_mgr qm; mret (queueByName m !! name).

Definition Manager_Get (qm : loc) (pod : option Pod) : st heap (option loc) :=
  match pod with
  | None => mret None
  | Some pod =>
      match gomap_lookup (pod_Labels pod) LabelKeyQueue with
      | None => mret None
      | Some name => Manager_GetByName qm name
      end
  end.

(** [qm.queueByName[name] = q]: the queue is made before the map is written. *)
Definition Manager_insert (qm : loc) (name : string) (q : loc) : st heap unit :=
  m ← load_mgr qm;
  store_mgr qm (mkManager (<[name := q]> (queueByName m))).

Definition Manager_Put (qm : loc) (name : string) (opts : list QueueOption) : st heap unit :=
  q ← Queue_New name opts;
  Manager_insert qm name q.

Definition Manager_Update (qm : loc) (name : string) (opts : list QueueOption) : st heap unit :=
  if (length opts =? 0)%nat then mret tt
  else
    m ← load_mgr qm;
    match queueByName m !! name with
    | None =>
        q ← Queue_New name opts;
        Manager_insert qm name q
    | Some q => Queue_ApplyOpts (Some q) opts
    end.

Definition Manager_Delete (qm : loc) (name : string) : st heap unit :=
  m ← load_mgr qm;
  store_mgr qm (mkManager (delete name (queueByName m))).

Definition Manager_AddPodIfNotPresent (qm : loc) (pod : option Pod) : st heap (option go_error) :=
  match pod with
  | None => mret None
  | Some p =>
      match gomap_lookup (pod_Labels p) LabelKeyQueue with
      | None => mret None
      | Some queueName =>
          q ← Manager_GetByName qm queueName;
          match q with
          | None => mret (Some (queue_does_not_exist ErrAddPodToQuota queueName))
          | Some _ =>
              quota ← Queue_Quota q;
              Quota_AddPodIfNotPresent quota [pod] ;;
              mret None
          end
      end
  end.

Definition Manager_DeletePodIfPresent (qm : loc) (pod : option Pod) : st heap (option go_error) :=
  match pod with
  | None => mret None
  | Some p =>
      match gomap_lookup (pod_Labels p) LabelKeyQueue with
      | None => mret None
      | Some queueName =>
          q ← Manager_GetByName qm queueName;
          match q with
          | None => mret (Some (queue_does_not_exist ErrRemovePodFromQuota queueName))
          | Some _ =>
              quota ← Queue_Quota q;
              Quota_DeletePodIfPresent quota [pod] ;;
              mret None
          end
      end
  end.

(** [for name, queue := range queuesClone { queuesClone[name] = queue.Clone() }] *)
Fixpoint clone_queues (items : list (string * loc)) (queuesClone : gmap string loc)
    : st heap (gmap string loc) :=
  match items with
  | [] => mret queuesClone
  | (name, queue) :: items =>
      q ← Queue_Clone (Some queue);
      l ← st_some q;
      clone_queues items (<[name := l]> queuesClone)
  end.

Definition Manager_Clone (qm : loc) : st heap loc :=
  m ← load_mgr qm;
  let queuesClone := queueByName m in
  queuesClone ← clone_queues (map_to_list queuesClone) queuesClone;
  alloc_mgr (mkManager queuesClone).

(** The sequence over the queues of a clone: [yield] is called on each until it
    returns false.  [yield] may work on more than the heap; [on_heap] runs the
    package's own steps in its state. *)
Fixpoint yield_all {S} (queues : list loc) (yield : loc → st S bool) : st S unit :=
  match queues with
  | [] => mret tt
  | q :: queues =>
      continue ← yield q;
      if negb continue then mret tt else yield_all queues yield
  end.

Definition Manager_QueueIter {S} (on_heap : ∀ A, st heap A → st S A) (qm : loc)
    (yield : loc → st S bool) : st S unit :=
  qmClone ← on_heap _ (Manager_Clone qm);
  m ← on_heap _ (load_mgr qmClone);
  yield_all (map_to_list (queueByName m)).*2 yield.
End manager.
