(* ===== verification/QueueFacts.v ===== *)
(** * QueueFacts: the queue package refines its abstract specification

    The abstract operations work on values ([QuotaV], [QueueV], [ManagerV]);
    each method of the package, run on a well-formed heap, never panics, keeps
    the heap well-formed, has the abstract operation's effect on its own
    manager and none on the others. *)

From stdpp Require Import base tactics option list gmap strings sorting.
From Stdlib Require Import ZArith Lia.
From S2P Require Import Prelude.
From S2P Require Import External.
From S2P Require Import Concrete.
From S2P Require Import Resources.
From S2P Require Import Api.
From S2P Require Import Match.
From S2P Require Import Store.
From S2P Require Import StoreFacts.
From S2P Require Import Quota.
From S2P Require Import Queue.
From S2P Require Import Manager.

(** ** The abstract operations *)
Section abstract.
Context {T : ApiTypes} {Q : QuantityOps} {P : PodOps}.

(** [r] after [r.Add(other)] and [r.Sub(other)]. *)
Definition res_add (r other : Resources) : Resources :=
  match Resources_Add r other with Ret r' => r' | Panic => r end.
Definition res_sub (r other : Resources) : Resources :=
  match Resources_Sub r other with Ret r' => r' | Panic => r end.

Definition quotaV_add (pod : option Pod) (q : QuotaV) : QuotaV :=
  match pod with
  | None => q
  | Some p =>
      match qv_pods q !! pod_UID p with
      | Some _ => q
      | None => mkQuotaV (qv_max q) (res_add (qv_used q) (FromPodReq pod)) (<[pod_UID p := p]> (qv_pods q))
      end
  end.

Definition quotaV_del (pod : option Pod) (q : QuotaV) : QuotaV :=
  match pod with
  | None => q
  | Some p =>
      match qv_pods q !! pod_UID p with
      | None => q
      | Some _ => mkQuotaV (qv_max q) (res_sub (qv_used q) (FromPodReq pod)) (delete (pod_UID p) (qv_pods q))
      end
  end.

Definition quotaV_setmax (max : Resources) (q : QuotaV) : QuotaV :=
  mkQuotaV max (qv_used q) (qv_pods q).

(** Would [request] on top of the used amounts exceed the maximum? *)
Definition quotaV_over (q : QuotaV) (request : Resources) : bool :=
  Resources_AnyGreaterIntersecting (res_add (qv_used q) request) (qv_max q).

Definition on_quota (f : QuotaV → QuotaV) (v : QueueV) : QueueV :=
  mkQueueV (v_name v) (f (v_quota v)) (v_labels v) (v_cfg v).

Definition queueV_new (name : string) : QueueV :=
  mkQueueV name (mkQuotaV None gomap_make ∅) (Some gomap_make) PreemptionConfig_zero.

(** The queue a pod's label names, if the pod has the label. *)
Definition pod_queue (pod : option Pod) : option string :=
  p ← pod; gomap_lookup (pod_Labels p) LabelKeyQueue.

Definition mgrV_get (V : ManagerV) (pod : option Pod) : option QueueV := n ← pod_queue pod; V !! n.

Definition mgrV_add (pod : option Pod) (V : ManagerV) : ManagerV :=
  match pod_queue pod with
  | None => V
  | Some n => alter (on_quota (quotaV_add pod)) n V
  end.

Definition mgrV_del (pod : option Pod) (V : ManagerV) : ManagerV :=
  match pod_queue pod with
  | None => V
  | Some n => alter (on_quota (quotaV_del pod)) n V
  end.

(** The error when the pod's label names no queue. *)
Definition mgrV_err (err : go_error) (pod : option Pod) (V : ManagerV) : option go_error :=
  n ← pod_queue pod;
  match V !! n with
  | Some _ => None
  | None => Some (queue_does_not_exist err n)
  end.
End abstract.

(** ** Quota methods *)
Section quota_facts.
Context {T : ApiTypes} {Q : QuantityOps} {P : PodOps} {QL : QuantityLaws}.
Implicit Types (h : heap) (ql tl ul : loc) (v : QueueV).

(** The result of a method on queue [ql]: the heap stays well-formed, the
    queue's value becomes [v'] and no other queue changes. *)
Definition queue_post (h : heap) (ql : loc) (v' : QueueV) (h' : heap) : Prop :=
  wf h' ∧ ext_except {[ql]} h h' ∧ view_queue h' ql = Some v' ∧ h_queue h' = h_queue h.

Lemma res_val_Some h l m : h_res h !! l = Some m → res_val h (Some l) = Some m.
Proof. done. Qed.

Lemma wp_load_quota tl qo (K : Quota → heap → Prop) h :
  h_quota h !! tl = Some qo → K qo h → wp (load_quota tl) K h.
Proof. intros Hq HK. unfold load_quota. wp_simpl. apply wp_some. by exists qo. Qed.

Lemma wp_load_queue ql qu (K : Queue → heap → Prop) h :
  h_queue h !! ql = Some qu → K qu h → wp (load_queue ql) K h.
Proof. intros Hq HK. unfold load_queue. wp_simpl. apply wp_some. by exists qu. Qed.

Lemma wp_load_mgr m M (K : Manager → heap → Prop) h :
  h_mgr h !! m = Some M → K M h → wp (load_mgr m) K h.
Proof. intros Hq HK. unfold load_mgr. wp_simpl. apply wp_some. by exists M. Qed.

Lemma wp_update_res l m m' f (K : unit → heap → Prop) h :
  h_res h !! l = Some m → f (Some m) = Ret (Some m') → K tt (set_res l m' h) →
  wp (update_res (Some l) f) K h.
Proof.
  intros Hl Hf HK. unfold update_res, load_res. wp_simpl.
  unfold res_val; simpl. rewrite Hl. apply wp_lift. exists (Some m'). split; [done|].
  by apply wp_modify.
Qed.

Lemma res_add_Some m other : res_add (Some m) other = Some (add_map m (default ∅ other)).
Proof. unfold res_add. by rewrite Resources_Add_eq. Qed.

Lemma res_sub_Some m other : res_sub (Some m) other = Some (sub_map m (default ∅ other)).
Proof. unfold res_sub. by rewrite Resources_Sub_eq. Qed.

Lemma Quota_AddPod_body_spec h ql qu tl v pod :
  wf h → h_queue h !! ql = Some qu → queue_quota qu = Some tl → view_queue h ql = Some v →
  wp (Quota_AddPod_body tl pod) (λ _, queue_post h ql (on_quota (quotaV_add pod) v)) h.
Proof.
  intros Hwf Hq Ht Hv. pose proof Hv as (qu' & tl' & qo & ? & ? & Ho & ->)%view_queue_Some. simplify_eq.
  destruct pod as [p|]; simpl.
  2:{ apply wp_ret. split_and!; [done|apply ext_refl| |done].
      rewrite Hv. by destruct qu. }
  apply wp_bind, (wp_load_quota _ qo); [done|].
  unfold on_quota; simpl. destruct (quota_podsByID qo !! pod_UID p) as [p'|] eqn:E.
  { apply wp_ret. split_and!; [done|apply ext_refl|by rewrite Hv|done]. }
  destruct (wf_quota_used h Hwf _ _ Ho) as (ul & m & Hu & Hm). rewrite Hu.
  destruct (update_quota h ql qu tl qo ul m (add_map m (default ∅ (FromPodReq (Some p))))
    (<[pod_UID p := p]> (quota_podsByID qo))) as (Hwf' & Hext & Hview); [done..|].
  apply wp_bind, wp_modify. eapply wp_update_res; [exact Hm|apply Resources_Add_eq|].
  split_and!; [exact Hwf'|exact Hext| |done].
  rewrite Hview. unfold view_quota. cbn [v_quota qv_max qv_used].
  by rewrite ?Hu, (res_val_Some h ul m Hm), res_add_Some.
Qed.

Lemma Quota_DeletePod_body_spec h ql qu tl v pod :
  wf h → h_queue h !! ql = Some qu → queue_quota qu = Some tl → view_queue h ql = Some v →
  wp (Quota_DeletePod_body tl pod) (λ _, queue_post h ql (on_quota (quotaV_del pod) v)) h.
Proof.
  intros Hwf Hq Ht Hv. pose proof Hv as (qu' & tl' & qo & ? & ? & Ho & ->)%view_queue_Some. simplify_eq.
  destruct pod as [p|]; simpl.
  2:{ apply wp_ret. split_and!; [done|apply ext_refl| |done].
      rewrite Hv. by destruct qu. }
  apply wp_bind, (wp_load_quota _ qo); [done|].
  unfold on_quota; simpl. destruct (quota_podsByID qo !! pod_UID p) as [p'|] eqn:E.
  2:{ apply wp_ret. split_and!; [done|apply ext_refl|by rewrite Hv|done]. }
  destruct (wf_quota_used h Hwf _ _ Ho) as (ul & m & Hu & Hm). rewrite Hu.
  destruct (update_quota h ql qu tl qo ul m (sub_map m (default ∅ (FromPodReq (Some p))))
    (delete (pod_UID p) (quota_podsByID qo))) as (Hwf' & Hext & Hview); [done..|].
  apply wp_bind, wp_modify. eapply wp_update_res; [exact Hm|apply Resources_Sub_eq|].
  split_and!; [exact Hwf'|exact Hext| |done].
  rewrite Hview. unfold view_quota. cbn [v_quota qv_max qv_used].
  by rewrite ?Hu, (res_val_Some h ul m Hm), res_sub_Some.
Qed.

Lemma queue_post_trans h1 h2 h3 ql v2 v3 :
  queue_post h1 ql v2 h2 → queue_post h2 ql v3 h3 → queue_post h1 ql v3 h3.
Proof.
  intros (H1 & H2 & H3 & H4) (H1' & H2' & H3' & H4'). split_and!; [done| |done|congruence].
  by eapply ext_trans_same.
Qed.

Lemma queue_post_refl h ql v : wf h → view_queue h ql = Some v → queue_post h ql v h.
Proof. intros Hwf Hv. split_and!; auto with golib. Qed.

(** A loop of a per-pod method over a list of pods. *)
Lemma st_for_queue (body : option Pod → st heap unit) (f : option Pod → QuotaV → QuotaV) ql qu tl pods :
  (∀ h v pod, wf h → h_queue h !! ql = Some qu → queue_quota qu = Some tl → view_queue h ql = Some v →
     wp (body pod) (λ _, queue_post h ql (on_quota (f pod) v)) h) →
  ∀ h v, wf h → h_queue h !! ql = Some qu → queue_quota qu = Some tl → view_queue h ql = Some v →
  wp (st_for pods body)
    (λ _, queue_post h ql (on_quota (λ q, foldl (λ q pod, f pod q) q pods) v)) h.
Proof.
  intros Hbody. induction pods as [|pod pods IH]; intros h v Hwf Hq Ht Hv; simpl.
  { apply wp_ret. assert (on_quota (λ q, q) v = v) as -> by by destruct v.
    by apply queue_post_refl. }
  apply wp_bind. eapply wp_mono; [by eapply Hbody|]. intros a h' Hpost.
  pose proof Hpost as (Hwf' & _ & Hv' & Hqs).
  eapply wp_mono; [apply (IH h' (on_quota (f pod) v) Hwf'); [congruence|done|exact Hv']|].
  intros a' h'' Hpost'. eapply queue_post_trans; [exact Hpost|exact Hpost'].
Qed.

Lemma Quota_AddPodIfNotPresent_spec h ql qu tl v pods :
  wf h → h_queue h !! ql = Some qu → queue_quota qu = Some tl → view_queue h ql = Some v →
  wp (Quota_AddPodIfNotPresent (Some tl) pods)
    (λ _, queue_post h ql (on_quota (λ q, foldl (λ q pod, quotaV_add pod q) q pods) v)) h.
Proof.
  intros Hwf Hq Ht Hv. unfold Quota_AddPodIfNotPresent.
  assert (wp (st_for pods (Quota_AddPod_body tl))
    (λ _, queue_post h ql (on_quota (λ q, foldl (λ q pod, quotaV_add pod q) q pods) v)) h) as Hfor.
  { eapply st_for_queue; [|done..]. intros. by eapply Quota_AddPod_body_spec. }
  by destruct pods.
Qed.

Lemma Quota_DeletePodIfPresent_spec h ql qu tl v pods :
  wf h → h_queue h !! ql = Some qu → queue_quota qu = Some tl → view_queue h ql = Some v →
  wp (Quota_DeletePodIfPresent (Some tl) pods)
    (λ _, queue_post h ql (on_quota (λ q, foldl (λ q pod, quotaV_del pod q) q pods) v)) h.
Proof.
  intros Hwf Hq Ht Hv. unfold Quota_DeletePodIfPresent.
  assert (wp (st_for pods (Quota_DeletePod_body tl))
    (λ _, queue_post h ql (on_quota (λ q, foldl (λ q pod, quotaV_del pod q) q pods) v)) h) as Hfor.
  { eapply st_for_queue; [|done..]. intros. by eapply Quota_DeletePod_body_spec. }
  by destruct pods.
Qed.

(** [WouldPutOverMax] reads the heap and does not change it. *)
Lemma Quota_WouldPutOverMax_spec h ql qu tl v request :
  wf h → h_queue h !! ql = Some qu → queue_quota qu = Some tl → view_queue h ql = Some v →
  Quota_WouldPutOverMax (Some tl) request h = Ret (quotaV_over (v_quota v) request, h).
Proof.
  intros Hwf Hq Ht Hv. pose proof Hv as (qu' & tl' & qo & ? & ? & Ho & ->)%view_queue_Some. simplify_eq.
  destruct (wf_quota_used h Hwf _ _ Ho) as (ul & m & Hu & Hm).
  unfold Quota_WouldPutOverMax, load_quota, load_res, st_some, st_get, st_lift, mbind, st_bind, mret, st_ret.
  rewrite Ho. unfold quotaV_over, view_quota. cbn [v_quota qv_max qv_used]. rewrite Hu, (res_val_Some h ul m Hm).
  unfold Resources_Plus. by rewrite Resources_Clone_eq, Resources_Add_eq, res_add_Some.
Qed.
End quota_facts.

(** ** Allocation, options and cloning *)
Section queue_facts.
Context {T : ApiTypes} {Q : QuantityOps} {P : PodOps} {QL : QuantityLaws}.
Implicit Types (h : heap) (ql tl ul : loc) (v : QueueV).

Lemma fresh_lookup {A} (m : gmap loc A) : m !! fresh (dom m) = None.
Proof. apply not_elem_of_dom, is_fresh. Qed.

(** A new quota: a fresh map [m] of used amounts and an existing maximum. *)
Lemma wp_new_quota h mx r m pods (K : loc → heap → Prop) :
  wf h → max_ref h mx r →
  (∀ tl h', wf h' → ext_except ∅ h h' → h_queue h' = h_queue h →
     (∃ qo, h_quota h' !! tl = Some qo ∧ view_quota h' qo = mkQuotaV r (Some m) pods) →
     (∀ ql qu, h_queue h' !! ql = Some qu → queue_quota qu ≠ Some tl) → K tl h') →
  wp (alloc_res (Some m)) (λ used h1, wp (alloc_quota (mkQuota mx used pods)) K h1) h.
Proof.
  intros Hwf Hmx HK. unfold alloc_res, alloc_quota, store_quota. wp_simpl.
  destruct (new_quota h (fresh (dom (h_res h))) (fresh (dom (h_quota h))) mx r m pods Hwf)
    as (Hwf' & Hext & Hview & Hno); [apply fresh_lookup|apply fresh_lookup|done|].
  apply HK; [done|done|done| |done].
  eexists. split; [simpl; apply lookup_insert_eq|done].
Qed.

Lemma wp_alloc_res h r (K : option loc → heap → Prop) :
  wf h →
  (∀ ref h', wf h' → ext_except ∅ h h' → h_queue h' = h_queue h → h_quota h' = h_quota h →
     max_ref h' ref r → K ref h') →
  wp (alloc_res r) K h.
Proof.
  intros Hwf HK. destruct r as [m|]; unfold alloc_res; wp_simpl.
  - pose proof (fresh_lookup (h_res h)) as Hl.
    generalize dependent (fresh (dom (h_res h))). intros l Hl.
    destruct (set_res_fresh h l m Hwf Hl) as [Hwf' Hext].
    apply HK; try done. split; [unfold res_val; simpl; apply lookup_insert_eq|].
    intros l' [= <-]. split; [simpl; by rewrite lookup_insert_eq|].
    intros tl qo Hq Hu. destruct (wf_quota_used h Hwf _ _ Hq) as (ul & m' & Hu' & Hm').
    simplify_eq.
  - apply HK; auto with golib.
Qed.

(** A new queue over an unshared quota. *)
Lemma wp_alloc_queue h nm tl qo ls cfg (K : loc → heap → Prop) :
  wf h → h_quota h !! tl = Some qo →
  (∀ ql' qu', h_queue h !! ql' = Some qu' → queue_quota qu' ≠ Some tl) →
  (∀ ql h', wf h' → ext_except ∅ h h' → h_queue h !! ql = None →
     view_queue h' ql = Some (mkQueueV nm (view_quota h qo) ls cfg) → K ql h') →
  wp (alloc_queue (mkQueue nm (Some tl) ls cfg)) K h.
Proof.
  intros Hwf Ho Hno HK. unfold alloc_queue, store_queue. wp_simpl.
  destruct (new_queue h (fresh (dom (h_queue h))) (mkQueue nm (Some tl) ls cfg) tl qo Hwf)
    as (Hwf' & Hext & Hview); [apply fresh_lookup|done..|].
  apply HK; [done|done|apply fresh_lookup|done].
Qed.

(** Updates of a queue that was fresh in [h] touch no queue of [h]. *)
Lemma ext_fresh h h1 h2 ql :
  ext_except ∅ h h1 → h_queue h !! ql = None → ext_except {[ql]} h1 h2 → ext_except ∅ h h2.
Proof.
  intros (H1 & H2 & H3) Hql (H1' & H2' & H3'). split_and!; [congruence| |by auto].
  intros ql' v Hx Hv. apply H2'; [|by apply H2].
  apply not_elem_of_singleton. intros ->.
  apply view_queue_Some in Hv as (? & ? & ? & ? & _). congruence.
Qed.

Lemma ext_empty_trans h1 h2 h3 :
  ext_except ∅ h1 h2 → ext_except ∅ h2 h3 → ext_except ∅ h1 h3.
Proof. apply ext_trans_same. Qed.

(** What an option does to a queue's value, in a heap where its maximum (if it
    sets one) is a proper reference. *)
Inductive opt_denotes h : QueueOption → (QueueV → QueueV) → Prop :=
| od_max ref r : max_ref h ref r → opt_denotes h (WithQuotaMax ref) (on_quota (quotaV_setmax r))
| od_labels ls :
    opt_denotes h (WithLabels ls) (λ v, mkQueueV (v_name v) (v_quota v)
      (match ls with None => Some gomap_make | Some ls => Some ls end) (v_cfg v))
| od_cfg cfg :
    opt_denotes h (WithPreemptionConfig cfg)
      (λ v, mkQueueV (v_name v) (v_quota v) (v_labels v) cfg).

Lemma opt_denotes_ext X h h' opt f :
  ext_except X h h' → opt_denotes h opt f → opt_denotes h' opt f.
Proof. intros (_ & _ & Hm) []; constructor. by apply Hm. Qed.

Definition opt_post h ql v' h' : Prop :=
  wf h' ∧ ext_except {[ql]} h h' ∧ view_queue h' ql = Some v'.

Lemma opt_spec h ql v opt f :
  wf h → view_queue h ql = Some v → opt_denotes h opt f →
  wp (opt (Some ql)) (λ _, opt_post h ql (f v)) h.
Proof.
  intros Hwf Hv Hopt. pose proof Hv as (qu & tl & qo & Hq & Ht & Ho & ->)%view_queue_Some.
  destruct Hopt as [ref r Href|ls|cfg]; simpl.
  - apply wp_bind, (wp_load_queue _ qu); [done|]. rewrite Ht. simpl.
    apply wp_bind, (wp_load_quota _ qo); [done|]. unfold store_quota. apply wp_modify.
    by eapply update_max.
  - apply wp_bind, (wp_load_queue _ qu); [done|]. unfold store_queue. apply wp_modify.
    by eapply update_queue.
  - apply wp_bind, (wp_load_queue _ qu); [done|]. unfold store_queue. apply wp_modify.
    by eapply update_queue.
Qed.

Lemma Queue_ApplyOpts_spec opts fs : ∀ h ql v,
  wf h → view_queue h ql = Some v → Forall2 (opt_denotes h) opts fs →
  wp (Queue_ApplyOpts (Some ql) opts) (λ _, opt_post h ql (foldl (λ v f, f v) v fs)) h.
Proof.
  unfold Queue_ApplyOpts. revert fs.
  induction opts as [|opt opts IH]; intros fs h ql v Hwf Hv Hopts; simpl.
  { inversion Hopts. apply wp_ret. split_and!; auto with golib. }
  inversion Hopts as [|? f ? fs' Hopt Hrest]; subst.
  apply wp_bind. eapply wp_mono; [by eapply opt_spec|]. intros a h' (Hwf' & Hext & Hv').
  eapply wp_mono; [apply (IH fs' h' ql (f v) Hwf' Hv')|].
  - eapply Forall2_impl; [exact Hrest|]. intros o g. by eapply opt_denotes_ext.
  - intros a' h'' (Hwf'' & Hext' & Hv''). split_and!; [done|by eapply ext_trans_same|done].
Qed.

Lemma Queue_New_spec h name opts fs :
  wf h → Forall2 (opt_denotes h) opts fs →
  wp (Queue_New name opts) (λ ql h', wf h' ∧ ext_except ∅ h h' ∧ h_queue h !! ql = None
    ∧ view_queue h' ql = Some (foldl (λ v f, f v) (queueV_new name) fs)) h.
Proof.
  intros Hwf Hopts. unfold Queue_New, NewQuota. apply wp_bind.
  apply (wp_new_quota h None None ∅ ∅); [done|apply max_ref_nil|].
  intros tl h1 Hwf1 Hext1 Hq1 (qo & Hqo & Hview) Hno. apply wp_bind.
  apply (wp_alloc_queue h1 name tl qo); [done..|].
  intros ql h2 Hwf2 Hext2 Hql Hv. rewrite Hview in Hv.
  assert (ext_except ∅ h h2) as Hext12 by by eapply ext_empty_trans.
  apply wp_bind. eapply wp_mono.
  { apply (Queue_ApplyOpts_spec opts fs h2 ql (queueV_new name) Hwf2 Hv).
    eapply Forall2_impl; [exact Hopts|]. intros o g. by eapply opt_denotes_ext. }
  intros a h3 (Hwf3 & Hext3 & Hv3). apply wp_ret. split_and!; [done| |by rewrite <- Hq1|done].
  eapply ext_fresh; [exact Hext12|by rewrite <- Hq1|exact Hext3].
Qed.

(** The clone of a queue's quota is a new quota with the same value. *)
Lemma Quota_Clone_spec h ql qu tl v :
  wf h → h_queue h !! ql = Some qu → queue_quota qu = Some tl → view_queue h ql = Some v →
  wp (Quota_Clone (Some tl)) (λ r h', ∃ tl' qo', r = Some tl' ∧ wf h' ∧ ext_except ∅ h h'
    ∧ h_queue h' = h_queue h ∧ h_quota h' !! tl' = Some qo' ∧ view_quota h' qo' = v_quota v
    ∧ ∀ ql' qu', h_queue h' !! ql' = Some qu' → queue_quota qu' ≠ Some tl') h.
Proof.
  intros Hwf Hq Ht Hv. pose proof Hv as (qu' & tl0 & qo & ? & ? & Ho & ->)%view_queue_Some. simplify_eq.
  destruct (wf_quota_used h Hwf _ _ Ho) as (ul & m & Hu & Hm).
  unfold Quota_Clone. apply wp_bind, (wp_load_quota _ qo); [done|].
  apply wp_bind. unfold load_res. wp_simpl. rewrite Resources_Clone_eq.
  apply wp_alloc_res; [done|]. intros mx h1 Hwf1 Hext1 Hqs1 Hqt1 Hmx. wp_simpl.
  assert (res_val h1 (quota_used qo) = Some m) as ->.
  { pose proof (proj1 (proj2 Hext1) ql _ ltac:(set_solver) Hv) as Hv1.
    apply view_queue_Some in Hv1 as (qu1 & tl1 & qo1 & Hq1 & Ht1 & Ho1 & Heq).
    rewrite Hqs1 in Hq1. rewrite Hqt1 in Ho1.
    apply (f_equal (λ v, qv_used (v_quota v))) in Heq. simpl in Heq.
    simplify_eq. by rewrite <- Heq, Hu. }
  rewrite Resources_Clone_eq.
  eapply wp_mono; [|intros used s' Hw; apply wp_bind; exact Hw].
  apply (wp_new_quota h1 mx (res_val h (quota_max qo)) m (quota_podsByID qo)); [done..|].
  intros tl' h2 Hwf2 Hext2 Hqs2 (qo' & Ho' & Hview) Hno. rewrite wp_ret.
  exists tl', qo'. split_and!; [done|done|by eapply ext_empty_trans|by rewrite Hqs2|done| |done].
  rewrite Hview. cbn [v_quota]. unfold view_quota. by rewrite Hu, (res_val_Some h ul m Hm).
Qed.

Lemma Queue_Clone_spec h ql v :
  wf h → view_queue h ql = Some v →
  wp (Queue_Clone (Some ql)) (λ r h', ∃ ql', r = Some ql' ∧ wf h' ∧ ext_except ∅ h h'
    ∧ h_queue h !! ql' = None ∧ view_queue h' ql' = Some v) h.
Proof.
  intros Hwf Hv. pose proof Hv as (qu & tl & qo & Hq & Ht & Ho & Heq)%view_queue_Some.
  unfold Queue_Clone. apply wp_bind, (wp_load_queue _ qu); [done|]. apply wp_bind. rewrite Ht.
  eapply wp_mono; [by eapply Quota_Clone_spec|].
  intros r h2 (tl' & qo' & -> & Hwf2 & Hext2 & Hqs2 & Ho' & Hview & Hno). apply wp_bind.
  apply (wp_alloc_queue h2 _ tl' qo'); [done..|].
  intros ql' h3 Hwf3 Hext3 Hfr Hv'. apply wp_ret. exists ql'. split_and!; [done|done| | |].
  - by eapply ext_empty_trans.
  - by rewrite <- Hqs2.
  - rewrite Hv', Hview. by subst v.
Qed.
End queue_facts.
