(* ===== verification/ManagerFacts.v ===== *)
(** * ManagerFacts: the manager refines a map from names to queue values

    Every operation of [Manager] run on a well-formed heap returns, acts on its
    own manager's value as the abstract operation does, and leaves the value of
    every other manager (in particular of every snapshot) alone. *)

From stdpp Require Import base tactics option list gmap strings sorting.
From Stdlib Require Import ZArith Lia.
From S2P Require Import Prelude.
From S2P Require Import External.
From S2P Require Import Concrete.
From S2P Require Import Resources.
From S2P Require Import Api.
From S2P Require Import Match.
From S2P Require Import Store.
From S2P Require Import StoreFacts.
From S2P Require Import Quota.
From S2P Require Import Queue.
From S2P Require Import Manager.
From S2P Require Import QueueFacts.

Section manager_facts.
Context {T : ApiTypes} {Q : QuantityOps} {P : PodOps} {L : SelectorOps} {QL : QuantityLaws}.
Implicit Types (h : heap) (ql tl ul : loc) (v : QueueV) (m : loc) (V : ManagerV).

(** What a call on manager [m] leaves behind: its value is [V'], every other
    manager keeps its value, and proper references stay proper. *)
Record mgr_post (h : heap) (m : loc) (V' : ManagerV) (h' : heap) : Prop := mkMgrPost {
  mp_wf : wf h';
  mp_view : view_mgr h' m = Some V';
  mp_frame m' : m' ≠ m → view_mgr h' m' = view_mgr h m';
  mp_max ref r : max_ref h ref r → max_ref h' ref r;
}.

Lemma mgr_post_refl h m V : wf h → view_mgr h m = Some V → mgr_post h m V h.
Proof. by split. Qed.
#[local] Hint Resolve mgr_post_refl : golib.

(** A call that changes one of the manager's queues. *)
Lemma mgr_post_queue h h' m M V n ql v' :
  wf h → h_mgr h !! m = Some M → view_mgr h m = Some V → queueByName M !! n = Some ql →
  wf h' → ext_except {[ql]} h h' → view_queue h' ql = Some v' →
  mgr_post h m (<[n := v']> V) h'.
Proof.
  intros Hwf HM HV Hn Hwf' Hext Hv'.
  destruct (ext_view_mgr_queue h h' m M V n ql v') as [H1 H2]; [done..|].
  split; [done|done|exact H2|apply Hext].
Qed.

Lemma view_mgr_mgr h m V : view_mgr h m = Some V → ∃ M, h_mgr h !! m = Some M.
Proof. intros (M & HM & _)%view_mgr_Some. by exists M. Qed.

(** A queue's map of used amounts is never nil. *)
Lemma wf_queue_used h ql v : wf h → view_queue h ql = Some v → ∃ mu, qv_used (v_quota v) = Some mu.
Proof.
  intros Hwf (qu & tl & qo & _ & _ & Ho & ->)%view_queue_Some.
  destruct (wf_quota_used h Hwf _ _ Ho) as (ul & mu & Hu & Hm). exists mu.
  simpl. by rewrite Hu, (res_val_Some h ul mu Hm).
Qed.

Lemma wf_view_used h m V n v :
  wf h → view_mgr h m = Some V → V !! n = Some v → ∃ mu, qv_used (v_quota v) = Some mu.
Proof.
  intros Hwf HV Hn. destruct (view_mgr_mgr h m V HV) as [M HM].
  pose proof (view_mgr_lookup h m M V n Hwf HM HV) as Hl.
  destruct (queueByName M !! n) as [ql|]; [|congruence].
  destruct Hl as (v' & Hv' & Hq & _). simplify_eq. by eapply wf_queue_used.
Qed.

(** ** Lookup *)
Lemma Manager_GetByName_spec h m M V name (K : option loc → heap → Prop) :
  h_mgr h !! m = Some M → K (queueByName M !! name) h → wp (Manager_GetByName m name) K h.
Proof.
  intros HM HK. unfold Manager_GetByName. apply wp_bind, (wp_load_mgr _ M); [done|].
  by apply wp_ret.
Qed.

Lemma Manager_Get_loc h m M pod n :
  h_mgr h !! m = Some M → pod_queue pod = Some n → Manager_Get m pod h = Ret (queueByName M !! n, h).
Proof.
  intros HM Hn. destruct pod as [p|]; [|done]. unfold pod_queue in Hn. simpl in *. rewrite Hn.
  unfold Manager_GetByName, load_mgr, mbind, st_bind, st_get. by rewrite HM.
Qed.

Lemma Manager_Get_spec h m V pod :
  wf h → view_mgr h m = Some V →
  wp (Manager_Get m pod) (λ r h', h' = h ∧
    match mgrV_get V pod with
    | None => r = None
    | Some v => ∃ ql, r = Some ql ∧ view_queue h ql = Some v
    end) h.
Proof.
  intros Hwf HV. destruct (view_mgr_mgr h m V HV) as [M HM].
  unfold Manager_Get, mgrV_get, pod_queue. destruct pod as [p|]; simpl; [|by apply wp_ret].
  destruct (gomap_lookup (pod_Labels p) LabelKeyQueue) as [n|]; simpl; [|by apply wp_ret].
  eapply Manager_GetByName_spec; [done..|]. split; [done|].
  pose proof (view_mgr_lookup h m M V n Hwf HM HV) as Hn.
  destruct (queueByName M !! n) as [ql|]; [|by rewrite Hn].
  destruct Hn as (v & -> & Hv & _). by exists ql.
Qed.

(** ** Pods *)
Lemma alter_present {A} (f : A → A) (W : gmap string A) n a : W !! n = Some a → alter f n W = <[n := f a]> W.
Proof.
  intros Hn. apply map_eq. intros k. rewrite lookup_alter, lookup_insert.
  case_decide; [|done]. subst. by rewrite Hn.
Qed.

Lemma alter_absent {A} (f : A → A) (W : gmap string A) n : W !! n = None → alter f n W = W.
Proof.
  intros Hn. apply map_eq. intros k. rewrite lookup_alter. case_decide; [|done]. subst. by rewrite Hn.
Qed.

(** What [AddPodIfNotPresent] and [DeletePodIfPresent] share: a quota method
    runs on the quota of the queue called [n], or there is no such queue. *)
Lemma route_spec h m V n (method : option loc → st heap unit) (f : QuotaV → QuotaV) err :
  wf h → view_mgr h m = Some V →
  (∀ ql qu tl v, h_queue h !! ql = Some qu → queue_quota qu = Some tl → view_queue h ql = Some v →
     wp (method (Some tl)) (λ _, queue_post h ql (on_quota f v)) h) →
  wp (q ← Manager_GetByName m n;
      match q with
      | None => mret (Some (queue_does_not_exist err n))
      | Some _ => quota ← Queue_Quota q; method quota ;; mret None
      end)
    (λ e h', e = match V !! n with Some _ => None | None => Some (queue_does_not_exist err n) end
       ∧ mgr_post h m (alter (on_quota f) n V) h') h.
Proof.
  intros Hwf HV Hmethod. destruct (view_mgr_mgr h m V HV) as [M HM].
  apply wp_bind. eapply Manager_GetByName_spec; [done..|].
  pose proof (view_mgr_lookup h m M V n Hwf HM HV) as Hn.
  destruct (queueByName M !! n) as [ql|] eqn:Eq.
  2:{ rewrite Hn, alter_absent by done. apply wp_ret. auto with golib. }
  destruct Hn as (v & Hnv & Hv & _). rewrite Hnv, (alter_present _ _ _ v) by done. unfold Queue_Quota.
  pose proof Hv as (qu & tl & qo & Hq & Ht & Ho & _)%view_queue_Some.
  rewrite wp_bind, wp_bind. apply (wp_load_queue _ qu); [done|]. apply wp_ret. rewrite Ht, wp_bind.
  eapply wp_mono; [by eapply Hmethod|]. intros [] h' (Hwf' & Hext & Hv' & _).
  apply wp_ret. split; [done|]. by eapply mgr_post_queue.
Qed.

Lemma Manager_AddPodIfNotPresent_spec h m V pod :
  wf h → view_mgr h m = Some V →
  wp (Manager_AddPodIfNotPresent m pod)
    (λ err h', err = mgrV_err ErrAddPodToQuota pod V ∧ mgr_post h m (mgrV_add pod V) h') h.
Proof.
  intros Hwf HV. unfold Manager_AddPodIfNotPresent, mgrV_err, mgrV_add, pod_queue.
  destruct pod as [p|]; simpl; [|apply wp_ret; auto with golib].
  destruct (gomap_lookup (pod_Labels p) LabelKeyQueue) as [n|]; simpl;
    [|apply wp_ret; auto with golib].
  apply (route_spec h m V n (λ quota, Quota_AddPodIfNotPresent quota [Some p])); [done..|].
  intros. by eapply (Quota_AddPodIfNotPresent_spec h ql qu tl v [Some p]).
Qed.

Lemma Manager_DeletePodIfPresent_spec h m V pod :
  wf h → view_mgr h m = Some V →
  wp (Manager_DeletePodIfPresent m pod)
    (λ err h', err = mgrV_err ErrRemovePodFromQuota pod V ∧ mgr_post h m (mgrV_del pod V) h') h.
Proof.
  intros Hwf HV. unfold Manager_DeletePodIfPresent, mgrV_err, mgrV_del, pod_queue.
  destruct pod as [p|]; simpl; [|apply wp_ret; auto with golib].
  destruct (gomap_lookup (pod_Labels p) LabelKeyQueue) as [n|]; simpl;
    [|apply wp_ret; auto with golib].
  apply (route_spec h m V n (λ quota, Quota_DeletePodIfPresent quota [Some p])); [done..|].
  intros. by eapply (Quota_DeletePodIfPresent_spec h ql qu tl v [Some p]).
Qed.

(** ** Queues *)
Lemma opts_keep_name h opts fs v :
  Forall2 (opt_denotes h) opts fs → v_name (foldl (λ v f, f v) v fs) = v_name v.
Proof.
  intros Hopts. revert v. induction Hopts as [|opt f opts fs Hopt _ IH]; intros v; simpl; [done|].
  rewrite IH. by destruct Hopt.
Qed.

(** The manager's map, changed under one name to a queue that no manager had. *)
Lemma set_mgr_post h h1 m M V n (new : option loc) C :
  wf h → h_mgr h !! m = Some M → view_mgr h m = Some V →
  wf h1 → ext_except ∅ h h1 →
  C = partial_alter (λ _, new) n (queueByName M) →
  (∀ ql, new = Some ql → h_queue h !! ql = None ∧ ∃ v, view_queue h1 ql = Some v ∧ v_name v = n) →
  mgr_post h m (partial_alter (λ _, new ≫= view_queue h1) n V) (set_mgr m (mkManager C) h1).
Proof.
  intros Hwf HM HV Hwf1 Hext -> Hnew.
  assert (view_mgr h1 m = Some V) as HV1 by by rewrite (ext_view_mgr h h1).
  assert (h_mgr h1 !! m = Some M) as HM1 by (destruct Hext as [-> _]; done).
  assert (∀ ql m' M' n', new = Some ql → h_mgr h1 !! m' = Some M' → queueByName M' !! n' ≠ Some ql) as Hfresh.
  { intros ql m' M' n' Hql HM' Hn'. destruct Hext as [Hm _]. rewrite Hm in HM'.
    destruct (wf_mgr_queue h Hwf _ _ _ _ HM' Hn') as (qu & Hq & _).
    destruct (Hnew ql Hql) as [? _]. congruence. }
  destruct (set_mgr_facts h1 m (partial_alter (λ _, new) n (queueByName M)) Hwf1) as (Hwf2 & Hv2 & Hf2).
  - intros n' ql. rewrite lookup_partial_alter. case_decide; [subst n'; intros Hql|intros Hql].
    + by destruct (Hnew ql Hql) as [_ ?].
    + pose proof (view_mgr_lookup h1 m M V n' Hwf1 HM1 HV1) as Hn. rewrite Hql in Hn.
      destruct Hn as (v & _ & ? & ?). by exists v.
  - intros n1 n2 ql. rewrite !lookup_partial_alter. intros H1 H2.
    repeat case_decide; subst; [done|exfalso..|by destruct (wf_mgr_inj h1 Hwf1 m M n1 m M n2 ql)];
      by eapply (Hfresh ql m M).
  - intros m' M' n' n'' ql Hne HM' Hn'. rewrite lookup_partial_alter. case_decide.
    + intros Hql. by eapply (Hfresh ql m' M' n').
    + intros Hql. by destruct (wf_mgr_inj h1 Hwf1 m' M' n' m M n'' ql).
  - split; [done| | |].
    + rewrite Hv2. f_equal. apply map_eq. intros k. rewrite lookup_omap, !lookup_partial_alter.
      case_decide; [done|]. pose proof (view_mgr_lookup h1 m M V k Hwf1 HM1 HV1) as Hk.
      destruct (queueByName M !! k) as [ql|]; simpl; [|done]. by destruct Hk as (v & -> & ? & _).
    + intros m' Hne. rewrite Hf2 by done. by apply ext_view_mgr.
    + intros ref r Href. apply Hext in Href. exact Href.
Qed.

Lemma Manager_Put_spec h m V name opts fs :
  wf h → view_mgr h m = Some V → Forall2 (opt_denotes h) opts fs →
  wp (Manager_Put m name opts)
    (λ _, mgr_post h m (<[name := foldl (λ v f, f v) (queueV_new name) fs]> V)) h.
Proof.
  intros Hwf HV Hopts. destruct (view_mgr_mgr h m V HV) as [M HM]. unfold Manager_Put.
  apply wp_bind. eapply wp_mono; [by apply Queue_New_spec|]. intros ql h1 (Hwf1 & Hext & Hfr & Hv).
  unfold Manager_insert, store_mgr. assert (h_mgr h1 !! m = Some M) as HM1 by (destruct Hext as [-> _]; done).
  apply wp_bind, (wp_load_mgr _ M); [done|]. apply wp_modify.
  pose proof (set_mgr_post h h1 m M V name (Some ql) _ Hwf HM HV Hwf1 Hext eq_refl) as Hp.
  simpl in Hp. rewrite Hv in Hp. apply Hp. intros ql' [= <-]. split; [done|].
  eexists. split; [done|]. by rewrite (opts_keep_name h opts fs).
Qed.

Definition mgrV_update (name : string) (fs : list (QueueV → QueueV)) (V : ManagerV) : ManagerV :=
  if (length fs =? 0)%nat then V
  else <[name := foldl (λ v f, f v) (default (queueV_new name) (V !! name)) fs]> V.

Lemma Manager_Update_spec h m V name opts fs :
  wf h → view_mgr h m = Some V → Forall2 (opt_denotes h) opts fs →
  wp (Manager_Update m name opts) (λ _, mgr_post h m (mgrV_update name fs V)) h.
Proof.
  intros Hwf HV Hopts. destruct (view_mgr_mgr h m V HV) as [M HM]. unfold Manager_Update, mgrV_update.
  rewrite (Forall2_length _ _ _ Hopts).
  destruct (length fs =? 0)%nat; [apply wp_ret; auto with golib|].
  apply wp_bind, (wp_load_mgr _ M); [done|].
  pose proof (view_mgr_lookup h m M V name Hwf HM HV) as Hn.
  destruct (queueByName M !! name) as [ql|] eqn:Eq.
  - destruct Hn as (v & Hnv & Hv & _). rewrite Hnv. simpl.
    eapply wp_mono; [by apply Queue_ApplyOpts_spec|]. intros a h' (Hwf' & Hext & Hv').
    by eapply mgr_post_queue.
  - rewrite Hn. simpl. by apply Manager_Put_spec.
Qed.

Lemma Manager_Delete_spec h m V name :
  wf h → view_mgr h m = Some V →
  wp (Manager_Delete m name) (λ _, mgr_post h m (delete name V)) h.
Proof.
  intros Hwf HV. destruct (view_mgr_mgr h m V HV) as [M HM]. unfold Manager_Delete, store_mgr.
  apply wp_bind, (wp_load_mgr _ M); [done|]. apply wp_modify.
  by apply (set_mgr_post h h m M V name None _ Hwf HM HV Hwf (ext_refl ∅ h) eq_refl).
Qed.

Lemma NewManager_spec h :
  wf h → wp NewManager (λ m h', h_mgr h !! m = None ∧ mgr_post h m ∅ h') h.
Proof.
  intros Hwf. unfold NewManager, alloc_mgr, store_mgr. wp_simpl.
  destruct (set_mgr_facts h (fresh (dom (h_mgr h))) ∅ Hwf) as (Hwf1 & Hv1 & Hf1);
    [intros *; by rewrite lookup_empty..| |].
  { intros m' M' n' n ql _ _ _. by rewrite lookup_empty. }
  split; [apply fresh_lookup|]. split; [done|by rewrite Hv1, omap_empty|done|done].
Qed.

(** ** Cloning *)
Lemma clone_queues_spec items : ∀ h C,
  wf h → NoDup items.*1 →
  (∀ n ql, (n, ql) ∈ items → ∃ v, view_queue h ql = Some v) →
  wp (clone_queues items C) (λ C' h', wf h' ∧ ext_except ∅ h h' ∧
    (∀ n, n ∉ items.*1 → C' !! n = C !! n) ∧
    (∀ n ql, (n, ql) ∈ items → ∃ ql' v, C' !! n = Some ql' ∧ view_queue h ql = Some v
       ∧ view_queue h' ql' = Some v ∧ h_queue h !! ql' = None) ∧
    (∀ n1 n2 ql', n1 ∈ items.*1 → n2 ∈ items.*1 → C' !! n1 = Some ql' → C' !! n2 = Some ql' → n1 = n2)) h.
Proof.
  induction items as [|[n ql] items IH]; intros h C Hwf Hnd Hall; simpl.
  { apply wp_ret. split_and!; [done|apply ext_refl|done|set_solver|set_solver]. }
  apply NoDup_cons in Hnd as [Hn Hnd].
  destruct (Hall n ql) as [v Hv]; [set_solver|].
  apply wp_bind. eapply wp_mono; [by apply Queue_Clone_spec|].
  intros r h1 (ql1 & -> & Hwf1 & Hext1 & Hfr1 & Hv1). simpl. apply wp_ret.
  assert (∃ qu, h_queue h1 !! ql1 = Some qu) as [qu1 Hqu1].
  { apply view_queue_Some in Hv1 as (qu & ? & ? & ? & _). by exists qu. }
  assert (∀ ql' v', view_queue h ql' = Some v' → view_queue h1 ql' = Some v') as Hpres.
  { intros ql' v' Hv'. by apply Hext1. }
  eapply wp_mono; [apply (IH h1 (<[n := ql1]> C) Hwf1 Hnd)|].
  { intros n' ql' Hin. destruct (Hall n' ql') as [v' Hv']; [set_solver|]. eauto. }
  intros C' h' (Hwf' & Hext' & Hout & Hin & Hinj).
  assert (C' !! n = Some ql1) as Hn1 by (rewrite Hout by done; apply lookup_insert_eq).
  assert (∀ n' ql', n' ∈ items.*1 → C' !! n' = Some ql' → ql' ≠ ql1) as Hne.
  { intros n' ql' ([n2 ql2] & -> & Hin')%list_elem_of_fmap Hl ->.
    destruct (Hin n2 ql2 Hin') as (ql3 & v3 & Hl3 & _ & _ & Hfr3). simpl in Hl. congruence. }
  split_and!; [done|by eapply ext_empty_trans| | |].
  - intros n' Hn'. simpl in Hn'. rewrite Hout by set_solver. apply lookup_insert_ne. set_solver.
  - intros n' ql' [[= -> ->]|Hin']%elem_of_cons.
    + exists ql1, v. split_and!; [done|done| |done]. by apply Hext'.
    + destruct (Hin n' ql' Hin') as (ql2 & v2 & H1 & H2 & H3 & H4).
      destruct (Hall n' ql') as [v' Hv']; [set_solver|]. pose proof (Hpres _ _ Hv') as Hv2.
      exists ql2, v2. split_and!; [done|congruence|done|].
      destruct (h_queue h !! ql2) as [qu|] eqn:E; [|done].
      destruct (wf_view_queue h ql2 qu Hwf E) as [w Hw]. apply Hpres in Hw.
      apply view_queue_Some in Hw as (? & ? & ? & ? & _). congruence.
  - intros n1 n2 ql' [->|H1]%elem_of_cons [->|H2]%elem_of_cons Hl1 Hl2; [done|exfalso..|by eapply Hinj].
    + eapply (Hne n2 ql'); [done|done|congruence].
    + eapply (Hne n1 ql'); [done|done|congruence].
Qed.

(** A clone is a new manager with the same value; no existing one changes. *)
Lemma Manager_Clone_spec h m V :
  wf h → view_mgr h m = Some V →
  wp (Manager_Clone m) (λ c h', h_mgr h !! c = None ∧ mgr_post h c V h') h.
Proof.
  intros Hwf HV. destruct (view_mgr_mgr h m V HV) as [M HM]. unfold Manager_Clone, alloc_mgr, store_mgr.
  apply wp_bind, (wp_load_mgr _ M); [done|]. apply wp_bind.
  eapply wp_mono; [apply (clone_queues_spec _ h (queueByName M) Hwf); [apply NoDup_fst_map_to_list|]|].
  { intros n ql Hin%elem_of_map_to_list. destruct (wf_mgr_queue h Hwf _ _ _ _ HM Hin) as (qu & Hq & _).
    by eapply wf_view_queue. }
  intros C h1 (Hwf1 & Hext & Hout & Hin & Hinj). wp_simpl.
  assert (∀ n ql', C !! n = Some ql' → ∃ ql, queueByName M !! n = Some ql ∧ n ∈ (map_to_list (queueByName M)).*1
    ∧ ∃ v, view_queue h ql = Some v ∧ view_queue h1 ql' = Some v ∧ h_queue h !! ql' = None) as HC.
  { intros n ql' Hl. destruct (queueByName M !! n) as [ql|] eqn:E.
    - exists ql. split; [done|]. apply elem_of_map_to_list in E.
      destruct (Hin n ql E) as (ql2 & v & Hl2 & ? & ? & ?). simplify_eq. split; [|by exists v].
      apply list_elem_of_fmap. by exists (n, ql).
    - rewrite Hout in Hl; [congruence|]. intros ([n' ql] & -> & E'%elem_of_map_to_list)%list_elem_of_fmap.
      simpl in E. congruence. }
  assert (h_mgr h1 = h_mgr h) as Hmgr by apply Hext.
  destruct (set_mgr_facts h1 (fresh (dom (h_mgr h1))) C Hwf1) as (Hwf2 & Hv2 & Hf2).
  - intros n ql' Hl. destruct (HC n ql' Hl) as (ql & HMn & _ & v & Hv & Hv1 & _). exists v. split; [done|].
    pose proof (view_mgr_lookup h m M V n Hwf HM HV) as Hn. rewrite HMn in Hn.
    destruct Hn as (v' & _ & Hv' & Hnm). congruence.
  - intros n1 n2 ql' H1 H2. destruct (HC n1 ql' H1) as (_ & _ & Hn1 & _), (HC n2 ql' H2) as (_ & _ & Hn2 & _).
    by apply (Hinj n1 n2 ql').
  - intros m' M' n' n ql _ HM' Hn' Hl. destruct (HC n ql Hl) as (_ & _ & _ & _ & _ & _ & Hfr).
    rewrite Hmgr in HM'. destruct (wf_mgr_queue h Hwf _ _ _ _ HM' Hn') as (qu & ? & _). congruence.
  - rewrite Hmgr in *. split; [apply fresh_lookup|]. split; [done| | |].
    + rewrite Hv2. f_equal. apply map_eq. intros n.
      pose proof (view_mgr_lookup h m M V n Hwf HM HV) as Hn. rewrite lookup_omap.
      destruct (queueByName M !! n) as [ql|] eqn:E.
      * destruct Hn as (v & -> & Hv & _). apply elem_of_map_to_list in E.
        destruct (Hin n ql E) as (ql' & v' & -> & ? & ? & _). simpl. congruence.
      * rewrite Hn. destruct (C !! n) as [ql'|] eqn:E'; [|done].
        destruct (HC n ql' E') as (? & ? & _). congruence.
    + intros m' Hne. rewrite Hf2 by done. by apply ext_view_mgr.
    + intros ref r Href. apply Hext in Href. exact Href.
Qed.
End manager_facts.

#[export] Hint Resolve mgr_post_refl : golib.
