(* ===== verification/ManagerProps.v ===== *)
(** * ManagerProps: what the queue package guarantees

    Sequences of calls on a manager, snapshots taken in between, and the
    accounting of used amounts, with what a resized pod does to it. *)

From stdpp Require Import base tactics option list gmap strings sorting.
From Stdlib Require Import ZArith Lia.
From S2P Require Import Prelude.
From S2P Require Import External.
From S2P Require Import Concrete.
From S2P Require Import Resources.
From S2P Require Import Api.
From S2P Require Import Match.
From S2P Require Import Store.
From S2P Require Import StoreFacts.
From S2P Require Import Quota.
From S2P Require Import Queue.
From S2P Require Import Manager.
From S2P Require Import QueueFacts.
From S2P Require Import ManagerFacts.

(** ** Calls and their abstract effect *)
Section calls.
Context {T : ApiTypes} {Q : QuantityOps} {P : PodOps} {L : SelectorOps}.

(** One call of a method that changes a manager. *)
Inductive mgr_call :=
| CallPut (name : string) (opts : list QueueOption)
| CallUpdate (name : string) (opts : list QueueOption)
| CallDelete (name : string)
| CallAddPod (pod : option Pod)
| CallDeletePod (pod : option Pod).

Definition run_call (m : loc) (c : mgr_call) : st heap (option go_error) :=
  match c with
  | CallPut name opts => Manager_Put m name opts ;; mret None
  | CallUpdate name opts => Manager_Update m name opts ;; mret None
  | CallDelete name => Manager_Delete m name ;; mret None
  | CallAddPod pod => Manager_AddPodIfNotPresent m pod
  | CallDeletePod pod => Manager_DeletePodIfPresent m pod
  end.

(** A script interleaves calls on two managers: on [m1] for [true]. *)
Fixpoint run_script (m1 m2 : loc) (cs : list (bool * mgr_call)) : st heap (list (option go_error)) :=
  match cs with
  | [] => mret []
  | (b, c) :: cs =>
      e ← run_call (if b : bool then m1 else m2) c;
      es ← run_script m1 m2 cs;
      mret (e :: es)
  end.

(** The effect on a value: the returned error and the new value. *)
Definition call_effect : Type := ManagerV → option go_error * ManagerV.

Inductive call_denotes (h : heap) : mgr_call → call_effect → Prop :=
| cd_put name opts fs :
    Forall2 (opt_denotes h) opts fs →
    call_denotes h (CallPut name opts)
      (λ V, (None, <[name := foldl (λ v f, f v) (queueV_new name) fs]> V))
| cd_update name opts fs :
    Forall2 (opt_denotes h) opts fs →
    call_denotes h (CallUpdate name opts) (λ V, (None, mgrV_update name fs V))
| cd_delete name : call_denotes h (CallDelete name) (λ V, (None, delete name V))
| cd_add pod :
    call_denotes h (CallAddPod pod) (λ V, (mgrV_err ErrAddPodToQuota pod V, mgrV_add pod V))
| cd_del pod :
    call_denotes h (CallDeletePod pod) (λ V, (mgrV_err ErrRemovePodFromQuota pod V, mgrV_del pod V)).

(** The same script on two separate values. *)
Fixpoint run_values (Es : list (bool * call_effect)) (V1 V2 : ManagerV)
    : list (option go_error) * ManagerV * ManagerV :=
  match Es with
  | [] => ([], V1, V2)
  | (b, E) :: Es =>
      let '(e, V') := E (if b : bool then V1 else V2) in
      let '(es, W1, W2) := if b then run_values Es V' V2 else run_values Es V1 V' in
      (e :: es, W1, W2)
  end.
End calls.

Section scripts.
Context {T : ApiTypes} {Q : QuantityOps} {P : PodOps} {L : SelectorOps} {QL : QuantityLaws}.
Implicit Types (h : heap) (m : loc) (V : ManagerV).

Lemma opt_denotes_max h h' opt f :
  (∀ ref r, max_ref h ref r → max_ref h' ref r) → opt_denotes h opt f → opt_denotes h' opt f.
Proof. intros Hm []; constructor. by apply Hm. Qed.

Lemma call_denotes_max h h' c E :
  (∀ ref r, max_ref h ref r → max_ref h' ref r) → call_denotes h c E → call_denotes h' c E.
Proof.
  intros Hm []; constructor; (eapply Forall2_impl; [done|]); intros; by eapply opt_denotes_max.
Qed.

Lemma run_call_spec h m V c E :
  wf h → view_mgr h m = Some V → call_denotes h c E →
  wp (run_call m c) (λ e h', e = (E V).1 ∧ mgr_post h m (E V).2 h') h.
Proof.
  intros Hwf HV Hc. destruct Hc as [name opts fs Ho|name opts fs Ho|name|pod|pod]; simpl.
  - apply wp_bind. eapply wp_mono; [by eapply Manager_Put_spec|]. intros a h' Hp. by apply wp_ret.
  - apply wp_bind. eapply wp_mono; [by eapply Manager_Update_spec|]. intros a h' Hp. by apply wp_ret.
  - apply wp_bind. eapply wp_mono; [by eapply Manager_Delete_spec|]. intros a h' Hp. by apply wp_ret.
  - by apply Manager_AddPodIfNotPresent_spec.
  - by apply Manager_DeletePodIfPresent_spec.
Qed.

Lemma run_script_spec m1 m2 cs Es : ∀ h V1 V2,
  m1 ≠ m2 → wf h → view_mgr h m1 = Some V1 → view_mgr h m2 = Some V2 →
  Forall2 (λ c E, c.1 = E.1 ∧ call_denotes h c.2 E.2) cs Es →
  wp (run_script m1 m2 cs) (λ es h', wf h' ∧
    let '(es', W1, W2) := run_values Es V1 V2 in
    es = es' ∧ view_mgr h' m1 = Some W1 ∧ view_mgr h' m2 = Some W2) h.
Proof.
  revert Es. induction cs as [|[b c] cs IH]; intros Es h V1 V2 Hne Hwf HV1 HV2 Hcs.
  { inversion Hcs. by apply wp_ret. }
  inversion Hcs as [|? [b' E] ? Es' [Hb Hc] Hrest]; subst. simpl in *. subst b'.
  apply wp_bind. destruct b.
  - eapply wp_mono; [by apply (run_call_spec h m1 V1 c E)|]. intros e h1 [-> [Hwf1 Hv Hf Hm]].
    destruct (E V1) as [e V']; simpl in *. apply wp_bind.
    eapply wp_mono; [apply (IH Es' h1 V' V2 Hne Hwf1 Hv)|].
    + by rewrite Hf by congruence.
    + eapply Forall2_impl; [exact Hrest|]. intros c1 E1 [? ?]. split; [done|by eapply call_denotes_max].
    + intros es h2 [Hwf2 Hr]. apply wp_ret. split; [done|].
      destruct (run_values Es' V' V2) as [[es' W1] W2]. by destruct Hr as (-> & ? & ?).
  - eapply wp_mono; [by apply (run_call_spec h m2 V2 c E)|]. intros e h1 [-> [Hwf1 Hv Hf Hm]].
    destruct (E V2) as [e V']; simpl in *. apply wp_bind.
    eapply wp_mono; [apply (IH Es' h1 V1 V' Hne Hwf1)|].
    + by rewrite Hf by congruence.
    + done.
    + eapply Forall2_impl; [exact Hrest|]. intros c1 E1 [? ?]. split; [done|by eapply call_denotes_max].
    + intros es h2 [Hwf2 Hr]. apply wp_ret. split; [done|].
      destruct (run_values Es' V1 V') as [[es' W1] W2]. by destruct Hr as (-> & ? & ?).
Qed.
End scripts.

(** ** Accounting

    The used amounts of a quota as a sum over the pods recorded in it, where
    [wt u p n] is what the pod [p] recorded under [u] weighs in resource [n]:
    below, the recorded object's own request ([settled]), or a request that is
    fixed for the UID ([accounted]). *)
Section weights.
Context {T : ApiTypes} {Q : QuantityOps} {P : PodOps} {L : SelectorOps} {QL : QuantityLaws}.
Variable wt : UID → Pod → ResourceName → Z.
Implicit Types (h : heap) (m : loc) (V : ManagerV).

Definition weighed_total (pods : gmap UID Pod) (n : ResourceName) : Z :=
  map_fold (λ u p acc, wt u p n + acc)%Z 0%Z pods.

(** The used amounts are the recorded pods' total, and every resource that a
    recorded pod asks for has an entry. *)
Record weighed (q : QuotaV) : Prop := mkWeighed {
  acc_used n : qty (qv_used q) n = weighed_total (qv_pods q) n;
  acc_some : is_Some (qv_used q);
  acc_names u p n : qv_pods q !! u = Some p → n ∉ gomap_dom (qv_used q) → wt u p n = 0%Z;
  acc_ids u p : qv_pods q !! u = Some p → pod_UID p = u;
}.

Definition weighedV V : Prop := ∀ n v, V !! n = Some v → v_name v = n ∧ weighed (v_quota v).

(** An added pod asks for what it will weigh, a deleted one for what it weighs. *)
Definition add_fits (pod : option Pod) : Prop :=
  ∀ p n, pod = Some p → qty (FromPodReq pod) n = wt (pod_UID p) p n.
Definition del_fits (pod : option Pod) (q : QuotaV) : Prop :=
  ∀ p p' n, pod = Some p → qv_pods q !! pod_UID p = Some p' → qty (FromPodReq pod) n = wt (pod_UID p) p' n.

Definition call_fits V (c : mgr_call) : Prop :=
  match c with
  | CallAddPod pod => add_fits pod
  | CallDeletePod pod => ∀ n v, pod_queue pod = Some n → V !! n = Some v → del_fits pod (v_quota v)
  | _ => True
  end.

Lemma weighed_total_insert pods u p n :
  pods !! u = None → weighed_total (<[u := p]> pods) n = (wt u p n + weighed_total pods n)%Z.
Proof.
  intros Hu. unfold weighed_total.
  apply (map_fold_insert_L (λ u p acc, (wt u p n + acc)%Z)); [|done]. intros. lia.
Qed.

Lemma weighed_total_delete pods u p n :
  pods !! u = Some p → weighed_total (delete u pods) n = (weighed_total pods n - wt u p n)%Z.
Proof.
  intros Hu. rewrite <- (insert_delete_id pods u p Hu) at 2.
  rewrite weighed_total_insert by apply lookup_delete_eq. lia.
Qed.

Lemma weighed_empty max : weighed (mkQuotaV max gomap_make ∅).
Proof.
  split; simpl; [|by eexists|by intros ? ? ? ?%lookup_empty_Some|by intros ? ? ?%lookup_empty_Some].
  intros n. unfold gomap_make. rewrite qty_empty. unfold weighed_total. by rewrite map_fold_empty.
Qed.

Lemma weighed_add pod q : add_fits pod → weighed q → weighed (quotaV_add pod q).
Proof.
  intros Hok [Hu [m Hm] Hn Hid]. unfold quotaV_add. destruct pod as [p|]; [|by split].
  destruct (qv_pods q !! pod_UID p) as [p'|] eqn:E; [by split|].
  pose proof (Hok p) as Hreq. rewrite Hm in *. rewrite res_add_Some.
  split; cbn [qv_used qv_pods].
  - intros n. rewrite qty_add_map, qty_default, Hu, weighed_total_insert, (Hreq n) by done. lia.
  - by eexists.
  - intros u p1 n Hp1 Hd. cbn [gomap_dom] in Hd. rewrite dom_add_map in Hd.
    apply lookup_insert_Some in Hp1 as [[<- <-]|[Hne Hp1]].
    + rewrite <- (Hreq n eq_refl). apply qty_not_in_dom.
      destruct (FromPodReq (Some p)); simpl in *; set_solver.
    + eapply Hn; [exact Hp1|simpl; set_solver].
  - intros u p1 [[<- <-]|[Hne Hp1]]%lookup_insert_Some; [done|]. by apply Hid.
Qed.

Lemma weighed_del pod q : del_fits pod q → weighed q → weighed (quotaV_del pod q).
Proof.
  intros Hok [Hu [m Hm] Hn Hid]. unfold quotaV_del. destruct pod as [p|]; [|by split].
  destruct (qv_pods q !! pod_UID p) as [p'|] eqn:E; [|by split].
  pose proof (λ n, Hok p p' n eq_refl E) as Hreq. rewrite Hm in *. rewrite res_sub_Some.
  split; cbn [qv_used qv_pods].
  - intros n. rewrite qty_sub_map_exact.
    + by rewrite qty_default, Hu, (weighed_total_delete _ _ p'), (Hreq n).
    + intros Hd. rewrite qty_default, (Hreq n). by eapply Hn.
  - by eexists.
  - intros u p1 n Hp1 Hd. cbn [gomap_dom] in Hd. rewrite dom_sub_map in Hd.
    apply lookup_delete_Some in Hp1 as [Hne Hp1]. eapply Hn; [exact Hp1|simpl; set_solver].
  - intros u p1 [Hne Hp1]%lookup_delete_Some. by apply Hid.
Qed.

Lemma weighed_opts h opts fs v :
  Forall2 (opt_denotes h) opts fs → weighed (v_quota v) →
  v_name (foldl (λ v f, f v) v fs) = v_name v ∧ weighed (v_quota (foldl (λ v f, f v) v fs)).
Proof.
  intros Hopts. revert v. induction Hopts as [|opt f opts fs Hopt _ IH]; intros v Hv; simpl; [done|].
  destruct (IH (f v)) as [-> ?].
  - destruct Hopt; [|done|done]. destruct v as [? [] ? ?]. by destruct Hv.
  - split; [|done]. by destruct Hopt.
Qed.

Lemma weighed_alter V n f :
  weighedV V → (∀ v, V !! n = Some v → weighed (v_quota v) → weighed (f (v_quota v))) →
  weighedV (alter (on_quota f) n V).
Proof.
  intros HV Hf k v. rewrite lookup_alter. case_decide; [|apply HV]. subst k.
  destruct (V !! n) as [w|] eqn:E; simpl; intros [= <-]. destruct (HV n w E). split; [done|by apply Hf].
Qed.

Lemma weighed_insert V n v : weighedV V → v_name v = n → weighed (v_quota v) → weighedV (<[n := v]> V).
Proof. intros HV Hn Hv k w [[<- <-]|[_ Hw]]%lookup_insert_Some; [done|by apply HV]. Qed.

Lemma weighed_delete V n : weighedV V → weighedV (delete n V).
Proof. intros HV k v [_ Hk]%lookup_delete_Some. by apply HV. Qed.

Lemma weighed_mgr_add V pod : add_fits pod → weighedV V → weighedV (mgrV_add pod V).
Proof.
  intros Hok HV. unfold mgrV_add. destruct (pod_queue pod); [|done].
  apply weighed_alter; [done|]. intros v _. by apply weighed_add.
Qed.

Lemma weighed_mgr_del V pod :
  (∀ n v, pod_queue pod = Some n → V !! n = Some v → del_fits pod (v_quota v)) →
  weighedV V → weighedV (mgrV_del pod V).
Proof.
  intros Hok HV. unfold mgrV_del. destruct (pod_queue pod) as [n|] eqn:E; [|done].
  apply weighed_alter; [done|]. intros v Hv. apply weighed_del. by apply (Hok n).
Qed.

Lemma weighed_call h c E V : call_denotes h c E → call_fits V c → weighedV V → weighedV (E V).2.
Proof.
  intros Hc Hok HV. destruct Hc as [name opts fs Ho|name opts fs Ho|name|pod|pod]; simpl.
  - destruct (weighed_opts h opts fs (queueV_new name) Ho (weighed_empty None)).
    by apply weighed_insert.
  - unfold mgrV_update. case_goal; [done|].
    assert (v_name (default (queueV_new name) (V !! name)) = name
      ∧ weighed (v_quota (default (queueV_new name) (V !! name)))) as [Hn Ha].
    { destruct (V !! name) as [v|] eqn:E; simpl; [by apply HV|]. split; [done|apply weighed_empty]. }
    destruct (weighed_opts h opts fs _ Ho Ha). apply weighed_insert; [done|congruence|done].
  - by apply weighed_delete.
  - by apply weighed_mgr_add.
  - by apply weighed_mgr_del.
Qed.
End weights.

(** ** Reachable heaps

    The heaps that calls of the package make, from the empty one: new managers
    and clones of managers, resource maps that callers allocate for quotas'
    maxima, and method calls on any of the managers, if [ok] allows the call. *)
Section reachable.
Context {T : ApiTypes} {Q : QuantityOps} {P : PodOps} {L : SelectorOps} {QL : QuantityLaws}.
Variable ok : heap → loc → mgr_call → Prop.
Implicit Types (h : heap) (m : loc) (V : ManagerV).

Inductive reachable_by : heap → Prop :=
| reach_empty : reachable_by empty_heap
| reach_new h m h' : reachable_by h → NewManager h = Ret (m, h') → reachable_by h'
| reach_clone h m c h' :
    reachable_by h → is_Some (h_mgr h !! m) → Manager_Clone m h = Ret (c, h') → reachable_by h'
| reach_res h r ref h' : reachable_by h → alloc_res r h = Ret (ref, h') → reachable_by h'
| reach_call h m c E e h' :
    reachable_by h → is_Some (h_mgr h !! m) → call_denotes h c E → ok h m c → run_call m c h = Ret (e, h') →
    reachable_by h'.

Lemma wf_empty : wf empty_heap.
Proof. split; simpl; intros; exfalso; by eapply (lookup_empty_Some (M := gmap loc)). Qed.

Lemma view_mgr_exists h m : is_Some (h_mgr h !! m) → ∃ V, view_mgr h m = Some V.
Proof. intros [M HM]. eexists. apply view_mgr_Some. by exists M. Qed.

Lemma view_mgr_alive h m V : view_mgr h m = Some V → is_Some (h_mgr h !! m).
Proof. intros (M & HM & _)%view_mgr_Some. by eexists. Qed.

(** Every manager of a well-formed heap has a value of which [Inv] holds. *)
Definition heap_holds (Inv : ManagerV → Prop) h : Prop := wf h ∧ ∀ m V, view_mgr h m = Some V → Inv V.

Lemma heap_holds_post Inv h m V' h' : heap_holds Inv h → mgr_post h m V' h' → Inv V' → heap_holds Inv h'.
Proof.
  intros [Hwf Hall] [Hwf' Hv Hf Hm] HV'. split; [done|]. intros m' V1 HV1.
  destruct (decide (m' = m)) as [->|Hne]; [by simplify_eq|].
  rewrite Hf in HV1 by done. by eapply Hall.
Qed.

Lemma reachable_holds wt h :
  (∀ h m V c, view_mgr h m = Some V → ok h m c → call_fits wt V c) →
  reachable_by h → heap_holds (weighedV wt) h.
Proof.
  intros Hfits.
  induction 1 as [|h m h' _ IH Hn|h m c h' _ IH Hm Hc|h r ref h' _ IH Hr|h m c E e h' _ IH Hm Hc Hok Hr].
  - split; [apply wf_empty|]. intros m V (M & HM & _)%view_mgr_Some. simpl in HM.
    by rewrite lookup_empty in HM.
  - destruct IH as [Hwf Hall]. pose proof (NewManager_spec h Hwf) as Hs. unfold wp in Hs. rewrite Hn in Hs.
    destruct Hs as [_ Hp]. eapply heap_holds_post; [by split|exact Hp|].
    intros n v Hl. by rewrite lookup_empty in Hl.
  - destruct IH as [Hwf Hall]. destruct (view_mgr_exists h m Hm) as [V HV].
    pose proof (Manager_Clone_spec h m V Hwf HV) as Hs. unfold wp in Hs. rewrite Hc in Hs.
    destruct Hs as [_ Hp]. eapply heap_holds_post; [by split|exact Hp|by eapply Hall].
  - destruct IH as [Hwf Hall].
    pose proof (wp_alloc_res h r (λ _ h', heap_holds (weighedV wt) h') Hwf) as Hs. unfold wp in Hs. rewrite Hr in Hs.
    apply Hs. intros ref' h1 Hwf1 Hext _ _ _. split; [done|]. intros m V HV.
    rewrite (ext_view_mgr h h1) in HV by done. by eapply Hall.
  - destruct IH as [Hwf Hall]. destruct (view_mgr_exists h m Hm) as [V HV].
    pose proof (run_call_spec h m V c E Hwf HV Hc) as Hs. unfold wp in Hs. rewrite Hr in Hs.
    destruct Hs as [_ Hp]. eapply heap_holds_post; [by split|exact Hp|].
    eapply weighed_call; [done|by eapply Hfits|by eapply Hall].
Qed.
End reachable.

#[export] Hint Resolve wf_empty : golib.

(** *** With the requests of the recorded objects *)
Section settled.
Context {T : ApiTypes} {Q : QuantityOps} {P : PodOps} {L : SelectorOps} {QL : QuantityLaws}.
Implicit Types (h : heap) (m : loc) (V : ManagerV).

Definition own_request (u : UID) (p : Pod) (n : ResourceName) : Z := qty (FromPodReq (Some p)) n.

(** What the recorded pod objects request of a resource altogether. *)
Definition recorded_total : gmap UID Pod → ResourceName → Z := weighed_total own_request.

Lemma add_fits_own pod : add_fits own_request pod.
Proof. by intros p n ->. Qed.

(** A deletion passes the pod with the requests that were recorded when it was
    added: the pod has not been resized since, or the recorded object is passed. *)
Definition unresized_release h m (c : mgr_call) : Prop :=
  ∀ p V n v p' r, c = CallDeletePod (Some p) → view_mgr h m = Some V → pod_queue (Some p) = Some n →
    V !! n = Some v → qv_pods (v_quota v) !! pod_UID p = Some p' →
    qty (FromPodReq (Some p)) r = qty (FromPodReq (Some p')) r.

Lemma unresized_fits h m V c : view_mgr h m = Some V → unresized_release h m c → call_fits own_request V c.
Proof.
  intros HV Hc. destruct c; simpl; [done..|apply add_fits_own|].
  intros n v Hn Hv p p' r -> Hp. by eapply Hc.
Qed.
End settled.

(** *** With requests that are fixed

    [req u n] is the request of the pod with UID [u] for resource [n], in every
    call: no pod is resized in place. *)
Section accounting.
Context {T : ApiTypes} {Q : QuantityOps} {P : PodOps} {L : SelectorOps} {QL : QuantityLaws}.
Variable req : UID → ResourceName → Z.
Implicit Types (h : heap) (m : loc) (V : ManagerV).

#[local] Abbreviation fixed := (λ u (_ : Pod) n, req u n).

Definition pod_ok (pod : option Pod) : Prop :=
  ∀ p n, pod = Some p → qty (FromPodReq pod) n = req (pod_UID p) n.

(** What the recorded pods request of a resource altogether. *)
Definition pods_total (pods : gmap UID Pod) (n : ResourceName) : Z := weighed_total fixed pods n.

Definition accounted (q : QuotaV) : Prop := weighed fixed q.
Definition accountedV V : Prop := ∀ n v, V !! n = Some v → v_name v = n ∧ accounted (v_quota v).

Definition call_ok (c : mgr_call) : Prop :=
  match c with CallAddPod pod | CallDeletePod pod => pod_ok pod | _ => True end.

Lemma accounted_used q n : accounted q → qty (qv_used q) n = pods_total (qv_pods q) n.
Proof. intros Hq. apply (acc_used fixed q Hq). Qed.

Lemma pods_total_insert pods u p n :
  pods !! u = None → pods_total (<[u := p]> pods) n = (req u n + pods_total pods n)%Z.
Proof. apply (weighed_total_insert fixed). Qed.

Lemma pods_total_delete pods u p n :
  pods !! u = Some p → pods_total (delete u pods) n = (pods_total pods n - req u n)%Z.
Proof. apply (weighed_total_delete fixed). Qed.

Lemma accounted_empty max : accounted (mkQuotaV max gomap_make ∅).
Proof. apply weighed_empty. Qed.

Lemma pod_ok_del pod q : pod_ok pod → del_fits fixed pod q.
Proof. intros Hok p p' n Hp _. by apply Hok. Qed.

Lemma accounted_add pod q : pod_ok pod → accounted q → accounted (quotaV_add pod q).
Proof. exact (weighed_add fixed pod q). Qed.

Lemma accounted_del pod q : pod_ok pod → accounted q → accounted (quotaV_del pod q).
Proof. intros Hok. by apply weighed_del, pod_ok_del. Qed.

Lemma accounted_alter V n f :
  accountedV V → (∀ q, accounted q → accounted (f q)) → accountedV (alter (on_quota f) n V).
Proof. intros HV Hf. apply weighed_alter; [done|]. intros v _. apply Hf. Qed.

Lemma call_ok_fits V c : call_ok c → call_fits fixed V c.
Proof. destruct c; simpl; [done..|]. intros Hok n v _ _. by apply pod_ok_del. Qed.

(** *** The heaps that such calls reach *)
Definition reachable : heap → Prop := reachable_by (λ _ _ c, call_ok c).

Definition heap_ok h : Prop := heap_holds accountedV h.

Lemma reachable_ok h : reachable h → heap_ok h.
Proof. apply reachable_holds. intros h' m V c _. apply call_ok_fits. Qed.
End accounting.

(** ** Adding twice, adding and deleting *)
Section once_and_back.
Context {T : ApiTypes} {Q : QuantityOps} {P : PodOps} {QL : QuantityLaws}.

Lemma quotaV_add_twice pod q : quotaV_add pod (quotaV_add pod q) = quotaV_add pod q.
Proof.
  unfold quotaV_add. destruct pod as [p|]; [|done].
  destruct (qv_pods q !! pod_UID p) eqn:E; [by rewrite E|]. cbn [qv_pods]. by rewrite lookup_insert_eq.
Qed.

(** The same recorded pods and maximum, and equal amounts. *)
Definition quotaV_equiv (q1 q2 : QuotaV) : Prop :=
  qv_max q1 = qv_max q2 ∧ qv_pods q1 = qv_pods q2 ∧ res_equiv (qv_used q1) (qv_used q2).

Lemma quotaV_del_add p q mu :
  qv_used q = Some mu → qv_pods q !! pod_UID p = None →
  quotaV_equiv (quotaV_del (Some p) (quotaV_add (Some p) q)) q.
Proof.
  intros Hu Hnew. unfold quotaV_add. rewrite Hnew, Hu. unfold quotaV_del. cbn [qv_pods qv_max qv_used].
  rewrite lookup_insert_eq. split_and!; cbn [qv_pods qv_max qv_used]; [done|by rewrite delete_insert_id|].
  rewrite Hu, res_add_Some, res_sub_Some. intros k. rewrite qty_sub_map_exact, qty_add_map; [lia|].
  rewrite dom_add_map. intros Hd. apply qty_not_in_dom. simpl. set_solver.
Qed.

(** The deletion of another version of the pod that was added. *)
Lemma quotaV_del_resized p resized q mu :
  qv_used q = Some mu → qv_pods q !! pod_UID p = None → pod_UID resized = pod_UID p →
  let q' := quotaV_del (Some resized) (quotaV_add (Some p) q) in
  qv_pods q' = qv_pods q ∧ qv_max q' = qv_max q
  ∧ ∀ r, qty (qv_used q') r =
      (if bool_decide (r ∈ gomap_dom (qv_used q) ∪ gomap_dom (FromPodReq (Some p)))
       then qty (qv_used q) r + qty (FromPodReq (Some p)) r - qty (FromPodReq (Some resized)) r
       else qty (FromPodReq (Some resized)) r)%Z.
Proof.
  intros Hu Hnew Huid. cbv zeta. unfold quotaV_add. rewrite Hnew, Hu. unfold quotaV_del. rewrite Huid.
  cbn [qv_pods qv_max qv_used]. rewrite lookup_insert_eq. cbn [qv_pods qv_max qv_used].
  split_and!; [by rewrite delete_insert_id|done|]. intros r.
  rewrite res_add_Some, res_sub_Some, qty_sub_map, qty_add_map, !qty_default, dom_add_map. cbn [gomap_dom].
  assert (dom (default ∅ (FromPodReq (Some p))) = gomap_dom (FromPodReq (Some p))) as ->; [|done].
  destruct (FromPodReq (Some p)); simpl; [done|]. by rewrite dom_empty_L.
Qed.
End once_and_back.

(** ** Properties *)
Section properties.
Context {T : ApiTypes} {Q : QuantityOps} {P : PodOps} {L : SelectorOps} {QL : QuantityLaws}.
Implicit Types (h : heap) (m : loc) (V : ManagerV) (v : QueueV).

(** C20: a manager refines a map from names to queue values: on a well-formed
    heap no call panics, the error returned and the manager's new value are the
    abstract operation's, and every other manager keeps its value. *)
Theorem Manager_call_refines h m V c E :
  wf h → view_mgr h m = Some V → call_denotes h c E →
  wp (run_call m c) (λ e h', e = (E V).1 ∧ wf h' ∧ view_mgr h' m = Some (E V).2
    ∧ ∀ m', m' ≠ m → view_mgr h' m' = view_mgr h m') h.
Proof.
  intros Hwf HV Hc. eapply wp_mono; [by apply run_call_spec|].
  intros e h' [-> [Hwf' Hv Hf _]]. done.
Qed.

(** C5: snapshot isolation: after [Clone], any interleaving of calls on the
    manager and on its clone has on each exactly the effect of its own calls on
    the common starting value, errors included. *)
Theorem Manager_Clone_isolated h m V cs Es :
  wf h → view_mgr h m = Some V →
  Forall2 (λ c E, c.1 = E.1 ∧ call_denotes h c.2 E.2) cs Es →
  wp (c ← Manager_Clone m; es ← run_script m c cs; mret (c, es))
    (λ '(c, es) h', c ≠ m ∧
       let '(es', W1, W2) := run_values Es V V in
       es = es' ∧ view_mgr h' m = Some W1 ∧ view_mgr h' c = Some W2) h.
Proof.
  intros Hwf HV Hcs. apply wp_bind. eapply wp_mono; [by apply Manager_Clone_spec|].
  intros c h1 [Hc [Hwf1 Hv1 Hf1 Hm1]].
  assert (m ≠ c) as Hne.
  { intros ->. destruct (view_mgr_mgr h c V HV). congruence. }
  apply wp_bind. eapply wp_mono; [apply (run_script_spec m c cs Es h1 V V Hne Hwf1)|].
  - by rewrite Hf1.
  - done.
  - eapply Forall2_impl; [exact Hcs|]. intros c1 E1 [? ?]. split; [done|by eapply call_denotes_max].
  - intros es h2 [_ Hr]. apply wp_ret. split; [done|exact Hr].
Qed.

(** C21: in every heap that calls of the package can produce in which no
    deletion passes a resized pod (one whose requests are not those recorded
    when it was added), every queue of every manager is registered under its
    own name, and its used amounts are the sum of the requests of exactly the
    pods recorded in it.  Additions are free: of a pod already recorded, of a
    resized one too, of a pod that was deleted before. *)
Theorem Manager_accounting h m V n v :
  reachable_by unresized_release h → view_mgr h m = Some V → V !! n = Some v →
  v_name v = n
  ∧ (∀ r, qty (qv_used (v_quota v)) r = recorded_total (qv_pods (v_quota v)) r)
  ∧ ∀ u p, qv_pods (v_quota v) !! u = Some p → pod_UID p = u.
Proof.
  intros Hr HV Hn. destruct (reachable_holds _ own_request h (λ h m V c, unresized_fits h m V c) Hr) as [_ Hall].
  destruct (Hall m V HV n v Hn) as [Hname [Hu _ _ Hid]]. done.
Qed.

(** C15: a pod that is resized between its addition and its deletion leaves its
    queue's used amounts wrong for good: the recorded pods are as before, but
    each used amount is off by what the requests have changed, and a resource
    that was neither used nor requested at the addition is charged with the new
    request.  No call fails. *)
Theorem resize_drift h m V n v p resized :
  wf h → view_mgr h m = Some V → pod_queue (Some p) = Some n → V !! n = Some v →
  qv_pods (v_quota v) !! pod_UID p = None →
  pod_UID resized = pod_UID p → pod_queue (Some resized) = Some n →
  wp (e1 ← Manager_AddPodIfNotPresent m (Some p); e2 ← Manager_DeletePodIfPresent m (Some resized); mret (e1, e2))
    (λ es h', es = (None, None) ∧ ∃ v', view_mgr h' m = Some (<[n := v']> V)
       ∧ qv_pods (v_quota v') = qv_pods (v_quota v) ∧ qv_max (v_quota v') = qv_max (v_quota v)
       ∧ ∀ r, qty (qv_used (v_quota v')) r =
           (if bool_decide (r ∈ gomap_dom (qv_used (v_quota v)) ∪ gomap_dom (FromPodReq (Some p)))
            then qty (qv_used (v_quota v)) r + qty (FromPodReq (Some p)) r - qty (FromPodReq (Some resized)) r
            else qty (FromPodReq (Some resized)) r)%Z) h.
Proof.
  intros Hwf HV Hn Hv Hnew Hu Hn'. destruct (wf_view_used h m V n v Hwf HV Hv) as [mu Hmu].
  pose proof (quotaV_del_resized p resized (v_quota v) mu Hmu Hnew Hu) as (Hp & Hm & Hq).
  apply wp_bind. eapply wp_mono; [by apply Manager_AddPodIfNotPresent_spec|]. intros e1 h1 [-> [Hwf1 Hv1 _ _]].
  apply wp_bind. eapply wp_mono; [by apply Manager_DeletePodIfPresent_spec|].
  intros e2 h2 [-> [_ Hv2 _ _]]. apply wp_ret.
  revert Hv2. unfold mgrV_err, mgrV_del, mgrV_add. rewrite Hn, Hn'. simpl. rewrite (alter_present _ V n v Hv), Hv.
  rewrite (alter_present _ _ _ _ (lookup_insert_eq _ _ _)), lookup_insert_eq, insert_insert_eq. simpl.
  intros Hv2. split; [done|]. eexists. split; [exact Hv2|]. by split_and!.
Qed.

(** Adding a pod twice is adding it once, and adding a pod that is not
    recorded and then deleting it restores the recorded pods and every amount. *)
Theorem Manager_AddPod_once_and_back h m V pod n v :
  wf h → view_mgr h m = Some V → pod_queue pod = Some n → V !! n = Some v →
  wp (e1 ← Manager_AddPodIfNotPresent m pod; e2 ← Manager_AddPodIfNotPresent m pod; mret (e1, e2))
    (λ es h', es = (None, None) ∧ view_mgr h' m = Some (mgrV_add pod V)) h
  ∧ ((∀ p, pod = Some p → qv_pods (v_quota v) !! pod_UID p = None) →
     wp (e1 ← Manager_AddPodIfNotPresent m pod; e2 ← Manager_DeletePodIfPresent m pod; mret (e1, e2))
       (λ es h', es = (None, None) ∧ ∃ v', view_mgr h' m = Some (<[n := v']> V)
          ∧ v_name v' = v_name v ∧ v_labels v' = v_labels v ∧ v_cfg v' = v_cfg v
          ∧ quotaV_equiv (v_quota v') (v_quota v)) h).
Proof.
  intros Hwf HV Hn Hv. destruct pod as [p|]; [|done].
  assert (∀ err, mgrV_err err (Some p) V = None) as Herr.
  { intros err. unfold mgrV_err. rewrite Hn. simpl. by rewrite Hv. }
  assert (mgrV_add (Some p) V = <[n := on_quota (quotaV_add (Some p)) v]> V) as Hadd.
  { unfold mgrV_add. rewrite Hn. by apply alter_present. }
  assert (∀ err, mgrV_err err (Some p) (mgrV_add (Some p) V) = None) as Herr'.
  { intros err. unfold mgrV_err. rewrite Hn, Hadd. simpl. by rewrite lookup_insert_eq. }
  split; [|intros Hnew]; apply wp_bind;
    (eapply wp_mono; [by apply Manager_AddPodIfNotPresent_spec|]);
    intros e1 h1 [-> [Hwf1 Hv1 _ _]]; apply wp_bind.
  - eapply wp_mono; [by apply Manager_AddPodIfNotPresent_spec|].
    intros e2 h2 [-> [_ Hv2 _ _]]. apply wp_ret. rewrite Herr, Herr'. split; [done|].
    rewrite Hv2, Hadd. unfold mgrV_add. rewrite Hn.
    rewrite (alter_present _ _ _ (on_quota (quotaV_add (Some p)) v)) by apply lookup_insert_eq.
    rewrite insert_insert_eq. unfold on_quota. cbn [v_name v_quota v_labels v_cfg].
    by rewrite quotaV_add_twice.
  - eapply wp_mono; [by apply Manager_DeletePodIfPresent_spec|].
    intros e2 h2 [-> [_ Hv2 _ _]]. apply wp_ret. rewrite Herr, Herr'. split; [done|].
    destruct (wf_view_used h m V n v Hwf HV Hv) as [mu Hmu]. eexists. split.
    { rewrite Hv2, Hadd. unfold mgrV_del. rewrite Hn.
      rewrite (alter_present _ _ _ (on_quota (quotaV_add (Some p)) v)) by apply lookup_insert_eq.
      by rewrite insert_insert_eq. }
    split_and!; [done..|]. apply (quotaV_del_add p _ mu); [done|by apply Hnew].
Qed.

(** [WouldPutOverMax] leaves the heap alone and answers whether some
    resource that the maximum names, and that is used or requested, would
    exceed its maximum if the request were added; a quota without a maximum is
    never exceeded. *)
Theorem Quota_WouldPutOverMax_correct h ql qu tl v request :
  wf h → h_queue h !! ql = Some qu → queue_quota qu = Some tl → view_queue h ql = Some v →
  ∃ b, Quota_WouldPutOverMax (Some tl) request h = Ret (b, h)
    ∧ (b = true ↔ ∃ n, n ∈ gomap_dom (qv_max (v_quota v))
        ∧ n ∈ gomap_dom (qv_used (v_quota v)) ∪ gomap_dom request
        ∧ qty (qv_used (v_quota v)) n + qty request n > qty (qv_max (v_quota v)) n)%Z.
Proof.
  intros Hwf Hq Ht Hv. exists (quotaV_over (v_quota v) request).
  split; [by eapply Quota_WouldPutOverMax_spec|].
  unfold quotaV_over. rewrite AnyGreaterIntersecting_spec.
  destruct (wf_queue_used h ql v Hwf Hv) as [mu ->]. rewrite res_add_Some. cbn [gomap_dom].
  rewrite dom_add_map. split; intros (n & H1 & H2 & H3); exists n.
  - rewrite qty_add_map, qty_default in H3. split_and!; [done| |done]. destruct request; simpl in *; set_solver.
  - rewrite qty_add_map, qty_default. split_and!; [|done|done]. destruct request; simpl in *; set_solver.
Qed.
End properties.

(** ** The properties at a concrete heap *)
Section witnesses.
#[local] Existing Instances c_api c_quantity c_quantity_laws c_pods c_selector.

(** The heap after a step. *)
Definition run {A} (m : st heap A) (h : heap) : heap :=
  match m h with Ret (_, h') => h' | Panic => h end.

(** A manager with two queues: "q" with a maximum of 10 cpu, and "r". *)
Definition ex_h1 : heap := run NewManager empty_heap.
Definition ex_max : Resources := Some {[ "cpu" := (10%Z : Quantity) ]}.
Definition ex_h2 : heap := run (alloc_res ex_max) ex_h1.
Definition ex_h3 : heap := run (run_call 1 (CallPut "q" [WithQuotaMax (Some 1%positive)])) ex_h2.
Definition ex_heap : heap := run (run_call 1 (CallPut "r" [])) ex_h3.
Definition ex_pod : @Pod c_api := c_pod "p1" "q" 5 [("cpu", 3%Z)].
Definition ex_V : ManagerV := default ∅ (view_mgr ex_heap 1).

(** The pod "p1" asks for 3 cpu and one pod. *)
Definition ex_req (u : UID) (n : ResourceName) : Z :=
  if bool_decide (u = "p1") then qty (FromPodReq (Some ex_pod)) n else 0%Z.

Lemma ex_max_ref : max_ref ex_h2 (Some 1%positive) ex_max.
Proof.
  split; [vm_compute; reflexivity|]. intros l [= <-]. split; [vm_compute; by eexists|].
  intros tl qo Hq. by vm_compute in Hq; destruct tl.
Qed.

Lemma ex_reachable req : reachable req ex_heap.
Proof.
  eapply (reach_call _ ex_h3 1 (CallPut "r" []) _ None); [|vm_compute; by eexists|
    constructor; constructor|exact I|vm_compute; reflexivity].
  eapply (reach_call _ ex_h2 1 (CallPut "q" [WithQuotaMax (Some 1%positive)]) _ None);
    [|vm_compute; by eexists| |exact I|vm_compute; reflexivity].
  2:{ constructor. constructor; [|constructor]. constructor. apply ex_max_ref. }
  eapply (reach_res _ ex_h1 ex_max (Some 1%positive)); [|vm_compute; reflexivity].
  eapply (reach_new _ empty_heap 1%positive); [constructor|vm_compute; reflexivity].
Qed.

Lemma ex_wf : wf ex_heap.
Proof. apply (reachable_ok ex_req ex_heap (ex_reachable ex_req)). Qed.

Lemma ex_view : view_mgr ex_heap 1 = Some ex_V.
Proof. vm_compute. reflexivity. Qed.

Lemma Manager_call_refines_witness :
  wp (run_call 1 (CallAddPod (Some ex_pod)))
    (λ e h', e = None ∧ wf h' ∧ view_mgr h' 1 = Some (mgrV_add (Some ex_pod) ex_V)
      ∧ ∀ m', m' ≠ 1%positive → view_mgr h' m' = view_mgr ex_heap m') ex_heap.
Proof.
  pose proof (Manager_call_refines ex_heap 1 ex_V (CallAddPod (Some ex_pod)) _
    ex_wf ex_view (cd_add _ (Some ex_pod))) as H.
  eapply wp_mono; [exact H|]. intros e h' (-> & H1 & H2 & H3).
  split; [vm_compute; reflexivity|]. exact (conj H1 (conj H2 H3)).
Defined.

(** The pod is added to the clone only, and deleted from the manager only. *)
Lemma Manager_Clone_isolated_witness :
  wp (c ← Manager_Clone 1;
      es ← run_script 1 c [(false, CallAddPod (Some ex_pod)); (true, CallDelete "r")]; mret (c, es))
    (λ '(c, es) h', c ≠ 1%positive ∧ es = [None; None]
      ∧ view_mgr h' 1 = Some (delete "r" ex_V) ∧ view_mgr h' c = Some (mgrV_add (Some ex_pod) ex_V))
    ex_heap.
Proof.
  eapply wp_mono.
  - apply (Manager_Clone_isolated ex_heap 1 ex_V _
      [(false, λ V, (mgrV_err ErrAddPodToQuota (Some ex_pod) V, mgrV_add (Some ex_pod) V));
       (true, λ V, (None, delete "r" V))] ex_wf ex_view).
    repeat constructor.
  - intros [c es] h' [Hne H]. split; [exact Hne|]. destruct H as (-> & H1 & H2).
    split; [vm_compute; reflexivity|]. exact (conj H1 H2).
Defined.

(** The pod "p1" after a resize, and a second pod of the queue. *)
Definition ex_resized : @Pod c_api := c_pod "p1" "q" 5 [("cpu", 5%Z)].
Definition ex_pod2 : @Pod c_api := c_pod "p2" "q" 5 [("cpu", 4%Z); ("gpu", 1%Z)].

(** Two pods are added, a resized version of the first is added again, the
    manager is cloned (to 2), and the second pod is deleted from the original. *)
Definition ex_h5 : heap := run (run_call 1 (CallAddPod (Some ex_pod))) ex_heap.
Definition ex_h6 : heap := run (run_call 1 (CallAddPod (Some ex_pod2))) ex_h5.
Definition ex_h7 : heap := run (run_call 1 (CallAddPod (Some ex_resized))) ex_h6.
Definition ex_h8 : heap := run (Manager_Clone 1) ex_h7.
Definition ex_h9 : heap := run (run_call 1 (CallDeletePod (Some ex_pod2))) ex_h8.

Lemma ex_add_reachable pod h h' :
  reachable_by unresized_release h → is_Some (h_mgr h !! 1%positive) →
  run_call 1 (CallAddPod (Some pod)) h = Ret (None, h') → reachable_by unresized_release h'.
Proof. intros Hh Hm Hr. eapply reach_call; [exact Hh|exact Hm|constructor| |exact Hr]. by intros ? ? ? ? ? ?. Qed.

Lemma ex_unresized : reachable_by unresized_release ex_h9.
Proof.
  assert (reachable_by unresized_release ex_heap) as H4.
  { assert (∀ h m name opts, unresized_release h m (CallPut name opts)) as Hput by (by intros ? ? ? ? ? ? ? ? ? ?).
    eapply (reach_call _ ex_h3 1 (CallPut "r" []) _ None); [|vm_compute; by eexists|
      constructor; constructor|apply Hput|vm_compute; reflexivity].
    eapply (reach_call _ ex_h2 1 (CallPut "q" [WithQuotaMax (Some 1%positive)]) _ None);
      [|vm_compute; by eexists| |apply Hput|vm_compute; reflexivity].
    2:{ constructor. constructor; [|constructor]. constructor. apply ex_max_ref. }
    eapply (reach_res _ ex_h1 ex_max (Some 1%positive)); [|vm_compute; reflexivity].
    eapply (reach_new _ empty_heap 1%positive); [constructor|vm_compute; reflexivity]. }
  eapply (reach_call _ ex_h8 1 (CallDeletePod (Some ex_pod2)) _ None);
    [|vm_compute; by eexists|constructor| |vm_compute; reflexivity].
  { eapply (reach_clone _ ex_h7 1 2%positive); [|vm_compute; by eexists|vm_compute; reflexivity].
    apply (ex_add_reachable ex_resized ex_h6); [|vm_compute; by eexists|vm_compute; reflexivity].
    apply (ex_add_reachable ex_pod2 ex_h5); [|vm_compute; by eexists|vm_compute; reflexivity].
    apply (ex_add_reachable ex_pod ex_heap); [exact H4|vm_compute; by eexists|vm_compute; reflexivity]. }
  intros p V n v p' r [= <-] HV Hn Hv Hp. assert (p' = ex_pod2) as ->; [|done].
  assert (n = "q") as -> by (vm_compute in Hn; by injection Hn).
  assert ((W ← view_mgr ex_h8 1; w ← W !! "q"; qv_pods (v_quota w) !! "p2") = Some ex_pod2) as Hq
    by (vm_compute; reflexivity).
  rewrite HV in Hq. cbn in Hq. rewrite Hv in Hq. cbn in Hq. change (pod_UID ex_pod2) with "p2" in Hp. congruence.
Qed.

(** A queue's used and recorded cpu. *)
Definition ex_cpu h m : option (Z * Z) :=
  V ← view_mgr h m; v ← V !! "q"; Some (qty (qv_used (v_quota v)) "cpu", recorded_total (qv_pods (v_quota v)) "cpu").

(** Three cpu are left in the original, seven in its clone. *)
Lemma Manager_accounting_witness :
  ex_cpu ex_h9 1 = Some (3, 3)%Z ∧ ex_cpu ex_h9 2 = Some (7, 7)%Z
  ∧ ∀ m V v, view_mgr ex_h9 m = Some V → V !! "q" = Some v → v_name v = "q"
    ∧ ∀ r, qty (qv_used (v_quota v)) r = recorded_total (qv_pods (v_quota v)) r.
Proof.
  split; [vm_compute; reflexivity|]. split; [vm_compute; reflexivity|]. intros m V v HV Hv.
  destruct (Manager_accounting ex_h9 m V "q" v ex_unresized HV Hv) as (H1 & H2 & _). exact (conj H1 H2).
Defined.

(** Three cpu are charged, five released: the empty queue uses minus two. *)
Lemma resize_drift_witness :
  wp (e1 ← Manager_AddPodIfNotPresent 1 (Some ex_pod); e2 ← Manager_DeletePodIfPresent 1 (Some ex_resized); mret (e1, e2))
    (λ es h', es = (None, None) ∧ ∃ v', view_mgr h' 1 = Some (<["q" := v']> ex_V)
       ∧ qv_pods (v_quota v') = ∅ ∧ qty (qv_used (v_quota v')) "cpu" = (-2)%Z) ex_heap.
Proof.
  destruct (ex_V !! "q") as [v|] eqn:E; [|vm_compute in E; discriminate E].
  assert (qv_pods (v_quota v) = ∅ ∧ qv_used (v_quota v) = Some ∅) as [Hp Hu].
  { vm_compute in E. injection E as <-. split; reflexivity. }
  eapply wp_mono; [apply (resize_drift ex_heap 1 ex_V "q" v ex_pod ex_resized ex_wf ex_view eq_refl E);
    [rewrite Hp; apply lookup_empty|reflexivity|reflexivity]|].
  intros es h' (H1 & v' & H2 & H3 & _ & H4). split; [exact H1|]. exists v'. rewrite <- Hp.
  split; [exact H2|]. split; [exact H3|]. rewrite (H4 "cpu"), Hu. vm_compute. reflexivity.
Defined.

Lemma Manager_AddPod_once_and_back_witness :
  wp (e1 ← Manager_AddPodIfNotPresent 1 (Some ex_pod); e2 ← Manager_AddPodIfNotPresent 1 (Some ex_pod);
      mret (e1, e2))
    (λ es h', es = (None, None) ∧ view_mgr h' 1 = Some (mgrV_add (Some ex_pod) ex_V)) ex_heap.
Proof.
  destruct (ex_V !! "q") as [v|] eqn:E; [|vm_compute in E; discriminate E].
  exact (proj1 (Manager_AddPod_once_and_back ex_heap 1 ex_V (Some ex_pod) "q" v ex_wf ex_view eq_refl E)).
Defined.

(** A request of 11 cpu. *)
Definition ex_over : Resources := Some {[ "cpu" := (11%Z : Quantity) ]}.

(** It exceeds the maximum of 10. *)
Lemma Quota_WouldPutOverMax_witness :
  ∃ b, Quota_WouldPutOverMax (Some 1%positive) ex_over ex_heap = Ret (b, ex_heap)
    ∧ b = true.
Proof.
  destruct (view_queue ex_heap 1) as [v|] eqn:E; [|vm_compute in E; discriminate E].
  destruct (h_queue ex_heap !! 1%positive) as [qu|] eqn:Eq; [|vm_compute in Eq; discriminate Eq].
  assert (queue_quota qu = Some 1%positive) as Ht.
  { vm_compute in Eq. injection Eq as <-. reflexivity. }
  destruct (Quota_WouldPutOverMax_correct ex_heap 1 qu 1 v ex_over
    ex_wf Eq Ht E) as (b & Hb & _).
  exists b. split; [exact Hb|]. vm_compute in Hb. injection Hb as <-. reflexivity.
Defined.
End witnesses.
