(* ===== verification/Aggregator.v ===== *)
(** * Aggregator: [internal/alloc/node_aggregator.go] and [cluster_tracker.go]

    The running total of the nodes' allocatable resources, and the informer
    handlers that feed it.  The aggregator owns its map of totals ([GetTotal]
    hands out a clone), so it is kept by value. *)

From stdpp Require Import base tactics option list gmap strings sorting.
From Stdlib Require Import ZArith Lia.
From S2P Require Import Prelude.
From S2P Require Import External.
From S2P Require Import Concrete.
From S2P Require Import Resources.
From S2P Require Import Api.

Section aggregator.
Context {T : ApiTypes} {Q : QuantityOps}.

(** *** node_aggregator.go *)
Record NodeAggregator := mkAggregator {
  nodeIDs : gset UID;
  total : Resources;
  getNodeRes : Node → gomap Quantity;
}.

Definition addNoLock (node : option Node) : st NodeAggregator unit :=
  counter ← st_get;
  match node with
  | None => mret tt
  | Some node =>
      if bool_decide (node_UID node ∈ nodeIDs counter) then mret tt
      else
        total' ← st_lift (Resources_Add (total counter) (FromResourceList (getNodeRes counter node)));
        st_put (mkAggregator ({[node_UID node]} ∪ nodeIDs counter) total' (getNodeRes counter))
  end.

Definition deleteNoLock (node : option Node) : st NodeAggregator unit :=
  counter ← st_get;
  match node with
  | None => mret tt
  | Some node =>
      if negb (bool_decide (node_UID node ∈ nodeIDs counter)) then mret tt
      else
        total' ← st_lift (Resources_Sub (total counter) (FromResourceList (getNodeRes counter node)));
        st_put (mkAggregator (nodeIDs counter ∖ {[node_UID node]}) total' (getNodeRes counter))
  end.

Definition NodeAggregator_Put (node : option Node) : st NodeAggregator unit :=
  deleteNoLock node ;; addNoLock node.

Definition NodeAggregator_PutAll (nodes : list (option Node)) : st NodeAggregator unit :=
  st_for nodes (λ node, deleteNoLock node ;; addNoLock node).

Definition NodeAggregator_Delete (node : option Node) : st NodeAggregator unit := deleteNoLock node.

Definition NodeAggregator_GetTotal : st NodeAggregator Resources :=
  counter ← st_get; mret (Resources_Clone (total counter)).

Definition NewNodeAllocatableAggregator (nodes : list (option Node)) : outcome NodeAggregator :=
  let counter := mkAggregator ∅ gomap_make node_Allocatable in
  '(_, counter) ← NodeAggregator_PutAll nodes counter;
  mret counter.

(** *** cluster_tracker.go

    The objects informers deliver: API objects, or the last known state of an
    object whose deletion was missed. *)
Inductive any :=
| AnyNode (node : Node)
| AnyPod (pod : Pod)
| AnyQueue (queue : QueueObj)
| AnyDeletedFinalStateUnknown (key : string) (obj : any)
| AnyOther.

(** Type assertions to a pointer to one of the API types; nil when they fail. *)
Definition as_Node (obj : any) : option Node := match obj with AnyNode n => Some n | _ => None end.
Definition as_Pod (obj : any) : option Pod := match obj with AnyPod p => Some p | _ => None end.
Definition as_Queue (obj : any) : option QueueObj := match obj with AnyQueue q => Some q | _ => None end.

Definition addNode (obj : any) : st NodeAggregator unit := NodeAggregator_Put (as_Node obj).

(** The loop over the resource names, with its early exits; both quantities
    are read from the old node. *)
Fixpoint updateNode_loop (oldNode newNode : Node) (allResNames : list ResourceName) : bool :=
  match allResNames with
  | [] => false
  | resName :: allResNames =>
      match gomap_lookup (node_Allocatable oldNode) resName with
      | None => true
      | Some oldQuant =>
          match gomap_lookup (node_Allocatable oldNode) resName with
          | None => true
          | Some newQuant =>
              if negb (Quantity_Equal newQuant oldQuant) then true
              else updateNode_loop oldNode newNode allResNames
          end
      end
  end.

Definition updateNode (oldObj newObj : any) : st NodeAggregator unit :=
  oldNode ← st_some (as_Node oldObj);
  newNode ← st_some (as_Node newObj);
  let needsUpdate :=
    if (gomap_len (node_Allocatable oldNode) =? gomap_len (node_Allocatable newNode))%nat then
      updateNode_loop oldNode newNode
        ((gomap_items (node_Allocatable oldNode)).*1 ++ (gomap_items (node_Allocatable newNode)).*1)
    else true in
  if needsUpdate : bool then NodeAggregator_Put (Some newNode) else mret tt.

Definition deleteNode (obj : any) : st NodeAggregator unit := NodeAggregator_Delete (as_Node obj).

Definition ClusterResourceTracker_GetTotal : st NodeAggregator Resources := NodeAggregator_GetTotal.
End aggregator.

(** ** Accounting *)
Section facts.
Context {T : ApiTypes} {Q : QuantityOps} {QL : QuantityLaws}.
(** [cap u r] is the allocatable amount of [r] on the node with UID [u]. *)
Variable cap : UID → ResourceName → Z.
Implicit Types (c : NodeAggregator).

Definition node_ok c (node : option Node) : Prop :=
  ∀ n r, node = Some n → qty (FromResourceList (getNodeRes c n)) r = cap (node_UID n) r.

Definition nodes_total (ids : gset UID) (r : ResourceName) : Z := set_fold (λ u acc, cap u r + acc)%Z 0%Z ids.

(** The total is the sum over the counted nodes, and has an entry for every
    resource that one of them offers. *)
Record counted_ok c : Prop := mkCountedOk {
  co_total r : qty (total c) r = nodes_total (nodeIDs c) r;
  co_some : is_Some (total c);
  co_names u r : u ∈ nodeIDs c → r ∉ gomap_dom (total c) → cap u r = 0%Z;
}.

Lemma nodes_total_insert ids u r :
  u ∉ ids → nodes_total ({[u]} ∪ ids) r = (cap u r + nodes_total ids r)%Z.
Proof.
  intros Hu. unfold nodes_total.
  rewrite set_fold_disj_union_strong; [|apply _|apply _|intros; lia|set_solver].
  rewrite set_fold_singleton.
  by rewrite <- (set_fold_comm_acc (λ u' acc, cap u' r + acc)%Z (λ z, cap u r + z)%Z) by (intros; lia).
Qed.

Lemma addNoLock_spec c node :
  counted_ok c → node_ok c node →
  wp (addNoLock node) (λ _ c', counted_ok c' ∧ getNodeRes c' = getNodeRes c
    ∧ nodeIDs c' = match node with Some n => {[node_UID n]} ∪ nodeIDs c | None => nodeIDs c end) c.
Proof.
  intros Hc Hn. pose proof Hc as [Ht [m Hm] Hnm]. unfold addNoLock. rewrite wp_bind, wp_get.
  destruct node as [n|]; [|by apply wp_ret]. case_bool_decide as Hin.
  { apply wp_ret. split_and!; [done|done|set_solver]. }
  rewrite wp_bind, wp_lift, Hm, Resources_Add_eq. eexists. split; [done|]. apply wp_put.
  split_and!; [|done|done]. rewrite Hm in Ht, Hnm. split; cbn [nodeIDs total].
  - intros r. rewrite qty_add_map, qty_default, Ht, nodes_total_insert, (Hn n r) by done. lia.
  - by eexists.
  - intros u r. cbn [gomap_dom]. rewrite dom_add_map, elem_of_union, elem_of_singleton.
    intros [->|Hu] Hd; [|eapply Hnm; [done|simpl; set_solver]].
    rewrite <- (Hn n r eq_refl). apply qty_not_in_dom.
    destruct (FromResourceList (getNodeRes c n)); simpl in *; set_solver.
Qed.

Lemma nodes_total_delete ids u r :
  u ∈ ids → nodes_total ids r = (cap u r + nodes_total (ids ∖ {[u]}) r)%Z.
Proof.
  intros Hu. rewrite <- nodes_total_insert by set_solver.
  f_equal. apply set_eq. intros x. destruct (decide (x = u)); set_solver.
Qed.

Lemma deleteNoLock_spec c node :
  counted_ok c → node_ok c node →
  wp (deleteNoLock node) (λ _ c', counted_ok c' ∧ getNodeRes c' = getNodeRes c
    ∧ nodeIDs c' = match node with Some n => nodeIDs c ∖ {[node_UID n]} | None => nodeIDs c end) c.
Proof.
  intros Hc Hn. pose proof Hc as [Ht [m Hm] Hnm]. unfold deleteNoLock. rewrite wp_bind, wp_get.
  destruct node as [n|]; [|by apply wp_ret].
  destruct (decide (node_UID n ∈ nodeIDs c)) as [Hin|Hin];
    [rewrite bool_decide_true by done|rewrite bool_decide_false by done]; cbn [negb].
  2: { apply wp_ret. split_and!; [done|done|set_solver]. }
  rewrite wp_bind, wp_lift, Hm, Resources_Sub_eq. eexists. split; [done|]. apply wp_put.
  split_and!; [|done|done]. rewrite Hm in Ht, Hnm. split; cbn [nodeIDs total].
  - intros r. rewrite qty_sub_map_exact, qty_default, Ht, (nodes_total_delete _ _ r Hin), (Hn n r) by
      (try done; intros Hd; rewrite qty_default, (Hn n r eq_refl); by apply Hnm). lia.
  - by eexists.
  - intros u r Hu Hd. cbn [gomap_dom] in *. rewrite dom_sub_map in Hd.
    eapply Hnm; simpl; set_solver.
Qed.

Lemma Put_spec c node :
  counted_ok c → node_ok c node →
  wp (NodeAggregator_Put node) (λ _ c', counted_ok c' ∧ getNodeRes c' = getNodeRes c
    ∧ nodeIDs c' = match node with Some n => {[node_UID n]} ∪ nodeIDs c | None => nodeIDs c end) c.
Proof.
  intros Hc Hn. unfold NodeAggregator_Put. rewrite wp_bind.
  eapply wp_mono; [by apply deleteNoLock_spec|]. intros _ c1 (Hc1 & Hg1 & Hi1). cbn beta.
  eapply wp_mono; [apply addNoLock_spec; [done|]|].
  { intros n r Hnode. rewrite Hg1. by apply Hn. }
  intros _ c2 (Hc2 & Hg2 & ->). split_and!; [done|congruence|]. rewrite Hi1.
  destruct node as [n|]; [|done]. apply set_eq. intros x. destruct (decide (x = node_UID n)); set_solver.
Qed.

(** A history of calls, and the set of nodes it leaves behind. *)
Inductive agg_call :=
| CallPut (node : option Node)
| CallPutAll (nodes : list (option Node))
| CallDelete (node : option Node).

Definition run_agg (call : agg_call) : st NodeAggregator unit :=
  match call with
  | CallPut node => NodeAggregator_Put node
  | CallPutAll nodes => NodeAggregator_PutAll nodes
  | CallDelete node => NodeAggregator_Delete node
  end.

Definition put_id (node : option Node) (ids : gset UID) : gset UID :=
  match node with Some n => {[node_UID n]} ∪ ids | None => ids end.

Definition ids_after (call : agg_call) (ids : gset UID) : gset UID :=
  match call with
  | CallPut node => put_id node ids
  | CallPutAll nodes => foldl (λ ids node, put_id node ids) ids nodes
  | CallDelete (Some n) => ids ∖ {[node_UID n]}
  | CallDelete None => ids
  end.

Definition call_nodes (call : agg_call) : list (option Node) :=
  match call with CallPut node | CallDelete node => [node] | CallPutAll nodes => nodes end.

(** A node always offers what [cap] says. *)
Definition steady (node : option Node) : Prop :=
  ∀ n r, node = Some n → qty (FromResourceList (node_Allocatable n)) r = cap (node_UID n) r.

Definition agg_ok c : Prop := counted_ok c ∧ getNodeRes c = node_Allocatable.

Lemma steady_ok c node : agg_ok c → steady node → node_ok c node.
Proof. intros [_ Hg] Hs n r. rewrite Hg. apply Hs. Qed.

Lemma PutAll_spec nodes c :
  agg_ok c → Forall steady nodes →
  wp (NodeAggregator_PutAll nodes) (λ _ c', agg_ok c' ∧ nodeIDs c' = ids_after (CallPutAll nodes) (nodeIDs c)) c.
Proof.
  unfold NodeAggregator_PutAll. induction nodes as [|node nodes IH] in c |- *; intros Hc Hs; simpl.
  { by apply wp_ret. }
  apply Forall_cons in Hs as [Hn Hs]. apply wp_bind.
  eapply wp_mono; [apply (Put_spec c node); [apply Hc|by apply steady_ok]|].
  intros _ c1 (Hc1 & Hg1 & Hi1). cbn beta.
  eapply wp_mono; [apply IH; [|done]|].
  { split; [done|]. rewrite Hg1. apply Hc. }
  intros _ c2 (Hc2 & ->). split; [done|]. by rewrite Hi1.
Qed.

Lemma run_agg_spec call c :
  agg_ok c → Forall steady (call_nodes call) →
  wp (run_agg call) (λ _ c', agg_ok c' ∧ nodeIDs c' = ids_after call (nodeIDs c)) c.
Proof.
  intros Hc Hs. destruct call as [node|nodes|node]; simpl in *; [| by apply PutAll_spec |];
    apply Forall_cons in Hs as [Hs _].
  - eapply wp_mono; [apply Put_spec; [apply Hc|by apply steady_ok]|].
    intros _ c1 (? & Hg & Hi). split; [split; [done|rewrite Hg; apply Hc]|]. by destruct node.
  - eapply wp_mono; [apply deleteNoLock_spec; [apply Hc|by apply steady_ok]|].
    intros _ c1 (? & Hg & Hi). split; [split; [done|rewrite Hg; apply Hc]|]. by destruct node.
Qed.

Lemma run_aggs_spec calls c :
  agg_ok c → Forall (λ call, Forall steady (call_nodes call)) calls →
  wp (st_for calls run_agg) (λ _ c', agg_ok c'
    ∧ nodeIDs c' = foldl (λ ids call, ids_after call ids) (nodeIDs c) calls) c.
Proof.
  induction calls as [|call calls IH] in c |- *; intros Hc Hs; simpl.
  { by apply wp_ret. }
  apply Forall_cons in Hs as [Hn Hs]. apply wp_bind.
  eapply wp_mono; [by apply run_agg_spec|]. intros _ c1 (Hc1 & Hi1). cbn beta.
  eapply wp_mono; [by apply IH|]. intros _ c2 (Hc2 & ->). by rewrite Hi1.
Qed.

Lemma agg_ok_init : agg_ok (mkAggregator ∅ gomap_make node_Allocatable).
Proof.
  split; [|done]. split; cbn [nodeIDs total].
  - intros r. unfold nodes_total. rewrite set_fold_empty. apply qty_empty.
  - by eexists.
  - set_solver.
Qed.

(** C35: Whatever sequence of [Put], [PutAll] and [Delete] follows the creation
    of the aggregator, as long as each node keeps its allocatable resources:
    no call panics, the nodes counted are those put and not deleted since, and
    for every resource [GetTotal] is the sum of those nodes' amounts, nodes
    put twice counting once and deletions of unknown nodes having no effect. *)
Theorem NodeAggregator_accounting initial calls :
  Forall steady initial →
  Forall (λ call, Forall steady (call_nodes call)) calls →
  ∃ c0 c' res,
    NewNodeAllocatableAggregator initial = Ret c0
    ∧ st_for calls run_agg c0 = Ret (tt, c')
    ∧ nodeIDs c' = foldl (λ ids call, ids_after call ids) ∅ (CallPutAll initial :: calls)
    ∧ NodeAggregator_GetTotal c' = Ret (res, c')
    ∧ ∀ r, qty res r = nodes_total (nodeIDs c') r.
Proof.
  intros Hi Hc. unfold NewNodeAllocatableAggregator.
  pose proof (PutAll_spec initial _ agg_ok_init Hi) as H0. apply wp_exec in H0 as ([] & c0 & E0 & Hok0 & Hi0).
  pose proof (run_aggs_spec calls c0 Hok0 Hc) as H1. apply wp_exec in H1 as ([] & c1 & E1 & Hok1 & Hi1).
  exists c0, c1, (total c1). unfold mbind, outcome_bind. rewrite E0. split_and!; try done.
  - by rewrite Hi1, Hi0.
  - unfold NodeAggregator_GetTotal, mbind, st_bind. simpl. by rewrite Resources_Clone_eq.
  - intros r. by destruct Hok1 as [[? _ _] _].
Qed.
End facts.

(** ** Changes of a node *)
Section changes.
Context {T : ApiTypes} {Q : QuantityOps} {QL : QuantityLaws}.
Implicit Types (c : NodeAggregator).

Lemma updateNode_loop_spec oldNode newNode names :
  updateNode_loop oldNode newNode names =
  negb (bool_decide (Forall (λ r, r ∈ gomap_dom (node_Allocatable oldNode)) names)).
Proof.
  induction names as [|r names IH]; simpl; [done|].
  destruct (gomap_lookup (node_Allocatable oldNode) r) as [q|] eqn:Hr.
  - assert (Quantity_Equal q q = true) as -> by by apply qequal_true. cbn [negb].
    rewrite IH. f_equal. apply bool_decide_ext. rewrite Forall_cons, gomap_dom_elem, Hr. naive_solver.
  - rewrite bool_decide_false; [done|]. rewrite Forall_cons, gomap_dom_elem, Hr.
    intros [[? [=]] _].
Qed.

Lemma gomap_items_dom (m : gomap Quantity) r : r ∈ (gomap_items m).*1 ↔ r ∈ gomap_dom m.
Proof.
  rewrite list_elem_of_fmap, gomap_dom_elem. split.
  - intros ([k q] & -> & Hq%gomap_items_elem). by eexists.
  - intros [q Hq]. exists (r, q). split; [done|]. by apply gomap_items_elem.
Qed.

Lemma gomap_len_dom (m : gomap Quantity) : gomap_len m = size (gomap_dom m).
Proof. destruct m; simpl; [by rewrite size_dom|done]. Qed.

(** The code's test for a changed node. *)
Lemma needsUpdate_spec oldNode newNode :
  (if (gomap_len (node_Allocatable oldNode) =? gomap_len (node_Allocatable newNode))%nat then
     updateNode_loop oldNode newNode
       ((gomap_items (node_Allocatable oldNode)).*1 ++ (gomap_items (node_Allocatable newNode)).*1)
   else true) =
  negb (bool_decide (gomap_dom (node_Allocatable oldNode) = gomap_dom (node_Allocatable newNode))).
Proof.
  rewrite !gomap_len_dom, updateNode_loop_spec.
  match goal with |- context [(?a =? ?b)%nat] => destruct (Nat.eqb_spec a b) as [Hl|Hl] end.
  - f_equal. apply bool_decide_ext. rewrite Forall_app, !Forall_forall. split.
    + intros [_ Hn]. symmetry. apply set_subseteq_size_eq; [|lia].
      intros r Hr. by apply Hn, gomap_items_dom.
    + intros Heq. split; intros r Hr%gomap_items_dom; [done|by rewrite Heq].
  - rewrite bool_decide_false; [done|]. congruence.
Qed.

(** C36: The update handler panics when either object is not a node.  Otherwise
    it re-puts the new node exactly when the set of resource names changed;
    amounts play no role, since both quantities the loop compares are read from
    the old node, so an update that only changes amounts never reaches the
    aggregator. *)
Theorem updateNode_correct oldObj newObj c :
  updateNode oldObj newObj c =
  match as_Node oldObj, as_Node newObj with
  | Some oldNode, Some newNode =>
      if bool_decide (gomap_dom (node_Allocatable oldNode) = gomap_dom (node_Allocatable newNode))
      then Ret (tt, c)
      else NodeAggregator_Put (Some newNode) c
  | _, _ => Panic
  end.
Proof.
  unfold updateNode, mbind, st_bind, st_some, mret, st_ret.
  destruct (as_Node oldObj) as [o|]; [|done]. destruct (as_Node newObj) as [n|]; [|done].
  cbn beta iota zeta. rewrite needsUpdate_spec. by case_bool_decide.
Qed.

(** Putting a node that is already counted takes the amounts the node
    offers now off the total and adds them back: the total stays what it was for
    every resource it has an entry for, whatever the node's amounts were when
    it was first put, and a resource that is new to the total is counted
    twice. *)
Theorem Put_counted_node c n m :
  node_UID n ∈ nodeIDs c → total c = Some m →
  ∃ c', NodeAggregator_Put (Some n) c = Ret (tt, c')
    ∧ nodeIDs c' = nodeIDs c
    ∧ ∀ r, qty (total c') r =
        if bool_decide (r ∈ dom m) then qty (total c) r
        else (2 * qty (FromResourceList (getNodeRes c n)) r)%Z.
Proof.
  intros Hin Hm. unfold NodeAggregator_Put, deleteNoLock, addNoLock, mbind, st_bind, st_get, st_lift, st_put.
  rewrite bool_decide_true by done. cbn [negb]. rewrite Hm, Resources_Sub_eq. cbn [nodeIDs total getNodeRes].
  rewrite bool_decide_false by set_solver. rewrite Resources_Add_eq.
  eexists. split; [done|]. cbn [nodeIDs total]. split.
  { apply set_eq. intros x. destruct (decide (x = node_UID n)); set_solver. }
  intros r. rewrite qty_add_map, qty_sub_map, !qty_default.
  case_bool_decide; lia.
Qed.
End changes.

(** ** Witnesses *)
Section witnesses.
#[local] Existing Instances c_api c_quantity c_quantity_laws.

Definition ex_n1 : Node := c_node "n1" [("cpu", 4%Z)].
Definition ex_n2 : Node := c_node "n2" [("cpu", 2%Z); ("gpu", 1%Z)].
Definition ex_cap (u : UID) (r : ResourceName) : Z :=
  if bool_decide (u = "n1") then qty (node_Allocatable ex_n1) r
  else qty (node_Allocatable ex_n2) r.
Definition ex_counter_total : gmap ResourceName Quantity := {[ "cpu" := (1%Z : Quantity) ]}.
Definition ex_counter : NodeAggregator :=
  mkAggregator {["n1"]} (Some ex_counter_total) node_Allocatable.

Lemma NodeAggregator_accounting_witness :
  ∃ c0 c' res,
    NewNodeAllocatableAggregator [Some ex_n1; None] = Ret c0
    ∧ st_for [CallPut (Some ex_n2); CallPut (Some ex_n1); CallDelete (Some ex_n2)] run_agg c0 = Ret (tt, c')
    ∧ nodeIDs c' = {["n1"]}
    ∧ NodeAggregator_GetTotal c' = Ret (res, c')
    ∧ qty res "cpu" = 4%Z.
Proof.
  assert (∀ n, n = ex_n1 ∨ n = ex_n2 → steady ex_cap (Some n)) as Hst.
  { intros n [-> | ->] n' r [= <-]; reflexivity. }
  assert (steady ex_cap None) as Hno by (intros n' r [=]).
  destruct (NodeAggregator_accounting ex_cap [Some ex_n1; None]
    [CallPut (Some ex_n2); CallPut (Some ex_n1); CallDelete (Some ex_n2)])
    as (c0 & c1 & res & H0 & H1 & H2 & H3 & H4).
  - repeat constructor; auto.
  - repeat constructor; auto.
  - exists c0, c1, res. split; [exact H0|]. split; [exact H1|].
    assert (nodeIDs c1 = {["n1"]}) as Hids by (rewrite H2; vm_compute; reflexivity).
    split; [exact Hids|]. split; [exact H3|]. rewrite H4, Hids. vm_compute. reflexivity.
Defined.

Lemma Put_counted_node_witness :
  ∃ c', NodeAggregator_Put (Some ex_n1) ex_counter = Ret (tt, c') ∧ qty (total c') "cpu" = 1%Z.
Proof.
  destruct (Put_counted_node ex_counter ex_n1 ex_counter_total) as (c1 & H1 & _ & H2).
  - vm_compute. auto.
  - reflexivity.
  - exists c1. split; [exact H1|]. rewrite H2. vm_compute. reflexivity.
Defined.
End witnesses.
