(* ===== verification/Synchronizer.v ===== *)
(** * Synchronizer: [internal/queue/synchronizer.go]

    The informer handlers that keep the manager in step with the cluster's
    queues and pods, what a stream of events leaves in it, and one tick of the
    loop that reports the queues' status. *)

From stdpp Require Import base tactics option list gmap strings sorting.
From Stdlib Require Import ZArith Lia.
From S2P Require Import Prelude.
From S2P Require Import External.
From S2P Require Import Concrete.
From S2P Require Import Resources.
From S2P Require Import Api.
From S2P Require Import Pods.
From S2P Require Import Match.
From S2P Require Import Store.
From S2P Require Import StoreFacts.
From S2P Require Import Quota.
From S2P Require Import Queue.
From S2P Require Import Manager.
From S2P Require Import QueueFacts.
From S2P Require Import ManagerFacts.
From S2P Require Import ManagerProps.
From S2P Require Import Aggregator.

Section synchronizer.
Context {T : ApiTypes} {Q : QuantityOps} {P : PodOps} {L : SelectorOps}.

(** *** Queue handlers

    A failed type assertion leaves a nil pointer, whose fields the handlers go
    on to read.  An invalid preemption spec is only logged. *)
Definition queue_options (queueObj : QueueObj) : st heap (list QueueOption) :=
  let '(preemptionCfg, _) := NewPreemptionConfigFromSpec (queueSpec_Preemption (queueObj_Spec queueObj)) in
  max ← alloc_res (FromResourceList (quotaSpec_Max (queueSpec_Quota (queueObj_Spec queueObj))));
  mret [WithQuotaMax max; WithLabels (Some (queueObj_Labels queueObj)); WithPreemptionConfig preemptionCfg].

Definition addQueue (queueMgr : loc) (obj : any) : st heap unit :=
  queueObj ← st_some (as_Queue obj);
  opts ← queue_options queueObj;
  Manager_Put queueMgr (queueObj_Name queueObj) opts.

Definition updateQueue (queueMgr : loc) (oldObj newObj : any) : st heap unit :=
  newQueue ← st_some (as_Queue newObj);
  opts ← queue_options newQueue;
  Manager_Update queueMgr (queueObj_Name newQueue) opts.

Definition deleteQueue (queueMgr : loc) (obj : any) : st heap unit :=
  queueObj ← st_some (as_Queue obj);
  Manager_Delete queueMgr (queueObj_Name queueObj).

(** *** Pod handlers; errors are only logged. *)
Definition podFilter (obj : any) : bool :=
  match obj with
  | AnyPod t => negb (bool_decide (pod_NodeName t = ""))
  | AnyDeletedFinalStateUnknown _ t =>
      match as_Pod t with
      | Some pod => negb (bool_decide (pod_NodeName pod = ""))
      | None => false
      end
  | _ => false
  end.

Definition addPod (queueMgr : loc) (obj : any) : st heap unit :=
  _ ← Manager_AddPodIfNotPresent queueMgr (as_Pod obj); mret tt.

Definition updatePod (queueMgr : loc) (oldObj newObj : any) : st heap unit :=
  let oldPod := as_Pod oldObj in
  let newPod := as_Pod newObj in
  if IsTerminal oldPod || IsNonTerminal newPod then mret tt
  else _ ← Manager_DeletePodIfPresent queueMgr newPod; mret tt.

Definition deletePod (queueMgr : loc) (obj : any) : st heap unit :=
  _ ← Manager_DeletePodIfPresent queueMgr (as_Pod obj); mret tt.

(** *** Status updates

    The loop works on the heap, the resource tracker and the API server, of
    which only the patches sent are recorded.  [json_Marshal] may fail, and so
    may [Patch]; the loop goes on to the next queue in both cases. *)
Context {Bytes : Type}.
Variable json_Marshal : QueueObj → Bytes + go_error.

Record syn_world := mkSynWorld {
  sw_heap : heap;
  sw_tracker : NodeAggregator;
  sw_patches : list (string * Bytes);
}.

Definition syn_heap (A : Type) (m : st heap A) : st syn_world A := λ w,
  match m (sw_heap w) with
  | Ret (a, h) => Ret (a, mkSynWorld h (sw_tracker w) (sw_patches w))
  | Panic => Panic
  end.

Definition syn_tracker {A} (m : st NodeAggregator A) : st syn_world A := λ w,
  match m (sw_tracker w) with
  | Ret (a, t) => Ret (a, mkSynWorld (sw_heap w) t (sw_patches w))
  | Panic => Panic
  end.

Definition Patch (name : string) (data : Bytes) : st syn_world unit :=
  st_modify (λ w, mkSynWorld (sw_heap w) (sw_tracker w) (sw_patches w ++ [(name, data)])).

(** A [schedv1.Queue] of which only the status is set. *)
Definition status_object (effectiveMax used : gomap Quantity) : QueueObj :=
  mkQueueObj "" None (mkQueueSpec (mkQuotaSpec None) (mkPreemptionSpec (mkPreemptionRule None None)
    (mkPreemptionRule None None))) (mkQueueStatus (mkQuotaStatus effectiveMax used)).

(** The body of the loop over the queues. *)
Definition status_body (clusterTotalRes : Resources) (q : loc) : st syn_world bool :=
  quota ← syn_heap _ (Queue_Quota (Some q));
  max ← syn_heap _ (Quota_Max quota);
  max ← syn_heap _ (load_res max);
  effectiveMax ← st_lift (Resources_TakeMinExisting clusterTotalRes max);
  quota ← syn_heap _ (Queue_Quota (Some q));
  used ← syn_heap _ (Quota_Used quota);
  used ← syn_heap _ (load_res used);
  let statusPatch := status_object (Resources_ToResourceList effectiveMax) (Resources_ToResourceList used) in
  match json_Marshal statusPatch with
  | inr err => mret true
  | inl patchBytes =>
      name ← syn_heap _ (Queue_Name (Some q));
      Patch name patchBytes ;;
      mret true
  end.

(** One tick of [statusUpdateLoop]. *)
Definition statusUpdate (queueMgr : loc) : st syn_world unit :=
  clusterTotalRes ← syn_tracker ClusterResourceTracker_GetTotal;
  Manager_QueueIter syn_heap queueMgr (status_body clusterTotalRes).
End synchronizer.

(** ** Handlers on the manager's value *)
Section facts.
Context {T : ApiTypes} {Q : QuantityOps} {P : PodOps} {L : SelectorOps} {QL : QuantityLaws}.
Implicit Types (h : heap) (m : loc) (V : ManagerV).

(** What the options made from a queue object do to a queue's value. *)
Definition queue_effects (obj : QueueObj) : list (QueueV → QueueV) :=
  [on_quota (quotaV_setmax (FromResourceList (quotaSpec_Max (queueSpec_Quota (queueObj_Spec obj)))));
   (λ v, mkQueueV (v_name v) (v_quota v) (Some (queueObj_Labels obj)) (v_cfg v));
   (λ v, mkQueueV (v_name v) (v_quota v) (v_labels v)
      (NewPreemptionConfigFromSpec (queueSpec_Preemption (queueObj_Spec obj))).1)].

(** A queue's value with maximum, labels and rules taken from the object. *)
Definition from_object (obj : QueueObj) (v : QueueV) : QueueV := {|
  v_name := v_name v;
  v_quota := quotaV_setmax (FromResourceList (quotaSpec_Max (queueSpec_Quota (queueObj_Spec obj)))) (v_quota v);
  v_labels := Some (queueObj_Labels obj);
  v_cfg := (NewPreemptionConfigFromSpec (queueSpec_Preemption (queueObj_Spec obj))).1;
|}.

Lemma queue_options_reach h obj (K : list QueueOption → heap → Prop) :
  wf h →
  (∀ opts h' ref r, alloc_res r h = Ret (ref, h') → wf h' → (∀ m, view_mgr h' m = view_mgr h m) →
     (∀ ref r, max_ref h ref r → max_ref h' ref r) → h_mgr h' = h_mgr h →
     Forall2 (opt_denotes h') opts (queue_effects obj) → K opts h') →
  wp (queue_options obj) K h.
Proof.
  intros Hwf HK. unfold queue_options.
  destruct (NewPreemptionConfigFromSpec (queueSpec_Preemption (queueObj_Spec obj))) as [cfg err] eqn:E.
  set (r := FromResourceList _).
  pose proof (wp_alloc_res h r (λ ref h', wf h' ∧ ext_except ∅ h h' ∧ max_ref h' ref r) Hwf
    ltac:(by auto)) as Ha%wp_result.
  apply wp_bind. eapply wp_mono; [exact Ha|]. intros ref h' [(Hwf' & Hext & Href) Hrun]. apply wp_ret.
  eapply HK; [exact Hrun|done| |apply Hext|apply Hext|].
  - intros m. by apply ext_view_mgr.
  - unfold queue_effects. rewrite E.
    constructor; [by apply od_max|]. constructor; [apply (od_labels _ (Some (queueObj_Labels obj)))|].
    constructor; [apply od_cfg|constructor].
Qed.

Lemma addQueue_spec h m V obj :
  wf h → view_mgr h m = Some V →
  wp (addQueue m (AnyQueue obj))
    (λ _, mgr_post h m (<[queueObj_Name obj := from_object obj (queueV_new (queueObj_Name obj))]> V)) h.
Proof.
  intros Hwf HV. unfold addQueue. apply wp_bind, wp_some. eexists. split; [done|].
  apply wp_bind, queue_options_reach; [done|]. intros opts h1 ref r _ Hwf1 Hv1 Hm1 _ Ho.
  eapply wp_mono; [apply (Manager_Put_spec h1 m V); [done|by rewrite Hv1|exact Ho]|].
  intros _ h' [Hwf' Hv' Hf' Hm']. split; [done|done| |by auto].
  intros m' Hne. by rewrite Hf', Hv1.
Qed.

Lemma updateQueue_spec h m V old obj :
  wf h → view_mgr h m = Some V →
  wp (updateQueue m old (AnyQueue obj))
    (λ _, mgr_post h m (<[queueObj_Name obj :=
       from_object obj (default (queueV_new (queueObj_Name obj)) (V !! queueObj_Name obj))]> V)) h.
Proof.
  intros Hwf HV. unfold updateQueue. apply wp_bind, wp_some. eexists. split; [done|].
  apply wp_bind, queue_options_reach; [done|]. intros opts h1 ref r _ Hwf1 Hv1 Hm1 _ Ho.
  eapply wp_mono; [apply (Manager_Update_spec h1 m V); [done|by rewrite Hv1|exact Ho]|].
  intros _ h' [Hwf' Hv' Hf' Hm']. split; [done|done| |by auto].
  intros m' Hne. by rewrite Hf', Hv1.
Qed.

Lemma deleteQueue_spec h m V obj :
  wf h → view_mgr h m = Some V →
  wp (deleteQueue m (AnyQueue obj)) (λ _, mgr_post h m (delete (queueObj_Name obj) V)) h.
Proof.
  intros Hwf HV. unfold deleteQueue. apply wp_bind, wp_some. eexists. split; [done|].
  by apply Manager_Delete_spec.
Qed.

Lemma handle_addPod_spec h m V obj :
  wf h → view_mgr h m = Some V →
  wp (addPod m obj) (λ _, mgr_post h m (mgrV_add (as_Pod obj) V)) h.
Proof.
  intros Hwf HV. unfold addPod. apply wp_bind.
  eapply wp_mono; [by apply Manager_AddPodIfNotPresent_spec|]. intros e h' [_ Hp]. by apply wp_ret.
Qed.

Lemma handle_deletePod_spec h m V obj :
  wf h → view_mgr h m = Some V →
  wp (deletePod m obj) (λ _, mgr_post h m (mgrV_del (as_Pod obj) V)) h.
Proof.
  intros Hwf HV. unfold deletePod. apply wp_bind.
  eapply wp_mono; [by apply Manager_DeletePodIfPresent_spec|]. intros e h' [_ Hp]. by apply wp_ret.
Qed.

(** Does an update release the pod? *)
Definition releases (oldObj newObj : any) : bool :=
  negb (IsTerminal (as_Pod oldObj)) && negb (IsNonTerminal (as_Pod newObj)).

Lemma handle_updatePod_spec h m V oldObj newObj :
  wf h → view_mgr h m = Some V →
  wp (updatePod m oldObj newObj)
    (λ _, mgr_post h m (if releases oldObj newObj then mgrV_del (as_Pod newObj) V else V)) h.
Proof.
  intros Hwf HV. unfold updatePod, releases. rewrite <- negb_orb.
  destruct (_ || _); cbn [negb]; [apply wp_ret; auto with golib|].
  by apply (handle_deletePod_spec h m V newObj).
Qed.
End facts.

(** ** Streams of events *)
Section events.
Context {T : ApiTypes} {Q : QuantityOps} {P : PodOps} {L : SelectorOps} {QL : QuantityLaws}.
Implicit Types (h : heap) (m : loc) (V : ManagerV).

Inductive event :=
| EvAddQueue (obj : any)
| EvUpdateQueue (oldObj newObj : any)
| EvDeleteQueue (obj : any)
| EvAddPod (obj : any)
| EvUpdatePod (oldObj newObj : any)
| EvDeletePod (obj : any).

Definition handle m (ev : event) : st heap unit :=
  match ev with
  | EvAddQueue obj => addQueue m obj
  | EvUpdateQueue oldObj newObj => updateQueue m oldObj newObj
  | EvDeleteQueue obj => deleteQueue m obj
  | EvAddPod obj => addPod m obj
  | EvUpdatePod oldObj newObj => updatePod m oldObj newObj
  | EvDeletePod obj => deletePod m obj
  end.

(** The event's effect on the manager's value. *)
Definition event_effect (ev : event) V : ManagerV :=
  match ev with
  | EvAddQueue (AnyQueue obj) => <[queueObj_Name obj := from_object obj (queueV_new (queueObj_Name obj))]> V
  | EvUpdateQueue _ (AnyQueue obj) =>
      <[queueObj_Name obj := from_object obj (default (queueV_new (queueObj_Name obj)) (V !! queueObj_Name obj))]> V
  | EvDeleteQueue (AnyQueue obj) => delete (queueObj_Name obj) V
  | EvAddPod obj => mgrV_add (as_Pod obj) V
  | EvUpdatePod oldObj newObj => if releases oldObj newObj then mgrV_del (as_Pod newObj) V else V
  | EvDeletePod obj => mgrV_del (as_Pod obj) V
  | _ => V
  end.

(** Queue events whose handlers do not run into the nil pointer of a failed
    type assertion. *)
Definition no_nil (ev : event) : bool :=
  match ev with
  | EvAddQueue obj | EvUpdateQueue _ obj | EvDeleteQueue obj =>
      match as_Queue obj with Some _ => true | None => false end
  | _ => true
  end.

Lemma handle_spec h m V ev :
  wf h → view_mgr h m = Some V → no_nil ev = true →
  wp (handle m ev) (λ _, mgr_post h m (event_effect ev V)) h.
Proof.
  intros Hwf HV Hev. destruct ev as [obj|old obj|obj|obj|old obj|obj]; simpl in *.
  - destruct obj; try discriminate Hev. by apply addQueue_spec.
  - destruct obj; try discriminate Hev. by apply updateQueue_spec.
  - destruct obj; try discriminate Hev. by apply deleteQueue_spec.
  - by apply handle_addPod_spec.
  - by apply handle_updatePod_spec.
  - by apply handle_deletePod_spec.
Qed.

Lemma handle_panic h m ev : no_nil ev = false → handle m ev h = Panic.
Proof. by destruct ev as [[]|? []|[]|[]|? []|[]]. Qed.

Lemma handle_all_spec m evs : ∀ h V,
  wf h → view_mgr h m = Some V → Forall (λ ev, no_nil ev = true) evs →
  wp (st_for evs (handle m)) (λ _, mgr_post h m (foldl (λ V ev, event_effect ev V) V evs)) h.
Proof.
  induction evs as [|ev evs IH]; intros h V Hwf HV Hevs; simpl.
  { apply wp_ret. auto with golib. }
  apply Forall_cons in Hevs as [Hev Hevs]. apply wp_bind.
  eapply wp_mono; [by apply handle_spec|]. intros _ h1 [Hwf1 Hv1 Hf1 Hm1]. cbn beta.
  eapply wp_mono; [by apply IH|]. intros _ h2 [Hwf2 Hv2 Hf2 Hm2].
  split; [done|done| |by auto]. intros m' Hne. by rewrite Hf2, Hf1.
Qed.

(** *** What a stream of events says about a queue

    Written of the events alone, the latest first: the object that registered
    the queue [n], and the pod charged to it under the UID [u]. *)
Fixpoint registered (n : string) (past : list event) : option QueueObj :=
  match past with
  | [] => None
  | EvAddQueue (AnyQueue obj) :: past | EvUpdateQueue _ (AnyQueue obj) :: past =>
      if bool_decide (queueObj_Name obj = n) then Some obj else registered n past
  | EvDeleteQueue (AnyQueue obj) :: past => if bool_decide (queueObj_Name obj = n) then None else registered n past
  | _ :: past => registered n past
  end.

(** The pod that an event reports gone: deleted, or in an update from a phase that
    is not terminal to one that is neither pending nor running. *)
Definition released (ev : event) : option Pod :=
  match ev with
  | EvUpdatePod oldObj newObj => if releases oldObj newObj then as_Pod newObj else None
  | EvDeletePod obj => as_Pod obj
  | _ => None
  end.

(** Nothing is charged to [n] under [u] after these events: the queue is added
    anew or deleted, or the pod is released. *)
Definition clears (n : string) (u : UID) (ev : event) : bool :=
  match ev with
  | EvAddQueue (AnyQueue obj) | EvDeleteQueue (AnyQueue obj) => bool_decide (queueObj_Name obj = n)
  | _ => match released ev with
         | Some pod => bool_decide (pod_queue (Some pod) = Some n ∧ pod_UID pod = u)
         | None => false
         end
  end.

(** The first pod added under [u] since then, while the queue was registered. *)
Fixpoint charged (n : string) (u : UID) (past : list event) : option Pod :=
  match past with
  | [] => None
  | ev :: past =>
      if clears n u ev then None
      else match charged n u past, ev with
           | None, EvAddPod (AnyPod pod) =>
               if bool_decide (pod_queue (Some pod) = Some n ∧ pod_UID pod = u ∧ is_Some (registered n past))
               then Some pod else None
           | charge, _ => charge
           end
  end.

(** The manager's value after the events. *)
Definition tracks (past : list event) V : Prop := ∀ n,
  match registered n past with
  | None => V !! n = None ∧ ∀ u, charged n u past = None
  | Some obj => ∃ v, V !! n = Some v ∧ v = from_object obj v ∧ v_name v = n
      ∧ ∀ u, qv_pods (v_quota v) !! u = charged n u past
  end.

(** Every release passes the requests that were charged: no pod is resized
    between its addition and its release. *)
Definition unresized (evs : list event) : Prop :=
  ∀ before ev after pod n charge r, evs = before ++ ev :: after → released ev = Some pod →
    pod_queue (Some pod) = Some n → charged n (pod_UID pod) (reverse before) = Some charge →
    qty (FromPodReq (Some pod)) r = qty (FromPodReq (Some charge)) r.

Lemma charged_same n u ev past :
  clears n u ev = false → (∀ obj, ev ≠ EvAddPod obj) → charged n u (ev :: past) = charged n u past.
Proof.
  intros Hc Ha. cbn [charged]. rewrite Hc. destruct (charged n u past); [done|].
  destruct ev; try done. by destruct (Ha obj).
Qed.

Lemma mgrV_del_lookup pod V n :
  mgrV_del pod V !! n = if bool_decide (pod_queue pod = Some n) then on_quota (quotaV_del pod) <$> V !! n else V !! n.
Proof.
  unfold mgrV_del. destruct (pod_queue pod) as [k|]; [|by rewrite bool_decide_false].
  rewrite lookup_alter. case_decide as Hk; [subst; by rewrite bool_decide_true|].
  rewrite bool_decide_false; [done|congruence].
Qed.

Lemma mgrV_add_lookup pod V n :
  mgrV_add pod V !! n = if bool_decide (pod_queue pod = Some n) then on_quota (quotaV_add pod) <$> V !! n else V !! n.
Proof.
  unfold mgrV_add. destruct (pod_queue pod) as [k|]; [|by rewrite bool_decide_false].
  rewrite lookup_alter. case_decide as Hk; [subst; by rewrite bool_decide_true|].
  rewrite bool_decide_false; [done|congruence].
Qed.

Lemma quotaV_del_pods p q u :
  qv_pods (quotaV_del (Some p) q) !! u = if bool_decide (pod_UID p = u) then None else qv_pods q !! u.
Proof.
  unfold quotaV_del. destruct (qv_pods q !! pod_UID p) eqn:E; cbn [qv_pods]; case_bool_decide as Hu.
  - subst. apply lookup_delete_eq.
  - by apply lookup_delete_ne.
  - by subst.
  - done.
Qed.

Lemma quotaV_add_pods p q u :
  qv_pods (quotaV_add (Some p) q) !! u =
  match qv_pods q !! u with Some c => Some c | None => if bool_decide (pod_UID p = u) then Some p else None end.
Proof.
  unfold quotaV_add. destruct (qv_pods q !! pod_UID p) as [c|] eqn:E; cbn [qv_pods]; case_bool_decide as Hu; subst.
  - by rewrite E.
  - by destruct (qv_pods q !! u).
  - by rewrite lookup_insert_eq, E.
  - rewrite lookup_insert_ne by done. by destruct (qv_pods q !! u).
Qed.

Lemma from_object_quota obj v f :
  qv_max (f (v_quota v)) = qv_max (v_quota v) → v = from_object obj v → on_quota f v = from_object obj (on_quota f v).
Proof.
  intros Hf Hv. destruct v as [n q l c]. injection Hv as Hq Hl Hc. unfold from_object, on_quota in *. simpl in *.
  rewrite Hq in Hf at 2. rewrite <- Hl, <- Hc. f_equal. unfold quotaV_setmax in *. simpl in Hf. destruct (f q). simpl in *. congruence.
Qed.

Lemma quotaV_del_max pod q : qv_max (quotaV_del pod q) = qv_max q.
Proof. unfold quotaV_del. destruct pod as [p|]; [|done]. by destruct (qv_pods q !! pod_UID p). Qed.

Lemma quotaV_add_max pod q : qv_max (quotaV_add pod q) = qv_max q.
Proof. unfold quotaV_add. destruct pod as [p|]; [|done]. by destruct (qv_pods q !! pod_UID p). Qed.

Lemma tracks_queue past V n v obj (ev : event) :
  tracks past V → (∀ k u, k ≠ n → clears k u ev = false) → (∀ obj, ev ≠ EvAddPod obj) →
  (∀ k, registered k (ev :: past) = if bool_decide (n = k) then Some obj else registered k past) →
  v = from_object obj v → v_name v = n → (∀ u, qv_pods (v_quota v) !! u = charged n u (ev :: past)) →
  tracks (ev :: past) (<[n := v]> V).
Proof.
  intros HV Hc Ha Hr Hv Hn Hp k. rewrite Hr. case_bool_decide as Hk.
  - subst k. rewrite lookup_insert_eq. by exists v.
  - specialize (HV k). rewrite lookup_insert_ne by done.
    assert (∀ u, charged k u (ev :: past) = charged k u past) as He.
    { intros u. apply charged_same; [|done]. by apply Hc. }
    destruct (registered k past); [|by setoid_rewrite He].
    destruct HV as (w & H1 & H2 & H3 & H4). exists w. by setoid_rewrite He.
Qed.

(** An event that at most releases a pod. *)
Lemma tracks_release past V ev :
  tracks past V → (∀ n, registered n (ev :: past) = registered n past) → (∀ obj, ev ≠ EvAddPod obj) →
  (∀ n u, clears n u ev = match released ev with
     | Some pod => bool_decide (pod_queue (Some pod) = Some n ∧ pod_UID pod = u) | None => false end) →
  tracks (ev :: past) (match released ev with Some pod => mgrV_del (Some pod) V | None => V end).
Proof.
  intros HV Hr Ha Hc n. rewrite Hr. specialize (HV n).
  assert (∀ u, charged n u (ev :: past) = if clears n u ev then None else charged n u past) as He.
  { intros u. destruct (clears n u ev) eqn:E; [simpl; by rewrite E|by apply charged_same]. }
  destruct (released ev) as [pod|].
  2:{ assert (∀ u, charged n u (ev :: past) = charged n u past) as He' by (intros u; by rewrite He, Hc).
    destruct (registered n past); setoid_rewrite He'; done. }
  rewrite mgrV_del_lookup. destruct (registered n past) as [obj|].
  - destruct HV as (v & H1 & H2 & H3 & H4). rewrite H1. case_bool_decide as Hn.
    + exists (on_quota (quotaV_del (Some pod)) v). split_and!; [done|by apply from_object_quota; [apply quotaV_del_max|]|done|].
      intros u. cbn [on_quota v_quota]. rewrite quotaV_del_pods, He, Hc, H4.
      do 2 case_bool_decide; [done|tauto..|done].
    + exists v. split_and!; [done..|]. intros u. rewrite He, Hc, bool_decide_false; [done|tauto].
  - destruct HV as [H1 H2]. rewrite H1. split; [by destruct (bool_decide _)|].
    intros u. rewrite He, H2. by destruct (clears n u ev).
Qed.

Lemma tracks_add past V pod : tracks past V → tracks (EvAddPod (AnyPod pod) :: past) (mgrV_add (Some pod) V).
Proof.
  intros HV n. cbn [registered charged clears released]. specialize (HV n). rewrite mgrV_add_lookup.
  destruct (registered n past) as [obj|].
  - destruct HV as (v & H1 & H2 & H3 & H4). rewrite H1. case_bool_decide as Hn.
    + exists (on_quota (quotaV_add (Some pod)) v). split_and!; [done|by apply from_object_quota; [apply quotaV_add_max|]|done|].
      intros u. cbn [on_quota v_quota]. rewrite quotaV_add_pods, H4. destruct (charged n u past); [done|].
      assert (is_Some (Some obj)) by by eexists. do 2 case_bool_decide; [done|tauto..|done].
    + exists v. split_and!; [done..|]. intros u. rewrite H4. destruct (charged n u past); [done|].
      rewrite bool_decide_false; [done|tauto].
  - destruct HV as [H1 H2]. rewrite H1. split; [by destruct (bool_decide _)|]. intros u. rewrite H2.
    rewrite bool_decide_false; [done|]. by intros (_ & _ & []).
Qed.

Lemma tracks_event past V ev : no_nil ev = true → tracks past V → tracks (ev :: past) (event_effect ev V).
Proof.
  intros Hev HV.
  destruct ev as [[| |obj| |]|old [| |obj| |]|[| |obj| |]|obj|old new|obj]; try discriminate Hev; cbn [event_effect].
  - apply (tracks_queue past V _ _ obj); [done| |done|done|done|done|].
    + intros k u Hk. cbn [clears]. by rewrite bool_decide_false.
    + intros u. cbn [charged clears]. by rewrite bool_decide_true.
  - set (n := queueObj_Name obj). pose proof (HV n) as Hn.
    assert (∀ k u, clears k u (EvUpdateQueue old (AnyQueue obj)) = false) as Hc by done.
    apply (tracks_queue past V _ _ obj); [done|done|done|done|..].
    + destruct (registered n past); [|by destruct Hn as [-> _]].
      destruct Hn as (v & -> & _). by destruct v as [? [] ? ?].
    + destruct (registered n past); [|by destruct Hn as [-> _]]. by destruct Hn as (v & -> & _ & ? & _).
    + intros u. rewrite charged_same by done. destruct (registered n past).
      * destruct Hn as (v & -> & _ & _ & Hp). apply Hp.
      * destruct Hn as [-> ->]. simpl. apply lookup_empty.
  - intros n. cbn [registered charged clears]. specialize (HV n). case_bool_decide as Hk.
    + subst n. split; [apply lookup_delete_eq|done].
    + rewrite lookup_delete_ne by done. destruct (registered n past) as [o|].
      * destruct HV as (v & H1 & H2 & H3 & H4). exists v. split_and!; [done..|]. intros u. rewrite H4. by destruct (charged n u past).
      * destruct HV as [H1 H2]. split; [done|]. intros u. by rewrite H2.
  - destruct obj as [|pod| | |]; [|by apply tracks_add|..]; intros n; specialize (HV n);
      cbn [registered charged clears released as_Pod mgrV_add pod_queue];
      (destruct (registered n past); [destruct HV as (v & ? & ? & ? & H4); exists v; split_and!; [done..|];
        intros u; rewrite H4; by destruct (charged n u past)|destruct HV as [? H2]; split; [done|]; intros u; by rewrite H2]).
  - pose proof (tracks_release past V (EvUpdatePod old new) HV ltac:(done) ltac:(done) ltac:(done)) as Hr.
    cbn [released] in Hr. destruct (releases old new); [|exact Hr]. by destruct (as_Pod new).
  - pose proof (tracks_release past V (EvDeletePod obj) HV ltac:(done) ltac:(done) ltac:(done)) as Hr.
    cbn [released] in Hr. by destruct (as_Pod obj).
Qed.

Lemma tracks_empty : tracks [] ∅.
Proof. intros n. split; [apply lookup_empty|done]. Qed.

Lemma tracks_events evs : ∀ past V,
  Forall (λ ev, no_nil ev = true) evs → tracks past V →
  tracks (reverse evs ++ past) (foldl (λ V ev, event_effect ev V) V evs).
Proof.
  induction evs as [|ev evs IH]; intros past V Hevs HV; simpl; [done|].
  apply Forall_cons in Hevs as [Hev Hevs]. rewrite reverse_cons, <- app_assoc. simpl.
  apply IH; [done|]. by apply tracks_event.
Qed.

(** Without resizing, the used amounts follow the recorded pods. *)
Lemma settled_event ev V :
  (∀ pod n v, released ev = Some pod → pod_queue (Some pod) = Some n → V !! n = Some v →
    del_fits own_request (Some pod) (v_quota v)) →
  weighedV own_request V → weighedV own_request (event_effect ev V).
Proof.
  intros Hfits HV.
  assert (∀ obj v, v_name v = queueObj_Name obj → weighed own_request (v_quota v) →
    weighedV own_request (<[queueObj_Name obj := from_object obj v]> V)) as Hins.
  { intros obj v Hn [Hu Hs Hd Hi]. apply weighed_insert; [done|done|by split]. }
  assert (∀ pod, released ev = pod → weighedV own_request (mgrV_del pod V)) as Hdel.
  { intros pod Hp. apply weighed_mgr_del; [|done]. intros n v Hn Hv. destruct pod as [pod|]; [|by intros ?].
    by eapply Hfits. }
  destruct ev as [[]|? []|[]|obj|old obj|obj]; simpl in *; try done.
  - apply Hins; [done|apply weighed_empty].
  - destruct (V !! queueObj_Name queue) as [v|] eqn:E; simpl; [|apply Hins; [done|apply weighed_empty]].
    destruct (HV _ _ E). by apply Hins.
  - by apply weighed_delete.
  - apply weighed_mgr_add; [|done]. apply add_fits_own.
  - destruct (releases old obj); [by apply Hdel|done].
  - by apply Hdel.
Qed.

Lemma settled_events evs : ∀ before V,
  unresized (before ++ evs) → Forall (λ ev, no_nil ev = true) evs →
  tracks (reverse before) V → weighedV own_request V →
  weighedV own_request (foldl (λ V ev, event_effect ev V) V evs).
Proof.
  induction evs as [|ev evs IH]; intros before V Hun Hevs HV Hw; simpl; [done|].
  apply Forall_cons in Hevs as [Hev Hevs]. apply (IH (before ++ [ev])); [by rewrite <- app_assoc|done|..].
  - rewrite reverse_snoc. by apply tracks_event.
  - apply settled_event; [|done]. intros pod n v Hrel Hn Hv p p' r [= <-] Hp.
    eapply (Hun before ev evs); [done|done|done|]. specialize (HV n).
    destruct (registered n (reverse before)); [|destruct HV; congruence].
    destruct HV as (v' & Hv' & _ & _ & Hc). rewrite Hv in Hv'. injection Hv' as <-. by rewrite <- Hc.
Qed.
End events.

(** ** The status loop *)
Section status.
Context {T : ApiTypes} {Q : QuantityOps} {P : PodOps} {L : SelectorOps} {QL : QuantityLaws}.
Context {Bytes : Type}.
Variable json_Marshal : QueueObj → Bytes + go_error.
Implicit Types (h : heap) (m : loc) (V : ManagerV) (w : syn_world (Bytes := Bytes)).

Lemma wp_syn_heap {A} (f : st heap A) (K : A → syn_world → Prop) w :
  wp (syn_heap A f) K w ↔ wp f (λ a h, K a (mkSynWorld h (sw_tracker w) (sw_patches w))) (sw_heap w).
Proof. unfold wp, syn_heap. by destruct (f (sw_heap w)) as [[a h]|]. Qed.

(** The status reported for a queue of value [v]. *)
Definition take_min (total max : Resources) : Resources :=
  match Resources_TakeMinExisting total max with Ret r => r | Panic => None end.

Definition status_of (clusterTotal : Resources) (v : QueueV) : QueueObj :=
  status_object (take_min clusterTotal (qv_max (v_quota v))) (qv_used (v_quota v)).

Definition patch_of (clusterTotal : Resources) (v : QueueV) : option (string * Bytes) :=
  match json_Marshal (status_of clusterTotal v) with
  | inl data => Some (v_name v, data)
  | inr _ => None
  end.

Lemma TakeMinExisting_ret mt max : Resources_TakeMinExisting (Some mt) max = Ret (take_min (Some mt) max).
Proof.
  unfold take_min, Resources_TakeMinExisting, Resources_SetMinExisting. rewrite Resources_Clone_eq.
  destruct (SetMinExisting_loop (gomap_items max) mt (gomap_items_nodup max)) as (m' & -> & _). done.
Qed.

Lemma qty_take_min mt max r :
  qty (take_min (Some mt) max) r =
  if bool_decide (r ∈ gomap_dom max) then Z.min (qty (Some mt) r) (qty max r) else qty (Some mt) r.
Proof.
  pose proof (TakeMinExisting_ret mt max) as Hr.
  destruct (TakeMinExisting_qty mt max) as (m' & Hm' & Hq & _). rewrite Hr in Hm'. injection Hm' as ->. apply Hq.
Qed.

Lemma status_body_spec mt w ql v :
  view_queue (sw_heap w) ql = Some v →
  wp (status_body json_Marshal (Some mt) ql) (λ b w', b = true ∧
    w' = mkSynWorld (sw_heap w) (sw_tracker w)
      (sw_patches w ++ match patch_of (Some mt) v with Some p => [p] | None => [] end)) w.
Proof.
  intros (qu & tl & qo & Hq & Ht & Ho & ->)%view_queue_Some. destruct w as [h tr ps]; simpl in *.
  unfold status_body, Queue_Quota, Quota_Max, Quota_Used, Queue_Name.
  repeat first
    [ rewrite wp_bind | rewrite wp_syn_heap; cbn [sw_heap sw_tracker sw_patches]
    | rewrite wp_ret | apply (wp_load_queue ql qu); [exact Hq|]
    | progress rewrite Ht | apply (wp_load_quota tl qo); [exact Ho|] ].
  unfold load_res. rewrite wp_bind, wp_get, wp_ret, wp_bind, wp_lift, TakeMinExisting_ret.
  eexists. split; [done|].
  repeat first
    [ rewrite wp_bind | rewrite wp_syn_heap; cbn [sw_heap sw_tracker sw_patches]
    | rewrite wp_ret | apply (wp_load_queue ql qu); [exact Hq|]
    | progress rewrite Ht | apply (wp_load_quota tl qo); [exact Ho|] | rewrite wp_get ].
  rewrite !Resources_ToResourceList_eq. unfold patch_of, status_of. cbn [v_quota view_quota qv_max qv_used v_name].
  destruct (json_Marshal _) as [data|e].
  - rewrite wp_bind, wp_syn_heap. cbn [sw_heap sw_tracker sw_patches]. rewrite wp_bind.
    apply (wp_load_queue ql qu); [exact Hq|]. rewrite wp_ret, wp_bind. by apply wp_modify.
  - rewrite wp_ret. by rewrite app_nil_r.
Qed.

Lemma status_loop mt (view : loc → option QueueV) qls : ∀ w,
  (∀ ql, ql ∈ qls → is_Some (view_queue (sw_heap w) ql) ∧ view ql = view_queue (sw_heap w) ql) →
  wp (yield_all qls (status_body json_Marshal (Some mt))) (λ _ w',
    w' = mkSynWorld (sw_heap w) (sw_tracker w)
      (sw_patches w ++ omap (λ ql, v ← view ql; patch_of (Some mt) v) qls)) w.
Proof.
  induction qls as [|ql qls IH]; intros w Hqls; cbn [yield_all].
  { apply wp_ret. cbn. rewrite app_nil_r. by destruct w. }
  destruct (Hqls ql) as [[v Hv] Hview]; [set_solver|]. apply wp_bind.
  eapply wp_mono; [by apply status_body_spec|]. intros b w' [-> ->]. cbn [negb].
  eapply wp_mono; [apply IH|].
  { intros ql' Hin. apply Hqls. set_solver. }
  intros _ w' ->. cbn [sw_heap sw_tracker sw_patches omap list_omap]. rewrite Hview, Hv. cbn.
  rewrite <- app_assoc. by destruct (patch_of (Some mt) v).
Qed.

(** The patches of one tick, from the clone's queues. *)
Lemma patches_list mt (view : loc → option QueueV) (l : list (string * loc)) :
  NoDup l.*1 → (∀ n ql, (n, ql) ∈ l → ∃ v, view ql = Some v ∧ v_name v = n) →
  let ps := omap (λ ql, v ← view ql; patch_of (Some mt) v) l.*2 in
  NoDup ps.*1
  ∧ ∀ n data, (n, data) ∈ ps ↔
      ∃ ql v, (n, ql) ∈ l ∧ view ql = Some v ∧ json_Marshal (status_of (Some mt) v) = inl data.
Proof.
  cbv zeta. induction l as [|[n ql] l IH]; intros Hnd Hin.
  { split; [constructor|]. intros n data. split; [by intros ?%elem_of_nil|]. by intros (? & ? & ?%elem_of_nil & _). }
  apply NoDup_cons in Hnd as [Hn Hnd]. destruct (IH Hnd) as [IH1 IH2]; [set_solver|].
  destruct (Hin n ql) as (v & Hv & Hname); [by left|].
  assert (∀ d, (∃ ql' v', (n, ql') ∈ (n, ql) :: l ∧ view ql' = Some v'
    ∧ json_Marshal (status_of (Some mt) v') = inl d) ↔ json_Marshal (status_of (Some mt) v) = inl d) as Hsame.
  { intros d. split; [|intros Hd; exists ql, v; split; [left|done]].
    intros (ql' & v' & [[= ->]|Hin']%elem_of_cons & Hv' & Hj); [by simplify_eq|].
    exfalso. apply Hn, list_elem_of_fmap. by exists (n, ql'). }
  set (f := λ ql, v ← view ql; patch_of (Some mt) v) in *.
  assert (f ql = match json_Marshal (status_of (Some mt) v) with inl d => Some (n, d) | inr _ => None end) as Hf.
  { unfold f. rewrite Hv. simpl. unfold patch_of. by rewrite Hname. }
  cbn [fmap list_fmap omap list_omap fst snd]. rewrite Hf.
  assert (∀ d, (n, d) ∉ omap f l.*2) as Hfresh.
  { intros d (ql' & v' & Hql & _)%IH2. apply Hn, list_elem_of_fmap. by exists (n, ql'). }
  destruct (json_Marshal (status_of (Some mt) v)) as [d0|e] eqn:E; split.
  - apply NoDup_cons. split; [|done]. intros ([n' d'] & Heq & Hps)%list_elem_of_fmap.
    simpl in Heq. subst n'. by eapply Hfresh.
  - intros n' d. rewrite elem_of_cons, IH2. split.
    + intros [[= -> ->]|(ql' & v' & ? & ?)]; [by apply Hsame|exists ql', v'; split; [by right|done]].
    + intros (ql' & v' & [[= -> ->]|Hin']%elem_of_cons & Hv' & Hj); [left; congruence|right; by exists ql', v'].
  - done.
  - intros n' d. rewrite IH2. split; [intros (ql' & v' & ? & ?); exists ql', v'; split; [by right|done]|].
    intros (ql' & v' & [[= -> ->]|Hin']%elem_of_cons & Hv' & Hj); [congruence|by exists ql', v'].
Qed.

Lemma patches_names mt (C : gmap string loc) (view : loc → option QueueV) :
  (∀ n ql, C !! n = Some ql → ∃ v, view ql = Some v ∧ v_name v = n) →
  let ps := omap (λ ql, v ← view ql; patch_of (Some mt) v) (map_to_list C).*2 in
  NoDup ps.*1
  ∧ ∀ n data, (n, data) ∈ ps ↔
      ∃ v, omap view C !! n = Some v ∧ json_Marshal (status_of (Some mt) v) = inl data.
Proof.
  intros HC. cbv zeta. destruct (patches_list mt view (map_to_list C)) as [H1 H2].
  { apply NoDup_fst_map_to_list. }
  { intros n ql Hin%elem_of_map_to_list. by apply HC. }
  split; [done|]. intros n data. rewrite H2. split.
  - intros (ql & v & Hin%elem_of_map_to_list & Hv & Hj). exists v. split; [|done]. by rewrite lookup_omap, Hin.
  - intros (v & Hv & Hj). rewrite lookup_omap in Hv. destruct (C !! n) as [ql|] eqn:E; [|done].
    exists ql, v. split_and!; [by apply elem_of_map_to_list|done|done].
Qed.

Lemma statusUpdate_spec m w V mt :
  wf (sw_heap w) → view_mgr (sw_heap w) m = Some V → total (sw_tracker w) = Some mt →
  wp (statusUpdate json_Marshal m) (λ _ w', ∃ ps, sw_patches w' = sw_patches w ++ ps
    ∧ NoDup ps.*1
    ∧ (∀ n data, (n, data) ∈ ps ↔ ∃ v, V !! n = Some v ∧ json_Marshal (status_of (Some mt) v) = inl data)
    ∧ sw_tracker w' = sw_tracker w ∧ wf (sw_heap w') ∧ view_mgr (sw_heap w') m = Some V) w.
Proof.
  intros Hwf HV Ht. unfold statusUpdate. apply wp_bind.
  unfold wp at 1, syn_tracker, ClusterResourceTracker_GetTotal, NodeAggregator_GetTotal, mbind, st_bind, st_get, mret, st_ret.
  rewrite Ht, Resources_Clone_eq. destruct w as [h tr ps0]. cbn [sw_heap sw_tracker sw_patches] in *.
  unfold Manager_QueueIter. apply wp_bind, wp_syn_heap. cbn [sw_heap sw_tracker sw_patches].
  eapply wp_mono; [by apply Manager_Clone_spec|]. intros c h1 [Hc [Hwf1 Hv1 Hf1 _]].
  assert (view_mgr h1 m = Some V) as HV1.
  { destruct (view_mgr_mgr h m V HV). rewrite Hf1; [done|congruence]. }
  destruct (view_mgr_mgr h1 c V Hv1) as [M HM]. apply wp_bind, wp_syn_heap, (wp_load_mgr _ M); [done|].
  cbn [sw_heap sw_tracker sw_patches].
  assert (∀ n ql, queueByName M !! n = Some ql → ∃ v, view_queue h1 ql = Some v ∧ v_name v = n) as HC.
  { intros n ql Hn. pose proof (view_mgr_lookup h1 c M V n Hwf1 HM Hv1) as Hl. rewrite Hn in Hl.
    destruct Hl as (v & _ & Hv & Hname). by exists v. }
  eapply wp_mono; [apply (status_loop mt (view_queue h1))|].
  - intros ql ([n ql'] & -> & Hin%elem_of_map_to_list)%list_elem_of_fmap. split; [|done].
    destruct (HC n ql' Hin) as (v & Hv & _). by eexists.
  - intros _ w' ->. cbn [sw_heap sw_tracker sw_patches]. eexists. split; [done|].
    apply view_mgr_Some in Hv1 as (M' & HM' & HVeq). rewrite HM in HM'. injection HM' as <-.
    pose proof (patches_names mt (queueByName M) (view_queue h1) HC) as [H1 H2].
    rewrite <- HVeq in H2. done.
Qed.
End status.

(** ** Properties *)
Section properties.
Context {T : ApiTypes} {Q : QuantityOps} {P : PodOps} {L : SelectorOps} {QL : QuantityLaws}.
Implicit Types (h : heap) (m : loc) (V : ManagerV).

(** C32: the queue handlers.  An added queue replaces whatever was registered
    under its name by a queue with an empty quota, the recorded pods of the old
    one included; an updated queue takes maximum, labels and rules from the new
    object and keeps its pods and used amounts; a deleted one is dropped; other
    queues and other managers are not affected.  An object that is not a queue,
    such as the tombstone of a missed deletion, makes all three panic. *)
Theorem queue_handlers_correct h m V obj :
  wf h → view_mgr h m = Some V →
  let name := queueObj_Name obj in
  let max := FromResourceList (quotaSpec_Max (queueSpec_Quota (queueObj_Spec obj))) in
  let cfg := (NewPreemptionConfigFromSpec (queueSpec_Preemption (queueObj_Spec obj))).1 in
  wp (addQueue m (AnyQueue obj)) (λ _, mgr_post h m
    (<[name := mkQueueV name (mkQuotaV max gomap_make ∅) (Some (queueObj_Labels obj)) cfg]> V)) h
  ∧ (∀ old v, V !! name = Some v → wp (updateQueue m old (AnyQueue obj)) (λ _, mgr_post h m
      (<[name := mkQueueV (v_name v) (mkQuotaV max (qv_used (v_quota v)) (qv_pods (v_quota v)))
           (Some (queueObj_Labels obj)) cfg]> V)) h)
  ∧ wp (deleteQueue m (AnyQueue obj)) (λ _, mgr_post h m (delete name V)) h
  ∧ ∀ other old, as_Queue other = None →
      addQueue m other h = Panic ∧ updateQueue m old other h = Panic ∧ deleteQueue m other h = Panic.
Proof.
  intros Hwf HV. cbv zeta. split_and!.
  - by apply addQueue_spec.
  - intros old v Hv. pose proof (updateQueue_spec h m V old obj Hwf HV) as Hu. by rewrite Hv in Hu.
  - by apply deleteQueue_spec.
  - intros other old Ho. unfold addQueue, updateQueue, deleteQueue. by rewrite Ho.
Qed.

(** C33: the pod handlers never panic.  An added pod is recorded in the queue its
    label names, whatever its phase; an update releases the pod exactly when it
    was not terminal before and is neither pending nor running now; a deleted
    pod is released.  A tombstone passes the informer's filter when the pod was
    bound to a node, but the delete handler then releases nothing. *)
Theorem pod_handlers_correct h m V :
  wf h → view_mgr h m = Some V →
  (∀ obj, wp (addPod m obj) (λ _, mgr_post h m (mgrV_add (as_Pod obj) V)) h)
  ∧ (∀ old new, wp (updatePod m (AnyPod old) (AnyPod new)) (λ _, mgr_post h m
      (if bool_decide ((pod_Phase old ∉ [PodSucceeded; PodFailed]) ∧ (pod_Phase new ∉ [PodPending; PodRunning]))
       then mgrV_del (Some new) V else V)) h)
  ∧ (∀ pod, wp (deletePod m (AnyPod pod)) (λ _, mgr_post h m (mgrV_del (Some pod) V)) h)
  ∧ ∀ key pod, pod_NodeName pod ≠ "" →
      podFilter (AnyDeletedFinalStateUnknown key (AnyPod pod)) = true
      ∧ wp (deletePod m (AnyDeletedFinalStateUnknown key (AnyPod pod))) (λ _, mgr_post h m V) h.
Proof.
  intros Hwf HV. split_and!.
  - intros obj. by apply handle_addPod_spec.
  - intros old new. pose proof (handle_updatePod_spec h m V (AnyPod old) (AnyPod new) Hwf HV) as Hu.
    assert (releases (AnyPod old) (AnyPod new) = bool_decide
      ((pod_Phase old ∉ [PodSucceeded; PodFailed]) ∧ (pod_Phase new ∉ [PodPending; PodRunning]))) as <-; [|exact Hu].
    unfold releases. cbn [as_Pod IsTerminal IsNonTerminal]. unfold IsTerminalPhase, IsNonTerminalPhase.
    rewrite eq_iff_eq_true, bool_decide_eq_true, andb_true_iff, !negb_true_iff, !orb_false_iff, !bool_decide_eq_false.
    rewrite !not_elem_of_cons. pose proof (not_elem_of_nil (pod_Phase old)).
    pose proof (not_elem_of_nil (pod_Phase new)). naive_solver.
  - intros pod. by apply (handle_deletePod_spec h m V (AnyPod pod)).
  - intros key pod Hn. split; [|by apply (handle_deletePod_spec h m V (AnyDeletedFinalStateUnknown key (AnyPod pod)))].
    simpl. by rewrite bool_decide_false.
Qed.

(** C16: whatever stream of events reaches the handlers of a new manager, no
    handler panics unless a queue event carries an object that is not a queue,
    and in the end the manager holds what the events say: the queues registered
    are those added or updated and not deleted since, each with the maximum,
    the labels and the rules of its last object; the pods recorded in a queue
    are the ones added while it was registered and not released since, nor
    lost because the queue was added anew or deleted, each as it was when first
    added; and if no pod is resized between its addition and its release, each
    queue's used amounts are the sum of the requests of exactly these pods. *)
Theorem Synchronizer_accounting evs :
  Forall (λ ev, no_nil ev = true) evs →
  wp (m ← NewManager; st_for evs (handle m) ;; mret m) (λ m h', ∃ V, view_mgr h' m = Some V ∧ ∀ n,
    match registered n (reverse evs) with
    | None => V !! n = None
    | Some obj => ∃ v, V !! n = Some v ∧ v_name v = n
        ∧ qv_max (v_quota v) = FromResourceList (quotaSpec_Max (queueSpec_Quota (queueObj_Spec obj)))
        ∧ v_labels v = Some (queueObj_Labels obj)
        ∧ v_cfg v = (NewPreemptionConfigFromSpec (queueSpec_Preemption (queueObj_Spec obj))).1
        ∧ (∀ u, qv_pods (v_quota v) !! u = charged n u (reverse evs))
        ∧ (unresized evs → ∀ r, qty (qv_used (v_quota v)) r = recorded_total (qv_pods (v_quota v)) r)
    end) empty_heap.
Proof.
  intros Hnil. apply wp_bind. eapply wp_mono; [apply NewManager_spec; auto with golib|].
  intros m h1 [_ [Hwf1 Hv1 _ _]]. apply wp_bind.
  eapply wp_mono; [by apply (handle_all_spec m evs h1 ∅)|]. intros _ h2 [_ Hv2 _ _]. apply wp_ret.
  eexists. split; [exact Hv2|]. intros n. pose proof (tracks_events evs [] ∅ Hnil tracks_empty) as Htr.
  rewrite app_nil_r in Htr. specialize (Htr n). destruct (registered n (reverse evs)) as [obj|]; [|by destruct Htr].
  destruct Htr as (v & Hv & Hobj & Hname & Hpods). exists v.
  split_and!; [done|done|by rewrite Hobj..|done|]. intros Hun.
  eapply (settled_events evs [] ∅ Hun Hnil tracks_empty); [|exact Hv]. intros k w Hk. by rewrite lookup_empty in Hk.
Qed.

(** Two versions of a pod: identity, labels and requests stay, status changes. *)
Definition same_pod (p p' : Pod) : Prop :=
  pod_UID p' = pod_UID p ∧ pod_Labels p' = pod_Labels p ∧ FromPodReq (Some p') = FromPodReq (Some p).

Lemma mgrV_del_same p p' V : same_pod p p' → mgrV_del (Some p') V = mgrV_del (Some p) V.
Proof.
  intros (Hu & Hl & Hr). unfold mgrV_del, pod_queue. simpl. rewrite Hl.
  destruct (gomap_lookup _ _); [|done]. unfold quotaV_del. by rewrite Hu, Hr.
Qed.

Lemma mgrV_del_absent p V n v :
  pod_queue (Some p) = Some n → V !! n = Some v → qv_pods (v_quota v) !! pod_UID p = None →
  mgrV_del (Some p) V = V.
Proof.
  intros Hn Hv Hp. unfold mgrV_del. rewrite Hn, (alter_present _ _ _ v Hv). apply insert_id.
  rewrite Hv. f_equal. unfold on_quota, quotaV_del. rewrite Hp. by destruct v.
Qed.

(** The queue's value with the pod charged, and with it released again. *)
Definition charged_value (p : Pod) (v v' : QueueV) : Prop :=
  v_name v' = v_name v ∧ v_labels v' = v_labels v ∧ v_cfg v' = v_cfg v
  ∧ qv_max (v_quota v') = qv_max (v_quota v)
  ∧ qv_pods (v_quota v') = <[pod_UID p := p]> (qv_pods (v_quota v))
  ∧ ∀ r, qty (qv_used (v_quota v')) r = (qty (qv_used (v_quota v)) r + qty (FromPodReq (Some p)) r)%Z.

Definition released_value (v v' : QueueV) : Prop :=
  v_name v' = v_name v ∧ v_labels v' = v_labels v ∧ v_cfg v' = v_cfg v ∧ quotaV_equiv (v_quota v') (v_quota v).

Lemma add_charges p q mu :
  qv_used q = Some mu → qv_pods q !! pod_UID p = None →
  ∀ r, qty (qv_used (quotaV_add (Some p) q)) r = (qty (qv_used q) r + qty (FromPodReq (Some p)) r)%Z.
Proof. intros Hu Hnew r. unfold quotaV_add. rewrite Hnew, Hu. cbn [qv_used]. by rewrite res_add_Some, qty_add_map, qty_default. Qed.

(** C17: over its life a pod that is not resized charges its queue's quota once,
    from its addition on, and releases it once, at its end: after the addition
    it is recorded and its request is added to the used amounts; the update to
    pending or running changes nothing; the update to a terminal phase, or the
    deletion of the running pod, restores the recorded pods and every used
    amount; the deletion that follows a terminal phase, seen or as a tombstone,
    changes nothing any more. *)
Theorem pod_lifecycle h m V n v p running finished deletion :
  wf h → view_mgr h m = Some V →
  pod_queue (Some p) = Some n → V !! n = Some v → qv_pods (v_quota v) !! pod_UID p = None →
  same_pod p running → same_pod p finished →
  pod_Phase running ∈ [PodPending; PodRunning] → pod_Phase finished ∈ [PodSucceeded; PodFailed] →
  (deletion = AnyPod finished ∨ ∃ key, deletion = AnyDeletedFinalStateUnknown key (AnyPod finished)) →
  wp (addPod m (AnyPod p)) (λ _ h1, ∃ v1, view_mgr h1 m = Some (<[n := v1]> V) ∧ charged_value p v v1
    ∧ wp (updatePod m (AnyPod p) (AnyPod running)) (λ _ h2, view_mgr h2 m = view_mgr h1 m
      ∧ wp (deletePod m (AnyPod running)) (λ _ h3, ∃ v3, view_mgr h3 m = Some (<[n := v3]> V) ∧ released_value v v3) h2
      ∧ wp (updatePod m (AnyPod running) (AnyPod finished)) (λ _ h3, ∃ v3,
          view_mgr h3 m = Some (<[n := v3]> V) ∧ released_value v v3
          ∧ wp (deletePod m deletion) (λ _ h4, view_mgr h4 m = view_mgr h3 m) h3) h2) h1) h.
Proof.
  intros Hwf HV Hn Hv Hnew Hsr Hsf Hrun Hfin Hdel. destruct (wf_view_used h m V n v Hwf HV Hv) as [mu Hmu].
  set (v1 := on_quota (quotaV_add (Some p)) v). set (v3 := on_quota (quotaV_del (Some p)) v1).
  assert (mgrV_add (Some p) V = <[n := v1]> V) as HV1 by (unfold mgrV_add; rewrite Hn; by apply alter_present).
  assert (mgrV_del (Some p) (<[n := v1]> V) = <[n := v3]> V) as HV3.
  { unfold mgrV_del. rewrite Hn, (alter_present _ _ _ _ (lookup_insert_eq _ _ _)). apply insert_insert_eq. }
  assert (released_value v v3) as Hrel.
  { split_and!; [done..|]. by apply (quotaV_del_add p _ mu). }
  assert (charged_value p v v1) as Hch.
  { split_and!; [done..|apply quotaV_add_max| |by eapply add_charges]. cbn. unfold quotaV_add. by rewrite Hnew. }
  assert (releases (AnyPod p) (AnyPod running) = false) as Hr1.
  { unfold releases. cbn [as_Pod IsNonTerminal]. unfold IsNonTerminalPhase.
    by apply elem_of_cons in Hrun as [->|[->|[]%elem_of_nil]%elem_of_cons]; rewrite andb_false_r. }
  assert (releases (AnyPod running) (AnyPod finished) = true) as Hr2.
  { unfold releases. cbn [as_Pod IsTerminal IsNonTerminal].
    apply elem_of_cons in Hrun as [->|[->|[]%elem_of_nil]%elem_of_cons];
      by apply elem_of_cons in Hfin as [->|[->|[]%elem_of_nil]%elem_of_cons]. }
  assert (mgrV_del (as_Pod deletion) (<[n := v3]> V) = <[n := v3]> V) as Hd.
  { destruct Hdel as [->|[key ->]]; [|done]. cbn [as_Pod]. rewrite (mgrV_del_same p finished) by done.
    apply (mgrV_del_absent p _ n v3 Hn (lookup_insert_eq _ _ _)). by destruct Hrel as (_ & _ & _ & _ & -> & _). }
  eapply wp_mono; [by apply (handle_addPod_spec h m V)|]. intros _ h1 [Hwf1 Hvw1 _ _].
  cbn [as_Pod] in Hvw1. rewrite HV1 in Hvw1. exists v1. split; [done|]. split; [done|].
  eapply wp_mono; [by apply (handle_updatePod_spec h1 m (<[n := v1]> V))|]. rewrite Hr1. intros _ h2 [Hwf2 Hvw2 _ _].
  split; [congruence|]. split.
  - eapply wp_mono; [by apply (handle_deletePod_spec h2 m (<[n := v1]> V))|]. intros _ h3 [_ Hvw3 _ _].
    cbn [as_Pod] in Hvw3. rewrite (mgrV_del_same p running), HV3 in Hvw3 by done. by exists v3.
  - eapply wp_mono; [by apply (handle_updatePod_spec h2 m (<[n := v1]> V))|]. rewrite Hr2. intros _ h3 [Hwf3 Hvw3 _ _].
    cbn [as_Pod] in Hvw3. rewrite (mgrV_del_same p finished), HV3 in Hvw3 by done. exists v3.
    split; [done|]. split; [done|]. eapply wp_mono; [by apply (handle_deletePod_spec h3 m (<[n := v3]> V))|].
    rewrite Hd. intros _ h4 [_ Hvw4 _ _]. congruence.
Qed.

(** C34: a tick of the status loop changes no queue and no total, and sends one
    patch for each registered queue whose status can be marshalled, under the
    queue's name: the used amounts as they are, and the effective maximum,
    which for a resource that the queue's maximum names is the smaller of that
    amount and the cluster's total, and the cluster's total otherwise. *)
Theorem statusUpdate_correct {Bytes : Type} (json_Marshal : QueueObj → Bytes + go_error) m w V mt :
  wf (sw_heap w) → view_mgr (sw_heap w) m = Some V → total (sw_tracker w) = Some mt →
  wp (statusUpdate json_Marshal m) (λ _ w', ∃ ps (status : string → QueueV → QueueObj),
    sw_patches w' = sw_patches w ++ ps
    ∧ sw_tracker w' = sw_tracker w ∧ view_mgr (sw_heap w') m = Some V
    ∧ NoDup ps.*1
    ∧ (∀ n data, (n, data) ∈ ps ↔ ∃ v, V !! n = Some v ∧ json_Marshal (status n v) = inl data)
    ∧ ∀ n v, let s := queueStatus_Quota (queueObj_Status (status n v)) in
        quotaStatus_Used s = qv_used (v_quota v)
        ∧ ∀ r, qty (quotaStatus_EffectiveMax s) r =
            if bool_decide (r ∈ gomap_dom (qv_max (v_quota v)))
            then Z.min (qty (total (sw_tracker w)) r) (qty (qv_max (v_quota v)) r)
            else qty (total (sw_tracker w)) r) w.
Proof.
  intros Hwf HV Ht. eapply wp_mono; [by apply (statusUpdate_spec json_Marshal m w V mt)|].
  intros _ w' (ps & H1 & H2 & H3 & H4 & _ & H5). exists ps, (λ _ v, status_of (Some mt) v).
  split_and!; try done. intros n v. cbv zeta. split; [done|]. intros r. cbn [status_of status_object
    queueObj_Status queueStatus_Quota quotaStatus_EffectiveMax]. rewrite Ht. apply qty_take_min.
Qed.
End properties.

(** ** The properties at a concrete manager *)
Section witnesses.
#[local] Existing Instances c_api c_quantity c_quantity_laws c_pods c_selector.

Definition ex_obj : QueueObj := {|
  queueObj_Name := "q"; queueObj_Labels := None;
  queueObj_Spec := mkQueueSpec (mkQuotaSpec (Some ex_m)) (mkPreemptionSpec PreemptionEverything PreemptionNothing);
  queueObj_Status := mkQueueStatus (mkQuotaStatus None None);
|}.

Definition ex_running : Pod := ex_pod.
Definition ex_finished : Pod := {|
  pod_Name := "p1"; pod_Namespace := "default"; pod_UID := "p1"; pod_Labels := pod_Labels ex_pod;
  pod_DeletionTimestamp := None; pod_Containers := pod_Containers ex_pod; pod_Priority := Some 5%Z;
  pod_PreemptionPolicy := None; pod_PriorityClassName := ""; pod_SchedulerName := ""; pod_NodeName := "n1";
  pod_Phase := PodSucceeded; pod_Conditions := []; pod_NominatedNodeName := "";
|}.

Lemma queue_handlers_correct_witness :
  wp (deleteQueue 1 (AnyQueue ex_obj)) (λ _ h', view_mgr h' 1 = Some (delete "q" ex_V)) ex_heap
  ∧ addQueue 1 (AnyDeletedFinalStateUnknown "q" (AnyQueue ex_obj)) ex_heap = Panic.
Proof.
  destruct (queue_handlers_correct ex_heap 1 ex_V ex_obj ex_wf ex_view) as (_ & _ & H1 & H2). split.
  - eapply wp_mono; [exact H1|]. intros _ h' [_ Hv _ _]. exact Hv.
  - exact (proj1 (H2 (AnyDeletedFinalStateUnknown "q" (AnyQueue ex_obj)) AnyOther eq_refl)).
Defined.

Lemma pod_handlers_correct_witness :
  wp (deletePod 1 (AnyDeletedFinalStateUnknown "p1" (AnyPod ex_pod)))
    (λ _, mgr_post ex_heap 1 ex_V) ex_heap.
Proof.
  destruct (pod_handlers_correct ex_heap 1 ex_V ex_wf ex_view) as (_ & _ & _ & H).
  refine (proj2 (H "p1" ex_pod _)). discriminate.
Defined.

(** Three cpu while it runs, none any more once it has finished. *)
Lemma pod_lifecycle_witness :
  wp (addPod 1 (AnyPod ex_pod)) (λ _ h1, ∃ v1,
    view_mgr h1 1 = Some (<["q" := v1]> ex_V) ∧ qty (qv_used (v_quota v1)) "cpu" = 3%Z
    ∧ wp (updatePod 1 (AnyPod ex_pod) (AnyPod ex_running)) (λ _ h2, view_mgr h2 1 = view_mgr h1 1
      ∧ wp (updatePod 1 (AnyPod ex_running) (AnyPod ex_finished)) (λ _ h3, ∃ v3,
          view_mgr h3 1 = Some (<["q" := v3]> ex_V) ∧ qty (qv_used (v_quota v3)) "cpu" = 0%Z) h2) h1) ex_heap.
Proof.
  destruct (ex_V !! "q") as [v|] eqn:E; [|vm_compute in E; discriminate E].
  assert (qty (qv_used (v_quota v)) "cpu" = 0%Z ∧ qv_pods (v_quota v) !! "p1" = None) as [H0 Hnew].
  { vm_compute in E. injection E as <-. split; vm_compute; reflexivity. }
  eapply wp_mono; [apply (pod_lifecycle ex_heap 1 ex_V "q" v ex_pod ex_running ex_finished
      (AnyDeletedFinalStateUnknown "p1" (AnyPod ex_finished)) ex_wf ex_view eq_refl E Hnew)|].
  - split; [reflexivity|split; reflexivity].
  - split; [reflexivity|split; [reflexivity|vm_compute; reflexivity]].
  - right. left.
  - left.
  - right. exists "p1". reflexivity.
  - intros _ h1 (v1 & H1 & (_ & _ & _ & _ & _ & Hu1) & H2). exists v1. split; [exact H1|].
    split; [rewrite (Hu1 "cpu"), H0; vm_compute; reflexivity|].
    eapply wp_mono; [exact H2|]. intros _ h2 (H3 & _ & H4). split; [exact H3|].
    eapply wp_mono; [exact H4|]. intros _ h3 (v3 & H5 & (_ & _ & _ & _ & _ & Hu3) & _). exists v3.
    split; [exact H5|]. rewrite (Hu3 "cpu"). exact H0.
Defined.

(** The queue's object with a maximum of 8 cpu, and a second pod that finishes. *)
Definition ex_obj2 : QueueObj := {|
  queueObj_Name := "q"; queueObj_Labels := None;
  queueObj_Spec := mkQueueSpec (mkQuotaSpec (Some {["cpu" := (8%Z : Quantity)]})) (mkPreemptionSpec PreemptionEverything PreemptionNothing);
  queueObj_Status := mkQueueStatus (mkQuotaStatus None None);
|}.
Definition ex_finished2 : Pod := {|
  pod_Name := "p2"; pod_Namespace := "default"; pod_UID := "p2"; pod_Labels := pod_Labels ex_pod2;
  pod_DeletionTimestamp := None; pod_Containers := pod_Containers ex_pod2; pod_Priority := Some 5%Z;
  pod_PreemptionPolicy := None; pod_PriorityClassName := ""; pod_SchedulerName := ""; pod_NodeName := "n1";
  pod_Phase := PodSucceeded; pod_Conditions := []; pod_NominatedNodeName := "";
|}.

Definition ex_events : list event :=
  [EvAddPod (AnyPod ex_pod); EvAddQueue (AnyQueue ex_obj); EvAddPod (AnyPod ex_pod); EvAddPod (AnyPod ex_pod2);
   EvAddPod (AnyPod ex_resized); EvUpdatePod (AnyPod ex_pod) (AnyPod ex_running);
   EvUpdateQueue AnyOther (AnyQueue ex_obj2); EvUpdatePod (AnyPod ex_pod2) (AnyPod ex_finished2)].

Lemma ex_events_unresized : unresized ex_events.
Proof.
  intros before ev after pod n charge r He Hrel Hn Hc.
  assert (before = take 7 ex_events ∧ ev = EvUpdatePod (AnyPod ex_pod2) (AnyPod ex_finished2)) as [-> ->].
  { unfold ex_events in He.
    do 7 (destruct before as [|? before]; [injection He as <- _; vm_compute in Hrel; discriminate Hrel|];
      injection He as <- He).
    destruct before as [|? before]; [by injection He as <- _|]. injection He as _ He. by destruct before. }
  vm_compute in Hrel. injection Hrel as <-. vm_compute in Hn. injection Hn as <-.
  vm_compute in Hc. injection Hc as <-. vm_compute. reflexivity.
Qed.

(** The first addition of "p1" comes before the queue's and does not count, the
    second does; "p2" is released when it finishes. *)
Lemma Synchronizer_accounting_witness :
  ∃ m h' V' v, (m ← NewManager; st_for ex_events (handle m) ;; mret m) empty_heap = Ret (m, h')
    ∧ view_mgr h' m = Some V' ∧ V' !! "q" = Some v ∧ V' !! "r" = None
    ∧ qv_pods (v_quota v) !! "p1" = Some ex_pod ∧ qv_pods (v_quota v) !! "p2" = None
    ∧ qty (qv_max (v_quota v)) "cpu" = 8%Z
    ∧ ∀ r, qty (qv_used (v_quota v)) r = recorded_total (qv_pods (v_quota v)) r.
Proof.
  assert (Forall (λ ev, no_nil ev = true) ex_events) as Hnil by (repeat constructor).
  pose proof (Synchronizer_accounting ex_events Hnil) as H. unfold wp in H.
  destruct ((m ← NewManager; st_for ex_events (handle m) ;; mret m) empty_heap) as [[m h']|]; [|destruct H].
  destruct H as (V' & HV & H). pose proof (H "q") as Hq. pose proof (H "r") as Hr.
  assert (registered "q" (reverse ex_events) = Some ex_obj2) as Eq by (vm_compute; reflexivity).
  assert (registered "r" (reverse ex_events) = None) as Er by (vm_compute; reflexivity).
  assert (charged "q" "p1" (reverse ex_events) = Some ex_pod ∧ charged "q" "p2" (reverse ex_events) = None) as [Ep1 Ep2]
    by (split; vm_compute; reflexivity).
  rewrite Eq in Hq. rewrite Er in Hr. destruct Hq as (v & Hv & _ & Hmax & _ & _ & Hp & Hu).
  exists m, h', V', v. split; [reflexivity|]. split; [exact HV|]. split; [exact Hv|]. split; [exact Hr|].
  split; [rewrite <- Ep1; apply Hp|]. split; [rewrite <- Ep2; apply Hp|].
  split; [rewrite Hmax; vm_compute; reflexivity|]. exact (Hu ex_events_unresized).
Defined.

Definition ex_syn : syn_world (Bytes := QueueObj) :=
  mkSynWorld ex_heap (mkAggregator ∅ (Some ex_m) node_Allocatable) [].

(** The maximum of queue "q" is 10 cpu, the cluster has 5. *)
Lemma statusUpdate_correct_witness :
  ∃ w' ps, statusUpdate (Bytes := QueueObj) inl 1 ex_syn = Ret (tt, w')
    ∧ sw_patches w' = ps ∧ NoDup ps.*1
    ∧ ∃ data, ("q", data) ∈ ps
      ∧ qty (quotaStatus_EffectiveMax (queueStatus_Quota (queueObj_Status data))) "cpu" = 5%Z.
Proof.
  pose proof (statusUpdate_correct (Bytes := QueueObj) inl 1 ex_syn ex_V ex_m ex_wf ex_view eq_refl) as H.
  unfold wp in H. destruct (statusUpdate inl 1 ex_syn) as [[[] w']|]; [|destruct H].
  destruct H as (ps & status & H1 & _ & _ & H2 & H3 & H4). exists w', ps.
  split; [reflexivity|]. split; [exact H1|]. split; [exact H2|].
  destruct (ex_V !! "q") as [v|] eqn:E; [|vm_compute in E; discriminate E].
  exists (status "q" v). split; [apply H3; exists v; split; [exact E|reflexivity]|].
  rewrite (proj2 (H4 "q" v) "cpu"). vm_compute in E. injection E as <-. vm_compute. reflexivity.
Defined.
End witnesses.
