(* ===== verification/Evaluator.v ===== *)
(** * Evaluator: [internal/queue/preemption.go]

    Which pod may preempt which: the evaluator asks the priorities, the rules
    of the preemptor's queue and the rules of the victim's queue. *)

From stdpp Require Import base tactics option list gmap strings sorting relations.
From Stdlib Require Import ZArith Lia.
From S2P Require Import Prelude.
From S2P Require Import External.
From S2P Require Import Concrete.
From S2P Require Import Resources.
From S2P Require Import Api.
From S2P Require Import Match.
From S2P Require Import Store.
From S2P Require Import StoreFacts.
From S2P Require Import Quota.
From S2P Require Import Queue.
From S2P Require Import Manager.
From S2P Require Import QueueFacts.
From S2P Require Import ManagerFacts.
From S2P Require Import ManagerProps.

Section evaluator.
Context {T : ApiTypes} {Q : QuantityOps} {P : PodOps} {L : SelectorOps}.

Record PreemptionEvaluator := mkEvaluator {
  pe_queueMgr : loc;
  pe_preemptor : option Pod;
  pe_preemptorQ : option loc;
  pe_preemptorPrio : Z;
}.

(** [PodPriority] dereferences the pod. *)
Definition NewPreemptionEvaluator (queueMgr : loc) (preemptor : option Pod) : st heap PreemptionEvaluator :=
  q ← Manager_Get queueMgr preemptor;
  p ← st_some preemptor;
  mret (mkEvaluator queueMgr preemptor q (PodPriority p)).

Definition IsConfiguredForPreemption (pe : PreemptionEvaluator) : bool :=
  bool_decide (is_Some (pe_preemptorQ pe)).

Definition CanPodPreemptOthers (pe : PreemptionEvaluator) : st heap bool :=
  match pe_preemptor pe with
  | None => mret false
  | Some preemptor =>
      q ← Manager_Get (pe_queueMgr pe) (Some preemptor);
      match q with
      | None => mret false
      | Some _ =>
          preemptionCfg ← Queue_PreemptionConfig q;
          if negb (CanPreempt (Preempts preemptionCfg)) then mret false
          else
            matched ← st_lift (LabelMatcher_Matches (FromPods (Preempts preemptionCfg)) (pod_Labels preemptor));
            if negb matched then mret false else mret true
      end
  end.

Definition IsPreemptionAllowed (pe : PreemptionEvaluator) (victim : option Pod) : st heap bool :=
  match pe_preemptor pe, pe_preemptorQ pe, victim with
  | Some preemptor, Some preemptorQ, Some victim =>
      if (pe_preemptorPrio pe <=? PodPriority victim)%Z then mret false
      else
        preemptorCfg ← Queue_PreemptionConfig (Some preemptorQ);
        if negb (CanPreempt (Preempts preemptorCfg)) then mret false
        else
          m1 ← st_lift (LabelMatcher_Matches (FromPods (Preempts preemptorCfg)) (pod_Labels preemptor));
          if negb m1 then mret false
          else
            m2 ← st_lift (LabelMatcher_Matches (ToPods (Preempts preemptorCfg)) (pod_Labels victim));
            if negb m2 then mret false
            else
              victimQ ← Manager_Get (pe_queueMgr pe) (Some victim);
              match victimQ with
              | None => mret false
              | Some _ =>
                  toPreemptionCfg ← Queue_PreemptionConfig victimQ;
                  if negb (CanBePreempted (PreemptedBy toPreemptionCfg)) then mret false
                  else
                    m3 ← st_lift (LabelMatcher_Matches (ToPods (PreemptedBy toPreemptionCfg)) (pod_Labels victim));
                    if negb m3 then mret false
                    else
                      m4 ← st_lift (LabelMatcher_Matches (FromPods (PreemptedBy toPreemptionCfg)) (pod_Labels preemptor));
                      if negb m4 then mret false else mret true
              end
  | _, _, _ => mret false
  end.

(** ** Specification on values *)

(** A rule lets a pod labelled [from] preempt a pod labelled [to]. *)
Definition matches_from (rule : preemptionRule) (from : gomap string) : bool :=
  match FromPods rule, ToPods rule with
  | Some f, Some _ => Selector_Matches f from
  | _, _ => false
  end.
Definition matches_to (rule : preemptionRule) (to : gomap string) : bool :=
  match FromPods rule, ToPods rule with
  | Some _, Some t => Selector_Matches t to
  | _, _ => false
  end.

(** May [p] preempt some pod, as far as its own queue is concerned? *)
Definition can_preempt (V : ManagerV) (p : Pod) : bool :=
  match mgrV_get V (Some p) with
  | None => false
  | Some q => matches_from (Preempts (v_cfg q)) (pod_Labels p)
  end.

(** May [v] be preempted by some pod, as far as its own queue is concerned? *)
Definition can_be_preempted (q : QueueV) (v : Pod) : bool :=
  bool_decide (default "" (gomap_lookup (pod_Labels v) LabelKeyQueue) = v_name q)
  && matches_to (PreemptedBy (v_cfg q)) (pod_Labels v).

Definition allowed (V : ManagerV) (p v : Pod) : bool :=
  match mgrV_get V (Some p), mgrV_get V (Some v) with
  | Some pq, Some vq =>
      (PodPriority v <? PodPriority p)%Z
      && matches_from (Preempts (v_cfg pq)) (pod_Labels p)
      && matches_to (Preempts (v_cfg pq)) (pod_Labels v)
      && matches_to (PreemptedBy (v_cfg vq)) (pod_Labels v)
      && matches_from (PreemptedBy (v_cfg vq)) (pod_Labels p)
  | _, _ => false
  end.
End evaluator.

(** ** The evaluator computes the specification *)
Section evaluator_facts.
Context {T : ApiTypes} {Q : QuantityOps} {P : PodOps} {L : SelectorOps} {QL : QuantityLaws}.
Implicit Types (h : heap) (m : loc) (V : ManagerV) (p v : Pod).

(** An evaluator for [p] over the manager [m] with value [V]. *)
Definition pe_for h m V p (pe : PreemptionEvaluator) : Prop :=
  pe_queueMgr pe = m ∧ pe_preemptor pe = Some p ∧ pe_preemptorPrio pe = PodPriority p ∧
  match mgrV_get V (Some p) with
  | None => pe_preemptorQ pe = None
  | Some q => ∃ ql, pe_preemptorQ pe = Some ql ∧ view_queue h ql = Some q
  end.

Lemma NewPreemptionEvaluator_spec h m V p :
  wf h → view_mgr h m = Some V →
  wp (NewPreemptionEvaluator m (Some p)) (λ pe h', h' = h ∧ pe_for h m V p pe) h.
Proof.
  intros Hwf HV. unfold NewPreemptionEvaluator. apply wp_bind.
  eapply wp_mono; [by apply Manager_Get_spec|]. intros q h' [-> Hq].
  apply wp_bind, wp_some. exists p. split; [done|]. by apply wp_ret.
Qed.

Lemma wp_PreemptionConfig h ql q (K : PreemptionConfig → heap → Prop) :
  view_queue h ql = Some q → K (v_cfg q) h → wp (Queue_PreemptionConfig (Some ql)) K h.
Proof.
  intros (qu & tl & qo & Hq & _ & _ & ->)%view_queue_Some HK.
  simpl. apply wp_bind, (wp_load_queue _ qu); [done|]. by apply wp_ret.
Qed.

(** The two-step guard [rule.CanX() && rule.Matcher.Matches(labels)]. *)
Lemma wp_guard_from (rule : preemptionRule) ls (B : Type) (k1 k2 : st heap B) (K : B → heap → Prop) h :
  (matches_from rule ls = false → wp k1 K h) → (matches_from rule ls = true → wp k2 K h) →
  wp (if negb (CanPreempt rule) then k1
      else b ← st_lift (LabelMatcher_Matches (FromPods rule) ls); if negb b then k1 else k2) K h.
Proof.
  unfold CanPreempt, matches_from. destruct rule as [[f|] [t|]]; simpl; intros H1 H2; try by apply H1.
  apply wp_bind, wp_lift. exists (Selector_Matches f ls). split; [done|].
  destruct (Selector_Matches f ls); simpl; [by apply H2|by apply H1].
Qed.

Lemma wp_guard_to (rule : preemptionRule) ls (B : Type) (k1 k2 : st heap B) (K : B → heap → Prop) h :
  (matches_to rule ls = false → wp k1 K h) → (matches_to rule ls = true → wp k2 K h) →
  wp (if negb (CanBePreempted rule) then k1
      else b ← st_lift (LabelMatcher_Matches (ToPods rule) ls); if negb b then k1 else k2) K h.
Proof.
  unfold CanBePreempted, matches_to. destruct rule as [[f|] [t|]]; simpl; intros H1 H2; try by apply H1.
  apply wp_bind, wp_lift. exists (Selector_Matches t ls). split; [done|].
  destruct (Selector_Matches t ls); simpl; [by apply H2|by apply H1].
Qed.

(** A later match, once the rule is known to have its matchers. *)
Lemma wp_match_to (rule : preemptionRule) ls from (B : Type) (k1 k2 : st heap B) (K : B → heap → Prop) h :
  matches_from rule from = true →
  (matches_to rule ls = false → wp k1 K h) → (matches_to rule ls = true → wp k2 K h) →
  wp (b ← st_lift (LabelMatcher_Matches (ToPods rule) ls); if negb b then k1 else k2) K h.
Proof.
  unfold matches_from, matches_to. destruct rule as [[f|] [t|]]; simpl; intros H0 H1 H2; try done.
  apply wp_bind, wp_lift. exists (Selector_Matches t ls). split; [done|].
  destruct (Selector_Matches t ls); simpl; [by apply H2|by apply H1].
Qed.

Lemma wp_match_from (rule : preemptionRule) ls to (B : Type) (k1 k2 : st heap B) (K : B → heap → Prop) h :
  matches_to rule to = true →
  (matches_from rule ls = false → wp k1 K h) → (matches_from rule ls = true → wp k2 K h) →
  wp (b ← st_lift (LabelMatcher_Matches (FromPods rule) ls); if negb b then k1 else k2) K h.
Proof.
  unfold matches_from, matches_to. destruct rule as [[f|] [t|]]; simpl; intros H0 H1 H2; try done.
  apply wp_bind, wp_lift. exists (Selector_Matches f ls). split; [done|].
  destruct (Selector_Matches f ls); simpl; [by apply H2|by apply H1].
Qed.

Lemma CanPodPreemptOthers_spec h m V p pe :
  wf h → view_mgr h m = Some V → pe_for h m V p pe →
  wp (CanPodPreemptOthers pe) (λ b h', h' = h ∧ b = can_preempt V p) h.
Proof.
  intros Hwf HV (Hm & Hp & _). unfold CanPodPreemptOthers, can_preempt. rewrite Hp, Hm. apply wp_bind.
  eapply wp_mono; [by apply Manager_Get_spec|]. intros q h' [-> Hq].
  destruct (mgrV_get V (Some p)) as [qv|]; [|subst q; by apply wp_ret].
  destruct Hq as (ql & -> & Hql). apply wp_bind. eapply wp_PreemptionConfig; [done|].
  apply wp_guard_from; intros ->; by apply wp_ret.
Qed.

Lemma IsPreemptionAllowed_spec h m V p pe v :
  wf h → view_mgr h m = Some V → pe_for h m V p pe →
  wp (IsPreemptionAllowed pe (Some v)) (λ b h', h' = h ∧ b = allowed V p v) h.
Proof.
  intros Hwf HV (Hm & Hp & Hprio & Hq). unfold IsPreemptionAllowed, allowed. rewrite Hp, Hm, Hprio.
  destruct (mgrV_get V (Some p)) as [pq|]; [|rewrite Hq; by apply wp_ret].
  destruct Hq as (ql & -> & Hql).
  assert ((PodPriority p <=? PodPriority v)%Z = negb (PodPriority v <? PodPriority p)%Z) as -> by lia.
  destruct (PodPriority v <? PodPriority p)%Z; simpl.
  2:{ apply wp_ret. by destruct (mgrV_get V (Some v)). }
  rewrite wp_bind. eapply wp_PreemptionConfig; [done|].
  apply wp_guard_from; intros Hf.
  { apply wp_ret. rewrite Hf. by destruct (mgrV_get V (Some v)). }
  eapply wp_match_to; [exact Hf|intros Ht..].
  { apply wp_ret. rewrite Ht, andb_false_r. by destruct (mgrV_get V (Some v)). }
  apply wp_bind. eapply wp_mono; [by apply (Manager_Get_spec h m V (Some v))|]. intros q h' [-> Hq].
  destruct (mgrV_get V (Some v)) as [vq|]; [|subst q; by apply wp_ret].
  destruct Hq as (vl & -> & Hvl). rewrite Hf, Ht. rewrite wp_bind. eapply wp_PreemptionConfig; [done|].
  apply wp_guard_to; intros Hbt; rewrite Hbt; [by apply wp_ret|].
  eapply wp_match_from; [exact Hbt|intros Hbf..]; rewrite Hbf; by apply wp_ret.
Qed.

Lemma Queue_CanPodBePreemptedByOthers_spec h ql q v :
  view_queue h ql = Some q →
  wp (Queue_CanPodBePreemptedByOthers (Some ql) (Some v)) (λ b h', h' = h ∧ b = can_be_preempted q v) h.
Proof.
  intros (qu & tl & qo & Hq & _ & _ & ->)%view_queue_Some. unfold can_be_preempted. simpl.
  apply wp_bind, (wp_load_queue _ qu); [done|]. case_bool_decide; simpl; [|by apply wp_ret].
  apply wp_guard_to; intros Ht; rewrite Ht; by apply wp_ret.
Qed.
End evaluator_facts.

(** ** Properties *)
Section properties.
Context {T : ApiTypes} {Q : QuantityOps} {P : PodOps} {L : SelectorOps} {QL : QuantityLaws}.
Implicit Types (h : heap) (m : loc) (V : ManagerV) (p v : Pod).

(** The question that the scheduler puts: may [p] preempt [v]? *)
Definition ask m (p v : option Pod) : st heap bool :=
  pe ← NewPreemptionEvaluator m p; IsPreemptionAllowed pe v.

Lemma allowed_iff V p v :
  allowed V p v = true ↔ ∃ pq vq, mgrV_get V (Some p) = Some pq ∧ mgrV_get V (Some v) = Some vq
    ∧ (PodPriority v < PodPriority p)%Z
    ∧ matches_from (Preempts (v_cfg pq)) (pod_Labels p) = true
    ∧ matches_to (Preempts (v_cfg pq)) (pod_Labels v) = true
    ∧ matches_from (PreemptedBy (v_cfg vq)) (pod_Labels p) = true
    ∧ matches_to (PreemptedBy (v_cfg vq)) (pod_Labels v) = true.
Proof.
  unfold allowed. destruct (mgrV_get V (Some p)) as [pq|], (mgrV_get V (Some v)) as [vq|]; [|naive_solver..].
  rewrite !andb_true_iff, Z.ltb_lt. naive_solver.
Qed.

(** Asking whether [p] may preempt [v] computes [allowed] and changes nothing. *)
Lemma ask_spec h m V p v :
  wf h → view_mgr h m = Some V →
  wp (ask m (Some p) (Some v)) (λ b h', h' = h ∧ b = allowed V p v) h.
Proof.
  intros Hwf HV. apply wp_bind. eapply wp_mono; [by apply (NewPreemptionEvaluator_spec h m V p)|].
  intros pe h' [-> Hpe]. eapply wp_mono; [by apply (IsPreemptionAllowed_spec h m V p pe v)|].
  intros b h' [-> ->]. done.
Qed.

(** C19: the evaluator never panics, changes nothing, and allows [p] to preempt
    [v] exactly when both have a queue, [v] has strictly lower priority, the
    "preempts" rule of [p]'s queue matches both pods and the "preemptedBy" rule
    of [v]'s queue matches both pods. *)
Theorem IsPreemptionAllowed_correct h m V p v :
  wf h → view_mgr h m = Some V →
  wp (ask m (Some p) (Some v)) (λ b h', h' = h ∧ (b = true ↔
    ∃ pq vq, mgrV_get V (Some p) = Some pq ∧ mgrV_get V (Some v) = Some vq
    ∧ (PodPriority v < PodPriority p)%Z
    ∧ matches_from (Preempts (v_cfg pq)) (pod_Labels p) = true
    ∧ matches_to (Preempts (v_cfg pq)) (pod_Labels v) = true
    ∧ matches_from (PreemptedBy (v_cfg vq)) (pod_Labels p) = true
    ∧ matches_to (PreemptedBy (v_cfg vq)) (pod_Labels v) = true)) h.
Proof.
  intros Hwf HV. eapply wp_mono; [by apply ask_spec|].
  intros b h' [-> ->]. split; [done|apply allowed_iff].
Qed.

(** A victim's priority is below the preemptor's in whatever state the
    evaluator is asked. *)
Lemma ask_lower_priority m p v h h' :
  ask m (Some p) (Some v) h = Ret (true, h') → (PodPriority v < PodPriority p)%Z.
Proof.
  unfold ask, NewPreemptionEvaluator, st_some, mbind, st_bind, mret, st_ret.
  destruct (Manager_Get m (Some p) h) as [[q h1]|]; [|done].
  unfold IsPreemptionAllowed. cbn [pe_preemptor pe_preemptorQ pe_preemptorPrio].
  destruct q as [q|]; [|done]. case_match eqn:E; [done|]. intros _. lia.
Qed.

(** C28: there is no preemption loop: pods that were each allowed to preempt
    the next one never form a cycle, even when the queues and their rules
    change between one preemption and the next. *)
Theorem preemption_acyclic p :
  ¬ tc (λ a b, ∃ m h h', ask m (Some a) (Some b) h = Ret (true, h')) p p.
Proof.
  assert (∀ a b, tc (λ a b, ∃ m h h', ask m (Some a) (Some b) h = Ret (true, h')) a b →
    PodPriority b < PodPriority a)%Z as Hlt.
  { induction 1 as [a b (m & h & h' & H)|a b c (m & h & h' & H) _ IH].
    - by eapply ask_lower_priority.
    - apply ask_lower_priority in H. lia. }
  intros H. apply Hlt in H. lia.
Qed.

(** The checks that look at one side only agree with the decision: when
    the evaluator allows [p] to preempt [v], [CanPodPreemptOthers] holds of [p]
    and [CanPodBePreemptedByOthers] of [v] in its own queue. *)
Theorem IsPreemptionAllowed_consistent req h m p v h1 :
  reachable req h → is_Some (h_mgr h !! m) → ask m (Some p) (Some v) h = Ret (true, h1) →
  wp (pe ← NewPreemptionEvaluator m (Some p); CanPodPreemptOthers pe) (λ b h', b = true ∧ h' = h) h
  ∧ wp (q ← Manager_Get m (Some v); Queue_CanPodBePreemptedByOthers q (Some v))
      (λ b h', b = true ∧ h' = h) h.
Proof.
  intros Hr Hm Hask. destruct (reachable_ok req h Hr) as [Hwf Hall].
  destruct (view_mgr_exists h m Hm) as [V HV]. specialize (Hall m V HV).
  pose proof (ask_spec h m V p v Hwf HV) as Hc. unfold wp in Hc. rewrite Hask in Hc.
  destruct Hc as [-> Hc]. symmetry in Hc. apply allowed_iff in Hc as (pq & vq & Hpq & Hvq & _ & Hf & _ & _ & Ht).
  split; apply wp_bind.
  - eapply wp_mono; [by apply (NewPreemptionEvaluator_spec h m V p)|]. intros pe h' [-> Hpe].
    eapply wp_mono; [by eapply CanPodPreemptOthers_spec|]. intros b h' [-> ->]. split; [|done].
    unfold can_preempt. by rewrite Hpq.
  - eapply wp_mono; [by apply Manager_Get_spec|]. intros q h' [-> Hq].
    rewrite Hvq in Hq. destruct Hq as (ql & -> & Hql).
    eapply wp_mono; [by eapply Queue_CanPodBePreemptedByOthers_spec|]. intros b h' [-> ->]. split; [|done].
    unfold can_be_preempted. rewrite Ht, andb_true_r. apply bool_decide_eq_true.
    unfold mgrV_get, pod_queue in Hvq. simpl in Hvq.
    destruct (gomap_lookup (pod_Labels v) LabelKeyQueue) as [n|]; [|done]. simpl in *.
    symmetry. apply (Hall n vq Hvq).
Qed.
End properties.

Section witnesses.
#[local] Existing Instances c_api c_quantity c_quantity_laws c_pods c_selector.

(** The example manager, with queue "q" open to preemption of and by anyone. *)
Definition ex_cfg : PreemptionConfig :=
  (NewPreemptionConfigFromSpec (mkPreemptionSpec PreemptionEverything PreemptionEverything)).1.
Definition ex_heap_p : heap := run (run_call 1 (CallUpdate "q" [WithPreemptionConfig ex_cfg])) ex_heap.
Definition ex_victim : @Pod c_api := c_pod "v1" "q" 1 [("cpu", 8%Z)].

Lemma ex_reachable_p req : reachable req ex_heap_p.
Proof.
  eapply (reach_call _ ex_heap 1 (CallUpdate "q" [WithPreemptionConfig ex_cfg]) _ None);
    [exact (ex_reachable req)|vm_compute; by eexists| |exact I|vm_compute; reflexivity].
  constructor. constructor; [|constructor]. constructor.
Qed.

Lemma ex_wf_p : wf ex_heap_p.
Proof. apply (reachable_ok ex_req ex_heap_p (ex_reachable_p ex_req)). Qed.

Definition ex_V_p : ManagerV := default ∅ (view_mgr ex_heap_p 1).

Lemma ex_view_p : view_mgr ex_heap_p 1 = Some ex_V_p.
Proof. vm_compute. reflexivity. Qed.

Lemma IsPreemptionAllowed_correct_witness :
  ask 1 (Some ex_pod) (Some ex_victim) ex_heap_p = Ret (true, ex_heap_p)
  ∧ ∃ pq vq, mgrV_get ex_V_p (Some ex_pod) = Some pq ∧ mgrV_get ex_V_p (Some ex_victim) = Some vq
    ∧ (PodPriority ex_victim < PodPriority ex_pod)%Z.
Proof.
  pose proof (IsPreemptionAllowed_correct ex_heap_p 1 ex_V_p ex_pod ex_victim ex_wf_p ex_view_p) as H.
  unfold wp in H. destruct (ask 1 (Some ex_pod) (Some ex_victim) ex_heap_p) as [[b h']|] eqn:E; [|destruct H].
  destruct H as [-> H]. destruct b; [|vm_compute in E; discriminate E].
  split; [reflexivity|]. destruct (proj1 H eq_refl) as (pq & vq & H1 & H2 & H3 & _).
  exists pq, vq. exact (conj H1 (conj H2 H3)).
Defined.

Lemma IsPreemptionAllowed_consistent_witness :
  wp (pe ← NewPreemptionEvaluator 1 (Some ex_pod); CanPodPreemptOthers pe)
    (λ b h', b = true ∧ h' = ex_heap_p) ex_heap_p.
Proof.
  apply (IsPreemptionAllowed_consistent ex_req ex_heap_p 1 ex_pod ex_victim ex_heap_p
    (ex_reachable_p ex_req)); [vm_compute; by eexists|vm_compute; reflexivity].
Defined.
End witnesses.
