(* ===== verification/State.v ===== *)
(** * State: the plugin's entry in the scheduling cycle state

    [internal/plugin/quotaawarepreempt/state.go] and
    [internal/kubesched/cycle_state_util.go]: a snapshot of the queue manager
    is written under one key of the cycle state and read back by type. *)

From stdpp Require Import base tactics option list gmap strings sorting.
From Stdlib Require Import ZArith Lia.
From S2P Require Import Prelude.
From S2P Require Import External.
From S2P Require Import Concrete.
From S2P Require Import Resources.
From S2P Require Import Match.
From S2P Require Import Store.
From S2P Require Import Quota.
From S2P Require Import Queue.
From S2P Require Import Manager.

Definition PluginName : string := "QuotaAwarePreemption".
Definition stateKeyQueueSnapshot : string := PluginName +:+ "QueueSnapshot".

Record QueueSnapshotState := mkSnapshot { QueueMgr : loc }.

(** [fwk.StateData] values: the plugin's own, and other plugins' of type [O]. *)
Inductive StateData (O : Type) :=
| QueueSnapshotData (s : QueueSnapshotState)
| OtherData (o : O).
Arguments QueueSnapshotData {O} _.
Arguments OtherData {O} _.

Definition ErrReadState : go_error := ErrNew "failed to read from cycleState".

(** The [%q] verb on a key, which has no character to escape. *)
Definition double_quote : string := String (Ascii.ascii_of_nat 34) EmptyString.
Definition quoted (s : string) : string := double_quote +:+ s +:+ double_quote.

Section state.
Context {T : ApiTypes} {Q : QuantityOps} {P : PodOps} {L : SelectorOps}.
Context {O : Type} {C : CycleStateOps (StateData O)}.
(** The [%+v] verb on a state value. *)
Variable fmt_state : StateData O → string.

(** [rawState.(T)] is [as_T], and [type_name] the [%T] verb on it. *)
Definition ReadState {A} (as_T : StateData O → option A) (type_name : string)
    (cycleState : CycleState) (key : string) : A + go_error :=
  match CycleState_Read cycleState key with
  | inr err =>
      inr (ErrWrapf2 (error_Error ErrReadState +:+ ": error reading " +:+ quoted key
                        +:+ ": " +:+ error_Error err) ErrReadState err)
  | inl rawState =>
      match as_T rawState with
      | None =>
          inr (ErrWrapf (error_Error ErrReadState +:+ ": failed to convert state "
                           +:+ fmt_state rawState +:+ " to " +:+ type_name) ErrReadState)
      | Some state => inl state
      end
  end.

Definition as_snapshot (d : StateData O) : option QueueSnapshotState :=
  match d with QueueSnapshotData s => Some s | OtherData _ => None end.

Definition ReadQueueSnapshot (cycleState : CycleState) : QueueSnapshotState + go_error :=
  ReadState as_snapshot "*quotaawarepreempt.QueueSnapshotState" cycleState stateKeyQueueSnapshot.

Definition WriteQueueSnapshot (cycleState : CycleState) (data : QueueSnapshotState) : CycleState :=
  CycleState_Write cycleState stateKeyQueueSnapshot (QueueSnapshotData data).

Definition NewQueueSnapshotState (queueMgr : option loc) : st heap QueueSnapshotState :=
  mgr ← match queueMgr with
        | None => NewManager
        | Some qm => Manager_Clone qm
        end;
  mret (mkSnapshot mgr).

Definition QueueSnapshotState_Clone (s : QueueSnapshotState) : st heap QueueSnapshotState :=
  mgr ← Manager_Clone (QueueMgr s);
  mret (mkSnapshot mgr).
End state.

(** ** Properties *)
Section properties.
Context {T : ApiTypes} {Q : QuantityOps} {P : PodOps} {L : SelectorOps}.
Context {O : Type} {C : CycleStateOps (StateData O)} {CL : CycleStateLaws (StateData O)}.
Variable fmt_state : StateData O → string.

Lemma ReadQueueSnapshot_write (c : CycleState) s :
  ReadQueueSnapshot fmt_state (WriteQueueSnapshot c s) = inl s.
Proof. unfold ReadQueueSnapshot, WriteQueueSnapshot, ReadState. by rewrite cycle_read_write. Qed.

(** A snapshot written to the cycle state is read back, other keys are left
    alone, and a read that fails says why in an error that wraps
    [ErrReadState]. *)
Theorem ReadQueueSnapshot_roundtrip (c : CycleState) s :
  ReadQueueSnapshot fmt_state (WriteQueueSnapshot c s) = inl s
  ∧ (∀ k, k ≠ stateKeyQueueSnapshot →
      CycleState_Read (WriteQueueSnapshot c s) k = CycleState_Read c k)
  ∧ (∀ e, ReadQueueSnapshot fmt_state c = inr e →
      errors_Is e "failed to read from cycleState" = true)
  ∧ (∀ s', ReadQueueSnapshot fmt_state c = inl s' ↔
      CycleState_Read c stateKeyQueueSnapshot = inl (QueueSnapshotData s')).
Proof.
  split; [apply ReadQueueSnapshot_write|].
  unfold ReadQueueSnapshot, WriteQueueSnapshot, ReadState. split_and!.
  - intros k Hk. by apply cycle_read_write_ne.
  - destruct (CycleState_Read c stateKeyQueueSnapshot) as [d|err]; [destruct (as_snapshot d)|];
      intros e [= <-]; reflexivity.
  - intros s'. destruct (CycleState_Read c stateKeyQueueSnapshot) as [[s1|o]|err]; simpl; naive_solver.
Qed.
End properties.

Lemma ReadQueueSnapshot_roundtrip_witness :
  @ReadQueueSnapshot unit (c_cycle (StateData unit)) (λ _, "state")
    (@WriteQueueSnapshot unit (c_cycle (StateData unit)) (∅ : gmap string (StateData unit)) (mkSnapshot 7))
  = inl (mkSnapshot 7).
Proof.
  exact (proj1 (@ReadQueueSnapshot_roundtrip unit (c_cycle (StateData unit)) (c_cycle_laws (StateData unit))
    (λ _, "state") (∅ : gmap string (StateData unit)) (mkSnapshot 7))).
Defined.
