(* ===== verification/Plugin.v ===== *)
(** * Plugin: [internal/plugin/quotaawarepreempt/plugin.go]

    The extension points of the scheduler plugin.  Their state is the heap of
    queue objects and the cycle state; log output is left out. *)

From stdpp Require Import base tactics option list gmap strings sorting.
From Stdlib Require Import ZArith Lia.
From S2P Require Import Prelude.
From S2P Require Import External.
From S2P Require Import Resources.
From S2P Require Import Api.
From S2P Require Import Match.
From S2P Require Import Store.
From S2P Require Import Quota.
From S2P Require Import Queue.
From S2P Require Import Manager.
From S2P Require Import State.

Section plugin.
Context {T : ApiTypes} {Q : QuantityOps} {P : PodOps} {L : SelectorOps} {F : FrameworkOps}.
Context {I : ImmutMap} {SS : SliceSort}.
Context {O : Type} {C : CycleStateOps (StateData O)}.

Record world := mkWorld { w_heap : heap; w_state : CycleState }.

Definition on_heap {A} (m : st heap A) : st world A := λ w,
  match m (w_heap w) with
  | Ret (a, h) => Ret (a, mkWorld h (w_state w))
  | Panic => Panic
  end.

(** The parts of [fwk.Handle] and of the preemption executor that the plugin
    calls.  The shared lister and the nominator are read-only here. *)
Class HandleOps := {
  (** [fh.SnapshotSharedLister().NodeInfos()] *)
  NodeInfos_List : list NodeInfo + go_error;
  NodeInfos_Get : string → option NodeInfo * option go_error;
  NominatedPodsForNode : string → list PodInfo;
  IsPodRunningPreemption : UID → bool;
}.

(** The fields of [Plugin] that its methods read; [plugin_async] is the feature
    gate [EnableAsyncPreemption]. *)
Record Plugin := mkPlugin {
  plugin_queueMgr : loc;
  plugin_async : bool;
  plugin_args : QuotaAwarePreemptionArgs;
}.

Context {H : HandleOps}.
Variable fmt_state : StateData O → string.

Definition PreEnqueue (plugin : Plugin) (pod : Pod) : Status :=
  if negb (plugin_async plugin) then Status_nil
  else if IsPodRunningPreemption (pod_UID pod) then
    NewStatus UnschedulableAndUnresolvable ["waiting for the preemption for this pod to be finished"]
  else Status_nil.

(** The body of the loop over the pods nominated to a node. *)
Definition PreFilter_nominated (mgr : loc) (podQ : option loc) (pod : Pod) (nomPodInfo : PodInfo)
    : st heap unit :=
  let nom := PodInfo_GetPod nomPodInfo in
  if bool_decide (pod_UID nom = pod_UID pod) then mret tt
  else if (PodPriority nom <? PodPriority pod)%Z then mret tt
  else
    nomQ ← Manager_Get mgr (Some nom);
    match nomQ with
    | None => mret tt
    | Some _ =>
        nomName ← Queue_Name nomQ;
        podName ← Queue_Name podQ;
        if negb (bool_decide (nomName = podName)) then mret tt
        else
          quota ← Queue_Quota podQ;
          Quota_AddPodIfNotPresent quota [Some nom]
    end.

Definition PreFilter_count (mgr : loc) (podQ : option loc) (pod : Pod) (nodeList : list NodeInfo)
    : st heap unit :=
  st_for nodeList (λ node,
    st_for (NominatedPodsForNode (node_Name (NodeInfo_Node node))) (PreFilter_nominated mgr podQ pod)).

(** The body of [PreFilter], without the deferred write. *)
Definition PreFilter_body (mgr : loc) (pod : Pod) : st heap Status :=
  let requestedRes := FromPodReq (Some pod) in
  podQ ← Manager_Get mgr (Some pod);
  match podQ with
  | None => mret (NewStatus Success [])
  | Some _ =>
      match NodeInfos_List with
      | inr err => mret (NewStatus Error ["Error getting the node list: " +:+ error_Error err])
      | inl nodeList =>
          PreFilter_count mgr podQ pod nodeList ;;
          quota ← Queue_Quota podQ;
          over ← Quota_WouldPutOverMax quota requestedRes;
          if over : bool then
            name ← Queue_Name podQ;
            quotaString ← Quota_String quota;
            mret (NewStatus Unschedulable
              ["Not eligible for scheduling because queue " +:+ name +:+ " exceeds quota (quota="
                 +:+ quotaString +:+ ", requested=" +:+ Resources_String requestedRes +:+ ")"])
          else mret (NewStatus Success [""])
      end
  end.

(** [PreFilter] returns a nil result besides the status.  The deferred write
    runs on every return. *)
Definition PreFilter (plugin : Plugin) (pod : Pod) : st world Status :=
  qSnapshot ← on_heap (NewQueueSnapshotState (Some (plugin_queueMgr plugin)));
  status ← on_heap (PreFilter_body (QueueMgr qSnapshot) pod);
  st_modify (λ w, mkWorld (w_heap w) (WriteQueueSnapshot (w_state w) qSnapshot)) ;;
  mret status.

Definition Plugin_AddPod (podToSchedule : Pod) (podInfoToAdd : PodInfo) (nodeInfo : NodeInfo)
    : st world Status :=
  w ← st_get;
  match ReadQueueSnapshot fmt_state (w_state w) with
  | inr err => mret (NewStatus Error [error_Error err])
  | inl quotaSnapshot =>
      on_heap (Manager_AddPodIfNotPresent (QueueMgr quotaSnapshot) (Some (PodInfo_GetPod podInfoToAdd))) ;;
      mret (NewStatus Success [""])
  end.

Definition Plugin_RemovePod (podToSchedule : Pod) (podInfoToRemove : PodInfo) (nodeInfo : NodeInfo)
    : st world Status :=
  w ← st_get;
  match ReadQueueSnapshot fmt_state (w_state w) with
  | inr err => mret (NewStatus Error [error_Error err])
  | inl quotaSnapshot =>
      on_heap (Manager_DeletePodIfPresent (QueueMgr quotaSnapshot) (Some (PodInfo_GetPod podInfoToRemove))) ;;
      mret (NewStatus Success [""])
  end.

Definition Reserve (plugin : Plugin) (pod : Pod) (nodeName : string) : st world Status :=
  err ← on_heap (Manager_AddPodIfNotPresent (plugin_queueMgr plugin) (Some pod));
  match err with
  | Some err => mret (NewStatus Error [error_Error err])
  | None => mret (NewStatus Success [""])
  end.

Definition Unreserve (plugin : Plugin) (pod : Pod) (nodeName : string) : st world unit :=
  on_heap (Manager_DeletePodIfPresent (plugin_queueMgr plugin) (Some pod)) ;;
  mret tt.

(** [fwk.EventResource], [fwk.ActionType] and the hints, of which every one
    queues the pod. *)
Inductive ActionType := Update_or_Delete | All.
Inductive QueueingHint := HintQueue | HintSkip.
Record ClusterEventWithHint := mkEvent {
  ev_Resource : string;
  ev_ActionType : ActionType;
  ev_QueueingHintFn : Pod → QueueingHint;
}.

Definition EventsToRegister : list ClusterEventWithHint := [
  mkEvent "Pod" Update_or_Delete (λ pod, HintQueue);
  mkEvent QueueFQRN All (λ pod, HintQueue)
].
End plugin.
