(* ===== verification/PluginFacts.v ===== *)
(** * PluginFacts: what the plugin's extension points guarantee

    Each extension point as an operation on queue values; then the schedule of
    cycles that the framework runs, and the quota safety that follows. *)

From stdpp Require Import base tactics option list gmap strings sorting relations.
From Stdlib Require Import ZArith Lia.
From S2P Require Import Prelude.
From S2P Require Import External.
From S2P Require Import Concrete.
From S2P Require Import Resources.
From S2P Require Import Api.
From S2P Require Import Match.
From S2P Require Import Store.
From S2P Require Import StoreFacts.
From S2P Require Import Quota.
From S2P Require Import Queue.
From S2P Require Import Manager.
From S2P Require Import QueueFacts.
From S2P Require Import ManagerFacts.
From S2P Require Import ManagerProps.
From S2P Require Import State.
From S2P Require Import Plugin.

Section values.
Context {T : ApiTypes} {Q : QuantityOps} {P : PodOps} {F : FrameworkOps}.

(** Is the nominated pod [nom] counted ahead of [pod]? *)
Definition counted (pod nom : Pod) : bool :=
  negb (bool_decide (pod_UID nom = pod_UID pod))
  && (PodPriority pod <=? PodPriority nom)%Z
  && bool_decide (pod_queue (Some nom) = pod_queue (Some pod)).

Definition nominate (pod : Pod) (V : ManagerV) (nom : PodInfo) : ManagerV :=
  if counted pod (PodInfo_GetPod nom) then mgrV_add (Some (PodInfo_GetPod nom)) V else V.

(** The pods nominated to the nodes of a list, in the order they are visited. *)
Definition nominated_on {H : HandleOps} (nodes : list NodeInfo) : list PodInfo :=
  nodes ≫= λ node, NominatedPodsForNode (node_Name (NodeInfo_Node node)).

(** The snapshot that [PreFilter] leaves: the live value with the nominated
    pods counted in. *)
Definition prefilter_value {H : HandleOps} (pod : Pod) (V : ManagerV) : ManagerV :=
  match mgrV_get V (Some pod), NodeInfos_List with
  | Some _, inl nodes => foldl (nominate pod) V (nominated_on nodes)
  | _, _ => V
  end.

Definition value_over (V : ManagerV) (pod : Pod) : bool :=
  match mgrV_get V (Some pod) with
  | None => false
  | Some q => quotaV_over (v_quota q) (FromPodReq (Some pod))
  end.

(** The status [PreFilter] returns for [pod] when the live value is [V]. *)
Definition prefilter_status {H : HandleOps} (pod : Pod) (V : ManagerV) (s : Status) : Prop :=
  match mgrV_get V (Some pod), NodeInfos_List with
  | None, _ => s = NewStatus Success []
  | Some _, inr err => s = NewStatus Error ["Error getting the node list: " +:+ error_Error err]
  | Some _, inl _ =>
      if value_over (prefilter_value pod V) pod then ∃ msg, s = NewStatus Unschedulable [msg]
      else s = NewStatus Success [""]
  end.
End values.

Section prefilter.
Context {T : ApiTypes} {Q : QuantityOps} {P : PodOps} {L : SelectorOps} {F : FrameworkOps}.
Context {I : ImmutMap} {SS : SliceSort} {QL : QuantityLaws}.
Context {O : Type} {C : CycleStateOps (StateData O)} {H : HandleOps}.
Implicit Types (h : heap) (m c : loc) (V : ManagerV) (w : world).

Lemma wp_on_heap {A} (m : st heap A) (K : A → world → Prop) w :
  wp (on_heap m) K w ↔ wp m (λ a h, K a (mkWorld h (w_state w))) (w_heap w).
Proof. unfold wp, on_heap. by destruct (m (w_heap w)) as [[a h]|]. Qed.

(** The state in the middle of [PreFilter]: the snapshot [c] has value [V] and
    the pod's queue is at [ql]; the other managers are as in [h0]. *)
Record mid (h0 : heap) (c : loc) (n : string) (ql : loc) (V : ManagerV) (h : heap) : Prop := mkMid {
  mid_wf : wf h;
  mid_view : view_mgr h c = Some V;
  mid_loc : ∃ M, h_mgr h !! c = Some M ∧ queueByName M !! n = Some ql;
  mid_frame m' : m' ≠ c → view_mgr h m' = view_mgr h0 m';
}.

Lemma mid_queue h0 c n ql V h :
  mid h0 c n ql V h →
  ∃ qu tl v, h_queue h !! ql = Some qu ∧ queue_quota qu = Some tl ∧ queue_name qu = n
    ∧ V !! n = Some v ∧ view_queue h ql = Some v.
Proof.
  intros [Hwf HV (M & HM & Hn) _]. pose proof (view_mgr_lookup h c M V n Hwf HM HV) as Hl.
  rewrite Hn in Hl. destruct Hl as (v & Hv & Hq & Hname).
  pose proof Hq as (qu & tl & qo & Hqu & Ht & _ & ->)%view_queue_Some. by exists qu, tl, (mkQueueV (queue_name qu) (view_quota h qo) (queue_labels qu) (queue_preemptionCfg qu)).
Qed.

Lemma wp_Queue_Name h ql qu (K : string → heap → Prop) :
  h_queue h !! ql = Some qu → K (queue_name qu) h → wp (Queue_Name (Some ql)) K h.
Proof. intros Hq HK. simpl. apply wp_bind, (wp_load_queue _ qu); [done|]. by apply wp_ret. Qed.

Lemma wp_Queue_Quota h ql qu (K : option loc → heap → Prop) :
  h_queue h !! ql = Some qu → K (queue_quota qu) h → wp (Queue_Quota (Some ql)) K h.
Proof. intros Hq HK. simpl. apply wp_bind, (wp_load_queue _ qu); [done|]. by apply wp_ret. Qed.

Lemma PreFilter_nominated_spec h0 c n ql V h pod nom :
  mid h0 c n ql V h → pod_queue (Some pod) = Some n →
  wp (PreFilter_nominated c (Some ql) pod nom) (λ _, mid h0 c n ql (nominate pod V nom)) h.
Proof.
  intros Hmid Hn. pose proof (mid_queue _ _ _ _ _ _ Hmid) as (qu & tl & v & Hqu & Ht & Hname & Hv & Hql).
  pose proof Hmid as [Hwf HV (M & HM & HMn) Hf].
  unfold PreFilter_nominated, nominate, counted. rewrite Hn.
  set (p := PodInfo_GetPod nom). case_bool_decide; cbn [negb andb]; [by apply wp_ret|].
  rewrite Z.leb_antisym. destruct (PodPriority p <? PodPriority pod)%Z; cbn [negb andb]; [by apply wp_ret|].
  rewrite wp_bind. eapply wp_mono; [by apply (Manager_Get_spec h c V (Some p))|]. intros r h' [-> Hr].
  unfold mgrV_get in Hr. destruct (pod_queue (Some p)) as [k|] eqn:Ek; simpl in Hr.
  2:{ subst r. rewrite bool_decide_false by done. by apply wp_ret. }
  destruct (V !! k) as [vk|] eqn:EV.
  2:{ subst r. rewrite bool_decide_false by congruence. by apply wp_ret. }
  destruct Hr as (qk & -> & Hqk).
  assert (v_name vk = k) as Hvk.
  { pose proof (view_mgr_lookup h c M V k Hwf HM HV) as Hl.
    destruct (queueByName M !! k); [|congruence]. destruct Hl as (? & ? & _ & ?). congruence. }
  pose proof Hqk as (quk & tk & qok & Hquk & _ & _ & Hek)%view_queue_Some.
  rewrite wp_bind. eapply wp_Queue_Name; [done|]. rewrite wp_bind. eapply wp_Queue_Name; [done|].
  assert (queue_name quk = k) as -> by (by rewrite <- Hvk, Hek). rewrite Hname.
  case_bool_decide as Hk; cbn [negb].
  2:{ rewrite bool_decide_false by congruence. by apply wp_ret. }
  rewrite Hk in Ek. rewrite bool_decide_true by congruence. rewrite wp_bind. eapply wp_Queue_Quota; [done|].
  rewrite Ht. eapply wp_mono; [by apply (Quota_AddPodIfNotPresent_spec h ql qu tl v)|].
  intros [] h' (Hwf' & Hext & Hv' & Hqs). simpl in Hv'.
  destruct (ext_view_mgr_queue h h' c M V n ql (on_quota (quotaV_add (Some p)) v)) as [Hc Hframe]; [done..|].
  split; [done| | |].
  - rewrite Hc. unfold mgrV_add. rewrite Ek. by rewrite (alter_present _ _ _ v).
  - destruct Hext as [-> _]. by exists M.
  - intros m' Hne. rewrite Hframe by done. by apply Hf.
Qed.

Lemma PreFilter_count_spec h0 c n ql pod nodes : ∀ V h,
  mid h0 c n ql V h → pod_queue (Some pod) = Some n →
  wp (PreFilter_count c (Some ql) pod nodes)
    (λ _, mid h0 c n ql (foldl (nominate pod) V (nominated_on nodes))) h.
Proof.
  assert (∀ noms V h, mid h0 c n ql V h → pod_queue (Some pod) = Some n →
    wp (st_for noms (PreFilter_nominated c (Some ql) pod)) (λ _, mid h0 c n ql (foldl (nominate pod) V noms)) h)
    as Hnoms.
  { induction noms as [|nom noms IH]; intros V h Hm Hn; cbn [st_for foldl]; [by apply wp_ret|].
    apply wp_bind. eapply wp_mono; [by apply PreFilter_nominated_spec|]. intros a h' Hm'. by apply IH. }
  unfold PreFilter_count, nominated_on.
  induction nodes as [|node nodes IH]; intros V h Hm Hn; cbn [st_for]; [by apply wp_ret|].
  apply wp_bind. eapply wp_mono; [by apply Hnoms|]. intros a h' Hm'.
  rewrite bind_cons, foldl_app. by apply IH.
Qed.

Lemma wp_stringNoLock h tl qo (K : string → heap → Prop) :
  h_quota h !! tl = Some qo → (∀ s, K s h) → wp (Quota_stringNoLock (Some tl)) K h.
Proof.
  intros Hq HK. simpl. apply wp_bind, (wp_load_quota _ qo); [done|]. unfold load_res. wp_simpl. apply HK.
Qed.

Lemma Quota_String_spec h ql qu tl v :
  wf h → h_queue h !! ql = Some qu → queue_quota qu = Some tl → view_queue h ql = Some v →
  wp (Quota_String (Some tl)) (λ s h', wf h' ∧ ext_except ∅ h h') h.
Proof.
  intros Hwf Hq Ht Hv. unfold Quota_String. apply wp_bind.
  eapply wp_mono; [by eapply Quota_Clone_spec|]. intros r h' (tl' & qo' & -> & Hwf' & Hext & _ & Ho' & _).
  eapply wp_stringNoLock; [exact Ho'|]. by intros _.
Qed.

Lemma PreFilter_body_spec h0 c V pod :
  wf h0 → view_mgr h0 c = Some V →
  wp (PreFilter_body c pod) (λ s h, wf h ∧ view_mgr h c = Some (prefilter_value pod V)
    ∧ (∀ m', m' ≠ c → view_mgr h m' = view_mgr h0 m') ∧ prefilter_status pod V s) h0.
Proof.
  intros Hwf HV. destruct (view_mgr_mgr h0 c V HV) as [M HM].
  unfold PreFilter_body, prefilter_status, prefilter_value. rewrite wp_bind.
  destruct (mgrV_get V (Some pod)) as [v|] eqn:Ev.
  2:{ eapply wp_mono; [by apply (Manager_Get_spec h0 c V (Some pod))|]. intros r h' [-> Hr].
      rewrite Ev in Hr. subst r. by apply wp_ret. }
  unfold mgrV_get in Ev. destruct (pod_queue (Some pod)) as [n|] eqn:En; [|done]. simpl in Ev.
  unfold wp at 1. rewrite (Manager_Get_loc h0 c M (Some pod) n) by done.
  destruct (queueByName M !! n) as [ql|] eqn:Eq.
  2:{ pose proof (view_mgr_lookup h0 c M V n Hwf HM HV) as Hl. rewrite Eq in Hl. congruence. }
  destruct NodeInfos_List as [nodes|err]; [|by apply wp_ret].
  assert (mid h0 c n ql V h0) as Hmid by (split; [done|done|by exists M|done]).
  apply wp_bind. eapply wp_mono; [by apply PreFilter_count_spec|]. intros [] h1 Hmid1.
  pose proof (mid_queue _ _ _ _ _ _ Hmid1) as (qu & tl & v1 & Hqu & Ht & _ & Hv1 & Hql1).
  set (V1 := foldl _ V _) in *. destruct Hmid1 as [Hwf1 HV1 _ Hf1].
  rewrite wp_bind. eapply wp_Queue_Quota; [done|]. rewrite Ht, wp_bind. unfold wp at 1.
  rewrite (Quota_WouldPutOverMax_spec h1 ql qu tl v1) by done.
  assert (value_over V1 pod = quotaV_over (v_quota v1) (FromPodReq (Some pod))) as ->.
  { unfold value_over, mgrV_get. rewrite En. simpl. by rewrite Hv1. }
  destruct (quotaV_over _ _); [|by apply wp_ret].
  rewrite wp_bind. eapply wp_Queue_Name; [done|]. rewrite wp_bind.
  eapply wp_mono; [by apply (Quota_String_spec h1 ql qu tl v1)|]. intros str h2 [Hwf2 Hext2].
  apply wp_ret. split_and!; [done| | |by eexists].
  - by rewrite (ext_view_mgr h1 h2).
  - intros m' Hne. rewrite (ext_view_mgr h1 h2) by done. by apply Hf1.
Qed.

(** [PreFilter] from a world: the live managers are untouched and the cycle
    state now holds a new manager. *)
Lemma PreFilter_spec plugin pod w V :
  wf (w_heap w) → view_mgr (w_heap w) (plugin_queueMgr plugin) = Some V →
  wp (PreFilter plugin pod) (λ s w', ∃ c, wf (w_heap w') ∧ h_mgr (w_heap w) !! c = None
    ∧ w_state w' = WriteQueueSnapshot (w_state w) (mkSnapshot c)
    ∧ view_mgr (w_heap w') c = Some (prefilter_value pod V)
    ∧ (∀ m', m' ≠ c → view_mgr (w_heap w') m' = view_mgr (w_heap w) m')
    ∧ prefilter_status pod V s) w.
Proof.
  intros Hwf HV. unfold PreFilter, NewQueueSnapshotState. apply wp_bind, wp_on_heap, wp_bind.
  eapply wp_mono; [by apply Manager_Clone_spec|]. intros c h1 [Hc [Hwf1 HV1 Hf1 _]].
  apply wp_ret. rewrite wp_bind, wp_on_heap. cbn [w_heap QueueMgr].
  eapply wp_mono; [by apply PreFilter_body_spec|]. intros s h2 (Hwf2 & HV2 & Hf2 & Hs).
  rewrite wp_bind, wp_modify, wp_ret. cbn [w_heap w_state]. exists c. split_and!; try done.
  intros m' Hne. by rewrite Hf2, Hf1.
Qed.
End prefilter.

Section extension_points.
Context {T : ApiTypes} {Q : QuantityOps} {P : PodOps} {L : SelectorOps} {F : FrameworkOps}.
Context {I : ImmutMap} {SS : SliceSort} {QL : QuantityLaws}.
Context {O : Type} {C : CycleStateOps (StateData O)} {H : HandleOps}.
Variable fmt_state : StateData O → string.
Implicit Types (h : heap) (m c : loc) (V : ManagerV) (w : world).

(** [w'] is [w] with manager [m]'s value changed to [V']. *)
Record world_post w m V' w' : Prop := mkWorldPost {
  wp_wf : wf (w_heap w');
  wp_view : view_mgr (w_heap w') m = Some V';
  wp_frame m' : m' ≠ m → view_mgr (w_heap w') m' = view_mgr (w_heap w) m';
  wp_state : w_state w' = w_state w;
}.

Lemma Reserve_spec plugin pod node w V :
  wf (w_heap w) → view_mgr (w_heap w) (plugin_queueMgr plugin) = Some V →
  wp (Reserve plugin pod node) (λ s w',
    s = match mgrV_err ErrAddPodToQuota (Some pod) V with
        | Some err => NewStatus Error [error_Error err]
        | None => NewStatus Success [""]
        end
    ∧ world_post w (plugin_queueMgr plugin) (mgrV_add (Some pod) V) w') w.
Proof.
  intros Hwf HV. unfold Reserve. apply wp_bind, wp_on_heap.
  eapply wp_mono; [by apply Manager_AddPodIfNotPresent_spec|]. intros err h' [-> [H1 H2 H3 _]].
  destruct (mgrV_err _ _ _); by apply wp_ret.
Qed.

Lemma Unreserve_spec plugin pod node w V :
  wf (w_heap w) → view_mgr (w_heap w) (plugin_queueMgr plugin) = Some V →
  wp (Unreserve plugin pod node) (λ _, world_post w (plugin_queueMgr plugin) (mgrV_del (Some pod) V)) w.
Proof.
  intros Hwf HV. unfold Unreserve. apply wp_bind, wp_on_heap.
  eapply wp_mono; [by apply Manager_DeletePodIfPresent_spec|]. intros err h' [-> [H1 H2 H3 _]].
  by apply wp_ret.
Qed.

(** The snapshot's own extension points: on a missing snapshot an error status
    and nothing else, otherwise the pod's queue in the snapshot changes. *)
Lemma Plugin_AddPod_spec pod pi ni w s V :
  wf (w_heap w) → ReadQueueSnapshot fmt_state (w_state w) = inl s → view_mgr (w_heap w) (QueueMgr s) = Some V →
  wp (Plugin_AddPod fmt_state pod pi ni) (λ r w', r = NewStatus Success [""]
    ∧ world_post w (QueueMgr s) (mgrV_add (Some (PodInfo_GetPod pi)) V) w') w.
Proof.
  intros Hwf Hs HV. unfold Plugin_AddPod. rewrite wp_bind, wp_get, Hs. apply wp_bind, wp_on_heap.
  eapply wp_mono; [by apply Manager_AddPodIfNotPresent_spec|]. intros err h' [-> [H1 H2 H3 _]].
  by apply wp_ret.
Qed.

Lemma Plugin_RemovePod_spec pod pi ni w s V :
  wf (w_heap w) → ReadQueueSnapshot fmt_state (w_state w) = inl s → view_mgr (w_heap w) (QueueMgr s) = Some V →
  wp (Plugin_RemovePod fmt_state pod pi ni) (λ r w', r = NewStatus Success [""]
    ∧ world_post w (QueueMgr s) (mgrV_del (Some (PodInfo_GetPod pi)) V) w') w.
Proof.
  intros Hwf Hs HV. unfold Plugin_RemovePod. rewrite wp_bind, wp_get, Hs. apply wp_bind, wp_on_heap.
  eapply wp_mono; [by apply Manager_DeletePodIfPresent_spec|]. intros err h' [-> [H1 H2 H3 _]].
  by apply wp_ret.
Qed.
End extension_points.
