(* ===== verification/PluginProps.v ===== *)
(** * PluginProps: quota safety of the plugin

    The framework runs one scheduling cycle after the other, while the informers
    handle their events and failed bindings release pods.  In every execution
    the used amounts of every queue stay within its maximum, unless a maximum is
    set below them or pods are bound by others, and no admission overruns its
    queue even then. *)

From stdpp Require Import base tactics option list gmap strings sorting relations.
From Stdlib Require Import ZArith Lia.
From S2P Require Import Prelude.
From S2P Require Import External.
From S2P Require Import Concrete.
From S2P Require Import Resources.
From S2P Require Import Api.
From S2P Require Import Match.
From S2P Require Import Store.
From S2P Require Import StoreFacts.
From S2P Require Import Quota.
From S2P Require Import Queue.
From S2P Require Import Manager.
From S2P Require Import QueueFacts.
From S2P Require Import ManagerFacts.
From S2P Require Import ManagerProps.
From S2P Require Import Aggregator.
From S2P Require Import Synchronizer.
From S2P Require Import State.
From S2P Require Import Plugin.
From S2P Require Import PluginFacts.

(** ** Within quota *)
Section within.
Context {T : ApiTypes} {Q : QuantityOps} {P : PodOps} {QL : QuantityLaws}.
Implicit Types (V : ManagerV) (q : QuotaV) (max : Resources).

(** No resource that has a maximum is used beyond it.  (A negative maximum
    admits no use.) *)
Definition within (q : QuotaV) : Prop :=
  ∀ r, r ∈ gomap_dom (qv_max q) → (qty (qv_used q) r ≤ Z.max 0 (qty (qv_max q) r))%Z.

(** A new maximum that lowers none of [q]'s, and one that covers what is used. *)
Definition raises (q : QuotaV) (max : Resources) : Prop :=
  ∀ r, r ∈ gomap_dom max → r ∈ gomap_dom (qv_max q) ∧ (qty (qv_max q) r ≤ qty max r)%Z.
Definition covers (q : QuotaV) (max : Resources) : Prop :=
  ∀ r, r ∈ gomap_dom max → (qty (qv_used q) r ≤ Z.max 0 (qty max r))%Z.

(** Not more used, no maximum lowered. *)
Definition quota_le (q1 q2 : QuotaV) : Prop :=
  raises q2 (qv_max q1) ∧ ∀ r, (qty (qv_used q1) r ≤ qty (qv_used q2) r)%Z.

(** The queue [n] of [V1], if there is one, is the one of [V2] or has more room. *)
Definition le_at (n : string) (V1 V2 : ManagerV) : Prop :=
  ∀ v1, V1 !! n = Some v1 → ∃ v2, V2 !! n = Some v2 ∧ quota_le (v_quota v1) (v_quota v2).

(** Every name that a recorded pod requests has an entry in the used amounts. *)
Definition named (q : QuotaV) : Prop :=
  is_Some (qv_used q)
  ∧ ∀ u p, qv_pods q !! u = Some p → gomap_dom (FromPodReq (Some p)) ⊆ gomap_dom (qv_used q).
Definition namedV V : Prop := ∀ n v, V !! n = Some v → named (v_quota v).

#[export] Instance quota_le_preorder : PreOrder quota_le.
Proof.
  split.
  - intros q. by split.
  - intros q1 q2 q3 [H1 H2] [H3 H4]. split.
    + intros r [Hr Hle]%H1. destruct (H3 r Hr) as [? ?]. split; [done|lia].
    + intros r. specialize (H2 r). specialize (H4 r). lia.
Qed.

#[export] Instance le_at_preorder n : PreOrder (le_at n).
Proof.
  split.
  - intros V v Hv. by exists v.
  - intros V1 V2 V3 H1 H2 v Hv. destruct (H1 v Hv) as (v2 & Hv2 & Hle).
    destruct (H2 v2 Hv2) as (v3 & Hv3 & Hle'). exists v3. split; [done|]. by transitivity (v_quota v2).
Qed.

Lemma within_le q1 q2 : quota_le q1 q2 → within q2 → within q1.
Proof.
  intros [Hm Hu] Hq r Hr. destruct (Hm r Hr) as [Hr2 Hle]. specialize (Hq r Hr2). specialize (Hu r). lia.
Qed.

Lemma default_dom (o : Resources) : dom (default ∅ o) = gomap_dom o.
Proof. destruct o; simpl; [done|]. by rewrite dom_empty_L. Qed.

Lemma named_add p q : named q → named (quotaV_add (Some p) q).
Proof.
  intros [[mu Hu] Hn]. unfold quotaV_add. destruct (qv_pods q !! pod_UID p) eqn:E; [by split; [eexists|]|].
  rewrite Hu in *. rewrite res_add_Some. split; [by eexists|]. cbn [qv_pods qv_used gomap_dom].
  rewrite dom_add_map, default_dom. intros u p' [[<- <-]|[_ Hp]]%lookup_insert_Some; [set_solver|].
  specialize (Hn u p' Hp). simpl in Hn. set_solver.
Qed.

Lemma named_del p q : named q → named (quotaV_del (Some p) q).
Proof.
  intros [[mu Hu] Hn]. unfold quotaV_del. destruct (qv_pods q !! pod_UID p) eqn:E; [|by split; [eexists|]].
  rewrite Hu in *. rewrite res_sub_Some. split; [by eexists|]. cbn [qv_pods qv_used gomap_dom].
  rewrite dom_sub_map. intros u p' [_ Hp]%lookup_delete_Some. specialize (Hn u p' Hp). simpl in Hn. set_solver.
Qed.

Lemma quotaV_add_grows p q :
  is_Some (qv_used q) → res_nonneg (FromPodReq (Some p)) →
  quota_le q (quotaV_add (Some p) q)
  ∧ gomap_dom (qv_used q) ⊆ gomap_dom (qv_used (quotaV_add (Some p) q))
  ∧ is_Some (qv_used (quotaV_add (Some p) q)).
Proof.
  intros [mu Hu] Hp. unfold quotaV_add. destruct (qv_pods q !! pod_UID p).
  { split_and!; [done..|]. rewrite Hu. by eexists. }
  rewrite Hu, res_add_Some. unfold quota_le. cbn [qv_max qv_used gomap_dom]. split_and!; [by intros r| | |by eexists].
  - intros r. rewrite Hu, qty_add_map, qty_default. specialize (Hp r). lia.
  - rewrite dom_add_map. set_solver.
Qed.

(** A deletion passes a version of the recorded pod, perhaps resized, that
    requests no resource the recorded one did not, and nothing negative. *)
Definition release_fits (p : Pod) (q : QuotaV) : Prop :=
  ∀ c, qv_pods q !! pod_UID p = Some c →
    res_nonneg (FromPodReq (Some p)) ∧ gomap_dom (FromPodReq (Some p)) ⊆ gomap_dom (FromPodReq (Some c)).

Lemma quotaV_del_le p q : release_fits p q → named q → quota_le (quotaV_del (Some p) q) q.
Proof.
  intros Hfit [[mu Hu] Hn]. unfold quotaV_del. destruct (qv_pods q !! pod_UID p) as [c|] eqn:E; [|done].
  destruct (Hfit c E) as [Hnn Hd]. specialize (Hn _ c E). split; [by intros r|]. intros r. cbn [qv_used].
  rewrite Hu in Hn |- *. rewrite res_sub_Some, qty_sub_map_exact.
  - rewrite qty_default. specialize (Hnn r). lia.
  - intros Hr. rewrite qty_default. apply qty_not_in_dom. simpl in Hn. set_solver.
Qed.

(** *** The admission check

    [q] is the live quota, [qs] the one of the snapshot with the nominated
    pods; the check on [qs] makes room in anything that has no less room than [q]. *)
Lemma admit_within p q qs q2 :
  is_Some (qv_used qs) → quota_le q qs → gomap_dom (qv_used q) ⊆ gomap_dom (qv_used qs) →
  quotaV_over qs (FromPodReq (Some p)) = false →
  quota_le q2 q → is_Some (qv_used q2) → qv_pods q2 !! pod_UID p = None → within (quotaV_add (Some p) q2).
Proof.
  intros [ms Hms] [Hmax Hle] Hdom Hover [Hmax2 Hle2] [m2 Hm2] Hnew. unfold quotaV_add. rewrite Hnew.
  intros r. cbn [qv_max qv_used]. rewrite Hm2, res_add_Some, qty_add_map, qty_default. intros Hr.
  unfold quotaV_over in Hover. rewrite AnyGreaterIntersecting_false, Hms, res_add_Some in Hover.
  specialize (Hover r). cbn [gomap_dom] in Hover. rewrite dom_add_map, default_dom in Hover.
  rewrite qty_add_map, qty_default, <- Hms in Hover.
  specialize (Hle r). specialize (Hle2 r). rewrite Hm2 in Hle2. destruct (Hmax2 r Hr) as [Hr2 Hle3].
  destruct (decide (r ∈ gomap_dom (qv_used qs) ∨ r ∈ gomap_dom (FromPodReq (Some p)))) as [Hin|Hout].
  - destruct (Hmax r Hr2) as [Hrs Hle4]. rewrite Hms in Hin. specialize (Hover ltac:(simpl in Hin; set_solver) Hrs). lia.
  - rewrite (qty_not_in_dom (FromPodReq (Some p))) by tauto.
    rewrite (qty_not_in_dom (qv_used qs)) in Hle by tauto. lia.
Qed.
End within.

(** ** Executions *)
Section executions.
Context {T : ApiTypes} {Q : QuantityOps} {P : PodOps} {L : SelectorOps} {F : FrameworkOps}.
Context {I : ImmutMap} {SS : SliceSort} {QL : QuantityLaws} {FL : FrameworkLaws}.
Context {O : Type} {C : CycleStateOps (StateData O)} {CL : CycleStateLaws (StateData O)}.
Variable fmt_state : StateData O → string.
Variable plugin : Plugin.

(** The queues of which nothing is claimed: an update may set their maximum
    below what is used, and an informer may report a bound pod of theirs that
    no cycle of this scheduler has reserved. *)
Variable exempt : string → Prop.
Implicit Types (h : heap) (w : world) (V : ManagerV).

(** The API server admits non-negative requests only. *)
Definition noms_valid {H : HandleOps} : Prop :=
  ∀ node nom, nom ∈ NominatedPodsForNode node → res_nonneg (FromPodReq (Some (PodInfo_GetPod nom))).

#[local] Abbreviation live := (plugin_queueMgr plugin).

(** The maximum that a queue's object asks for. *)
Definition object_max (obj : QueueObj) : Resources := FromResourceList (quotaSpec_Max (queueSpec_Quota (queueObj_Spec obj))).

Definition release_valid V (pod : Pod) : Prop :=
  ∀ n v, pod_queue (Some pod) = Some n → V !! n = Some v → release_fits pod (v_quota v).

(** The informers' events: queues are added and deleted at will, and updated to
    a maximum that lowers none, as in every change of labels or status and
    every resync, or that covers what is used; pods are reported that are
    recorded already, or in no queue; pods are released. *)
Definition event_valid V (ev : event) : Prop :=
  match ev with
  | EvUpdateQueue _ (AnyQueue obj) => exempt (queueObj_Name obj)
      ∨ ∀ v, V !! queueObj_Name obj = Some v → raises (v_quota v) (object_max obj) ∨ covers (v_quota v) (object_max obj)
  | EvAddPod (AnyPod pod) => ∀ n v, pod_queue (Some pod) = Some n → V !! n = Some v →
      exempt n ∨ is_Some (qv_pods (v_quota v) !! pod_UID pod)
  | _ => ∀ pod, released ev = Some pod → release_valid V pod
  end.

(** The event does not make the queue [n] anew, lower its maximum or charge it. *)
Definition spares (n : string) V (ev : event) : Prop :=
  match ev with
  | EvAddQueue (AnyQueue obj) => queueObj_Name obj ≠ n
  | EvUpdateQueue _ (AnyQueue obj) => queueObj_Name obj = n → ∃ v, V !! n = Some v ∧ raises (v_quota v) (object_max obj)
  | EvAddPod (AnyPod pod) => pod_queue (Some pod) = Some n → ∀ v, V !! n = Some v → is_Some (qv_pods (v_quota v) !! pod_UID pod)
  | _ => True
  end.

(** What may happen at any time beside the scheduling goroutine's own calls, if
    [ok] allows the event: the informers' handlers run, a failed binding
    releases its pod, a status report or a dry run takes a clone of some manager,
    the preemption simulation works on the snapshot, and the cycle state is
    replaced by one without a snapshot. *)
Inductive background (ok : ManagerV → event → Prop) : world → world → Prop :=
| bg_event w V ev h' :
    view_mgr (w_heap w) live = Some V → event_valid V ev → ok V ev →
    handle live ev (w_heap w) = Ret (tt, h') → background ok w (mkWorld h' (w_state w))
| bg_unreserve w V pod node w' :
    view_mgr (w_heap w) live = Some V → release_valid V pod →
    Unreserve plugin pod node w = Ret (tt, w') → background ok w w'
| bg_clone w m c h' :
    is_Some (h_mgr (w_heap w) !! m) → Manager_Clone m (w_heap w) = Ret (c, h') → background ok w (mkWorld h' (w_state w))
| bg_sim_add w pod pi ni s w' : Plugin_AddPod fmt_state pod pi ni w = Ret (s, w') → background ok w w'
| bg_sim_remove w pod pi ni s w' : Plugin_RemovePod fmt_state pod pi ni w = Ret (s, w') → background ok w w'
| bg_cycle w c e : ReadQueueSnapshot fmt_state c = inr e → background ok w (mkWorld (w_heap w) c).

(** What may happen between [PreFilter] and [Reserve] of [pod]. *)
Definition meanwhile (pod : Pod) : world → world → Prop :=
  background (λ V ev, ∀ n, pod_queue (Some pod) = Some n → spares n V ev).

(** A step of the scheduler with this plugin.  [step_admit] is a successful
    scheduling cycle: [PreFilter] lets the pod pass, other things happen, and
    [Reserve] runs.  Each [PreFilter] sees the nodes and the nominated pods of
    its own moment. *)
Inductive step : world → world → Prop :=
| step_background w w' : background (λ _ _, True) w w' → step w w'
| step_prefilter {H : HandleOps} w pod s w' : PreFilter plugin pod w = Ret (s, w') → step w w'
| step_admit {H : HandleOps} w pod node s w1 w2 s' w3 :
    noms_valid → PreFilter plugin pod w = Ret (s, w1) → Status_IsSuccess s = true →
    rtc (meanwhile pod) w1 w2 → Reserve plugin pod node w2 = Ret (s', w3) → step w w3.

(** The invariant: the queues are within quota, the exempt ones apart, and the
    cycle's snapshot is another manager. *)
Definition withinV V : Prop := ∀ n v, V !! n = Some v → ¬ exempt n → within (v_quota v).

Record inv V w : Prop := mkInv {
  inv_wf : wf (w_heap w);
  inv_view : view_mgr (w_heap w) live = Some V;
  inv_named : namedV V;
  inv_within : withinV V;
  inv_snapshot s : ReadQueueSnapshot fmt_state (w_state w) = inl s →
    QueueMgr s ≠ live ∧ ∃ Vs, view_mgr (w_heap w) (QueueMgr s) = Some Vs;
}.

(** A change of the live manager. *)
Lemma inv_live V V' w w' :
  inv V w → world_post w live V' w' → namedV V' → withinV V' → inv V' w'.
Proof.
  intros [_ _ _ _ Hs] [H1 H2 H3 H4] Ha Hw. split; [done..|]. rewrite H4. intros s Hr.
  destruct (Hs s Hr) as (Hne & Vs & HVs). split; [done|]. exists Vs. by rewrite H3.
Qed.

Lemma mgr_world_post w m V' h' :
  mgr_post (w_heap w) m V' h' → world_post w m V' (mkWorld h' (w_state w)).
Proof. by intros [H1 H2 H3 _]. Qed.

(** *** One queue of the value changes *)
Lemma value_insert n v V :
  namedV V → withinV V → named (v_quota v) → (¬ exempt n → within (v_quota v)) →
  namedV (<[n := v]> V) ∧ withinV (<[n := v]> V).
Proof. intros HN HW Hn Hw. split; intros k w [[<- <-]|[_ Hk]]%lookup_insert_Some; eauto. Qed.

Lemma insert_le n k v V :
  (k = n → ∃ v2, V !! n = Some v2 ∧ quota_le (v_quota v) (v_quota v2)) → le_at n (<[k := v]> V) V.
Proof.
  intros Hk v1 [[Hn <-]|[_ Hv]]%lookup_insert_Some; [by apply Hk|]. by exists v1.
Qed.

Lemma value_alter f V (pod : option Pod) :
  namedV V → withinV V → (∀ q, named q → named (f q)) →
  (∀ n v, pod_queue pod = Some n → V !! n = Some v → ¬ exempt n → within (f (v_quota v))) →
  let V' := match pod_queue pod with Some n => alter (on_quota f) n V | None => V end in
  namedV V' ∧ withinV V'.
Proof.
  intros HN HW Hn Hw. cbv zeta. destruct (pod_queue pod) as [k|]; [|done].
  destruct (V !! k) as [v|] eqn:E.
  - rewrite (alter_present _ _ _ v E). apply value_insert; [done|done|apply Hn; by eapply HN|]. intros Hk. by apply (Hw k).
  - by rewrite alter_id; [|intros v' ?; congruence].
Qed.

Lemma alter_le n f V (pod : option Pod) :
  (∀ v, pod_queue pod = Some n → V !! n = Some v → quota_le (f (v_quota v)) (v_quota v)) →
  le_at n (match pod_queue pod with Some k => alter (on_quota f) k V | None => V end) V.
Proof.
  intros Hf. destruct (pod_queue pod) as [k|] eqn:Ek; [|done].
  destruct (V !! k) as [v|] eqn:E.
  - rewrite (alter_present _ _ _ v E). apply insert_le. intros ->. exists v. split; [done|]. by apply Hf.
  - by rewrite alter_id; [|intros v' ?; congruence].
Qed.

(** A release leaves every queue with more room. *)
Lemma release_value V pod :
  namedV V → withinV V → release_valid V pod →
  let V' := mgrV_del (Some pod) V in namedV V' ∧ withinV V' ∧ ∀ n, le_at n V' V.
Proof.
  intros HN HW Hfit. cbv zeta.
  assert (∀ n v, pod_queue (Some pod) = Some n → V !! n = Some v → quota_le (quotaV_del (Some pod) (v_quota v)) (v_quota v)) as Hle.
  { intros n v Hn Hv. apply quotaV_del_le; [by eapply Hfit|by eapply HN]. }
  destruct (value_alter (quotaV_del (Some pod)) V (Some pod) HN HW (λ q, named_del pod q)) as [H1 H2].
  { intros n v Hn Hv Hex. eapply within_le; [by eapply Hle|by eapply HW]. }
  split_and!; [exact H1|exact H2|]. intros n. apply alter_le. intros v Hn. by apply Hle.
Qed.

Lemma new_named n max : named (v_quota (from_object max (queueV_new n))).
Proof. split; [by eexists|]. intros u p Hp. simpl in Hp. by rewrite lookup_empty in Hp. Qed.

Lemma new_within n obj : within (v_quota (from_object obj (queueV_new n))).
Proof. intros r _. simpl. unfold gomap_make. rewrite qty_empty. lia. Qed.

Lemma event_value V ev :
  namedV V → withinV V → no_nil ev = true → event_valid V ev →
  let V' := event_effect ev V in namedV V' ∧ withinV V' ∧ ∀ n, spares n V ev → le_at n V' V.
Proof.
  intros HN HW Hnil Hev. cbv zeta.
  destruct ev as [[| |obj| |]|old [| |obj| |]|[| |obj| |]|obj|old new|obj]; try discriminate Hnil; cbn [event_effect].
  - destruct (value_insert (queueObj_Name obj) (from_object obj (queueV_new (queueObj_Name obj))) V HN HW) as [H1 H2];
      [apply new_named|intros _; apply new_within|].
    split_and!; [done|done|]. intros n Hne. by apply insert_le.
  - destruct (V !! queueObj_Name obj) as [v|] eqn:E; simpl.
    + destruct (value_insert (queueObj_Name obj) (from_object obj v) V HN HW) as [H1 H2].
      * destruct (HN _ v E) as [Hu Hn]. by split.
      * intros Hex. destruct Hev as [Hev|Hev]; [done|]. specialize (HW _ v E Hex). destruct (Hev v E) as [Hr|Hc]; [|exact Hc].
        apply (within_le _ (v_quota v)); [by split|done].
      * split_and!; [done|done|]. intros n Hsp. apply insert_le. intros <-. destruct (Hsp eq_refl) as (v2 & Hv2 & Hr).
        exists v2. split; [done|]. assert (v2 = v) as -> by congruence. by split.
    + destruct (value_insert (queueObj_Name obj) (from_object obj (queueV_new (queueObj_Name obj))) V HN HW) as [H1 H2];
        [apply new_named|intros _; apply new_within|].
      split_and!; [done|done|]. intros n Hsp. apply insert_le. intros <-. destruct (Hsp eq_refl) as (v2 & Hv2 & Hr). congruence.
  - split_and!; [by intros n v [_ Hv]%lookup_delete_Some; eapply HN|by intros n v [_ Hv]%lookup_delete_Some; eapply HW|].
    intros n _ v [_ Hv]%lookup_delete_Some. by exists v.
  - destruct obj as [|pod| | |]; try (split_and!; [done|done|]; intros n _ v Hv; by exists v). cbn [as_Pod] in *.
    assert (∀ q, is_Some (qv_pods q !! pod_UID pod) → quotaV_add (Some pod) q = q) as Hid.
    { intros q [c Hc]. unfold quotaV_add. by rewrite Hc. }
    destruct (value_alter (quotaV_add (Some pod)) V (Some pod) HN HW (λ q, named_add pod q)) as [H1 H2].
    { intros n v Hn Hv Hex. destruct (Hev n v Hn Hv) as [|Hk]; [done|]. rewrite Hid by done. by eapply HW. }
    split_and!; [exact H1|exact H2|]. intros n Hsp. apply alter_le. intros v Hn Hv. by rewrite Hid by by apply Hsp.
  - cbn [event_valid released] in Hev. destruct (releases old new); [|by split_and!].
    destruct (as_Pod new) as [pod|]; [|by split_and!]. destruct (release_value V pod HN HW (Hev pod eq_refl)) as (? & ? & ?). by split_and!.
  - cbn [event_valid released] in Hev. destruct (as_Pod obj) as [pod|]; [|by split_and!].
    destruct (release_value V pod HN HW (Hev pod eq_refl)) as (? & ? & ?). by split_and!.
Qed.

(** *** What happens in the background *)
Lemma inv_sim V w w' s Vs V' :
  inv V w → ReadQueueSnapshot fmt_state (w_state w) = inl s → view_mgr (w_heap w) (QueueMgr s) = Some Vs →
  world_post w (QueueMgr s) V' w' → inv V w'.
Proof.
  intros [Hwf HV Ha Hw Hs] Hr HVs [H1 H2 H3 H4]. destruct (Hs s Hr) as [Hne _].
  split; [done| |done|done|].
  - rewrite H3 by done. exact HV.
  - rewrite H4. intros s' Hr'. assert (s' = s) as -> by congruence. split; [done|by eexists].
Qed.

Lemma inv_clone V w m c h' :
  inv V w → is_Some (h_mgr (w_heap w) !! m) → Manager_Clone m (w_heap w) = Ret (c, h') → inv V (mkWorld h' (w_state w)).
Proof.
  intros [Hwf HV Ha Hw Hs] Hm Hc. destruct (view_mgr_exists (w_heap w) m Hm) as [Vm HVm].
  pose proof (Manager_Clone_spec (w_heap w) m Vm Hwf HVm) as Hspec. unfold wp in Hspec. rewrite Hc in Hspec.
  destruct Hspec as [Hnew [Hwf' _ Hf _]].
  assert (∀ m' V', view_mgr (w_heap w) m' = Some V' → view_mgr h' m' = Some V') as Hkeep.
  { intros m' V' HV'. rewrite Hf; [done|]. intros ->. destruct (view_mgr_mgr _ _ _ HV'). congruence. }
  split; [done|by apply Hkeep|done|done|]. cbn [w_state w_heap]. intros s Hr. destruct (Hs s Hr) as (Hne & Vs & HVs).
  split; [done|]. exists Vs. by apply Hkeep.
Qed.

Lemma background_inv ok V w w' :
  inv V w → background ok w w' →
  ∃ V', inv V' w' ∧ ∀ n, (∀ V ev, ok V ev → spares n V ev) → le_at n V' V.
Proof.
  intros Hi Hb. pose proof Hi as [Hwf HV Ha Hw Hsn].
  destruct Hb as [w V1 ev h' HV1 Hev Hok Hr|w V1 pod node w' HV1 Hfit Hr|w m c h' Hm Hr
    |w pod pi ni s w' Hr|w pod pi ni s w' Hr|w c e Hr].
  - rewrite HV in HV1. injection HV1 as <-. destruct (no_nil ev) eqn:Hnil; [|by rewrite handle_panic in Hr].
    destruct (event_value V ev Ha Hw Hnil Hev) as (Ha' & Hw' & Hle). exists (event_effect ev V). split; [|by eauto].
    pose proof (handle_spec _ _ V ev Hwf HV Hnil) as Hs. unfold wp in Hs. rewrite Hr in Hs.
    eapply inv_live; [done|by apply mgr_world_post|done|done].
  - rewrite HV in HV1. injection HV1 as <-. destruct (release_value V pod Ha Hw Hfit) as (Ha' & Hw' & Hle).
    exists (mgrV_del (Some pod) V). split; [|by auto].
    pose proof (Unreserve_spec plugin pod node w V Hwf HV) as Hs. unfold wp in Hs. rewrite Hr in Hs. by eapply inv_live.
  - exists V. split; [by eapply inv_clone|done].
  - exists V. split; [|done]. destruct (ReadQueueSnapshot fmt_state (w_state w)) as [sn|err] eqn:E.
    2:{ unfold Plugin_AddPod, mbind, st_bind, st_get in Hr. rewrite E in Hr. by injection Hr as _ <-. }
    destruct (Hsn sn eq_refl) as (_ & Vs & HVs).
    pose proof (Plugin_AddPod_spec fmt_state pod pi ni w sn Vs Hwf E HVs) as Hs. unfold wp in Hs.
    rewrite Hr in Hs. eapply inv_sim; [done|done|done|apply Hs].
  - exists V. split; [|done]. destruct (ReadQueueSnapshot fmt_state (w_state w)) as [sn|err] eqn:E.
    2:{ unfold Plugin_RemovePod, mbind, st_bind, st_get in Hr. rewrite E in Hr. by injection Hr as _ <-. }
    destruct (Hsn sn eq_refl) as (_ & Vs & HVs).
    pose proof (Plugin_RemovePod_spec fmt_state pod pi ni w sn Vs Hwf E HVs) as Hs. unfold wp in Hs.
    rewrite Hr in Hs. eapply inv_sim; [done|done|done|apply Hs].
  - exists V. split; [|done]. split; [done..|]. cbn [w_state]. intros s Hs. congruence.
Qed.

Lemma meanwhile_inv V w w' pod n :
  pod_queue (Some pod) = Some n → inv V w → rtc (meanwhile pod) w w' → ∃ V', inv V' w' ∧ le_at n V' V.
Proof.
  intros Hn Hi Hr. revert V Hi. induction Hr as [w|w w1 w2 Hr _ IH]; intros V Hi; [by exists V|].
  destruct (background_inv _ V w w1 Hi Hr) as (V1 & Hi1 & Hle1).
  destruct (IH V1 Hi1) as (V2 & Hi2 & Hle2). exists V2. split; [done|]. transitivity V1; [done|].
  apply Hle1. intros V' ev Hsp. by apply Hsp.
Qed.

Lemma meanwhile_keeps V w w' pod : inv V w → rtc (meanwhile pod) w w' → ∃ V', inv V' w'.
Proof.
  intros Hi Hr. revert V Hi. induction Hr as [w|w w1 w2 Hr _ IH]; intros V Hi; [by exists V|].
  destruct (background_inv _ V w w1 Hi Hr) as (V1 & Hi1 & _). by eapply IH.
Qed.

(** *** Admission *)

(** What the snapshot counts is at least what the live manager counts. *)
Definition grown (q qs : QuotaV) : Prop :=
  quota_le q qs ∧ gomap_dom (qv_used q) ⊆ gomap_dom (qv_used qs) ∧ is_Some (qv_used qs).

Lemma nominate_grown pod n v q noms : ∀ V,
  (∀ nom, nom ∈ noms → res_nonneg (FromPodReq (Some (PodInfo_GetPod nom)))) →
  V !! n = Some v → grown q (v_quota v) →
  ∃ vs, foldl (nominate pod) V noms !! n = Some vs ∧ grown q (v_quota vs).
Proof.
  revert v. induction noms as [|nom noms IH]; intros v V Hnn Hv Hg; simpl; [by exists v|].
  assert (∃ v1, nominate pod V nom !! n = Some v1 ∧ grown q (v_quota v1)) as (v1 & Hv1 & Hg1).
  { unfold nominate, mgrV_add. destruct (counted _ _); [|by exists v].
    destruct (pod_queue _) as [k|]; [|by exists v]. rewrite lookup_alter.
    case_decide as Hk; [subst k; rewrite Hv|by exists v]. eexists. split; [reflexivity|].
    destruct Hg as (Hle & Hd & Hmu). cbn [on_quota v_quota].
    destruct (quotaV_add_grows (PodInfo_GetPod nom) (v_quota v) Hmu) as (Hle' & Hd' & Hs').
    { apply Hnn. set_solver. }
    split_and!; [by transitivity (v_quota v)|set_solver|done]. }
  apply (IH v1); [|done|done]. intros nom' Hin. apply Hnn. set_solver.
Qed.

Section prefilter.
Context {H : HandleOps}.

Lemma prefilter_inv V w pod s w' :
  inv V w → PreFilter plugin pod w = Ret (s, w') → inv V w' ∧ prefilter_status pod V s.
Proof.
  intros Hi Hp. pose proof Hi as [Hwf HV Ha Hw _]. pose proof (PreFilter_spec plugin pod w V Hwf HV) as Hs.
  unfold wp in Hs. rewrite Hp in Hs. destruct Hs as (c & Hwf' & Hc & Hst & Hv & Hf & Hstat). split; [|done].
  assert (c ≠ live) as Hne.
  { intros ->. destruct (view_mgr_mgr _ _ _ HV). congruence. }
  split; [done| |done|done|].
  - by rewrite Hf.
  - intros s'. rewrite Hst. rewrite (ReadQueueSnapshot_write fmt_state _ _).
    intros [= <-]. split; [done|]. by eexists.
Qed.

(** The admission check makes room for the pod in every value with as much room. *)
Lemma admit_value V V2 pod s n v2 :
  noms_valid → namedV V → namedV V2 → pod_queue (Some pod) = Some n → le_at n V2 V →
  prefilter_status pod V s → Status_IsSuccess s = true →
  V2 !! n = Some v2 → qv_pods (v_quota v2) !! pod_UID pod = None → within (quotaV_add (Some pod) (v_quota v2)).
Proof.
  intros Hnoms HN HN2 En Hle Hstat Hsucc Ev2 Hnew. destruct (Hle v2 Ev2) as (v & Ev & Hq).
  unfold prefilter_status, value_over, prefilter_value in Hstat.
  assert (∀ W : ManagerV, mgrV_get W (Some pod) = W !! n) as Hget.
  { intros W. unfold mgrV_get. by rewrite En. }
  rewrite (Hget V), Ev in Hstat. apply status_success in Hsucc.
  destruct NodeInfos_List as [nodes|err].
  2:{ subst s. by rewrite status_new_code in Hsucc. }
  destruct (nominate_grown pod n v (v_quota v) (nominated_on nodes) V) as (vs & Evs & Hqs & Hd & Hms);
    [|done|split_and!; [done|done|by eapply HN]|].
  { intros nom (node & Hin & _)%list_elem_of_bind. by eapply Hnoms. }
  rewrite Hget, Evs in Hstat.
  destruct (quotaV_over (v_quota vs) _) eqn:Eo.
  { destruct Hstat as [msg ->]. by rewrite status_new_code in Hsucc. }
  eapply admit_within; [exact Hms|exact Hqs|exact Hd|exact Eo|exact Hq|by eapply HN2|exact Hnew].
Qed.

Lemma admit_inv V w pod node s w1 w2 s' w3 :
  noms_valid → inv V w → PreFilter plugin pod w = Ret (s, w1) → Status_IsSuccess s = true →
  rtc (meanwhile pod) w1 w2 → Reserve plugin pod node w2 = Ret (s', w3) →
  ∃ V2, inv V2 w2 ∧ inv (mgrV_add (Some pod) V2) w3
    ∧ ∀ n v2, pod_queue (Some pod) = Some n → V2 !! n = Some v2 → qv_pods (v_quota v2) !! pod_UID pod = None →
        within (quotaV_add (Some pod) (v_quota v2)).
Proof.
  intros Hnoms Hi Hp Hs Hrel Hr. destruct (prefilter_inv V w pod s w1 Hi Hp) as [Hi1 Hstat].
  assert (∃ V2, inv V2 w2 ∧ ∀ n, pod_queue (Some pod) = Some n → le_at n V2 V) as (V2 & Hi2 & Hle).
  { destruct (pod_queue (Some pod)) as [n|] eqn:En.
    - destruct (meanwhile_inv V w1 w2 pod n En Hi1 Hrel) as (V2 & Hi2 & Hle). exists V2. split; [done|by intros k [= <-]].
    - destruct (meanwhile_keeps V w1 w2 pod Hi1 Hrel) as [V2 Hi2]. exists V2. by split. }
  pose proof Hi2 as [Hwf2 HV2 Ha2 Hw2 _].
  assert (∀ n v2, pod_queue (Some pod) = Some n → V2 !! n = Some v2 → qv_pods (v_quota v2) !! pod_UID pod = None →
    within (quotaV_add (Some pod) (v_quota v2))) as Hadmit.
  { intros n v2 Hn Hv2 Hnew. eapply (admit_value V V2 pod s n v2); [done|apply Hi|done|done|by apply Hle|done..]. }
  exists V2. split; [done|]. split; [|done].
  pose proof (Reserve_spec plugin pod node w2 V2 Hwf2 HV2) as Hspec. unfold wp in Hspec. rewrite Hr in Hspec.
  destruct Hspec as [_ Hpost].
  destruct (value_alter (quotaV_add (Some pod)) V2 (Some pod) Ha2 Hw2 (λ q, named_add pod q)) as [H1 H2].
  { intros n v Hn Hv Hex. destruct (qv_pods (v_quota v) !! pod_UID pod) as [c|] eqn:E; [|by eapply Hadmit].
    unfold quotaV_add. rewrite E. by eapply Hw2. }
  eapply inv_live; [exact Hi2|exact Hpost|exact H1|exact H2].
Qed.
End prefilter.

Lemma step_inv V w w' : inv V w → step w w' → ∃ V', inv V' w'.
Proof.
  intros Hi Hst. destruct Hst as [w w' Hb|H w pod s w' Hp|H w pod node s w1 w2 s' w3 Hnoms Hp Hs Hrel Hr].
  - destruct (background_inv _ V w w' Hi Hb) as (V' & ? & _). by exists V'.
  - exists V. by eapply prefilter_inv.
  - destruct (admit_inv V w pod node s w1 w2 s' w3 Hnoms Hi Hp Hs Hrel Hr) as (V2 & _ & ? & _). by eexists.
Qed.

(** The start: a manager without queues, a cycle state without a snapshot. *)
Definition fresh_start w : Prop :=
  wf (w_heap w) ∧ view_mgr (w_heap w) live = Some ∅ ∧ ∃ e, ReadQueueSnapshot fmt_state (w_state w) = inr e.

Lemma steps_inv w w' : fresh_start w → rtc step w w' → ∃ V', inv V' w'.
Proof.
  intros (Hwf & HV & [e He]) Hst. assert (∃ V0, inv V0 w) as Hi.
  { exists ∅. split; [done|done| | |congruence]; intros n v Hn; by rewrite lookup_empty in Hn. }
  clear Hwf HV He. induction Hst as [w|w w1 w2 Hs _ IH]; [done|].
  apply IH. destruct Hi as [V0 Hi]. by eapply step_inv.
Qed.


End executions.

(** ** The extension points one by one *)
Section properties.
Context {T : ApiTypes} {Q : QuantityOps} {P : PodOps} {L : SelectorOps} {F : FrameworkOps}.
Context {I : ImmutMap} {SS : SliceSort} {QL : QuantityLaws} {FL : FrameworkLaws}.
Context {O : Type} {C : CycleStateOps (StateData O)} {CL : CycleStateLaws (StateData O)} {H : HandleOps}.
Variable fmt_state : StateData O → string.
Implicit Types (w : world) (V : ManagerV).

(** C18: [PreFilter] never panics and leaves every manager that exists as it
    was; the cycle state then holds a new snapshot of the live manager with the
    pods counted in that are nominated to some node, belong to the pod's queue
    and have at least its priority; the status is Success when the pod has no
    queue or its request fits on top of that snapshot's used amounts,
    Unschedulable when it does not fit, and Error when the nodes cannot be
    listed. *)
Theorem PreFilter_correct plugin pod w V :
  wf (w_heap w) → view_mgr (w_heap w) (plugin_queueMgr plugin) = Some V →
  wp (PreFilter plugin pod) (λ s w', ∃ c,
      ReadQueueSnapshot fmt_state (w_state w') = inl (mkSnapshot c)
      ∧ h_mgr (w_heap w) !! c = None
      ∧ view_mgr (w_heap w') c = Some (prefilter_value pod V)
      ∧ (∀ m', m' ≠ c → view_mgr (w_heap w') m' = view_mgr (w_heap w) m')
      ∧ Status_Code s =
          match mgrV_get V (Some pod), NodeInfos_List with
          | None, _ => Success
          | Some _, inr _ => Error
          | Some _, inl _ => if value_over (prefilter_value pod V) pod then Unschedulable else Success
          end) w.
Proof.
  intros Hwf HV. eapply wp_mono; [by apply PreFilter_spec|].
  intros s w' (c & Hwf' & Hc & Hst & Hv & Hf & Hs). exists c.
  rewrite Hst, (ReadQueueSnapshot_write fmt_state _ _). split_and!; [done..|].
  unfold prefilter_status in Hs. destruct (mgrV_get V (Some pod)); [|by rewrite Hs, status_new_code].
  destruct NodeInfos_List; [|by rewrite Hs, status_new_code].
  destruct (value_over _ _); [destruct Hs as [msg ->]|rewrite Hs]; by rewrite status_new_code.
Qed.

(** [Reserve] records the pod in the live manager, succeeds exactly when
    the pod has no queue label or its queue exists, and a following [Unreserve]
    of a pod that was not recorded restores the recorded pods and every
    amount. *)
Theorem Reserve_Unreserve plugin pod node w V :
  wf (w_heap w) → view_mgr (w_heap w) (plugin_queueMgr plugin) = Some V →
  wp (s ← Reserve plugin pod node; Unreserve plugin pod node ;; mret s) (λ s w', ∃ V',
      view_mgr (w_heap w') (plugin_queueMgr plugin) = Some V' ∧ w_state w' = w_state w
      ∧ (Status_IsSuccess s = true ↔ ∀ n, pod_queue (Some pod) = Some n → is_Some (V !! n))
      ∧ dom V' = dom V
      ∧ ∀ n v, V !! n = Some v → (pod_queue (Some pod) = Some n → qv_pods (v_quota v) !! pod_UID pod = None) →
          ∃ v', V' !! n = Some v' ∧ quotaV_equiv (v_quota v') (v_quota v)) w.
Proof.
  intros Hwf HV. apply wp_bind. eapply wp_mono; [by apply Reserve_spec|].
  intros s w1 [-> [Hwf1 HV1 _ Hs1]]. apply wp_bind. eapply wp_mono; [by apply Unreserve_spec|].
  intros [] w2 [Hwf2 HV2 _ Hs2]. apply wp_ret. exists (mgrV_del (Some pod) (mgrV_add (Some pod) V)).
  split_and!; [done|congruence|..].
  - rewrite status_success. unfold mgrV_err.
    destruct (pod_queue (Some pod)) as [n|]; simpl; [|rewrite status_new_code; naive_solver].
    destruct (V !! n) as [v|] eqn:E; rewrite status_new_code; [naive_solver|].
    split; [done|]. intros Hall. destruct (Hall n eq_refl). congruence.
  - unfold mgrV_del, mgrV_add. destruct (pod_queue (Some pod)); [by rewrite !dom_alter_L|done].
  - intros n v Hv Hnew. unfold mgrV_del, mgrV_add.
    destruct (pod_queue (Some pod)) as [k|]; [|by exists v].
    destruct (decide (k = n)) as [->|Hk]; [|rewrite !lookup_alter_ne by done; by exists v].
    rewrite !lookup_alter_eq, Hv. eexists. split; [reflexivity|]. cbn [on_quota v_quota].
    destruct (wf_view_used _ _ V n v Hwf HV Hv) as [mu Hmu]. apply (quotaV_del_add pod _ mu Hmu). by apply Hnew.
Qed.

(** The preemption simulation works on the cycle's snapshot only:
    [AddPod] and [RemovePod] answer Success and change the snapshot's value
    for that pod, whether or not the pod's queue exists, and no other manager;
    without a snapshot they answer Error and change nothing. *)
Theorem AddPod_RemovePod_correct pod pi ni w :
  wf (w_heap w) →
  match ReadQueueSnapshot fmt_state (w_state w) with
  | inr e =>
      Plugin_AddPod fmt_state pod pi ni w = Ret (NewStatus Error [error_Error e], w)
      ∧ Plugin_RemovePod fmt_state pod pi ni w = Ret (NewStatus Error [error_Error e], w)
  | inl s => ∀ V, view_mgr (w_heap w) (QueueMgr s) = Some V →
      wp (Plugin_AddPod fmt_state pod pi ni) (λ r w', Status_IsSuccess r = true
        ∧ view_mgr (w_heap w') (QueueMgr s) = Some (mgrV_add (Some (PodInfo_GetPod pi)) V)
        ∧ w_state w' = w_state w
        ∧ ∀ m', m' ≠ QueueMgr s → view_mgr (w_heap w') m' = view_mgr (w_heap w) m') w
      ∧ wp (Plugin_RemovePod fmt_state pod pi ni) (λ r w', Status_IsSuccess r = true
        ∧ view_mgr (w_heap w') (QueueMgr s) = Some (mgrV_del (Some (PodInfo_GetPod pi)) V)
        ∧ w_state w' = w_state w
        ∧ ∀ m', m' ≠ QueueMgr s → view_mgr (w_heap w') m' = view_mgr (w_heap w) m') w
  end.
Proof.
  intros Hwf. destruct (ReadQueueSnapshot fmt_state (w_state w)) as [s|e] eqn:E.
  - assert (Status_IsSuccess (NewStatus Success [""]) = true) as Hok.
    { apply status_success. by rewrite status_new_code. }
    intros V HV. split.
    + eapply wp_mono; [by apply (Plugin_AddPod_spec fmt_state pod pi ni w s V)|].
      intros r w' [-> [H1 H2 H3 H4]]. split_and!; [exact Hok|exact H2|exact H4|exact H3].
    + eapply wp_mono; [by apply (Plugin_RemovePod_spec fmt_state pod pi ni w s V)|].
      intros r w' [-> [H1 H2 H3 H4]]. split_and!; [exact Hok|exact H2|exact H4|exact H3].
  - unfold Plugin_AddPod, Plugin_RemovePod, mbind, st_bind, st_get. by rewrite E.
Qed.

(** [PreEnqueue] gates a pod exactly when asynchronous preemption is on
    and the pod's own preemption is still running. *)
Theorem PreEnqueue_correct plugin pod :
  Status_Code (PreEnqueue plugin pod) =
    (if plugin_async plugin && IsPodRunningPreemption (pod_UID pod)
     then UnschedulableAndUnresolvable else Success).
Proof.
  unfold PreEnqueue. destruct (plugin_async plugin); simpl; [|apply status_nil_code].
  destruct (IsPodRunningPreemption _); [apply status_new_code|apply status_nil_code].
Qed.
End properties.

(** ** The properties at a concrete cluster *)
Section witnesses.
#[local] Existing Instances c_api c_quantity c_quantity_laws c_pods c_selector c_framework
  c_framework_laws c_immut c_sort.
#[local] Instance w_cycle : CycleStateOps (StateData unit) := c_cycle (StateData unit).
#[local] Instance w_cycle_laws : CycleStateLaws (StateData unit) := c_cycle_laws (StateData unit).

(** One node, to which the pod "nom" of queue "q" with priority 7 is nominated. *)
Definition w_nom : @Pod c_api := c_pod "nom" "q" 7 [("cpu", 4%Z)].
#[local] Instance w_handle : HandleOps := {|
  NodeInfos_List := inl [((c_node "n1" [("cpu", 100%Z)], []) : @NodeInfo c_api c_framework)];
  NodeInfos_Get name := (None, Some (ErrNew "not found"));
  NominatedPodsForNode name := [w_nom : @PodInfo c_api c_framework];
  IsPodRunningPreemption u := false;
|}.
Definition w_fmt (d : StateData unit) : string := "state".
Definition w_plugin : Plugin := mkPlugin 1 true (mkArgs (mkArgsPreemptionConfig None)).

(** A fresh manager, its queue "q" with a maximum of 8 cpu, one admitted pod,
    and an update that sets the maximum to 5 cpu. *)
Definition w0 : world := mkWorld ex_h1 (∅ : gmap string (StateData unit)).
Definition after {A} (m : st world A) (w : world) : world := match m w with Ret (_, w') => w' | Panic => w end.
Definition informed (ev : event) (w : world) : world := after (on_heap (handle 1 ev)) w.
Definition w2 : world := informed (EvAddQueue (AnyQueue ex_obj2)) w0.
Definition w3 : world := after (PreFilter w_plugin ex_pod) w2.
Definition w4 : world := after (Reserve w_plugin ex_pod "n1") w3.
Definition w5 : world := informed (EvUpdateQueue (AnyQueue ex_obj2) (AnyQueue ex_obj)) w4.

Lemma w0_wf : wf (w_heap w0).
Proof.
  apply (reachable_ok ex_req). eapply (reach_new _ empty_heap 1%positive); [constructor|vm_compute; reflexivity].
Qed.

Lemma w0_fresh : fresh_start w_fmt w_plugin w0.
Proof. split; [exact w0_wf|]. split; [vm_compute; reflexivity|]. eexists. vm_compute. reflexivity. Qed.

Lemma w2_wf : wf (w_heap w2).
Proof.
  assert (view_mgr (w_heap w0) 1 = Some ∅) as HV by (vm_compute; reflexivity).
  pose proof (handle_spec (w_heap w0) 1 ∅ (EvAddQueue (AnyQueue ex_obj2)) w0_wf HV eq_refl) as Hs.
  unfold w2, informed, after, on_heap. unfold wp in Hs.
  destruct (handle 1 (EvAddQueue (AnyQueue ex_obj2)) (w_heap w0)) as [[[] h']|]; [|destruct Hs]. by destruct Hs.
Qed.

Lemma w_noms_valid : noms_valid.
Proof.
  intros node nom [->|[]%elem_of_nil]%elem_of_cons. intros n. unfold qty, res_get.
  assert (FromPodReq (Some (PodInfo_GetPod (w_nom : @PodInfo c_api c_framework)))
    = Some (<["pods" := (10 ^ 9)%Z : @Quantity c_api]> {["cpu" := (4%Z : @Quantity c_api)]})) as ->
    by (vm_compute; reflexivity).
  unfold gomap_lookup. simpl. rewrite lookup_insert. case_decide; [done|].
  destruct (decide (n = "cpu")) as [->|]; [by rewrite lookup_singleton_eq|by rewrite lookup_singleton_ne].
Qed.

Lemma after_Ret {A} (f : A → bool) (m : st world A) w :
  match m w with Ret (a, _) => f a | Panic => false end = true → ∃ a, m w = Ret (a, after m w) ∧ f a = true.
Proof. unfold after. destruct (m w) as [[a w']|]; [|done]. intros Hf. by exists a. Qed.

Lemma w_informed exempt ok ev w V :
  view_mgr (w_heap w) 1 = Some V → event_valid exempt V ev → ok V ev → no_nil ev = true →
  wf (w_heap w) → background w_fmt w_plugin exempt ok w (informed ev w).
Proof.
  intros HV Hev Hok Hnil Hwf. pose proof (handle_spec (w_heap w) 1 V ev Hwf HV Hnil) as Hs. unfold wp in Hs.
  unfold informed, after, on_heap. destruct (handle 1 ev (w_heap w)) as [[[] h']|] eqn:Hr; [|destruct Hs].
  by eapply (bg_event _ w_plugin).
Qed.

(** The live manager of a world that an execution reaches. *)
Lemma w_view exempt w :
  rtc (step w_fmt w_plugin exempt) w0 w → ∃ V, view_mgr (w_heap w) 1 = Some V ∧ wf (w_heap w).
Proof. intros Hst. destruct (steps_inv w_fmt w_plugin exempt w0 w w0_fresh Hst) as [V [H1 H2 _ _ _]]. by exists V. Qed.

Lemma w_event exempt ev w :
  rtc (step w_fmt w_plugin exempt) w0 w → no_nil ev = true →
  (∀ V, view_mgr (w_heap w) 1 = Some V → event_valid exempt V ev) →
  rtc (step w_fmt w_plugin exempt) w0 (informed ev w).
Proof.
  intros Hst Hnil Hev. destruct (w_view exempt w Hst) as (V & HV & Hwf). eapply rtc_r; [exact Hst|].
  apply step_background. eapply w_informed; [exact HV|by apply Hev|done|done|done].
Qed.

(** A fact about the queue "q" of a world's live manager. *)
Definition w_queue (w : world) : option QueueV := V ← view_mgr (w_heap w) 1; V !! "q".

Lemma w_queue_Some w V v : view_mgr (w_heap w) 1 = Some V → V !! "q" = Some v → w_queue w = Some v.
Proof. unfold w_queue. by intros ->. Qed.

Lemma w_steps : rtc (step w_fmt w_plugin (λ _, False)) w0 w5.
Proof.
  assert (rtc (step w_fmt w_plugin (λ _, False)) w0 w2) as H2.
  { apply w_event; [constructor|reflexivity|]. intros V _ pod [=]. }
  assert (rtc (step w_fmt w_plugin (λ _, False)) w0 w4) as H4.
  { eapply rtc_r; [exact H2|].
    destruct (after_Ret Status_IsSuccess (PreFilter w_plugin ex_pod) w2) as (s & Hp & Hs); [vm_compute; reflexivity|].
    destruct (after_Ret (λ _, true) (Reserve w_plugin ex_pod "n1") w3) as (s' & Hr & _); [vm_compute; reflexivity|].
    exact (step_admit w_fmt w_plugin _ w2 ex_pod "n1" s w3 w3 s' w4 w_noms_valid Hp Hs (rtc_refl _ _) Hr). }
  apply w_event; [exact H4|reflexivity|]. intros V EV. right. intros v Hv. right. intros r Hr.
  pose proof (w_queue_Some w4 V v EV Hv) as Hq.
  assert (gomap_dom (object_max ex_obj) = {["cpu"]}) as Hd by (vm_compute; reflexivity).
  rewrite Hd, elem_of_singleton in Hr. subst r.
  assert (match w_queue w4 with Some v => (qty (qv_used (v_quota v)) "cpu" <=? 5)%Z | None => false end = true) as H
    by (vm_compute; reflexivity).
  rewrite Hq in H. apply Z.leb_le in H. etransitivity; [exact H|]. vm_compute. discriminate.
Qed.


(** A queue with 5 cpu to which the informer reports the bound pod "p2" of 4 cpu;
    the maximum is raised to 12, [ex_pod] passes, "p2" goes, [ex_pod] is reserved. *)
Definition w_obj : QueueObj := {|
  queueObj_Name := "q"; queueObj_Labels := None;
  queueObj_Spec := mkQueueSpec (mkQuotaSpec (Some {["cpu" := (12%Z : Quantity)]})) (mkPreemptionSpec PreemptionEverything PreemptionNothing);
  queueObj_Status := mkQueueStatus (mkQuotaStatus None None);
|}.
Definition a1 : world := informed (EvAddQueue (AnyQueue ex_obj)) w0.
Definition a2 : world := informed (EvAddPod (AnyPod ex_pod2)) a1.
Definition a3 : world := informed (EvUpdateQueue (AnyQueue ex_obj) (AnyQueue w_obj)) a2.
Definition a4 : world := after (PreFilter w_plugin ex_pod) a3.
Definition a5 : world := informed (EvDeletePod (AnyPod ex_pod2)) a4.
Definition a6 : world := after (Reserve w_plugin ex_pod "n1") a5.

Lemma a_steps : rtc (step w_fmt w_plugin (λ _, True)) w0 a3.
Proof.
  apply w_event; [|reflexivity|by left]. apply w_event; [|reflexivity|by left].
  apply w_event; [constructor|reflexivity|]. intros V _ pod [=].
Qed.

Lemma a_prefilter : ∃ s, PreFilter w_plugin ex_pod a3 = Ret (s, a4) ∧ Status_IsSuccess s = true.
Proof. apply after_Ret. vm_compute. reflexivity. Qed.

Lemma a_view : ∃ V, view_mgr (w_heap a4) 1 = Some V ∧ wf (w_heap a4).
Proof.
  destruct a_prefilter as (s & Hp & _). apply (w_view (λ _, True)). eapply rtc_r; [exact a_steps|].
  by eapply step_prefilter.
Qed.

Lemma a_meanwhile : rtc (meanwhile w_fmt w_plugin (λ _, True) ex_pod) a4 a5.
Proof.
  eapply (rtc_l _ _ a5); [|constructor]. destruct a_view as (V & EV & Hwf).
  eapply w_informed; [exact EV| |done|reflexivity|exact Hwf].
  intros pod [= <-] n v Hn Hv c Hc. assert (n = "q") as -> by (vm_compute in Hn; by injection Hn).
  pose proof (w_queue_Some a4 V v EV Hv) as Hq.
  assert ((v ← w_queue a4; qv_pods (v_quota v) !! "p2") = Some ex_pod2) as Hp by (vm_compute; reflexivity).
  rewrite Hq in Hp. cbn in Hp. change (pod_UID ex_pod2) with "p2" in Hc. assert (c = ex_pod2) as -> by congruence.
  split; [|done]. intros r. unfold qty, res_get.
  assert (FromPodReq (Some ex_pod2) = Some (<["pods" := (10 ^ 9)%Z : @Quantity c_api]>
    (<["gpu" := (1%Z : @Quantity c_api)]> {["cpu" := (4%Z : @Quantity c_api)]}))) as -> by (vm_compute; reflexivity).
  unfold gomap_lookup. simpl. rewrite !lookup_insert. repeat (case_decide; [done|]).
  by destruct (decide (r = "cpu")) as [->|]; [rewrite lookup_singleton_eq|rewrite lookup_singleton_ne].
Qed.

(** Before the reservation: nothing used any more, and no "p1". *)
Lemma a_before : ∃ V v, view_mgr (w_heap a5) 1 = Some V ∧ V !! "q" = Some v
  ∧ qty (qv_used (v_quota v)) "cpu" = 0%Z ∧ qty (qv_max (v_quota v)) "cpu" = 12%Z
  ∧ "cpu" ∈ gomap_dom (qv_max (v_quota v)) ∧ qv_pods (v_quota v) !! "p1" = None.
Proof.
  assert (match w_queue a5 with
    | Some v => (qty (qv_used (v_quota v)) "cpu" =? 0)%Z && (qty (qv_max (v_quota v)) "cpu" =? 12)%Z
        && bool_decide ("cpu" ∈ gomap_dom (qv_max (v_quota v))) && bool_decide (qv_pods (v_quota v) !! "p1" = None)
    | None => false end = true) as Hc by (vm_compute; reflexivity).
  unfold w_queue in Hc. destruct (view_mgr (w_heap a5) 1) as [V|]; [|discriminate Hc]. cbn in Hc.
  destruct (V !! "q") as [v|] eqn:E; [|discriminate Hc]. exists V, v.
  apply andb_true_iff in Hc as [Hc H4%bool_decide_eq_true].
  apply andb_true_iff in Hc as [Hc H3%bool_decide_eq_true]. apply andb_true_iff in Hc as [H1%Z.eqb_eq H2%Z.eqb_eq]. done.
Qed.

Lemma a_reserve : ∃ s, Reserve w_plugin ex_pod "n1" a5 = Ret (s, a6).
Proof. destruct (after_Ret (λ _, true) (Reserve w_plugin ex_pod "n1") a5) as (s & H & _); [vm_compute; reflexivity|by exists s]. Qed.


(** With "nom" ahead, the request of 3 cpu fits: 4 + 3 is at most 8. *)
Lemma PreFilter_correct_witness :
  ∃ s w', PreFilter w_plugin ex_pod w2 = Ret (s, w') ∧ Status_Code s = Success.
Proof.
  destruct (view_mgr (w_heap w2) 1) as [V|] eqn:EV; [|vm_compute in EV; discriminate EV].
  pose proof (PreFilter_correct w_fmt w_plugin ex_pod w2 V w2_wf EV) as H.
  assert (match PreFilter w_plugin ex_pod w2 with Ret (s, _) => Status_Code s | Panic => Error end = Success) as Hc
    by (vm_compute; reflexivity).
  unfold wp in H. destruct (PreFilter w_plugin ex_pod w2) as [[s w']|]; [|destruct H].
  exists s, w'. exact (conj eq_refl Hc).
Defined.

Lemma Reserve_Unreserve_witness :
  ∃ s w' V', (s ← Reserve w_plugin ex_pod "n1"; Unreserve w_plugin ex_pod "n1" ;; mret s) w2 = Ret (s, w')
    ∧ view_mgr (w_heap w') 1 = Some V'.
Proof.
  destruct (view_mgr (w_heap w2) 1) as [V|] eqn:EV; [|vm_compute in EV; discriminate EV].
  pose proof (Reserve_Unreserve w_plugin ex_pod "n1" w2 V w2_wf EV) as H. unfold wp in H.
  destruct ((s ← Reserve w_plugin ex_pod "n1"; Unreserve w_plugin ex_pod "n1" ;; mret s) w2) as [[s w']|];
    [|destruct H].
  destruct H as (V' & HV' & _). exists s, w', V'. exact (conj eq_refl HV').
Defined.

(** After [PreFilter] there is a snapshot to add the pod to. *)
Lemma w3_wf : wf (w_heap w3).
Proof.
  destruct (view_mgr (w_heap w2) 1) as [V|] eqn:EV; [|vm_compute in EV; discriminate EV].
  pose proof (PreFilter_spec w_plugin ex_pod w2 V w2_wf EV) as H. unfold wp in H. unfold w3, after.
  destruct (PreFilter w_plugin ex_pod w2) as [[s w']|]; [|destruct H]. by destruct H as (c & H & _).
Qed.

Lemma AddPod_RemovePod_correct_witness :
  ∃ r w', Plugin_AddPod w_fmt ex_pod (w_nom : @PodInfo c_api c_framework)
    ((c_node "n1" [], []) : @NodeInfo c_api c_framework) w3 = Ret (r, w') ∧ Status_IsSuccess r = true.
Proof.
  pose proof (AddPod_RemovePod_correct w_fmt ex_pod (w_nom : @PodInfo c_api c_framework)
    ((c_node "n1" [], []) : @NodeInfo c_api c_framework) w3 w3_wf) as H.
  destruct (ReadQueueSnapshot w_fmt (w_state w3)) as [s|e] eqn:E; [|vm_compute in E; discriminate E].
  assert (QueueMgr s = 2%positive) as Hs.
  { assert (match ReadQueueSnapshot w_fmt (w_state w3) with inl s => QueueMgr s | inr _ => 1%positive end = 2%positive)
      as Hr by (vm_compute; reflexivity).
    rewrite E in Hr. exact Hr. }
  destruct (view_mgr (w_heap w3) 2) as [V|] eqn:EV; [|vm_compute in EV; discriminate EV].
  rewrite Hs in H. destruct (H V EV) as [Ha _]. unfold wp in Ha.
  destruct (Plugin_AddPod w_fmt ex_pod (w_nom : @PodInfo c_api c_framework)
    ((c_node "n1" [], []) : @NodeInfo c_api c_framework) w3) as [[r w']|]; [|destruct Ha].
  exists r, w'. exact (conj eq_refl (proj1 Ha)).
Defined.

Lemma PreEnqueue_correct_witness : Status_Code (PreEnqueue w_plugin ex_pod) = Success.
Proof. exact (PreEnqueue_correct w_plugin ex_pod). Defined.
End witnesses.
