(* ===== verification/ValueEquiv.v ===== *)
(** * ValueEquiv: queue values up to the representation of amounts

    Adding a pod and deleting it again restores every amount but may leave
    zero entries behind, so the preemption simulation is compared up to
    [Vequiv]: same queues, maxima and recorded pods, equal amounts. *)

From stdpp Require Import base tactics option list gmap strings sorting.
From Stdlib Require Import ZArith Lia.
From S2P Require Import Prelude.
From S2P Require Import External.
From S2P Require Import Resources.
From S2P Require Import Api.
From S2P Require Import Match.
From S2P Require Import Store.
From S2P Require Import StoreFacts.
From S2P Require Import QueueFacts.
From S2P Require Import ManagerFacts.
From S2P Require Import ManagerProps.
From S2P Require Import Plugin.
From S2P Require Import PluginFacts.
From S2P Require Import PluginProps.

#[local] Arguments pod_queue : simpl never.

Section equiv.
Context {T : ApiTypes} {Q : QuantityOps} {P : PodOps} {QL : QuantityLaws}.
Implicit Types (V : ManagerV) (q : QuotaV) (v : QueueV) (p : Pod).

(** Equal up to amounts, and with the same nil-ness of the used map. *)
Definition quota_eqv q1 q2 : Prop :=
  quotaV_equiv q1 q2 ∧ (is_Some (qv_used q1) ↔ is_Some (qv_used q2)).

Definition queue_eqv v1 v2 : Prop :=
  v_name v1 = v_name v2 ∧ v_labels v1 = v_labels v2 ∧ v_cfg v1 = v_cfg v2
  ∧ quota_eqv (v_quota v1) (v_quota v2).

Definition Vequiv V1 V2 : Prop := ∀ n, option_Forall2 queue_eqv (V1 !! n) (V2 !! n).

#[export] Instance quota_eqv_equivalence : Equivalence quota_eqv.
Proof.
  split.
  - intros q. split; [|done]. by split_and!.
  - intros q1 q2 [(H1 & H2 & H3) H4]. split; [|by symmetry]. split_and!; [done|done|by symmetry].
  - intros q1 q2 q3 [(H1 & H2 & H3) H4] [(H1' & H2' & H3') H4']. split; [|by rewrite H4].
    split_and!; [congruence|congruence|by etransitivity].
Qed.

#[export] Instance queue_eqv_equivalence : Equivalence queue_eqv.
Proof.
  split.
  - intros v. by split_and!.
  - intros v1 v2 (H1 & H2 & H3 & H4). split_and!; by symmetry.
  - intros v1 v2 v3 (H1 & H2 & H3 & H4) (H1' & H2' & H3' & H4').
    split_and!; [congruence|congruence|congruence|by etransitivity].
Qed.

#[export] Instance Vequiv_equivalence : Equivalence Vequiv.
Proof.
  split.
  - intros V n. destruct (V !! n); by constructor.
  - intros V1 V2 H n. destruct (H n); by constructor.
  - intros V1 V2 V3 H1 H2 n. specialize (H1 n). specialize (H2 n).
    destruct H1 as [v1 v2 H1|]; inversion H2; subst; constructor. by etransitivity.
Qed.

#[export] Instance quotaV_add_proper pod : Proper (quota_eqv ==> quota_eqv) (quotaV_add pod).
Proof.
  intros q1 q2 [(Hm & Hp & Hu) Hs]. unfold quotaV_add. destruct pod as [p|]; [|by split].
  rewrite Hp. destruct (qv_pods q2 !! pod_UID p); [by split|].
  unfold quota_eqv, quotaV_equiv. cbn [qv_max qv_used qv_pods].
  destruct (qv_used q1) as [m1|] eqn:E1, (qv_used q2) as [m2|] eqn:E2.
  - rewrite !res_add_Some. split; [|by split; eexists]. split_and!; [done|done|]. intros r.
    rewrite !qty_add_map. specialize (Hu r). lia.
  - exfalso. by destruct (proj1 Hs ltac:(by eexists)).
  - exfalso. by destruct (proj2 Hs ltac:(by eexists)).
  - split; [|done]. by split_and!.
Qed.

#[export] Instance on_quota_proper f :
  Proper (quota_eqv ==> quota_eqv) f → Proper (queue_eqv ==> queue_eqv) (on_quota f).
Proof. intros Hf v1 v2 (H1 & H2 & H3 & H4). split_and!; [done..|]. by apply Hf. Qed.

#[export] Instance mgrV_add_proper pod : Proper (Vequiv ==> Vequiv) (mgrV_add pod).
Proof.
  intros V1 V2 HV. unfold mgrV_add. destruct (pod_queue pod) as [n|]; [|done].
  intros k. specialize (HV k). destruct (decide (n = k)) as [->|Hk]; [|by rewrite !lookup_alter_ne].
  rewrite !lookup_alter_eq. destruct HV as [v1 v2 HV|]; constructor.
  apply on_quota_proper; [apply quotaV_add_proper|done].
Qed.

(** ** Recorded pods *)
Definition recorded V p : Prop := ∃ v, mgrV_get V (Some p) = Some v ∧ is_Some (qv_pods (v_quota v) !! pod_UID p).

Lemma recorded_equiv V1 V2 p : Vequiv V1 V2 → recorded V1 p → recorded V2 p.
Proof.
  intros HV (v & Hv & Hp). unfold mgrV_get in Hv.
  destruct (pod_queue (Some p)) as [n|] eqn:En; [|done]. simpl in Hv.
  pose proof (HV n) as Hn. rewrite Hv in Hn. inversion Hn as [? v2 Heq|]; subst.
  exists v2. unfold mgrV_get. rewrite En. simpl. split; [done|].
  destruct Heq as (_ & _ & _ & (_ & Heq & _) & _). by rewrite <- Heq.
Qed.

Lemma recorded_add V p p' : recorded (mgrV_add (Some p') V) p → pod_UID p = pod_UID p' ∨ recorded V p.
Proof.
  intros (v & Hv & Hp). unfold recorded. unfold mgrV_get, mgrV_add in *.
  destruct (pod_queue (Some p)) as [n|]; [|done]. simpl in *.
  destruct (pod_queue (Some p')) as [k|]; [|right; by exists v].
  rewrite lookup_alter in Hv. case_decide; [|right; by exists v]. subst k.
  destruct (V !! n) as [w|]; simplify_eq/=. unfold quotaV_add in Hp.
  destruct (qv_pods (v_quota w) !! pod_UID p') eqn:E; [right; by exists w|]. cbn [qv_pods] in Hp.
  rewrite lookup_insert in Hp. case_decide as Hd; [by left|right; by exists w].
Qed.

Lemma recorded_del V p p' :
  recorded (mgrV_del (Some p') V) p → recorded V p ∧ (pod_UID p = pod_UID p' → pod_queue (Some p) ≠ pod_queue (Some p')).
Proof.
  intros (v & Hv & Hp). unfold recorded. unfold mgrV_get, mgrV_del in *.
  destruct (pod_queue (Some p)) as [n|]; [|done]. simpl in *.
  destruct (pod_queue (Some p')) as [k|]; [|split; [by exists v|congruence]].
  rewrite lookup_alter in Hv. case_decide as Hk; [|split; [by exists v|congruence]]. subst k.
  destruct (V !! n) as [w|]; simplify_eq/=. unfold quotaV_del in Hp.
  destruct (qv_pods (v_quota w) !! pod_UID p') eqn:E.
  - cbn [qv_pods] in Hp. rewrite lookup_delete in Hp. case_decide; [by destruct Hp|].
    split; [by exists w|congruence].
  - split; [by exists w|]. intros He. rewrite He, E in Hp. by destruct Hp.
Qed.

(** Adding a pod that is not recorded and deleting it again. *)
Lemma mgrV_del_add V p :
  (∀ n v, V !! n = Some v → is_Some (qv_used (v_quota v))) → ¬ recorded V p →
  Vequiv (mgrV_del (Some p) (mgrV_add (Some p) V)) V.
Proof.
  intros Hs Hn. unfold mgrV_del, mgrV_add. destruct (pod_queue (Some p)) as [n|] eqn:En; [|done].
  intros k. destruct (decide (n = k)) as [->|Hk]; [|rewrite !lookup_alter_ne by done; by destruct (V !! k); constructor].
  rewrite !lookup_alter_eq. destruct (V !! k) as [v|] eqn:E; simpl; constructor.
  split_and!; [done..|]. cbn [on_quota v_quota]. destruct (Hs k v E) as [mu Hmu].
  assert (qv_pods (v_quota v) !! pod_UID p = None) as Hnew.
  { apply eq_None_not_Some. intros Hp. apply Hn. exists v. unfold mgrV_get. rewrite En. simpl. by rewrite E. }
  split; [by eapply quotaV_del_add|]. unfold quotaV_add. rewrite Hnew. unfold quotaV_del.
  cbn [qv_pods qv_used]. rewrite lookup_insert_eq. cbn [qv_used]. rewrite Hmu, res_add_Some, res_sub_Some.
  split; by eexists.
Qed.

(** ** The quota check *)

(** The queue of [p] has no negative maximum. *)
Definition max_nonneg V p : Prop :=
  ∀ v r, mgrV_get V (Some p) = Some v → r ∈ gomap_dom (qv_max (v_quota v)) → (0 ≤ qty (qv_max (v_quota v)) r)%Z.

(** Then the check compares amounts only. *)
Lemma value_over_spec V p v mu :
  max_nonneg V p → mgrV_get V (Some p) = Some v → qv_used (v_quota v) = Some mu →
  value_over V p = false ↔
  ∀ r, r ∈ gomap_dom (qv_max (v_quota v)) →
    (qty (qv_used (v_quota v)) r + qty (FromPodReq (Some p)) r ≤ qty (qv_max (v_quota v)) r)%Z.
Proof.
  intros Hmax Hv Hu. unfold value_over. rewrite Hv. unfold quotaV_over.
  rewrite Hu, res_add_Some, AnyGreaterIntersecting_false. cbn [gomap_dom]. rewrite dom_add_map.
  split; intros Hle r.
  - intros Hr. specialize (Hle r). rewrite qty_add_map, qty_default in Hle.
    destruct (decide (r ∈ dom mu ∪ dom (default ∅ (FromPodReq (Some p))))) as [Hin|Hout]; [by apply Hle|].
    specialize (Hmax v r Hv Hr). rewrite (qty_not_in_dom (Some mu)) by (simpl; set_solver).
    rewrite (qty_not_in_dom (FromPodReq (Some p))); [lia|]. destruct (FromPodReq (Some p)); simpl in *; set_solver.
  - intros _ Hr. rewrite qty_add_map, qty_default. by apply Hle.
Qed.

Lemma value_over_equiv V1 V2 p :
  Vequiv V1 V2 → (∀ n v, V1 !! n = Some v → is_Some (qv_used (v_quota v))) → max_nonneg V1 p →
  value_over V1 p = value_over V2 p ∧ max_nonneg V2 p.
Proof.
  intros HV Hs Hmax.
  assert (option_Forall2 queue_eqv (mgrV_get V1 (Some p)) (mgrV_get V2 (Some p))) as Hg.
  { unfold mgrV_get. destruct (pod_queue (Some p)) as [n|]; simpl; [apply HV|constructor]. }
  assert (max_nonneg V2 p) as Hmax2.
  { intros v2 r Hv2. rewrite Hv2 in Hg. inversion Hg as [v1 ? (_ & _ & _ & (Hm & _) & _) Hv1|]; subst.
    rewrite <- Hm. by apply Hmax. }
  split; [|done]. destruct (mgrV_get V1 (Some p)) as [v1|] eqn:E1.
  2:{ unfold value_over. rewrite E1. destruct (mgrV_get V2 (Some p)); [by inversion Hg|done]. }
  destruct (mgrV_get V2 (Some p)) as [v2|] eqn:E2; [|by inversion Hg].
  inversion Hg as [? ? Heq|]; subst. destruct Heq as (_ & _ & _ & (Hm & _ & Hu) & Hsome).
  destruct (proj1 Hsome) as [mu2 Hmu2].
  { unfold mgrV_get in E1. destruct (pod_queue (Some p)); [by eapply Hs|done]. }
  destruct (proj2 Hsome) as [mu1 Hmu1]; [by eexists|].
  assert (value_over V1 p = false ↔ value_over V2 p = false) as Hiff.
  { rewrite (value_over_spec V1 p v1 mu1), (value_over_spec V2 p v2 mu2) by done. rewrite Hm.
    split; intros Hle r Hr; specialize (Hle r Hr); specialize (Hu r); lia. }
  destruct (value_over V1 p), (value_over V2 p); naive_solver.
Qed.
Lemma max_nonneg_add V pod (p : option Pod) : max_nonneg V pod → max_nonneg (mgrV_add p V) pod.
Proof.
  intros Hm v r. unfold mgrV_get, mgrV_add in *. specialize (λ w, Hm w r). unfold mgrV_get in Hm.
  destruct (pod_queue (Some pod)) as [n|]; [|done]. cbn [mbind option_bind] in *.
  destruct (pod_queue p) as [k|]; [|by apply Hm]. rewrite lookup_alter. case_decide; [|by apply Hm].
  subst k. destruct (V !! n) as [w|]; [|done]. intros [= <-]. cbn [on_quota v_quota].
  assert (qv_max (quotaV_add p (v_quota w)) = qv_max (v_quota w)) as ->; [|by apply Hm].
  unfold quotaV_add. destruct p as [p|]; [|done]. by destruct (qv_pods (v_quota w) !! pod_UID p).
Qed.

Lemma max_nonneg_del V pod (p : option Pod) : max_nonneg V pod → max_nonneg (mgrV_del p V) pod.
Proof.
  intros Hm v r. unfold mgrV_get, mgrV_del in *. specialize (λ w, Hm w r). unfold mgrV_get in Hm.
  destruct (pod_queue (Some pod)) as [n|]; [|done]. cbn [mbind option_bind] in *.
  destruct (pod_queue p) as [k|]; [|by apply Hm]. rewrite lookup_alter. case_decide; [|by apply Hm].
  subst k. destruct (V !! n) as [w|]; [|done]. intros [= <-]. cbn [on_quota v_quota].
  assert (qv_max (quotaV_del p (v_quota w)) = qv_max (v_quota w)) as ->; [|by apply Hm].
  unfold quotaV_del. destruct p as [p|]; [|done]. by destruct (qv_pods (v_quota w) !! pod_UID p).
Qed.


(** ** Order of additions *)
Definition all_used V : Prop := ∀ n v, V !! n = Some v → is_Some (qv_used (v_quota v)).

Lemma quotaV_add_used pod q : is_Some (qv_used q) → is_Some (qv_used (quotaV_add pod q)).
Proof.
  intros [mu Hu]. unfold quotaV_add. destruct pod as [p|]; [|by eexists].
  destruct (qv_pods q !! pod_UID p); [by eexists|]. cbn [qv_used]. rewrite Hu, res_add_Some. by eexists.
Qed.

Lemma all_used_add V pod : all_used V → all_used (mgrV_add pod V).
Proof.
  intros Hs n v. unfold mgrV_add. destruct (pod_queue pod) as [k|]; [|apply Hs].
  rewrite lookup_alter. case_decide; [|apply Hs]. subst k.
  destruct (V !! n) as [w|] eqn:E; [|done]. intros [= <-]. by eapply quotaV_add_used, Hs.
Qed.

Lemma all_used_equiv V1 V2 : Vequiv V1 V2 → all_used V1 → all_used V2.
Proof.
  intros HV Hs n v Hn. specialize (HV n). rewrite Hn in HV.
  inversion HV as [v1 ? (_ & _ & _ & _ & Hu) Hv1|]; subst. apply Hu. by eapply Hs.
Qed.

Lemma quotaV_add_comm p1 p2 q :
  pod_UID p1 ≠ pod_UID p2 → is_Some (qv_used q) →
  quota_eqv (quotaV_add (Some p1) (quotaV_add (Some p2) q)) (quotaV_add (Some p2) (quotaV_add (Some p1) q)).
Proof.
  intros Hne Hs. split.
  2:{ split; intros _; by do 2 apply quotaV_add_used. }
  destruct Hs as [mu Hu]. unfold quotaV_add.
  destruct (qv_pods q !! pod_UID p1) eqn:E1, (qv_pods q !! pod_UID p2) eqn:E2; cbn [qv_pods];
    rewrite ?E1, ?E2, ?lookup_insert_ne, ?E1, ?E2 by congruence; [by split_and!..|].
  split_and!; cbn [qv_pods qv_max qv_used]; [done|by apply insert_insert_ne|].
  rewrite Hu, !res_add_Some. intros r. rewrite !qty_add_map. lia.
Qed.

Lemma mgrV_add_comm V p1 p2 :
  pod_UID p1 ≠ pod_UID p2 → all_used V →
  Vequiv (mgrV_add (Some p1) (mgrV_add (Some p2) V)) (mgrV_add (Some p2) (mgrV_add (Some p1) V)).
Proof.
  intros Hne Hs. unfold mgrV_add.
  destruct (pod_queue (Some p1)) as [n1|], (pod_queue (Some p2)) as [n2|]; try reflexivity.
  destruct (decide (n1 = n2)) as [<-|Hn]; [|by rewrite alter_alter_ne].
  intros k. destruct (decide (n1 = k)) as [->|Hk]; [|rewrite !lookup_alter_ne by done; by destruct (V !! k); constructor].
  rewrite !lookup_alter_eq. destruct (V !! k) as [v|] eqn:E; simpl; constructor.
  split_and!; [done..|]. cbn [on_quota v_quota]. apply quotaV_add_comm; [done|by eapply Hs].
Qed.

(** More recorded pods never make room. *)
Lemma value_over_antitone V pod p :
  max_nonneg V pod → all_used V → res_nonneg (FromPodReq (Some p)) →
  value_over (mgrV_add (Some p) V) pod = false → value_over V pod = false.
Proof.
  intros Hmax Hs Hp Hov. destruct (mgrV_get V (Some pod)) as [v|] eqn:Ev.
  2:{ unfold value_over. by rewrite Ev. }
  assert (∃ v', mgrV_get (mgrV_add (Some p) V) (Some pod) = Some v'
    ∧ quota_le (v_quota v) (v_quota v')) as (v' & Ev' & Hm & Hle).
  { unfold mgrV_get, mgrV_add in *. destruct (pod_queue (Some pod)) as [n|]; [|done]. cbn [mbind option_bind] in *.
    destruct (pod_queue (Some p)) as [k|]; [|by exists v]. rewrite lookup_alter. case_decide; [|by exists v].
    subst k. rewrite Ev. eexists. split; [done|]. cbn [on_quota v_quota].
    by apply (quotaV_add_grows p _ (Hs n v Ev) Hp). }
  assert (∀ W w, all_used W → mgrV_get W (Some pod) = Some w → ∃ mu, qv_used (v_quota w) = Some mu) as Hus.
  { intros W w HW Hw. unfold mgrV_get in Hw. destruct (pod_queue (Some pod)); [|done]. by eapply HW. }
  destruct (Hus V v Hs Ev) as [mu Hmu]. destruct (Hus _ v' (all_used_add V (Some p) Hs) Ev') as [mu' Hmu'].
  apply (value_over_spec V pod v mu Hmax Ev Hmu). intros r Hr.
  pose proof (proj1 (value_over_spec _ pod v' mu' (max_nonneg_add V pod (Some p) Hmax) Ev' Hmu') Hov r) as Hle'.
  destruct (Hm r Hr) as [Hr' Hmax']. specialize (Hle' Hr'). specialize (Hle r). lia.
Qed.
End equiv.
