(* ===== verification/Preemptor.v ===== *)
(** * Preemptor: [internal/plugin/quotaawarepreempt/preemption.go]

    The preemption callbacks: whether a pod may preempt at all, which pods on
    a node are potential victims, and which of them are victims after as many
    as possible have been reprieved.  The simulation on a node threads the
    queue heap, the cycle state, the node and the victims found so far. *)

From stdpp Require Import base tactics option list gmap strings sorting.
From Stdlib Require Import ZArith Lia.
From S2P Require Import Prelude.
From S2P Require Import External.
From S2P Require Import Resources.
From S2P Require Import Api.
From S2P Require Import Pods.
From S2P Require Import Match.
From S2P Require Import PdbEval.
From S2P Require Import Store.
From S2P Require Import Quota.
From S2P Require Import Queue.
From S2P Require Import Manager.
From S2P Require Import Evaluator.
From S2P Require Import State.
From S2P Require Import Plugin.

Section preemptor.
Context {T : ApiTypes} {Q : QuantityOps} {P : PodOps} {L : SelectorOps} {F : FrameworkOps}.
Context {I : ImmutMap} {SS : SliceSort}.
Context {O : Type} {C : CycleStateOps (StateData O)} {H : HandleOps}.
Variable fmt_state : StateData O → string.

(** The framework runs the extension points of all plugins, this one's
    included, on the cycle state and the node it is given. *)
Class RunOps := {
  RunPreFilterExtensionAddPod : Pod → PodInfo → NodeInfo → st world Status;
  RunPreFilterExtensionRemovePod : Pod → PodInfo → NodeInfo → st world Status;
  RunFilterPluginsWithNominatedPods : world → Pod → NodeInfo → Status;
}.
Context {R : RunOps}.

(** *** CandidatesToVictimsMap, GetOffsetAndNumCandidates, OrderedScoreFuncs *)
Definition CandidatesToVictimsMap {Candidate Victims : Type} (Candidate_Name : Candidate → string)
    (Candidate_Victims : Candidate → Victims) (candidates : list Candidate) : gmap string Victims :=
  foldl (λ m c, <[Candidate_Name c := Candidate_Victims c]> m) ∅ candidates.

(** [rand31] is what [rand.Int31] returned. *)
Definition GetOffsetAndNumCandidates (cfg : ArgsPreemptionConfig) (rand31 nodes : Z) : Z * Z :=
  let nodes := match MaxCandidateNodes cfg with None => nodes | Some max => Z.min nodes max end in
  (rand31, Z.max 1 nodes).

Definition OrderedScoreFuncs {Victims : Type} (nodesToVictims : gmap string Victims) : list (string → Z) := [].

(** *** PodEligibleToPreemptOthers *)
Definition terminating_victim_reason : string :=
  "Not eligible to preempt due to a terminating preemption victim on the nominated node.".

(** The loop over the pods of the nominated node on the quota-aware path. *)
Fixpoint eligible_loop (mgr : loc) (preemptorQ : option loc) (preemptorPriority : Z)
    (wouldBeOverQuota : bool) (victims : list PodInfo) : st heap (bool * string) :=
  match victims with
  | [] => mret (true, "")
  | victimInfo :: victims =>
      let continue := eligible_loop mgr preemptorQ preemptorPriority wouldBeOverQuota victims in
      let victim := PodInfo_GetPod victimInfo in
      if negb (TerminatingByPreemption victim) then continue
      else if (preemptorPriority <=? PodPriority victim)%Z then continue
      else
        victimQ ← Manager_Get mgr (Some victim);
        match victimQ with
        | None => continue
        | Some _ =>
            can ← Queue_CanPodBePreemptedByOthers victimQ (Some victim);
            if negb can then continue
            else
              n1 ← Queue_Name preemptorQ;
              n2 ← Queue_Name victimQ;
              if bool_decide (n1 = n2) then mret (false, terminating_victim_reason)
              else if negb (bool_decide (n1 = n2)) && negb wouldBeOverQuota
                then mret (false, terminating_victim_reason)
              else continue
        end
  end.

(** The same loop on the vanilla path. *)
Fixpoint eligible_loop_vanilla (mgr : loc) (preemptorPriority : Z) (victims : list PodInfo)
    : st heap (bool * string) :=
  match victims with
  | [] => mret (true, "")
  | victimInfo :: victims =>
      let continue := eligible_loop_vanilla mgr preemptorPriority victims in
      let victim := PodInfo_GetPod victimInfo in
      if negb (TerminatingByPreemption victim) then continue
      else
        victimQuota ← Manager_Get mgr (Some victim);
        match victimQuota with
        | Some _ => continue
        | None =>
            if (PodPriority victim <? preemptorPriority)%Z
            then mret (false, "Not eligible to preempt due to a terminating pod on the nominated node.")
            else continue
        end
  end.

Definition PodEligibleToPreemptOthers (cycleState : CycleState) (pod : Pod) (nominatedNodeStatus : Status)
    : st heap (bool * string) :=
  if negb (PolicyAllowsPreemption (Some pod))
  then mret (false, "Not eligible to preempt due to configured preemptionPolicy")
  else
    match ReadQueueSnapshot fmt_state cycleState with
    | inr err =>
        mret (false, "Not eligible to preempt due to failed to read queue snapshot from cycleState.")
    | inl queueSnapshot =>
        preemptEvaluator ← NewPreemptionEvaluator (QueueMgr queueSnapshot) (Some pod);
        can ← CanPodPreemptOthers preemptEvaluator;
        if negb can
        then mret (false, "Not eligible to preempt due to queue's preemption config not allowing preemption.")
        else if bool_decide (pod_NominatedNodeName pod = "") then mret (true, "")
        else if bool_decide (Status_Code nominatedNodeStatus = UnschedulableAndUnresolvable)
          then mret (true, "")
        else
          match NodeInfos_Get (pod_NominatedNodeName pod) with
          | (Some nodeInfo, None) =>
              let requestedRes := FromPodReq (Some pod) in
              let preemptorPriority := PodPriority pod in
              preemptorQ ← Manager_Get (QueueMgr queueSnapshot) (Some pod);
              match preemptorQ with
              | Some _ =>
                  quota ← Queue_Quota preemptorQ;
                  wouldBeOverQuota ← Quota_WouldPutOverMax quota requestedRes;
                  eligible_loop (QueueMgr queueSnapshot) preemptorQ preemptorPriority wouldBeOverQuota
                    (NodeInfo_GetPods nodeInfo)
              | None =>
                  eligible_loop_vanilla (QueueMgr queueSnapshot) preemptorPriority (NodeInfo_GetPods nodeInfo)
              end
          | _ => mret (false, "Unable to find info of nominated node.")
          end
    end.

(** *** findPotentialVictims *)
Fixpoint potential_loop (pe : PreemptionEvaluator) (infos potentialVictims : list PodInfo)
    : st heap (list PodInfo) :=
  match infos with
  | [] => mret potentialVictims
  | victimInfo :: infos =>
      allowed ← IsPreemptionAllowed pe (Some (PodInfo_GetPod victimInfo));
      if negb allowed then potential_loop pe infos potentialVictims
      else potential_loop pe infos (potentialVictims ++ [victimInfo])
  end.

Fixpoint potential_loop_vanilla (mgr : loc) (preemptorPrio : Z) (infos potentialVictims : list PodInfo)
    : st heap (list PodInfo) :=
  match infos with
  | [] => mret potentialVictims
  | victimInfo :: infos =>
      victimQ ← Manager_Get mgr (Some (PodInfo_GetPod victimInfo));
      match victimQ with
      | Some _ => potential_loop_vanilla mgr preemptorPrio infos potentialVictims
      | None =>
          if (preemptorPrio <=? PodPriority (PodInfo_GetPod victimInfo))%Z
          then potential_loop_vanilla mgr preemptorPrio infos potentialVictims
          else potential_loop_vanilla mgr preemptorPrio infos (potentialVictims ++ [victimInfo])
      end
  end.

Definition findPotentialVictims (preemptorPod : Pod) (queueSnapshot : QueueSnapshotState)
    (nodeInfo : NodeInfo) : st heap (list PodInfo) :=
  preemptEvaluator ← NewPreemptionEvaluator (QueueMgr queueSnapshot) (Some preemptorPod);
  if IsConfiguredForPreemption preemptEvaluator
  then potential_loop preemptEvaluator (NodeInfo_GetPods nodeInfo) []
  else potential_loop_vanilla (QueueMgr queueSnapshot) (PodPriority preemptorPod)
         (NodeInfo_GetPods nodeInfo) [].

(** *** SelectVictimsOnNode *)
Record sim := mkSim {
  sim_world : world;
  sim_node : NodeInfo;
  sim_victims : list Pod;
}.

Definition in_world {A} (m : st world A) : st sim A := λ s,
  match m (sim_world s) with
  | Ret (a, w) => Ret (a, mkSim w (sim_node s) (sim_victims s))
  | Panic => Panic
  end.

(** The closures [removePod] and [addPod]. *)
Definition removePod (pod : Pod) (pi : PodInfo) : st sim (option go_error) :=
  s ← st_get;
  match NodeInfo_RemovePod (sim_node s) (PodInfo_GetPod pi) with
  | inr err => mret (Some err)
  | inl node =>
      st_put (mkSim (sim_world s) node (sim_victims s)) ;;
      status ← in_world (RunPreFilterExtensionRemovePod pod pi node);
      if negb (Status_IsSuccess status) then mret (Some (Status_AsError status)) else mret None
  end.

Definition addPod (pod : Pod) (pi : PodInfo) : st sim (option go_error) :=
  s ← st_get;
  let node := NodeInfo_AddPodInfo (sim_node s) pi in
  st_put (mkSim (sim_world s) node (sim_victims s)) ;;
  status ← in_world (RunPreFilterExtensionAddPod pod pi node);
  if negb (Status_IsSuccess status) then mret (Some (Status_AsError status)) else mret None.

(** The loop that removes all potential victims; stops at the first error. *)
Fixpoint remove_all (pod : Pod) (pis : list PodInfo) : st sim (option go_error) :=
  match pis with
  | [] => mret None
  | pi :: pis =>
      err ← removePod pod pi;
      match err with
      | Some err => mret (Some err)
      | None => remove_all pod pis
      end
  end.

(** [preemptorQ != nil && preemptorQ.Quota().WouldPutOverMax(requestedRes)] *)
Definition over_quota (preemptorQ : option loc) (requestedRes : Resources) : st sim bool :=
  match preemptorQ with
  | None => mret false
  | Some _ =>
      in_world (on_heap (quota ← Queue_Quota preemptorQ; Quota_WouldPutOverMax quota requestedRes))
  end.

Definition append_victim (p : Pod) : st sim unit :=
  st_modify (λ s, mkSim (sim_world s) (sim_node s) (sim_victims s ++ [p])).

(** Take [pi] out again: it is a victim. *)
Definition condemn (pod : Pod) (pi : PodInfo) : st sim (bool * option go_error) :=
  err ← removePod pod pi;
  match err with
  | Some err => mret (false, Some err)
  | None => append_victim (PodInfo_GetPod pi) ;; mret (false, None)
  end.

Definition maybeReprievePod (pod : Pod) (preemptorQ : option loc) (requestedRes : Resources)
    (pi : PodInfo) : st sim (bool * option go_error) :=
  err ← addPod pod pi;
  match err with
  | Some err => mret (false, Some err)
  | None =>
      s ← st_get;
      let status := RunFilterPluginsWithNominatedPods (sim_world s) pod (sim_node s) in
      if negb (Status_IsSuccess status) then condemn pod pi
      else
        over ← over_quota preemptorQ requestedRes;
        if over : bool then condemn pod pi else mret (true, None)
  end.

(** A loop of reprievals; counts the pods that were not reprieved. *)
Fixpoint reprieve_all (pod : Pod) (preemptorQ : option loc) (requestedRes : Resources)
    (pis : list PodInfo) (condemned : Z) : st sim (Z * option go_error) :=
  match pis with
  | [] => mret (condemned, None)
  | pi :: pis =>
      '(reprieved, err) ← maybeReprievePod pod preemptorQ requestedRes pi;
      match err with
      | Some err => mret (condemned, Some err)
      | None =>
          reprieve_all pod preemptorQ requestedRes pis
            (if negb reprieved then condemned + 1 else condemned)%Z
      end
  end.

(** The part of [SelectVictimsOnNode] after the potential victims are known to
    make room for the preemptor. *)
Definition reprieve_victims (pod : Pod) (preemptorQ : option loc) (requestedRes : Resources)
    (potentialVictims : list PodInfo) (pdbs : list PodDisruptionBudget) : st sim (list Pod * Z * Status) :=
  let potentialVictims :=
    slices_SortFunc (λ a b, CompareImportanceDesc (PodInfo_GetPod a) (PodInfo_GetPod b)) potentialVictims in
  pdbViolationEval ← st_lift (CheckPodRemovalViolations potentialVictims pdbs);
  '(numPDBViolationVictims, err) ←
    reprieve_all pod preemptorQ requestedRes (ViolatingPods pdbViolationEval) 0;
  match err with
  | Some err => mret ([], 0%Z, AsStatus err)
  | None =>
      '(_, err) ← reprieve_all pod preemptorQ requestedRes (NonViolatingPods pdbViolationEval) 0;
      match err with
      | Some err => mret ([], 0%Z, AsStatus err)
      | None =>
          s ← st_get;
          let victims := slices_SortFunc CompareImportanceDesc (sim_victims s) in
          mret (victims, numPDBViolationVictims, NewStatus Success [])
      end
  end.

Definition SelectVictimsOnNode (pod : Pod) (pdbs : list PodDisruptionBudget) : st sim (list Pod * Z * Status) :=
  s ← st_get;
  match ReadQueueSnapshot fmt_state (w_state (sim_world s)) with
  | inr err => mret ([], 0%Z, NewStatus Unschedulable ["Failed to read queueSnapshot from cycleState"])
  | inl queueSnapshot =>
      potentialVictims ← in_world (on_heap (findPotentialVictims pod queueSnapshot (sim_node s)));
      if (length potentialVictims =? 0)%nat then
        mret ([], 0%Z, NewStatus UnschedulableAndUnresolvable
          ["No victims found on node " +:+ node_Name (NodeInfo_Node (sim_node s))
             +:+ " for preemptor pod " +:+ pod_Name pod])
      else
        err ← remove_all pod potentialVictims;
        match err with
        | Some err => mret ([], 0%Z, AsStatus err)
        | None =>
            s ← st_get;
            let status := RunFilterPluginsWithNominatedPods (sim_world s) pod (sim_node s) in
            if negb (Status_IsSuccess status) then mret ([], 0%Z, status)
            else
              preemptorQ ← in_world (on_heap (Manager_Get (QueueMgr queueSnapshot) (Some pod)));
              let requestedRes := FromPodReq (Some pod) in
              over ← over_quota preemptorQ requestedRes;
              if over : bool then
                quotaString ← in_world (on_heap (quota ← Queue_Quota preemptorQ; Quota_String quota));
                mret ([], 0%Z, NewStatus Unschedulable
                  ["Not eligible for preemption because queue exceeds after preemption (quota="
                     +:+ quotaString +:+ ")"])
              else reprieve_victims pod preemptorQ requestedRes potentialVictims pdbs
        end
  end.

(** *** kubesched.GetPodIDsOnNode *)
Definition ErrLookupNode : go_error := ErrNew "failed to look up node".

Definition GetPodIDsOnNode (nodeName : string) : gset UID + go_error :=
  match NodeInfos_Get nodeName with
  | (_, Some err) =>
      inr (ErrWrapf2 (error_Error ErrLookupNode +:+ ": " +:+ error_Error err) ErrLookupNode err)
  | (None, None) => inr (ErrWrapf (error_Error ErrLookupNode +:+ ": node was null") ErrLookupNode)
  | (Some nomNodeInfo, None) =>
      inl (foldl (λ ids podInfo, {[pod_UID (PodInfo_GetPod podInfo)]} ∪ ids) ∅ (NodeInfo_GetPods nomNodeInfo))
  end.
End preemptor.
