(* ===== verification/PreemptorFacts.v ===== *)
(** * PreemptorFacts: eligibility and potential victims

    The preemption callbacks that only read: each computes a predicate on
    queue values. *)

From stdpp Require Import base tactics option list gmap strings sorting.
From Stdlib Require Import ZArith Lia.
From S2P Require Import Prelude.
From S2P Require Import External.
From S2P Require Import Concrete.
From S2P Require Import Resources.
From S2P Require Import Api.
From S2P Require Import Pods.
From S2P Require Import Match.
From S2P Require Import PdbEval.
From S2P Require Import Store.
From S2P Require Import StoreFacts.
From S2P Require Import Quota.
From S2P Require Import Queue.
From S2P Require Import Manager.
From S2P Require Import QueueFacts.
From S2P Require Import ManagerFacts.
From S2P Require Import ManagerProps.
From S2P Require Import Evaluator.
From S2P Require Import State.
From S2P Require Import Plugin.
From S2P Require Import PluginFacts.
From S2P Require Import Preemptor.

Section values.
Context {T : ApiTypes} {Q : QuantityOps} {P : PodOps} {L : SelectorOps} {F : FrameworkOps}.
Implicit Types (V : ManagerV) (pod victim : Pod).

(** Is [pi] a victim of an earlier preemption that is about to free what [pod]
    waits for?  [over] tells whether [pod] lacks quota. *)
Definition awaited V pod (over : bool) (pi : PodInfo) : bool :=
  let victim := PodInfo_GetPod pi in
  match mgrV_get V (Some pod), mgrV_get V (Some victim) with
  | Some pq, Some vq =>
      TerminatingByPreemption victim && (PodPriority victim <? PodPriority pod)%Z
      && can_be_preempted vq victim && (bool_decide (v_name pq = v_name vq) || negb over)
  | _, _ => false
  end.

(** The pods on a node that [pod] may preempt. *)
Definition potential V pod (pi : PodInfo) : bool :=
  match mgrV_get V (Some pod) with
  | Some _ => allowed V pod (PodInfo_GetPod pi)
  | None =>
      bool_decide (mgrV_get V (Some (PodInfo_GetPod pi)) = None)
      && (PodPriority (PodInfo_GetPod pi) <? PodPriority pod)%Z
  end.

Definition list_filter {A} (f : A → bool) (l : list A) : list A := filter (λ x, f x = true) l.

Lemma list_filter_cons {A} (f : A → bool) x l :
  list_filter f (x :: l) = if f x then x :: list_filter f l else list_filter f l.
Proof. unfold list_filter. rewrite filter_cons. by destruct (f x). Qed.
End values.

Section facts.
Context {T : ApiTypes} {Q : QuantityOps} {P : PodOps} {L : SelectorOps} {F : FrameworkOps}.
Context {QL : QuantityLaws}.
Context {O : Type} {C : CycleStateOps (StateData O)} {H : HandleOps}.
Variable fmt_state : StateData O → string.
Implicit Types (h : heap) (m : loc) (V : ManagerV) (pod : Pod).

Lemma potential_loop_spec h m V pod pe infos : ∀ acc,
  wf h → view_mgr h m = Some V → pe_for h m V pod pe →
  wp (potential_loop pe infos acc)
    (λ l h', h' = h ∧ l = acc ++ list_filter (λ pi, allowed V pod (PodInfo_GetPod pi)) infos) h.
Proof.
  induction infos as [|pi infos IH]; intros acc Hwf HV Hpe; cbn [potential_loop].
  { apply wp_ret. by rewrite app_nil_r. }
  apply wp_bind. eapply wp_mono; [by apply (IsPreemptionAllowed_spec h m V pod)|]. intros b h' [-> ->].
  rewrite list_filter_cons. destruct (allowed V pod (PodInfo_GetPod pi)); cbn [negb]; [|by apply IH].
  eapply wp_mono; [by apply IH|]. intros l h' [-> ->]. by rewrite <- app_assoc.
Qed.

Lemma potential_loop_vanilla_spec h m V pod infos : ∀ acc,
  wf h → view_mgr h m = Some V →
  wp (potential_loop_vanilla m (PodPriority pod) infos acc)
    (λ l h', h' = h ∧ l = acc ++ list_filter (λ pi, bool_decide (mgrV_get V (Some (PodInfo_GetPod pi)) = None)
      && (PodPriority (PodInfo_GetPod pi) <? PodPriority pod)%Z) infos) h.
Proof.
  induction infos as [|pi infos IH]; intros acc Hwf HV; cbn [potential_loop_vanilla].
  { apply wp_ret. by rewrite app_nil_r. }
  apply wp_bind. eapply wp_mono; [by apply (Manager_Get_spec h m V)|]. intros r h' [-> Hr].
  rewrite list_filter_cons. destruct (mgrV_get V (Some (PodInfo_GetPod pi))) as [v|].
  - destruct Hr as (ql & -> & _). rewrite bool_decide_false by done. by apply IH.
  - subst r. rewrite bool_decide_true, Z.leb_antisym by done. cbn [andb].
    destruct (PodPriority (PodInfo_GetPod pi) <? PodPriority pod)%Z; cbn [negb]; [|by apply IH].
    eapply wp_mono; [by apply IH|]. intros l h' [-> ->]. by rewrite <- app_assoc.
Qed.

Lemma findPotentialVictims_spec h s V pod node :
  wf h → view_mgr h (QueueMgr s) = Some V →
  wp (findPotentialVictims pod s node)
    (λ l h', h' = h ∧ l = list_filter (potential V pod) (NodeInfo_GetPods node)) h.
Proof.
  intros Hwf HV. unfold findPotentialVictims, potential. apply wp_bind.
  eapply wp_mono; [by apply NewPreemptionEvaluator_spec|]. intros pe h' [-> Hpe].
  unfold IsConfiguredForPreemption. pose proof Hpe as (_ & _ & _ & Hq).
  destruct (mgrV_get V (Some pod)) as [q|].
  - destruct Hq as (ql & -> & _). rewrite bool_decide_true by by eexists. by apply (potential_loop_spec h (QueueMgr s) V pod pe _ []).
  - rewrite Hq, bool_decide_false by by intros []. by apply (potential_loop_vanilla_spec h (QueueMgr s) V pod _ []).
Qed.

(** ** Eligibility *)
Lemma eligible_loop_spec h m V pod pq ql over infos :
  wf h → view_mgr h m = Some V → mgrV_get V (Some pod) = Some pq → view_queue h ql = Some pq →
  wp (eligible_loop m (Some ql) (PodPriority pod) over infos)
    (λ r h', h' = h ∧ r.1 = negb (existsb (awaited V pod over) infos)) h.
Proof.
  intros Hwf HV Hpq Hql. induction infos as [|pi infos IH]; cbn [eligible_loop existsb]; [by apply wp_ret|].
  unfold awaited at 1. rewrite Hpq. set (p := PodInfo_GetPod pi).
  destruct (TerminatingByPreemption p); cbn [negb andb].
  2:{ by destruct (mgrV_get V (Some p)). }
  rewrite Z.leb_antisym. destruct (PodPriority p <? PodPriority pod)%Z; cbn [negb andb].
  2:{ by destruct (mgrV_get V (Some p)). }
  apply wp_bind. eapply wp_mono; [by apply (Manager_Get_spec h m V)|]. intros r h' [-> Hr].
  destruct (mgrV_get V (Some p)) as [vq|]; [|by subst r].
  destruct Hr as (vl & -> & Hvl). rewrite wp_bind.
  eapply wp_mono; [by eapply Queue_CanPodBePreemptedByOthers_spec|]. intros can h' [-> ->].
  destruct (can_be_preempted vq p); cbn [negb andb]; [|exact IH].
  pose proof Hql as (qu & ? & ? & Hqu & _ & _ & ->)%view_queue_Some.
  pose proof Hvl as (vu & ? & ? & Hvu & _ & _ & ->)%view_queue_Some. cbn [v_name].
  rewrite wp_bind. eapply wp_Queue_Name; [done|]. rewrite wp_bind. eapply wp_Queue_Name; [done|].
  case_bool_decide; cbn [negb andb orb]; [by apply wp_ret|].
  destruct over; cbn [negb orb]; [exact IH|by apply wp_ret].
Qed.

(** The reason is empty exactly when the answer is yes; [eligible] is the
    answer when a snapshot with value [V] can be read. *)
Definition eligible V pod (nominatedNodeStatus : Status) : bool :=
  PolicyAllowsPreemption (Some pod) && can_preempt V pod
  && (bool_decide (pod_NominatedNodeName pod = "")
      || bool_decide (Status_Code nominatedNodeStatus = UnschedulableAndUnresolvable)
      || match NodeInfos_Get (pod_NominatedNodeName pod) with
         | (Some node, None) => negb (existsb (awaited V pod (value_over V pod)) (NodeInfo_GetPods node))
         | _ => false
         end).

Lemma PodEligible_spec h c s V pod st :
  wf h → ReadQueueSnapshot fmt_state c = inl s → view_mgr h (QueueMgr s) = Some V →
  wp (PodEligibleToPreemptOthers fmt_state c pod st) (λ r h', h' = h ∧ r.1 = eligible V pod st) h.
Proof.
  intros Hwf Hs HV. unfold PodEligibleToPreemptOthers, eligible. rewrite Hs.
  destruct (PolicyAllowsPreemption (Some pod)); cbn [negb andb]; [|by apply wp_ret].
  rewrite wp_bind. eapply wp_mono; [by apply NewPreemptionEvaluator_spec|]. intros pe h' [-> Hpe].
  rewrite wp_bind. eapply wp_mono; [by eapply CanPodPreemptOthers_spec|]. intros can h' [-> ->].
  destruct (can_preempt V pod) eqn:Ecan; cbn [negb andb]; [|by apply wp_ret].
  case_bool_decide; cbn [orb]; [by apply wp_ret|]. case_bool_decide; cbn [orb]; [by apply wp_ret|].
  destruct (NodeInfos_Get _) as [[node|] [err|]]; try by apply wp_ret.
  rewrite wp_bind. eapply wp_mono; [by apply (Manager_Get_spec h (QueueMgr s) V (Some pod))|]. intros r h' [-> Hr].
  unfold can_preempt in Ecan. destruct (mgrV_get V (Some pod)) as [pq|] eqn:Epq; [|done].
  destruct Hr as (ql & -> & Hql). pose proof Hql as (qu & tl & qo & Hqu & Ht & _)%view_queue_Some.
  rewrite wp_bind. eapply wp_Queue_Quota; [done|]. rewrite Ht, wp_bind. unfold wp at 1.
  rewrite (Quota_WouldPutOverMax_spec h ql qu tl pq) by done.
  assert (value_over V pod = quotaV_over (v_quota pq) (FromPodReq (Some pod))) as ->.
  { unfold value_over. by rewrite Epq. }
  by eapply eligible_loop_spec.
Qed.
End facts.
