(* ===== verification/VictimSelection.v ===== *)
(** * VictimSelection: [SelectVictimsOnNode] refines a greedy selection

    The framework that runs the other plugins is an interface ([RunLaws]): its
    filters answer as if by a predicate on the pods of the node, as long as
    the extension points keep the cycle state in step with the node.  Against
    it, victim selection computes the greedy reprieve of a list of pods. *)

From stdpp Require Import base tactics option list gmap strings sorting.
From Stdlib Require Import ZArith Lia.
From S2P Require Import Prelude.
From S2P Require Import External.
From S2P Require Import Resources.
From S2P Require Import Api.
From S2P Require Import Pods.
From S2P Require Import Match.
From S2P Require Import PdbEval.
From S2P Require Import Store.
From S2P Require Import StoreFacts.
From S2P Require Import Quota.
From S2P Require Import Queue.
From S2P Require Import Manager.
From S2P Require Import QueueFacts.
From S2P Require Import ManagerFacts.
From S2P Require Import ManagerProps.
From S2P Require Import Evaluator.
From S2P Require Import State.
From S2P Require Import Plugin.
From S2P Require Import PluginFacts.
From S2P Require Import Preemptor.
From S2P Require Import PreemptorFacts.
From S2P Require Import ValueEquiv.

(** ** The greedy selection *)
Section greedy.
Context {A : Type}.
Variable fits : list A → bool.

(** Take the elements in order; keep each one with which the kept ones still
    fit, condemn the others. *)
Fixpoint greedy (kept todo : list A) : list A * list A :=
  match todo with
  | [] => (kept, [])
  | x :: todo =>
      if fits (x :: kept) then greedy (x :: kept) todo
      else let '(k, c) := greedy kept todo in (k, x :: c)
  end.

Lemma greedy_perm todo : ∀ kept k c, greedy kept todo = (k, c) → k ++ c ≡ₚ todo ++ kept.
Proof.
  induction todo as [|x todo IH]; intros kept k c; simpl.
  { intros [= <- <-]. by rewrite app_nil_r. }
  destruct (fits (x :: kept)).
  - intros Hg. rewrite (IH _ _ _ Hg). symmetry. apply Permutation_middle.
  - destruct (greedy kept todo) as [k' c'] eqn:E. intros [= <- <-].
    rewrite <- Permutation_middle. by rewrite (IH _ _ _ E).
Qed.

Lemma greedy_fits todo : ∀ kept k c, greedy kept todo = (k, c) → fits kept = true → fits k = true.
Proof.
  induction todo as [|x todo IH]; intros kept k c; simpl; [by intros [= <- <-]|].
  destruct (fits (x :: kept)) eqn:Ef; [by intros Hg _; eapply IH|].
  destruct (greedy kept todo) as [k' c'] eqn:E. intros [= <- <-]. by eapply IH.
Qed.

Lemma greedy_app l1 l2 kept :
  greedy kept (l1 ++ l2) =
    let '(k1, c1) := greedy kept l1 in let '(k2, c2) := greedy k1 l2 in (k2, c1 ++ c2).
Proof.
  revert kept. induction l1 as [|x l1 IH]; intros kept; simpl.
  { by destruct (greedy kept l2). }
  destruct (fits (x :: kept)); [apply IH|]. rewrite IH.
  destruct (greedy kept l1) as [k1 c1]. by destruct (greedy k1 l2).
Qed.

Lemma greedy_kept_grows todo : ∀ kept k c, greedy kept todo = (k, c) → ∃ l, k = l ++ kept.
Proof.
  induction todo as [|x todo IH]; intros kept k c; simpl; [intros [= <- <-]; by exists []|].
  destruct (fits (x :: kept)).
  - intros Hg. destruct (IH _ _ _ Hg) as [l ->]. exists (l ++ [x]). by rewrite <- app_assoc.
  - destruct (greedy kept todo) as [k' c'] eqn:E. intros [= <- <-]. by eapply IH.
Qed.

(** When, on the lists of interest, fitting is insensitive to order and lost by
    adding elements, no condemned element fits on top of what was kept. *)
Lemma greedy_minimal (good : list A → Prop) todo :
  (∀ x l, good (x :: l) → good l) → (∀ l l', l ≡ₚ l' → good l → good l') →
  (∀ l l', l ≡ₚ l' → good l → fits l = fits l') →
  (∀ x l, good (x :: l) → fits (x :: l) = true → fits l = true) →
  ∀ kept k c, good (todo ++ kept) → greedy kept todo = (k, c) → ∀ x, x ∈ c → fits (x :: k) = false.
Proof.
  intros Htl Hgp Hperm Hanti. induction todo as [|y todo IH]; intros kept k c Hg; simpl.
  { intros [= <- <-] x Hx. by apply elem_of_nil in Hx. }
  destruct (fits (y :: kept)) eqn:Ef.
  { intros Hgr. eapply IH; [|exact Hgr]. eapply Hgp; [|exact Hg]. simpl. by rewrite Permutation_middle. }
  destruct (greedy kept todo) as [k' c'] eqn:E.
  intros [= <- <-] x [->|Hx]%elem_of_cons; [|eapply IH; [by eapply Htl|done..]].
  destruct (greedy_kept_grows _ _ _ _ E) as [l ->]. apply not_true_iff_false. intros Ht.
  assert (good (l ++ y :: kept)) as Hgl.
  { pose proof (greedy_perm _ _ _ _ E) as Hp. clear E IH.
    assert (good ((l ++ y :: kept) ++ c')) as Hgc.
    { eapply Hgp; [|exact Hg]. simpl. rewrite <- Hp, <- Permutation_middle. done. }
    assert (∀ l2 l1, good (l2 ++ l1) → good l1) as Happ.
    { induction l2 as [|z l2 IH2]; intros l1 Hz; [done|]. by eapply IH2, Htl. }
    eapply (Happ c'), Hgp; [apply Permutation_app_comm|exact Hgc]. }
  assert (fits (l ++ y :: kept) = true) as Hfl.
  { rewrite <- Ht. by apply Hperm; [rewrite <- Permutation_middle|]. }
  apply not_true_iff_false in Ef. apply Ef. clear -Hfl Hgl Htl Hanti.
  induction l as [|z l IHl]; [done|]. simpl in *. apply IHl; [by eapply Htl|by eapply Hanti].
Qed.
End greedy.

(** ** Calls that leave the managers' maps alone *)
Section keeps.
Context {T : ApiTypes} {Q : QuantityOps} {P : PodOps} {L : SelectorOps}.

Definition keeps_mgr {A} (m : st heap A) : Prop := ∀ h a h', m h = Ret (a, h') → h_mgr h' = h_mgr h.

Lemma keeps_ret {A} (a : A) : keeps_mgr (mret a).
Proof. by intros h a' h' [= <- <-]. Qed.

Lemma keeps_bind {A B} (m : st heap A) (f : A → st heap B) :
  keeps_mgr m → (∀ a, keeps_mgr (f a)) → keeps_mgr (m ≫= f).
Proof.
  intros Hm Hf h b h'. unfold mbind, st_bind. destruct (m h) as [[a h1]|] eqn:E; [|done].
  intros Hb. rewrite (Hf _ _ _ _ Hb). by eapply Hm.
Qed.

Lemma keeps_get : keeps_mgr st_get.
Proof. by intros h a h' [= <- <-]. Qed.

Lemma keeps_some {A} (o : option A) : keeps_mgr (st_some o).
Proof. intros h a h'. destruct o; [by intros [= <- <-]|done]. Qed.

Lemma keeps_lift {A} (o : outcome A) : keeps_mgr (st_lift o).
Proof. intros h a h'. unfold st_lift. destruct o; [by intros [= <- <-]|done]. Qed.

Lemma keeps_modify f : (∀ h, h_mgr (f h) = h_mgr h) → keeps_mgr (st_modify f).
Proof. intros Hf h a h' [= <- <-]. apply Hf. Qed.

Lemma keeps_for {A} (l : list A) f : (∀ x, keeps_mgr (f x)) → keeps_mgr (st_for l f).
Proof.
  intros Hf. induction l as [|x l IH]; simpl; [apply keeps_ret|].
  apply keeps_bind; [apply Hf|]. intros _. exact IH.
Qed.

Lemma wp_keeps {A} (m : st heap A) (K : A → heap → Prop) h :
  keeps_mgr m → wp m K h → wp m (λ a h', K a h' ∧ h_mgr h' = h_mgr h) h.
Proof.
  intros Hm. unfold wp. destruct (m h) as [[a h']|] eqn:E; [|done]. intros HK. split; [done|by eapply Hm].
Qed.

Create HintDb keeps discriminated.
#[local] Hint Resolve keeps_ret keeps_get keeps_some keeps_lift keeps_modify keeps_for keeps_bind : keeps.

Ltac keeps_step :=
  match goal with
  | |- keeps_mgr (_ ≫= _) => apply keeps_bind; [|intros ?]
  | |- keeps_mgr (match ?x with _ => _ end) => destruct x
  | |- keeps_mgr (st_for _ _) => apply keeps_for; intros ?
  | |- keeps_mgr (st_modify _) => by apply keeps_modify
  | _ => solve [auto with keeps]
  end.
Ltac keeps_tac := repeat keeps_step.

Lemma keeps_AddPod m pod : keeps_mgr (Manager_AddPodIfNotPresent m pod).
Proof.
  unfold Manager_AddPodIfNotPresent, Manager_GetByName, Queue_Quota, Quota_AddPodIfNotPresent,
    Quota_AddPod_body, load_mgr, load_queue, load_quota, store_quota, update_res, load_res.
  keeps_tac.
Qed.

Lemma keeps_DeletePod m pod : keeps_mgr (Manager_DeletePodIfPresent m pod).
Proof.
  unfold Manager_DeletePodIfPresent, Manager_GetByName, Queue_Quota, Quota_DeletePodIfPresent,
    Quota_DeletePod_body, load_mgr, load_queue, load_quota, store_quota, update_res, load_res.
  keeps_tac.
Qed.
End keeps.

(** ** The framework's side *)
Section interface.
Context {T : ApiTypes} {Q : QuantityOps} {P : PodOps} {L : SelectorOps} {F : FrameworkOps}.
Context {O : Type} {C : CycleStateOps (StateData O)} {R : RunOps}.
Context {fmt_state : StateData O → string}.

(** The contract of [PreFilterExtensions]: [in_sync c n] says that the plugins'
    data in the cycle state [c] describe the node [n]; [healthy] that no plugin's
    extension point fails in this cycle.  [RunPreFilterExtension*]
    runs every plugin's extension point, this plugin's among them, and when all
    succeed the cycle state is in step with the changed node, other plugins
    having left this plugin's entry alone; the live queue objects are out of
    their reach in any case.  The filters then answer by the node
    and the pods on it, in whatever order these are listed. *)
Class RunLaws := {
  in_sync : CycleState → NodeInfo → Prop;
  healthy : Prop;
  passes : Pod → Node → list PodInfo → bool;
  passes_perm pod node l l' : l ≡ₚ l' → passes pod node l = passes pod node l';
  run_filter w pod n :
    in_sync (w_state w) n →
    Status_IsSuccess (RunFilterPluginsWithNominatedPods w pod n)
      = passes pod (NodeInfo_Node n) (NodeInfo_GetPods n);
  run_add w pod pi n s V :
    in_sync (w_state w) n → wf (w_heap w) →
    ReadQueueSnapshot fmt_state (w_state w) = inl s → view_mgr (w_heap w) (QueueMgr s) = Some V →
    let n' := NodeInfo_AddPodInfo n pi in
    wp (RunPreFilterExtensionAddPod pod pi n') (λ st w', (healthy → Status_IsSuccess st = true) ∧
      (∀ m', m' ≠ QueueMgr s → view_mgr (w_heap w') m' = view_mgr (w_heap w) m') ∧
      (Status_IsSuccess st = true → (∃ r w1, Plugin_AddPod fmt_state pod pi n' w = Ret (r, w1) ∧ w_heap w' = w_heap w1)
      ∧ CycleState_Read (w_state w') stateKeyQueueSnapshot = CycleState_Read (w_state w) stateKeyQueueSnapshot
      ∧ in_sync (w_state w') n')) w;
  run_remove w pod pi n n' s V :
    in_sync (w_state w) n → wf (w_heap w) → NodeInfo_RemovePod n (PodInfo_GetPod pi) = inl n' →
    ReadQueueSnapshot fmt_state (w_state w) = inl s → view_mgr (w_heap w) (QueueMgr s) = Some V →
    wp (RunPreFilterExtensionRemovePod pod pi n') (λ st w', (healthy → Status_IsSuccess st = true) ∧
      (∀ m', m' ≠ QueueMgr s → view_mgr (w_heap w') m' = view_mgr (w_heap w) m') ∧
      (Status_IsSuccess st = true → (∃ r w1, Plugin_RemovePod fmt_state pod pi n' w = Ret (r, w1) ∧ w_heap w' = w_heap w1)
      ∧ CycleState_Read (w_state w') stateKeyQueueSnapshot = CycleState_Read (w_state w) stateKeyQueueSnapshot
      ∧ in_sync (w_state w') n')) w;
}.
End interface.

(** ** The simulation on a node *)
Section simulation.
Context {T : ApiTypes} {Q : QuantityOps} {P : PodOps} {L : SelectorOps} {F : FrameworkOps}.
Context {I : ImmutMap} {SS : SliceSort} {QL : QuantityLaws} {NL : NodeInfoLaws}.
Context {O : Type} {C : CycleStateOps (StateData O)} {CL : CycleStateLaws (StateData O)} {H : HandleOps} {R : RunOps}.
Context {fmt_state : StateData O → string} {RL : RunLaws (fmt_state := fmt_state)}.
(** The preemptor, the node, the snapshot manager and its queues' locations,
    and the heap at the start. *)
Variables (pod : Pod) (node : Node) (sn : QueueSnapshotState) (M : Manager) (h0 : heap).
Implicit Types (V : ManagerV) (K : list PodInfo).

Definition uid (pi : PodInfo) : UID := pod_UID (PodInfo_GetPod pi).

(** The simulation stands at the pods [K] on the node and the snapshot [V]. *)
Record stands (s : sim) K V : Prop := mkStands {
  sd_wf : wf (w_heap (sim_world s));
  sd_snap : ReadQueueSnapshot fmt_state (w_state (sim_world s)) = inl sn;
  sd_view : view_mgr (w_heap (sim_world s)) (QueueMgr sn) = Some V;
  sd_mgr : h_mgr (w_heap (sim_world s)) !! QueueMgr sn = Some M;
  sd_frame m' : m' ≠ QueueMgr sn → view_mgr (w_heap (sim_world s)) m' = view_mgr h0 m';
  sd_sync : in_sync (w_state (sim_world s)) (sim_node s);
  sd_node : NodeInfo_Node (sim_node s) = node;
  sd_pods : NodeInfo_GetPods (sim_node s) ≡ₚ K;
}.

(** A call of the framework failed; other managers are still as they were. *)
Definition failed (s : sim) : Prop :=
  ¬ healthy (fmt_state := fmt_state)
  ∧ ∀ m', m' ≠ QueueMgr sn → view_mgr (w_heap (sim_world s)) m' = view_mgr h0 m'.

Lemma stands_perm s K K' V : K ≡ₚ K' → stands s K V → stands s K' V.
Proof. intros HK []. split; try done. by rewrite <- HK. Qed.

Lemma stands_used s K V n v : stands s K V → V !! n = Some v → is_Some (qv_used (v_quota v)).
Proof. intros [Hwf _ HV _ _ _ _ _] Hn. destruct (wf_view_used _ _ V n v Hwf HV Hn) as [mu ->]. by eexists. Qed.

Lemma wp_in_world {A} (m : st world A) (K : A → sim → Prop) s :
  wp (in_world m) K s ↔ wp m (λ a w, K a (mkSim w (sim_node s) (sim_victims s))) (sim_world s).
Proof. unfold wp, in_world. by destruct (m (sim_world s)) as [[a w]|]. Qed.

Lemma read_snapshot_eq c c' :
  CycleState_Read c' stateKeyQueueSnapshot = CycleState_Read c stateKeyQueueSnapshot →
  ReadQueueSnapshot fmt_state c' = ReadQueueSnapshot fmt_state c.
Proof. intros Hr. unfold ReadQueueSnapshot, ReadState. by rewrite Hr. Qed.

(** A successful run of the extension points moves the simulation on. *)
Lemma stands_after s K V w' n' K' V' :
  stands s K V →
  wf (w_heap w') → view_mgr (w_heap w') (QueueMgr sn) = Some V' →
  (∀ m', m' ≠ QueueMgr sn → view_mgr (w_heap w') m' = view_mgr (w_heap (sim_world s)) m') →
  h_mgr (w_heap w') = h_mgr (w_heap (sim_world s)) →
  CycleState_Read (w_state w') stateKeyQueueSnapshot
    = CycleState_Read (w_state (sim_world s)) stateKeyQueueSnapshot →
  in_sync (w_state w') n' → NodeInfo_Node n' = node → NodeInfo_GetPods n' ≡ₚ K' →
  stands (mkSim w' n' (sim_victims s)) K' V'.
Proof.
  intros [Hwf Hsn HV HM Hf Hsync Hnode Hpods] H1 H2 H3 H4 H5 H6 H7 H8.
  split; simpl; try done.
  - by rewrite (read_snapshot_eq (w_state (sim_world s))).
  - by rewrite H4.
  - intros m' Hne. rewrite H3 by done. by apply Hf.
Qed.

(** What the extension points of this plugin did, in a run of all. *)
Lemma plugin_add_heap w pi n V r w1 :
  wf (w_heap w) → ReadQueueSnapshot fmt_state (w_state w) = inl sn →
  view_mgr (w_heap w) (QueueMgr sn) = Some V → Plugin_AddPod fmt_state pod pi n w = Ret (r, w1) →
  wf (w_heap w1) ∧ view_mgr (w_heap w1) (QueueMgr sn) = Some (mgrV_add (Some (PodInfo_GetPod pi)) V)
  ∧ (∀ m', m' ≠ QueueMgr sn → view_mgr (w_heap w1) m' = view_mgr (w_heap w) m')
  ∧ h_mgr (w_heap w1) = h_mgr (w_heap w).
Proof.
  intros Hwf Hs HV Hr. pose proof (Plugin_AddPod_spec fmt_state pod pi n w sn V Hwf Hs HV) as Hp.
  unfold wp in Hp. rewrite Hr in Hp. destruct Hp as [_ [H1 H2 H3 _]]. split_and!; try done.
  unfold Plugin_AddPod, mbind, st_bind, st_get in Hr. rewrite Hs in Hr. unfold on_heap in Hr.
  destruct (Manager_AddPodIfNotPresent _ _ _) as [[e h1]|] eqn:E; [|done]. injection Hr as _ <-.
  by apply keeps_AddPod in E.
Qed.

Lemma plugin_remove_heap w pi n V r w1 :
  wf (w_heap w) → ReadQueueSnapshot fmt_state (w_state w) = inl sn →
  view_mgr (w_heap w) (QueueMgr sn) = Some V → Plugin_RemovePod fmt_state pod pi n w = Ret (r, w1) →
  wf (w_heap w1) ∧ view_mgr (w_heap w1) (QueueMgr sn) = Some (mgrV_del (Some (PodInfo_GetPod pi)) V)
  ∧ (∀ m', m' ≠ QueueMgr sn → view_mgr (w_heap w1) m' = view_mgr (w_heap w) m')
  ∧ h_mgr (w_heap w1) = h_mgr (w_heap w).
Proof.
  intros Hwf Hs HV Hr. pose proof (Plugin_RemovePod_spec fmt_state pod pi n w sn V Hwf Hs HV) as Hp.
  unfold wp in Hp. rewrite Hr in Hp. destruct Hp as [_ [H1 H2 H3 _]]. split_and!; try done.
  unfold Plugin_RemovePod, mbind, st_bind, st_get in Hr. rewrite Hs in Hr. unfold on_heap in Hr.
  destruct (Manager_DeletePodIfPresent _ _ _) as [[e h1]|] eqn:E; [|done]. injection Hr as _ <-.
  by apply keeps_DeletePod in E.
Qed.

(** Taking the pod with [pi]'s UID out of a list without duplicate UIDs takes
    [pi] itself out. *)
Lemma remove_same_uid (l : list PodInfo) pi pi' K l' :
  l ≡ₚ pi :: K → l ≡ₚ pi' :: l' → NoDup (uid <$> pi :: K) → uid pi' = uid pi → l' ≡ₚ K.
Proof.
  intros H1 H2 Hnd Hu. assert (pi' = pi) as ->.
  { assert (pi' ∈ pi :: K) as Hin by (rewrite <- H1, H2; set_solver).
    apply elem_of_cons in Hin as [->|Hin]; [done|]. exfalso.
    rewrite fmap_cons in Hnd. apply NoDup_cons in Hnd as [Hni _]. apply Hni. rewrite <- Hu.
    apply list_elem_of_fmap. by exists pi'. }
  rewrite H1 in H2. by apply Permutation_cons_inv in H2.
Qed.

Lemma addPod_spec s K V pi :
  stands s K V →
  wp (addPod pod pi) (λ err s', match err with
    | Some _ => failed s'
    | None => stands s' (pi :: K) (mgrV_add (Some (PodInfo_GetPod pi)) V) ∧ sim_victims s' = sim_victims s
    end) s.
Proof.
  intros Hst. pose proof Hst as [Hwf Hsn HV HM Hf Hsync Hnode Hpods].
  unfold addPod. rewrite wp_bind, wp_get, wp_bind, wp_put, wp_bind, wp_in_world. cbn [sim_world sim_node sim_victims].
  eapply wp_mono; [by eapply run_add|]. intros st w' (Hok & Hfr & Hrun).
  destruct (Status_IsSuccess st) eqn:Est.
  2:{ apply wp_ret. split; [intros Hh; by specialize (Hok Hh)|]. intros m' Hne. simpl. by rewrite Hfr, Hf. }
  destruct (Hrun eq_refl) as ((r & w1 & Hr & Hh) & Hread & Hsync').
  destruct (plugin_add_heap _ _ _ V r w1 Hwf Hsn HV Hr) as (H1 & H2 & H3 & H4).
  apply wp_ret. split; [|done].
  apply (stands_after s K V w' _ (pi :: K) _ Hst); rewrite ?Hh; try done.
  - by rewrite node_add_node.
  - by rewrite node_add_pods, Hpods.
Qed.

Lemma removePod_spec s K V pi :
  stands s (pi :: K) V → NoDup (uid <$> pi :: K) →
  wp (removePod pod pi) (λ err s', match err with
    | Some _ => failed s'
    | None => stands s' K (mgrV_del (Some (PodInfo_GetPod pi)) V) ∧ sim_victims s' = sim_victims s
    end) s.
Proof.
  intros Hst Hnd. pose proof Hst as [Hwf Hsn HV HM Hf Hsync Hnode Hpods].
  unfold removePod. rewrite wp_bind, wp_get.
  destruct (NodeInfo_RemovePod (sim_node s) (PodInfo_GetPod pi)) as [n'|err] eqn:En.
  2:{ destruct (node_remove_present (sim_node s) pi) as [n' Hn']; [rewrite Hpods; set_solver|congruence]. }
  rewrite wp_bind, wp_put, wp_bind, wp_in_world. cbn [sim_world sim_node sim_victims].
  eapply wp_mono; [by eapply run_remove|]. intros st w' (Hok & Hfr & Hrun).
  destruct (Status_IsSuccess st) eqn:Est.
  2:{ apply wp_ret. split; [intros Hh; by specialize (Hok Hh)|]. intros m' Hne. simpl. by rewrite Hfr, Hf. }
  destruct (Hrun eq_refl) as ((r & w1 & Hr & Hh) & Hread & Hsync').
  destruct (plugin_remove_heap _ _ _ V r w1 Hwf Hsn HV Hr) as (H1 & H2 & H3 & H4).
  apply wp_ret. split; [|done].
  apply (stands_after s (pi :: K) V w' _ K _ Hst); rewrite ?Hh; try done.
  - by rewrite (node_remove_node _ _ _ En).
  - destruct (node_remove_pods _ _ _ En) as (pi' & Hu & Hperm). by eapply remove_same_uid.
Qed.

(** *** The checks *)
Variable preemptorQ : option loc.
Hypothesis preemptorQ_eq : preemptorQ = (n ← pod_queue (Some pod); queueByName M !! n).

Lemma over_quota_spec s K V (Kp : bool → sim → Prop) :
  stands s K V → Kp (value_over V pod) s → wp (over_quota preemptorQ (FromPodReq (Some pod))) Kp s.
Proof.
  intros [Hwf Hsn HV HM _ _ _ _] HK. unfold over_quota, value_over, mgrV_get in *. rewrite preemptorQ_eq.
  destruct (pod_queue (Some pod)) as [n|]; [|by apply wp_ret].
  cbn [mbind option_bind] in *. pose proof (view_mgr_lookup _ _ M V n Hwf HM HV) as Hn.
  destruct (queueByName M !! n) as [ql|]; [|rewrite Hn in HK; by apply wp_ret].
  destruct Hn as (v & Hv & Hql & _). rewrite Hv in HK.
  pose proof Hql as (qu & tl & qo & Hqu & Ht & _)%view_queue_Some.
  rewrite wp_in_world, wp_on_heap, wp_bind. eapply wp_Queue_Quota; [done|]. rewrite Ht. unfold wp.
  rewrite (Quota_WouldPutOverMax_spec _ ql qu tl v) by done. by destruct s as [[h c] n' vs].
Qed.

(** Does the preemptor fit when [K] is on the node and the snapshot is [V]? *)
Definition fits_at K V : bool := passes pod node K && negb (value_over V pod).

(** The snapshot with the pods of a list added. *)
Definition adds V (l : list PodInfo) : ManagerV := foldr (λ pi V, mgrV_add (Some (PodInfo_GetPod pi)) V) V l.

(** After one reprieve, from [K] on the node and a snapshot equivalent to
    [V0]: an error, or [pi] is back, or [pi] is a victim. *)
Definition reprieve_post (s : sim) K V0 pi (fit : bool) (r : bool * option go_error) (s' : sim) : Prop :=
  match r.2 with
  | Some _ => failed s'
  | None => r.1 = fit ∧
      if fit then sim_victims s' = sim_victims s
        ∧ ∃ V', stands s' (pi :: K) V' ∧ Vequiv V' (mgrV_add (Some (PodInfo_GetPod pi)) V0)
      else sim_victims s' = sim_victims s ++ [PodInfo_GetPod pi]
        ∧ ∃ V', stands s' K V' ∧ Vequiv V' V0
  end.

Lemma condemn_spec s s1 K V V0 pi :
  stands s1 (pi :: K) (mgrV_add (Some (PodInfo_GetPod pi)) V) → sim_victims s1 = sim_victims s →
  Vequiv V V0 → NoDup (uid <$> pi :: K) → ¬ recorded V (PodInfo_GetPod pi) →
  (∀ n v, V !! n = Some v → is_Some (qv_used (v_quota v))) →
  wp (condemn pod pi) (reprieve_post s K V0 pi false) s1.
Proof.
  intros Hst Hvs HV Hnd Hrec Hs. unfold condemn. apply wp_bind. eapply wp_mono; [by apply removePod_spec|].
  intros [err|] s' Hp; [by apply wp_ret|]. destruct Hp as [Hst' Hvs']. apply wp_bind.
  unfold append_victim. apply wp_modify, wp_ret. split; [done|]. cbn [sim_victims].
  split; [by rewrite Hvs', Hvs|]. eexists. split; [destruct Hst'; by split|].
  rewrite <- HV. by apply mgrV_del_add.
Qed.

Lemma maybeReprievePod_spec s K V V0 pi :
  stands s K V → Vequiv V V0 → NoDup (uid <$> pi :: K) → ¬ recorded V0 (PodInfo_GetPod pi) →
  max_nonneg (mgrV_add (Some (PodInfo_GetPod pi)) V) pod →
  wp (maybeReprievePod pod preemptorQ (FromPodReq (Some pod)) pi)
    (reprieve_post s K V0 pi (fits_at (pi :: K) (mgrV_add (Some (PodInfo_GetPod pi)) V0))) s.
Proof.
  intros Hst HV Hnd Hrec Hmax. unfold maybeReprievePod. apply wp_bind.
  eapply wp_mono; [by apply addPod_spec|]. intros [err|] s1 Hp; [by apply wp_ret|].
  destruct Hp as [Hst1 Hvs]. rewrite wp_bind, wp_get.
  assert (wp (condemn pod pi) (reprieve_post s K V0 pi false) s1) as Hno.
  { eapply (condemn_spec s s1 K V); [done..| |].
    - intros Hr. by eapply Hrec, recorded_equiv.
    - intros n v. by eapply stands_used. }
  assert (value_over (mgrV_add (Some (PodInfo_GetPod pi)) V) pod
    = value_over (mgrV_add (Some (PodInfo_GetPod pi)) V0) pod) as Hov.
  { eapply value_over_equiv; [by rewrite HV| |exact Hmax]. intros n v. by eapply stands_used. }
  pose proof Hst1 as [_ _ _ _ _ Hsync Hnode Hpods].
  rewrite (run_filter _ _ _ Hsync), Hnode, (passes_perm _ _ _ _ Hpods).
  unfold fits_at in *. rewrite <- Hov in *.
  destruct (passes pod node (pi :: K)); cbn [negb andb] in *; [|exact Hno].
  apply wp_bind. eapply over_quota_spec; [exact Hst1|].
  destruct (value_over _ pod); cbn [negb] in *; [exact Hno|].
  apply wp_ret. split_and!; [done|done|]. eexists. split; [exact Hst1|by rewrite HV].
Qed.

(** *** The loops *)
Lemma recorded_adds V p l :
  recorded (adds V l) p → pod_UID p ∈ uid <$> l ∨ recorded V p.
Proof.
  induction l as [|pi l IH]; cbn [adds foldr]; [by right|].
  intros [Hu|Hr]%recorded_add; [left; set_solver|]. destruct (IH Hr); [left; set_solver|by right].
Qed.

Lemma max_nonneg_adds V l : max_nonneg V pod → max_nonneg (adds V l) pod.
Proof. intros Hm. induction l as [|pi l IH]; [done|]. by apply max_nonneg_add. Qed.

Variables (N1 : list PodInfo) (V1 : ManagerV).
Hypothesis V1_max : max_nonneg V1 pod.

(** Does the preemptor fit when the pods [kept] are back on the node? *)
Definition fits (kept : list PodInfo) : bool := fits_at (kept ++ N1) (adds V1 kept).

(** The state of the reprieval: [kept] are back, and the victims are [vs]. *)
Definition reprieving (s : sim) (kept : list PodInfo) (vs : list Pod) : Prop :=
  sim_victims s = vs ∧ ∃ V, stands s (kept ++ N1) V ∧ Vequiv V (adds V1 kept).

Lemma reprieve_all_spec todo : ∀ s kept vs n,
  reprieving s kept vs → NoDup (uid <$> todo ++ kept ++ N1) →
  (∀ pi, pi ∈ todo → ¬ recorded V1 (PodInfo_GetPod pi)) →
  wp (reprieve_all pod preemptorQ (FromPodReq (Some pod)) todo n) (λ r s', match r.2 with
    | Some _ => failed s'
    | None =>
        let '(k, c) := greedy fits kept todo in
        r.1 = (n + Z.of_nat (length c))%Z ∧ reprieving s' k (vs ++ (PodInfo_GetPod <$> c))
    end) s.
Proof.
  induction todo as [|pi todo IH]; intros s kept vs n (Hvs & V & Hst & HV) Hnd Hrec; cbn [reprieve_all greedy].
  { apply wp_ret. simpl. split; [lia|]. rewrite app_nil_r. split; [done|by exists V]. }
  rewrite <- app_comm_cons, fmap_cons in Hnd. pose proof Hnd as [Hni Hnd']%NoDup_cons.
  rewrite wp_bind. eapply wp_mono.
  { apply (maybeReprievePod_spec s (kept ++ N1) V (adds V1 kept) pi Hst HV).
    - rewrite fmap_cons. apply NoDup_cons. split; [set_solver|].
      rewrite fmap_app in Hnd'. by apply NoDup_app in Hnd' as (_ & _ & ?).
    - intros [Hin|Hr]%recorded_adds; [set_solver|]. eapply Hrec; [|exact Hr]. set_solver.
    - apply max_nonneg_add. apply (value_over_equiv (adds V1 kept) V); [by symmetry| |by apply max_nonneg_adds].
      intros k v Hk. specialize (HV k). rewrite Hk in HV. inversion HV as [v1 ? (_ & _ & _ & _ & Hs) Hk1|]; subst.
      apply Hs. by eapply stands_used. }
  intros [b [err|]] s1 Hp; [by apply wp_ret|]. destruct Hp as [Hb Hp]. cbn [fst] in Hb.
  change (fits_at (pi :: kept ++ N1) (mgrV_add (Some (PodInfo_GetPod pi)) (adds V1 kept))) with (fits (pi :: kept)) in *.
  subst b. destruct (fits (pi :: kept)); cbn [negb]; destruct Hp as (Hvs1 & V' & Hst1 & HV1).
  - eapply wp_mono; [apply (IH s1 (pi :: kept) vs n)|done].
    + split; [congruence|by exists V'].
    + change ((pi :: kept) ++ N1) with (pi :: kept ++ N1). by rewrite <- Permutation_middle, fmap_cons.
    + intros pi' Hin. apply Hrec. set_solver.
  - eapply wp_mono; [apply (IH s1 kept (vs ++ [PodInfo_GetPod pi]) (n + 1)%Z)|].
    + split; [congruence|by exists V'].
    + done.
    + intros pi' Hin. apply Hrec. set_solver.
    + intros [cnt [err|]] s2; [done|]. simpl. destruct (greedy fits kept todo) as [k c].
      intros [-> Hr]. split; [simpl; lia|]. by rewrite <- app_assoc in Hr.
Qed.
End simulation.

(** ** [SelectVictimsOnNode] *)
Section selection.
Context {T : ApiTypes} {Q : QuantityOps} {P : PodOps} {L : SelectorOps} {F : FrameworkOps}.
Context {I : ImmutMap} {SS : SliceSort} {QL : QuantityLaws} {NL : NodeInfoLaws} {FL : FrameworkLaws}.
Context {LL : SelectorLaws} {SL : SliceSortLaws}.
Context {O : Type} {C : CycleStateOps (StateData O)} {CL : CycleStateLaws (StateData O)} {H : HandleOps} {R : RunOps}.
Context {fmt_state : StateData O → string} {RL : RunLaws (fmt_state := fmt_state)}.
Implicit Types (V : ManagerV) (K pis : list PodInfo).

(** The snapshot with the pods of a list taken out. *)
Definition dels V pis : ManagerV := foldl (λ V pi, mgrV_del (Some (PodInfo_GetPod pi)) V) V pis.

Lemma remove_all_spec pod node sn M h0 N1 pis : ∀ s V,
  stands (fmt_state := fmt_state) node sn M h0 s (pis ++ N1) V → NoDup (uid <$> pis ++ N1) →
  wp (remove_all pod pis) (λ err s', match err with
    | Some _ => failed (fmt_state := fmt_state) sn h0 s'
    | None => stands (fmt_state := fmt_state) node sn M h0 s' N1 (dels V pis) ∧ sim_victims s' = sim_victims s
    end) s.
Proof.
  induction pis as [|pi pis IH]; intros s V Hst Hnd; cbn [remove_all]; [by apply wp_ret|].
  apply wp_bind. eapply wp_mono; [by apply (removePod_spec pod node sn M h0 s (pis ++ N1) V pi)|].
  intros [err|] s1 Hp; [by apply wp_ret|]. destruct Hp as [Hst1 Hvs]. simpl in Hnd.
  apply NoDup_cons in Hnd as [_ Hnd].
  eapply wp_mono; [by apply IH|]. intros [err|] s2; [done|]. intros [Hst2 Hvs2]. split; [done|congruence].
Qed.

Lemma dels_recorded V pis p :
  recorded (dels V pis) p → recorded V p ∧ ∀ pi, pi ∈ pis → pod_UID p = uid pi →
    pod_queue (Some p) ≠ pod_queue (Some (PodInfo_GetPod pi)).
Proof.
  revert V. induction pis as [|pi pis IH]; intros V; cbn [dels foldl]; [set_solver|].
  intros [Hr Hne]%IH. destruct (recorded_del _ _ _ Hr) as [HV Hd]. split; [done|].
  intros pi' [->|Hin]%elem_of_cons; [exact Hd|by apply Hne].
Qed.

Lemma dels_max_nonneg pod V pis : max_nonneg V pod → max_nonneg (dels V pis) pod.
Proof.
  revert V. induction pis as [|pi pis IH]; intros V Hm; [done|]. apply IH. by apply max_nonneg_del.
Qed.

(** The ingredients of the selection on a node with the pods [K]. *)
Definition others V pod K : list PodInfo := list_filter (λ pi, negb (potential V pod pi)) K.
Definition by_importance (pis : list PodInfo) : list PodInfo :=
  slices_SortFunc (λ a b, CompareImportanceDesc (PodInfo_GetPod a) (PodInfo_GetPod b)) pis.

(** Does the preemptor fit with [kept] back on the node? *)
Definition fits_with V pod node K (kept : list PodInfo) : bool :=
  fits pod node (others V pod K) (dels V (list_filter (potential V pod) K)) kept.

Lemma list_filter_split {A} (f : A → bool) l : list_filter f l ++ list_filter (λ x, negb (f x)) l ≡ₚ l.
Proof.
  induction l as [|x l IH]; [done|]. rewrite !list_filter_cons. destruct (f x); cbn [negb].
  - simpl. by rewrite IH.
  - rewrite <- Permutation_middle. by rewrite IH.
Qed.

(** What the call returns, in the order in which the code decides. *)
Inductive selected V pod pdbs node K sn (s' : sim) : list Pod * Z * Status → Prop :=
| sel_none msg :
    list_filter (potential V pod) K = [] →
    selected V pod pdbs node K sn s' ([], 0%Z, NewStatus UnschedulableAndUnresolvable [msg])
| sel_failed err :
    list_filter (potential V pod) K ≠ [] → ¬ healthy (fmt_state := fmt_state) →
    selected V pod pdbs node K sn s' ([], 0%Z, AsStatus err)
| sel_filter status :
    list_filter (potential V pod) K ≠ [] → Status_IsSuccess status = false →
    passes pod node (others V pod K) = false →
    selected V pod pdbs node K sn s' ([], 0%Z, status)
| sel_quota msg :
    list_filter (potential V pod) K ≠ [] → passes pod node (others V pod K) = true →
    value_over (dels V (list_filter (potential V pod) K)) pod = true →
    selected V pod pdbs node K sn s' ([], 0%Z, NewStatus Unschedulable [msg])
| sel_victims vs ns k1 c1 k c2 :
    list_filter (potential V pod) K ≠ [] →
    fits_with V pod node K [] = true →
    split_violations pdbs [] (by_importance (list_filter (potential V pod) K)) = (vs, ns) →
    greedy (fits_with V pod node K) [] vs = (k1, c1) →
    greedy (fits_with V pod node K) k1 ns = (k, c2) →
    NodeInfo_GetPods (sim_node s') ≡ₚ k ++ others V pod K →
    (∃ V', view_mgr (w_heap (sim_world s')) (QueueMgr sn) = Some V'
       ∧ Vequiv V' (adds (dels V (list_filter (potential V pod) K)) k)) →
    selected V pod pdbs node K sn s'
      (slices_SortFunc CompareImportanceDesc (PodInfo_GetPod <$> c1 ++ c2), Z.of_nat (length c1),
       NewStatus Success []).

Lemma perm_shuffle {A} (a b c d : list A) : (a ++ b ++ c) ++ d ≡ₚ ((b ++ d) ++ a) ++ c.
Proof.
  rewrite (Permutation_app_comm (b ++ d) a), <- !(assoc_L (++)).
  apply Permutation_app_head, Permutation_app_head, Permutation_app_comm.
Qed.

Lemma nodup_part (l1 l2 K : list PodInfo) : l1 ++ l2 ≡ₚ K → NoDup (uid <$> K) → NoDup (uid <$> l1).
Proof. intros <-. rewrite fmap_app. by intros (? & _ & _)%NoDup_app. Qed.

Lemma dels_not_recorded V pis pi : pi ∈ pis → ¬ recorded (dels V pis) (PodInfo_GetPod pi).
Proof. intros Hin [_ Hne]%dels_recorded. by apply (Hne pi Hin). Qed.

(** The reprieval, from a node on which all potential victims are gone. *)
Lemma reprieve_victims_spec pod pdbs node sn M h0 K V s :
  let pis := list_filter (potential V pod) K in
  stands (fmt_state := fmt_state) node sn M h0 s (others V pod K) (dels V pis) → sim_victims s = [] →
  NoDup (uid <$> K) → max_nonneg V pod → pis ≠ [] → fits_with V pod node K [] = true →
  budgets_in_range pdbs (length pis) →
  wp (reprieve_victims pod (n ← pod_queue (Some pod); queueByName M !! n) (FromPodReq (Some pod)) pis pdbs)
    (λ r s', selected V pod pdbs node K sn s' r ∧ ∀ m', m' ≠ QueueMgr sn → view_mgr (w_heap (sim_world s')) m' = view_mgr h0 m') s.
Proof.
  intros pis Hst Hvs Hnd Hmax Hne Hfit Hrange. unfold reprieve_victims.
  assert (by_importance pis ≡ₚ pis) as Hperm by apply sort_perm.
  assert (by_importance pis ++ others V pod K ≡ₚ K) as HK.
  { rewrite Hperm. apply list_filter_split. }
  fold (by_importance pis). rewrite wp_bind, wp_lift.
  rewrite CheckPodRemovalViolations_split by by rewrite Hperm.
  eexists. split; [done|]. cbn [ViolatingPods NonViolatingPods].
  pose proof (split_violations_perm pdbs [] (by_importance pis)) as Hsplit.
  destruct (split_violations pdbs [] (by_importance pis)) as [vs ns] eqn:Es. cbn [fst snd] in *.
  assert ((vs ++ ns) ++ others V pod K ≡ₚ K) as HK2 by by rewrite Hsplit.
  assert (∀ pi, pi ∈ vs ++ ns → ¬ recorded (dels V pis) (PodInfo_GetPod pi)) as Hrec.
  { intros pi Hin. apply dels_not_recorded. by rewrite <- Hperm, <- Hsplit. }
  pose proof (dels_max_nonneg pod V pis Hmax) as Hmax1.
  rewrite wp_bind. eapply wp_mono.
  { apply (reprieve_all_spec pod node sn M h0 _ eq_refl (others V pod K) (dels V pis) Hmax1 vs s [] [] 0%Z).
    - split; [done|]. exists (dels V pis). done.
    - apply (nodup_part _ ns K); [|done]. etransitivity; [|exact HK2].
      cbn [app]. rewrite <- !(assoc_L (++)). apply Permutation_app_head, Permutation_app_comm.
    - intros pi Hin. apply Hrec. set_solver. }
  intros [n [err|]] s1 Hp; [apply wp_ret; destruct Hp; split; [by apply sel_failed|done]|]. cbn [fst snd] in Hp.
  destruct (greedy _ [] vs) as [k1 c1] eqn:E1. destruct Hp as [-> Hrep1].
  pose proof (greedy_perm _ _ _ _ _ E1) as Hp1.
  rewrite wp_bind. eapply wp_mono.
  { apply (reprieve_all_spec pod node sn M h0 _ eq_refl (others V pod K) (dels V pis) Hmax1 ns s1 k1 _ 0%Z Hrep1).
    - apply (nodup_part _ c1 K); [|done]. etransitivity; [|exact HK2].
      rewrite app_nil_r in Hp1. rewrite <- Hp1. apply perm_shuffle.
    - intros pi Hin. apply Hrec. set_solver. }
  intros [n2 [err|]] s2 Hp; [apply wp_ret; destruct Hp; split; [by apply sel_failed|done]|]. cbn [fst snd] in Hp.
  destruct (greedy _ k1 ns) as [k c2] eqn:E2. destruct Hp as [-> [Hvs2 (V2 & Hst2 & HV2)]].
  rewrite wp_bind, wp_get, wp_ret. rewrite Hvs2. cbn [app]. rewrite <- fmap_app. split.
  - eapply sel_victims; [done|done|done|exact E1|exact E2|by destruct Hst2|].
    exists V2. split; [by destruct Hst2|done].
  - by destruct Hst2.
Qed.

Lemma stands_init s sn V K node :
  wf (w_heap (sim_world s)) → ReadQueueSnapshot fmt_state (w_state (sim_world s)) = inl sn →
  view_mgr (w_heap (sim_world s)) (QueueMgr sn) = Some V → in_sync (fmt_state := fmt_state) (w_state (sim_world s)) (sim_node s) →
  NodeInfo_Node (sim_node s) = node → NodeInfo_GetPods (sim_node s) ≡ₚ K →
  ∃ M, stands (fmt_state := fmt_state) node sn M (w_heap (sim_world s)) s K V.
Proof.
  intros Hwf Hsn HV Hsync Hnode Hpods. destruct (view_mgr_mgr _ _ _ HV) as [M HM]. by exists M.
Qed.

(** The error message names the quota; printing it changes no manager. *)
Lemma quota_message_spec pod node sn M h0 s K V :
  stands (fmt_state := fmt_state) node sn M h0 s K V → value_over V pod = true →
  wp (in_world (on_heap (quota ← Queue_Quota (n ← pod_queue (Some pod); queueByName M !! n); Quota_String quota)))
    (λ _ s', ∀ m', m' ≠ QueueMgr sn → view_mgr (w_heap (sim_world s')) m' = view_mgr h0 m') s.
Proof.
  intros [Hwf _ HV HM Hf _ _ _] Eo. unfold value_over, mgrV_get in Eo.
  destruct (pod_queue (Some pod)) as [n|]; [|done]. cbn [mbind option_bind] in *.
  pose proof (view_mgr_lookup _ _ M V n Hwf HM HV) as Hl.
  destruct (queueByName M !! n) as [ql|]; [|by rewrite Hl in Eo].
  destruct Hl as (v & Hv & Hql & _). pose proof Hql as (qu & tl & qo & Hqu & Ht & _)%view_queue_Some.
  rewrite wp_in_world, wp_on_heap, wp_bind. eapply wp_Queue_Quota; [done|]. rewrite Ht.
  eapply wp_mono; [by apply (Quota_String_spec _ ql qu tl v)|]. intros str h2 [Hwf2 Hext2] m' Hne.
  cbn [sim_world w_heap]. rewrite (ext_view_mgr _ _ _ Hwf Hext2). by apply Hf.
Qed.

Lemma SelectVictimsOnNode_spec pod pdbs s sn V :
  let K := NodeInfo_GetPods (sim_node s) in
  wf (w_heap (sim_world s)) → ReadQueueSnapshot fmt_state (w_state (sim_world s)) = inl sn →
  view_mgr (w_heap (sim_world s)) (QueueMgr sn) = Some V → in_sync (fmt_state := fmt_state) (w_state (sim_world s)) (sim_node s) →
  sim_victims s = [] → NoDup (uid <$> K) → max_nonneg V pod →
  budgets_in_range pdbs (length (list_filter (potential V pod) K)) →
  wp (SelectVictimsOnNode fmt_state pod pdbs) (λ r s',
    selected V pod pdbs (NodeInfo_Node (sim_node s)) K sn s' r
    ∧ ∀ m', m' ≠ QueueMgr sn → view_mgr (w_heap (sim_world s')) m' = view_mgr (w_heap (sim_world s)) m') s.
Proof.
  intros K Hwf Hsn HV Hsync Hvs Hnd Hmax Hrange. unfold SelectVictimsOnNode.
  rewrite wp_bind, wp_get, Hsn, wp_bind, wp_in_world, wp_on_heap.
  eapply wp_mono; [by apply findPotentialVictims_spec|]. intros pis h' [-> ->].
  fold K. set (pis := list_filter (potential V pod) K) in *. set (node := NodeInfo_Node (sim_node s)).
  assert (mkSim (mkWorld (w_heap (sim_world s)) (w_state (sim_world s))) (sim_node s) (sim_victims s) = s) as ->
    by by destruct s as [[] ? ?].
  destruct (Nat.eqb_spec (length pis) 0) as [Hz|Hz].
  { apply wp_ret. split; [|done]. apply nil_length_inv in Hz. by apply sel_none. }
  assert (pis ≠ []) as Hne by (intros He; by rewrite He in Hz).
  destruct (stands_init s sn V (pis ++ others V pod K) node) as [M Hst]; [done..| |].
  { symmetry. apply list_filter_split. }
  rewrite wp_bind. eapply wp_mono.
  { apply (remove_all_spec pod node sn M _ (others V pod K) pis s V Hst).
    apply (nodup_part _ [] K); [|done]. rewrite app_nil_r. apply list_filter_split. }
  intros [err|] s1 Hp; [apply wp_ret; destruct Hp; split; [by apply sel_failed|done]|].
  destruct Hp as [Hst1 Hvs1]. rewrite wp_bind, wp_get.
  pose proof Hst1 as [Hwf1 Hsn1 HV1 HM1 Hf1 Hsync1 Hnode1 Hpods1].
  pose proof (run_filter (sim_world s1) pod (sim_node s1) Hsync1) as Hfil.
  rewrite Hnode1, (passes_perm _ _ _ _ Hpods1) in Hfil.
  destruct (Status_IsSuccess _) eqn:Est; cbn [negb].
  2:{ apply wp_ret. split; [|exact Hf1]. by apply sel_filter. }
  rewrite wp_bind, wp_in_world, wp_on_heap.
  set (pq := n ← pod_queue (Some pod); queueByName M !! n).
  assert (Manager_Get (QueueMgr sn) (Some pod) (w_heap (sim_world s1)) = Ret (pq, w_heap (sim_world s1))) as Hget.
  { unfold pq. destruct (pod_queue (Some pod)) as [n|] eqn:En; [by apply Manager_Get_loc|].
    unfold pod_queue in En. simpl in En |- *. by rewrite En. }
  unfold wp at 1. rewrite Hget.
  assert (mkSim (mkWorld (w_heap (sim_world s1)) (w_state (sim_world s1))) (sim_node s1) (sim_victims s1) = s1) as ->
    by by destruct s1 as [[] ? ?].
  rewrite wp_bind. eapply (over_quota_spec pod node sn M _ pq eq_refl); [exact Hst1|].
  destruct (value_over (dels V pis) pod) eqn:Eo.
  - rewrite wp_bind. eapply wp_mono; [by apply (quota_message_spec pod node sn M _ s1 _ _ Hst1)|].
    intros str s2 Hf2. apply wp_ret. split; [|exact Hf2]. by apply sel_quota.
  - eapply wp_mono; [apply (reprieve_victims_spec pod pdbs node sn M _ K V s1 Hst1)|]; try done.
    + congruence.
    + unfold fits_with, fits, fits_at. cbn [app adds foldr]. fold pis. by rewrite <- Hfil, Eo.
Qed.
End selection.
