(* ===== verification/VictimProps.v ===== *)
(** * VictimProps: what victim selection and eligibility guarantee *)

From stdpp Require Import base tactics option list gmap strings sorting.
From Stdlib Require Import ZArith Lia.
From S2P Require Import Prelude.
From S2P Require Import External.
From S2P Require Import Concrete.
From S2P Require Import Resources.
From S2P Require Import Api.
From S2P Require Import Pods.
From S2P Require Import Match.
From S2P Require Import PdbEval.
From S2P Require Import Store.
From S2P Require Import StoreFacts.
From S2P Require Import Quota.
From S2P Require Import Queue.
From S2P Require Import Manager.
From S2P Require Import QueueFacts.
From S2P Require Import ManagerFacts.
From S2P Require Import ManagerProps.
From S2P Require Import Evaluator.
From S2P Require Import State.
From S2P Require Import Plugin.
From S2P Require Import PluginFacts.
From S2P Require Import Preemptor.
From S2P Require Import PreemptorFacts.
From S2P Require Import ValueEquiv.
From S2P Require Import VictimSelection.

(** ** Fitting, on lists without duplicate UIDs *)
Section fitting.
Context {T : ApiTypes} {Q : QuantityOps} {P : PodOps} {L : SelectorOps} {F : FrameworkOps}.
Context {QL : QuantityLaws} {O : Type} {C : CycleStateOps (StateData O)} {R : RunOps}.
Context {fmt_state : StateData O → string} {RL : RunLaws (fmt_state := fmt_state)}.
Implicit Types (V : ManagerV) (K l : list PodInfo).

Lemma all_used_adds V l : all_used V → all_used (adds V l).
Proof. intros Hs. induction l as [|pi l IH]; [done|]. by apply all_used_add. Qed.

Lemma all_used_dels V l : all_used V → all_used (dels V l).
Proof.
  revert V. induction l as [|pi l IH]; intros V Hs; [done|]. apply IH.
  intros n v. unfold mgrV_del. destruct (pod_queue _) as [k|]; [|apply Hs].
  rewrite lookup_alter. case_decide; [|apply Hs]. subst k.
  destruct (V !! n) as [w|] eqn:E; [|done]. intros [= <-]. cbn [on_quota v_quota].
  destruct (Hs n w E) as [mu Hmu]. unfold quotaV_del.
  destruct (qv_pods (v_quota w) !! _); [|by eexists]. cbn [qv_used]. rewrite Hmu, res_sub_Some. by eexists.
Qed.

Lemma adds_perm V l l' : all_used V → l ≡ₚ l' → NoDup (uid <$> l) → Vequiv (adds V l) (adds V l').
Proof.
  intros Hs. induction 1 as [|pi l l' _ IH|pi1 pi2 l|l1 l2 l3 H12 IH12 H23 IH23]; intros Hnd.
  - done.
  - rewrite fmap_cons in Hnd. apply NoDup_cons in Hnd as [_ Hnd]. cbn [adds foldr]. by rewrite (IH Hnd).
  - rewrite !fmap_cons in Hnd. apply NoDup_cons in Hnd as [Hne _]. cbn [adds foldr].
    apply mgrV_add_comm; [|by apply all_used_adds]. unfold uid in Hne. set_solver.
  - rewrite IH12, IH23; [done| |done]. by rewrite <- H12.
Qed.

Section node.
Variables (V : ManagerV) (pod : Pod) (node : Node) (K : list PodInfo).
Hypothesis V_max : max_nonneg V pod.
Hypothesis V_used : all_used V.
(** Evicting a pod never turns a passing node into a failing one. *)
Hypothesis passes_antitone : ∀ pi l, passes (fmt_state := fmt_state) pod node (pi :: l) = true → passes (fmt_state := fmt_state) pod node l = true.
Hypothesis nonneg : ∀ pi, pi ∈ K → res_nonneg (FromPodReq (Some (PodInfo_GetPod pi))).

Lemma fits_with_perm l l' :
  l ≡ₚ l' → NoDup (uid <$> l) → fits_with (fmt_state := fmt_state) V pod node K l = fits_with (fmt_state := fmt_state) V pod node K l'.
Proof.
  intros Hp Hnd. unfold fits_with, fits, fits_at. f_equal.
  - apply passes_perm. by rewrite Hp.
  - f_equal. apply value_over_equiv.
    + apply adds_perm; [by apply all_used_dels|done..].
    + by apply all_used_adds, all_used_dels.
    + by apply max_nonneg_adds, dels_max_nonneg.
Qed.

Lemma fits_with_antitone pi l :
  pi ∈ K → fits_with (fmt_state := fmt_state) V pod node K (pi :: l) = true → fits_with (fmt_state := fmt_state) V pod node K l = true.
Proof.
  unfold fits_with, fits, fits_at. rewrite !andb_true_iff, !negb_true_iff.
  intros Hin [Hp Hq]. split; [by eapply passes_antitone|]. eapply value_over_antitone; [| |by apply nonneg|exact Hq].
  - by apply max_nonneg_adds, dels_max_nonneg.
  - by apply all_used_adds, all_used_dels.
Qed.
End node.
End fitting.

(** ** Properties of [SelectVictimsOnNode] *)
Section selection_properties.
Context {T : ApiTypes} {Q : QuantityOps} {P : PodOps} {L : SelectorOps} {F : FrameworkOps}.
Context {I : ImmutMap} {SS : SliceSort} {QL : QuantityLaws} {PL : PodLaws} {NL : NodeInfoLaws} {FL : FrameworkLaws}.
Context {LL : SelectorLaws} {SL : SliceSortLaws}.
Context {O : Type} {C : CycleStateOps (StateData O)} {CL : CycleStateLaws (StateData O)} {H : HandleOps} {R : RunOps}.
Context {fmt_state : StateData O → string} {RL : RunLaws (fmt_state := fmt_state)}.
Implicit Types (V : ManagerV) (K : list PodInfo) (s : sim) (pod : Pod).

(** What holds when the framework calls [SelectVictimsOnNode]: the cycle state
    has a snapshot with value [V] and is in step with the node, whose pods are
    distinct; the preemptor's queue has no negative maximum; no budget leaves
    [int32]. *)
Record ready s sn V pod pdbs : Prop := mkReady {
  rd_wf : wf (w_heap (sim_world s));
  rd_snap : ReadQueueSnapshot fmt_state (w_state (sim_world s)) = inl sn;
  rd_view : view_mgr (w_heap (sim_world s)) (QueueMgr sn) = Some V;
  rd_sync : in_sync (fmt_state := fmt_state) (w_state (sim_world s)) (sim_node s);
  rd_victims : sim_victims s = [];
  rd_nodup : NoDup (uid <$> NodeInfo_GetPods (sim_node s));
  rd_max : max_nonneg V pod;
  rd_budgets : budgets_in_range pdbs (length (list_filter (potential V pod) (NodeInfo_GetPods (sim_node s))));
}.

Definition preemptor_passes := passes (fmt_state := fmt_state).

(** C3: victim selection refines the greedy specification: it reports that
    there are no potential victims, or that some plugin failed (only if one can
    fail), or that the preemptor does not fit on the node or in its quota even
    without them; otherwise it reprieves the potential victims in order of
    importance, the ones that violate a disruption budget first, keeps every
    pod with which the preemptor still fits, and returns the others.  It never
    panics and changes no manager but the snapshot. *)
Theorem SelectVictims_refines_greedy pod pdbs s sn V :
  ready s sn V pod pdbs →
  wp (SelectVictimsOnNode fmt_state pod pdbs) (λ r s',
    selected (fmt_state := fmt_state) V pod pdbs (NodeInfo_Node (sim_node s)) (NodeInfo_GetPods (sim_node s)) sn s' r
    ∧ ∀ m', m' ≠ QueueMgr sn → view_mgr (w_heap (sim_world s')) m' = view_mgr (w_heap (sim_world s)) m') s.
Proof. intros []. by apply SelectVictimsOnNode_spec. Qed.

(** The data behind a successful selection. *)
Lemma selected_success V pod pdbs node K sn s' victims n st :
  selected (fmt_state := fmt_state) V pod pdbs node K sn s' (victims, n, st) → Status_IsSuccess st = true →
  let pis := list_filter (potential V pod) K in
  ∃ k c1 c2 V', pis ≠ [] ∧ fits_with (fmt_state := fmt_state) V pod node K [] = true
    ∧ victims = slices_SortFunc CompareImportanceDesc (PodInfo_GetPod <$> c1 ++ c2) ∧ n = Z.of_nat (length c1)
    ∧ (∃ vs ns, vs ++ ns ≡ₚ pis ∧ greedy (fits_with (fmt_state := fmt_state) V pod node K) [] (vs ++ ns) = (k, c1 ++ c2))
    ∧ NodeInfo_GetPods (sim_node s') ≡ₚ k ++ others V pod K
    ∧ view_mgr (w_heap (sim_world s')) (QueueMgr sn) = Some V' ∧ Vequiv V' (adds (dels V pis) k).
Proof.
  intros Hsel Hst pis. inversion Hsel as [msg ? Hr|err ? ? Hr|status ? Hf ? Hr|msg ? ? ? Hr
    |vs ns k1 c1 k c2 Hne Hfit Hsplit E1 E2 Hpods (V' & HV' & Heq) Hr]; subst.
  - apply status_success in Hst. by rewrite status_new_code in Hst.
  - apply status_success in Hst. by rewrite status_as_code in Hst.
  - congruence.
  - apply status_success in Hst. by rewrite status_new_code in Hst.
  - exists k, c1, c2, V'. split_and!; try done. exists vs, ns. split.
    + pose proof (split_violations_perm pdbs [] (by_importance pis)) as Hp. unfold pis in Hp.
      rewrite Hsplit in Hp. rewrite Hp. apply sort_perm.
    + by rewrite greedy_app, E1, E2.
Qed.

(** C2: victim selection is sound: on success every victim is a pod of the node
    with strictly lower priority that the preemptor may preempt (both queues
    allowing it, or neither pod having a queue); victims and remaining pods are
    exactly the node's pods; with the remaining pods the preemptor passes the
    filters and its request fits in its queue's quota; the victims are listed
    from the most to the least important. *)
Theorem SelectVictims_sound pod pdbs s sn V :
  ready s sn V pod pdbs →
  wp (SelectVictimsOnNode fmt_state pod pdbs) (λ '(victims, n, st) s', Status_IsSuccess st = true →
    (∀ v, v ∈ victims → v ∈ PodInfo_GetPod <$> NodeInfo_GetPods (sim_node s)
       ∧ (PodPriority v < PodPriority pod)%Z
       ∧ if mgrV_get V (Some pod) is Some _ then allowed V pod v = true else mgrV_get V (Some v) = None)
    ∧ victims ++ (PodInfo_GetPod <$> NodeInfo_GetPods (sim_node s')) ≡ₚ PodInfo_GetPod <$> NodeInfo_GetPods (sim_node s)
    ∧ preemptor_passes pod (NodeInfo_Node (sim_node s)) (NodeInfo_GetPods (sim_node s')) = true
    ∧ (∃ V', view_mgr (w_heap (sim_world s')) (QueueMgr sn) = Some V' ∧ value_over V' pod = false)
    ∧ StronglySorted (λ a b, MoreImportantPod b a = false) victims
    ∧ (0 ≤ n ≤ Z.of_nat (length victims))%Z) s.
Proof.
  intros Hr. eapply wp_mono; [by apply SelectVictimsOnNode_spec; destruct Hr|].
  intros [[victims n] st] s' [Hsel _] Hst. destruct (selected_success _ _ _ _ _ _ _ _ _ _ Hsel Hst)
    as (k & c1 & c2 & V' & Hne & Hfit & Hvict & -> & (vs & ns & Hvn & Hg) & Hpods & HV' & Heq).
  set (K := NodeInfo_GetPods (sim_node s)) in *. set (node := NodeInfo_Node (sim_node s)) in *.
  assert (victims ≡ₚ PodInfo_GetPod <$> c1 ++ c2) as Hperm by (subst victims; apply sort_perm).
  pose proof (greedy_perm _ _ _ _ _ Hg) as Hkc. rewrite app_nil_r, Hvn in Hkc.
  pose proof (greedy_fits _ _ _ _ _ Hg Hfit) as Hfk. unfold fits_with, fits, fits_at in Hfk.
  apply andb_true_iff in Hfk as [Hpass Hquota]. apply negb_true_iff in Hquota.
  split_and!.
  - intros v. rewrite Hperm. intros (pi & -> & Hin)%list_elem_of_fmap.
    assert (pi ∈ list_filter (potential V pod) K) as Hpi by (rewrite <- Hkc; set_solver).
    apply list_elem_of_filter in Hpi as [Hpot HinK]. unfold potential in Hpot.
    split; [by apply list_elem_of_fmap_2|].
    destruct (mgrV_get V (Some pod)) eqn:Eg.
    + split; [|done]. by apply allowed_iff in Hpot as (? & ? & _ & _ & ? & _).
    + apply andb_true_iff in Hpot as [Hq Hp]. apply bool_decide_eq_true in Hq. split; [lia|done].
  - rewrite Hperm, <- fmap_app, Hpods. apply fmap_Permutation.
    rewrite (assoc_L (++)), (Permutation_app_comm _ k), Hkc. apply list_filter_split.
  - unfold preemptor_passes. by rewrite (passes_perm _ _ _ _ Hpods).
  - exists V'. split; [done|]. rewrite <- Hquota. symmetry. apply value_over_equiv; [by symmetry| |].
    + apply all_used_adds, all_used_dels. intros m v Hm.
      destruct (wf_view_used _ _ V m v (rd_wf _ _ _ _ _ Hr) (rd_view _ _ _ _ _ Hr) Hm) as [mu ->]. by eexists.
    + apply max_nonneg_adds, dels_max_nonneg, Hr.
  - subst victims. apply sort_by_importance_sorted.
  - lia.
  - rewrite (Permutation_length Hperm), length_fmap, length_app. lia.
Qed.

(** C4: no victim could be spared: when evicting a pod never makes the filters
    fail and requests are not negative, putting any single victim back on the
    final node would make the preemptor fail the filters or exceed its quota. *)
Theorem SelectVictims_minimal pod pdbs s sn V :
  ready s sn V pod pdbs →
  (∀ pi l, preemptor_passes pod (NodeInfo_Node (sim_node s)) (pi :: l) = true →
     preemptor_passes pod (NodeInfo_Node (sim_node s)) l = true) →
  (∀ pi, pi ∈ NodeInfo_GetPods (sim_node s) → res_nonneg (FromPodReq (Some (PodInfo_GetPod pi)))) →
  wp (SelectVictimsOnNode fmt_state pod pdbs) (λ '(victims, n, st) s', Status_IsSuccess st = true →
    ∀ v, v ∈ victims → ∃ pi V', PodInfo_GetPod pi = v
      ∧ view_mgr (w_heap (sim_world s')) (QueueMgr sn) = Some V'
      ∧ (preemptor_passes pod (NodeInfo_Node (sim_node s)) (pi :: NodeInfo_GetPods (sim_node s')) = false
         ∨ value_over (mgrV_add (Some v) V') pod = true)) s.
Proof.
  intros Hr Hanti Hnn. eapply wp_mono; [by apply SelectVictimsOnNode_spec; destruct Hr|].
  intros [[victims n] st] s' [Hsel _] Hst. destruct (selected_success _ _ _ _ _ _ _ _ _ _ Hsel Hst)
    as (k & c1 & c2 & V' & Hne & Hfit & Hvict & -> & (vs & ns & Hvn & Hg) & Hpods & HV' & Heq).
  set (K := NodeInfo_GetPods (sim_node s)) in *. set (node := NodeInfo_Node (sim_node s)) in *.
  assert (all_used V) as Hs.
  { intros m v Hm. destruct (wf_view_used _ _ V m v (rd_wf _ _ _ _ _ Hr) (rd_view _ _ _ _ _ Hr) Hm) as [mu ->].
    by eexists. }
  intros v Hv. rewrite Hvict, (sort_perm CompareImportanceDesc) in Hv.
  apply list_elem_of_fmap in Hv as (pi & -> & Hin). exists pi, V'. split_and!; [done|done|].
  assert (fits_with (fmt_state := fmt_state) V pod node K (pi :: k) = false) as Hno.
  { apply (greedy_minimal (fits_with (fmt_state := fmt_state) V pod node K)
      (λ l, NoDup (uid <$> l) ∧ ∀ x, x ∈ l → x ∈ K) (vs ++ ns)) with (kept := []) (c := c1 ++ c2).
    - intros x l [Hnd Hl]. rewrite fmap_cons in Hnd. apply NoDup_cons in Hnd as [_ Hnd]. split; [done|set_solver].
    - intros l l' Hp [Hnd Hl]. split; [by rewrite <- Hp|]. intros x. rewrite <- Hp. apply Hl.
    - intros l l' Hp [Hnd _]. apply fits_with_perm; [apply Hr|done..].
    - intros x l [_ Hl]. apply (fits_with_antitone V pod node K (rd_max _ _ _ _ _ Hr) Hs Hanti Hnn). set_solver.
    - rewrite app_nil_r. split.
      + apply (nodup_part _ (others V pod K) K); [|apply Hr]. rewrite Hvn. apply list_filter_split.
      + intros x. rewrite Hvn. intros Hx. by apply list_elem_of_filter in Hx as [_ ?].
    - done.
    - done. }
  unfold fits_with, fits, fits_at in Hno. apply andb_false_iff in Hno as [Hno|Hno].
  - left. unfold preemptor_passes. rewrite <- Hno. apply passes_perm. cbn [app]. by rewrite Hpods.
  - right. apply negb_false_iff in Hno. rewrite <- Hno. cbn [adds foldr] in *. symmetry. apply value_over_equiv.
    + by rewrite Heq.
    + by apply all_used_add, all_used_adds, all_used_dels.
    + apply max_nonneg_add, max_nonneg_adds, dels_max_nonneg, Hr.
Qed.

(** C29: in a cycle in which no plugin fails, the selection succeeds exactly
    when the node has potential victims and the preemptor would fit on it and
    in its quota without them. *)
Theorem SelectVictims_succeeds pod pdbs s sn V :
  ready s sn V pod pdbs → healthy (fmt_state := fmt_state) →
  let K := NodeInfo_GetPods (sim_node s) in
  let pis := list_filter (potential V pod) K in
  wp (SelectVictimsOnNode fmt_state pod pdbs) (λ r s', Status_IsSuccess r.2 = true ↔
    pis ≠ [] ∧ preemptor_passes pod (NodeInfo_Node (sim_node s)) (others V pod K) = true
    ∧ value_over (dels V pis) pod = false) s.
Proof.
  intros Hr Hh K pis. eapply wp_mono; [by apply SelectVictimsOnNode_spec; destruct Hr|].
  intros r s' [Hsel _]. rewrite status_success. unfold preemptor_passes.
  destruct Hsel as [msg Hn|err Hn Hf|status Hn Hf Hp|msg Hn Hp Ho|vs ns k1 c1 k c2 Hn Hfit _ _ _ _ _]; cbn [snd];
    rewrite ?status_new_code.
  - split; [done|]. by intros [? _].
  - done.
  - rewrite <- status_success, Hf. split; [done|]. intros (_ & ? & _). unfold K in *. congruence.
  - split; [done|]. intros (_ & _ & ?). unfold pis, K in *. congruence.
  - unfold fits_with, fits, fits_at in Hfit. cbn [app adds foldr] in Hfit.
    apply andb_true_iff in Hfit as [? ?%negb_true_iff]. done.
Qed.

(** Without a readable snapshot nothing is selected and nothing changes:
    victim selection answers Unschedulable and the eligibility check says no. *)
Theorem no_snapshot pod pdbs s st e :
  ReadQueueSnapshot fmt_state (w_state (sim_world s)) = inr e →
  (∃ msg, SelectVictimsOnNode fmt_state pod pdbs s = Ret ([], 0%Z, NewStatus Unschedulable [msg], s))
  ∧ ∃ reason, PodEligibleToPreemptOthers fmt_state (w_state (sim_world s)) pod st (w_heap (sim_world s))
      = Ret ((false, reason), w_heap (sim_world s)).
Proof.
  intros He. split.
  - eexists. unfold SelectVictimsOnNode, mbind, st_bind, st_get. rewrite He. done.
  - unfold PodEligibleToPreemptOthers. rewrite He.
    destruct (PolicyAllowsPreemption (Some pod)); cbn [negb]; by eexists.
Qed.
End selection_properties.

(** ** Eligibility and the small callbacks *)
Section callbacks.
Context {T : ApiTypes} {Q : QuantityOps} {P : PodOps} {L : SelectorOps} {F : FrameworkOps} {QL : QuantityLaws}.
Context {O : Type} {C : CycleStateOps (StateData O)} {H : HandleOps}.
Variable fmt_state : StateData O → string.
Implicit Types (V : ManagerV) (pod : Pod).

(** C27: a pod is eligible to preempt exactly when its preemption policy and its
    queue's rule let it preempt and either it has no nominated node, or that
    node became unresolvable, or the node exists and none of its pods is an
    awaited victim: one terminating by preemption, of lower priority, open to
    preemption, and in the pod's own queue or, if the pod is within its quota,
    in any queue.  A pod without a queue is never eligible. *)
Theorem PodEligibleToPreemptOthers_correct h c s V pod st :
  wf h → ReadQueueSnapshot fmt_state c = inl s → view_mgr h (QueueMgr s) = Some V →
  wp (PodEligibleToPreemptOthers fmt_state c pod st) (λ r h', h' = h ∧ r.1 = eligible V pod st) h
  ∧ (mgrV_get V (Some pod) = None → eligible V pod st = false).
Proof.
  intros Hwf Hs HV. split; [by eapply PodEligible_spec|].
  intros Hn. unfold eligible, can_preempt. by rewrite Hn, andb_false_r.
Qed.

(** The potential victims are the node's pods, in the node's order, that
    the evaluator allows the preemptor to preempt; for a preemptor without a
    queue, the pods without a queue and of strictly lower priority. *)
Theorem findPotentialVictims_correct h s V pod node :
  wf h → view_mgr h (QueueMgr s) = Some V →
  wp (findPotentialVictims pod s node) (λ l h', h' = h
    ∧ l `sublist_of` NodeInfo_GetPods node
    ∧ ∀ pi, pi ∈ l ↔ pi ∈ NodeInfo_GetPods node ∧
        if mgrV_get V (Some pod) is Some _ then allowed V pod (PodInfo_GetPod pi) = true
        else mgrV_get V (Some (PodInfo_GetPod pi)) = None
             ∧ (PodPriority (PodInfo_GetPod pi) < PodPriority pod)%Z) h.
Proof.
  intros Hwf HV. eapply wp_mono; [by apply findPotentialVictims_spec|]. intros l h' [-> ->].
  split_and!; [done|apply sublist_filter|]. intros pi. unfold list_filter, potential. rewrite list_elem_of_filter.
  destruct (mgrV_get V (Some pod)); [tauto|]. rewrite andb_true_iff, bool_decide_eq_true, Z.ltb_lt. tauto.
Qed.

(** C40: the number of candidates: with a positive maximum and some node, the
    smaller of the two, and without a maximum the number of nodes; but it is
    never less than one, so a maximum of zero or less is exceeded.  It fits an
    [int32]; the offset is the random number. *)
Theorem GetOffsetAndNumCandidates_bounds cfg rand31 nodes :
  int32_range nodes → (∀ m, MaxCandidateNodes cfg = Some m → int32_range m) →
  let '(offset, n) := GetOffsetAndNumCandidates cfg rand31 nodes in
  offset = rand31 ∧ int32_range n
  ∧ (MaxCandidateNodes cfg = None → (1 ≤ nodes → n = nodes) ∧ (nodes < 1 → n = 1))%Z
  ∧ ∀ m, MaxCandidateNodes cfg = Some m →
      (1 ≤ nodes → 1 ≤ m → n = if nodes <=? m then nodes else m)%Z
      ∧ (nodes < 1 ∨ m < 1 → n = 1)%Z ∧ ((n ≤ m)%Z ↔ (1 ≤ m)%Z).
Proof.
  intros Hn Hm. unfold GetOffsetAndNumCandidates, int32_range in *.
  destruct (MaxCandidateNodes cfg) as [m|].
  - specialize (Hm m eq_refl). split_and!; [done|lia|lia|done|]. intros m' [= <-]. split_and!; [|lia|lia].
    intros H1 H2. destruct (Z.leb_spec nodes m); lia.
  - split_and!; [done|lia|lia| |done]. intros _. lia.
Qed.

(** The victims map has exactly the candidates' names, and under each name
    the victims of the last candidate with it. *)
Theorem CandidatesToVictimsMap_correct {Candidate Victims} (name : Candidate → string) (vict : Candidate → Victims) cs n :
  (CandidatesToVictimsMap name vict cs !! n = None ↔ ∀ c, c ∈ cs → name c ≠ n)
  ∧ (∀ l c l', cs = l ++ c :: l' → name c = n → (∀ c', c' ∈ l' → name c' ≠ n) →
       CandidatesToVictimsMap name vict cs !! n = Some (vict c)).
Proof.
  unfold CandidatesToVictimsMap.
  assert (∀ (cs : list Candidate) (m : gmap string Victims), (∀ c, c ∈ cs → name c ≠ n) →
    foldl (λ m c, <[name c := vict c]> m) m cs !! n = m !! n) as Hskip.
  { clear cs. induction cs as [|c cs IH]; intros m Hne; simpl; [done|]. rewrite IH by set_solver.
    apply lookup_insert_ne. apply Hne. set_solver. }
  split.
  - induction cs as [|c cs IH] using rev_ind; simpl; [split; [set_solver|done]|].
    rewrite foldl_app. simpl. rewrite lookup_insert. case_decide as Hd.
    + split; [done|]. intros Hne. exfalso. by eapply Hne; [|exact Hd]; set_solver.
    + rewrite IH. set_solver.
  - intros l c l' -> Hc Hne. rewrite foldl_app. simpl. rewrite Hskip by done. by rewrite Hc, lookup_insert_eq.
Qed.

(** The set of pod UIDs of a node, or an error that wraps [ErrLookupNode]
    when the node cannot be looked up or is nil. *)
Theorem GetPodIDsOnNode_correct name :
  match GetPodIDsOnNode name with
  | inl ids => ∃ node, NodeInfos_Get name = (Some node, None)
      ∧ ∀ u, u ∈ ids ↔ ∃ pi, pi ∈ NodeInfo_GetPods node ∧ pod_UID (PodInfo_GetPod pi) = u
  | inr e => errors_Is e "failed to look up node" = true
      ∧ ∀ node, NodeInfos_Get name ≠ (Some node, None)
  end.
Proof.
  unfold GetPodIDsOnNode. destruct (NodeInfos_Get name) as [[node|] [err|]]; try by split.
  exists node. split; [done|]. intros u.
  assert (∀ (l : list PodInfo) (ids : gset UID),
    u ∈ foldl (λ ids pi, {[pod_UID (PodInfo_GetPod pi)]} ∪ ids) ids l ↔
    (∃ pi, pi ∈ l ∧ pod_UID (PodInfo_GetPod pi) = u) ∨ u ∈ ids) as Hf.
  { induction l as [|pi l IH]; intros ids; simpl; [set_solver|]. rewrite IH. set_solver. }
  rewrite Hf. set_solver.
Qed.
End callbacks.

(** ** The properties at a concrete node *)
Section witnesses.
#[local] Existing Instances c_api c_quantity c_quantity_laws c_pods c_pods_laws c_selector c_selector_laws
  c_framework c_framework_laws c_node_laws c_immut c_sort c_sort_laws.
#[local] Instance x_cycle : CycleStateOps (StateData unit) := c_cycle (StateData unit).
#[local] Instance x_cycle_laws : CycleStateLaws (StateData unit) := c_cycle_laws (StateData unit).

(** No node has nominated pods and none can be looked up. *)
#[local] Instance x_handle : HandleOps := {|
  NodeInfos_List := inl [];
  NodeInfos_Get name := (None, Some (ErrNew "not found"));
  NominatedPodsForNode name := [];
  IsPodRunningPreemption u := false;
|}.
Definition x_fmt (d : StateData unit) : string := "state".

(** The plugin is the only one with extension points; a filter admits the
    preemptor to a node with at most one other pod. *)
#[local] Instance x_run : RunOps := {|
  RunPreFilterExtensionAddPod := Plugin_AddPod x_fmt;
  RunPreFilterExtensionRemovePod := Plugin_RemovePod x_fmt;
  RunFilterPluginsWithNominatedPods w pod n :=
    if (length (NodeInfo_GetPods n) <=? 1)%nat then NewStatus Success [] else NewStatus Unschedulable ["node is full"];
|}.

#[local] Instance x_laws : RunLaws (fmt_state := x_fmt).
Proof.
  refine {| in_sync _ _ := True; healthy := True; passes _ _ l := (length l <=? 1)%nat |}.
  - intros pod node l l' Hp. by rewrite (Permutation_length Hp).
  - intros w pod n _. cbn. by destruct (_ <=? _)%nat.
  - intros w pod pi n s V _ Hwf Hs HV n'. pose proof (Plugin_AddPod_spec x_fmt pod pi n' w s V Hwf Hs HV) as Hp.
    unfold wp in *. simpl. destruct (Plugin_AddPod x_fmt pod pi n' w) as [[r w']|] eqn:E; [|done].
    destruct Hp as [-> [H1 H2 H3 H4]]. split; [done|]. split; [done|]. intros _.
    split; [by eexists _, w'|]. by rewrite H4.
  - intros w pod pi n n' s V _ Hwf _ Hs HV. pose proof (Plugin_RemovePod_spec x_fmt pod pi n' w s V Hwf Hs HV) as Hp.
    unfold wp in *. simpl. destruct (Plugin_RemovePod x_fmt pod pi n' w) as [[r w']|] eqn:E; [|done].
    destruct Hp as [-> [H1 H2 H3 H4]]. split; [done|]. split; [done|]. intros _.
    split; [by eexists _, w'|]. by rewrite H4.
Defined.

(** Two pods of queue "q" with priorities 1 and 2; the preemptor has 5. *)
Definition x_v1 : @Pod c_api := c_pod "v1" "q" 1 [("cpu", 8%Z)].
Definition x_v2 : @Pod c_api := c_pod "v2" "q" 2 [("cpu", 1%Z)].
Definition x_node : @NodeInfo c_api c_framework := (c_node "n1" [], [x_v1; x_v2]).
Definition x_cs : CycleState := WriteQueueSnapshot (∅ : gmap string (StateData unit)) (mkSnapshot 1).
Definition x_sim : sim := mkSim (mkWorld ex_heap_p x_cs) x_node [].

Lemma x_ready : ready (fmt_state := x_fmt) x_sim (mkSnapshot 1) ex_V_p ex_pod [].
Proof.
  split; [exact ex_wf_p|reflexivity|exact ex_view_p|exact I|reflexivity| | |constructor].
  - apply (bool_decide_eq_true_1 (NoDup _)). vm_compute. reflexivity.
  - intros v r Hv Hr. vm_compute in Hv. injection Hv as <-.
    assert (r = "cpu") as ->; [|vm_compute; discriminate].
    assert (r ∈ ({["cpu"]} : gset string)) as Hin; [|set_solver]. exact Hr.
Qed.

(** The outcome, as ground data: "v1" is the victim, "v2" was reprieved. *)
Definition x_outcome : list string * Z * bool :=
  match SelectVictimsOnNode x_fmt ex_pod [] x_sim with
  | Ret (victims, n, st, _) => (pod_UID <$> victims, n, Status_IsSuccess st)
  | Panic => ([], (-1)%Z, false)
  end.

Lemma x_outcome_eq : x_outcome = (["v1"], 0%Z, true).
Proof. vm_compute. reflexivity. Qed.

Lemma SelectVictims_refines_greedy_witness :
  ∃ r s', SelectVictimsOnNode x_fmt ex_pod [] x_sim = Ret (r, s')
    ∧ selected (fmt_state := x_fmt) ex_V_p ex_pod [] (c_node "n1" []) [x_v1; x_v2] (mkSnapshot 1) s' r.
Proof.
  pose proof (SelectVictims_refines_greedy ex_pod [] x_sim (mkSnapshot 1) ex_V_p x_ready) as H.
  unfold wp in H. destruct (SelectVictimsOnNode x_fmt ex_pod [] x_sim) as [[r s']|]; [|destruct H].
  exists r, s'. exact (conj eq_refl (proj1 H)).
Defined.

Lemma SelectVictims_sound_witness :
  ∃ victims n st s', SelectVictimsOnNode x_fmt ex_pod [] x_sim = Ret (victims, n, st, s')
    ∧ pod_UID <$> victims = ["v1"] ∧ (∀ v, v ∈ victims → (PodPriority v < PodPriority ex_pod)%Z)
    ∧ preemptor_passes (fmt_state := x_fmt) ex_pod (c_node "n1" []) (NodeInfo_GetPods (sim_node s')) = true.
Proof.
  pose proof (SelectVictims_sound ex_pod [] x_sim (mkSnapshot 1) ex_V_p x_ready) as H.
  pose proof x_outcome_eq as Ho. unfold x_outcome in Ho. unfold wp in H.
  destruct (SelectVictimsOnNode x_fmt ex_pod [] x_sim) as [[[[victims n] st] s']|]; [|destruct H].
  injection Ho as Hv _ Hst. destruct (H Hst) as (H1 & _ & H2 & _).
  exists victims, n, st, s'. split; [reflexivity|]. split; [exact Hv|].
  split; [intros v Hin; exact (proj1 (proj2 (H1 v Hin)))|exact H2].
Defined.

Lemma SelectVictims_minimal_witness :
  wp (SelectVictimsOnNode x_fmt ex_pod []) (λ '(victims, n, st) s', Status_IsSuccess st = true →
    ∀ v, v ∈ victims → ∃ pi V', PodInfo_GetPod pi = v
      ∧ view_mgr (w_heap (sim_world s')) 1 = Some V'
      ∧ (preemptor_passes (fmt_state := x_fmt) ex_pod (c_node "n1" []) (pi :: NodeInfo_GetPods (sim_node s')) = false
         ∨ value_over (mgrV_add (Some v) V') ex_pod = true)) x_sim.
Proof.
  apply (SelectVictims_minimal ex_pod [] x_sim (mkSnapshot 1) ex_V_p x_ready).
  - intros pi l. unfold preemptor_passes. cbn. destruct l as [|p l]; [reflexivity|intros H; discriminate H].
  - intros pi Hin n.
    assert (∀ q : Z, (0 ≤ q)%Z → FromPodReq (Some (PodInfo_GetPod pi))
      = Some (<["pods" := (10 ^ 9)%Z : @Quantity c_api]> {["cpu" := (q : @Quantity c_api)]}) →
      (0 ≤ qty (FromPodReq (Some (PodInfo_GetPod pi))) n)%Z) as Hq.
    { intros q Hq ->. unfold qty, res_get, gomap_lookup. simpl. rewrite lookup_insert. case_decide; [done|].
      destruct (decide (n = "cpu")) as [->|]; [by rewrite lookup_singleton_eq|by rewrite lookup_singleton_ne]. }
    apply elem_of_cons in Hin as [->|[->|[]%elem_of_nil]%elem_of_cons].
    + apply (Hq 8%Z); [discriminate|vm_compute; reflexivity].
    + apply (Hq 1%Z); [discriminate|vm_compute; reflexivity].
Defined.

Lemma SelectVictims_succeeds_witness :
  ∃ r s', SelectVictimsOnNode x_fmt ex_pod [] x_sim = Ret (r, s') ∧ Status_IsSuccess r.2 = true.
Proof.
  pose proof (SelectVictims_succeeds ex_pod [] x_sim (mkSnapshot 1) ex_V_p x_ready Logic.I) as H.
  cbv zeta in H. unfold wp in H.
  destruct (SelectVictimsOnNode x_fmt ex_pod [] x_sim) as [[r s']|]; [|destruct H].
  exists r, s'. split; [reflexivity|]. apply H. split; [|split; vm_compute; reflexivity].
  intros Hn. apply (f_equal length) in Hn. vm_compute in Hn. discriminate Hn.
Defined.

(** The same simulation from an empty cycle state. *)
Definition x_empty : sim := mkSim (mkWorld ex_heap_p (∅ : gmap string (StateData unit))) x_node [].

Lemma no_snapshot_witness :
  ∃ msg, SelectVictimsOnNode x_fmt ex_pod [] x_empty = Ret ([], 0%Z, NewStatus Unschedulable [msg], x_empty).
Proof.
  destruct (ReadQueueSnapshot x_fmt (w_state (sim_world x_empty))) as [sn|e] eqn:E.
  - vm_compute in E. discriminate E.
  - exact (proj1 (no_snapshot ex_pod [] x_empty Status_nil e E)).
Defined.

(** The preemptor has no nominated node and may preempt. *)
Lemma PodEligibleToPreemptOthers_witness :
  wp (PodEligibleToPreemptOthers x_fmt x_cs ex_pod Status_nil) (λ r h', r.1 = true) ex_heap_p.
Proof.
  eapply wp_mono; [apply (PodEligibleToPreemptOthers_correct x_fmt ex_heap_p x_cs (mkSnapshot 1) ex_V_p ex_pod Status_nil
    ex_wf_p eq_refl ex_view_p)|].
  intros r h' [_ Hr]. rewrite Hr. vm_compute. reflexivity.
Defined.

Lemma findPotentialVictims_witness :
  wp (findPotentialVictims ex_pod (mkSnapshot 1) x_node) (λ l h', ∀ pi, pi ∈ l → pi ∈ [x_v1; x_v2]) ex_heap_p.
Proof.
  eapply wp_mono; [apply (findPotentialVictims_correct ex_heap_p (mkSnapshot 1) ex_V_p ex_pod x_node ex_wf_p ex_view_p)|].
  intros l h' (_ & _ & Hl) pi Hin. exact (proj1 (proj1 (Hl pi) Hin)).
Defined.

(** Three of ten nodes, and one node in spite of a maximum of none. *)
Lemma GetOffsetAndNumCandidates_witness :
  (GetOffsetAndNumCandidates (mkArgsPreemptionConfig (Some 3%Z)) 7 10).2 = 3%Z
  ∧ (GetOffsetAndNumCandidates (mkArgsPreemptionConfig (Some 0%Z)) 7 10).2 = 1%Z
  ∧ ¬ ((GetOffsetAndNumCandidates (mkArgsPreemptionConfig (Some 0%Z)) 7 10).2 ≤ 0)%Z.
Proof.
  assert (int32_range 10) as Hn by (split; [discriminate|reflexivity]).
  assert (∀ k m, (k = 3 ∨ k = 0)%Z → MaxCandidateNodes (mkArgsPreemptionConfig (Some k)) = Some m → int32_range m) as Hm.
  { intros k m [-> | ->] [= <-]; (split; [discriminate|reflexivity]). }
  destruct (GetOffsetAndNumCandidates_bounds (mkArgsPreemptionConfig (Some 3%Z)) 7 10 Hn) as (_ & _ & _ & H3);
    [intros m; apply Hm; by left|].
  destruct (GetOffsetAndNumCandidates_bounds (mkArgsPreemptionConfig (Some 0%Z)) 7 10 Hn) as (_ & _ & _ & H0);
    [intros m; apply Hm; by right|].
  destruct (H3 3%Z eq_refl) as (H3a & _ & _). destruct (H0 0%Z eq_refl) as (_ & H0b & H0c).
  split; [apply H3a; discriminate|]. split; [apply H0b; right; reflexivity|]. intros Hle%H0c. by destruct Hle.
Defined.
End witnesses.
