(* ===== verification/Cycle.v ===== *)
(** * Cycle: preemption makes progress

    [PreFilter] of one cycle leaves a snapshot, [PostFilter] selects victims on
    it, the victims are deleted, and the preemptor comes back in a later
    cycle.  The simulation on the snapshot predicts that cycle: with the victims
    gone and nothing new in the way, [PreFilter] lets the preemptor pass. *)

From stdpp Require Import base tactics option list gmap strings sorting.
From Stdlib Require Import ZArith Lia.
From S2P Require Import Prelude.
From S2P Require Import External.
From S2P Require Import Concrete.
From S2P Require Import Resources.
From S2P Require Import Api.
From S2P Require Import Pods.
From S2P Require Import Match.
From S2P Require Import PdbEval.
From S2P Require Import Store.
From S2P Require Import StoreFacts.
From S2P Require Import Quota.
From S2P Require Import Queue.
From S2P Require Import Manager.
From S2P Require Import QueueFacts.
From S2P Require Import ManagerFacts.
From S2P Require Import ManagerProps.
From S2P Require Import Evaluator.
From S2P Require Import State.
From S2P Require Import Plugin.
From S2P Require Import PluginFacts.
From S2P Require Import PluginProps.
From S2P Require Import ValueEquiv.
From S2P Require Import Preemptor.
From S2P Require Import PreemptorFacts.
From S2P Require Import VictimSelection.
From S2P Require Import VictimProps.

#[local] Arguments pod_queue : simpl never.

(** ** What a queue holds *)
Section holds.
Context {T : ApiTypes} {Q : QuantityOps} {P : PodOps} {QL : QuantityLaws}.
Implicit Types (V : ManagerV) (n : string).

(** The recorded pods of queue [n], and its maximum. *)
Definition held_uids V n : gset UID :=
  match V !! n with Some v => dom (qv_pods (v_quota v)) | None => ∅ end.
Definition max_of V n : option Resources := (λ v, qv_max (v_quota v)) <$> V !! n.

Lemma quotaV_add_holds p q :
  dom (qv_pods (quotaV_add (Some p) q)) = {[pod_UID p]} ∪ dom (qv_pods q)
  ∧ qv_max (quotaV_add (Some p) q) = qv_max q.
Proof.
  unfold quotaV_add. destruct (qv_pods q !! pod_UID p) eqn:E; cbn [qv_pods qv_max]; (split; [|done]).
  - apply elem_of_dom_2 in E. set_solver.
  - apply dom_insert_L.
Qed.

Lemma quotaV_del_holds p q :
  dom (qv_pods (quotaV_del (Some p) q)) = dom (qv_pods q) ∖ {[pod_UID p]}
  ∧ qv_max (quotaV_del (Some p) q) = qv_max q.
Proof.
  unfold quotaV_del. destruct (qv_pods q !! pod_UID p) eqn:E; cbn [qv_pods qv_max]; (split; [|done]).
  - apply dom_delete_L.
  - apply not_elem_of_dom in E. set_solver.
Qed.

Lemma add_holds V p n :
  max_of (mgrV_add (Some p) V) n = max_of V n ∧
  held_uids (mgrV_add (Some p) V) n =
    if bool_decide (pod_queue (Some p) = Some n ∧ is_Some (V !! n)) then {[pod_UID p]} ∪ held_uids V n
    else held_uids V n.
Proof.
  unfold mgrV_add, max_of, held_uids. destruct (pod_queue (Some p)) as [k|].
  2:{ rewrite bool_decide_false; [done|]. by intros []. }
  rewrite lookup_alter. case_decide as Hk; [subst k|].
  - destruct (V !! n) as [v|] eqn:E; cbn [fmap option_fmap option_map on_quota v_quota].
    + rewrite bool_decide_true by (split; [done|by eexists]).
      by destruct (quotaV_add_holds p (v_quota v)) as [-> ->].
    + rewrite bool_decide_false; [done|]. by intros [_ []].
  - rewrite bool_decide_false; [done|]. by intros [[= ->] _].
Qed.

Lemma del_holds V p n :
  max_of (mgrV_del (Some p) V) n = max_of V n ∧
  held_uids (mgrV_del (Some p) V) n =
    if bool_decide (pod_queue (Some p) = Some n) then held_uids V n ∖ {[pod_UID p]} else held_uids V n.
Proof.
  unfold mgrV_del, max_of, held_uids. destruct (pod_queue (Some p)) as [k|]; [|by rewrite bool_decide_false].
  rewrite lookup_alter. case_decide as Hk; [subst k|].
  - rewrite bool_decide_true by done. destruct (V !! n) as [v|] eqn:E;
      cbn [fmap option_fmap option_map on_quota v_quota]; [|split; [done|set_solver]].
    by destruct (quotaV_del_holds p (v_quota v)) as [-> ->].
  - rewrite bool_decide_false; [done|]. congruence.
Qed.

Lemma max_of_some V n : is_Some (max_of V n) ↔ is_Some (V !! n).
Proof. unfold max_of. by rewrite fmap_is_Some. Qed.

(** *** Several pods *)
Lemma add_held V p n u :
  u ∈ held_uids (mgrV_add (Some p) V) n ↔
  u ∈ held_uids V n ∨ (pod_queue (Some p) = Some n ∧ is_Some (V !! n) ∧ u = pod_UID p).
Proof. destruct (add_holds V p n) as [_ ->]. case_bool_decide; set_solver. Qed.

Lemma del_held V p n u :
  u ∈ held_uids (mgrV_del (Some p) V) n ↔ u ∈ held_uids V n ∧ (pod_queue (Some p) = Some n → u ≠ pod_UID p).
Proof. destruct (del_holds V p n) as [_ ->]. case_bool_decide; set_solver. Qed.

Lemma add_some V p n : is_Some (mgrV_add (Some p) V !! n) ↔ is_Some (V !! n).
Proof. rewrite <- !max_of_some. by destruct (add_holds V p n) as [-> _]. Qed.

Lemma del_some V p n : is_Some (mgrV_del (Some p) V !! n) ↔ is_Some (V !! n).
Proof. rewrite <- !max_of_some. by destruct (del_holds V p n) as [-> _]. Qed.

(** *** Accounting *)
Variable req : UID → ResourceName → Z.

(** More pods, a larger total. *)
Lemma pods_total_mono (m1 m2 : gmap UID Pod) r :
  (∀ u, 0 ≤ req u r)%Z → dom m1 ⊆ dom m2 → (pods_total req m1 r ≤ pods_total req m2 r)%Z.
Proof.
  intros Hreq. revert m2. induction m1 as [|u p m1 Hu IH] using map_ind; intros m2 Hsub.
  - assert (∀ m : gmap UID Pod, 0 ≤ pods_total req m r)%Z as Hnn.
    { induction m as [|u p m Hu IH] using map_ind; [done|]. rewrite pods_total_insert by done.
      specialize (Hreq u). lia. }
    specialize (Hnn m2). unfold pods_total at 1, weighed_total. by rewrite map_fold_empty.
  - rewrite dom_insert_L in Hsub.
    destruct (m2 !! u) as [p2|] eqn:E2; [|apply not_elem_of_dom in E2; set_solver].
    rewrite pods_total_insert by done. pose proof (pods_total_delete req m2 u p2 r E2) as Hd.
    specialize (IH (delete u m2)). apply not_elem_of_dom in Hu.
    assert (dom m1 ⊆ dom (delete u m2)) as Hs by (rewrite dom_delete_L; set_solver). specialize (IH Hs). lia.
Qed.

Lemma accountedV_add V p : pod_ok req (Some p) → accountedV req V → accountedV req (mgrV_add (Some p) V).
Proof.
  intros Hp HV. unfold mgrV_add. destruct (pod_queue (Some p)); [|done].
  apply accounted_alter; [done|]. intros q. by apply accounted_add.
Qed.

Lemma accountedV_del V p : pod_ok req (Some p) → accountedV req V → accountedV req (mgrV_del (Some p) V).
Proof.
  intros Hp HV. unfold mgrV_del. destruct (pod_queue (Some p)); [|done].
  apply accounted_alter; [done|]. intros q. by apply accounted_del.
Qed.

Lemma value_over_held V1 V2 pod n :
  (∀ u r, 0 ≤ req u r)%Z → accountedV req V1 → accountedV req V2 →
  pod_queue (Some pod) = Some n → (is_Some (V1 !! n) → max_of V1 n = max_of V2 n) →
  held_uids V1 n ⊆ held_uids V2 n → max_nonneg V2 pod → value_over V2 pod = false → value_over V1 pod = false.
Proof.
  intros Hreq Ha1 Ha2 Hn Hmax Hsub Hnn Hov.
  assert (∀ W : ManagerV, mgrV_get W (Some pod) = W !! n) as Hget by (intros W; unfold mgrV_get; by rewrite Hn).
  destruct (V1 !! n) as [v1|] eqn:E1; [|unfold value_over; by rewrite Hget, E1].
  specialize (Hmax ltac:(by eexists)). unfold max_of, held_uids in Hmax, Hsub. rewrite E1 in Hmax, Hsub.
  destruct (V2 !! n) as [v2|] eqn:E2; [|done]. cbn [fmap option_fmap option_map] in Hmax. injection Hmax as Hmax.
  destruct (Ha1 n v1 E1) as [_ Hq1], (Ha2 n v2 E2) as [_ Hq2].
  destruct (acc_some _ _ Hq1) as [m1 Hm1], (acc_some _ _ Hq2) as [m2 Hm2].
  apply (value_over_spec V1 pod v1 m1); [|by rewrite Hget|done|].
  - intros v r Hv Hr. rewrite Hget, E1 in Hv. injection Hv as <-. rewrite Hmax in Hr |- *.
    apply (Hnn v2 r); [by rewrite Hget|done].
  - intros r Hr. pose proof (proj1 (value_over_spec V2 pod v2 m2 Hnn ltac:(by rewrite Hget) Hm2) Hov r) as Hle.
    rewrite Hmax in Hr |- *. specialize (Hle Hr). rewrite (accounted_used req _ r Hq1). rewrite (accounted_used req _ r Hq2) in Hle.
    pose proof (pods_total_mono (qv_pods (v_quota v1)) (qv_pods (v_quota v2)) r (λ u, Hreq u r) Hsub). lia.
Qed.
End holds.

Section lists.
Context {T : ApiTypes} {Q : QuantityOps} {P : PodOps} {F : FrameworkOps} {QL : QuantityLaws}.
Variable req : UID → ResourceName → Z.
Implicit Types (V : ManagerV) (l : list PodInfo).

Definition pis_ok l : Prop := ∀ pi, pi ∈ l → pod_ok req (Some (PodInfo_GetPod pi)).

Lemma adds_holds V l n :
  pis_ok l → accountedV req V →
  accountedV req (adds V l) ∧ max_of (adds V l) n = max_of V n ∧
  ∀ u, u ∈ held_uids (adds V l) n ↔ u ∈ held_uids V n ∨
    (is_Some (V !! n) ∧ ∃ pi, pi ∈ l ∧ pod_queue (Some (PodInfo_GetPod pi)) = Some n ∧ u = uid pi).
Proof.
  intros Hok HV. induction l as [|pi l IH]; cbn [adds foldr].
  { split_and!; [done|done|]. set_solver. }
  destruct IH as (Ha & Hm & Hh); [intros x Hx; apply Hok; set_solver|]. split_and!.
  - apply accountedV_add; [|done]. apply Hok. set_solver.
  - etrans; [apply add_holds|done].
  - intros u. fold (adds V l). rewrite add_held, Hh.
    assert (is_Some (adds V l !! n) ↔ is_Some (V !! n)) as -> by by rewrite <- !max_of_some, Hm.
    unfold uid. set_solver.
Qed.

Lemma dels_holds V l n :
  pis_ok l → accountedV req V →
  accountedV req (dels V l) ∧ max_of (dels V l) n = max_of V n ∧
  ∀ u, u ∈ held_uids (dels V l) n ↔ u ∈ held_uids V n ∧
    ∀ pi, pi ∈ l → pod_queue (Some (PodInfo_GetPod pi)) = Some n → u ≠ uid pi.
Proof.
  induction l as [|pi l IH] in V |- *; intros Hok HV; cbn [dels foldl].
  { split_and!; [done|done|]. set_solver. }
  destruct (IH (mgrV_del (Some (PodInfo_GetPod pi)) V)) as (Ha & Hm & Hh).
  { intros x Hx. apply Hok. set_solver. }
  { apply accountedV_del; [|done]. apply Hok. set_solver. }
  split_and!; [done| |].
  - etrans; [exact Hm|]. by destruct (del_holds V (PodInfo_GetPod pi) n) as [-> _].
  - intros u. etrans; [apply Hh|]. rewrite del_held. clear. split.
    + intros [[Hu Hne] Hl]. split; [done|]. intros x [-> |Hx]%elem_of_cons Hq; [by apply Hne|by apply Hl].
    + intros [Hu Hl]. split; [split; [done|]|]; intros; (apply Hl; [|done]); by constructor.
Qed.

Lemma nominated_holds V pod l n :
  pis_ok l → accountedV req V → pod_queue (Some pod) = Some n →
  let V' := foldl (nominate pod) V l in
  accountedV req V' ∧ max_of V' n = max_of V n ∧
  ∀ u, u ∈ held_uids V' n ↔ u ∈ held_uids V n ∨
    (is_Some (V !! n) ∧ ∃ nom, nom ∈ l ∧ counted pod (PodInfo_GetPod nom) = true ∧ u = uid nom).
Proof.
  intros Hok HV Hn. induction l as [|nom l IH] in V, Hok, HV |- *; cbn [foldl].
  { split_and!; [done|done|]. set_solver. }
  assert (accountedV req (nominate pod V nom) ∧ max_of (nominate pod V nom) n = max_of V n ∧
    ∀ u, u ∈ held_uids (nominate pod V nom) n ↔ u ∈ held_uids V n ∨
      (is_Some (V !! n) ∧ counted pod (PodInfo_GetPod nom) = true ∧ u = uid nom)) as (Ha1 & Hm1 & Hh1).
  { unfold nominate. destruct (counted pod (PodInfo_GetPod nom)) eqn:Hc; [|by split_and!; [..|set_solver]].
    split_and!; [apply accountedV_add; [apply Hok; set_solver|done]|apply add_holds|].
    intros u. rewrite add_held. unfold counted in Hc. apply andb_true_iff in Hc as [_ Hq%bool_decide_eq_true].
    rewrite Hq. unfold uid. set_solver. }
  destruct (IH (nominate pod V nom)) as (Ha & Hm & Hh); [intros x Hx; apply Hok; set_solver|done|].
  split_and!; [done|congruence|]. intros u. rewrite Hh, Hh1.
  assert (is_Some (nominate pod V nom !! n) ↔ is_Some (V !! n)) as -> by by rewrite <- !max_of_some, Hm1.
  clear. split.
  - intros [[Hu|(Hs & Hc & ->)]|(Hs & x & Hx & Hc & ->)]; [by left|right; split; [done|]; eexists..];
      (split_and!; [|done..]; by constructor).
  - intros [Hu|(Hs & x & [-> |Hx]%elem_of_cons & Hc & ->)]; [auto|auto|]. right. split; [done|]. by exists x.
Qed.
End lists.

(** ** From one cycle to the next *)
Section cycles.
Context {T : ApiTypes} {Q : QuantityOps} {P : PodOps} {L : SelectorOps} {F : FrameworkOps}.
Context {I : ImmutMap} {SS : SliceSort} {QL : QuantityLaws} {PL : PodLaws} {NL : NodeInfoLaws} {FL : FrameworkLaws}.
Context {LL : SelectorLaws} {SL : SliceSortLaws}.
Context {O : Type} {C : CycleStateOps (StateData O)} {CL : CycleStateLaws (StateData O)} {R : RunOps}.
Context {fmt_state : StateData O → string} {RL : RunLaws (fmt_state := fmt_state)}.
Implicit Types (V : ManagerV) (s : sim) (pod : Pod).

Lemma potential_lower V pod pi : potential V pod pi = true → (PodPriority (PodInfo_GetPod pi) < PodPriority pod)%Z.
Proof.
  unfold potential. destruct (mgrV_get V (Some pod)).
  - by intros (? & ? & _ & _ & ? & _)%allowed_iff.
  - rewrite andb_true_iff, Z.ltb_lt. by intros [].
Qed.

(** When the pod's queue exists, the snapshot records the live pods and the
    nominated ones. *)
Lemma prefilter_holds {H : HandleOps} req pod V n nodes :
  accountedV req V → pod_queue (Some pod) = Some n → is_Some (V !! n) →
  NodeInfos_List = inl nodes → pis_ok req (nominated_on nodes) →
  let V' := prefilter_value pod V in
  accountedV req V' ∧ max_of V' n = max_of V n ∧
  ∀ u, u ∈ held_uids V' n ↔ u ∈ held_uids V n ∨
    ∃ nom, nom ∈ nominated_on nodes ∧ counted pod (PodInfo_GetPod nom) = true ∧ u = uid nom.
Proof.
  intros Ha Hn [v Hv] Hl Hok V'. subst V'. unfold prefilter_value, mgrV_get. rewrite Hn, Hl. cbn [mbind option_bind].
  rewrite Hv. destruct (nominated_holds req V pod _ n Hok Ha Hn) as (? & ? & Hh). split_and!; [done..|].
  intros u. rewrite Hh. split; [intros [?|[_ ?]]; auto|]. intros [?|?]; [auto|right]. split; [by eexists|done].
Qed.

(** With victims [c] out of the potential ones, what the final snapshot
    records. *)
Lemma final_holds req V n pis k c u :
  pis_ok req pis → accountedV req V → pis ≡ₚ k ++ c → is_Some (V !! n) →
  u ∈ held_uids V n → (∀ pi, pi ∈ c → u ≠ uid pi) → u ∈ held_uids (adds (dels V pis) k) n.
Proof.
  intros Hok HV Hp Hs Hu Hc. destruct (dels_holds req V pis n Hok HV) as (Hda & Hdm & Hdh).
  destruct (adds_holds req (dels V pis) k n) as (_ & _ & Hah).
  { intros pi Hpi. apply Hok. rewrite Hp. set_solver. } { done. }
  apply Hah. destruct (decide (Exists (λ pi, u = uid pi ∧ pod_queue (Some (PodInfo_GetPod pi)) = Some n) k)) as [Hex|Hex].
  - right. split; [by rewrite <- max_of_some, Hdm, max_of_some|].
    apply Exists_exists in Hex as (pi & ? & ? & ?). by exists pi.
  - left. apply Hdh. split; [done|]. intros pi Hpi Hq Heq. rewrite Hp in Hpi.
    apply elem_of_app in Hpi as [Hpi|Hpi]; [|by apply (Hc pi)]. apply Hex, Exists_exists. by exists pi.
Qed.

(** *** The two cycles
    [H1] is the scheduler at the cycle that preempts, [H2] at the later one. *)
Section two_cycles.
Context {H1 H2 : HandleOps}.
Variables (req : UID → ResourceName → Z) (pod : Pod) (n : string) (nodes1 nodes2 : list NodeInfo).
Hypothesis pod_has_queue : pod_queue (Some pod) = Some n.
Hypothesis list1 : NodeInfos_List (HandleOps := H1) = inl nodes1.
Hypothesis list2 : NodeInfos_List (HandleOps := H2) = inl nodes2.
Let noms1 := nominated_on (H := H1) nodes1.
Let noms2 := nominated_on (H := H2) nodes2.
Hypothesis noms1_ok : pis_ok req noms1.
Hypothesis noms2_ok : pis_ok req noms2.

(** Nothing new stands in the pod's way: its queue keeps its maximum, records
    no pod that it did not record, and none of [gone]; every nominated pod that
    the later cycle counts was counted by the earlier one. *)
Record no_worse V V2 (gone : list Pod) : Prop := mkNoWorse {
  nw_max : max_of V2 n = max_of V n;
  nw_held u : u ∈ held_uids V2 n → u ∈ held_uids V n;
  nw_gone v : v ∈ gone → pod_UID v ∉ held_uids V2 n;
  nw_noms nom : nom ∈ noms2 → counted pod (PodInfo_GetPod nom) = true →
    ∃ nom1, nom1 ∈ noms1 ∧ counted pod (PodInfo_GetPod nom1) = true ∧ uid nom1 = uid nom;
}.

Lemma later_value_fits V V2 K k c :
  let V1 := prefilter_value (H := H1) pod V in
  let pis := list_filter (potential V1 pod) K in
  accountedV req V → accountedV req V2 → (∀ u r, 0 ≤ req u r)%Z → pis_ok req K →
  (∀ pi nom, pi ∈ K → nom ∈ noms1 → uid pi = uid nom →
     PodPriority (PodInfo_GetPod pi) = PodPriority (PodInfo_GetPod nom)) →
  pis ≡ₚ k ++ c → no_worse V V2 (PodInfo_GetPod <$> c) → max_nonneg V1 pod →
  value_over (adds (dels V1 pis) k) pod = false → is_Some (V !! n) →
  value_over (prefilter_value (H := H2) pod V2) pod = false.
Proof.
  intros V1 pis Ha Ha2 Hreq HK Hprio Hp [Hmax Hheld Hgone Hnoms] Hnn Hov Hs.
  assert (is_Some (V2 !! n)) as Hs2 by by rewrite <- max_of_some, Hmax, max_of_some.
  destruct (prefilter_holds (H := H1) req pod V n nodes1) as (Ha1 & Hm1 & Hh1); [done..|].
  destruct (prefilter_holds (H := H2) req pod V2 n nodes2) as (Ha3 & Hm3 & Hh3); [done..|]. fold V1 in Ha1, Hm1, Hh1.
  assert (is_Some (V1 !! n)) as Hs1 by by rewrite <- max_of_some, Hm1, max_of_some.
  assert (pis_ok req pis) as Hpis by (intros pi [_ Hpi]%list_elem_of_filter; by apply HK).
  destruct (dels_holds req V1 pis n Hpis Ha1) as (Hda & Hdm & _).
  destruct (adds_holds req (dels V1 pis) k n) as (Haa & Ham & _); [|done|].
  { intros pi Hpi. apply Hpis. rewrite Hp. set_solver. }
  apply (value_over_held req _ (adds (dels V1 pis) k) pod n); [done..| | |by apply max_nonneg_adds, dels_max_nonneg|done].
  { intros _. congruence. }
  intros u Hu. apply Hh3 in Hu as [Hu|(nom & Hin & Hc & ->)].
  - apply (final_holds req V1 n pis k c); [done..|apply Hh1; left; by apply Hheld|].
    intros pi Hpi ->. apply (Hgone (PodInfo_GetPod pi)); [by apply list_elem_of_fmap_2|done].
  - destruct (Hnoms nom Hin Hc) as (nom1 & Hin1 & Hc1 & <-).
    apply (final_holds req V1 n pis k c); [done..|apply Hh1; right; by exists nom1|].
    intros pi Hpi Heq. assert (pi ∈ pis) as Hpp by (rewrite Hp; set_solver).
    apply list_elem_of_filter in Hpp as [Hpot%potential_lower HinK].
    rewrite (Hprio pi nom1 HinK Hin1 ltac:(done)) in Hpot. unfold counted in Hc1.
    apply andb_true_iff in Hc1 as [[_ Hle%Z.leb_le]%andb_true_iff _]. lia.
Qed.

End two_cycles.
End cycles.

(** ** Two concrete cycles
    Queue "q" has a maximum of 10 cpu and records "v1" with 8 and "v2" with 1.
    The preemptor "p1" asks for 3: the first cycle evicts "v1", and in the later
    one, where only "v2" is recorded, [PreFilter] lets "p1" pass. *)
Section witnesses.
#[local] Existing Instances c_api c_quantity c_quantity_laws c_pods c_pods_laws c_selector c_selector_laws
  c_framework c_framework_laws c_node_laws c_immut c_sort c_sort_laws.
#[local] Existing Instances x_cycle x_cycle_laws x_handle x_run x_laws.

Definition y_req (u : UID) (r : ResourceName) : Z :=
  if bool_decide (u = "v1") then qty (FromPodReq (Some x_v1)) r
  else if bool_decide (u = "v2") then qty (FromPodReq (Some x_v2)) r else 0%Z.
Definition y_add (p : @Pod c_api) (h : heap) : heap := run (run_call 1 (CallAddPod (Some p))) h.
Definition y_live : heap := y_add x_v1 (y_add x_v2 ex_heap_p).
Definition y_later : heap := y_add x_v2 ex_heap_p.
Definition y_view (h : heap) : ManagerV := default ∅ (view_mgr h 1).
Definition y_world (h : heap) : world := mkWorld h (∅ : gmap string (StateData unit)).
Definition y_cycle : world := after (PreFilter w_plugin ex_pod) (y_world y_live).
Definition y_sim : sim := mkSim y_cycle x_node [].

Lemma y_pod_ok p : p = x_v1 ∨ p = x_v2 → pod_ok y_req (Some p).
Proof. intros [-> | ->] q r [= <-]; reflexivity. Qed.

Lemma y_add_reachable p h h' :
  p = x_v1 ∨ p = x_v2 → reachable y_req h → is_Some (h_mgr h !! 1%positive) →
  run_call 1 (CallAddPod (Some p)) h = Ret (None, h') → reachable y_req h'.
Proof. intros Hp Hr Hm Hc. eapply reach_call; [exact Hr|exact Hm|constructor|by apply y_pod_ok|exact Hc]. Qed.

Lemma y_later_ok : heap_ok y_req y_later.
Proof.
  apply reachable_ok. apply (y_add_reachable x_v2 ex_heap_p); [by right|apply ex_reachable_p|vm_compute; by eexists|].
  vm_compute. reflexivity.
Qed.

Lemma y_live_ok : heap_ok y_req y_live.
Proof.
  apply reachable_ok. apply (y_add_reachable x_v1 (y_add x_v2 ex_heap_p));
    [by left| |vm_compute; by eexists|vm_compute; reflexivity].
  apply (y_add_reachable x_v2 ex_heap_p); [by right|apply ex_reachable_p|vm_compute; by eexists|].
  vm_compute. reflexivity.
Qed.

Lemma y_req_nonneg u r : (0 ≤ y_req u r)%Z.
Proof.
  assert (∀ q : Z, (0 ≤ q)%Z →
    (0 ≤ qty (Some (<["pods" := (10 ^ 9)%Z : @Quantity c_api]> {["cpu" := (q : @Quantity c_api)]})) r)%Z) as Hq.
  { intros q Hq. unfold qty, res_get, gomap_lookup. simpl. rewrite lookup_insert. case_decide; [done|].
    destruct (decide (r = "cpu")) as [-> |]; [by rewrite lookup_singleton_eq|by rewrite lookup_singleton_ne]. }
  unfold y_req. destruct (bool_decide _); [apply (Hq 8%Z); discriminate|].
  destruct (bool_decide _); [apply (Hq 1%Z); discriminate|done].
Qed.

Lemma wp_after {A} (m : st world A) (K : world → Prop) w : wp m (λ _, K) w → K (after m w).
Proof. unfold wp, after. by destruct (m w) as [[]|]. Qed.

Lemma y_cycle_wf : wf (w_heap y_cycle).
Proof.
  apply (wp_after _ (λ w', wf (w_heap w'))). eapply wp_mono.
  - exact (PreFilter_spec w_plugin ex_pod (y_world y_live) (y_view y_live) (proj1 y_live_ok) eq_refl).
  - intros r w' (c & Hwf & _). exact Hwf.
Qed.

Lemma y_ready : ready (fmt_state := x_fmt) y_sim (mkSnapshot 2) (prefilter_value ex_pod (y_view y_live)) ex_pod [].
Proof.
  split; [|reflexivity|vm_compute; reflexivity|exact Logic.I|reflexivity| | |constructor].
  - exact y_cycle_wf.
  - apply (bool_decide_eq_true_1 (NoDup _)). vm_compute. reflexivity.
  - intros v r Hv Hr. vm_compute in Hv. injection Hv as <-.
    assert (r = "cpu") as ->; [|vm_compute; discriminate].
    assert (r ∈ ({["cpu"]} : gset string)) as Hin; [|set_solver]. exact Hr.
Qed.

Definition y_outcome : list string * bool :=
  match SelectVictimsOnNode x_fmt ex_pod [] y_sim with
  | Ret (victims, _, st, _) => (pod_UID <$> victims, Status_IsSuccess st)
  | Panic => ([], false)
  end.

Lemma y_outcome_eq : y_outcome = (["v1"], true).
Proof. vm_compute. reflexivity. Qed.

Lemma y_no_worse victims :
  pod_UID <$> victims = ["v1"] →
  no_worse (H1 := x_handle) (H2 := x_handle) ex_pod "q" [] [] (y_view y_live) (y_view y_later) victims.
Proof.
  intros Hv. split; [vm_compute; reflexivity| | |intros nom []%elem_of_nil].
  - assert (held_uids (y_view y_later) "q" ⊆ held_uids (y_view y_live) "q") as Hsub; [|apply Hsub].
    apply (bool_decide_eq_true_1 (_ ⊆ _)). vm_compute. reflexivity.
  - intros v Hin. apply (list_elem_of_fmap_2 pod_UID) in Hin. rewrite Hv in Hin.
    apply list_elem_of_singleton in Hin as ->. apply (bool_decide_eq_true_1 (_ ∉ _)). vm_compute. reflexivity.
Qed.

End witnesses.
