(* ===== verification/ThreadFacts.v ===== *)
(** * ThreadFacts: what lock discipline and stable reasoning guarantee

    [disc]: the code takes locks in increasing rank, gives them back in reverse
    order and acts only under the locks its actions name.  Disciplined
    goroutines do not deadlock, terminate under every schedule and do not race.
    [safe]: a goroutine's code is correct whatever the other ones do in between,
    as long as they respect what it owns. *)

From stdpp Require Import base tactics option list gmap relations.
From Stdlib Require Import ZArith Lia.
From S2P Require Import Prelude.
From S2P Require Import Threads.

(** ** Running code alone *)
Section unlocked_facts.
Context {S K : Type}.

Lemma unlocked_bind {A B} (f : A → proc S K B) (p : proc S K A) s :
  unlocked (p ≫= f) s = (a ← unlocked p; unlocked (f a)) s.
Proof.
  unfold mbind at 1, proc_mbind. induction p as [a|X fp act k IH|md l k IH|md l k IH] in s |- *; simpl; try done.
  unfold mbind, st_bind. destruct (act s) as [[b s']|]; [|done]. apply IH.
Qed.

Lemma unlocked_with_lock {A} md l (p : proc S K A) s : unlocked (with_lock md l p) s = unlocked p s.
Proof.
  unfold with_lock. simpl. pose proof (unlocked_bind (λ a, Release md l (Done a)) p s) as H.
  unfold mbind at 1, proc_mbind in H. rewrite H. unfold mbind, st_bind. simpl.
  by destruct (unlocked p s) as [[a s']|].
Qed.

Lemma unlocked_atomic {A} (fp : list (K * mode)) (act : st S A) s : unlocked (atomic fp act) s = act s.
Proof. unfold atomic. simpl. unfold mbind, st_bind. by destruct (act s) as [[a s']|]. Qed.

Lemma unlocked_critical {A} md l (act : st S A) s : unlocked (critical md l act : proc S K A) s = act s.
Proof. unfold critical. by rewrite unlocked_with_lock, unlocked_atomic. Qed.

Lemma st_bind_ext {A B} (m m' : st S A) (f f' : A → st S B) s :
  m s = m' s → (∀ a s', f a s' = f' a s') → (m ≫= f) s = (m' ≫= f') s.
Proof. intros Hm Hf. unfold mbind, st_bind. rewrite Hm. by destruct (m' s) as [[a s']|]. Qed.
End unlocked_facts.

Lemma st_assoc {S A B C} (p : st S A) (f : A → st S B) (g : B → st S C) s :
  (x ← p; y ← f x; g y) s = (y ← (x ← p; f x); g y) s.
Proof. unfold mbind, st_bind. by destruct (p s) as [[x s']|]. Qed.

Lemma st_ret_l {S A B} (x : A) (f : A → st S B) s : (y ← mret x; f y) s = f x s.
Proof. done. Qed.

Lemma st_bind_eq {S A B} (f : st S A) (g : A → st S B) s :
  (x ← f; g x) s = match f s with Ret (x, s') => g x s' | Panic => Panic end.
Proof. done. Qed.

(** ** Lock discipline *)
Section discipline.
Context {S K : Type} `{EqDecision K} `{UG : Unguarded K} (rank : K → nat).
(** Whether the code may read objects without their locks. *)
Variable raw : Prop.


(** The lock is held, or it is a read without a lock. *)
Definition covered (hs : list (K * mode)) (x : K * mode) : Prop :=
  x ∈ hs ∨ (x.2 = Rd ∧ (x.1, Wr) ∈ hs) ∨ (x.2 = Rd ∧ is_Some (unguarded x.1) ∧ raw).

(** The code starts with the locks [hs] and ends with [hs']. *)
Fixpoint disc {A} (hs : list (K * mode)) (p : proc S K A) (hs' : list (K * mode)) : Prop :=
  match p with
  | Done _ => hs = hs'
  | Act fp _ k => (∀ x, x ∈ fp → covered hs x) ∧ ∀ b, disc hs (k b) hs'
  | Acquire md l k => ((∀ l' md', (l', md') ∈ hs → rank l' < rank l) ∧ unguarded l = None) ∧ disc ((l, md) :: hs) k hs'
  | Release md l k => match hs with x :: hs => x = (l, md) ∧ disc hs k hs' | [] => False end
  end.

Lemma disc_bind {A B} hs hs1 hs2 (p : proc S K A) (f : A → proc S K B) :
  disc hs p hs1 → (∀ a, disc hs1 (f a) hs2) → disc hs (p ≫= f) hs2.
Proof.
  unfold mbind, proc_mbind. intros Hp Hf.
  induction p as [a|X fp act k IH|md l k IH|md l k IH] in hs, Hp |- *; simpl in *.
  - by subst hs1.
  - destruct Hp. split; auto.
  - destruct Hp. split; auto.
  - destruct hs; [done|]. destruct Hp. split; auto.
Qed.

Lemma disc_ret {A} hs (a : A) : disc hs (mret a) hs.
Proof. done. Qed.

Lemma disc_atomic {A} hs fp (act : st S A) : (∀ x, x ∈ fp → covered hs x) → disc hs (atomic fp act) hs.
Proof. done. Qed.

Lemma disc_with_lock {A} hs md l (p : proc S K A) :
  unguarded l = None → (∀ l' md', (l', md') ∈ hs → rank l' < rank l) → disc ((l, md) :: hs) p ((l, md) :: hs) →
  disc hs (with_lock md l p) hs.
Proof.
  intros Hg Hr Hp. split; [done|]. by apply (disc_bind _ _ _ _ _ Hp).
Qed.

Lemma disc_critical {A} hs md l (act : st S A) :
  unguarded l = None → (∀ l' md', (l', md') ∈ hs → rank l' < rank l) → disc hs (critical md l act) hs.
Proof.
  intros Hg Hr. apply disc_with_lock; [done..|]. apply disc_atomic.
  intros x ->%list_elem_of_singleton. left. by left.
Qed.

Lemma disc_for {X} hs (l : list X) (f : X → proc S K unit) :
  (∀ x, disc hs (f x) hs) → disc hs (proc_for l f) hs.
Proof. intros Hf. induction l as [|x l IH]; simpl; [done|]. eapply disc_bind; [apply Hf|done]. Qed.

Context {A : Type}.
Implicit Types (t : thread S K A) (ts : list (thread S K A)) (s : S) (l : K).

Definition thread_ok t : Prop :=
  disc (held t) (code t) [] ∧ (pending t = true → ∃ l k, code t = Acquire Wr l k)
  ∧ ∀ l md, (l, md) ∈ held t → unguarded l = None.

(** A lock held for writing is held by nobody else. *)
Definition exclusive ts : Prop :=
  ∀ i j ti tj l md, i ≠ j → ts !! i = Some ti → ts !! j = Some tj →
    (l, Wr) ∈ held ti → (l, md) ∉ held tj.

Definition config_ok (c : config S K A) : Prop := Forall thread_ok c.2 ∧ exclusive c.2.

Lemma not_writer l ts t : ¬ writer l ts → t ∈ ts → (l, Wr) ∉ held t.
Proof. intros Hw Ht Hl. apply Hw. apply Exists_exists. exists t. auto. Qed.

Lemma not_busy l md ts t : ¬ busy l ts → t ∈ ts → (l, md) ∉ held t.
Proof. intros Hw Ht Hl. apply Hw. apply Exists_exists. exists t. destruct md; auto. Qed.

(** *** Discipline is kept by every step *)

(** The locks after a step: the same, one released, or one taken that no other
    goroutine holds in conflict. *)
Lemma thread_step_held ts t s t' s' :
  thread_ok t → thread_step ts t s = Some (t', s') →
  thread_ok t' ∧ ∀ l md, (l, md) ∈ held t' → (l, md) ∈ held t
    ∨ (md = Rd ∧ ¬ writer l ts) ∨ (md = Wr ∧ ¬ busy l ts).
Proof.
  intros (Hd & Hp & Hg) Hs. unfold thread_step in Hs.
  assert (∀ l md, unguarded l = None → ∀ l' md', (l', md') ∈ (l, md) :: held t → unguarded l' = None) as Hcons.
  { intros l md Hl l' md' [[= -> ->]|Hin]%elem_of_cons; [done|by eapply Hg]. }
  destruct (code t) as [a|B fp act k|md l k|md l k] eqn:Hc; simpl in Hd.
  - done.
  - destruct (act s) as [[b s1]|] eqn:Ha; [|done]. injection Hs as <- <-. split; [|by auto].
    split; [apply Hd|done].
  - destruct Hd as [[Hr Hl] Hk]. destruct md.
    + case_bool_decide as Hw; [done|]. injection Hs as <- <-. split; [split_and!; [done|done|by apply Hcons]|].
      simpl. intros l' md' [[= -> ->]|Hin]%elem_of_cons; auto.
    + destruct (pending t) eqn:Hpd; case_bool_decide as Hw; try done; injection Hs as <- <-.
      * split; [split_and!; [done|done|by apply Hcons]|]. simpl. intros l' md' [[= -> ->]|Hin]%elem_of_cons; auto.
      * split; [split_and!; [done|simpl; by eauto|done]|by auto].
  - destruct (held t) as [|x hs] eqn:Hh; [done|]. destruct Hd as [-> Hk]. simpl in Hs.
    rewrite decide_True in Hs by done. injection Hs as <- <-. split.
    + split_and!; [done|done|]. intros l' md' Hin. eapply Hg. apply elem_of_cons. by right.
    + simpl. intros l' md' Hin. left. apply elem_of_cons. by right.
Qed.

Lemma cstep_ok c c' : config_ok c → cstep c c' → config_ok c'.
Proof.
  intros Hc Hstep. destruct Hstep as [s ts i t t' s' Ht Hs], Hc as [Hok Hex]; simpl in *.
  pose proof (proj1 (Forall_lookup _ _) Hok i t Ht) as Htok.
  destruct (thread_step_held ts t s t' s' Htok Hs) as [Htok' Hh].
  split; [by apply Forall_insert|]. simpl.
  assert (∀ j tj l md, j ≠ i → ts !! j = Some tj → (l, Wr) ∈ held t' → (l, md) ∉ held tj) as H1.
  { intros j tj l md Hne Hj Hl Hl'. destruct (Hh l Wr Hl) as [Hold|[[? _]|[_ Hb]]]; [|done|].
    - by eapply (Hex i j).
    - by eapply (not_busy l md ts tj); [|eapply list_elem_of_lookup_2|]. }
  assert (∀ j tj l md, j ≠ i → ts !! j = Some tj → (l, Wr) ∈ held tj → (l, md) ∉ held t') as H2.
  { intros j tj l md Hne Hj Hl Hl'. destruct (Hh l md Hl') as [Hold|[[-> Hw]|[-> Hb]]].
    - by eapply (Hex j i).
    - by eapply (not_writer l ts tj); [|eapply list_elem_of_lookup_2|].
    - by eapply (not_busy l Wr ts tj); [|eapply list_elem_of_lookup_2|]. }
  intros j1 j2 t1 t2 l md Hne Hj1 Hj2.
  destruct (decide (j1 = i)) as [->|Hn1], (decide (j2 = i)) as [->|Hn2]; [done|..].
  - rewrite list_lookup_insert_eq in Hj1 by by eapply lookup_lt_Some.
    rewrite list_lookup_insert_ne in Hj2 by done. simplify_eq. by eapply H1.
  - rewrite list_lookup_insert_ne in Hj1 by done.
    rewrite list_lookup_insert_eq in Hj2 by by eapply lookup_lt_Some. simplify_eq. by eapply H2.
  - rewrite list_lookup_insert_ne in Hj1, Hj2 by done. exact (Hex j1 j2 t1 t2 l md Hne Hj1 Hj2).
Qed.

Lemma steps_ok c c' : config_ok c → rtc cstep c c' → config_ok c'.
Proof. intros Hc Hs. induction Hs; eauto using cstep_ok. Qed.

Lemma spawn_ok s (ps : list (proc S K A)) :
  (∀ p, p ∈ ps → disc [] p []) → config_ok (s, spawn <$> ps).
Proof.
  intros Hps. split.
  - apply Forall_fmap, Forall_forall. intros p Hp. split_and!; [by apply Hps|done|]. by intros l md ?%elem_of_nil.
  - intros i j ti tj l md _ (p & -> & _)%list_lookup_fmap_Some _ Hl. by apply not_elem_of_nil in Hl.
Qed.

(** *** No deadlock *)

(** The lock a goroutine wants next. *)
Definition wants t : option K := match code t with Acquire _ l _ => Some l | _ => None end.

Definition can_step ts s t : Prop := is_Some (thread_step ts t s).

(** A goroutine that does not want a lock steps, or has returned. *)
Lemma wants_nothing ts s t :
  thread_ok t → ¬ crashes s t → wants t = None → returned t ∨ can_step ts s t.
Proof.
  intros [Hd _] Hc Hw. unfold wants, crashes, returned, can_step, thread_step in *.
  destruct (code t) as [a|B fp act k| |md l k]; [by eauto| |done|].
  - destruct (act s) as [[b s']|]; [by eauto|done].
  - right. destruct (held t) as [|x hs]; [done|]. destruct Hd as [-> _]. simpl.
    rewrite decide_True by done. by eauto.
Qed.

(** A goroutine kept from a lock waits for one that holds it, or for one that
    waits for those who hold it. *)
Lemma blocked ts s t l :
  thread_ok t → wants t = Some l → ¬ can_step ts s t → (writer l ts ∨ (busy l ts ∧ awaits l t)).
Proof.
  intros _ Hw Hb. unfold wants, can_step, thread_step, awaits in *.
  destruct (code t) as [| |[] l' k|]; try done; injection Hw as ->.
  - case_bool_decide; [by left|]. destruct Hb. by eexists.
  - destruct (pending t) eqn:Hp.
    + case_bool_decide; [by right|]. destruct Hb. by eexists.
    + case_bool_decide; [by left|]. destruct Hb. by eexists.
Qed.

(** Some goroutine that wants a lock wants one of the highest rank. *)
Lemma highest ts t l :
  t ∈ ts → wants t = Some l →
  ∃ t' l', t' ∈ ts ∧ wants t' = Some l' ∧ rank l ≤ rank l' ∧
    ∀ t2 l2, t2 ∈ ts → wants t2 = Some l2 → rank l2 ≤ rank l'.
Proof.
  revert t l. induction ts as [|t0 ts IH]; intros t l Hin Hw; [by apply elem_of_nil in Hin|].
  assert ((∀ t2 l2, t2 ∈ ts → wants t2 = Some l2 → False) ∨ ∃ t1 l1, t1 ∈ ts ∧ wants t1 = Some l1) as [Hno|(t1 & l1 & H1 & H2)].
  { destruct (decide (Exists (λ t, is_Some (wants t)) ts)) as [He|He].
    - right. apply Exists_exists in He as (t1 & H1 & [l1 H2]). by exists t1, l1.
    - left. intros t2 l2 H1 H2. apply He, Exists_exists. exists t2. split; [done|by eexists]. }
  - apply elem_of_cons in Hin as [->|Hin]; [|by destruct (Hno t l)].
    exists t0, l. split_and!; [by left|done|done|]. intros t2 l2 [->|H]%elem_of_cons Hw2; [by simplify_eq|].
    by destruct (Hno t2 l2).
  - destruct (IH t1 l1 H1 H2) as (t' & l' & Ht' & Hw' & _ & Hmax).
    destruct (wants t0) as [l0|] eqn:H0; [destruct (decide (rank l0 ≤ rank l')) as [Hle|Hle]|].
    + exists t', l'. split_and!; [by right|done| |].
      * apply elem_of_cons in Hin as [->|Hin]; [by simplify_eq|exact (Hmax t l Hin Hw)].
      * intros t2 l2 [->|H]%elem_of_cons Hw2; [by simplify_eq|exact (Hmax t2 l2 H Hw2)].
    + exists t0, l0. split_and!; [by left|done| |].
      * apply elem_of_cons in Hin as [->|Hin]; [by simplify_eq|]. specialize (Hmax t l Hin Hw). lia.
      * intros t2 l2 [->|H]%elem_of_cons Hw2; [by simplify_eq|]. specialize (Hmax t2 l2 H Hw2). lia.
    + exists t', l'. split_and!; [by right|done| |].
      * apply elem_of_cons in Hin as [->|Hin]; [congruence|exact (Hmax t l Hin Hw)].
      * intros t2 l2 [->|H]%elem_of_cons Hw2; [congruence|exact (Hmax t2 l2 H Hw2)].
Qed.

(** Who holds a lock steps, or wants one of higher rank. *)
Lemma holder_moves ts s t l md :
  thread_ok t → ¬ crashes s t → (l, md) ∈ held t →
  can_step ts s t ∨ ∃ l', wants t = Some l' ∧ rank l < rank l'.
Proof.
  intros Hok Hc Hl. destruct (wants t) as [l'|] eqn:Hw.
  - right. exists l'. split; [done|]. destruct Hok as [Hd _]. unfold wants in Hw.
    destruct (code t); try done. injection Hw as ->. by eapply Hd.
  - left. destruct (wants_nothing ts s t Hok Hc Hw) as [[a Ha]|]; [|done].
    destruct Hok as [Hd _]. rewrite Ha in Hd. simpl in Hd. rewrite Hd in Hl. by apply not_elem_of_nil in Hl.
Qed.

Lemma no_deadlock s ts :
  Forall thread_ok ts → (∀ t, t ∈ ts → ¬ crashes s t) → Forall returned ts ∨ ∃ t, t ∈ ts ∧ can_step ts s t.
Proof.
  intros Hok Hcr. rewrite Forall_forall in Hok.
  destruct (decide (Exists (λ t, is_Some (wants t)) ts)) as [He|He].
  2:{ destruct (decide (Exists (λ t, is_Some (thread_step ts t s)) ts)) as [Hs|Hs].
      { right. apply Exists_exists in Hs as (t & Ht & Hs). by exists t. }
      left. apply Forall_forall. intros t Ht.
      destruct (wants_nothing ts s t) as [?|Hst]; [by auto|by auto| |done|].
      - destruct (wants t) eqn:Hw; [|done]. destruct He. apply Exists_exists. exists t. by rewrite Hw.
      - destruct Hs. apply Exists_exists. by exists t. }
  right. apply Exists_exists in He as (t0 & Ht0 & [l0 Hw0]).
  destruct (highest ts t0 l0 Ht0 Hw0) as (t & l & Ht & Hw & _ & Hmax).
  assert (∀ t1 md, t1 ∈ ts → (l, md) ∈ held t1 → can_step ts s t1) as Hholder.
  { intros t1 md H1 Hl. destruct (holder_moves ts s t1 l md) as [?|(l' & Hw' & Hlt)]; auto.
    specialize (Hmax t1 l' H1 Hw'). lia. }
  assert (busy l ts → ∃ t, t ∈ ts ∧ can_step ts s t) as Hbusy.
  { intros (t1 & H1 & [Hl|Hl])%Exists_exists; by eauto. }
  destruct (decide (is_Some (thread_step ts t s))) as [|Hb]; [by exists t|].
  destruct (blocked ts s t l) as [(t1 & H1 & [Hl|Ha])%Exists_exists|[Hbz _]]; [by auto|done|done|by eauto| |by auto].
  destruct (decide (is_Some (thread_step ts t1 s))) as [|Hb1]; [by exists t1|].
  apply Hbusy. unfold awaits in Ha. destruct (code t1) as [| |[] l1 k|] eqn:Hc1; try done. destruct Ha as [Hp ->].
  unfold thread_step in Hb1. rewrite Hc1, Hp in Hb1. case_bool_decide; [done|]. destruct Hb1. by eexists.
Qed.

(** *** No races *)
Lemma touches_covered ts i t x : Forall thread_ok ts → ts !! i = Some t → x ∈ touches t → covered (held t) x.
Proof.
  intros Hok Hi Hx. pose proof (proj1 (Forall_lookup _ _) Hok i t Hi) as [Hd _].
  unfold touches in Hx. destruct (code t); try by apply not_elem_of_nil in Hx. by apply Hd.
Qed.

(** Locks keep apart whoever writes an object and whoever touches it; what is
    left is a read without the lock. *)
Lemma races_raw s ts :
  config_ok (s, ts) → races ts →
  ∃ i j ti tj l l', i ≠ j ∧ ts !! i = Some ti ∧ ts !! j = Some tj
    ∧ (l, Wr) ∈ touches ti ∧ (l', Rd) ∈ touches tj ∧ unguarded l' = Some l ∧ raw.
Proof.
  intros [Hok Hex] (i & j & ti & tj & l & l' & md & Hne & Hi & Hj & Hl & Hl' & Hsame); simpl in *.
  assert ((l, Wr) ∈ held ti) as H1.
  { by destruct (touches_covered ts i ti _ Hok Hi Hl) as [?|[[[=] _]|[[=] _]]]. }
  pose proof (proj1 (Forall_lookup _ _) Hok i ti Hi) as (_ & _ & Hgi).
  pose proof (proj1 (Forall_lookup _ _) Hok j tj Hj) as (_ & _ & Hgj).
  destruct Hsame as [-> |Hun].
  - destruct (touches_covered ts j tj _ Hok Hj Hl') as [H2|[[_ H2]|(_ & [g H2] & _)]];
      [by destruct (Hex i j ti tj l _ Hne Hi Hj H1 H2)..|]. simpl in H2. by rewrite (Hgi l Wr H1) in H2.
  - destruct (touches_covered ts j tj _ Hok Hj Hl') as [H2|[[_ H2]|(Hmd & _ & Hraw)]];
      [by rewrite (Hgj _ _ H2 : unguarded l' = None) in Hun..|]. simpl in Hmd. subst md. by exists i, j, ti, tj, l, l'.
Qed.

Lemma no_races s ts : ¬ raw → config_ok (s, ts) → ¬ races ts.
Proof. intros Hraw Hok Hr. by destruct (races_raw s ts Hok Hr) as (? & ? & ? & ? & ? & ? & ? & ? & ? & ? & ? & ? & ?). Qed.
End discipline.

(** ** Termination *)
Section termination.
Context {S K A : Type} `{EqDecision K}.
Implicit Types (t : thread S K A) (ts : list (thread S K A)) (s : S).

(** [t'] is [t] after some step. *)
Definition after (t' t : thread S K A) : Prop := ∃ ts s s', thread_step ts t s = Some (t', s').

(** A step leaves less code, or starts the wait for a lock. *)
Lemma after_acc p : ∀ hs b, Acc after (mkThread hs b p).
Proof.
  induction p as [a|X fp act k IH|md l k IH|md l k IH]; intros hs b.
  - constructor. by intros t' (ts & s & s' & [=]).
  - constructor. intros t' (ts & s & s' & Hs). unfold thread_step in Hs. simpl in Hs.
    destruct (act s) as [[b' s1]|]; [|done]. injection Hs as <- <-. apply IH.
  - assert (Acc after (mkThread hs true (Acquire md l k))) as Hw.
    { constructor. intros t' (ts & s & s' & Hs). unfold thread_step in Hs. simpl in Hs.
      destruct md; case_bool_decide; try discriminate Hs; injection Hs as <- <-; apply IH. }
    constructor. intros t' (ts & s & s' & Hs). unfold thread_step in Hs. simpl in Hs.
    destruct md, b; case_bool_decide; try discriminate Hs; injection Hs as <- <-; first [exact Hw|apply IH].
  - constructor. intros t' (ts & s & s' & Hs). unfold thread_step in Hs. simpl in Hs.
    destruct (unhold (l, md) hs) as [hs'|]; [|done]. injection Hs as <- <-. apply IH.
Qed.

(** One element of a list takes a step of [R]. *)
Definition one_step {X} (R : X → X → Prop) (xs' xs : list X) : Prop :=
  ∃ i x x', xs !! i = Some x ∧ R x' x ∧ xs' = <[i := x']> xs.

Lemma one_step_acc {X} (R : X → X → Prop) xs : Forall (Acc R) xs → Acc (one_step R) xs.
Proof.
  induction 1 as [|x xs Hx _ Hxs]; [by constructor; intros ? (? & ? & ? & ? & _)|].
  induction Hx as [x _ IHx] in xs, Hxs |- *. induction Hxs as [xs Hacc IHxs].
  constructor. intros xs' ([|i] & x0 & x' & Hi & HR & ->); simpl in Hi.
  - injection Hi as ->. apply (IHx x' HR). by constructor.
  - apply IHxs. by exists i, x0, x'.
Qed.

(** No schedule runs for ever. *)
Lemma schedules_terminate (c : config S K A) : Acc (flip cstep) c.
Proof.
  destruct c as [s ts]. assert (Acc (one_step after) ts) as Ha.
  { apply one_step_acc, Forall_forall. intros [hs b p] _. apply after_acc. }
  induction Ha as [ts _ IH] in s |- *. constructor. intros c' Hs. unfold flip in Hs.
  inversion Hs as [s0 ts0 i t t' s' Hi Ht]; subst. apply IH. exists i, t, t'. split_and!; [done| |done].
  by exists ts, s, s'.
Qed.

(** From a configuration in an invariant that rules out deadlocks, every
    schedule can be, and the maximal ones are, completed. *)
Lemma schedules_finish (I : config S K A → Prop) :
  (∀ c c', I c → cstep c c' → I c') →
  (∀ c, I c → finished c ∨ ∃ c', cstep c c') →
  ∀ c, I c → ∃ c', rtc cstep c c' ∧ finished c'.
Proof.
  intros Hkeep Hprog c Hc. induction (schedules_terminate c) as [c _ IH].
  destruct (Hprog c Hc) as [Hf|[c1 Hs]]; [by exists c; split; [apply rtc_refl|]|].
  destruct (IH c1 Hs (Hkeep c c1 Hc Hs)) as (c' & Hr & Hf). exists c'. split; [|done]. by eapply rtc_l.
Qed.
End termination.

(** ** Reasoning about one goroutine while the others run

    A goroutine owns a set of objects of type [O] that it has made and that no
    other goroutine knows yet.  [own X s]: the objects [X] exist in [s] and nothing refers
    to them.  [inv] holds at every moment; [grows] is what no step undoes;
    [frame fp] says what an action under the locks [fp] leaves alone. *)
Section stable.
Context {S K O : Type} `{EqDecision K} `{Countable O}.
Context (inv : S → Prop) (grows : S → S → Prop) (own : gset O → S → Prop).
Context (frame : list (K * mode) → S → S → Prop).
Context `{!PreOrder grows}.
Implicit Types (s : S) (X Y : gset O).

(** What the others may do, and what a step of the goroutine must keep to. *)
Definition rely X s s' : Prop := inv s' ∧ grows s s' ∧ own X s'.
Definition guarantee X X' s s' : Prop :=
  inv s' ∧ grows s s' ∧ own X' s' ∧ ∀ Y, Y ## X → own Y s → own Y s' ∧ Y ## X'.

Fixpoint safe {A} (p : proc S K A) (Q : A → gset O → S → Prop) X s : Prop :=
  match p with
  | Done a => ∀ s', rely X s s' → Q a X s'
  | Act fp act k => ∀ s', rely X s s' →
      wp act (λ b s2, frame fp s' s2 ∧ ∃ X', guarantee X X' s' s2 ∧ safe (k b) Q X' s2) s'
  | Acquire _ _ k | Release _ _ k => safe k Q X s
  end.

Lemma rely_trans X s1 s2 s3 : rely X s1 s2 → rely X s2 s3 → rely X s1 s3.
Proof. intros (_ & H1 & _) (? & H2 & ?). split_and!; [done|by etrans|done]. Qed.

Lemma safe_rely {A} (p : proc S K A) Q X s s' : safe p Q X s → rely X s s' → safe p Q X s'.
Proof.
  induction p as [a|B fp act k IH|md l k IH|md l k IH]; simpl; intros Hp Hr; auto; intros s2 Hr2;
    apply Hp; by eapply rely_trans.
Qed.

(** It is enough to show safety in the states that the others leave. *)
Lemma safe_intro {A} (p : proc S K A) Q X s : (∀ s', rely X s s' → safe p Q X s') → safe p Q X s.
Proof.
  assert (∀ s s', rely X s s' → rely X s' s') as Hrefl.
  { intros s1 s2 (? & _ & ?). split_and!; [done|reflexivity|done]. }
  induction p as [a|B fp act k IH|md l k IH|md l k IH]; simpl; intros Hp; auto; intros s2 Hr2;
    apply (Hp s2 Hr2); by eapply Hrefl.
Qed.

Lemma safe_bind {A B} (p : proc S K A) (f : A → proc S K B) P Q X s :
  safe p P X s → (∀ a X' s', inv s' → own X' s' → P a X' s' → safe (f a) Q X' s') → safe (p ≫= f) Q X s.
Proof.
  unfold mbind, proc_mbind. intros Hp Hf.
  induction p as [a|C fp act k IH|md l k IH|md l k IH] in X, s, Hp |- *; simpl in *; auto.
  - apply safe_intro. intros s' Hr. apply Hf; [apply Hr|apply Hr|by apply Hp].
  - intros s' Hr. eapply wp_mono; [by apply Hp|]. intros b s2 (? & X' & ? & ?). eauto.
Qed.

Lemma safe_mono {A} (p : proc S K A) P Q X s :
  safe p P X s → (∀ a X' s', inv s' → own X' s' → P a X' s' → Q a X' s') → safe p Q X s.
Proof.
  intros Hp HPQ. induction p as [a|C fp act k IH|md l k IH|md l k IH] in X, s, Hp |- *; simpl in *; auto.
  - intros s' Hr. apply HPQ; [apply Hr|apply Hr|by apply Hp].
  - intros s' Hr. eapply wp_mono; [by apply Hp|]. intros b s2 (? & X' & ? & ?). eauto.
Qed.

(** What the goroutine knows and no step undoes, it still knows at the end. *)
Lemma safe_stable {A} (R : S → Prop) (p : proc S K A) Q X s :
  (∀ s s', grows s s' → R s → R s') → R s → safe p Q X s → safe p (λ a X' s', Q a X' s' ∧ R s') X s.
Proof.
  intros HR. induction p as [a|C fp act k IH|md l k IH|md l k IH] in X, s |- *; simpl; auto; intros Hs Hp.
  - intros s' Hr. split; [by apply Hp|]. by eapply HR; [apply Hr|].
  - intros s' Hr. eapply wp_mono; [by apply Hp|]. intros b s2 (? & X' & Hgu & ?). split; [done|].
    exists X'. split; [done|]. apply IH; [|done]. eapply HR; [apply Hgu|]. by eapply HR; [apply Hr|].
Qed.

Lemma safe_ret {A} (a : A) Q X s : (∀ s', rely X s s' → Q a X s') → safe (mret a) Q X s.
Proof. done. Qed.

Lemma safe_with_lock {A} md l (p : proc S K A) Q X s : safe p Q X s → safe (with_lock md l p) Q X s.
Proof.
  intros Hp. unfold with_lock. simpl.
  induction p as [a|C fp act k IH|md' l' k IH|md' l' k IH] in X, s, Hp |- *; simpl in *; auto.
  intros s' Hr. eapply wp_mono; [by apply Hp|]. intros b s2 (? & X' & ? & ?). eauto.
Qed.

Lemma safe_atomic {B} fp (act : st S B) Q X s :
  (∀ s', rely X s s' →
     wp act (λ b s2, frame fp s' s2 ∧ ∃ X', guarantee X X' s' s2 ∧ ∀ s3, rely X' s2 s3 → Q b X' s3) s') →
  safe (atomic fp act) Q X s.
Proof. done. Qed.

(** *** From one goroutine to all of them *)
Context {A : Type} (Q : nat → A → gset O → S → Prop).
Implicit Types (t : thread S K A) (ts : list (thread S K A)).

Definition safe_config (c : config S K A) : Prop :=
  inv c.1 ∧ ∃ Xs : nat → gset O, (∀ i, own (Xs i) c.1) ∧ (∀ i j, i ≠ j → Xs i ## Xs j) ∧
    ∀ i t, c.2 !! i = Some t → safe (code t) (Q i) (Xs i) c.1.

(** A step: the code stays safe, and an action keeps to its frame. *)
Lemma thread_step_safe ts t s t' s' q X :
  inv s → own X s → thread_step ts t s = Some (t', s') → safe (code t) q X s →
  (s' = s ∧ safe (code t') q X s) ∨
  (frame (touches t) s s' ∧ ∃ X', guarantee X X' s s' ∧ safe (code t') q X' s').
Proof.
  intros Hinv Hown Hs Hsafe. unfold thread_step, touches in *.
  destruct (code t) as [a|B fp act k|md l k|md l k] eqn:Hc; simpl in Hsafe.
  - done.
  - right. assert (rely X s s) as Hr by by split_and!. specialize (Hsafe s Hr). unfold wp in Hsafe.
    destruct (act s) as [[b s1]|]; [|done]. by injection Hs as <- <-.
  - left. destruct md; [|destruct (pending t)]; case_bool_decide; try discriminate Hs; by injection Hs as <- <-.
  - left. destruct (unhold (l, md) (held t)); [|done]. by injection Hs as <- <-.
Qed.

Lemma cstep_safe c c' : safe_config c → cstep c c' → safe_config c'.
Proof.
  intros Hc Hstep. destruct Hstep as [s ts i t t' s' Ht Hs], Hc as (Hinv & Xs & Hown & Hdisj & Hsafe); simpl in *.
  pose proof (lookup_lt_Some _ _ _ Ht) as Hlt.
  destruct (thread_step_safe ts t s t' s' (Q i) (Xs i)) as [[-> Hs']|(_ & X' & (Hinv' & Hg & Hown' & Hothers) & Hs')]; auto.
  - split; [done|]. exists Xs. split_and!; [done..|]. simpl. intros j tj Hj.
    destruct (decide (i = j)) as [<-|Hne].
    + rewrite list_lookup_insert_eq in Hj by done. by injection Hj as <-.
    + rewrite list_lookup_insert_ne in Hj by done. by apply Hsafe.
  - split; [done|]. exists (λ j, if decide (i = j) then X' else Xs j). split_and!; simpl.
    + intros j. case_decide; [done|]. by apply Hothers; [apply Hdisj|].
    + intros j1 j2 Hne. repeat case_decide; subst; try done; try by apply Hdisj.
      * symmetry. apply Hothers; [by apply Hdisj|done].
      * apply Hothers; [by apply Hdisj|done].
    + intros j tj Hj. case_decide as Hij.
      * subst j. rewrite list_lookup_insert_eq in Hj by done. by injection Hj as <-.
      * rewrite list_lookup_insert_ne in Hj by done. apply (safe_rely _ _ _ s); [by apply Hsafe|].
        split_and!; [done|done|]. apply Hothers; [by apply Hdisj|done].
Qed.

Lemma steps_safe c c' : safe_config c → rtc cstep c c' → safe_config c'.
Proof. intros Hc Hs. induction Hs; eauto using cstep_safe. Qed.

Lemma spawn_safe s (ps : list (proc S K A)) :
  inv s → own ∅ s → (∀ i p, ps !! i = Some p → safe p (Q i) ∅ s) → safe_config (s, spawn <$> ps).
Proof.
  intros Hinv Hown Hps. split; [done|]. exists (λ _, ∅). split_and!; [done|set_solver|].
  simpl. intros i t (p & -> & Hp)%list_lookup_fmap_Some. by apply Hps.
Qed.

(** No action of a safe configuration panics. *)
Lemma safe_no_panic `{UG : Unguarded K} rank raw s ts t :
  safe_config (s, ts) → Forall (thread_ok rank raw) ts → t ∈ ts → ¬ crashes s t.
Proof.
  intros (Hinv & Xs & Hown & _ & Hsafe) Hok Hin Hcr. simpl in *.
  apply list_elem_of_lookup in Hin as [i Hi]. specialize (Hsafe i t Hi).
  pose proof (proj1 (Forall_lookup _ _) Hok i t Hi) as [Hd _]. unfold crashes in Hcr.
  destruct (code t) as [|B fp act k| |md l k]; try done; simpl in *.
  - assert (rely (Xs i) s s) as Hr by by split_and!. specialize (Hsafe s Hr). unfold wp in Hsafe. by rewrite Hcr in Hsafe.
  - destruct (held t) as [|x hs]; [done|]. destruct Hd as [-> _]. apply Hcr. by left.
Qed.

(** Each step keeps to the frame of the action it runs. *)
Lemma cstep_frame s ts s' ts' :
  (∀ fp s, frame fp s s) → safe_config (s, ts) → cstep (s, ts) (s', ts') →
  ∃ i t, ts !! i = Some t ∧ frame (touches t) s s'.
Proof.
  intros Hrefl (Hinv & Xs & Hown & _ & Hsafe) Hstep. inversion Hstep as [s0 ts0 i t t' s1 Ht Hs]; subst.
  exists i, t. split; [done|].
  destruct (thread_step_safe ts t s t' s' (Q i) (Xs i)) as [[-> _]|[? _]]; auto.
Qed.

(** Results: a finished goroutine's result satisfies its postcondition. *)
Lemma safe_result s ts i t a :
  safe_config (s, ts) → ts !! i = Some t → code t = Done a → ∃ X, own X s ∧ Q i a X s.
Proof.
  intros (Hinv & Xs & Hown & _ & Hsafe) Hi Ha. specialize (Hsafe i t Hi). rewrite Ha in Hsafe.
  exists (Xs i). split; [done|]. apply Hsafe. by split_and!.
Qed.

(** Safe and disciplined goroutines finish, whatever the schedule. *)
Lemma safe_progress `{UG : Unguarded K} rank raw c :
  safe_config c → config_ok rank raw c → finished c ∨ ∃ c', cstep c c'.
Proof.
  destruct c as [s ts]. intros Hsafe [Hok Hex]; simpl in *.
  destruct (no_deadlock rank raw s ts Hok) as [Hf|(t & Hin & [[t' s'] Hs])].
  - intros t Ht. by eapply safe_no_panic.
  - by left.
  - right. apply list_elem_of_lookup in Hin as [i Hi]. eexists. by econstructor.
Qed.
End stable.
