(* ===== verification/Locking.v ===== *)
(** * Locking: the queue package with its locks

    [Manager], [Queue] and [Quota] each have a [sync.RWMutex].  The methods
    here are the code of files [Quota], [Queue] and [Manager] with the lock operations
    in their places: each critical section acts with the sequential method's own
    code, and what the code does between two critical sections is a
    separate step.  [qcall] lists the package's operations; a [client] is a
    program that calls them, and [goroutine] its code. *)

From stdpp Require Import base tactics option list gmap strings sorting relations.
From Stdlib Require Import ZArith Lia.
From S2P Require Import Prelude.
From S2P Require Import External.
From S2P Require Import Resources.
From S2P Require Import Api.
From S2P Require Import Match.
From S2P Require Import Store.
From S2P Require Import Quota.
From S2P Require Import Queue.
From S2P Require Import Manager.
From S2P Require Import Threads.

(** The lock of a manager, of a queue and of a quota, which stands for the object
    it guards; and the manager and the quota (with its map of used amounts) as
    they are read without their locks. *)
Inductive lock :=
| LMgr (m : loc)
| LQueue (q : loc)
| LQuota (q : loc)
| OMgr (m : loc)
| OQuota (q : loc).

#[global] Instance lock_eq_dec : EqDecision lock.
Proof. solve_decision. Defined.

(** Locks are taken in this order: managers, queues, quotas. *)
Definition lock_rank (l : lock) : nat :=
  match l with LMgr _ => 0 | LQueue _ => 1 | LQuota _ => 2 | OMgr _ | OQuota _ => 3 end.

#[global] Instance lock_unguarded : Unguarded lock :=
  λ l, match l with OMgr m => Some (LMgr m) | OQuota q => Some (LQuota q) | _ => None end.

Section locking.
Context {T : ApiTypes} {Q : QuantityOps} {P : PodOps} {L : SelectorOps}.

Abbreviation go := (proc heap lock).

(** ** quota.go *)

Definition go_Quota_AddPodIfNotPresent (q : option loc) (pods : list (option Pod)) : go unit :=
  match q with
  | None => mret tt
  | Some ql =>
      if (length pods =? 0)%nat then mret tt
      else critical Wr (LQuota ql) (st_for pods (Quota_AddPod_body ql))
  end.

Definition go_Quota_DeletePodIfPresent (q : option loc) (pods : list (option Pod)) : go unit :=
  match q with
  | None => mret tt
  | Some ql =>
      if (length pods =? 0)%nat then mret tt
      else critical Wr (LQuota ql) (st_for pods (Quota_DeletePod_body ql))
  end.

(** The persistent map of pods is read under the lock, its pods are looked at
    without it, and the victims are deleted under the lock again. *)
Definition go_Quota_DeletePodsFunc {I : ImmutMap} (q : option loc) (predicate : option (Pod → bool))
    : go unit :=
  match q, predicate with
  | Some ql, Some predicate =>
      podsByID ← critical Rd (LQuota ql) (qo ← load_quota ql; mret (quota_podsByID qo));
      let victims := filter (λ p, predicate p = true) (immut_Values podsByID) in
      go_Quota_DeletePodIfPresent q (Some <$> victims)
  | _, _ => mret tt
  end.

Definition go_Quota_Max (q : option loc) : go (option loc) :=
  match q with
  | None => mret None
  | Some ql => critical Rd (LQuota ql) (Quota_Max (Some ql))
  end.

Definition go_Quota_SetMax (q : option loc) (max : option loc) : go unit :=
  match q with
  | None => mret tt
  | Some ql => critical Wr (LQuota ql) (Quota_SetMax (Some ql) max)
  end.

Definition go_Quota_Used (q : option loc) : go (option loc) :=
  match q with
  | None => mret None
  | Some ql => critical Rd (LQuota ql) (Quota_Used (Some ql))
  end.

Definition go_Quota_ContainsPod (q : option loc) (pod : option Pod) : go bool :=
  match q with
  | None => mret false
  | Some ql => critical Rd (LQuota ql) (Quota_ContainsPod (Some ql) pod)
  end.

Definition go_Quota_WouldPutOverMax (q : option loc) (request : Resources) : go bool :=
  match q with
  | None => mret false
  | Some ql => critical Rd (LQuota ql) (Quota_WouldPutOverMax (Some ql) request)
  end.

Definition go_Quota_Clone (q : option loc) : go (option loc) :=
  match q with
  | None => mret None
  | Some ql => critical Rd (LQuota ql) (Quota_Clone (Some ql))
  end.

(** The map that [Used] returns is the quota's own: reading it is an access
    without the lock. *)
Definition go_Quota_UsedMap (q : option loc) : go Resources :=
  used ← go_Quota_Used q;
  atomic (match q with Some ql => [(OQuota ql, Rd)] | None => [] end) (load_res used).

(** Maps that serve as maxima are never written. *)
Definition go_Quota_MaxMap (q : option loc) : go Resources :=
  max ← go_Quota_Max q;
  atomic [] (load_res max).

(** [q.Clone().stringNoLock()] *)
Definition go_Quota_String {I : ImmutMap} {SS : SliceSort} (q : option loc) : go string :=
  clone ← go_Quota_Clone q;
  atomic (match clone with Some l => [(OQuota l, Rd)] | None => [] end) (Quota_stringNoLock clone).

(** ** queue.go *)

Definition go_Queue_Name (q : option loc) : go string :=
  match q with
  | None => mret ""
  | Some l => critical Rd (LQueue l) (Queue_Name (Some l))
  end.

Definition go_Queue_Quota (q : option loc) : go (option loc) :=
  match q with
  | None => mret None
  | Some l => critical Rd (LQueue l) (Queue_Quota (Some l))
  end.

Definition go_Queue_PreemptionConfig (q : option loc) : go PreemptionConfig :=
  match q with
  | None => mret PreemptionConfig_zero
  | Some l => critical Rd (LQueue l) (Queue_PreemptionConfig (Some l))
  end.

Definition go_Queue_CanPodBePreemptedByOthers (q : option loc) (pod : option Pod) : go bool :=
  match q, pod with
  | Some l, Some _ => critical Rd (LQueue l) (Queue_CanPodBePreemptedByOthers (Some l) pod)
  | _, _ => mret false
  end.

Definition go_Queue_Labels (q : option loc) : go (option (gomap string)) :=
  match q with
  | None => mret None
  | Some l => critical Rd (LQueue l) (Queue_Labels (Some l))
  end.

(** The options of the package, as data. *)
Inductive queue_opt :=
| OptQuotaMax (max : option loc)
| OptLabels (lbls : option (gomap string))
| OptPreemptionConfig (config : PreemptionConfig).

Definition opt_fun (o : queue_opt) : QueueOption :=
  match o with
  | OptQuotaMax max => WithQuotaMax max
  | OptLabels lbls => WithLabels lbls
  | OptPreemptionConfig config => WithPreemptionConfig config
  end.

(** An option, applied under the queue's lock: [WithQuotaMax] takes the quota's too. *)
Definition go_opt (o : queue_opt) (q : option loc) : go unit :=
  match q with
  | None => mret tt
  | Some l =>
      match o with
      | OptQuotaMax max =>
          qu ← atomic [(LQueue l, Rd)] (load_queue l);
          go_Quota_SetMax (queue_quota qu) max
      | OptLabels lbls => atomic [(LQueue l, Wr)] (WithLabels lbls (Some l))
      | OptPreemptionConfig config => atomic [(LQueue l, Wr)] (WithPreemptionConfig config (Some l))
      end
  end.

Definition go_Queue_ApplyOpts (q : option loc) (opts : list queue_opt) : go unit :=
  match q with
  | None => mret tt
  | Some l => with_lock Wr (LQueue l) (proc_for opts (λ o, go_opt o (Some l)))
  end.

(** The new objects are known to nobody else yet; the options still lock them. *)
Definition go_Queue_New (name : string) (opts : list queue_opt) : go loc :=
  q ← atomic []
    (quota ← NewQuota None;
     alloc_queue (mkQueue name (Some quota) (Some gomap_make) PreemptionConfig_zero));
  go_Queue_ApplyOpts (Some q) opts ;;
  mret q.

Definition go_Queue_Clone (q : option loc) : go (option loc) :=
  match q with
  | None => mret None
  | Some l =>
      with_lock Rd (LQueue l)
        (qu ← atomic [(LQueue l, Rd)] (load_queue l);
         quota ← go_Quota_Clone (queue_quota qu);
         l' ← atomic [(LQueue l, Rd)]
           (alloc_queue (mkQueue (queue_name qu) quota (queue_labels qu) (queue_preemptionCfg qu)));
         mret (Some l'))
  end.

(** ** manager.go *)

Definition go_Manager_GetByName (qm : loc) (name : string) : go (option loc) :=
  critical Rd (LMgr qm) (Manager_GetByName qm name).

Definition go_Manager_Get (qm : loc) (pod : option Pod) : go (option loc) :=
  match pod with
  | None => mret None
  | Some pod =>
      match gomap_lookup (pod_Labels pod) LabelKeyQueue with
      | None => mret None
      | Some name => go_Manager_GetByName qm name
      end
  end.

Definition go_Manager_Put (qm : loc) (name : string) (opts : list queue_opt) : go unit :=
  with_lock Wr (LMgr qm)
    (q ← go_Queue_New name opts;
     atomic [(LMgr qm, Wr)] (Manager_insert qm name q)).

Definition go_Manager_Update (qm : loc) (name : string) (opts : list queue_opt) : go unit :=
  if (length opts =? 0)%nat then mret tt
  else
    with_lock Wr (LMgr qm)
      (q ← atomic [(LMgr qm, Rd)] (Manager_GetByName qm name);
       match q with
       | None =>
           q ← go_Queue_New name opts;
           atomic [(LMgr qm, Wr)] (Manager_insert qm name q)
       | Some q => go_Queue_ApplyOpts (Some q) opts
       end).

Definition go_Manager_Delete (qm : loc) (name : string) : go unit :=
  critical Wr (LMgr qm) (Manager_Delete qm name).

(** The manager's lock is released before the queue's is taken, and that one before the quota's. *)
Definition go_Manager_AddPodIfNotPresent (qm : loc) (pod : option Pod) : go (option go_error) :=
  match pod with
  | None => mret None
  | Some p =>
      match gomap_lookup (pod_Labels p) LabelKeyQueue with
      | None => mret None
      | Some queueName =>
          q ← go_Manager_GetByName qm queueName;
          match q with
          | None => mret (Some (queue_does_not_exist ErrAddPodToQuota queueName))
          | Some _ =>
              quota ← go_Queue_Quota q;
              go_Quota_AddPodIfNotPresent quota [pod] ;;
              mret None
          end
      end
  end.

Definition go_Manager_DeletePodIfPresent (qm : loc) (pod : option Pod) : go (option go_error) :=
  match pod with
  | None => mret None
  | Some p =>
      match gomap_lookup (pod_Labels p) LabelKeyQueue with
      | None => mret None
      | Some queueName =>
          q ← go_Manager_GetByName qm queueName;
          match q with
          | None => mret (Some (queue_does_not_exist ErrRemovePodFromQuota queueName))
          | Some _ =>
              quota ← go_Queue_Quota q;
              go_Quota_DeletePodIfPresent quota [pod] ;;
              mret None
          end
      end
  end.

Fixpoint go_clone_queues (items : list (string * loc)) (queuesClone : gmap string loc)
    : go (gmap string loc) :=
  match items with
  | [] => mret queuesClone
  | (name, queue) :: items =>
      q ← go_Queue_Clone (Some queue);
      l ← atomic [] (st_some q);
      go_clone_queues items (<[name := l]> queuesClone)
  end.

(** The map of queues is copied under the manager's lock; the queues are cloned
    one after the other without it. *)
Definition go_Manager_Clone (qm : loc) : go loc :=
  queuesClone ← critical Rd (LMgr qm) (m ← load_mgr qm; mret (queueByName m));
  queuesClone ← go_clone_queues (map_to_list queuesClone) queuesClone;
  atomic [] (alloc_mgr (mkManager queuesClone)).

(** [range qmClone.queueByName] in [QueueIter] *)
Definition go_Manager_range (qm : loc) : go (list loc) :=
  atomic [(OMgr qm, Rd)] (m ← load_mgr qm; mret (map_to_list (queueByName m)).*2).

(** ** Programs that use the package

    [qcall B]: an operation with its arguments; [B] is the type of its result. *)
Inductive qcall : Type → Type :=
| QNewManager : qcall loc
(** a map of resources that the caller makes, for a maximum *)
| QMakeResources (r : Resources) : qcall (option loc)
| QPut (qm : loc) (name : string) (opts : list queue_opt) : qcall unit
| QUpdate (qm : loc) (name : string) (opts : list queue_opt) : qcall unit
| QDelete (qm : loc) (name : string) : qcall unit
| QGetByName (qm : loc) (name : string) : qcall (option loc)
| QGet (qm : loc) (pod : option Pod) : qcall (option loc)
| QAddPod (qm : loc) (pod : option Pod) : qcall (option go_error)
| QDeletePod (qm : loc) (pod : option Pod) : qcall (option go_error)
| QClone (qm : loc) : qcall loc
| QApplyOpts (q : option loc) (opts : list queue_opt) : qcall unit
| QName (q : option loc) : qcall string
| QQuota (q : option loc) : qcall (option loc)
| QPreemptionConfig (q : option loc) : qcall PreemptionConfig
| QCanPodBePreempted (q : option loc) (pod : option Pod) : qcall bool
| QLabels (q : option loc) : qcall (option (gomap string))
| QQuotaAdd (q : option loc) (pods : list (option Pod)) : qcall unit
| QQuotaDelete (q : option loc) (pods : list (option Pod)) : qcall unit
| QQuotaDeleteFunc {I : ImmutMap} (q : option loc) (predicate : option (Pod → bool)) : qcall unit
| QMax (q : option loc) : qcall (option loc)
| QSetMax (q : option loc) (max : option loc) : qcall unit
| QUsed (q : option loc) : qcall (option loc)
| QContainsPod (q : option loc) (pod : option Pod) : qcall bool
| QWouldPutOverMax (q : option loc) (request : Resources) : qcall bool
(** accesses without the locks: the queues of a manager, the contents of a
    quota's maps, and a quota's string *)
| QRange (qm : loc) : qcall (list loc)
| QUsedMap (q : option loc) : qcall Resources
| QMaxMap (q : option loc) : qcall Resources
| QString {I : ImmutMap} {SS : SliceSort} (q : option loc) : qcall string
(** the caller reads a field of a nil pointer of its own *)
| QNil (B : Type) : qcall B.

(** The calls that read an object without its lock. *)
Definition raw_call {B} (c : qcall B) : Prop :=
  match c with QRange _ | QUsedMap _ | QString _ => True | _ => False end.

(** The operation with its locks, and as the sequential files have it. *)
Definition go_call {B} (c : qcall B) : go B :=
  match c in qcall B return go B with
  | QNewManager => atomic [] NewManager
  | QMakeResources r => atomic [] (alloc_res r)
  | QPut qm name opts => go_Manager_Put qm name opts
  | QUpdate qm name opts => go_Manager_Update qm name opts
  | QDelete qm name => go_Manager_Delete qm name
  | QGetByName qm name => go_Manager_GetByName qm name
  | QGet qm pod => go_Manager_Get qm pod
  | QAddPod qm pod => go_Manager_AddPodIfNotPresent qm pod
  | QDeletePod qm pod => go_Manager_DeletePodIfPresent qm pod
  | QClone qm => go_Manager_Clone qm
  | QApplyOpts q opts => go_Queue_ApplyOpts q opts
  | QName q => go_Queue_Name q
  | QQuota q => go_Queue_Quota q
  | QPreemptionConfig q => go_Queue_PreemptionConfig q
  | QCanPodBePreempted q pod => go_Queue_CanPodBePreemptedByOthers q pod
  | QLabels q => go_Queue_Labels q
  | QQuotaAdd q pods => go_Quota_AddPodIfNotPresent q pods
  | QQuotaDelete q pods => go_Quota_DeletePodIfPresent q pods
  | QQuotaDeleteFunc q predicate => go_Quota_DeletePodsFunc q predicate
  | QMax q => go_Quota_Max q
  | QSetMax q max => go_Quota_SetMax q max
  | QUsed q => go_Quota_Used q
  | QContainsPod q pod => go_Quota_ContainsPod q pod
  | QWouldPutOverMax q request => go_Quota_WouldPutOverMax q request
  | QRange qm => go_Manager_range qm
  | QUsedMap q => go_Quota_UsedMap q
  | QMaxMap q => go_Quota_MaxMap q
  | QString q => go_Quota_String q
  | QNil B => atomic [] (st_panic (A := B))
  end.

Definition seq_call {B} (c : qcall B) : st heap B :=
  match c in qcall B return st heap B with
  | QNewManager => NewManager
  | QMakeResources r => alloc_res r
  | QPut qm name opts => Manager_Put qm name (opt_fun <$> opts)
  | QUpdate qm name opts => Manager_Update qm name (opt_fun <$> opts)
  | QDelete qm name => Manager_Delete qm name
  | QGetByName qm name => Manager_GetByName qm name
  | QGet qm pod => Manager_Get qm pod
  | QAddPod qm pod => Manager_AddPodIfNotPresent qm pod
  | QDeletePod qm pod => Manager_DeletePodIfPresent qm pod
  | QClone qm => Manager_Clone qm
  | QApplyOpts q opts => Queue_ApplyOpts q (opt_fun <$> opts)
  | QName q => Queue_Name q
  | QQuota q => Queue_Quota q
  | QPreemptionConfig q => Queue_PreemptionConfig q
  | QCanPodBePreempted q pod => Queue_CanPodBePreemptedByOthers q pod
  | QLabels q => Queue_Labels q
  | QQuotaAdd q pods => Quota_AddPodIfNotPresent q pods
  | QQuotaDelete q pods => Quota_DeletePodIfPresent q pods
  | QQuotaDeleteFunc q predicate => Quota_DeletePodsFunc q predicate
  | QMax q => Quota_Max q
  | QSetMax q max => Quota_SetMax q max
  | QUsed q => Quota_Used q
  | QContainsPod q pod => Quota_ContainsPod q pod
  | QWouldPutOverMax q request => Quota_WouldPutOverMax q request
  | QRange qm => m ← load_mgr qm; mret (map_to_list (queueByName m)).*2
  | QUsedMap q => used ← Quota_Used q; load_res used
  | QMaxMap q => max ← Quota_Max q; load_res max
  | QString q => Quota_String q
  | QNil B => st_panic (A := B)
  end.

(** A program: calls, whose results it may use, then a result. *)
Inductive client (A : Type) : Type :=
| CReturn (a : A)
| CCall (B : Type) (c : qcall B) (k : B → client A).

Fixpoint goroutine {A} (p : client A) : go A :=
  match p with
  | CReturn _ a => mret a
  | CCall _ _ c k => b ← go_call c; goroutine (k b)
  end.
End locking.

Arguments client {T} A.
Arguments CReturn {T A} a.
Arguments CCall {T A B} c k.
