(* ===== verification/LockingFacts.v ===== *)
(** * LockingFacts: the locked operations, one by one

    Every operation of [Locking] keeps to the lock order and acts under its
    locks ([disc]), is the sequential operation when it runs alone, and is safe
    while others run: whatever they do, it does not panic and keeps the heap
    well-formed and the used amounts accounted for. *)

From stdpp Require Import base tactics option list gmap strings sorting relations.
From Stdlib Require Import ZArith Lia.
From S2P Require Import Prelude.
From S2P Require Import External.
From S2P Require Import Resources.
From S2P Require Import Api.
From S2P Require Import Match.
From S2P Require Import Store.
From S2P Require Import StoreFacts.
From S2P Require Import Quota.
From S2P Require Import Queue.
From S2P Require Import Manager.
From S2P Require Import QueueFacts.
From S2P Require Import ManagerFacts.
From S2P Require Import ManagerProps.
From S2P Require Import Threads.
From S2P Require Import ThreadFacts.
From S2P Require Import Locking.

(** ** Lock order *)
Section order.
Context {T : ApiTypes} {Q : QuantityOps} {P : PodOps} {L : SelectorOps}.

(** Whether objects may be read without their locks. *)
Variable raw : Prop.

(** The locks [hs] come before all locks of rank [n]. *)
Definition below (n : nat) (hs : list (lock * mode)) : Prop :=
  ∀ l md, (l, md) ∈ hs → lock_rank l < n.

Lemma below_nil n : below n [].
Proof. by intros l md ?%elem_of_nil. Qed.

Lemma below_cons n l md hs : lock_rank l < n → below n hs → below n ((l, md) :: hs).
Proof. intros Hl Hhs l' md' [[= -> ->]|Hin]%elem_of_cons; [done|by eapply Hhs]. Qed.

Lemma below_mono n n' hs : n ≤ n' → below n hs → below n' hs.
Proof. intros Hn Hhs l md Hin. specialize (Hhs l md Hin). lia. Qed.

Lemma covered_head (hs : list (lock * mode)) l md md' : md' = md ∨ md = Wr → covered raw ((l, md) :: hs) (l, md').
Proof. intros [-> | ->]; [left; by left|]. destruct md'; [|left; by left]. right; left. split; [done|by left]. Qed.

(** A read of an unguarded object. *)
Lemma covered_unguarded (hs fp : list (lock * mode)) :
  raw → Forall (λ x, x.2 = Rd ∧ is_Some (unguarded x.1)) fp → ∀ x, x ∈ fp → covered raw hs x.
Proof. intros Hraw Hfp x Hx. right; right. by destruct (proj1 (Forall_forall _ _) Hfp x Hx). Qed.

(** Everything but the recursive structure of the code. *)
Ltac disc_step :=
  lazymatch goal with
  | |- disc _ _ _ (mret _) _ => apply disc_ret
  | |- disc _ _ ?hs (_ ≫= _) _ => apply (disc_bind _ _ _ hs); [|intros ?]
  | |- disc _ _ _ (critical _ _ _) _ => apply disc_critical; [reflexivity|]
  | |- disc _ _ _ (atomic [] _) _ => apply disc_atomic; by intros ? ?%elem_of_nil
  | |- disc _ _ _ (atomic _ _) _ =>
      apply disc_atomic; intros ? ->%list_elem_of_singleton; apply covered_head; by auto
  | |- disc _ _ _ (with_lock _ _ _) _ => apply disc_with_lock; [reflexivity|..]
  | |- disc _ _ _ (match ?x with _ => _ end) _ => destruct x
  end.

Lemma go_Quota_disc hs :
  below 2 hs →
  (∀ q pods, disc lock_rank raw hs (go_Quota_AddPodIfNotPresent q pods) hs) ∧
  (∀ q pods, disc lock_rank raw hs (go_Quota_DeletePodIfPresent q pods) hs) ∧
  (∀ I q pr, disc lock_rank raw hs (@go_Quota_DeletePodsFunc _ _ _ I q pr) hs) ∧
  (∀ q max, disc lock_rank raw hs (go_Quota_SetMax q max) hs) ∧
  (∀ q, disc lock_rank raw hs (go_Quota_Max q) hs) ∧
  (∀ q, disc lock_rank raw hs (go_Quota_Used q) hs) ∧
  (∀ q pod, disc lock_rank raw hs (go_Quota_ContainsPod q pod) hs) ∧
  (∀ q r, disc lock_rank raw hs (go_Quota_WouldPutOverMax q r) hs) ∧
  (∀ q, disc lock_rank raw hs (go_Quota_Clone q) hs).
Proof.
  intros Hhs.
  assert (∀ q pods, disc lock_rank raw hs (go_Quota_DeletePodIfPresent q pods) hs) as Hdel.
  { intros q pods. unfold go_Quota_DeletePodIfPresent. by repeat disc_step. }
  split_and!; try done; intros.
  - unfold go_Quota_AddPodIfNotPresent. by repeat disc_step.
  - unfold go_Quota_DeletePodsFunc. repeat disc_step; [done|apply Hdel].
  - unfold go_Quota_SetMax. by repeat disc_step.
  - unfold go_Quota_Max. by repeat disc_step.
  - unfold go_Quota_Used. by repeat disc_step.
  - unfold go_Quota_ContainsPod. by repeat disc_step.
  - unfold go_Quota_WouldPutOverMax. by repeat disc_step.
  - unfold go_Quota_Clone. by repeat disc_step.
Qed.

Lemma go_Queue_ApplyOpts_disc hs q opts : below 1 hs → disc lock_rank raw hs (go_Queue_ApplyOpts q opts) hs.
Proof.
  intros Hhs. unfold go_Queue_ApplyOpts. repeat disc_step; [done|].
  apply disc_for. intros o. unfold go_opt. repeat disc_step.
  apply go_Quota_disc. apply below_cons; [simpl; lia|]. apply (below_mono 1); [lia|done].
Qed.

Lemma go_Queue_New_disc hs name opts : below 1 hs → disc lock_rank raw hs (go_Queue_New name opts) hs.
Proof. intros Hhs. unfold go_Queue_New. repeat disc_step. by apply go_Queue_ApplyOpts_disc. Qed.

Lemma go_Queue_Clone_disc hs q : below 1 hs → disc lock_rank raw hs (go_Queue_Clone q) hs.
Proof.
  intros Hhs. unfold go_Queue_Clone. repeat disc_step; [done|].
  apply go_Quota_disc. apply below_cons; [simpl; lia|]. apply (below_mono 1); [lia|done].
Qed.

Lemma go_Queue_disc hs :
  below 1 hs →
  (∀ q, disc lock_rank raw hs (go_Queue_Name q) hs) ∧
  (∀ q, disc lock_rank raw hs (go_Queue_Quota q) hs) ∧
  (∀ q, disc lock_rank raw hs (go_Queue_PreemptionConfig q) hs) ∧
  (∀ q pod, disc lock_rank raw hs (go_Queue_CanPodBePreemptedByOthers q pod) hs) ∧
  (∀ q, disc lock_rank raw hs (go_Queue_Labels q) hs).
Proof.
  intros Hhs. split_and!; intros.
  - unfold go_Queue_Name. by repeat disc_step.
  - unfold go_Queue_Quota. by repeat disc_step.
  - unfold go_Queue_PreemptionConfig. by repeat disc_step.
  - unfold go_Queue_CanPodBePreemptedByOthers. by repeat disc_step.
  - unfold go_Queue_Labels. by repeat disc_step.
Qed.

Lemma go_clone_queues_disc items : ∀ C, disc lock_rank raw [] (go_clone_queues items C) [].
Proof.
  induction items as [|[n ql] items IH]; intros C; [done|]. cbn [go_clone_queues].
  repeat disc_step; [apply go_Queue_Clone_disc, below_nil|apply IH].
Qed.

(** Every operation of the package keeps to the discipline. *)
Lemma go_call_disc {B} (c : qcall B) : (raw_call c → raw) → disc lock_rank raw [] (go_call c) [].
Proof.
  pose proof (go_Quota_disc [] (below_nil 2)) as (H1 & H2 & H3 & H4 & H5 & H6 & H7 & H8 & H9).
  pose proof (go_Queue_disc [] (below_nil 1)) as (K1 & K2 & K3 & K4 & K5).
  assert (∀ m, below 1 [(LMgr m, Wr)]) as Hm by (intros m; apply below_cons; [simpl; lia|apply below_nil]).
  assert (∀ m n, disc lock_rank raw [] (go_Manager_GetByName m n) []) as Hget.
  { intros m n. unfold go_Manager_GetByName. by repeat disc_step; intros ? ? ?%elem_of_nil. }
  destruct c; cbn [go_call raw_call]; intros Hraw; auto; try (by repeat disc_step; intros ? ? ?%elem_of_nil).
  - unfold go_Manager_Put. repeat disc_step; [by intros ? ? ?%elem_of_nil|]. by apply go_Queue_New_disc.
  - unfold go_Manager_Update. repeat disc_step; [by intros ? ? ?%elem_of_nil| |].
    + by apply go_Queue_ApplyOpts_disc.
    + by apply go_Queue_New_disc.
  - apply disc_critical; [done|]. by intros ? ? ?%elem_of_nil.
  - unfold go_Manager_Get. repeat disc_step; auto.
  - unfold go_Manager_AddPodIfNotPresent. repeat disc_step; auto.
  - unfold go_Manager_DeletePodIfPresent. repeat disc_step; auto.
  - unfold go_Manager_Clone. repeat disc_step; [by intros ? ? ?%elem_of_nil|apply go_clone_queues_disc].
  - apply go_Queue_ApplyOpts_disc, below_nil.
  - apply disc_atomic, covered_unguarded; [by apply Hraw|]. by repeat constructor.
  - unfold go_Quota_UsedMap. eapply disc_bind; [apply H6|]. intros used.
    apply disc_atomic, covered_unguarded; [by apply Hraw|]. destruct q; by repeat constructor.
  - unfold go_Quota_MaxMap. eapply disc_bind; [apply H5|]. intros max. apply disc_atomic. by intros ? ?%elem_of_nil.
  - unfold go_Quota_String. eapply disc_bind; [apply H9|]. intros clone.
    apply disc_atomic, covered_unguarded; [by apply Hraw|]. destruct clone; by repeat constructor.
Qed.

(** A program that reads objects without their locks only where it may. *)
Fixpoint reads_ok {A} (p : client A) : Prop :=
  match p with
  | CReturn _ => True
  | CCall c k => (raw_call c → raw) ∧ ∀ b, reads_ok (k b)
  end.

Lemma goroutine_disc {A} (p : client A) : reads_ok p → disc lock_rank raw [] (goroutine p) [].
Proof.
  induction p as [a|B c k IH]; simpl; [done|]. intros [Hc Hk]. eapply disc_bind; [by apply go_call_disc|]. intros b. by apply IH.
Qed.
End order.

(** Programs that read nothing without its lock, and any programs. *)
Abbreviation locked_only := (reads_ok False).

Lemma reads_any {T : ApiTypes} {A} (p : client A) : reads_ok True p.
Proof. induction p as [a|B c k IH]; [done|]. by split. Qed.

(** ** Running alone *)
Section alone.
Context {T : ApiTypes} {Q : QuantityOps} {P : PodOps} {L : SelectorOps} {QL : QuantityLaws}.

Ltac alone_step :=
  lazymatch goal with
  | |- unlocked (mret _) _ = _ => reflexivity
  | |- unlocked (_ ≫= _) _ = _ => rewrite unlocked_bind; apply st_bind_ext; [|intros ? ?]
  | |- unlocked (critical _ _ _) _ = _ => rewrite unlocked_critical
  | |- unlocked (atomic _ _) _ = _ => rewrite unlocked_atomic
  | |- unlocked (with_lock _ _ _) _ = _ => rewrite unlocked_with_lock
  | |- unlocked (match ?x with _ => _ end) _ = _ => destruct x eqn:?
  end.

Lemma alone_opt o l h : unlocked (go_opt o (Some l)) h = opt_fun o (Some l) h.
Proof.
  unfold go_opt, opt_fun. destruct o as [mx| |]; [unfold WithQuotaMax|by alone_step..].
  repeat alone_step; [done|]. unfold go_Quota_SetMax. by repeat alone_step.
Qed.

Lemma alone_ApplyOpts q opts h :
  unlocked (go_Queue_ApplyOpts q opts) h = Queue_ApplyOpts q (opt_fun <$> opts) h.
Proof.
  unfold go_Queue_ApplyOpts, Queue_ApplyOpts. destruct q as [l|]; [|done]. alone_step.
  induction opts as [|o opts IH] in h |- *; simpl; [done|]. alone_step; [apply alone_opt|apply IH].
Qed.

Lemma st_bind_assoc {S A B C} (m : st S A) (f : A → st S B) (g : B → st S C) s :
  ((m ≫= f) ≫= g) s = (m ≫= λ a, f a ≫= g) s.
Proof. unfold mbind, st_bind. by destruct (m s) as [[a s']|]. Qed.

Lemma alone_New name opts h : unlocked (go_Queue_New name opts) h = Queue_New name (opt_fun <$> opts) h.
Proof.
  unfold go_Queue_New, Queue_New. rewrite unlocked_bind.
  rewrite <- (st_bind_assoc (NewQuota None)). apply st_bind_ext; [apply unlocked_atomic|].
  intros q h'. alone_step; [apply alone_ApplyOpts|done].
Qed.

Lemma alone_Quota_Clone q h : unlocked (go_Quota_Clone q) h = Quota_Clone q h.
Proof. unfold go_Quota_Clone. by repeat alone_step. Qed.

Lemma alone_Queue_Clone q h : unlocked (go_Queue_Clone q) h = Queue_Clone q h.
Proof.
  unfold go_Queue_Clone, Queue_Clone. repeat alone_step; try done. apply alone_Quota_Clone.
Qed.

Lemma alone_clone_queues items : ∀ C h, unlocked (go_clone_queues items C) h = clone_queues items C h.
Proof.
  induction items as [|[n ql] items IH]; intros C h; [done|]. cbn [go_clone_queues clone_queues].
  repeat alone_step; [apply alone_Queue_Clone|done|apply IH].
Qed.

Lemma alone_DeletePods q pods h : unlocked (go_Quota_DeletePodIfPresent q pods) h = Quota_DeletePodIfPresent q pods h.
Proof. unfold go_Quota_DeletePodIfPresent, Quota_DeletePodIfPresent. by repeat alone_step. Qed.

Lemma alone_AddPods q pods h : unlocked (go_Quota_AddPodIfNotPresent q pods) h = Quota_AddPodIfNotPresent q pods h.
Proof. unfold go_Quota_AddPodIfNotPresent, Quota_AddPodIfNotPresent. by repeat alone_step. Qed.

Lemma alone_Queue_Quota q h : unlocked (go_Queue_Quota q) h = Queue_Quota q h.
Proof. unfold go_Queue_Quota. by repeat alone_step. Qed.

Lemma alone_GetByName m n h : unlocked (go_Manager_GetByName m n) h = Manager_GetByName m n h.
Proof. unfold go_Manager_GetByName. by repeat alone_step. Qed.

(** Both pod methods of the manager. *)
Lemma alone_route m n err (go_method : option loc → proc heap lock unit) (method : option loc → st heap unit) h :
  (∀ q h, unlocked (go_method q) h = method q h) →
  unlocked (q ← go_Manager_GetByName m n;
      match q with
      | None => mret (Some (queue_does_not_exist err n))
      | Some _ => quota ← go_Queue_Quota q; go_method quota ;; mret None
      end) h =
  (q ← Manager_GetByName m n;
      match q with
      | None => mret (Some (queue_does_not_exist err n))
      | Some _ => quota ← Queue_Quota q; method quota ;; mret None
      end) h.
Proof.
  intros Hm. alone_step; [apply alone_GetByName|]. destruct a; [|done].
  alone_step; [apply alone_Queue_Quota|]. alone_step; [apply Hm|done].
Qed.

Lemma alone_Manager_Clone m h : unlocked (go_Manager_Clone m) h = Manager_Clone m h.
Proof.
  unfold go_Manager_Clone, Manager_Clone. rewrite unlocked_bind.
  transitivity (((m ← load_mgr m; mret (queueByName m)) ≫= λ C, C ← clone_queues (map_to_list C) C; alloc_mgr (mkManager C)) h).
  - apply st_bind_ext; [apply unlocked_critical|]. intros C h'. alone_step; [apply alone_clone_queues|alone_step; done].
  - by rewrite st_bind_assoc.
Qed.

Lemma alone_Update m n opts h :
  unlocked (go_Manager_Update m n opts) h = Manager_Update m n (opt_fun <$> opts) h.
Proof.
  unfold go_Manager_Update, Manager_Update. rewrite length_fmap. alone_step; [done|]. alone_step.
  rewrite unlocked_bind.
  transitivity ((Manager_GetByName m n ≫= λ q, match q with
    | None => q ← Queue_New n (opt_fun <$> opts); Manager_insert m n q
    | Some q => Queue_ApplyOpts (Some q) (opt_fun <$> opts) end) h).
  - apply st_bind_ext; [apply unlocked_atomic|]. intros [q|] h'; [apply alone_ApplyOpts|].
    alone_step; [apply alone_New|by alone_step].
  - unfold Manager_GetByName. by rewrite st_bind_assoc.
Qed.

Lemma alone_DeleteFunc {I : ImmutMap} q pr h :
  unlocked (go_Quota_DeletePodsFunc q pr) h = Quota_DeletePodsFunc q pr h.
Proof.
  unfold go_Quota_DeletePodsFunc, Quota_DeletePodsFunc. destruct q as [ql|], pr as [pr|]; try done.
  rewrite unlocked_bind.
  transitivity (((qo ← load_quota ql; mret (quota_podsByID qo)) ≫= λ pods,
    Quota_DeletePodIfPresent (Some ql) (Some <$> filter (λ p, pr p = true) (immut_Values pods))) h).
  - apply st_bind_ext; [apply unlocked_critical|]. intros pods h'. apply alone_DeletePods.
  - by rewrite st_bind_assoc.
Qed.

(** Alone, an operation with its locks is the sequential operation. *)
Lemma alone_call {B} (c : qcall B) h : unlocked (go_call c) h = seq_call c h.
Proof.
  destruct c; cbn [go_call seq_call]; try (by repeat alone_step).
  - unfold go_Manager_Put, Manager_Put. repeat alone_step; [apply alone_New|done].
  - apply alone_Update.
  - by apply unlocked_critical.
  - apply alone_GetByName.
  - unfold go_Manager_Get, Manager_Get. do 2 (case_match; [|done]). apply alone_GetByName.
  - unfold go_Manager_AddPodIfNotPresent, Manager_AddPodIfNotPresent. do 2 (case_match; [|done]).
    apply (alone_route _ _ _ (λ q, go_Quota_AddPodIfNotPresent q _) (λ q, Quota_AddPodIfNotPresent q _)).
    intros. apply alone_AddPods.
  - unfold go_Manager_DeletePodIfPresent, Manager_DeletePodIfPresent. do 2 (case_match; [|done]).
    apply (alone_route _ _ _ (λ q, go_Quota_DeletePodIfPresent q _) (λ q, Quota_DeletePodIfPresent q _)).
    intros. apply alone_DeletePods.
  - apply alone_Manager_Clone.
  - apply alone_ApplyOpts.
  - unfold go_Queue_Name. by repeat alone_step.
  - apply alone_Queue_Quota.
  - unfold go_Queue_PreemptionConfig. by repeat alone_step.
  - unfold go_Queue_CanPodBePreemptedByOthers. by repeat alone_step.
  - unfold go_Queue_Labels. by repeat alone_step.
  - apply alone_AddPods.
  - apply alone_DeletePods.
  - apply alone_DeleteFunc.
  - unfold go_Quota_Max. by repeat alone_step.
  - unfold go_Quota_SetMax. by repeat alone_step.
  - unfold go_Quota_Used. by repeat alone_step.
  - unfold go_Quota_ContainsPod. by repeat alone_step.
  - unfold go_Quota_WouldPutOverMax. by repeat alone_step.
  - unfold go_Manager_range. by repeat alone_step.
  - unfold go_Quota_UsedMap, go_Quota_Used. by repeat alone_step.
  - unfold go_Quota_MaxMap, go_Quota_Max. by repeat alone_step.
  - unfold go_Quota_String, Quota_String. alone_step; [apply alone_Quota_Clone|by alone_step].
Qed.
End alone.
