(* ===== verification/LockSafety.v ===== *)
(** * LockSafety: the heap under interleaved operations

    What holds at every moment while goroutines use the package ([heap_inv]: the
    heap is well-formed and, where the pods' requests are fixed, every quota's
    used amounts are its pods' requests), what no step undoes ([grows]), what a goroutine owns of the queues and
    quotas that it has made and not published ([own]), and what an action may
    write under the locks it holds ([keeps]).  Each action of the package is shown to
    respect them in any heap that the others may leave; so every operation is
    [safe]. *)

From stdpp Require Import base tactics option list gmap strings sorting relations.
From Stdlib Require Import ZArith Lia.
From S2P Require Import Prelude.
From S2P Require Import External.
From S2P Require Import Resources.
From S2P Require Import Api.
From S2P Require Import Match.
From S2P Require Import Store.
From S2P Require Import StoreFacts.
From S2P Require Import Quota.
From S2P Require Import Queue.
From S2P Require Import Manager.
From S2P Require Import QueueFacts.
From S2P Require Import ManagerFacts.
From S2P Require Import ManagerProps.
From S2P Require Import Threads.
From S2P Require Import ThreadFacts.
From S2P Require Import Locking.
From S2P Require Import LockingFacts.

(** What is known of the pods' requests: with [Some f] every call passes each pod
    with the requests [f] of its UID, and the used amounts are accounted for; with
    [None] nothing: pods may be resized in place, and no amount is claimed. *)
Abbreviation requests := (option (UID → ResourceName → Z)).

Section defs.
Context {T : ApiTypes} {Q : QuantityOps} {P : PodOps} {L : SelectorOps} {QL : QuantityLaws}.
Variable req : requests.

Definition pod_fits (pod : option Pod) : Prop :=
  match req with Some f => pod_ok f pod | None => True end.
Definition accounts (V : ManagerV) : Prop :=
  match req with Some f => accountedV f V | None => True end.

(** A quota's used amounts are its pods' requests, and these are the pods' own. *)
Definition good (q : QuotaV) : Prop :=
  match req with
  | Some f => accounted f q ∧ ∀ u p, qv_pods q !! u = Some p → pod_ok f (Some p)
  | None => True
  end.

Definition quotas_accounted (h : heap) : Prop :=
  ∀ tl qo, h_quota h !! tl = Some qo → good (view_quota h qo).

Definition heap_inv (h : heap) : Prop := wf h ∧ quotas_accounted h.

(** Objects stay; a queue keeps its name and quota, a quota its map of used
    amounts; the maps that serve as maxima keep their contents. *)
Record grows (h h' : heap) : Prop := mkGrows {
  g_mgr m : is_Some (h_mgr h !! m) → is_Some (h_mgr h' !! m);
  g_queue ql qu : h_queue h !! ql = Some qu →
    ∃ qu', h_queue h' !! ql = Some qu' ∧ queue_name qu' = queue_name qu ∧ queue_quota qu' = queue_quota qu;
  g_quota tl qo : h_quota h !! tl = Some qo →
    ∃ qo', h_quota h' !! tl = Some qo' ∧ quota_used qo' = quota_used qo;
  g_res l : is_Some (h_res h !! l) → is_Some (h_res h' !! l);
  g_ref ref r : max_ref h ref r → max_ref h' ref r;
}.

(** Queues ([inl]) that no manager has yet, quotas ([inr]) that no queue has yet. *)
Abbreviation object := (loc + loc)%type.

Definition own (X : gset object) (h : heap) : Prop :=
  (∀ ql, inl ql ∈ X → is_Some (h_queue h !! ql)
     ∧ ∀ m M n, h_mgr h !! m = Some M → queueByName M !! n ≠ Some ql) ∧
  (∀ tl, inr tl ∈ X → is_Some (h_quota h !! tl)
     ∧ ∀ ql qu, h_queue h !! ql = Some qu → queue_quota qu ≠ Some tl).

(** An action writes only objects whose locks [fp] has for writing (the map of
    used amounts belongs to its quota), and new objects. *)
Record keeps (fp : list (lock * mode)) (h h' : heap) : Prop := mkKeeps {
  k_mgr m M : (LMgr m, Wr) ∉ fp → h_mgr h !! m = Some M → h_mgr h' !! m = Some M;
  k_queue ql qu : (LQueue ql, Wr) ∉ fp → h_queue h !! ql = Some qu → h_queue h' !! ql = Some qu;
  k_quota tl qo : (LQuota tl, Wr) ∉ fp → h_quota h !! tl = Some qo → h_quota h' !! tl = Some qo;
  k_res l m : (∀ tl qo, (LQuota tl, Wr) ∈ fp → h_quota h !! tl = Some qo → quota_used qo ≠ Some l) →
    h_res h !! l = Some m → h_res h' !! l = Some m;
}.

Abbreviation guar := (guarantee heap_inv grows own).

#[export] Instance grows_preorder : PreOrder grows.
Proof.
  split.
  - intros h. split; eauto.
  - intros h1 h2 h3 [A1 A2 A3 A4 A5] [B1 B2 B3 B4 B5]. split; auto.
    + intros ql qu Hq. destruct (A2 _ _ Hq) as (qu2 & Hq2 & ? & ?), (B2 _ _ Hq2) as (qu3 & ? & ? & ?).
      exists qu3. split_and!; [done|congruence..].
    + intros tl qo Hq. destruct (A3 _ _ Hq) as (qo2 & Hq2 & ?), (B3 _ _ Hq2) as (qo3 & ? & ?).
      exists qo3. split; [done|congruence].
Qed.

Lemma good_empty max : good (mkQuotaV max gomap_make ∅).
Proof.
  unfold good. destruct req as [f|]; [|done].
  split; [apply accounted_empty|]. intros u p Hp. simpl in Hp. by rewrite lookup_empty in Hp.
Qed.

Lemma good_add pod q : pod_fits pod → good q → good (quotaV_add pod q).
Proof.
  unfold pod_fits, good. destruct req as [f|]; [|done]. intros Hpod [Ha Hp]. split; [by apply accounted_add|]. unfold quotaV_add. destruct pod as [p|]; [|done].
  destruct (qv_pods q !! pod_UID p); [done|]. intros u p' Hu. cbn [qv_pods] in Hu.
  apply lookup_insert_Some in Hu as [[_ <-]|[_ Hu]]; [done|by eapply Hp].
Qed.

Lemma good_del pod q : pod_fits pod → good q → good (quotaV_del pod q).
Proof.
  unfold pod_fits, good. destruct req as [f|]; [|done]. intros Hpod [Ha Hp]. split; [by apply accounted_del|]. unfold quotaV_del. destruct pod as [p|]; [|done].
  destruct (qv_pods q !! pod_UID p); [|done]. intros u p' Hu. cbn [qv_pods] in Hu.
  apply lookup_delete_Some in Hu as [_ Hu]. by eapply Hp.
Qed.

Lemma keeps_refl fp h : keeps fp h h.
Proof. by split. Qed.

Lemma keeps_trans fp h1 h2 h3 :
  (∀ tl, (LQuota tl, Wr) ∈ fp → is_Some (h_quota h1 !! tl)) →
  grows h1 h2 → keeps fp h1 h2 → keeps fp h2 h3 → keeps fp h1 h3.
Proof.
  intros Hal Hg [A1 A2 A3 A4] [B1 B2 B3 B4]. split; auto.
  intros l m Hl Hm. apply B4; [|by apply A4]. intros tl qo2 Hin Hq2 Hu.
  destruct (Hal tl Hin) as [qo Hq]. destruct (g_quota _ _ Hg _ _ Hq) as (qo' & Hq' & Hu').
  apply (Hl tl qo Hin Hq). congruence.
Qed.

(** Nothing happens. *)
Lemma guar_refl X h : heap_inv h → own X h → guar X X h h.
Proof. intros Hi Ho. split_and!; [done|reflexivity|done|]. intros Y HY HoY. split; [done|set_solver]. Qed.

Lemma guar_trans X1 X2 X3 h1 h2 h3 : guar X1 X2 h1 h2 → guar X2 X3 h2 h3 → guar X1 X3 h1 h3.
Proof.
  intros (_ & G1 & _ & O1) (I2 & G2 & S2 & O2). split_and!; [done|by etrans|done|].
  intros Y HY HoY. destruct (O1 Y HY HoY). by apply O2.
Qed.

(** What is owned stays so as long as nothing comes to refer to it. *)
Lemma own_keep X h h' :
  own X h → grows h h' →
  (∀ ql m M n, inl ql ∈ X → h_mgr h' !! m = Some M → queueByName M !! n = Some ql →
     ∃ m M n, h_mgr h !! m = Some M ∧ queueByName M !! n = Some ql) →
  (∀ tl ql qu, inr tl ∈ X → h_queue h' !! ql = Some qu → queue_quota qu = Some tl →
     ∃ ql qu, h_queue h !! ql = Some qu ∧ queue_quota qu = Some tl) →
  own X h'.
Proof.
  intros [O1 O2] Hg Hm Hq. split.
  - intros ql Hin. destruct (O1 ql Hin) as [[qu Hqu] Hno]. split.
    + destruct (g_queue _ _ Hg _ _ Hqu) as (qu' & ? & _). by exists qu'.
    + intros m M n HM Hn. destruct (Hm ql m M n Hin HM Hn) as (m' & M' & n' & ? & ?). by eapply Hno.
  - intros tl Hin. destruct (O2 tl Hin) as [[qo Hqo] Hno]. split.
    + destruct (g_quota _ _ Hg _ _ Hqo) as (qo' & ? & _). by exists qo'.
    + intros ql qu Hqu Ht. destruct (Hq tl ql qu Hin Hqu Ht) as (ql' & qu' & ? & ?). by eapply Hno.
Qed.

Lemma own_same X h h' :
  own X h → grows h h' → h_mgr h' = h_mgr h →
  (∀ ql qu', h_queue h' !! ql = Some qu' → ∃ qu, h_queue h !! ql = Some qu ∧ queue_quota qu' = queue_quota qu) →
  own X h'.
Proof.
  intros Ho Hg Hm Hq. apply (own_keep X h); [done|done| |].
  - intros ql m M n _. rewrite Hm. by eauto.
  - intros tl ql qu' _ Hqu' Ht. destruct (Hq _ _ Hqu') as (qu & Hqu & He). exists ql, qu. split; [done|congruence].
Qed.

Lemma guar_same X h h' :
  own X h → heap_inv h' → grows h h' → h_mgr h' = h_mgr h →
  (∀ ql qu', h_queue h' !! ql = Some qu' → ∃ qu, h_queue h !! ql = Some qu ∧ queue_quota qu' = queue_quota qu) →
  guar X X h h'.
Proof.
  intros Ho Hi Hg Hm Hq. split_and!; [done|done|by eapply own_same|].
  intros Y HY HoY. split; [by eapply own_same|set_solver].
Qed.

(** *** Writing a quota: its pods and used amounts, in place *)
Lemma write_quota X h tl qo ul m0 m pods :
  heap_inv h → own X h → h_quota h !! tl = Some qo → quota_used qo = Some ul → h_res h !! ul = Some m0 →
  good (mkQuotaV (res_val h (quota_max qo)) (Some m) pods) →
  let h' := set_res ul m (set_quota tl (mkQuota (quota_max qo) (Some ul) pods) h) in
  keeps [(LQuota tl, Wr)] h h' ∧ guar X X h h'.
Proof.
  intros [Hwf Hacc] Hown Hq Hu Hm0 Hnew h'.
  assert (same_refs h h') as Hback.
  { intros tl' qo' Hq'. simpl in Hq'. lookup_cases; [by exists qo|by exists qo']. }
  assert (∀ l, is_Some (h_res h !! l) → is_Some (h_res h' !! l)) as Hres.
  { intros l Hl. simpl. rewrite lookup_insert. by case_decide. }
  assert (∀ ref, ref ≠ Some ul → res_val h' ref = res_val h ref) as Hval.
  { intros ref Hne. unfold h'. by rewrite res_val_set_ne. }
  assert (grows h h') as Hg.
  { split; [done| | |done|].
    - intros ql qu Hqu. by exists qu.
    - intros tl' qo' Hq'. simpl. rewrite lookup_insert. case_decide; [|by exists qo'].
      subst tl'. eexists. split; [done|]. simpl. congruence.
    - intros ref r [Hr Href]. assert (ref ≠ Some ul) as Hne.
      { intros ->. by apply (proj2 (Href ul eq_refl) tl qo). }
      split; [by rewrite Hval|]. intros l ->. destruct (Href l eq_refl) as [Hl Hn]. split; [by apply Hres|].
      intros tl' qo' Hq'. destruct (Hback _ _ Hq') as (qo'' & Hq'' & -> & _). by eapply Hn. }
  split.
  - split; simpl; [done|done| |].
    + intros tl' qo' Hn Hq'. rewrite lookup_insert_ne; [done|]. intros ->. apply Hn. by left.
    + intros l m' Hl Hm'. rewrite lookup_insert_ne; [done|]. intros ->. by apply (Hl tl qo); [left|..].
  - apply guar_same; [done| |done|done|by eauto]. split.
    + apply (same_refs_wf h); try done. intros tl' Hq'. simpl. rewrite lookup_insert. by case_decide.
    + intros tl' qo' Hq'. simpl in Hq'. lookup_cases.
      * unfold view_quota. cbn [quota_max quota_used quota_podsByID]. rewrite Hval by by eapply (wf_used_max h).
        assert (res_val h' (Some ul) = Some m) as -> by (unfold res_val; simpl; apply lookup_insert_eq). done.
      * unfold view_quota. rewrite !Hval; [exact (Hacc tl' qo' Hq')| |].
        -- intros He. assert (tl' = tl) by (eapply (wf_used_inj h); [done..|congruence]). done.
        -- exact (wf_used_max h Hwf tl qo tl' qo' ul Hq Hq' Hu).
Qed.

(** *** A new maximum for a quota *)
Lemma good_setmax max max' used pods : good (mkQuotaV max used pods) → good (mkQuotaV max' used pods).
Proof. unfold good. destruct req as [f|]; [|done]. intros [[H1 H2 H3 H4] Hp]. split; [by split|done]. Qed.

Lemma good_recorded q u p : good q → qv_pods q !! u = Some p → pod_fits (Some p).
Proof. unfold good, pod_fits. destruct req as [f|]; [|done]. intros [_ Hp]. apply Hp. Qed.

Lemma write_max X h tl qo mx r :
  heap_inv h → own X h → h_quota h !! tl = Some qo → max_ref h mx r →
  let h' := set_quota tl (mkQuota mx (quota_used qo) (quota_podsByID qo)) h in
  keeps [(LQuota tl, Wr)] h h' ∧ guar X X h h'.
Proof.
  intros [Hwf Hacc] Hown Hq [Hr Hmx] h'.
  assert (∀ tl' qo', h_quota h' !! tl' = Some qo' →
    ∃ qo'', h_quota h !! tl' = Some qo'' ∧ quota_used qo' = quota_used qo'') as Hback.
  { intros tl' qo' Hq'. simpl in Hq'. lookup_cases; [by exists qo|by exists qo']. }
  assert (grows h h') as Hg.
  { split; [done| | |done|].
    - intros ql qu Hqu. by exists qu.
    - intros tl' qo' Hq'. simpl. rewrite lookup_insert. case_decide; [subst; simplify_eq; by eexists|by exists qo'].
    - intros ref r' [Hr' Href]. split; [done|]. intros l ->. destruct (Href l eq_refl) as [Hl Hn]. split; [done|].
      intros tl' qo' Hq'. destruct (Hback _ _ Hq') as (qo'' & Hq'' & ->). by eapply Hn. }
  split.
  - split; simpl; try done.
    intros tl' qo' Hn Hq'. rewrite lookup_insert_ne; [done|]. intros ->. apply Hn. by left.
  - apply guar_same; [done| |done|done|by eauto]. split.
    + destruct Hwf as [H1 H2 H3 H4 H5 H6 H7 H8]. split; simpl; try done.
      * intros ql' qu' Hq'. destruct (H3 _ _ Hq') as (tl' & qo' & Ht' & Ho').
        exists tl'. rewrite lookup_insert. case_decide; [by eexists|by exists qo'].
      * intros tl' qo' Hq'. destruct (Hback _ _ Hq') as (qo'' & Hq'' & ->). by eapply H5.
      * intros tl' qo' ml Hq' Hml. lookup_cases; [by apply Hmx|by eapply H6].
      * intros tl1 qo1 tl2 qo2 Hq1 Hq2 He.
        destruct (Hback _ _ Hq1) as (? & Hq1' & He1), (Hback _ _ Hq2) as (? & Hq2' & He2).
        eapply H7; [exact Hq1'|exact Hq2'|congruence].
      * intros tl1 qo1 tl2 qo2 l Hq1 Hq2 He1.
        destruct (Hback _ _ Hq1) as (qo1' & Hq1' & Hu1). rewrite Hu1 in He1. clear Hq1.
        lookup_cases; [|by apply (H8 _ _ _ _ _ Hq1' Hq2)].
        intros ->. by apply (proj2 (Hmx l eq_refl) _ _ Hq1').
    + intros tl' qo' Hq'. simpl in Hq'. lookup_cases; [|exact (Hacc tl' qo' Hq')].
      eapply good_setmax. exact (Hacc _ _ Hq).
Qed.

(** *** New labels or configuration for a queue *)
Lemma write_queue X h ql qu ls cfg :
  heap_inv h → own X h → h_queue h !! ql = Some qu →
  let h' := set_queue ql (mkQueue (queue_name qu) (queue_quota qu) ls cfg) h in
  keeps [(LQueue ql, Wr)] h h' ∧ guar X X h h'.
Proof.
  intros [Hwf Hacc] Hown Hq h'.
  assert (∀ ql' qu', h_queue h' !! ql' = Some qu' →
    ∃ qu'', h_queue h !! ql' = Some qu'' ∧ queue_quota qu' = queue_quota qu'') as Hback.
  { intros ql' qu' Hq'. simpl in Hq'. lookup_cases; [by exists qu|by exists qu']. }
  assert (grows h h') as Hg.
  { split; [done| |by eauto|done|done].
    intros ql' qu' Hq'. simpl. rewrite lookup_insert. case_decide; [subst; simplify_eq; by eexists|by exists qu']. }
  split.
  - split; simpl; try done.
    intros ql' qu' Hn Hq'. rewrite lookup_insert_ne; [done|]. intros ->. apply Hn. by left.
  - apply guar_same; [done| |done|done|done]. split; [|done].
    destruct (wf_queue_quota h Hwf _ _ Hq) as (tl & qo & Ht & Ho).
    by destruct (update_queue h ql qu tl qo ls cfg) as [? _].
Qed.

(** *** New objects *)
Lemma extends_ok fp h h' :
  h_mgr h ⊆ h_mgr h' → h_queue h ⊆ h_queue h' → h_quota h ⊆ h_quota h' → h_res h ⊆ h_res h' →
  (∀ ref r, max_ref h ref r → max_ref h' ref r) → grows h h' ∧ keeps fp h h'.
Proof.
  intros Hm Hq Ht Hr Href. split; split; try done.
  - intros m [M HM]. exists M. by eapply lookup_weaken.
  - intros ql qu Hqu. exists qu. split_and!; [by eapply lookup_weaken|done..].
  - intros tl qo Hqo. exists qo. split; [by eapply lookup_weaken|done].
  - intros l [m Hl]. exists m. by eapply lookup_weaken.
  - intros m M _ HM. by eapply lookup_weaken.
  - intros ql qu _ Hqu. by eapply lookup_weaken.
  - intros tl qo _ Hqo. by eapply lookup_weaken.
  - intros l m _ Hl. by eapply lookup_weaken.
Qed.

Lemma view_quota_fresh h l m tl qo :
  wf h → h_quota h !! tl = Some qo → h_res h !! l = None → view_quota (set_res l m h) qo = view_quota h qo.
Proof.
  intros Hwf Hq Hl. unfold view_quota. destruct (wf_refs_allocated h tl qo Hwf Hq) as [Hmx Hus].
  by rewrite !res_val_set_fresh.
Qed.

Lemma make_res X h l m :
  heap_inv h → own X h → h_res h !! l = None →
  (∀ fp, keeps fp h (set_res l m h)) ∧ guar X X h (set_res l m h) ∧ max_ref (set_res l m h) (Some l) (Some m).
Proof.
  intros [Hwf Hacc] Hown Hl. destruct (set_res_fresh h l m Hwf Hl) as [Hwf' (_ & _ & Href)].
  assert (∀ fp, grows h (set_res l m h) ∧ keeps fp h (set_res l m h)) as Hex.
  { intros fp. apply extends_ok; simpl; try done. by apply insert_subseteq. }
  split_and!; [apply Hex| |].
  - apply guar_same; [done| |by apply (Hex [])|done|by eauto]. split; [done|].
    intros tl qo Hq. simpl in Hq. rewrite (view_quota_fresh h l m tl) by done. by apply (Hacc tl).
  - split; [unfold res_val; simpl; apply lookup_insert_eq|]. intros l' [= <-].
    split; [simpl; by rewrite lookup_insert_eq|]. intros tl qo Hq Hu.
    destruct (wf_quota_used h Hwf _ _ Hq) as (ul & m' & Hu' & Hm'). congruence.
Qed.

(** A new quota over a new map of used amounts. *)
Lemma make_quota X h ul tl mx r m pods :
  heap_inv h → own X h → h_res h !! ul = None → h_quota h !! tl = None → max_ref h mx r →
  good (mkQuotaV r (Some m) pods) →
  let h' := set_quota tl (mkQuota mx (Some ul) pods) (set_res ul m h) in
  keeps [] h h' ∧ guar X (X ∪ {[inr tl]}) h h'.
Proof.
  intros [Hwf Hacc] Hown Hul Htl Hmx Hnew h'.
  destruct (new_quota h ul tl mx r m pods Hwf Hul Htl Hmx) as (Hwf' & (_ & _ & Href) & Hview & Hno).
  assert (grows h h' ∧ keeps [] h h') as [Hg Hk].
  { apply extends_ok; simpl; try done; by apply insert_subseteq. }
  assert (own X h') as Hown' by (apply (own_same X h); [done|done|done|by eauto]).
  split; [done|]. split_and!; [split; [done|]|done| |].
  - intros tl' qo Hq. simpl in Hq. lookup_cases.
    + unfold h'. by rewrite Hview.
    + replace (view_quota h' qo) with (view_quota (set_res ul m h) qo) by done.
      rewrite (view_quota_fresh h ul m tl') by done. exact (Hacc tl' qo Hq).
  - destruct Hown' as [O1 O2]. split.
    + intros ql Hin. apply O1. set_solver.
    + intros tl' [Hin| [= ->]%elem_of_singleton]%elem_of_union; [by apply O2|].
      split; [simpl; by rewrite lookup_insert_eq|exact Hno].
  - intros Y HY HoY. split; [apply (own_same Y h); [done|done|done|by eauto]|].
    assert (inr tl ∉ Y); [|set_solver]. intros Hin. destruct (proj2 HoY tl Hin) as [[? ?] _]. congruence.
Qed.

(** A new queue with a quota that the goroutine owns. *)
Lemma make_queue X h ql qu tl :
  heap_inv h → own X h → h_queue h !! ql = None → queue_quota qu = Some tl → inr tl ∈ X →
  let h' := set_queue ql qu h in
  keeps [] h h' ∧ guar X (X ∖ {[inr tl]} ∪ {[inl ql]}) h h'.
Proof.
  intros [Hwf Hacc] Hown Hql Ht Htl h'. destruct (proj2 Hown tl Htl) as [[qo Hqo] Hno].
  destruct (new_queue h ql qu tl qo Hwf Hql Ht Hqo Hno) as (Hwf' & (_ & _ & Href) & _).
  assert (grows h h' ∧ keeps [] h h') as [Hg Hk].
  { apply extends_ok; simpl; try done; by apply insert_subseteq. }
  assert (∀ Y, inr tl ∉ Y → own Y h → own Y h') as HownY.
  { intros Y HtlY HoY. apply (own_keep Y h); [done|done|by eauto|].
    intros tl' ql' qu' Hin Hq Ht'. simpl in Hq. lookup_cases; [|by eauto]. by exfalso. }
  assert (inl ql ∉ X) as HqlX by (intros Hin; destruct (proj1 Hown ql Hin) as [[? ?] _]; congruence).
  split; [done|]. split_and!; [by split|done| |].
  - destruct (HownY (X ∖ {[inr tl]})) as [O1 O2]; [set_solver| |].
    { destruct Hown as [O1 O2]. split; [intros ? ?; apply O1|intros ? ?; apply O2]; set_solver. }
    split; [|intros tl' Hin; apply O2; set_solver].
    intros ql' [Hin|[= ->]%elem_of_singleton]%elem_of_union; [by apply O1|].
    split; [simpl; by rewrite lookup_insert_eq|]. intros m M n HM Hn. simpl in HM.
    destruct (wf_mgr_queue h Hwf _ _ _ _ HM Hn) as (? & ? & _). congruence.
  - intros Y HY HoY. split; [apply HownY; [set_solver|done]|].
    assert (inl ql ∉ Y); [|set_solver]. intros Hin. destruct (proj1 HoY ql Hin) as [[? ?] _]. congruence.
Qed.

(** *** New contents for a manager: its own queues and queues that the goroutine publishes *)
Lemma write_mgr X X' h m C fp :
  heap_inv h → own X h → (LMgr m, Wr) ∈ fp ∨ h_mgr h !! m = None →
  (∀ n ql, C !! n = Some ql → (∃ qu, h_queue h !! ql = Some qu ∧ queue_name qu = n)
     ∧ (inl ql ∈ X ∨ ∃ M, h_mgr h !! m = Some M ∧ queueByName M !! n = Some ql)) →
  X' ⊆ X → (∀ n ql, C !! n = Some ql → inl ql ∉ X') →
  let h' := set_mgr m (mkManager C) h in
  keeps fp h h' ∧ guar X X' h h'.
Proof.
  intros [Hwf Hacc] Hown Hfp HC HX HX' h'.
  destruct (set_mgr_facts h m C Hwf) as (Hwf' & _ & _).
  { intros n ql Hn. destruct (HC n ql Hn) as [(qu & Hqu & Hnm) _].
    destruct (wf_view_queue h ql qu Hwf Hqu) as [v Hv]. exists v. split; [done|].
    apply view_queue_Some in Hv as (qu' & ? & ? & ? & ? & ? & ->). simpl. congruence. }
  { intros n1 n2 ql H1 H2. destruct (HC _ _ H1) as [(? & ? & ?) _], (HC _ _ H2) as [(? & ? & ?) _]. congruence. }
  { intros m' M' n' n ql Hne HM' Hn' Hn. destruct (HC n ql Hn) as [_ [Hin|(M & HM & HMn)]].
    - by apply (proj2 (proj1 Hown ql Hin) m' M' n').
    - by destruct (wf_mgr_inj h Hwf m' M' n' m M n ql). }
  assert (grows h h') as Hg.
  { split; try done; [|by eauto..]. intros m' HM'. simpl. rewrite lookup_insert. by case_decide. }
  assert (∀ Y, Y ⊆ X' ∨ Y ## X → own Y h → own Y h') as HownY.
  { intros Y HY HoY. apply (own_keep Y h); [done|done| |by eauto].
    intros ql m' M' n Hin HM' Hn. simpl in HM'. lookup_cases; [|by eauto]. simpl in Hn.
    destruct (HC n ql Hn) as [_ [HqX|(M & HM & HMn)]]; [exfalso|by eauto].
    destruct HY as [HY|HY]; [apply (HX' n ql Hn)|]; set_solver. }
  split.
  - split; simpl; try done. intros m' M Hn HM. rewrite lookup_insert_ne; [done|]. intros ->.
    destruct Hfp; [done|congruence].
  - split_and!; [by split|done| |].
    + apply HownY; [by left|]. destruct Hown as [O1 O2]. split; [intros ? ?; apply O1|intros ? ?; apply O2]; set_solver.
    + intros Y HY HoY. split; [apply HownY; [by right|done]|set_solver].
Qed.

(** ** The actions *)

(** Facts that no step undoes. *)
Definition stable (R : heap → Prop) : Prop := ∀ h h', grows h h' → R h → R h'.

Definition mgr_known (m : loc) (h : heap) : Prop := is_Some (h_mgr h !! m).
Definition queue_known (q : option loc) (h : heap) : Prop :=
  ∀ ql, q = Some ql → is_Some (h_queue h !! ql).
Definition queue_named (ql : loc) (n : string) (h : heap) : Prop :=
  ∃ qu, h_queue h !! ql = Some qu ∧ queue_name qu = n.
Definition quota_known (q : option loc) (h : heap) : Prop :=
  ∀ tl, q = Some tl → is_Some (h_quota h !! tl).
Definition opt_known (o : queue_opt) (h : heap) : Prop :=
  match o with OptQuotaMax ref => ∃ r, max_ref h ref r | _ => True end.
Definition opts_known (opts : list queue_opt) (h : heap) : Prop := ∀ o, o ∈ opts → opt_known o h.

Lemma mgr_known_stable m : stable (mgr_known m).
Proof. intros h h' Hg. by apply g_mgr. Qed.

Lemma queue_known_stable q : stable (queue_known q).
Proof.
  intros h h' Hg Hq ql ->. destruct (Hq ql eq_refl) as [qu Hqu].
  destruct (g_queue _ _ Hg _ _ Hqu) as (qu' & ? & _). by exists qu'.
Qed.

Lemma queue_named_stable ql n : stable (queue_named ql n).
Proof.
  intros h h' Hg (qu & Hqu & <-). destruct (g_queue _ _ Hg _ _ Hqu) as (qu' & ? & ? & _). by exists qu'.
Qed.

Lemma quota_known_stable q : stable (quota_known q).
Proof.
  intros h h' Hg Hq tl ->. destruct (Hq tl eq_refl) as [qo Hqo].
  destruct (g_quota _ _ Hg _ _ Hqo) as (qo' & ? & _). by exists qo'.
Qed.

Lemma opts_known_stable opts : stable (opts_known opts).
Proof.
  intros h h' Hg Ho o Hin. specialize (Ho o Hin). destruct o; [|done..].
  destruct Ho as [r Hr]. exists r. by apply (g_ref _ _ Hg).
Qed.

Lemma stable_and R1 R2 : stable R1 → stable R2 → stable (λ h, R1 h ∧ R2 h).
Proof. intros H1 H2 h h' Hg [A B]. split; [by eapply H1|by eapply H2]. Qed.

Lemma stable_pure (R : Prop) : stable (λ _, R).
Proof. by intros h h' _. Qed.

Lemma queue_named_known ql n h : queue_named ql n h → queue_known (Some ql) h.
Proof. intros (qu & Hqu & _) ql' [= <-]. by exists qu. Qed.

Abbreviation safely := (safe heap_inv grows own keeps).

Lemma safe_act {B} fp (act : st heap B) (K : heap → Prop) R X h :
  stable K → (∀ b X', stable (R b X')) → K h →
  (∀ h1, heap_inv h1 → own X h1 → K h1 →
     wp act (λ b h2, keeps fp h1 h2 ∧ ∃ X', guar X X' h1 h2 ∧ R b X' h2) h1) →
  safely (atomic fp act) R X h.
Proof.
  intros HK HR Hh Hact. apply safe_atomic. intros h1 (Hi & Hg & Ho).
  eapply wp_mono; [apply Hact; [done|done|by eapply HK]|].
  intros b h2 (Hk & X' & Hgu & Hr). split; [done|]. exists X'. split; [done|].
  intros h3 (_ & Hg3 & _). by eapply HR.
Qed.

(** The rules of [safe] for this heap. *)
Lemma safely_bind {A B} (p : proc heap lock A) (f : A → proc heap lock B) R R' X h :
  safely p R X h → (∀ a X' h', heap_inv h' → own X' h' → R a X' h' → safely (f a) R' X' h') →
  safely (p ≫= f) R' X h.
Proof. exact (safe_bind heap_inv grows own keeps p f R R' X h). Qed.

Lemma safely_stable {A} (K : heap → Prop) (p : proc heap lock A) R X h :
  stable K → K h → safely p R X h → safely p (λ a X' h', R a X' h' ∧ K h') X h.
Proof. intros HK. exact (safe_stable heap_inv grows own keeps K p R X h HK). Qed.

Lemma safely_mono {A} (p : proc heap lock A) R R' X h :
  safely p R X h → (∀ a X' h', R a X' h' → R' a X' h') → safely p R' X h.
Proof. intros Hp HR. apply (safe_mono heap_inv grows own keeps p R R' X h Hp). auto. Qed.

(** An action that only reads. *)
Lemma safe_read {B} fp (act : st heap B) (K : heap → Prop) (R : B → heap → Prop) X h :
  stable K → (∀ b, stable (R b)) → K h →
  (∀ h1, heap_inv h1 → K h1 → wp act (λ b h2, h2 = h1 ∧ R b h1) h1) →
  safely (atomic fp act) (λ b X' h', X' = X ∧ R b h') X h.
Proof.
  intros HK HR Hh Hact. eapply (safe_act fp act K); [done| |done|].
  { intros b X'. apply stable_and; [apply stable_pure|apply HR]. }
  intros h1 Hi Ho Hk. eapply wp_mono; [by apply Hact|]. intros b h2 [-> Hr].
  split; [apply keeps_refl|]. exists X. split; [by apply guar_refl|done].
Qed.

Lemma safe_critical_read {B} l (act : st heap B) (K : heap → Prop) (R : B → heap → Prop) X h :
  stable K → (∀ b, stable (R b)) → K h →
  (∀ h1, heap_inv h1 → K h1 → wp act (λ b h2, h2 = h1 ∧ R b h1) h1) →
  safely (critical Rd l act) (λ b X' h', X' = X ∧ R b h') X h.
Proof. intros. by apply safe_with_lock, (safe_read _ _ K). Qed.
End defs.

#[export] Hint Resolve mgr_known_stable queue_known_stable queue_named_stable quota_known_stable
  opts_known_stable stable_and stable_pure keeps_refl : golib.
