(* ===== verification/LockMethods.v ===== *)
(** * LockMethods: every operation is safe while others run

    For each operation of [Locking], from what the caller knows of its
    arguments: whatever the other goroutines do in between, the operation does
    not panic, keeps [heap_inv] at every step and respects what the others
    own; and what its result tells the caller. *)

From stdpp Require Import base tactics option list gmap strings sorting relations.
From Stdlib Require Import ZArith Lia.
From S2P Require Import Prelude.
From S2P Require Import External.
From S2P Require Import Resources.
From S2P Require Import Api.
From S2P Require Import Match.
From S2P Require Import Store.
From S2P Require Import StoreFacts.
From S2P Require Import Quota.
From S2P Require Import Queue.
From S2P Require Import Manager.
From S2P Require Import QueueFacts.
From S2P Require Import ManagerFacts.
From S2P Require Import ManagerProps.
From S2P Require Import Threads.
From S2P Require Import ThreadFacts.
From S2P Require Import Locking.
From S2P Require Import LockingFacts.
From S2P Require Import LockSafety.

Section methods.
Context {T : ApiTypes} {Q : QuantityOps} {P : PodOps} {L : SelectorOps} {QL : QuantityLaws}.
Variable req : requests.

Abbreviation guar := (guarantee (heap_inv req) grows own).
Abbreviation safely := (safe (heap_inv req) grows own keeps).
Implicit Types (X : gset (loc + loc)) (h : heap).

(** ** Quotas *)

(** What adding or deleting one pod, or several, does to a heap. *)
Definition quota_written X tl h h' : Prop := keeps [(LQuota tl, Wr)] h h' ∧ guar X X h h'.

Lemma quota_written_refl X tl h : heap_inv req h → own X h → quota_written X tl h h.
Proof. split; [apply keeps_refl|by apply guar_refl]. Qed.

Lemma quota_written_trans X tl h1 h2 h3 :
  is_Some (h_quota h1 !! tl) → quota_written X tl h1 h2 → quota_written X tl h2 h3 → quota_written X tl h1 h3.
Proof.
  intros Htl [K1 G1] [K2 G2]. split; [|by eapply guar_trans].
  eapply keeps_trans; [|apply G1|exact K1|exact K2]. by intros tl' [= ->]%list_elem_of_singleton.
Qed.

Lemma AddPod_body_safe X tl pod h :
  heap_inv req h → own X h → is_Some (h_quota h !! tl) → pod_fits req pod →
  wp (Quota_AddPod_body tl pod) (λ _ h', quota_written X tl h h') h.
Proof.
  intros Hi Ho [qo Hq] Hpod. unfold Quota_AddPod_body. destruct pod as [p|].
  2:{ by apply wp_ret, quota_written_refl. }
  apply wp_bind, (wp_load_quota _ qo); [done|]. destruct (quota_podsByID qo !! pod_UID p) eqn:E.
  { by apply wp_ret, quota_written_refl. }
  destruct (wf_quota_used h (proj1 Hi) _ _ Hq) as (ul & m & Hu & Hm). rewrite Hu.
  pose proof (good_add req (Some p) _ Hpod (proj2 Hi _ _ Hq)) as Hgood.
  unfold quotaV_add, view_quota in Hgood. cbn [qv_pods qv_max qv_used] in Hgood.
  rewrite E, Hu, (res_val_Some h ul m Hm), res_add_Some in Hgood.
  apply wp_bind, wp_modify. eapply wp_update_res; [exact Hm|apply Resources_Add_eq|].
  by apply (write_quota req X h tl qo ul m).
Qed.

Lemma DeletePod_body_safe X tl pod h :
  heap_inv req h → own X h → is_Some (h_quota h !! tl) → pod_fits req pod →
  wp (Quota_DeletePod_body tl pod) (λ _ h', quota_written X tl h h') h.
Proof.
  intros Hi Ho [qo Hq] Hpod. unfold Quota_DeletePod_body. destruct pod as [p|].
  2:{ by apply wp_ret, quota_written_refl. }
  apply wp_bind, (wp_load_quota _ qo); [done|]. destruct (quota_podsByID qo !! pod_UID p) eqn:E.
  2:{ by apply wp_ret, quota_written_refl. }
  destruct (wf_quota_used h (proj1 Hi) _ _ Hq) as (ul & m & Hu & Hm). rewrite Hu.
  pose proof (good_del req (Some p) _ Hpod (proj2 Hi _ _ Hq)) as Hgood.
  unfold quotaV_del, view_quota in Hgood. cbn [qv_pods qv_max qv_used] in Hgood.
  rewrite E, Hu, (res_val_Some h ul m Hm), res_sub_Some in Hgood.
  apply wp_bind, wp_modify. eapply wp_update_res; [exact Hm|apply Resources_Sub_eq|].
  by apply (write_quota req X h tl qo ul m).
Qed.

Lemma pods_loop_safe X tl (pods : list (option Pod)) body h :
  (∀ pod h, pod ∈ pods → heap_inv req h → own X h → is_Some (h_quota h !! tl) →
     wp (body pod) (λ _ h', quota_written X tl h h') h) →
  heap_inv req h → own X h → is_Some (h_quota h !! tl) →
  wp (st_for pods body) (λ _ h', quota_written X tl h h') h.
Proof.
  intros Hbody. induction pods as [|pod pods IH] in h, Hbody |- *; intros Hi Ho Htl; simpl.
  { by apply wp_ret, quota_written_refl. }
  apply wp_bind. eapply wp_mono; [apply Hbody; [by left|done..]|]. intros [] h1 Hw.
  pose proof Hw as [_ (Hi1 & Hg1 & Ho1 & _)].
  assert (is_Some (h_quota h1 !! tl)) as Htl1 by by apply (quota_known_stable (Some tl) h h1 Hg1 ltac:(by intros ? [= <-])).
  eapply wp_mono; [apply IH; [|done..]|].
  - intros pod' h' Hin. apply Hbody. by right.
  - intros [] h2 Hw2. by eapply quota_written_trans.
Qed.

Lemma quota_write_safe X tl (act : st heap unit) h :
  (∀ h, heap_inv req h → own X h → is_Some (h_quota h !! tl) → wp act (λ _ h', quota_written X tl h h') h) →
  quota_known (Some tl) h → safely (critical Wr (LQuota tl) act) (λ _ X' _, X' = X) X h.
Proof.
  intros Hact Hk. apply safe_with_lock, (safe_act req _ _ (quota_known (Some tl))); [auto with golib|by intros ? ? ? ?|done|].
  intros h1 Hi Ho Hk1. eapply wp_mono; [apply Hact; [done|done|by apply Hk1]|].
  intros [] h2 [? ?]. split; [done|]. by exists X.
Qed.

Lemma Quota_AddPodIfNotPresent_safe X q pods h :
  quota_known q h → (∀ pod, pod ∈ pods → pod_fits req pod) →
  safely (go_Quota_AddPodIfNotPresent q pods) (λ _ X' _, X' = X) X h.
Proof.
  intros Hq Hpods. unfold go_Quota_AddPodIfNotPresent. destruct q as [tl|]; [|by apply safe_ret].
  case_match; [by apply safe_ret|]. apply quota_write_safe; [|done].
  intros h1 Hi Ho Htl. apply pods_loop_safe; [|done..]. intros. by apply AddPod_body_safe; auto.
Qed.

Lemma Quota_DeletePodIfPresent_safe X q pods h :
  quota_known q h → (∀ pod, pod ∈ pods → pod_fits req pod) →
  safely (go_Quota_DeletePodIfPresent q pods) (λ _ X' _, X' = X) X h.
Proof.
  intros Hq Hpods. unfold go_Quota_DeletePodIfPresent. destruct q as [tl|]; [|by apply safe_ret].
  case_match; [by apply safe_ret|]. apply quota_write_safe; [|done].
  intros h1 Hi Ho Htl. apply pods_loop_safe; [|done..]. intros. by apply DeletePod_body_safe; auto.
Qed.

Lemma Quota_SetMax_safe X q max h :
  quota_known q h → opt_known (OptQuotaMax max) h →
  safely (go_Quota_SetMax q max) (λ _ X' _, X' = X) X h.
Proof.
  intros Hq Hmax. unfold go_Quota_SetMax. destruct q as [tl|]; [|by apply safe_ret].
  apply safe_with_lock, (safe_act req _ _ (λ h, quota_known (Some tl) h ∧ opts_known [OptQuotaMax max] h)).
  - auto with golib.
  - by intros ? ? ? ?.
  - split; [done|]. by intros o ->%list_elem_of_singleton.
  - intros h1 Hi Ho [Hk Hr]. destruct (Hk tl eq_refl) as [qo Hqo].
    destruct (Hr (OptQuotaMax max) ltac:(by left)) as [r Hmx]. unfold Quota_SetMax, store_quota.
    apply wp_bind, (wp_load_quota _ qo); [done|]. apply wp_modify.
    destruct (write_max req X h1 tl qo max r Hi Ho Hqo Hmx). split; [done|]. by exists X.
Qed.

(** Reading a quota's fields. *)
Lemma quota_read_safe {B} X q (d : B) (act : loc → st heap B) (R : B → heap → Prop) h :
  quota_known q h → (∀ b, stable (R b)) →
  (∀ h', grows h h' → R d h') →
  (∀ tl qo h, heap_inv req h → h_quota h !! tl = Some qo → wp (act tl) (λ b h2, h2 = h ∧ R b h) h) →
  safely (match q with None => mret d | Some tl => critical Rd (LQuota tl) (act tl) end)
    (λ b X' h', X' = X ∧ R b h') X h.
Proof.
  intros Hq HR Hd Hact. destruct q as [tl|].
  - apply (safe_critical_read req _ _ (quota_known (Some tl))); [auto with golib|done|done|].
    intros h1 Hi Hk. destruct (Hk tl eq_refl) as [qo Hqo]. by eapply Hact.
  - apply safe_ret. intros h' (_ & Hg & _). split; [done|by apply Hd].
Qed.

Lemma quota_over_read tl qo request h :
  heap_inv req h → h_quota h !! tl = Some qo →
  wp (Quota_WouldPutOverMax (Some tl) request) (λ b h2, h2 = h ∧ True) h.
Proof.
  intros [Hwf _] Hq. destruct (wf_quota_used h Hwf _ _ Hq) as (ul & m & Hu & Hm).
  unfold Quota_WouldPutOverMax, load_res. apply wp_bind, (wp_load_quota _ qo); [done|]. wp_simpl.
  apply wp_lift. rewrite Hu, (res_val_Some h ul m Hm). unfold Resources_Plus.
  rewrite Resources_Clone_eq, Resources_Add_eq. eexists. split; [done|]. by apply wp_ret.
Qed.

Lemma keeps_nil fp h h' : keeps [] h h' → keeps fp h h'.
Proof.
  intros [A1 A2 A3 A4]. split.
  - intros m M _. apply A1. by intros ?%elem_of_nil.
  - intros ql qu _. apply A2. by intros ?%elem_of_nil.
  - intros tl qo _. apply A3. by intros ?%elem_of_nil.
  - intros l m _. apply A4. by intros ? ? ?%elem_of_nil.
Qed.

(** The clone belongs to the caller until a queue gets it. *)
Definition cloned X h (r : option loc) h2 : Prop :=
  keeps [] h h2 ∧ ∃ tl', r = Some tl' ∧ (inr tl' ∉ X) ∧ guar X (X ∪ {[inr tl']}) h h2.

Lemma clone_quota_tail X h h1 mx r m pods :
  heap_inv req h1 → own X h1 → guar X X h h1 → keeps [] h h1 →
  max_ref h1 mx r → good req (mkQuotaV r (Some m) pods) →
  wp (alloc_res (Some m)) (λ used h2, wp (alloc_quota (mkQuota mx used pods)) (λ l h3, cloned X h (Some l) h3) h2) h1.
Proof.
  intros Hi1 Ho1 Hg1 Hk1 Hmx Hgood. unfold alloc_res, alloc_quota, store_quota. wp_simpl.
  destruct (make_quota req X h1 (fresh (dom (h_res h1))) (fresh (dom (h_quota h1))) mx r m pods)
    as [Hk2 Hg2]; [done|done|apply fresh_lookup|apply fresh_lookup|done..|].
  split.
  - eapply keeps_trans; [|apply Hg1|exact Hk1|exact Hk2]. by intros ? ?%elem_of_nil.
  - eexists. split; [done|]. split; [|by eapply guar_trans].
    intros Hin. destruct (proj2 Ho1 _ Hin) as [[? Hx] _]. by rewrite fresh_lookup in Hx.
Qed.

Lemma Quota_Clone_act X tl qo h :
  heap_inv req h → own X h → h_quota h !! tl = Some qo → wp (Quota_Clone (Some tl)) (cloned X h) h.
Proof.
  intros Hi Ho Hq. destruct (wf_quota_used h (proj1 Hi) _ _ Hq) as (ul & m & Hu & Hm).
  pose proof (proj2 Hi _ _ Hq) as Hgood. unfold view_quota in Hgood. rewrite Hu, (res_val_Some h ul m Hm) in Hgood.
  unfold Quota_Clone. apply wp_bind, (wp_load_quota _ qo); [done|].
  apply wp_bind. unfold load_res. wp_simpl. rewrite Resources_Clone_eq.
  assert (wp (alloc_res (res_val h (quota_max qo)))
    (λ mx h1, heap_inv req h1 ∧ own X h1 ∧ guar X X h h1 ∧ keeps [] h h1 ∧ max_ref h1 mx (res_val h (quota_max qo))
       ∧ res_val h1 (Some ul) = Some m) h) as Hmax.
  { destruct (res_val h (quota_max qo)) as [mm|]; unfold alloc_res; wp_simpl.
    - destruct (make_res req X h (fresh (dom (h_res h))) mm Hi Ho (fresh_lookup _)) as (Hk & Hg & Hmx).
      refine (conj _ (conj _ (conj Hg (conj (Hk []) (conj Hmx _))))); [exact (proj1 Hg)|exact (proj1 (proj2 (proj2 Hg)))|].
      unfold res_val; simpl. rewrite lookup_insert_ne; [done|]. intros He.
      pose proof (fresh_lookup (h_res h)) as Hf. rewrite He in Hf. congruence.
    - refine (conj Hi (conj Ho (conj (guar_refl _ _ _ Hi Ho) (conj (keeps_refl _ _) (conj (max_ref_nil _) Hm))))). }
  eapply wp_mono; [exact Hmax|]. intros mx h1 (Hi1 & Ho1 & Hg1 & Hk1 & Hmx & Hus). wp_simpl.
  rewrite Hu, Hus, Resources_Clone_eq. eapply wp_mono; [by eapply clone_quota_tail|].
  intros used h2 Hw. apply wp_bind. eapply wp_mono; [exact Hw|]. intros l h3 Hc. by apply wp_ret.
Qed.

(** ** Queues *)

(** Reading a queue's fields. *)
Lemma queue_read_safe {B} X l (act : st heap B) (R : B → heap → Prop) h :
  queue_known (Some l) h → (∀ b, stable (R b)) →
  (∀ qu h, heap_inv req h → h_queue h !! l = Some qu → wp act (λ b h2, h2 = h ∧ R b h) h) →
  safely (critical Rd (LQueue l) act) (λ b X' h', X' = X ∧ R b h') X h.
Proof.
  intros Hq HR Hact. apply (safe_critical_read req _ _ (queue_known (Some l))); [auto with golib|done|done|].
  intros h1 Hi Hk. destruct (Hk l eq_refl) as [qu Hqu]. by eapply Hact.
Qed.

Lemma queue_quota_known h l qu :
  heap_inv req h → h_queue h !! l = Some qu → is_Some (queue_quota qu) ∧ quota_known (queue_quota qu) h.
Proof.
  intros [Hwf _] Hqu. destruct (wf_queue_quota h Hwf _ _ Hqu) as (tl & qo & -> & Hqo).
  split; [by eexists|]. intros tl' [= <-]. by exists qo.
Qed.

Lemma Queue_Quota_safe X q h :
  queue_known q h → safely (go_Queue_Quota q) (λ b X' h', X' = X ∧ quota_known b h') X h.
Proof.
  intros Hq. unfold go_Queue_Quota. destruct q as [l|]; [|apply safe_ret; split; [done|by intros ?]].
  apply queue_read_safe; [done|auto with golib|]. intros qu h1 Hi Hqu.
  apply wp_bind, (wp_load_queue _ qu); [done|]. apply wp_ret. split; [done|].
  by apply (queue_quota_known h1 l).
Qed.

Lemma opt_safe X o l h :
  queue_known (Some l) h → opt_known o h → safely (go_opt o (Some l)) (λ _ X' _, X' = X) X h.
Proof.
  intros Hq Ho. unfold go_opt. destruct o as [mx|ls|cfg].
  - eapply safely_bind.
    { apply (safe_read req _ _ (λ h, queue_known (Some l) h ∧ opts_known [OptQuotaMax mx] h)
        (λ qu h, quota_known (queue_quota qu) h ∧ opts_known [OptQuotaMax mx] h)); [auto with golib..| |].
      - split; [done|]. by intros o ->%list_elem_of_singleton.
      - intros h1 Hi [Hk Hr]. destruct (Hk l eq_refl) as [qu Hqu]. apply (wp_load_queue _ qu); [done|].
        split; [done|]. split; [|done]. by apply (queue_quota_known h1 l). }
    intros qu X' h1 Hi _ (-> & Hk & Hr). apply Quota_SetMax_safe; [done|]. apply Hr. by left.
  - eapply (safe_act req _ _ (queue_known (Some l))); [auto with golib|by intros ? ? ? ?|done|].
    intros h1 Hi Hown Hk. destruct (Hk l eq_refl) as [qu Hqu]. unfold WithLabels, store_queue.
    apply wp_bind, (wp_load_queue _ qu); [done|]. apply wp_modify.
    destruct (write_queue req X h1 l qu (match ls with None => Some gomap_make | Some ls => Some ls end) (queue_preemptionCfg qu) Hi Hown Hqu).
    split; [done|]. by exists X.
  - eapply (safe_act req _ _ (queue_known (Some l))); [auto with golib|by intros ? ? ? ?|done|].
    intros h1 Hi Hown Hk. destruct (Hk l eq_refl) as [qu Hqu]. unfold WithPreemptionConfig, store_queue.
    apply wp_bind, (wp_load_queue _ qu); [done|]. apply wp_modify.
    destruct (write_queue req X h1 l qu (queue_labels qu) cfg Hi Hown Hqu). split; [done|]. by exists X.
Qed.

Lemma for_safe {A} X (l : list A) (f : A → proc heap lock unit) (K : heap → Prop) h :
  stable K → (∀ x h, x ∈ l → K h → safely (f x) (λ _ X' _, X' = X) X h) → K h →
  safely (proc_for l f) (λ _ X' _, X' = X) X h.
Proof.
  intros HK Hf. induction l as [|x l IH] in h, Hf |- *; intros Hk; [by intros ? ?|]. cbn [proc_for].
  eapply safely_bind; [apply (safely_stable req K); [done|exact Hk|apply Hf; [by left|done]]|].
  intros [] X' h1 _ _ [-> Hk1]. apply IH; [|done]. intros y h2 Hy. apply Hf. by right.
Qed.

Lemma Queue_ApplyOpts_safe X q opts h :
  queue_known q h → opts_known opts h → safely (go_Queue_ApplyOpts q opts) (λ _ X' _, X' = X) X h.
Proof.
  intros Hq Ho. unfold go_Queue_ApplyOpts. destruct q as [l|]; [|by apply safe_ret].
  apply safe_with_lock, (for_safe _ _ _ (λ h, queue_known (Some l) h ∧ opts_known opts h)); [auto with golib| |done].
  intros o h1 Hin [Hq1 Ho1]. apply opt_safe; [done|by apply Ho1].
Qed.

(** A new queue, over a quota that the goroutine has made. *)
Definition queue_made X nm ql h : Prop := (inl ql ∉ X) ∧ queue_named ql nm h.

Lemma alloc_queue_act X tl nm ls cfg h :
  heap_inv req h → own (X ∪ {[inr tl]}) h → inr tl ∉ X →
  wp (alloc_queue (mkQueue nm (Some tl) ls cfg)) (λ ql h2, keeps [] h h2
    ∧ guar (X ∪ {[inr tl]}) (X ∪ {[inl ql]}) h h2 ∧ queue_made X nm ql h2) h.
Proof.
  intros Hi Ho Htl. unfold alloc_queue, store_queue. wp_simpl.
  pose proof (fresh_lookup (h_queue h)) as Hf. generalize dependent (fresh (dom (h_queue h))). intros ql Hf.
  destruct (make_queue req (X ∪ {[inr tl]}) h ql (mkQueue nm (Some tl) ls cfg) tl) as [Hk Hg]; [done|done|done|done|set_solver|].
  assert (inl ql ∉ X) as HqX.
  { intros Hin. destruct (proj1 Ho ql) as [[? ?] _]; [set_solver|congruence]. }
  replace ((X ∪ {[inr tl]}) ∖ {[inr tl]} ∪ {[inl ql]}) with (X ∪ {[inl ql]} : gset (loc + loc)) in Hg by set_solver.
  split; [done|]. split; [done|]. split; [done|]. eexists. by split; [simpl; apply lookup_insert_eq|].
Qed.

Lemma queue_made_stable X nm ql : stable (queue_made X nm ql).
Proof. apply stable_and; [apply stable_pure|apply queue_named_stable]. Qed.

Lemma Queue_New_safe X name opts h :
  opts_known opts h →
  safely (go_Queue_New name opts) (λ ql X' h', X' = X ∪ {[inl ql]} ∧ queue_made X name ql h') X h.
Proof.
  intros Ho. unfold go_Queue_New. eapply safely_bind.
  - apply (safely_stable req (opts_known opts)); [auto with golib|exact Ho|].
    apply (safe_act req _ _ (λ _, True) (λ ql X' h', X' = X ∪ {[inl ql]} ∧ queue_made X name ql h')); [done| |done|].
    { intros b X'. apply stable_and; [apply stable_pure|apply queue_made_stable]. }
    intros h1 Hi Hown _. unfold NewQuota. rewrite !wp_bind.
    pose proof (clone_quota_tail X h1 h1 None None ∅ ∅ Hi Hown (guar_refl _ _ _ Hi Hown) (keeps_refl _ _)
      (max_ref_nil _) (good_empty req None)) as Hw.
    eapply wp_mono; [exact Hw|]. intros used h2 Hw2. eapply wp_mono; [exact Hw2|].
    intros tl h3 (Hk & tl1 & Heq & Htl & Hg). injection Heq as <-. pose proof Hg as (Hi3 & _ & Ho3 & _).
    pose proof (alloc_queue_act X tl name (Some gomap_make) PreemptionConfig_zero h3 Hi3 Ho3 Htl) as Hw3.
    eapply wp_mono; [exact Hw3|].
    intros ql h4 (Hk4 & Hg4 & Hm). split.
    { eapply keeps_trans; [|apply Hg|exact Hk|exact Hk4]. by intros ? ?%elem_of_nil. }
    eexists. split; [by eapply guar_trans|]. by split.
  - intros ql X' h1 Hi Hown [[-> Hm] Ho1]. eapply safely_bind.
    + apply (safely_stable req (queue_made X name ql)); [apply queue_made_stable|exact Hm|].
      apply Queue_ApplyOpts_safe; [|done]. by eapply queue_named_known, Hm.
    + intros [] X' h2 _ _ [-> Hm2]. apply safe_ret. intros h3 (_ & Hg & _). split; [done|].
      by eapply queue_made_stable.
Qed.

Lemma Quota_Clone_safe X q h :
  is_Some q → quota_known q h →
  safely (go_Quota_Clone q) (λ r X' _, ∃ tl, r = Some tl ∧ (inr tl ∉ X) ∧ X' = X ∪ {[inr tl]}) X h.
Proof.
  intros [tl ->] Hq. apply safe_with_lock, (safe_act req _ _ (quota_known (Some tl)));
    [auto with golib|by intros ? ? ? ? ?|done|].
  intros h1 Hi Ho Hk. destruct (Hk tl eq_refl) as [qo Hqo].
  eapply wp_mono; [by eapply Quota_Clone_act|]. intros r h2 (Hk2 & tl' & -> & Hn & Hg).
  split; [by apply keeps_nil|]. eexists. split; [exact Hg|]. by eexists.
Qed.

Lemma Queue_Clone_safe X l nm h :
  queue_named l nm h →
  safely (go_Queue_Clone (Some l)) (λ r X' h', ∃ ql, r = Some ql ∧ X' = X ∪ {[inl ql]} ∧ queue_made X nm ql h') X h.
Proof.
  intros Hn. unfold go_Queue_Clone. apply safe_with_lock. eapply safely_bind.
  - apply (safe_read req _ _ (queue_named l nm) (λ qu h, queue_name qu = nm ∧ is_Some (queue_quota qu)
      ∧ quota_known (queue_quota qu) h)); [auto with golib| |done|].
    { intros qu. apply stable_and; [apply stable_pure|]. apply stable_and; auto with golib. }
    intros h1 Hi (qu & Hqu & Hnm). apply (wp_load_queue _ qu); [done|].
    destruct (queue_quota_known h1 l qu Hi Hqu). by split_and!.
  - intros qu X' h1 _ _ (-> & <- & Hs & Hq). eapply safely_bind; [by apply Quota_Clone_safe|].
    intros r X' h2 _ _ (tl & -> & Htl & ->). eapply safely_bind.
    + apply (safe_act req _ _ (λ _, True) (λ ql X' h', X' = X ∪ {[inl ql]} ∧ queue_made X (queue_name qu) ql h')); [done| |done|].
      { intros b X'. apply stable_and; [apply stable_pure|apply queue_made_stable]. }
      intros h3 Hi3 Ho3 _. eapply wp_mono; [by apply (alloc_queue_act X)|].
      intros ql h4 (Hk4 & Hg4 & Hm). split; [by apply keeps_nil|]. eexists. by split.
    + intros ql X' h3 _ _ [-> Hm]. apply safe_ret. intros h4 (_ & Hg & _). exists ql. split; [done|]. split; [done|].
      by eapply queue_made_stable.
Qed.

(** ** Managers *)

Lemma GetByName_safe X m n h :
  mgr_known m h →
  safely (go_Manager_GetByName m n) (λ q X' h', X' = X ∧ (∀ ql, q = Some ql → queue_named ql n h')) X h.
Proof.
  intros Hm. apply (safe_critical_read req _ _ (mgr_known m)); [auto with golib| |done|].
  { intros q h1 h2 Hg Hq ql Hql. by eapply queue_named_stable, Hq. }
  intros h1 [Hwf _] [M HM]. apply wp_bind, (wp_load_mgr _ M); [done|]. apply wp_ret. split; [done|].
  intros ql Hql. destruct (wf_mgr_queue h1 Hwf _ _ _ _ HM Hql) as (qu & ? & ?). by exists qu.
Qed.

Lemma named_known q n h : (∀ ql, q = Some ql → queue_named ql n h) → queue_known q h.
Proof. intros Hq ql ->. by eapply queue_named_known; [apply Hq|]. Qed.

(** The goroutine's new queue gets its place in the manager. *)
Lemma insert_safe X m n ql h :
  mgr_known m h → queue_made X n ql h →
  safely (atomic [(LMgr m, Wr)] (Manager_insert m n ql)) (λ _ X' _, X' = X) (X ∪ {[inl ql]}) h.
Proof.
  intros Hm Hq. apply (safe_act req _ _ (λ h, mgr_known m h ∧ queue_made X n ql h)); [|by intros ? ? ? ?|done|].
  { apply stable_and; [auto with golib|apply queue_made_stable]. }
  intros h1 Hi Ho [[M HM] [HX Hn]]. unfold Manager_insert, store_mgr.
  apply wp_bind, (wp_load_mgr _ M); [done|]. apply wp_modify.
  destruct (write_mgr req (X ∪ {[inl ql]}) X h1 m (<[n := ql]> (queueByName M)) [(LMgr m, Wr)]) as [Hk Hg];
    [done|done|left; by left| |set_solver| |].
  - intros n' ql' [[<- <-]|[Hne Hl]]%lookup_insert_Some.
    + split; [done|]. left. set_solver.
    + split; [|right; by exists M].
      destruct (wf_mgr_queue h1 (proj1 Hi) _ _ _ _ HM Hl) as (qu & ? & ?). by exists qu.
  - intros n' ql' [[<- <-]|[Hne Hl]]%lookup_insert_Some; [done|].
    intros Hin. by apply (proj2 (proj1 Ho ql' ltac:(set_solver)) m M n').
  - split; [done|]. by exists X.
Qed.

Lemma Delete_safe X m n h : mgr_known m h → safely (go_Manager_Delete m n) (λ _ X' _, X' = X) X h.
Proof.
  intros Hm. apply safe_with_lock, (safe_act req _ _ (mgr_known m)); [auto with golib|by intros ? ? ? ?|done|].
  intros h1 Hi Ho [M HM]. unfold Manager_Delete, store_mgr.
  apply wp_bind, (wp_load_mgr _ M); [done|]. apply wp_modify.
  destruct (write_mgr req X X h1 m (delete n (queueByName M)) [(LMgr m, Wr)]) as [Hk Hg];
    [done|done|left; by left| |done| |].
  - intros n' ql' [Hne Hl]%lookup_delete_Some. split; [|right; by exists M].
    destruct (wf_mgr_queue h1 (proj1 Hi) _ _ _ _ HM Hl) as (qu & ? & ?). by exists qu.
  - intros n' ql' [Hne Hl]%lookup_delete_Some Hin. by apply (proj2 (proj1 Ho ql' Hin) m M n').
  - split; [done|]. by exists X.
Qed.

Lemma new_and_insert_safe X m n opts h :
  mgr_known m h → opts_known opts h →
  safely (q ← go_Queue_New n opts; atomic [(LMgr m, Wr)] (Manager_insert m n q)) (λ _ X' _, X' = X) X h.
Proof.
  intros Hm Ho. eapply safely_bind.
  - apply (safely_stable req (mgr_known m)); [auto with golib|exact Hm|by apply Queue_New_safe].
  - intros q X' h1 _ _ [[-> Hq] Hm1]. by apply insert_safe.
Qed.

Lemma Update_safe X m n opts h :
  mgr_known m h → opts_known opts h → safely (go_Manager_Update m n opts) (λ _ X' _, X' = X) X h.
Proof.
  intros Hm Ho. unfold go_Manager_Update. case_match; [by apply safe_ret|]. apply safe_with_lock.
  eapply safely_bind.
  - apply (safely_stable req (λ h, mgr_known m h ∧ opts_known opts h)); [auto with golib|done|].
    apply (safe_read req _ _ (mgr_known m) (λ q h, ∀ ql, q = Some ql → queue_named ql n h)); [auto with golib| |done|].
    { intros q h1 h2 Hg Hq ql Hql. by eapply queue_named_stable, Hq. }
    intros h1 [Hwf _] [M HM]. apply wp_bind, (wp_load_mgr _ M); [done|]. apply wp_ret. split; [done|].
    intros ql Hql. destruct (wf_mgr_queue h1 Hwf _ _ _ _ HM Hql) as (qu & ? & ?). by exists qu.
  - intros [q|] X' h1 _ _ ([-> Hq] & Hm1 & Ho1); [|by apply new_and_insert_safe].
    apply Queue_ApplyOpts_safe; [|done]. by eapply named_known.
Qed.

(** Both pod methods: the queue that is found, then its quota, then the quota's method. *)
Lemma route_safe X m n err (method : option loc → proc heap lock unit) h :
  mgr_known m h → (∀ q h, quota_known q h → safely (method q) (λ _ X' _, X' = X) X h) →
  safely (q ← go_Manager_GetByName m n;
      match q with
      | None => mret (Some (queue_does_not_exist err n))
      | Some _ => quota ← go_Queue_Quota q; method quota ;; mret None
      end) (λ _ X' _, X' = X) X h.
Proof.
  intros Hm Hmethod. eapply safely_bind; [by apply GetByName_safe|].
  intros q X' h1 _ _ [-> Hq]. destruct q as [ql|]; [|by apply safe_ret].
  eapply safely_bind; [apply Queue_Quota_safe; by eapply named_known|].
  intros quota X' h2 _ _ [-> Hk]. eapply safely_bind; [by apply Hmethod|].
  intros [] X' h3 _ _ ->. by apply safe_ret.
Qed.

Lemma Manager_AddPod_safe X m pod h :
  mgr_known m h → pod_fits req pod → safely (go_Manager_AddPodIfNotPresent m pod) (λ _ X' _, X' = X) X h.
Proof.
  intros Hm Hpod. unfold go_Manager_AddPodIfNotPresent. destruct pod as [p|]; [|by apply safe_ret].
  destruct (gomap_lookup (pod_Labels p) LabelKeyQueue) as [n|]; [|by apply safe_ret].
  apply (route_safe X m n _ (λ quota, go_Quota_AddPodIfNotPresent quota [Some p])); [done|].
  intros q h1 Hq. apply Quota_AddPodIfNotPresent_safe; [done|]. by intros pod ->%list_elem_of_singleton.
Qed.

Lemma Manager_DeletePod_safe X m pod h :
  mgr_known m h → pod_fits req pod → safely (go_Manager_DeletePodIfPresent m pod) (λ _ X' _, X' = X) X h.
Proof.
  intros Hm Hpod. unfold go_Manager_DeletePodIfPresent. destruct pod as [p|]; [|by apply safe_ret].
  destruct (gomap_lookup (pod_Labels p) LabelKeyQueue) as [n|]; [|by apply safe_ret].
  apply (route_safe X m n _ (λ quota, go_Quota_DeletePodIfPresent quota [Some p])); [done|].
  intros q h1 Hq. apply Quota_DeletePodIfPresent_safe; [done|]. by intros pod ->%list_elem_of_singleton.
Qed.

(** The clones made so far are the goroutine's own. *)
Definition cloned_queue X n ql h : Prop := inl ql ∈ X ∧ queue_named ql n h.

Lemma clone_queues_safe items X C h :
  (∀ n l, (n, l) ∈ items → queue_named l n h) →
  safely (go_clone_queues items C) (λ C' X' h', X ⊆ X' ∧
    ∀ n ql, C' !! n = Some ql → cloned_queue X' n ql h' ∨ ((n ∉ items.*1) ∧ C !! n = Some ql)) X h.
Proof.
  induction items as [|[n l] items IH] in X, C, h |- *; intros Hall.
  { intros h' _. split; [done|]. intros n ql Hn. right. split; [by apply not_elem_of_nil|done]. }
  cbn [go_clone_queues]. set (K := λ h, ∀ n l, (n, l) ∈ items → queue_named l n h).
  assert (stable K) as HK by (intros h1 h2 Hg Hk n' l' Hin; by eapply queue_named_stable, Hk).
  eapply safely_bind.
  { apply (safely_stable req K); [done| |apply (Queue_Clone_safe X l n), Hall; by left].
    intros n' l' Hin. apply Hall. by right. }
  intros r X1 h1 _ _ [(ql1 & -> & -> & HqX & Hq1) HK1]. eapply safely_bind.
  { apply (safe_read req _ _ (λ h, queue_named ql1 n h ∧ K h) (λ l h, l = ql1 ∧ queue_named ql1 n h ∧ K h)); [auto with golib..|done|].
    intros h2 Hi2 Hk2. apply wp_some. by exists ql1. }
  intros ? X' h2 _ _ (-> & -> & Hq2 & HK2).
  eapply safely_mono; [apply (safely_stable req (queue_named ql1 n)); [auto with golib|exact Hq2|by apply IH]|].
  intros C' X' h3 [[HX HC] Hq3]. split; [set_solver|]. intros n' ql Hn'.
  destruct (HC n' ql Hn') as [?|[Hni Hl]]; [by left|].
  apply lookup_insert_Some in Hl as [[<- <-]|[Hne Hl]].
  - left. split; [set_solver|done].
  - right. split; [|done]. simpl. rewrite not_elem_of_cons. by split.
Qed.

Lemma Manager_Clone_safe m h :
  mgr_known m h → safely (go_Manager_Clone m) (λ c X' h', X' = ∅ ∧ mgr_known c h') ∅ h.
Proof.
  intros Hm. unfold go_Manager_Clone. eapply safely_bind.
  { apply (safe_critical_read req _ _ (mgr_known m) (λ C h, ∀ n l, C !! n = Some l → queue_named l n h)); [auto with golib| |done|].
    { intros C h1 h2 Hg HC n l Hl. by eapply queue_named_stable, HC. }
    intros h1 [Hwf _] [M HM]. apply wp_bind, (wp_load_mgr _ M); [done|]. apply wp_ret. split; [done|].
    intros n l Hl. destruct (wf_mgr_queue h1 Hwf _ _ _ _ HM Hl) as (qu & ? & ?). by exists qu. }
  intros C X' h1 _ _ [-> HC]. eapply safely_bind.
  { apply clone_queues_safe. intros n l Hin%elem_of_map_to_list. by apply HC. }
  intros C' X' h2 _ _ [_ HC']. set (K := λ h, ∀ n ql, C' !! n = Some ql → cloned_queue X' n ql h).
  apply (safe_act req _ _ K (λ c X2 h3, X2 = ∅ ∧ mgr_known c h3)).
  - intros h3 h4 Hg Hk n ql Hn. destruct (Hk n ql Hn). split; [done|]. by eapply queue_named_stable.
  - intros b X2. auto with golib.
  - intros n ql Hn. destruct (HC' n ql Hn) as [?|[Hni Hl]]; [done|]. destruct Hni.
    apply list_elem_of_fmap. exists (n, ql). split; [done|]. by apply elem_of_map_to_list.
  - intros h3 Hi3 Ho3 Hk. unfold alloc_mgr, store_mgr. wp_simpl.
    pose proof (fresh_lookup (h_mgr h3)) as Hf. generalize dependent (fresh (dom (h_mgr h3))). intros c Hf.
    destruct (write_mgr req X' ∅ h3 c C' []) as [Hk3 Hg3]; [done|done|by right| |set_solver|set_solver|].
    + intros n ql Hn. destruct (Hk n ql Hn) as [? ?]. split; [done|by left].
    + split; [done|]. exists ∅. split; [done|]. split; [done|]. unfold mgr_known. simpl. by rewrite lookup_insert_eq.
Qed.

(** A map of resources that the goroutine makes, to be used as a maximum. *)
Lemma alloc_res_safe r h :
  safely (atomic [] (alloc_res r)) (λ b X' h', X' = ∅ ∧ ∃ r, max_ref h' b r) ∅ h.
Proof.
  apply (safe_act req _ _ (λ _, True) (λ b X' h', X' = ∅ ∧ ∃ r, max_ref h' b r)); [done| |done|].
  { intros b X'. apply stable_and; [apply stable_pure|]. intros h1 h2 Hg [r' Hr]. exists r'. by apply (g_ref _ _ Hg). }
  intros h1 Hi Ho _. unfold alloc_res. destruct r as [m|]; wp_simpl.
  - destruct (make_res req ∅ h1 (fresh (dom (h_res h1))) m Hi Ho (fresh_lookup _)) as (Hk & Hg & Hmx).
    split; [apply Hk|]. exists ∅. split; [done|]. split; [done|by eexists].
  - split; [apply keeps_refl|]. exists ∅. split; [by apply guar_refl|]. split; [done|]. exists None. apply max_ref_nil.
Qed.

Lemma NewManager_safe h : safely (atomic [] NewManager) (λ c X' h', X' = ∅ ∧ mgr_known c h') ∅ h.
Proof.
  apply (safe_act req _ _ (λ _, True) (λ c X2 h3, X2 = ∅ ∧ mgr_known c h3)); [done|auto with golib|done|].
  intros h1 Hi Ho _. unfold NewManager, alloc_mgr, store_mgr. wp_simpl.
  pose proof (fresh_lookup (h_mgr h1)) as Hf. generalize dependent (fresh (dom (h_mgr h1))). intros c Hf.
  destruct (write_mgr req ∅ ∅ h1 c ∅ []) as [Hk Hg]; [done|done|by right| |done|set_solver|].
  - intros n ql Hn. by rewrite lookup_empty in Hn.
  - split; [done|]. exists ∅. split; [done|]. split; [done|]. unfold mgr_known. simpl. by rewrite lookup_insert_eq.
Qed.

(** ** All operations *)

(** What a caller must know of the arguments, and then knows of the result. *)
Definition call_pre {B} (c : qcall B) h : Prop :=
  match c with
  | QNewManager | QMakeResources _ => True
  | QPut m _ opts | QUpdate m _ opts => mgr_known m h ∧ opts_known opts h
  | QDelete m _ | QGetByName m _ | QGet m _ | QClone m => mgr_known m h
  | QAddPod m pod | QDeletePod m pod => mgr_known m h ∧ pod_fits req pod
  | QApplyOpts q opts => queue_known q h ∧ opts_known opts h
  | QName q | QQuota q | QPreemptionConfig q | QCanPodBePreempted q _ | QLabels q => queue_known q h
  | QQuotaAdd q pods | QQuotaDelete q pods => quota_known q h ∧ ∀ pod, pod ∈ pods → pod_fits req pod
  | @QQuotaDeleteFunc _ im q _ => quota_known q h ∧ @ImmutMapLaws im
  | QMax q | QUsed q | QWouldPutOverMax q _ => quota_known q h
  | QSetMax q max => quota_known q h ∧ opt_known (OptQuotaMax max) h
  | QContainsPod q pod => quota_known q h ∧ is_Some pod
  | QRange m => mgr_known m h
  | QUsedMap q | QMaxMap q | QString q => quota_known q h
  | QNil _ => False
  end.

Definition call_post {B} (c : qcall B) : B → heap → Prop :=
  match c with
  | QNewManager => mgr_known
  | QMakeResources _ => λ b, opt_known (OptQuotaMax b)
  | QGetByName _ _ | QGet _ _ => queue_known
  | QClone _ => mgr_known
  | QQuota _ => quota_known
  | QMax _ => λ b, opt_known (OptQuotaMax b)
  | QRange _ => λ b h, ∀ q, q ∈ b → queue_known (Some q) h
  | _ => λ _ _, True
  end.

Lemma opt_known_stable o : stable (opt_known o).
Proof.
  intros h h' Hg Ho. apply (opts_known_stable [o] h h' Hg); [|by left].
  by intros ? ->%list_elem_of_singleton.
Qed.

Lemma quota_max_known h tl qo : wf h → h_quota h !! tl = Some qo → opt_known (OptQuotaMax (quota_max qo)) h.
Proof.
  intros Hwf Hq. exists (res_val h (quota_max qo)). split; [done|]. intros l Hl. split.
  - by eapply (wf_quota_max h).
  - intros tl' qo' Hq' Hu. exact (wf_used_max h Hwf tl' qo' tl qo l Hq' Hq Hu Hl).
Qed.

Lemma DeletePodsFunc_safe {I : ImmutMap} {IL : ImmutMapLaws} X q pr h :
  quota_known q h → safely (go_Quota_DeletePodsFunc q pr) (λ _ X' _, X' = X) X h.
Proof.
  intros Hq. unfold go_Quota_DeletePodsFunc. destruct q as [tl|]; [|by apply safe_ret].
  destruct pr as [pr|]; [|by apply safe_ret]. eapply safely_bind.
  - apply (safely_stable req (quota_known (Some tl))); [auto with golib|exact Hq|].
    apply (safe_critical_read req _ _ (quota_known (Some tl)) (λ pods _, ∀ u p, pods !! u = Some p → pod_fits req (Some p)));
      [auto with golib|intros; apply stable_pure|done|].
    intros h1 [Hwf Hacc] Hk. destruct (Hk tl eq_refl) as [qo Hqo].
    apply wp_bind, (wp_load_quota _ qo); [done|]. apply wp_ret. split; [done|].
    intros u p Hp. exact (good_recorded req (view_quota h1 qo) u p (Hacc tl qo Hqo) Hp).
  - intros pods X' h1 _ _ [[-> Hpods] Hk]. apply Quota_DeletePodIfPresent_safe; [done|].
    intros pod (p & -> & Hin)%list_elem_of_fmap. apply list_elem_of_filter in Hin as [_ Hin].
    rewrite immut_values_perm in Hin. apply list_elem_of_fmap in Hin as ([u p'] & -> & Hin%elem_of_map_to_list).
    by eapply Hpods.
Qed.

(** *** Reads without the lock *)
Lemma range_safe X m h :
  mgr_known m h → safely (go_Manager_range m) (λ b X' h', X' = X ∧ ∀ q, q ∈ b → queue_known (Some q) h') X h.
Proof.
  intros Hm. apply (safe_read req _ _ (mgr_known m) (λ b h', ∀ q, q ∈ b → queue_known (Some q) h')); [auto with golib| |done|].
  { intros b h1 h2 Hg Hb q Hq. by eapply queue_known_stable, Hb. }
  intros h1 [Hwf _] [M HM]. apply wp_bind, (wp_load_mgr _ M); [done|]. apply wp_ret. split; [done|].
  intros q ([n q'] & -> & Hin%elem_of_map_to_list)%list_elem_of_fmap q0 [= <-].
  destruct (wf_mgr_queue h1 Hwf _ _ _ _ HM Hin) as (qu & ? & _). by exists qu.
Qed.

(** A map of the quota, read after the quota's lock was released. *)
Lemma map_read_safe X q fp (field : option loc → st heap (option loc)) h :
  quota_known q h →
  (∀ tl qo h, h_quota h !! tl = Some qo → wp (field (Some tl)) (λ _ h2, h2 = h) h) →
  safely (r ← match q with None => mret None | Some tl => critical Rd (LQuota tl) (field (Some tl)) end; atomic fp (load_res r))
    (λ _ X' _, X' = X ∧ True) X h.
Proof.
  intros Hq Hf. eapply safely_bind.
  - apply (quota_read_safe _ _ None (λ tl, field (Some tl)) (λ _ _, True)); [done|auto with golib|done|].
    intros tl qo h1 _ Hqo. eapply wp_mono; [by eapply Hf|done].
  - intros r X' h1 _ _ [-> _]. apply (safe_read req _ _ (λ _, True) (λ _ _, True)); [auto with golib..|done|].
    intros h2 _ _. unfold load_res. by wp_simpl.
Qed.

Lemma own_mono X Y h : Y ⊆ X → own X h → own Y h.
Proof. intros HY [O1 O2]. split; intros l Hl; [apply O1|apply O2]; set_solver. Qed.

Lemma string_safe {I : ImmutMap} {SS : SliceSort} X q h :
  quota_known q h → safely (go_Quota_String q) (λ _ X' _, X' = X ∧ True) X h.
Proof.
  intros Hq. unfold go_Quota_String. destruct q as [tl|].
  2:{ intros h1 Hr. unfold Quota_stringNoLock. apply wp_ret. split; [apply keeps_refl|]. exists X.
      split; [apply guar_refl; apply Hr|]. by intros ? ?. }
  eapply safely_bind; [by apply Quota_Clone_safe|]. intros r X' h1 Hi Ho (tl' & -> & Htl & ->).
  assert (quota_known (Some tl') h1) as Hk.
  { intros ? [= <-]. by apply (proj2 Ho tl'), elem_of_union_r, elem_of_singleton. }
  apply (safe_act req _ _ (quota_known (Some tl'))); [auto with golib|by intros ? ? ? ? ?|done|].
  intros h2 Hi2 Ho2 Hk2. destruct (Hk2 tl' eq_refl) as [qo Hqo]. unfold Quota_stringNoLock, load_res.
  apply wp_bind, (wp_load_quota _ qo); [done|]. wp_simpl. split; [apply keeps_refl|]. exists X.
  split; [|done]. split_and!; [done|done|by eapply own_mono, Ho2; set_solver|].
  intros Y HY HoY. split; [done|set_solver].
Qed.

(** Operations whose result tells the caller nothing. *)
Lemma safely_nothing {A} (p : proc heap lock A) X h :
  safely p (λ _ X' _, X' = X) X h → safely p (λ _ X' _, X' = X ∧ True) X h.
Proof. intros Hp. eapply safely_mono; [exact Hp|]. by intros a X' h' ->. Qed.

Lemma GetByName_known m n h :
  mgr_known m h → safely (go_Manager_GetByName m n) (λ q X' h', X' = ∅ ∧ queue_known q h') ∅ h.
Proof.
  intros Hm. eapply safely_mono; [by apply GetByName_safe|]. intros q X' h' [-> Hq]. split; [done|]. by eapply named_known.
Qed.

(** The reads of a queue's fields. *)
Lemma Queue_reads_safe q pod h : queue_known q h →
  safely (go_Queue_Name q) (λ _ X' _, X' = ∅ ∧ True) ∅ h
  ∧ safely (go_Queue_PreemptionConfig q) (λ _ X' _, X' = ∅ ∧ True) ∅ h
  ∧ safely (go_Queue_CanPodBePreemptedByOthers q pod) (λ _ X' _, X' = ∅ ∧ True) ∅ h
  ∧ safely (go_Queue_Labels q) (λ _ X' _, X' = ∅ ∧ True) ∅ h.
Proof.
  intros Hq. split_and!.
  - unfold go_Queue_Name. destruct q as [l|]; [|by apply safe_ret]. apply queue_read_safe; [done|auto with golib|].
    intros qu h1 _ Hqu. apply wp_bind, (wp_load_queue _ qu); [done|]. by apply wp_ret.
  - unfold go_Queue_PreemptionConfig. destruct q as [l|]; [|by apply safe_ret]. apply queue_read_safe; [done|auto with golib|].
    intros qu h1 _ Hqu. apply wp_bind, (wp_load_queue _ qu); [done|]. by apply wp_ret.
  - unfold go_Queue_CanPodBePreemptedByOthers. destruct q as [l|]; [|by apply safe_ret].
    destruct pod as [p|]; [|by apply safe_ret]. apply queue_read_safe; [done|auto with golib|].
    intros qu h1 _ Hqu. apply wp_bind, (wp_load_queue _ qu); [done|]. case_match; [by apply wp_ret|].
    unfold CanBePreempted, LabelMatcher_Matches. case_match eqn:Hcan; [by apply wp_ret|].
    destruct (ToPods _) as [sel|]; [|by rewrite andb_false_r in Hcan].
    apply wp_bind, wp_lift. eexists. split; [done|]. by case_match; apply wp_ret.
  - unfold go_Queue_Labels. destruct q as [l|]; [|by apply safe_ret]. apply queue_read_safe; [done|auto with golib|].
    intros qu h1 _ Hqu. apply wp_bind, (wp_load_queue _ qu); [done|]. by destruct (queue_labels qu); apply wp_ret.
Qed.

Lemma call_safe {B} (c : qcall B) h :
  call_pre c h → safely (go_call c) (λ b X' h', X' = ∅ ∧ call_post c b h') ∅ h.
Proof.
  destruct c; cbn [go_call call_pre call_post]; intros Hpre.
  - apply NewManager_safe.
  - apply alloc_res_safe.
  - apply safely_nothing. destruct Hpre. by apply safe_with_lock, new_and_insert_safe.
  - apply safely_nothing. destruct Hpre. by apply Update_safe.
  - by apply safely_nothing, Delete_safe.
  - by apply GetByName_known.
  - unfold go_Manager_Get. destruct pod as [p|]; [|apply safe_ret; split; [done|by intros ?]].
    destruct (gomap_lookup (pod_Labels p) LabelKeyQueue) as [n|]; [|apply safe_ret; split; [done|by intros ?]].
    by apply GetByName_known.
  - apply safely_nothing. destruct Hpre. by apply Manager_AddPod_safe.
  - apply safely_nothing. destruct Hpre. by apply Manager_DeletePod_safe.
  - by apply Manager_Clone_safe.
  - apply safely_nothing. destruct Hpre. by apply Queue_ApplyOpts_safe.
  - by apply (Queue_reads_safe q None).
  - by apply Queue_Quota_safe.
  - by apply (Queue_reads_safe q None).
  - by apply (Queue_reads_safe q pod).
  - by apply (Queue_reads_safe q None).
  - apply safely_nothing. destruct Hpre. by apply Quota_AddPodIfNotPresent_safe.
  - apply safely_nothing. destruct Hpre. by apply Quota_DeletePodIfPresent_safe.
  - apply safely_nothing. destruct Hpre. by apply DeletePodsFunc_safe.
  - apply (quota_read_safe _ _ None _ (λ b h, opt_known (OptQuotaMax b) h)); [done|intros; apply opt_known_stable| |].
    { intros. exists None. apply max_ref_nil. }
    intros tl qo h1 [Hwf _] Hqo. apply wp_bind, (wp_load_quota _ qo); [done|]. apply wp_ret.
    split; [done|]. by eapply quota_max_known.
  - apply safely_nothing. destruct Hpre. by apply Quota_SetMax_safe.
  - apply (quota_read_safe _ _ None _ (λ _ _, True)); [done|auto with golib|done|].
    intros tl qo h1 _ Hqo. apply wp_bind, (wp_load_quota _ qo); [done|]. by apply wp_ret.
  - destruct Hpre as [Hq [p ->]]. apply (quota_read_safe _ _ false _ (λ _ _, True)); [done|auto with golib|done|].
    intros tl qo h1 _ Hqo. apply wp_bind, (wp_load_quota _ qo); [done|]. apply wp_bind, wp_some. by exists p.
  - apply (quota_read_safe _ _ false _ (λ _ _, True)); [done|auto with golib|done|].
    intros tl qo h1 Hi Hqo. by eapply quota_over_read.
  - by apply range_safe.
  - apply (map_read_safe _ q _ Quota_Used); [done|]. intros tl qo h1 Hqo.
    apply wp_bind, (wp_load_quota _ qo); [done|]. by apply wp_ret.
  - apply (map_read_safe _ q _ Quota_Max); [done|]. intros tl qo h1 Hqo.
    apply wp_bind, (wp_load_quota _ qo); [done|]. by apply wp_ret.
  - by apply string_safe.
  - by destruct Hpre.
Qed.

(** A program that calls the package properly: it has its managers, queues,
    quotas and maxima from earlier calls, and its pods keep their requests. *)
Fixpoint client_ok {A} (p : client A) h : Prop :=
  match p with
  | CReturn _ => True
  | CCall c k => call_pre c h ∧
      ∀ b h', heap_inv req h' → grows h h' → call_post c b h' → client_ok (k b) h'
  end.

Lemma goroutine_safe {A} (p : client A) h : client_ok p h → safely (goroutine p) (λ _ X' _, X' = ∅) ∅ h.
Proof.
  induction p as [a|B c k IH] in h |- *; cbn [client_ok goroutine]; [by intros _ h' _|].
  intros [Hpre Hk]. eapply safely_bind.
  - apply (safely_stable req (grows h)); [|done|by apply call_safe]. intros h1 h2 Hg Hh. by etrans.
  - intros b X' h1 Hi _ [[-> Hpost] Hg]. apply IH. by apply Hk.
Qed.

(** The program is in order now and in every later heap. *)
Definition ok_from {A} (p : client A) h : Prop := ∀ h', grows h h' → client_ok p h'.

Lemma ok_from_later {A} (p : client A) h h' : grows h h' → ok_from p h → ok_from p h'.
Proof. intros Hg Hp h2 Hg2. apply Hp. by etrans. Qed.

Lemma ok_call {A B} (c : qcall B) (k : B → client A) h :
  (∀ h', grows h h' → call_pre c h') →
  (∀ b h', heap_inv req h' → grows h h' → call_post c b h' → ok_from (k b) h') → ok_from (CCall c k) h.
Proof.
  intros Hc Hk h' Hg. split; [by apply Hc|]. intros b h2 Hi Hg2 Hpost. apply (Hk b h2); [done|by etrans|done|done].
Qed.

Lemma mgr_later m h h' : grows h h' → mgr_known m h → mgr_known m h'.
Proof. apply mgr_known_stable. Qed.
Lemma queue_later q h h' : grows h h' → queue_known q h → queue_known q h'.
Proof. apply queue_known_stable. Qed.
Lemma quota_later q h h' : grows h h' → quota_known q h → quota_known q h'.
Proof. apply quota_known_stable. Qed.
End methods.

(** What was known, or in order, in an earlier heap. *)
Ltac later :=
  intros; cbn [call_pre call_post] in *;
  eauto 6 using mgr_later, queue_later, quota_later, ok_from_later.

