(* ===== verification/ConcurrencyProps.v ===== *)
(** * ConcurrencyProps: goroutines that share the queue package

    Any number of goroutines call the package, on shared managers, in any
    interleaving of their steps: they neither crash, deadlock, race nor run for
    ever, the heap is well-formed at every moment, and pod
    calls take effect one after the other in some order.  A clone, though, is
    not a snapshot of one moment. *)

From stdpp Require Import base tactics option list gmap strings sorting relations.
From Stdlib Require Import ZArith Lia.
From S2P Require Import Prelude.
From S2P Require Import External.
From S2P Require Import Concrete.
From S2P Require Import Resources.
From S2P Require Import Api.
From S2P Require Import Match.
From S2P Require Import Store.
From S2P Require Import StoreFacts.
From S2P Require Import Quota.
From S2P Require Import Queue.
From S2P Require Import Manager.
From S2P Require Import QueueFacts.
From S2P Require Import ManagerFacts.
From S2P Require Import ManagerProps.
From S2P Require Import Threads.
From S2P Require Import ThreadFacts.
From S2P Require Import Locking.
From S2P Require Import LockingFacts.
From S2P Require Import LockSafety.
From S2P Require Import LockMethods.

Section any_schedule.
Context {T : ApiTypes} {Q : QuantityOps} {P : PodOps} {L : SelectorOps} {QL : QuantityLaws}.

(** The programs [ps], each in a goroutine of its own. *)
Definition start {A} (h : heap) (ps : list (client A)) : config heap lock A :=
  (h, spawn <$> (goroutine <$> ps)).

(** The program run alone, with the sequential operations. *)
Fixpoint run_client {A} (p : client A) : st heap A :=
  match p with
  | CReturn a => mret a
  | CCall c k => b ← seq_call c; run_client (k b)
  end.

Lemma run_call {A B} (c : qcall B) (k : B → client A) h : run_client (CCall c k) h = (b ← seq_call c; run_client (k b)) h.
Proof. done. Qed.

Lemma run_call_bind {A B C} (c : qcall B) (k : B → client A) (g : A → st heap C) h :
  (x ← run_client (CCall c k); g x) h = (b ← seq_call c; x ← run_client (k b); g x) h.
Proof. symmetry. apply st_assoc. Qed.

Lemma goroutine_alone {A} (p : client A) h : unlocked (goroutine p) h = run_client p h.
Proof.
  induction p as [a|B c k IH] in h |- *; cbn [goroutine run_client]; [done|].
  rewrite unlocked_bind. apply st_bind_ext; [apply alone_call|done].
Qed.

(** A step of a goroutine that runs alone. *)
Lemma alone_step_same {A} (t : thread heap lock A) ts h h' ts' :
  ts = [t] → cstep (h, ts) (h', ts') → ∃ t', ts' = [t'] ∧ unlocked (code t) h = unlocked (code t') h'.
Proof.
  intros Hts Hs. inversion Hs as [s ts0 i t0 t' s' Ht Hstep]; subst.
  destruct i as [|i]; simpl in *; [|done]. injection Ht as ->. exists t'. split; [done|].
  unfold thread_step in Hstep. destruct (code t0) as [a|B fp act k|md l k|md l k] eqn:Hc.
  - done.
  - destruct (act h) as [[b h1]|] eqn:Ha; [|done]. injection Hstep as <- <-.
    simpl. unfold mbind, st_bind. by rewrite Ha.
  - destruct md; [|destruct (pending t0)]; case_bool_decide; try discriminate Hstep;
      injection Hstep as <- <-; done.
  - destruct (unhold (l, md) (held t0)); [|done]. by injection Hstep as <- <-.
Qed.

Lemma alone_steps_same {A} c c' (t : thread heap lock A) h h' ts' :
  rtc cstep c c' → c = (h, [t]) → c' = (h', ts') →
  ∃ t', ts' = [t'] ∧ unlocked (code t) h = unlocked (code t') h'.
Proof.
  intros Hr. revert t h. induction Hr as [c|c [h1 ts1] c' Hs _ IH]; intros t h -> Hc'.
  - injection Hc' as <- <-. by exists t.
  - destruct (alone_step_same t [t] h h1 ts1 eq_refl Hs) as (t1 & -> & He).
    destruct (IH t1 h1 eq_refl Hc') as (t' & -> & He'). exists t'. split; [done|congruence].
Qed.

(** The two models of the methods agree: a goroutine that nobody disturbs
    computes what the sequential definitions compute. *)
Lemma single_goroutine_sequential {A} (p : client A) h h' ts' :
  rtc cstep (start h [p]) (h', ts') → finished (h', ts') →
  ∃ t a, ts' = [t] ∧ code t = Done a ∧ run_client p h = Ret (a, h').
Proof.
  intros Hr Hf. destruct (alone_steps_same _ _ (spawn (goroutine p)) h h' ts' Hr eq_refl eq_refl) as (t & -> & He).
  destruct (proj1 (Forall_singleton _ _) Hf) as [a Ha]. exists t, a. split_and!; [done..|].
  rewrite <- goroutine_alone. simpl in He. rewrite He, Ha. done.
Qed.

Variable req : requests.

(** ** Every interleaving *)
Lemma start_ok {A} raw h (ps : list (client A)) :
  (∀ p, p ∈ ps → reads_ok raw p) → config_ok lock_rank raw (start h ps).
Proof.
  intros Hps. apply spawn_ok. intros p (q & -> & Hq)%list_elem_of_fmap. by apply goroutine_disc, Hps.
Qed.

Lemma own_empty h : own ∅ h.
Proof. split; set_solver. Qed.

Abbreviation all_safe := (safe_config (heap_inv req) grows own keeps (λ _ _ X _, X = ∅)).

Lemma start_safe {A} h (ps : list (client A)) :
  heap_inv req h → (∀ p, p ∈ ps → client_ok req p h) → all_safe (start h ps).
Proof.
  intros Hi Hps.
  refine (spawn_safe (heap_inv req) grows own keeps _ h (goroutine <$> ps) Hi (own_empty h) _).
  intros i p (q & -> & Hq)%list_lookup_fmap_Some. apply goroutine_safe, Hps. by eapply list_elem_of_lookup_2.
Qed.

Lemma reached {A} h (ps : list (client A)) c :
  heap_inv req h → (∀ p, p ∈ ps → client_ok req p h) → rtc cstep (start h ps) c →
  all_safe c ∧ config_ok lock_rank True c.
Proof.
  intros Hi Hps Hr. split.
  - exact (steps_safe (heap_inv req) grows own keeps _ _ c (start_safe h ps Hi Hps) Hr).
  - eapply steps_ok; [|exact Hr]. apply start_ok. intros p _. apply reads_any.
Qed.

(** A heap of the interleaved program gives every manager an accounted value. *)
Lemma heap_inv_ok h m V : heap_inv req h → view_mgr h m = Some V → accounts req V.
Proof.
  intros [Hwf Hacc] HV. unfold accounts. unfold quotas_accounted, good in Hacc. destruct req as [f|]; [|done]. intros n v Hv.
  apply view_mgr_Some in HV as (M & HM & ->). rewrite lookup_omap in Hv.
  destruct (queueByName M !! n) as [ql|] eqn:Hql; simpl in Hv; [|done].
  destruct (wf_mgr_queue h Hwf _ _ _ _ HM Hql) as (qu & Hqu & <-).
  apply view_queue_Some in Hv as (qu' & tl & qo & Hqu' & _ & Hqo & ->). simplify_eq.
  split; [done|]. exact (proj1 (Hacc tl qo Hqo)).
Qed.

Lemma reached_no_crash {A} h (ps : list (client A)) h' ts' t :
  heap_inv req h → (∀ p, p ∈ ps → client_ok req p h) → rtc cstep (start h ps) (h', ts') →
  t ∈ ts' → ¬ crashes h' t.
Proof.
  intros Hi Hps Hr. destruct (reached h ps _ Hi Hps Hr) as [Hs Hok].
  exact (safe_no_panic (heap_inv req) grows own keeps _ lock_rank True h' ts' t Hs (proj1 Hok)).
Qed.

Lemma reached_inv {A} h (ps : list (client A)) h' ts' :
  heap_inv req h → (∀ p, p ∈ ps → client_ok req p h) → rtc cstep (start h ps) (h', ts') → heap_inv req h'.
Proof. intros Hi Hps Hr. by destruct (reached h ps _ Hi Hps Hr) as [[Hi' _] _]. Qed.

Lemma reached_progress {A} h (ps : list (client A)) c :
  heap_inv req h → (∀ p, p ∈ ps → client_ok req p h) → rtc cstep (start h ps) c →
  (finished c ∨ ∃ c', cstep c c') ∧ ∃ c', rtc cstep c c' ∧ finished c'.
Proof.
  intros Hi Hps Hr.
  assert (∀ c : config heap lock A, all_safe c ∧ config_ok lock_rank True c → finished c ∨ ∃ c', cstep c c') as Hprog.
  { intros c1 [Hs Hok]. exact (safe_progress (heap_inv req) grows own keeps _ lock_rank True c1 Hs Hok). }
  pose proof (reached h ps c Hi Hps Hr) as Hc. split; [by apply Hprog|].
  apply (schedules_finish (λ c, all_safe c ∧ config_ok lock_rank True c)); [|done|done].
  intros c1 c2 [Hs Hok] Hstep. split; [exact (cstep_safe (heap_inv req) grows own keeps _ c1 c2 Hs Hstep)|by eapply cstep_ok].
Qed.

(** C11: whatever the interleaving of goroutines that call the package properly
    ([client_ok]: on objects that exist, with maps made for quotas' maxima), no
    goroutine crashes (no nil dereference, no write to a nil map, no release of
    a lock that is not held), and at every moment, in the middle of other
    goroutines' operations included, the heap is well-formed and, if the calls
    pass each UID with fixed requests, each manager's used amounts are the sums
    of its recorded pods' requests. *)
Theorem goroutines_type_safe {A} h (ps : list (client A)) h' ts' :
  heap_inv req h → (∀ p, p ∈ ps → client_ok req p h) →
  rtc cstep (start h ps) (h', ts') →
  (∀ t, t ∈ ts' → ¬ crashes h' t) ∧ wf h' ∧ ∀ m V, view_mgr h' m = Some V → accounts req V.
Proof.
  intros Hi Hps Hr. split; [intros t; by apply (reached_no_crash h ps)|].
  pose proof (reached_inv h ps h' ts' Hi Hps Hr) as Hi'. split; [apply Hi'|]. intros m V. by apply heap_inv_ok.
Qed.

(** C12: goroutines that call the package neither deadlock nor run for ever:
    there is no infinite schedule, a schedule that cannot go on has
    brought every goroutine to its end, and from every moment on all of them can
    be brought to their ends. *)
Theorem goroutines_terminate {A} h (ps : list (client A)) c :
  heap_inv req h → (∀ p, p ∈ ps → client_ok req p h) →
  rtc cstep (start h ps) c →
  Acc (flip cstep) c ∧ (finished c ∨ ∃ c', cstep c c') ∧ ∃ c', rtc cstep c c' ∧ finished c'.
Proof. intros Hi Hps Hr. split; [apply schedules_terminate|by apply (reached_progress h ps)]. Qed.

Lemma keeps_held fp hs h h' :
  (∀ x, x ∈ fp → covered True hs x) → keeps fp h h' → keeps hs h h'.
Proof.
  intros Hcov [A1 A2 A3 A4].
  assert (∀ l, (l, Wr) ∈ fp → (l, Wr) ∈ hs) as Hsub.
  { intros l Hl. by destruct (Hcov _ Hl) as [?|[[[=] _]|[[=] _]]]. }
  split; auto. intros l m Hl. apply A4. intros tl qo Hin. by apply Hl, Hsub.
Qed.

(** C13: goroutines that touch objects only under their locks do not race: no two
    of them are ever about to touch the same object with one of them writing it, and each step changes only objects (a
    manager's map, a queue's fields, a quota's fields and its map of used
    amounts) whose lock the goroutine that steps holds for writing, while nobody
    else holds that lock. *)
Theorem goroutines_do_not_race {A} h (ps : list (client A)) h1 ts1 :
  heap_inv req h → (∀ p, p ∈ ps → client_ok req p h) → (∀ p, p ∈ ps → locked_only p) →
  rtc cstep (start h ps) (h1, ts1) →
  ¬ races ts1 ∧
  ∀ h2 ts2, cstep (h1, ts1) (h2, ts2) →
    ∃ i t, ts1 !! i = Some t ∧ keeps (held t) h1 h2 ∧
      ∀ j tj l md, j ≠ i → ts1 !! j = Some tj → (l, Wr) ∈ held t → (l, md) ∉ held tj.
Proof.
  intros Hi Hps Hlock Hr. destruct (reached h ps _ Hi Hps Hr) as [Hs [Hok Hex]]. split.
  - apply (no_races lock_rank False h1 ts1 id). exact (steps_ok _ _ _ _ (start_ok False h ps Hlock) Hr).
  - intros h2 ts2 Hstep. destruct (cstep_frame (heap_inv req) grows own keeps _ h1 ts1 h2 ts2 keeps_refl Hs Hstep) as (i & t & Ht & Hk).
    exists i, t. split; [done|]. split.
    + eapply keeps_held; [|exact Hk]. pose proof (proj1 (Forall_lookup _ _) Hok i t Ht) as [Hd _].
      unfold touches. destruct (code t); try (by intros ? ?%elem_of_nil). apply Hd.
    + intros j tj l md Hne Hj. by apply (Hex i j t tj).
Qed.
End any_schedule.

(** ** The properties at a concrete heap *)
Section witnesses.
#[local] Existing Instances c_api c_quantity c_quantity_laws c_pods c_selector.

(** One goroutine adds a pod to queue "q"; another one makes a queue and takes a clone. *)
Definition cx_add : client unit := CCall (QAddPod 1 (Some ex_pod)) (λ _, CReturn tt).
Definition cx_clone : client unit := CCall (QPut 1 "s" []) (λ _, CCall (QClone 1) (λ _, CReturn tt)).
Definition cx_ps : list (client unit) := [cx_add; cx_clone].

Lemma ex_inv : heap_inv (Some ex_req) ex_heap.
Proof.
  split; [apply ex_wf|]. intros tl qo Hq.
  assert (∃ mx, view_quota ex_heap qo = mkQuotaV mx gomap_make ∅) as [mx ->]; [|apply good_empty].
  apply elem_of_map_to_list in Hq. vm_compute in Hq.
  repeat (apply elem_of_cons in Hq as [[= -> ->]|Hq]; [eexists; vm_compute; reflexivity|]).
  by apply elem_of_nil in Hq.
Qed.

Lemma ex_mgr : mgr_known 1 ex_heap.
Proof. vm_compute. by eexists. Qed.

Lemma cx_ok p : p ∈ cx_ps → client_ok (Some ex_req) p ex_heap.
Proof.
  intros [->|[->|[]%elem_of_nil]%elem_of_cons]%elem_of_cons.
  - split; [|done]. split; [apply ex_mgr|]. intros p' n [= <-].
    unfold ex_req. by rewrite bool_decide_true.
  - split; [split; [apply ex_mgr|by intros ? ?%elem_of_nil]|]. intros b h' _ Hg _. split; [|done].
    eapply mgr_known_stable; [exact Hg|apply ex_mgr].
Qed.

(** The heap in the middle of a schedule. *)
Definition cx_mid : config heap lock unit :=
  default (ex_heap, []) (run_schedule [0; 1; 0; 0; 1; 1; 1; 1; 0]%nat (start ex_heap cx_ps)).

Lemma cx_mid_steps : rtc cstep (start ex_heap cx_ps) (cx_mid.1, cx_mid.2).
Proof. apply run_schedule_reaches. vm_compute. exact I. Qed.

Lemma goroutines_type_safe_witness :
  (∀ t, t ∈ cx_mid.2 → ¬ crashes cx_mid.1 t) ∧ wf cx_mid.1
  ∧ ∀ m V, view_mgr cx_mid.1 m = Some V → accountedV ex_req V.
Proof. exact (goroutines_type_safe (Some ex_req) ex_heap cx_ps cx_mid.1 cx_mid.2 ex_inv cx_ok cx_mid_steps). Defined.

Lemma goroutines_terminate_witness : ∃ c', rtc cstep (start ex_heap cx_ps) c' ∧ finished c'.
Proof.
  exact (proj2 (proj2 (goroutines_terminate (Some ex_req) ex_heap cx_ps _ ex_inv cx_ok (rtc_refl _ _)))).
Defined.

Lemma cx_locked p : p ∈ cx_ps → locked_only p.
Proof. intros [->|[->|[]%elem_of_nil]%elem_of_cons]%elem_of_cons; repeat split; by intros ?. Qed.

Lemma goroutines_do_not_race_witness : ¬ races cx_mid.2.
Proof. exact (proj1 (goroutines_do_not_race (Some ex_req) ex_heap cx_ps cx_mid.1 cx_mid.2 ex_inv cx_ok cx_locked cx_mid_steps)). Defined.
End witnesses.
