(* ===== verification/Serial.v ===== *)
(** * Serial: concurrent pod calls take effect one after the other

    Pods come and go in the informer's goroutines and in scheduling cycles,
    while the queues stay.  [does p cs Q]: the code [p] performs the pod calls [cs],
    each at one of its actions, whatever others do to the quotas in between.  The
    effects of all goroutines then form a sequence in which each goroutine's calls
    keep their order. *)

From stdpp Require Import base tactics option list gmap strings sorting relations.
From Stdlib Require Import ZArith Lia.
From S2P Require Import Prelude.
From S2P Require Import External.
From S2P Require Import Concrete.
From S2P Require Import Resources.
From S2P Require Import Api.
From S2P Require Import Match.
From S2P Require Import Store.
From S2P Require Import StoreFacts.
From S2P Require Import Quota.
From S2P Require Import Queue.
From S2P Require Import Manager.
From S2P Require Import QueueFacts.
From S2P Require Import ManagerFacts.
From S2P Require Import ManagerProps.
From S2P Require Import Threads.
From S2P Require Import ThreadFacts.
From S2P Require Import Locking.
From S2P Require Import LockingFacts.
From S2P Require Import ConcurrencyProps.

(** ** Interleavings of lists *)
Inductive interleaved {A} : list (list A) → list A → Prop :=
| int_done ls : Forall (λ l, l = []) ls → interleaved ls []
| int_take ls i x l r : ls !! i = Some (x :: l) → interleaved (<[i := l]> ls) r → interleaved ls (x :: r).

Lemma interleaved_prefix {A} (ls : list (list A)) i pre l r :
  ls !! i = Some (pre ++ l) → interleaved (<[i := l]> ls) r → interleaved ls (pre ++ r).
Proof.
  induction pre as [|x pre IH] in ls |- *; simpl; intros Hi Hr.
  - by rewrite list_insert_id in Hr.
  - pose proof (lookup_lt_Some _ _ _ Hi). apply (int_take _ i x (pre ++ l)); [done|]. apply IH.
    + by apply list_lookup_insert_eq.
    + by rewrite list_insert_insert_eq.
Qed.

(** Lists can be put one behind the other. *)
Lemma interleaved_exists {A} (ls : list (list A)) (R : A → Prop) :
  Forall (Forall R) ls → ∃ r, interleaved ls r ∧ Forall R r.
Proof.
  assert (∀ n (ls : list (list A)), length (mjoin ls) = n → Forall (Forall R) ls → ∃ r, interleaved ls r ∧ Forall R r) as Hn;
    [|by apply (Hn (length (mjoin ls)))].
  induction n as [n IH] using lt_wf_ind. intros ls' Hlen Hall.
  destruct (decide (Forall (λ l, l = []) ls')) as [He|He].
  - exists []. split; [by constructor|done].
  - apply not_Forall_Exists in He; [|apply _]. apply Exists_exists in He as (l & Hin & Hne).
    destruct l as [|x l]; [by destruct Hne|]. apply list_elem_of_lookup in Hin as [i Hi].
    pose proof (proj1 (Forall_lookup _ _) Hall i _ Hi) as Hxl. apply Forall_cons in Hxl as [Hx Hl].
    destruct (IH (length (mjoin (<[i := l]> ls')))) with (ls := <[i := l]> ls') as (r & Hr & HRr).
    + subst n. clear -Hi. revert i Hi. induction ls' as [|l0 ls IH]; intros [|i] Hi; simpl in *; try done.
      * injection Hi as ->. simpl. rewrite !length_app. simpl. lia.
      * rewrite !length_app. specialize (IH i Hi). lia.
    + done.
    + by apply Forall_insert.
    + exists (x :: r). split; [by eapply int_take|by constructor].
Qed.

Section serial.
Context {T : ApiTypes} {Q : QuantityOps} {P : PodOps} {L : SelectorOps} {QL : QuantityLaws}.

(** A pod call: an addition ([true]) or a deletion. *)
Definition pod_call : Type := bool * option Pod.

Definition pod_qcall (m : loc) (c : pod_call) : qcall (option go_error) :=
  if c.1 then QAddPod m c.2 else QDeletePod m c.2.

Definition pod_effect (c : pod_call) (V : ManagerV) : ManagerV :=
  if c.1 then mgrV_add c.2 V else mgrV_del c.2 V.

Definition pod_error (V : ManagerV) (c : pod_call) : option go_error :=
  mgrV_err (if c.1 then ErrAddPodToQuota else ErrRemovePodFromQuota) c.2 V.

(** The calls [cs] one after the other, and their results. *)
Fixpoint pod_program (m : loc) (results : list (option go_error)) (cs : list pod_call)
    : client (list (option go_error)) :=
  match cs with
  | [] => CReturn results
  | c :: cs => CCall (pod_qcall m c) (λ e, pod_program m (results ++ [e]) cs)
  end.

Section fixed.
(** The manager, with the queues that all managers have, as they stay. *)
Variables (m : loc) (mgrs : gmap loc Manager) (queues : gmap loc Queue) (M : Manager).
Hypothesis HM : mgrs !! m = Some M.

Definition same_queues (h : heap) : Prop := wf h ∧ h_mgr h = mgrs ∧ h_queue h = queues.

(** A call without effect: the pod names no queue. *)
Definition neutral (c : pod_call) : Prop := pod_queue c.2 = None.

Fixpoint does {A} (p : proc heap lock A) (cs : list pod_call) (R : A → Prop) : Prop :=
  match p with
  | Done a => Forall neutral cs ∧ R a
  | Act fp act k => ∀ h V, same_queues h → view_mgr h m = Some V →
      wp act (λ b h', same_queues h' ∧
        ((view_mgr h' m = Some V ∧ does (k b) cs R) ∨
         ∃ ns c cs', cs = ns ++ c :: cs' ∧ Forall neutral ns
           ∧ view_mgr h' m = Some (pod_effect c V) ∧ does (k b) cs' R)) h
  | Acquire _ _ k | Release _ _ k => does k cs R
  end.

Lemma neutral_effect c V : neutral c → pod_effect c V = V.
Proof. unfold neutral, pod_effect, mgrV_add, mgrV_del. intros ->. by destruct c.1. Qed.

Lemma neutral_effects ns V : Forall neutral ns → foldl (λ V c, pod_effect c V) V ns = V.
Proof. induction 1 as [|c ns Hc _ IH]; simpl; [done|]. by rewrite neutral_effect. Qed.

Lemma does_neutral {A} (p : proc heap lock A) ns cs R :
  Forall neutral ns → does p cs R → does p (ns ++ cs) R.
Proof.
  intros Hns. induction p as [a|B fp act k IH|md l k IH|md l k IH] in cs |- *; simpl; auto.
  - intros [Hcs HR]. split; [by apply Forall_app|done].
  - intros Hp h V Hh HV. eapply wp_mono; [by apply Hp|].
    intros b h' [Hh' [[HV' Hk]|(ns' & c & cs' & -> & Hns' & HV' & Hk)]]; (split; [done|]).
    + left. auto.
    + right. exists (ns ++ ns'), c, cs'. split_and!; [by rewrite <- app_assoc|by apply Forall_app|done..].
Qed.

Lemma does_bind {A B} (p : proc heap lock A) (f : A → proc heap lock B) cs1 cs2 R1 R2 :
  does p cs1 R1 → (∀ a, R1 a → does (f a) cs2 R2) → does (p ≫= f) (cs1 ++ cs2) R2.
Proof.
  unfold mbind, proc_mbind. intros Hp Hf.
  induction p as [a|C fp act k IH|md l k IH|md l k IH] in cs1, Hp |- *; simpl in *; auto.
  - destruct Hp. apply does_neutral; auto.
  - intros h V Hh HV. eapply wp_mono; [by apply Hp|].
    intros b h' [Hh' [[HV' Hk]|(ns' & c & cs' & -> & Hns' & HV' & Hk)]]; (split; [done|]).
    + left. auto.
    + right. exists ns', c, (cs' ++ cs2). split_and!; [by rewrite <- app_assoc|done|done|auto].
Qed.

Lemma does_mono {A} (p : proc heap lock A) cs (R1 R2 : A → Prop) :
  (∀ a, R1 a → R2 a) → does p cs R1 → does p cs R2.
Proof.
  intros HR. induction p as [a|B fp act k IH|md l k IH|md l k IH] in cs |- *; simpl; auto.
  - intros []. auto.
  - intros Hp h V Hh HV. eapply wp_mono; [by apply Hp|].
    intros b h' [Hh' [[HV' Hk]|(ns & c & cs' & -> & Hns & HV' & Hk)]]; (split; [done|]); [by auto|].
    right. exists ns, c, cs'. auto.
Qed.

Lemma does_with_lock {A} md l (p : proc heap lock A) cs R : does p cs R → does (with_lock md l p) cs R.
Proof.
  intros Hp. unfold with_lock. simpl.
  pose proof (does_bind p (λ a, Release md l (Done a)) cs [] R R Hp) as H. rewrite app_nil_r in H.
  apply H. intros a Ha. by split.
Qed.

(** An action that reads, or that reads and is a call without effect. *)
Lemma does_read {B} md l (act : st heap B) (R : B → Prop) :
  (∀ h, same_queues h → wp act (λ b h', h' = h ∧ R b) h) → does (critical md l act) [] R.
Proof.
  intros Hact. apply does_with_lock. intros h V Hh HV. eapply wp_mono; [by apply Hact|].
  intros b h' [-> Hb]. split; [done|]. left. split; [done|]. by split.
Qed.

Lemma GetByName_read n h :
  same_queues h → wp (Manager_GetByName m n) (λ q h', h' = h ∧ q = queueByName M !! n) h.
Proof.
  intros (_ & Hm & _). apply wp_bind, (wp_load_mgr _ M); [by rewrite Hm|]. by apply wp_ret.
Qed.

(** The error of a call, which depends on the names of the manager's queues only. *)
Definition call_error (c : pod_call) : option go_error :=
  n ← pod_queue c.2;
  match queueByName M !! n with
  | Some _ => None
  | None => Some (queue_does_not_exist (if c.1 then ErrAddPodToQuota else ErrRemovePodFromQuota) n)
  end.

Lemma call_error_view c h V : same_queues h → view_mgr h m = Some V → call_error c = pod_error V c.
Proof.
  intros (Hwf & Hm & _) HV. unfold call_error, pod_error, mgrV_err.
  destruct (pod_queue c.2) as [n|]; simpl; [|done].
  pose proof (view_mgr_lookup h m M V n Hwf ltac:(by rewrite Hm) HV) as Hn.
  destruct (queueByName M !! n) as [ql|]; [|by rewrite Hn]. by destruct Hn as (v & -> & _).
Qed.

(** A call on a queue that the manager does not have. *)
Lemma no_queue_effect (c : pod_call) n h V :
  same_queues h → view_mgr h m = Some V → pod_queue c.2 = Some n → queueByName M !! n = None →
  pod_effect c V = V.
Proof.
  intros (Hwf & Hm & _) HV Hn HMn.
  pose proof (view_mgr_lookup h m M V n Hwf ltac:(by rewrite Hm) HV) as Hl. rewrite HMn in Hl.
  unfold pod_effect, mgrV_add, mgrV_del. rewrite Hn. by destruct c.1; apply alter_absent.
Qed.

(** The quota's method: this is where the call takes effect. *)
Lemma does_quota (c : pod_call) n ql qu tl (method : st heap unit) (f : QuotaV → QuotaV) :
  pod_queue c.2 = Some n → queueByName M !! n = Some ql → queues !! ql = Some qu → queue_quota qu = Some tl →
  (∀ V, pod_effect c V = alter (on_quota f) n V) →
  (∀ h v, wf h → h_queue h !! ql = Some qu → view_queue h ql = Some v →
     wp method (λ _, queue_post h ql (on_quota f v)) h) →
  does (critical Wr (LQuota tl) method) [c] (λ _, True).
Proof.
  intros Hn HMn Hqu Ht Heff Hmethod. apply does_with_lock. intros h V (Hwf & Hm & Hq) HV.
  pose proof (view_mgr_lookup h m M V n Hwf ltac:(by rewrite Hm) HV) as Hl. rewrite HMn in Hl.
  destruct Hl as (v & HVn & Hv & _).
  eapply wp_mono; [apply (Hmethod h v Hwf); [by rewrite Hq|done]|].
  intros [] h' (Hwf' & Hext & Hv' & Hqs). split.
  - split_and!; [done| |by rewrite Hqs]. destruct Hext as [-> _]. done.
  - right. exists [], c, []. split_and!; [done|done| |by split].
    rewrite Heff, (alter_present _ _ _ v HVn).
    by apply (ext_view_mgr_queue h h' m M V n ql (on_quota f v) Hwf ltac:(by rewrite Hm) HV HMn Hext Hv').
Qed.

(** Both pod methods. *)
Lemma does_route (c : pod_call) n err (method : option loc → proc heap lock unit) :
  pod_queue c.2 = Some n → err = (if c.1 then ErrAddPodToQuota else ErrRemovePodFromQuota) →
  (∀ ql qu tl, queueByName M !! n = Some ql → queues !! ql = Some qu → queue_quota qu = Some tl →
     does (method (Some tl)) [c] (λ _, True)) →
  does (q ← go_Manager_GetByName m n;
      match q with
      | None => mret (Some (queue_does_not_exist err n))
      | Some _ => quota ← go_Queue_Quota q; method quota ;; mret None
      end) [c] (λ e, e = call_error c).
Proof.
  intros Hn -> Hmethod.
  assert (call_error c = match queueByName M !! n with Some _ => None
    | None => Some (queue_does_not_exist (if c.1 then ErrAddPodToQuota else ErrRemovePodFromQuota) n) end) as ->
    by (unfold call_error; by rewrite Hn).
  destruct (queueByName M !! n) as [ql|] eqn:HMn.
  - apply (does_bind _ _ [] [c] (λ q, q = Some ql ∧ ∃ qu tl, queues !! ql = Some qu ∧ queue_quota qu = Some tl)).
    { apply does_read. intros h Hh. eapply wp_mono; [by apply GetByName_read|]. intros q h' [-> ->].
      split; [done|]. split; [by rewrite HMn|]. destruct Hh as (Hwf & Hm & <-).
      destruct (wf_mgr_queue h Hwf m M n ql ltac:(by rewrite Hm) HMn) as (qu & Hqu & _).
      destruct (wf_queue_quota h Hwf _ _ Hqu) as (tl & _ & Ht & _). by exists qu, tl. }
    intros q [-> (qu & tl & Hqu & Ht)].
    apply (does_bind _ _ [] [c] (λ quota, quota = Some tl)).
    { apply does_read. intros h (_ & _ & Hq). unfold Queue_Quota.
      apply wp_bind, (wp_load_queue _ qu); [by rewrite Hq|]. by apply wp_ret. }
    intros quota ->. change [c] with ([c] ++ []). apply (does_bind _ _ _ _ (λ _, True)); [by eapply Hmethod|].
    intros []. by split.
  - change [c] with ([c] ++ []). apply (does_bind _ _ _ _ (λ q, q = None)).
    + apply does_with_lock. intros h V Hh HV. eapply wp_mono; [by apply GetByName_read|].
      intros q h' [-> ->]. split; [done|]. right. exists [], c, []. split_and!; [done|done| |by split].
      by rewrite (no_queue_effect c n h V).
    + intros q ->. by split.
Qed.

Lemma does_call c : does (go_call (pod_qcall m c)) [c] (λ e, e = call_error c).
Proof.
  destruct c as [b pod]. unfold pod_qcall; simpl.
  destruct (pod_queue pod) as [n|] eqn:Hn.
  2:{ assert (does (mret None : proc heap lock _) [(b, pod)] (λ e, e = call_error (b, pod))) as Hnone.
      { split; [by repeat constructor|]. unfold call_error; simpl. by rewrite Hn. }
      unfold pod_queue in Hn. destruct b, pod as [p|]; simpl in *; try done;
        unfold go_Manager_AddPodIfNotPresent, go_Manager_DeletePodIfPresent; by rewrite Hn. }
  destruct pod as [p|]; [|done]. pose proof Hn as Hl. unfold pod_queue in Hl. simpl in Hl.
  destruct b; cbn [go_call].
  - unfold go_Manager_AddPodIfNotPresent. rewrite Hl.
    apply (does_route (true, Some p) n _ (λ quota, go_Quota_AddPodIfNotPresent quota [Some p])); [done|done|].
    intros ql qu tl HMn Hqu Ht.
    apply (does_quota (true, Some p) n ql qu tl _ (quotaV_add (Some p))); [done..|by intros V; unfold pod_effect, mgrV_add; cbn [fst snd]; rewrite Hn|].
    intros h v Hwf Hq Hv. by eapply (Quota_AddPodIfNotPresent_spec h ql qu tl v [Some p]).
  - unfold go_Manager_DeletePodIfPresent. rewrite Hl.
    apply (does_route (false, Some p) n _ (λ quota, go_Quota_DeletePodIfPresent quota [Some p])); [done|done|].
    intros ql qu tl HMn Hqu Ht.
    apply (does_quota (false, Some p) n ql qu tl _ (quotaV_del (Some p))); [done..|by intros V; unfold pod_effect, mgrV_del; cbn [fst snd]; rewrite Hn|].
    intros h v Hwf Hq Hv. by eapply (Quota_DeletePodIfPresent_spec h ql qu tl v [Some p]).
Qed.

Lemma does_program cs rs : does (goroutine (pod_program m rs cs)) cs (λ r, r = rs ++ (call_error <$> cs)).
Proof.
  induction cs as [|c cs IH] in rs |- *; cbn [pod_program goroutine].
  - split; [done|]. by rewrite app_nil_r.
  - change (c :: cs) with ([c] ++ cs) at 1. eapply does_bind; [apply does_call|]. intros e ->.
    pose proof (IH (rs ++ [call_error c])) as H. rewrite <- app_assoc in H. exact H.
Qed.

(** *** All goroutines *)
Variables (A : Type) (V0 : ManagerV) (R : nat → A → Prop).
Implicit Types (ts : list (thread heap lock A)).

(** The effects so far are those of the calls [log]; each goroutine [i] has the
    calls [rests !! i] still to do, and any interleaving of these completes
    [log] to an interleaving of all calls [css]. *)
Definition serial_so_far (css : list (list pod_call)) (c : config heap lock A) : Prop :=
  same_queues c.1 ∧ ∃ rests log,
    view_mgr c.1 m = Some (foldl (λ V c, pod_effect c V) V0 log)
    ∧ length rests = length c.2
    ∧ (∀ i t cs, c.2 !! i = Some t → rests !! i = Some cs → does (code t) cs (R i))
    ∧ (∀ r, interleaved rests r → interleaved css (log ++ r)).

(** A step performs nothing, or the goroutine's next call (after calls
    without effect). *)
Lemma thread_step_does ts t s t' s' cs r V :
  same_queues s → view_mgr s m = Some V → thread_step ts t s = Some (t', s') → does (code t) cs r →
  same_queues s' ∧ ∃ done rest, cs = done ++ rest
    ∧ view_mgr s' m = Some (foldl (λ V c, pod_effect c V) V done) ∧ does (code t') rest r.
Proof.
  intros Hs HV Hstep Hd. unfold thread_step in Hstep.
  destruct (code t) as [a|B fp act k|md l k|md l k] eqn:Hc; simpl in Hd.
  - done.
  - specialize (Hd s V Hs HV). unfold wp in Hd. destruct (act s) as [[b s1]|]; [|done].
    injection Hstep as <- <-. destruct Hd as [Hs1 [[HV' Hk]|(ns & c & cs' & -> & Hns & HV' & Hk)]]; (split; [done|]).
    + by exists [], cs.
    + exists (ns ++ [c]), cs'. rewrite <- app_assoc, foldl_app. simpl. by rewrite neutral_effects.
  - assert (s' = s ∧ does (code t') cs r) as [-> Hd'].
    { destruct md; [|destruct (pending t)]; case_bool_decide; try discriminate Hstep;
        injection Hstep as <- <-; by split. }
    split; [done|]. by exists [], cs.
  - destruct (unhold (l, md) (held t)); [|done]. injection Hstep as <- <-. split; [done|]. by exists [], cs.
Qed.

Lemma cstep_serial css c c' : serial_so_far css c → cstep c c' → serial_so_far css c'.
Proof.
  intros Hc Hstep. destruct Hstep as [s ts i t t' s' Ht Hs], Hc as (Hsq & rests & log & HV & Hlen & Hd & Hint); simpl in *.
  pose proof (lookup_lt_Some _ _ _ Ht) as Hlt.
  destruct (lookup_lt_is_Some_2 rests i) as [cs Hcs]; [lia|].
  destruct (thread_step_does ts t s t' s' cs (R i) _ Hsq HV Hs (Hd i t cs Ht Hcs)) as (Hsq' & dn & rest & -> & HV' & Hd').
  split; [done|]. exists (<[i := rest]> rests), (log ++ dn). split_and!.
  - by rewrite foldl_app.
  - simpl. by rewrite !length_insert.
  - simpl. intros j tj cs Hj Hcj. destruct (decide (i = j)) as [<-|Hne].
    + rewrite list_lookup_insert_eq in Hj by lia. rewrite list_lookup_insert_eq in Hcj by lia. by simplify_eq.
    + rewrite list_lookup_insert_ne in Hj by done. rewrite list_lookup_insert_ne in Hcj by done. by apply Hd.
  - intros r Hr. rewrite <- app_assoc. apply Hint. by eapply interleaved_prefix.
Qed.

Lemma finished_serial css s ts :
  serial_so_far css (s, ts) → finished (s, ts) →
  ∃ order, interleaved css order ∧ view_mgr s m = Some (foldl (λ V c, pod_effect c V) V0 order)
    ∧ ∀ i t a, ts !! i = Some t → code t = Done a → R i a.
Proof.
  intros (_ & rests & log & HV & Hlen & Hd & Hint) Hf; simpl in *.
  assert (∀ i t, ts !! i = Some t → ∃ cs a, rests !! i = Some cs ∧ code t = Done a ∧ Forall neutral cs ∧ R i a) as Hall.
  { intros i t Ht. pose proof (lookup_lt_Some _ _ _ Ht). destruct (lookup_lt_is_Some_2 rests i) as [cs Hcs]; [lia|].
    destruct (proj1 (Forall_lookup _ _) Hf i t Ht) as [a Ha]. specialize (Hd i t cs Ht Hcs). rewrite Ha in Hd.
    by exists cs, a. }
  destruct (interleaved_exists rests neutral) as (r & Hr & Hnr).
  { apply Forall_lookup. intros i cs Hcs. pose proof (lookup_lt_Some _ _ _ Hcs).
    destruct (lookup_lt_is_Some_2 ts i) as [t Ht]; [lia|]. destruct (Hall i t Ht) as (cs' & a & ? & _ & ? & _).
    by simplify_eq. }
  exists (log ++ r). split_and!; [by apply Hint| |].
  - by rewrite foldl_app, neutral_effects.
  - intros i t a Ht Ha. destruct (Hall i t Ht) as (cs' & a' & _ & Ha' & _ & HR). rewrite Ha in Ha'. by injection Ha' as ->.
Qed.
End fixed.

(** C14: when goroutines make pod calls on a manager at the same time, then, whatever the
    schedule, the manager they leave is the one that some sequence of all
    the calls leaves, in which each goroutine's calls keep their order; and
    each call returns the error that it would return in any order. *)
Theorem pod_calls_serializable h m V (css : list (list pod_call)) h' ts' :
  wf h → view_mgr h m = Some V →
  rtc cstep (start h (pod_program m [] <$> css)) (h', ts') → finished (h', ts') →
  ∃ order, interleaved css order
    ∧ view_mgr h' m = Some (foldl (λ V c, pod_effect c V) V order)
    ∧ ∀ i t cs, css !! i = Some cs → ts' !! i = Some t → code t = Done (pod_error V <$> cs).
Proof.
  intros Hwf HV Hr Hf. pose proof HV as (M & HM & _)%view_mgr_Some.
  set (R := λ i r, ∀ cs, css !! i = Some cs → r = call_error M <$> cs).
  assert (same_queues (h_mgr h) (h_queue h) h) as Hsq by by split_and!.
  assert (∀ c c', rtc cstep c c' → serial_so_far m (h_mgr h) (h_queue h) _ V R css c →
    serial_so_far m (h_mgr h) (h_queue h) _ V R css c') as Hsteps.
  { induction 1; eauto using cstep_serial. }
  apply Hsteps in Hr.
  - destruct (finished_serial m (h_mgr h) (h_queue h) _ V R css h' ts' Hr Hf) as (order & Hint & HV' & Hres).
    exists order. split_and!; [done..|]. intros i t cs Hi Ht.
    destruct (proj1 (Forall_lookup _ _) Hf i t Ht) as [a Ha]. rewrite Ha. f_equal.
    rewrite (Hres i t a Ht Ha cs Hi). apply list_fmap_ext. intros j c _.
    by eapply (call_error_view m (h_mgr h) (h_queue h) M HM).
  - split; [done|]. exists css, []. split_and!; [done|simpl; by rewrite !length_fmap| |done].
    intros i t cs Ht Hcs. simpl in Ht. rewrite !list_lookup_fmap, Hcs in Ht. injection Ht as <-.
    eapply does_mono; [|exact (does_program m (h_mgr h) (h_queue h) M HM cs [])].
    intros r -> cs' Hcs'. by simplify_eq.
Qed.
End serial.

(** ** The properties at a concrete heap *)
Section witnesses.
#[local] Existing Instances c_api c_quantity c_quantity_laws c_pods c_selector.

Definition sx_pod2 : @Pod c_api := c_pod "p2" "r" 5 [("cpu", 2%Z)].

(** Two goroutines: one adds a pod, the other one adds another pod and deletes the first. *)
Definition sx_calls : list (list (@pod_call c_api)) :=
  [[(true, Some ex_pod)]; [(true, Some sx_pod2); (false, Some ex_pod)]].
Definition sx_start : config heap lock (list (option go_error)) := start ex_heap (pod_program 1 [] <$> sx_calls).
Definition sx_sched : list nat := replicate 15 1%nat ++ replicate 10 0%nat ++ replicate 5 1%nat.
Definition sx_end : config heap lock (list (option go_error)) := default (ex_heap, []) (run_schedule sx_sched sx_start).

Lemma sx_steps : rtc cstep sx_start (sx_end.1, sx_end.2).
Proof. apply run_schedule_reaches. vm_compute. exact I. Qed.

Lemma sx_finished : finished (sx_end.1, sx_end.2).
Proof. vm_compute. constructor; [eexists; reflexivity|constructor; [eexists; reflexivity|constructor]]. Qed.

Lemma pod_calls_serializable_witness :
  ∃ order, interleaved sx_calls order
    ∧ view_mgr sx_end.1 1 = Some (foldl (λ V c, pod_effect c V) ex_V order).
Proof.
  destruct (pod_calls_serializable ex_heap 1 ex_V sx_calls sx_end.1 sx_end.2 ex_wf ex_view sx_steps sx_finished)
    as (order & H1 & H2 & _).
  exists order. exact (conj H1 H2).
Defined.

(** *** A clone mixes moments *)

(** One goroutine adds "p1" to queue "q" and then "p2" to queue "r"; another one clones. *)
Definition sx_adds : client (option loc) :=
  CCall (QAddPod 1 (Some ex_pod)) (λ _, CCall (QAddPod 1 (Some sx_pod2)) (λ _, CReturn None)).
Definition sx_clone : client (option loc) := CCall (QClone 1) (λ c, CReturn (Some c)).

(** The clone is half done when both pods are added. *)
Definition sx_mixed : list nat := replicate 11 1%nat ++ replicate 20 0%nat ++ replicate 9 1%nat.

Definition has_pod (V : ManagerV) (n : string) (u : UID) : bool :=
  match V !! n with
  | Some v => bool_decide (is_Some (qv_pods (v_quota v) !! u))
  | None => false
  end.

Definition sx_moment (k : nat) : option (config heap lock (option loc)) :=
  run_schedule (take k sx_mixed) (start ex_heap [sx_adds; sx_clone]).

Definition sx_ordered (k : nat) : bool :=
  match sx_moment k with
  | Some c =>
      match view_mgr c.1 1 with
      | Some V => implb (has_pod V "r" "p2") (has_pod V "q" "p1")
      | None => false
      end
  | None => false
  end.

(** A clone that is taken while pods are added is not a snapshot of one
    moment: there is a schedule in which at every moment the manager has "p2" only
    if it has "p1", and at its end the clone has "p2" and not "p1". *)
Theorem Manager_Clone_mixes_moments :
  (∀ k c V, sx_moment k = Some c → view_mgr c.1 1 = Some V →
     has_pod V "r" "p2" = true → has_pod V "q" "p1" = true)
  ∧ ∃ c t l W, sx_moment (length sx_mixed) = Some c ∧ finished c ∧ c.2 !! 1%nat = Some t ∧ code t = Done (Some l)
    ∧ view_mgr c.1 l = Some W ∧ has_pod W "r" "p2" = true ∧ has_pod W "q" "p1" = false.
Proof.
  split.
  - assert (forallb sx_ordered (seq 0 (S (length sx_mixed))) = true) as Hall by (vm_compute; reflexivity).
    assert (∀ k, sx_ordered k = true) as Hk.
    { intros k. destruct (decide (k ≤ length sx_mixed)%nat) as [Hle|Hgt].
      - apply (proj1 (forallb_forall _ _) Hall). apply in_seq. lia.
      - assert (sx_moment k = sx_moment (length sx_mixed)) as He.
        { unfold sx_moment. by rewrite !take_ge by lia. }
        unfold sx_ordered. rewrite He. apply (proj1 (forallb_forall _ _) Hall (length sx_mixed)). apply in_seq. lia. }
    intros k c V Hc HV Hr. specialize (Hk k). unfold sx_ordered in Hk. rewrite Hc, HV, Hr in Hk. done.
  - destruct (sx_moment (length sx_mixed)) as [c|] eqn:Hc; [|vm_compute in Hc; discriminate Hc].
    vm_compute in Hc. injection Hc as <-. eexists _, _, _, _.
    split_and!; [reflexivity|repeat constructor; eexists; reflexivity|reflexivity|reflexivity|vm_compute; reflexivity|vm_compute; reflexivity|vm_compute; reflexivity].
Qed.
End witnesses.
