(* ===== verification/DeepCopy.v ===== *)
(** * DeepCopy: the generated deep copies of the API types

    [zz_generated.deepcopy.go] of [apis/scheduling/v1] and [apis/config/v1].
    Unlike [Api], where an object is its value, a struct here holds pointers
    into a memory, so that a copy that shares a map or a selector with its
    original differs from one that does not.

    A [DeepCopyInto] is the function from the receiver to the struct it leaves
    in [out] (the callers pass a new struct, or fields of one).  The structs,
    maps and arrays that a copy makes get their address when their contents are
    complete: nothing else can reach them before.  A slice is the location of
    its elements.  The deep copies of label selectors, quantities and object
    metadata are Kubernetes code: parameters, with their contract. *)

From stdpp Require Import base tactics option list gmap strings sorting.
From Stdlib Require Import ZArith Lia.
From S2P Require Import Prelude.
From S2P Require Import External.
From S2P Require Import Concrete.
From S2P Require Import Api.
From S2P Require Import Store.

(** ** Structs in memory *)
Class MemTypes := {
  (** [metav1.LabelSelector], [resource.Quantity], [metav1.ObjectMeta] and
      [metav1.ListMeta] as they lie in memory *)
  SelectorMem : Type;
  QuantityMem : Type;
  ObjectMetaMem : Type;
  ListMetaMem : Type;
  (** [metav1.TypeMeta]: two strings *)
  TypeMeta : Type;
  (** what the Kubernetes structs point to *)
  ExtBlock : Type;
}.

Section structs.
Context {MT : MemTypes}.

(** A map of quantities, a pointer or a slice is a location, or nil. *)
Record QuotaSpecM := mkQuotaSpecM { specM_Max : option loc }.
Record PreemptionRuleM := mkPreemptionRuleM { ruleM_FromPods : option loc; ruleM_ToPods : option loc }.
Record PreemptionSpecM := mkPreemptionSpecM { specM_Preempts : PreemptionRuleM; specM_PreemptedBy : PreemptionRuleM }.
Record QueueSpecM := mkQueueSpecM { specM_Quota : QuotaSpecM; specM_Preemption : PreemptionSpecM }.
Record QuotaStatusM := mkQuotaStatusM { statusM_EffectiveMax : option loc; statusM_Used : option loc }.
Record QueueStatusM := mkQueueStatusM { statusM_Quota : QuotaStatusM }.
Record QueueM := mkQueueM {
  queueM_TypeMeta : TypeMeta;
  queueM_ObjectMeta : ObjectMetaMem;
  queueM_Spec : QueueSpecM;
  queueM_Status : QueueStatusM;
}.
Record QueueListM := mkQueueListM {
  listM_TypeMeta : TypeMeta;
  listM_ListMeta : ListMetaMem;
  listM_Items : option loc;
}.
(** [configv1.PreemptionConfig] and [configv1.QuotaAwarePreemptionArgs] *)
Record PreemptionConfigM := mkPreemptionConfigM { cfgM_MaxCandidateNodes : option loc }.
Record ArgsM := mkArgsM { argsM_TypeMeta : TypeMeta; argsM_Preemption : PreemptionConfigM }.

Inductive block :=
| BSelector (x : SelectorMem) | BResources (x : gmap string QuantityMem) | BQueues (x : list QueueM) | BInt32 (x : Z)
| BRule (x : PreemptionRuleM) | BPreemptionSpec (x : PreemptionSpecM) | BQueue (x : QueueM) | BQueueList (x : QueueListM)
| BQueueSpec (x : QueueSpecM) | BQueueStatus (x : QueueStatusM) | BQuotaSpec (x : QuotaSpecM)
| BQuotaStatus (x : QuotaStatusM) | BPreemptionConfig (x : PreemptionConfigM) | BArgs (x : ArgsM) | BExt (x : ExtBlock).

(** The types that have blocks of their own. *)
Class Stored (A : Type) := {
  to_block : A → block;
  of_block : block → option A;
  of_to_block x : of_block (to_block x) = Some x;
}.

#[export] Instance stored_selector : Stored SelectorMem :=
  {| to_block := BSelector; of_block b := if b is BSelector x then Some x else None; of_to_block x := eq_refl |}.
#[export] Instance stored_resources : Stored (gmap string QuantityMem) :=
  {| to_block := BResources; of_block b := if b is BResources x then Some x else None; of_to_block x := eq_refl |}.
#[export] Instance stored_queues : Stored (list QueueM) :=
  {| to_block := BQueues; of_block b := if b is BQueues x then Some x else None; of_to_block x := eq_refl |}.
#[export] Instance stored_int32 : Stored Z :=
  {| to_block := BInt32; of_block b := if b is BInt32 x then Some x else None; of_to_block x := eq_refl |}.
#[export] Instance stored_rule : Stored PreemptionRuleM :=
  {| to_block := BRule; of_block b := if b is BRule x then Some x else None; of_to_block x := eq_refl |}.
#[export] Instance stored_preemption_spec : Stored PreemptionSpecM :=
  {| to_block := BPreemptionSpec; of_block b := if b is BPreemptionSpec x then Some x else None; of_to_block x := eq_refl |}.
#[export] Instance stored_queue : Stored QueueM :=
  {| to_block := BQueue; of_block b := if b is BQueue x then Some x else None; of_to_block x := eq_refl |}.
#[export] Instance stored_queue_list : Stored QueueListM :=
  {| to_block := BQueueList; of_block b := if b is BQueueList x then Some x else None; of_to_block x := eq_refl |}.
#[export] Instance stored_queue_spec : Stored QueueSpecM :=
  {| to_block := BQueueSpec; of_block b := if b is BQueueSpec x then Some x else None; of_to_block x := eq_refl |}.
#[export] Instance stored_queue_status : Stored QueueStatusM :=
  {| to_block := BQueueStatus; of_block b := if b is BQueueStatus x then Some x else None; of_to_block x := eq_refl |}.
#[export] Instance stored_quota_spec : Stored QuotaSpecM :=
  {| to_block := BQuotaSpec; of_block b := if b is BQuotaSpec x then Some x else None; of_to_block x := eq_refl |}.
#[export] Instance stored_quota_status : Stored QuotaStatusM :=
  {| to_block := BQuotaStatus; of_block b := if b is BQuotaStatus x then Some x else None; of_to_block x := eq_refl |}.
#[export] Instance stored_preemption_config : Stored PreemptionConfigM :=
  {| to_block := BPreemptionConfig; of_block b := if b is BPreemptionConfig x then Some x else None; of_to_block x := eq_refl |}.
#[export] Instance stored_args : Stored ArgsM :=
  {| to_block := BArgs; of_block b := if b is BArgs x then Some x else None; of_to_block x := eq_refl |}.

End structs.

Abbreviation mem := (gmap loc block).

(** [*p], and [new(T)] with its contents. *)
Definition mem_load {MT : MemTypes} {A} `{!Stored A} (l : loc) : st mem A := λ m, st_some (m !! l ≫= of_block) m.
Definition mem_new {MT : MemTypes} {A} `{!Stored A} (x : A) : st mem loc :=
  λ m, let l := fresh (dom m) in Ret (l, <[l := to_block x]> m).

(** ** The deep copies of Kubernetes' own types *)
Class ExtCopyOps {MT : MemTypes} := {
  LabelSelector_DeepCopyInto : SelectorMem → st mem SelectorMem;
  QuantityM_DeepCopy : QuantityMem → st mem QuantityMem;
  ObjectMeta_DeepCopyInto : ObjectMetaMem → st mem ObjectMetaMem;
  ListMeta_DeepCopyInto : ListMetaMem → st mem ListMetaMem;
}.

(** ** The generated functions *)
Section copies.
Context {MT : MemTypes} {E : ExtCopyOps}.

(** [if p != nil { out = new(T); p.DeepCopyInto(out) }], and nil for nil. *)
Definition copy_pointer {A} `{!Stored A} (into : A → st mem A) (p : option loc) : st mem (option loc) :=
  match p with
  | None => mret None
  | Some l => x ← mem_load l; x' ← into x; l' ← mem_new x'; mret (Some l')
  end.

(** The map loop [out[key] = val.DeepCopy()] and the slice loop. *)
Fixpoint copy_entries (l : list (string * QuantityMem)) (out : gmap string QuantityMem) : st mem (gmap string QuantityMem) :=
  match l with
  | [] => mret out
  | (key, val) :: l => val' ← QuantityM_DeepCopy val; copy_entries l (<[key := val']> out)
  end.
Definition copy_resource_list (x : gmap string QuantityMem) : st mem (gmap string QuantityMem) := copy_entries (map_to_list x) ∅.

Definition PreemptionRule_DeepCopyInto (x : PreemptionRuleM) : st mem PreemptionRuleM :=
  from ← copy_pointer LabelSelector_DeepCopyInto (ruleM_FromPods x);
  to ← copy_pointer LabelSelector_DeepCopyInto (ruleM_ToPods x);
  mret (mkPreemptionRuleM from to).
Definition PreemptionRule_DeepCopy := copy_pointer PreemptionRule_DeepCopyInto.

Definition PreemptionSpec_DeepCopyInto (x : PreemptionSpecM) : st mem PreemptionSpecM :=
  preempts ← PreemptionRule_DeepCopyInto (specM_Preempts x);
  preemptedBy ← PreemptionRule_DeepCopyInto (specM_PreemptedBy x);
  mret (mkPreemptionSpecM preempts preemptedBy).
Definition PreemptionSpec_DeepCopy := copy_pointer PreemptionSpec_DeepCopyInto.

Definition QuotaSpec_DeepCopyInto (x : QuotaSpecM) : st mem QuotaSpecM :=
  max ← copy_pointer copy_resource_list (specM_Max x);
  mret (mkQuotaSpecM max).
Definition QuotaSpec_DeepCopy := copy_pointer QuotaSpec_DeepCopyInto.

Definition QuotaStatus_DeepCopyInto (x : QuotaStatusM) : st mem QuotaStatusM :=
  max ← copy_pointer copy_resource_list (statusM_EffectiveMax x);
  used ← copy_pointer copy_resource_list (statusM_Used x);
  mret (mkQuotaStatusM max used).
Definition QuotaStatus_DeepCopy := copy_pointer QuotaStatus_DeepCopyInto.

Definition QueueSpec_DeepCopyInto (x : QueueSpecM) : st mem QueueSpecM :=
  quota ← QuotaSpec_DeepCopyInto (specM_Quota x);
  preemption ← PreemptionSpec_DeepCopyInto (specM_Preemption x);
  mret (mkQueueSpecM quota preemption).
Definition QueueSpec_DeepCopy := copy_pointer QueueSpec_DeepCopyInto.

Definition QueueStatus_DeepCopyInto (x : QueueStatusM) : st mem QueueStatusM :=
  quota ← QuotaStatus_DeepCopyInto (statusM_Quota x);
  mret (mkQueueStatusM quota).
Definition QueueStatus_DeepCopy := copy_pointer QueueStatus_DeepCopyInto.

Definition Queue_DeepCopyInto (x : QueueM) : st mem QueueM :=
  meta ← ObjectMeta_DeepCopyInto (queueM_ObjectMeta x);
  spec ← QueueSpec_DeepCopyInto (queueM_Spec x);
  status ← QueueStatus_DeepCopyInto (queueM_Status x);
  mret (mkQueueM (queueM_TypeMeta x) meta spec status).
Definition Queue_DeepCopy := copy_pointer Queue_DeepCopyInto.

Fixpoint copy_queues (l : list QueueM) : st mem (list QueueM) :=
  match l with
  | [] => mret []
  | x :: l => x' ← Queue_DeepCopyInto x; l' ← copy_queues l; mret (x' :: l')
  end.

Definition QueueList_DeepCopyInto (x : QueueListM) : st mem QueueListM :=
  meta ← ListMeta_DeepCopyInto (listM_ListMeta x);
  items ← copy_pointer copy_queues (listM_Items x);
  mret (mkQueueListM (listM_TypeMeta x) meta items).
Definition QueueList_DeepCopy := copy_pointer QueueList_DeepCopyInto.

(** A [runtime.Object] is a pointer with its type; the nil interface is [None],
    which is not an interface that holds a nil pointer. *)
Inductive runtime_Object := ObjQueue (p : option loc) | ObjQueueList (p : option loc) | ObjArgs (p : option loc).

Definition Queue_DeepCopyObject (p : option loc) : st mem (option runtime_Object) :=
  c ← Queue_DeepCopy p;
  mret (match c with Some _ => Some (ObjQueue c) | None => None end).
Definition QueueList_DeepCopyObject (p : option loc) : st mem (option runtime_Object) :=
  c ← QueueList_DeepCopy p;
  mret (match c with Some _ => Some (ObjQueueList c) | None => None end).

Definition PreemptionConfig_DeepCopyInto (x : PreemptionConfigM) : st mem PreemptionConfigM :=
  max ← copy_pointer (λ z : Z, mret z) (cfgM_MaxCandidateNodes x);
  mret (mkPreemptionConfigM max).
Definition PreemptionConfig_DeepCopy := copy_pointer PreemptionConfig_DeepCopyInto.

Definition QuotaAwarePreemptionArgs_DeepCopyInto (x : ArgsM) : st mem ArgsM :=
  preemption ← PreemptionConfig_DeepCopyInto (argsM_Preemption x);
  mret (mkArgsM (argsM_TypeMeta x) preemption).
Definition QuotaAwarePreemptionArgs_DeepCopy := copy_pointer QuotaAwarePreemptionArgs_DeepCopyInto.
Definition QuotaAwarePreemptionArgs_DeepCopyObject (p : option loc) : st mem (option runtime_Object) :=
  c ← QuotaAwarePreemptionArgs_DeepCopy p;
  mret (match c with Some _ => Some (ObjArgs c) | None => None end).
End copies.

(** ** What a struct in memory stands for
    [R m x v D]: in memory [m], [x] stands for the value [v], and only the
    blocks in [D] are read to tell. *)
Definition Rep {MT : MemTypes} (A V : Type) : Type := mem → A → V → gset loc → Prop.

(** It depends on those blocks alone. *)
Class Local {MT : MemTypes} {A V} (R : Rep A V) : Prop :=
  local m m' x v D D' : (∀ l, l ∈ D → m !! l = m' !! l) → D ⊆ D' → R m x v D → R m' x v D'.

(** [c] only adds blocks, and its result is described by [K] from the new
    blocks alone. *)
Definition copying {MT : MemTypes} {A} (K : mem → A → gset loc → Prop) (c : st mem A) (m : mem) : Prop :=
  wp c (λ a m', m ⊆ m' ∧ K m' a (dom m' ∖ dom m)) m.

(** The contract of a [DeepCopyInto]: the same value, out of new blocks. *)
Class Copies {MT : MemTypes} {A V} (R : Rep A V) (into : A → st mem A) : Prop :=
  copies m x v D : D ⊆ dom m → R m x v D → copying (λ m' x' D', R m' x' v D') (into x) m.

Section representations.
Context {MT : MemTypes} {A V : Type} (R : Rep A V).

Definition rep_pointer `{!Stored A} : Rep (option loc) (option V) := λ m p v D,
  match p, v with
  | None, None => True
  | Some l, Some v => l ∈ D ∧ ∃ x, m !! l ≫= of_block = Some x ∧ R m x v D
  | _, _ => False
  end.
Definition rep_map : Rep (gmap string A) (gmap string V) := λ m x v D,
  ∀ k, option_Forall2 (λ a b, R m a b D) (x !! k) (v !! k).
Definition rep_list : Rep (list A) (list V) := λ m x v D, Forall2 (λ a b, R m a b D) x v.
End representations.

(** A struct without pointers stands for itself. *)
Definition rep_plain {MT : MemTypes} {A} : Rep A A := λ m x v D, x = v.

(** What the scheduler relies on of the Kubernetes deep copies. *)
Class ExtCopyLaws {T : ApiTypes} {MT : MemTypes} {E : ExtCopyOps} := {
  (** the values of [metav1.ObjectMeta] and [metav1.ListMeta] *)
  ObjectMeta : Type;
  ListMeta : Type;
  rep_selector : Rep SelectorMem LabelSelector;
  rep_quantity : Rep QuantityMem Quantity;
  rep_object_meta : Rep ObjectMetaMem ObjectMeta;
  rep_list_meta : Rep ListMetaMem ListMeta;
  selector_local :: Local rep_selector;
  quantity_local :: Local rep_quantity;
  object_meta_local :: Local rep_object_meta;
  list_meta_local :: Local rep_list_meta;
  selector_copies :: Copies rep_selector LabelSelector_DeepCopyInto;
  quantity_copies :: Copies rep_quantity QuantityM_DeepCopy;
  object_meta_copies :: Copies rep_object_meta ObjectMeta_DeepCopyInto;
  list_meta_copies :: Copies rep_list_meta ListMeta_DeepCopyInto;
}.

(** The values are those of [Api]; an object keeps its metadata. *)
Section values.
Context {T : ApiTypes} {MT : MemTypes} {E : ExtCopyOps} {EL : ExtCopyLaws}.

Record QueueValue := mkQueueValue {
  value_TypeMeta : TypeMeta;
  value_ObjectMeta : ObjectMeta;
  value_Spec : QueueSpec;
  value_Status : QueueStatus;
}.
Record QueueListValue := mkQueueListValue {
  values_TypeMeta : TypeMeta;
  values_ListMeta : ListMeta;
  values_Items : option (list QueueValue);
}.
Record ArgsValue := mkArgsValue { value_ArgsTypeMeta : TypeMeta; value_Preemption : ArgsPreemptionConfig }.

Definition rep_resource_list : Rep (option loc) (gomap Quantity) := rep_pointer (rep_map rep_quantity).
Definition rep_rule : Rep PreemptionRuleM PreemptionRule := λ m x v D,
  rep_pointer rep_selector m (ruleM_FromPods x) (rule_FromPods v) D
  ∧ rep_pointer rep_selector m (ruleM_ToPods x) (rule_ToPods v) D.
Definition rep_preemption_spec : Rep PreemptionSpecM PreemptionSpec := λ m x v D,
  rep_rule m (specM_Preempts x) (spec_Preempts v) D ∧ rep_rule m (specM_PreemptedBy x) (spec_PreemptedBy v) D.
Definition rep_quota_spec : Rep QuotaSpecM QuotaSpec := λ m x v D,
  rep_resource_list m (specM_Max x) (quotaSpec_Max v) D.
Definition rep_quota_status : Rep QuotaStatusM QuotaStatus := λ m x v D,
  rep_resource_list m (statusM_EffectiveMax x) (quotaStatus_EffectiveMax v) D
  ∧ rep_resource_list m (statusM_Used x) (quotaStatus_Used v) D.
Definition rep_queue_spec : Rep QueueSpecM QueueSpec := λ m x v D,
  rep_quota_spec m (specM_Quota x) (queueSpec_Quota v) D
  ∧ rep_preemption_spec m (specM_Preemption x) (queueSpec_Preemption v) D.
Definition rep_queue_status : Rep QueueStatusM QueueStatus := λ m x v D,
  rep_quota_status m (statusM_Quota x) (queueStatus_Quota v) D.
Definition rep_queue : Rep QueueM QueueValue := λ m x v D,
  queueM_TypeMeta x = value_TypeMeta v ∧ rep_object_meta m (queueM_ObjectMeta x) (value_ObjectMeta v) D
  ∧ rep_queue_spec m (queueM_Spec x) (value_Spec v) D ∧ rep_queue_status m (queueM_Status x) (value_Status v) D.
Definition rep_queue_list : Rep QueueListM QueueListValue := λ m x v D,
  listM_TypeMeta x = values_TypeMeta v ∧ rep_list_meta m (listM_ListMeta x) (values_ListMeta v) D
  ∧ rep_pointer (rep_list rep_queue) m (listM_Items x) (values_Items v) D.
Definition rep_preemption_config : Rep PreemptionConfigM ArgsPreemptionConfig := λ m x v D,
  rep_pointer rep_plain m (cfgM_MaxCandidateNodes x) (MaxCandidateNodes v) D.
Definition rep_args : Rep ArgsM ArgsValue := λ m x v D,
  argsM_TypeMeta x = value_ArgsTypeMeta v ∧ rep_preemption_config m (argsM_Preemption x) (value_Preemption v) D.
End values.

(** ** The contract holds of the generated code *)
Section contract.
Context {MT : MemTypes}.

Lemma local_grow {A V} (R : Rep A V) `{!Local R} m m' x v D D' :
  m ⊆ m' → D ⊆ dom m → D ⊆ D' → R m x v D → R m' x v D'.
Proof.
  intros Hm HD Hsub. apply local; [|done]. intros l Hl. apply HD, elem_of_dom in Hl as [b Hb].
  by rewrite Hb, (lookup_weaken _ _ _ _ Hb Hm).
Qed.

Lemma copying_ret {A} (K : mem → A → gset loc → Prop) a m : K m a ∅ → copying K (mret a) m.
Proof. intros HK. apply wp_ret. split; [done|]. by rewrite difference_diag_L. Qed.

Lemma copying_mono {A} (K K' : mem → A → gset loc → Prop) c m :
  copying K c m → (∀ m' a D, K m' a D → K' m' a D) → copying K' c m.
Proof. intros Hc HK. eapply wp_mono; [exact Hc|]. intros a m' [Hm Ha]. split; [done|by apply HK]. Qed.

(** One copy after another: the second leaves what the first made. *)
Lemma copying_bind {A V B} (R : Rep A V) `{!Local R} v (K : mem → B → gset loc → Prop) c (f : A → st mem B) m :
  copying (λ m' x D, R m' x v D) c m →
  (∀ x m1, m ⊆ m1 → copying (λ m2 b D2, ∀ D, D2 ⊆ D → R m2 x v D → K m2 b D) (f x) m1) →
  copying K (c ≫= f) m.
Proof.
  intros Hc Hf. apply wp_bind. eapply wp_mono; [exact Hc|]. intros x m1 [Hm1 Hx].
  eapply wp_mono; [exact (Hf x m1 Hm1)|]. intros b m2 [Hm2 HK]. split; [by etrans|].
  apply subseteq_dom in Hm1 as Hd1. pose proof (subseteq_dom _ _ Hm2) as Hd2. apply HK; [set_solver|].
  apply (local_grow R m1 m2 x v (dom m1 ∖ dom m)); [done|set_solver|set_solver|done].
Qed.

#[export] Instance plain_local {A} : Local (@rep_plain MT A).
Proof. by intros m m' x v D D' _ _. Qed.
#[export] Instance plain_copies {A} : Copies (@rep_plain MT A) mret.
Proof. intros m x v D _ Hx. by apply copying_ret. Qed.

#[export] Instance pointer_local {A V} (R : Rep A V) `{!Stored A} `{!Local R} : Local (rep_pointer R).
Proof.
  intros m m' [l|] [v|] D D' Hm HD; [|done..]. intros (Hl & x & Hx & HR). split; [by apply HD|].
  exists x. rewrite <- Hm by done. split; [done|]. by apply (local m m' x v D D').
Qed.

#[export] Instance map_local {A V} (R : Rep A V) `{!Local R} : Local (rep_map R).
Proof.
  intros m m' x v D D' Hm HD HR k. destruct (HR k) as [a b Hab|]; constructor. by apply (local m m' a b D D').
Qed.

#[export] Instance list_local {A V} (R : Rep A V) `{!Local R} : Local (rep_list R).
Proof. intros m m' x v D D' Hm HD HR. eapply Forall2_impl; [exact HR|]. intros a b. by apply (local m m' a b D D'). Qed.

#[export] Instance pointer_copies {A V} (R : Rep A V) `{!Stored A} (into : A → st mem A) `{!Local R} `{!Copies R into} :
  Copies (rep_pointer R) (copy_pointer into).
Proof.
  intros m [l|] [v|] D HD HR; [|done|done|by apply copying_ret].
  destruct HR as (Hl & x & Hx & HR). unfold copying, copy_pointer. apply wp_bind. unfold mem_load, wp at 1. rewrite Hx.
  cbn [st_some mret st_ret]. apply wp_bind. eapply wp_mono; [by apply (copies (R := R) m x v D)|].
  intros x' m1 [Hm1 Hx']. unfold wp, mem_new, mbind, st_bind, mret, st_ret. cbn beta iota zeta.
  assert (fresh (dom m1) ∉ dom m1) as Hf by apply is_fresh. set (l' := fresh (dom m1)) in *.
  pose proof (subseteq_dom _ _ Hm1) as Hd. assert (m1 ⊆ <[l' := to_block x']> m1) as Hm2.
  { apply insert_subseteq. by apply not_elem_of_dom. }
  split; [by etrans|]. split; [rewrite dom_insert_L; set_solver|]. exists x'. rewrite lookup_insert_eq. simpl.
  split; [apply of_to_block|]. apply (local_grow R m1 _ x' v (dom m1 ∖ dom m)); [done|set_solver| |done].
  rewrite dom_insert_L. set_solver.
Qed.

(** Copying one field of a struct that was read from [m0]. *)
Lemma copying_field {A V B} (R : Rep A V) (into : A → st mem A) `{!Local R} `{!Copies R into} x v D
    (K : mem → B → gset loc → Prop) (f : A → st mem B) m0 m :
  D ⊆ dom m0 → R m0 x v D → m0 ⊆ m →
  (∀ x' m1, m0 ⊆ m1 → copying (λ m2 b D2, ∀ D', D2 ⊆ D' → R m2 x' v D' → K m2 b D') (f x') m1) →
  copying K (into x ≫= f) m.
Proof.
  intros HD HR Hm Hf. pose proof (subseteq_dom _ _ Hm) as Hd. apply (copying_bind R v).
  - apply (copies (R := R) m x v D); [set_solver|]. by apply (local_grow R m0 m x v D).
  - intros x' m1 Hm1. apply Hf. by etrans.
Qed.

Lemma local_more {A V} (R : Rep A V) `{!Local R} m x v D D' : D ⊆ D' → R m x v D → R m x v D'.
Proof. intros HD. by apply (local m m). Qed.
End contract.

(** A struct's fields are copied in turn; then the pieces are put together. *)
Ltac copied :=
  first [done|eassumption|solve [eapply local_more; [apply _| |eassumption]; set_solver]|split; copied].
Ltac copy_fields :=
  repeat (eapply copying_field; [|apply _|eassumption|eassumption|first [reflexivity|eassumption]|intros ? ? ?]; [apply _|]);
  apply copying_ret; intros; copied.

Section generated.
Context {T : ApiTypes} {MT : MemTypes} {E : ExtCopyOps} {EL : ExtCopyLaws}.

Lemma copy_entries_spec (vs : gmap string Quantity) D l : ∀ m out vout Dout,
  D ⊆ dom m → Dout ⊆ dom m → (∀ k x, (k, x) ∈ l → ∃ v, vs !! k = Some v ∧ rep_quantity m x v D) →
  rep_map rep_quantity m out vout Dout →
  wp (copy_entries l out) (λ x' m', m ⊆ m' ∧ ∃ v', rep_map rep_quantity m' x' v' (Dout ∪ (dom m' ∖ dom m))
    ∧ ∀ k, v' !! k = if decide (k ∈ l.*1) then vs !! k else vout !! k) m.
Proof.
  induction l as [|[k x] l IH]; intros m out vout Dout HD Hout Hl Hrep; cbn [copy_entries].
  { apply wp_ret. split; [done|]. exists vout. split; [by eapply local_more; [apply _| |exact Hrep]; set_solver|done]. }
  destruct (Hl k x) as (v & Hv & Hx); [by left|]. apply wp_bind.
  eapply wp_mono; [by apply (copies (R := rep_quantity) m x v D)|]. intros x' m1 [Hm1 Hx'].
  pose proof (subseteq_dom _ _ Hm1) as Hd1.
  eapply wp_mono; [apply (IH m1 _ (<[k := v]> vout) (Dout ∪ (dom m1 ∖ dom m))); [set_solver..| |]|].
  - intros k2 x2 Hin. destruct (Hl k2 x2) as (v2 & ? & ?); [by right|]. exists v2. split; [done|].
    by apply (local_grow rep_quantity m m1 x2 v2 D).
  - intros j. destruct (decide (j = k)) as [-> | Hj].
    + rewrite !lookup_insert_eq. constructor. eapply local_more; [apply _| |exact Hx']. set_solver.
    + rewrite !lookup_insert_ne by done. apply (local_grow (rep_map rep_quantity) m m1 out vout Dout); [done|done|set_solver|done].
  - intros x2 m2 (Hm2 & v' & Hrep' & Hv'). split; [by etrans|]. pose proof (subseteq_dom _ _ Hm2) as Hd2.
    exists v'. split; [eapply local_more; [apply _| |exact Hrep']; set_solver|].
    intros j. rewrite Hv', fmap_cons. cbn [fst]. destruct (decide (j = k)) as [-> | Hj].
    + rewrite lookup_insert_eq. rewrite (decide_True (P := k ∈ k :: _)) by by left. case_decide; [done|by rewrite Hv].
    + rewrite lookup_insert_ne by done. repeat case_decide; try done; set_solver.
Qed.

#[export] Instance resource_list_copies : Copies (rep_map rep_quantity) copy_resource_list.
Proof.
  intros m x v D HD HR. eapply wp_mono; [apply (copy_entries_spec v D (map_to_list x) m ∅ ∅ ∅)|].
  - done.
  - set_solver.
  - intros k a Hin%elem_of_map_to_list. specialize (HR k). rewrite Hin in HR. inversion HR. by eexists.
  - intros k. rewrite !lookup_empty. constructor.
  - intros x' m' (Hm & v' & Hrep & Hv). split; [done|]. assert (v' = v) as ->.
    { apply map_eq. intros k. rewrite Hv. case_decide as Hk; [done|]. rewrite lookup_empty.
      specialize (HR k). destruct (x !! k) as [q|] eqn:Ek; [|by inversion HR].
      exfalso. apply Hk, list_elem_of_fmap. exists (k, q). split; [done|by apply elem_of_map_to_list]. }
    eapply local_more; [apply _| |exact Hrep]. set_solver.
Qed.

#[export] Instance rule_local : Local rep_rule.
Proof. intros m m' x v D D' Hm HD []. split; by eapply local. Qed.
#[export] Instance rule_copies : Copies rep_rule PreemptionRule_DeepCopyInto.
Proof. intros m x v D HD []. unfold PreemptionRule_DeepCopyInto. copy_fields. Qed.

#[export] Instance preemption_spec_local : Local rep_preemption_spec.
Proof. intros m m' x v D D' Hm HD []. split; by eapply local. Qed.
#[export] Instance preemption_spec_copies : Copies rep_preemption_spec PreemptionSpec_DeepCopyInto.
Proof. intros m x v D HD []. unfold PreemptionSpec_DeepCopyInto. copy_fields. Qed.

#[export] Instance quota_spec_local : Local rep_quota_spec.
Proof. intros m m' x v D D' Hm HD Hx. by apply (local m m' (specM_Max x) _ D D'). Qed.
#[export] Instance quota_spec_copies : Copies rep_quota_spec QuotaSpec_DeepCopyInto.
Proof. intros m x v D HD Hx. unfold QuotaSpec_DeepCopyInto, rep_quota_spec in *. copy_fields. Qed.

#[export] Instance quota_status_local : Local rep_quota_status.
Proof. intros m m' x v D D' Hm HD []. split; by eapply local. Qed.
#[export] Instance quota_status_copies : Copies rep_quota_status QuotaStatus_DeepCopyInto.
Proof. intros m x v D HD []. unfold QuotaStatus_DeepCopyInto, rep_resource_list in *. copy_fields. Qed.

#[export] Instance queue_spec_local : Local rep_queue_spec.
Proof. intros m m' x v D D' Hm HD []. split; by eapply local. Qed.
#[export] Instance queue_spec_copies : Copies rep_queue_spec QueueSpec_DeepCopyInto.
Proof. intros m x v D HD []. unfold QueueSpec_DeepCopyInto. copy_fields. Qed.

#[export] Instance queue_status_local : Local rep_queue_status.
Proof. intros m m' x v D D' Hm HD Hx. by apply (local m m' (statusM_Quota x) _ D D'). Qed.
#[export] Instance queue_status_copies : Copies rep_queue_status QueueStatus_DeepCopyInto.
Proof. intros m x v D HD Hx. unfold QueueStatus_DeepCopyInto, rep_queue_status in *. copy_fields. Qed.

#[export] Instance queue_local : Local rep_queue.
Proof. intros m m' x v D D' Hm HD (? & ? & ? & ?). split_and!; try done; by eapply local. Qed.
#[export] Instance queue_copies : Copies rep_queue Queue_DeepCopyInto.
Proof. intros m x v D HD (? & ? & ? & ?). unfold Queue_DeepCopyInto. copy_fields. Qed.

#[export] Instance queues_copies : Copies (rep_list rep_queue) copy_queues.
Proof.
  intros m0 x v D HD HR. assert (∀ m, m0 ⊆ m → copying (λ m' x' D', rep_list rep_queue m' x' v D') (copy_queues x) m)
    as Hall; [|by apply Hall].
  induction HR as [|x v l vs Hx Hl IH]; intros m Hm; cbn [copy_queues]; [apply copying_ret; constructor|].
  apply (copying_field rep_queue Queue_DeepCopyInto x v D _ _ m0 m); [done..|]. intros x' m1 Hm1.
  apply (copying_bind (rep_list rep_queue) vs); [by apply IH|]. intros l' m2 _. apply copying_ret.
  intros D1 _ Hl' D2 H12 Hx'. constructor; [done|]. by apply (local_more (rep_list rep_queue) m2 l' vs D1).
Qed.

#[export] Instance queue_list_local : Local rep_queue_list.
Proof. intros m m' x v D D' Hm HD (? & ? & ?). split_and!; try done; by eapply local. Qed.
#[export] Instance queue_list_copies : Copies rep_queue_list QueueList_DeepCopyInto.
Proof. intros m x v D HD (? & ? & ?). unfold QueueList_DeepCopyInto. copy_fields. Qed.

#[export] Instance preemption_config_local : Local rep_preemption_config.
Proof. intros m m' x v D D' Hm HD Hx. by apply (local m m' (cfgM_MaxCandidateNodes x) _ D D'). Qed.
#[export] Instance preemption_config_copies : Copies rep_preemption_config PreemptionConfig_DeepCopyInto.
Proof. intros m x v D HD Hx. unfold PreemptionConfig_DeepCopyInto, rep_preemption_config in *. copy_fields. Qed.

#[export] Instance args_local : Local rep_args.
Proof. intros m m' x v D D' Hm HD []. split; [done|]. by eapply local. Qed.
#[export] Instance args_copies : Copies rep_args QuotaAwarePreemptionArgs_DeepCopyInto.
Proof. intros m x v D HD []. unfold QuotaAwarePreemptionArgs_DeepCopyInto. copy_fields. Qed.

(** A copy apart from its original: everything that existed is unchanged; the
    copy has the value out of new blocks, so it keeps it whatever happens to the
    old ones, and the original keeps its value whatever happens to the new
    ones. *)
Record apart {A V} `{!Stored A} (R : Rep A V) (m : mem) (D : gset loc) (p p' : option loc) (v : option V) (m' : mem) : Prop := {
  apart_kept : m ⊆ m';
  apart_copy m2 : (∀ l, l ∈ dom m' ∖ dom m → m2 !! l = m' !! l) → rep_pointer R m2 p' v (dom m' ∖ dom m);
  apart_orig m2 : (∀ l, l ∈ dom m → m2 !! l = m !! l) → rep_pointer R m2 p v D;
}.

Lemma copy_pointer_apart {A V} `{!Stored A} (R : Rep A V) (into : A → st mem A) `{!Local R} `{!Copies R into} m p v D :
  D ⊆ dom m → rep_pointer R m p v D →
  wp (copy_pointer into p) (λ p' m', apart R m D p p' v m' ∧ (p' = None ↔ p = None)) m.
Proof.
  intros HD HR. eapply wp_mono; [by apply (copies (R := rep_pointer R) m p v D)|]. intros p' m' [Hm Hp']. split.
  - split; [done| |].
    + intros m2 H2. eapply local; [|reflexivity|exact Hp']. intros l Hl. by rewrite H2.
    + intros m2 H2. eapply local; [|reflexivity|exact HR]. intros l Hl. by rewrite H2 by set_solver.
  - destruct p, p', v; try done.
Qed.

(** What [DeepCopyObject] returns for [p]: the nil interface for nil, or the
    copy under its type. *)
Definition object_copied {A V} `{!Stored A} (mk : option loc → runtime_Object) (R : Rep A V) m D p v
    (o : option runtime_Object) (m' : mem) : Prop :=
  ∃ p', apart R m D p p' v m' ∧ o = match p with None => None | Some _ => Some (mk p') end ∧ (p' = None ↔ p = None).

(** C26: the deep copies of the API objects, nested specs, statuses, quota maps,
    selectors and queue lists included: for nil the nil interface (never an
    interface that holds nil); otherwise an object with the same value that
    shares nothing with its original: later writes to one never show in the
    other. *)
Theorem DeepCopyObject_apart m D p :
  D ⊆ dom m →
  (∀ v, rep_pointer rep_queue m p v D → wp (Queue_DeepCopyObject p) (object_copied ObjQueue rep_queue m D p v) m)
  ∧ (∀ v, rep_pointer rep_queue_list m p v D →
       wp (QueueList_DeepCopyObject p) (object_copied ObjQueueList rep_queue_list m D p v) m)
  ∧ (∀ v, rep_pointer rep_args m p v D →
       wp (QuotaAwarePreemptionArgs_DeepCopyObject p) (object_copied ObjArgs rep_args m D p v) m).
Proof.
  intros HD. split_and!; intros v HR; apply wp_bind;
    (eapply wp_mono; [by apply (copy_pointer_apart _ _ m p v D)|]);
    intros p' m' [Ha Hn]; apply wp_ret; exists p'; (split_and!; [done| |done]);
    destruct p, p'; try done; naive_solver.
Qed.
End generated.

(** ** A concrete list
    Two queues whose rules share one selector; a selector points to its labels. *)
Section witnesses.
#[local] Existing Instances c_api.

#[local] Instance c_mem : MemTypes := {|
  SelectorMem := loc; QuantityMem := Z; ObjectMetaMem := string; ListMetaMem := string; TypeMeta := string;
  ExtBlock := list (string * string);
|}.

#[local] Instance c_stored_ext : Stored (list (string * string)) :=
  {| to_block := BExt; of_block b := if b is BExt x then Some x else None; of_to_block x := eq_refl |}.

#[local] Instance c_copies : ExtCopyOps := {|
  LabelSelector_DeepCopyInto x := ls ← mem_load x; mem_new (ls : list (string * string));
  QuantityM_DeepCopy x := mret x;
  ObjectMeta_DeepCopyInto x := mret x;
  ListMeta_DeepCopyInto x := mret x;
|}.

Definition c_rep_selector : Rep loc CLabelSelector := λ m x v D,
  ∃ ls, v = CMatchLabels ls ∧ rep_pointer rep_plain m (Some x) (Some ls) D.

#[local] Instance c_selector_local : Local c_rep_selector.
Proof. intros m m' x v D D' Hm HD (ls & -> & Hx). exists ls. split; [done|]. by eapply local. Qed.

#[local] Instance c_selector_copies : Copies c_rep_selector (λ x, ls ← mem_load x; mem_new (ls : list (string * string))).
Proof.
  intros m x v D HD (ls & -> & Hx). pose proof (copies (R := rep_pointer rep_plain) m (Some x) (Some ls) D HD Hx) as Hc.
  unfold copying, wp, copy_pointer, mbind, st_bind in *.
  destruct (mem_load x m) as [[y m1]|]; [|done]. cbn [mret st_ret] in Hc.
  unfold mem_new in *. destruct Hc as [Hm Hp]. split; [done|]. by exists ls.
Qed.

#[local] Instance c_copy_laws : ExtCopyLaws := {|
  ObjectMeta := string; ListMeta := string;
  rep_selector := c_rep_selector; rep_quantity := rep_plain; rep_object_meta := rep_plain; rep_list_meta := rep_plain;
|}.

Definition d_rule : PreemptionRuleM := mkPreemptionRuleM (Some 2%positive) (Some 2%positive).
Definition d_queue (name : string) (max : option loc) : QueueM :=
  mkQueueM "Queue" name (mkQueueSpecM (mkQuotaSpecM max) (mkPreemptionSpecM d_rule (mkPreemptionRuleM None None)))
    (mkQueueStatusM (mkQuotaStatusM None None)).
Definition d_mem : mem :=
  {[ 1%positive := BExt [("team", "a")]; 2%positive := BSelector 1%positive;
     3%positive := BResources {["cpu" := 10%Z]};
     4%positive := BQueues [d_queue "q" (Some 3%positive); d_queue "r" None];
     5%positive := BQueueList (mkQueueListM "QueueList" "7" (Some 4%positive)) ]}.

Definition d_vrule : PreemptionRule := mkPreemptionRule (Some (CMatchLabels [("team", "a")])) (Some (CMatchLabels [("team", "a")])).
Definition d_vqueue (name : string) (max : gomap (@Quantity c_api)) : QueueValue :=
  mkQueueValue ("Queue" : TypeMeta) (name : ObjectMeta) (mkQueueSpec (mkQuotaSpec max) (mkPreemptionSpec d_vrule (mkPreemptionRule None None)))
    (mkQueueStatus (mkQuotaStatus None None)).
Definition d_value : QueueListValue :=
  mkQueueListValue ("QueueList" : TypeMeta) ("7" : ListMeta) (Some [d_vqueue "q" (Some {["cpu" := 10%Z : @Quantity c_api]}); d_vqueue "r" None]).

Lemma d_rule_rep : rep_rule d_mem d_rule d_vrule (dom d_mem).
Proof.
  assert (rep_pointer rep_selector d_mem (Some 2%positive) (Some (CMatchLabels [("team", "a")] : @LabelSelector c_api)) (dom d_mem)) as Hs.
  { split; [by apply elem_of_dom; eexists|]. exists 1%positive. split; [reflexivity|]. exists [("team", "a")].
    split; [done|]. split; [by apply elem_of_dom; eexists|]. by exists [("team", "a")]. }
  by split.
Qed.

Lemma d_rep : rep_pointer rep_queue_list d_mem (Some 5%positive) (Some d_value) (dom d_mem).
Proof.
  assert (rep_resource_list d_mem (Some 3%positive) (Some {["cpu" := 10%Z : @Quantity c_api]}) (dom d_mem)) as Hr.
  { split; [by apply elem_of_dom; eexists|]. exists {["cpu" := 10%Z]}. split; [reflexivity|].
    intros k. destruct (decide (k = "cpu")) as [-> | Hk]; [by rewrite !lookup_singleton_eq; constructor|].
    rewrite !lookup_singleton_ne by congruence. constructor. }
  pose proof d_rule_rep as Hrule.
  split; [by apply elem_of_dom; eexists|]. eexists. split; [reflexivity|]. split_and!; [done|done|].
  split; [by apply elem_of_dom; eexists|]. eexists. split; [reflexivity|].
  constructor; [|constructor; [|constructor]]; (split_and!; [done|done|split; [|split]|split]; done).
Qed.

(** Clearing the original's quota map leaves the copied list as it was. *)
Lemma DeepCopyObject_apart_witness :
  ∃ p' m', QueueList_DeepCopyObject (Some 5%positive) d_mem = Ret (Some (ObjQueueList p'), m')
    ∧ rep_pointer rep_queue_list (<[3%positive := BResources ∅]> m') p' (Some d_value) (dom m' ∖ dom d_mem).
Proof.
  pose proof (proj1 (proj2 (DeepCopyObject_apart d_mem (dom d_mem) (Some 5%positive) (reflexivity _))) _ d_rep) as H.
  unfold wp in H. destruct (QueueList_DeepCopyObject (Some 5%positive) d_mem) as [[o m']|]; [|destruct H].
  destruct H as (p' & [_ Hc _] & -> & _). exists p', m'. split; [reflexivity|]. apply Hc.
  intros l Hl. apply lookup_insert_ne. intros <-. apply elem_of_difference in Hl as [_ Hl]. apply Hl.
  apply elem_of_dom. vm_compute. eexists. reflexivity.
Defined.
End witnesses.
