(* ===== verification/Informers.v ===== *)
(** * Informers: the generated informer factory for [Queue] objects

    [client/informers/externalversions]: a factory hands out one shared
    informer per object type ([InformerFor]), starts each of them once
    ([StartWithContext]), waits for their caches ([WaitForCacheSync]) and shuts
    down.  The factory's mutex is held for the whole of [InformerFor] and
    [StartWithContext], for the first part of [Shutdown] and for the part of
    [WaitForCacheSyncWithContext] that picks the informers: each of these
    sections is one step, and threads interleave between them.

    Informers and clients are Kubernetes code: an informer is what
    [NewSharedIndexInformerWithOptions] got, and its transform.  Maps are
    ranged over in [map_to_list] order. *)

From stdpp Require Import base tactics option list gmap strings relations.
From Stdlib Require Import ZArith Lia.
From S2P Require Import Prelude.
From S2P Require Import Store.
From S2P Require Import Api.

(** ** The Kubernetes client library *)
Class CacheOps := {
  (** [scheduling.Interface] and its queue client's [List] and [Watch] *)
  Client : Type;
  Context : Type;
  Background : Context;
  ListOptions : Type;
  ListResult : Type;
  WatchResult : Type;
  Queues_List : Client → Context → ListOptions → ListResult;
  Queues_Watch : Client → Context → ListOptions → WatchResult;
  (** [cache.TransformFunc], [cache.InformerName], [cache.InformerNameAndResource],
      [cache.Indexers] and the indexers by namespace *)
  TransformFunc : Type;
  InformerName : Type;
  Identifier : Type;
  WithResource : option InformerName → string * string * string → Identifier;
  Indexers : Type;
  NamespaceIndexers : Indexers;
  (** [GroupVersionResource.String] *)
  GVR_String : string * string * string → string;
}.

Section informers.
Context {CO : CacheOps}.

(** ** Data *)
Definition TweakListOptionsFunc : Type := ListOptions → ListOptions.

(** [cache.ListWatch]: the functions that list and watch. *)
Record ListWatch := mkListWatch {
  ListFunc : ListOptions → ListResult;
  WatchFunc : ListOptions → WatchResult;
  ListWithContextFunc : Context → ListOptions → ListResult;
  WatchFuncWithContext : Context → ListOptions → WatchResult;
}.

(** A [cache.SharedIndexInformer], by what it was made from. *)
Record SharedIndexInformer := mkInformer {
  informer_ListWatch : ListWatch;
  informer_objType : string;
  informer_resync : Z;
  informer_indexers : Indexers;
  informer_identifier : Identifier;
  informer_transform : option TransformFunc;
}.

Definition NewInformerFunc : Type := Client → Z → SharedIndexInformer.

Record sharedInformerFactory := mkFactory {
  client : Client;
  namespace : string;
  tweakListOptions : option TweakListOptionsFunc;
  defaultResync : Z;
  customResync : gmap string Z;
  transform : option TransformFunc;
  informerName : option InformerName;
  informers : gmap string loc;
  startedInformers : gmap string bool;
  shuttingDown : bool;
}.

(** The factory, the informers made so far, the goroutines that [wg] counts, and
    all calls of [RunWithContext] so far. *)
Record fworld := mkFWorld {
  fw_factory : sharedInformerFactory;
  fw_cells : gmap loc SharedIndexInformer;
  fw_running : list (loc * Context);
  fw_runs : list (loc * Context);
  (** the names released by [Shutdown] *)
  fw_released : list (option InformerName);
}.

(** ** Construction *)
Definition SharedInformerOption : Type := sharedInformerFactory → sharedInformerFactory.

(** [for k, v := range resyncConfig]: the objects' types and periods in the
    order they are visited. *)
Definition WithCustomResyncConfig (resyncConfig : list (string * Z)) : SharedInformerOption := λ f,
  mkFactory (client f) (namespace f) (tweakListOptions f) (defaultResync f)
    (foldl (λ m '(t, v), <[t := v]> m) (customResync f) resyncConfig) (transform f) (informerName f) (informers f)
    (startedInformers f) (shuttingDown f).
Definition WithTweakListOptions (tweak : option TweakListOptionsFunc) : SharedInformerOption := λ f,
  mkFactory (client f) (namespace f) tweak (defaultResync f) (customResync f) (transform f) (informerName f) (informers f)
    (startedInformers f) (shuttingDown f).
Definition WithNamespace (ns : string) : SharedInformerOption := λ f,
  mkFactory (client f) ns (tweakListOptions f) (defaultResync f) (customResync f) (transform f) (informerName f)
    (informers f) (startedInformers f) (shuttingDown f).
Definition WithTransform (t : option TransformFunc) : SharedInformerOption := λ f,
  mkFactory (client f) (namespace f) (tweakListOptions f) (defaultResync f) (customResync f) t (informerName f)
    (informers f) (startedInformers f) (shuttingDown f).
Definition WithInformerName (name : option InformerName) : SharedInformerOption := λ f,
  mkFactory (client f) (namespace f) (tweakListOptions f) (defaultResync f) (customResync f) (transform f) name
    (informers f) (startedInformers f) (shuttingDown f).

Definition NewSharedInformerFactoryWithOptions (c : Client) (resync : Z) (options : list SharedInformerOption) :
    sharedInformerFactory :=
  foldl (λ f opt, opt f) (mkFactory c "" None resync ∅ None None ∅ ∅ false) options.
Definition NewSharedInformerFactory (c : Client) (resync : Z) : sharedInformerFactory :=
  NewSharedInformerFactoryWithOptions c resync [].
Definition NewFilteredSharedInformerFactory c resync ns (tweak : option TweakListOptionsFunc) : sharedInformerFactory :=
  NewSharedInformerFactoryWithOptions c resync [WithNamespace ns; WithTweakListOptions tweak].

(** ** The factory's operations *)
Definition set_factory (f : sharedInformerFactory) (w : fworld) : fworld :=
  mkFWorld f (fw_cells w) (fw_running w) (fw_runs w) (fw_released w).
Definition set_informers (m : gmap string loc) (f : sharedInformerFactory) : sharedInformerFactory :=
  mkFactory (client f) (namespace f) (tweakListOptions f) (defaultResync f) (customResync f) (transform f)
    (informerName f) m (startedInformers f) (shuttingDown f).
Definition set_started (m : gmap string bool) (f : sharedInformerFactory) : sharedInformerFactory :=
  mkFactory (client f) (namespace f) (tweakListOptions f) (defaultResync f) (customResync f) (transform f)
    (informerName f) (informers f) m (shuttingDown f).
Definition set_shuttingDown (f : sharedInformerFactory) : sharedInformerFactory :=
  mkFactory (client f) (namespace f) (tweakListOptions f) (defaultResync f) (customResync f) (transform f)
    (informerName f) (informers f) (startedInformers f) true.

Definition new_cell (x : SharedIndexInformer) : st fworld loc := λ w,
  let i := fresh (dom (fw_cells w)) in
  Ret (i, mkFWorld (fw_factory w) (<[i := x]> (fw_cells w)) (fw_running w) (fw_runs w) (fw_released w)).
Definition SetTransform (i : loc) (t : TransformFunc) : st fworld unit :=
  st_modify (λ w, mkFWorld (fw_factory w)
    (alter (λ x, mkInformer (informer_ListWatch x) (informer_objType x) (informer_resync x) (informer_indexers x)
      (informer_identifier x) (Some t)) i (fw_cells w)) (fw_running w) (fw_runs w) (fw_released w)).

Definition InformerFor (informerType : string) (newFunc : NewInformerFunc) : st fworld loc :=
  w ← st_get; let f := fw_factory w in
  match informers f !! informerType with
  | Some informer => mret informer
  | None =>
      let resyncPeriod := default (defaultResync f) (customResync f !! informerType) in
      informer ← new_cell (newFunc (client f) resyncPeriod);
      match transform f with Some t => SetTransform informer t | None => mret tt end ;;
      st_modify (λ w, set_factory (set_informers (<[informerType := informer]> (informers (fw_factory w))) (fw_factory w)) w) ;;
      mret informer
  end.

(** [f.wg.Go(func() { informer.RunWithContext(ctx) })] *)
Definition wg_Go (i : loc) (ctx : Context) : st fworld unit :=
  st_modify (λ w, mkFWorld (fw_factory w) (fw_cells w) ((i, ctx) :: fw_running w) ((i, ctx) :: fw_runs w) (fw_released w)).
Definition is_started (f : sharedInformerFactory) (t : string) : bool := default false (startedInformers f !! t).

Definition start_one (ctx : Context) (item : string * loc) : st fworld unit :=
  w ← st_get;
  if is_started (fw_factory w) item.1 then mret tt else
  wg_Go item.2 ctx ;;
  st_modify (λ w, set_factory (set_started (<[item.1 := true]> (startedInformers (fw_factory w))) (fw_factory w)) w).

Definition StartWithContext (ctx : Context) : st fworld unit :=
  w ← st_get; let f := fw_factory w in
  if shuttingDown f then mret tt else st_for (map_to_list (informers f)) (start_one ctx).

(** [Shutdown] up to [wg.Wait], which returns when no goroutine runs. *)
Definition Shutdown_mark : st fworld unit :=
  st_modify (λ w, set_factory (set_shuttingDown (fw_factory w)) w).
Definition wg_Wait_returns (w : fworld) : Prop := fw_running w = [].
(** ... and after it: [f.informerName.Release()]. *)
Definition Shutdown_finish : st fworld unit :=
  st_modify (λ w, mkFWorld (fw_factory w) (fw_cells w) (fw_running w) (fw_runs w)
    (informerName (fw_factory w) :: fw_released w)).

(** The informers that [WaitForCacheSyncWithContext] waits for. *)
Definition waited_informers (w : fworld) : gmap string loc :=
  foldl (λ m '(t, i), if is_started (fw_factory w) t then <[t := i]> m else m) ∅ (map_to_list (informers (fw_factory w))).

(** The result, given what [HasSynced] answers after the wait and the cause of
    the context. *)
Definition SyncResult : Type := gmap string bool * option go_error.
Definition sync_body (HasSynced : loc → bool) (r : gmap string bool * bool) (item : string * loc) : gmap string bool * bool :=
  let hasSynced := HasSynced item.2 in
  (<[item.1 := hasSynced]> r.1, if negb hasSynced then true else r.2).
Definition sync_result (waited : gmap string loc) (HasSynced : loc → bool) (cause : go_error) : SyncResult :=
  let '(synced, failed) := foldl (sync_body HasSynced) (∅, false) (map_to_list waited) in
  (synced, if failed : bool then Some cause else None).

(** ** The queue informer *)
Record InformerOptions := mkInformerOptions {
  ResyncPeriod : Z;
  opt_Indexers : Indexers;
  opt_InformerName : option InformerName;
  TweakListOptions : option TweakListOptionsFunc;
}.

Definition tweaked (tweak : option TweakListOptionsFunc) (opts : ListOptions) : ListOptions :=
  match tweak with Some t => t opts | None => opts end.

Definition NewQueueInformerWithOptions (c : Client) (options : InformerOptions) : SharedIndexInformer :=
  let gvr := ("scheduling", "v1", "queues") in
  let identifier := WithResource (opt_InformerName options) gvr in
  let tweak := TweakListOptions options in
  mkInformer
    (mkListWatch (λ opts, Queues_List c Background (tweaked tweak opts))
       (λ opts, Queues_Watch c Background (tweaked tweak opts))
       (λ ctx opts, Queues_List c ctx (tweaked tweak opts))
       (λ ctx opts, Queues_Watch c ctx (tweaked tweak opts)))
    "*v1.Queue" (ResyncPeriod options) (opt_Indexers options) identifier None.

(** [&queueInformer{factory, tweakListOptions}]; the factory is the one of the
    world.  [Scheduling().V1().Queues()] passes the factory's options down. *)
Record queueInformer := mkQueueInformer { qi_tweak : option TweakListOptionsFunc }.
Record version := mkVersion { version_namespace : string; version_tweak : option TweakListOptionsFunc }.
Record group := mkGroup { group_namespace : string; group_tweak : option TweakListOptionsFunc }.
Definition Scheduling (f : sharedInformerFactory) : group := mkGroup (namespace f) (tweakListOptions f).
Definition V1 (g : group) : version := mkVersion (group_namespace g) (group_tweak g).
Definition Queues (v : version) : queueInformer := mkQueueInformer (version_tweak v).

Definition defaultInformer (q : queueInformer) (name : option InformerName) : NewInformerFunc := λ c resyncPeriod,
  NewQueueInformerWithOptions c (mkInformerOptions resyncPeriod NamespaceIndexers name (qi_tweak q)).
Definition queueInformer_Informer (q : queueInformer) : st fworld loc :=
  w ← st_get; InformerFor "*v1.Queue" (defaultInformer q (informerName (fw_factory w))).

(** [ForResource]: the informer of a known resource. *)
Definition ForResource (resource : string * string * string) : st fworld ((loc * (string * string)) + go_error) :=
  if decide (resource = (GroupName, Version, "queues")) then
    w ← st_get;
    i ← queueInformer_Informer (Queues (V1 (Scheduling (fw_factory w))));
    mret (inl (i, (resource.1.1, resource.2)))
  else mret (inr (ErrNew ("no informer found for " +:+ GVR_String resource))).
End informers.

(** ** The factory as a state machine *)
Section machine.
Context {CO : CacheOps}.
Implicit Types (w : fworld) (f : sharedInformerFactory).

(** One step of some thread: a locked section, the end of [Shutdown], or the
    end of an informer's goroutine. *)
Inductive fstep : fworld → fworld → Prop :=
| fs_InformerFor t newFunc i w w' : InformerFor t newFunc w = Ret (i, w') → fstep w w'
| fs_Start ctx w w' : StartWithContext ctx w = Ret (tt, w') → fstep w w'
| fs_Shutdown w w' : Shutdown_mark w = Ret (tt, w') → fstep w w'
| fs_Shutdown_finish w w' : wg_Wait_returns w → Shutdown_finish w = Ret (tt, w') → fstep w w'
| fs_exit w l1 r l2 :
    fw_running w = l1 ++ r :: l2 →
    fstep w (mkFWorld (fw_factory w) (fw_cells w) (l1 ++ l2) (fw_runs w) (fw_released w)).

(** A factory as the constructors leave it, with any of the options. *)
Definition option_ok (opt : SharedInformerOption) : Prop :=
  ∀ f, informers (opt f) = informers f ∧ startedInformers (opt f) = startedInformers f ∧ shuttingDown (opt f) = shuttingDown f.

Definition fstart (c : Client) (resync : Z) (options : list SharedInformerOption) : fworld :=
  mkFWorld (NewSharedInformerFactoryWithOptions c resync options) ∅ [] [] [].

Lemma options_ok cfg tweak ns t name :
  Forall option_ok [WithCustomResyncConfig cfg; WithTweakListOptions tweak; WithNamespace ns; WithTransform t; WithInformerName name].
Proof. repeat constructor. Qed.

Record factory_inv w : Prop := mkFactoryInv {
  fi_cells t i : informers (fw_factory w) !! t = Some i → is_Some (fw_cells w !! i);
  fi_inj t1 t2 i : informers (fw_factory w) !! t1 = Some i → informers (fw_factory w) !! t2 = Some i → t1 = t2;
  fi_runs i : i ∈ (fw_runs w).*1 ↔ ∃ t, informers (fw_factory w) !! t = Some i ∧ is_started (fw_factory w) t = true;
  fi_known t : is_started (fw_factory w) t = true → is_Some (informers (fw_factory w) !! t);
  fi_once : NoDup (fw_runs w).*1;
  fi_running : fw_running w ⊆+ fw_runs w;
}.

Lemma fstart_inv c resync options : Forall option_ok options → factory_inv (fstart c resync options).
Proof.
  intros Hopts. unfold fstart, NewSharedInformerFactoryWithOptions.
  set (f0 := mkFactory c "" None resync ∅ None None ∅ ∅ false).
  assert (informers (foldl (λ f opt, opt f) f0 options) = ∅
    ∧ startedInformers (foldl (λ f opt, opt f) f0 options) = ∅) as [Hi Hs].
  { assert (informers f0 = ∅ ∧ startedInformers f0 = ∅) as H0 by done. revert H0. generalize f0. clear f0.
    induction Hopts as [|opt opts Hopt _ IH]; intros f [Hi Hs]; [done|]. apply IH.
    destruct (Hopt f) as (-> & -> & _). done. }
  split; cbn [fw_factory fw_cells fw_runs fw_running]; unfold is_started; rewrite ?Hi, ?Hs.
  - intros t i. by rewrite lookup_empty.
  - intros t1 t2 i. by rewrite lookup_empty.
  - intros i. split; [by intros ?%elem_of_nil|]. intros (t & ? & _). by rewrite lookup_empty in *.
  - intros t. by rewrite lookup_empty.
  - constructor.
  - done.
Qed.

(** *** InformerFor *)
Definition configured w (newFunc : NewInformerFunc) (t : string) : SharedIndexInformer :=
  let f := fw_factory w in
  let x := newFunc (client f) (default (defaultResync f) (customResync f !! t)) in
  match transform f with
  | Some tr => mkInformer (informer_ListWatch x) (informer_objType x) (informer_resync x) (informer_indexers x)
                 (informer_identifier x) (Some tr)
  | None => x
  end.

Lemma InformerFor_spec t newFunc w :
  wp (InformerFor t newFunc) (λ i w', match informers (fw_factory w) !! t with
    | Some i' => i = i' ∧ w' = w
    | None => fw_cells w !! i = None
        ∧ w' = mkFWorld (set_informers (<[t := i]> (informers (fw_factory w))) (fw_factory w))
            (<[i := configured w newFunc t]> (fw_cells w)) (fw_running w) (fw_runs w) (fw_released w)
    end) w.
Proof.
  unfold InformerFor. rewrite wp_bind, wp_get. cbv zeta.
  destruct (informers (fw_factory w) !! t) as [i|] eqn:E; [by apply wp_ret|].
  rewrite wp_bind. unfold new_cell, wp at 1. cbv zeta. set (i := fresh (dom (fw_cells w))).
  assert (fw_cells w !! i = None) as Hi by (apply not_elem_of_dom, is_fresh).
  unfold configured. rewrite wp_bind. destruct (transform (fw_factory w)) as [tr|]; unfold SetTransform.
  - rewrite wp_modify, wp_bind, wp_modify, wp_ret. split; [done|]. unfold set_factory.
    cbn [fw_factory fw_cells fw_running fw_runs fw_released]. f_equal. apply map_eq. intros j.
    rewrite lookup_alter, !lookup_insert. by repeat case_decide.
  - rewrite wp_ret, wp_bind, wp_modify, wp_ret. by split.
Qed.

Lemma InformerFor_again t i w newFunc :
  informers (fw_factory w) !! t = Some i → InformerFor t newFunc w = Ret (i, w).
Proof. intros Hi. unfold InformerFor, mbind, st_bind, st_get. cbn beta iota zeta. by rewrite Hi. Qed.

Lemma new_informer_inv w t i x :
  factory_inv w → informers (fw_factory w) !! t = None → fw_cells w !! i = None →
  factory_inv (mkFWorld (set_informers (<[t := i]> (informers (fw_factory w))) (fw_factory w))
    (<[i := x]> (fw_cells w)) (fw_running w) (fw_runs w) (fw_released w)).
Proof.
  intros [H1 H2 H3 H4 H5 H6] Ht Hi. assert (∀ t', informers (fw_factory w) !! t' ≠ Some i) as Hno.
  { intros t' Ht'. destruct (H1 _ _ Ht') as [c Hc]. congruence. }
  split; cbn [fw_factory fw_cells fw_runs fw_running informers set_informers]; [..|done|done].
  - intros t' i' Hl. rewrite lookup_insert. case_decide as Hd; [by eexists|].
    rewrite lookup_insert in Hl. case_decide; [congruence|]. by apply (H1 t').
  - intros t1 t2 i'. rewrite !lookup_insert. repeat case_decide; intros; simplify_eq; try done; [by exfalso; eapply Hno..|].
    by eapply H2.
  - intros i'. rewrite H3. unfold is_started. cbn [startedInformers set_informers]. split; intros (t' & Ht' & Hs); exists t'.
    + rewrite lookup_insert_ne by congruence. done.
    + rewrite lookup_insert in Ht'. case_decide; [|done]. subst t'. destruct (H4 t Hs). congruence.
  - intros t' Hs. rewrite lookup_insert. case_decide; [by eexists|]. by apply H4.
Qed.

(** *** StartWithContext *)
Record start_post ctx (ts : list string) w w' : Prop := mkStartPost {
  sp_inv : factory_inv w';
  sp_informers : informers (fw_factory w') = informers (fw_factory w);
  sp_cells : fw_cells w' = fw_cells w;
  sp_shutting : shuttingDown (fw_factory w') = shuttingDown (fw_factory w);
  sp_started t : is_started (fw_factory w') t = true ↔ is_started (fw_factory w) t = true ∨ t ∈ ts;
  sp_runs : ∃ new, fw_runs w' = new ++ fw_runs w ∧ fw_running w' = new ++ fw_running w ∧ ∀ r, r ∈ new → r.2 = ctx;
}.

Lemma is_started_insert m f t t' :
  is_started (set_started (<[t := true]> m) f) t' = true ↔ t' = t ∨ default false (m !! t') = true.
Proof.
  unfold is_started. cbn [startedInformers set_started]. rewrite lookup_insert.
  case_decide; naive_solver.
Qed.

Lemma start_one_spec ctx t i w :
  factory_inv w → informers (fw_factory w) !! t = Some i →
  wp (start_one ctx (t, i)) (λ _ w', start_post ctx [t] w w') w.
Proof.
  intros Hinv Ht. unfold start_one. rewrite wp_bind, wp_get. cbn [fst snd].
  destruct (is_started (fw_factory w) t) eqn:Es.
  { apply wp_ret. split; [done..| |].
    - intros t'. rewrite list_elem_of_singleton. split; [auto|]. by intros [? | ->].
    - exists []. split_and!; [done..|]. by intros r ?%elem_of_nil. }
  unfold wg_Go. rewrite wp_bind, wp_modify, wp_modify. destruct Hinv as [H1 H2 H3 H4 H5 H6].
  unfold set_factory. cbn [fw_factory fw_cells fw_running fw_runs fw_released]. split;
    cbn [fw_factory fw_cells fw_running fw_runs fw_released informers shuttingDown set_started]; [|done..| |].
  - split; cbn [fw_factory fw_cells fw_running fw_runs fw_released informers set_started]; [done|done| | | |].
    + intros j. rewrite fmap_cons, elem_of_cons, H3. cbn [fst]. setoid_rewrite is_started_insert. split.
      * intros [-> | (t' & ? & ?)]; [by exists t; auto|]. exists t'. auto.
      * intros (t' & Ht' & [-> | Hs]); [left; congruence|]. right. by exists t'.
    + intros t'. rewrite is_started_insert. intros [-> | Hs]; [by eexists|by apply H4].
    + rewrite fmap_cons. constructor; [|done]. cbn [fst]. rewrite H3. intros (t' & Ht' & Hs).
      assert (t' = t) as -> by by apply (H2 _ _ i). congruence.
    + by constructor.
  - intros t'. rewrite is_started_insert, list_elem_of_singleton. unfold is_started. tauto.
  - exists [(i, ctx)]. split_and!; [done..|]. by intros r ->%list_elem_of_singleton.
Qed.

Lemma start_all_spec ctx l : ∀ w,
  factory_inv w → (∀ t i, (t, i) ∈ l → informers (fw_factory w) !! t = Some i) →
  wp (st_for l (start_one ctx)) (λ _ w', start_post ctx l.*1 w w') w.
Proof.
  induction l as [|[t i] l IH]; intros w Hinv Hl; cbn [st_for].
  { apply wp_ret. split; [done..| |].
    - intros t. split; [auto|]. by intros [?| ?%elem_of_nil].
    - exists []. split_and!; [done..|]. by intros r ?%elem_of_nil. }
  apply wp_bind. eapply wp_mono; [apply start_one_spec; [done|apply Hl; by left]|].
  intros [] w1 [Hi1 Hf1 Hc1 Hs1 Hst1 (n1 & Hr1 & Hg1 & Hn1)].
  eapply wp_mono; [apply IH; [done|]|].
  { intros t' i' Hin. rewrite Hf1. apply Hl. by right. }
  intros [] w2 [Hi2 Hf2 Hc2 Hs2 Hst2 (n2 & Hr2 & Hg2 & Hn2)]. split; [done|congruence..| |].
  - intros t'. rewrite Hst2, Hst1, list_elem_of_singleton, fmap_cons, elem_of_cons. cbn [fst]. tauto.
  - exists (n2 ++ n1). rewrite Hr2, Hr1, Hg2, Hg1, !(assoc_L (++)). split_and!; [done..|].
    intros r [?|?]%elem_of_app; auto.
Qed.

Lemma StartWithContext_spec ctx w :
  factory_inv w →
  wp (StartWithContext ctx) (λ _ w', if shuttingDown (fw_factory w) then w' = w
    else start_post ctx (map_to_list (informers (fw_factory w))).*1 w w') w.
Proof.
  intros Hinv. unfold StartWithContext. rewrite wp_bind, wp_get. cbv zeta.
  destruct (shuttingDown (fw_factory w)) eqn:E; [by apply wp_ret|]. apply start_all_spec; [done|].
  intros t i. by rewrite elem_of_map_to_list.
Qed.

(** *** Every step *)
(** What a step can change: informers are only added, and once the factory is
    shutting down nothing is started any more. *)
Record factory_later w w' : Prop := mkFactoryLater {
  fl_informers : informers (fw_factory w) ⊆ informers (fw_factory w');
  fl_shutting : shuttingDown (fw_factory w) = true → shuttingDown (fw_factory w') = true
    ∧ fw_runs w' = fw_runs w ∧ fw_running w' ⊆+ fw_running w;
}.

Lemma factory_later_refl w : factory_later w w.
Proof. by repeat split. Qed.

Lemma fstep_inv w w' : factory_inv w → fstep w w' → factory_inv w' ∧ factory_later w w'.
Proof.
  intros Hinv Hstep. destruct Hstep as [t newFunc i w w' Hc|ctx w w' Hc|w w' Hc|w w' Hw Hc|w l1 r l2 Hl].
  - pose proof (InformerFor_spec t newFunc w) as H. unfold wp in H. rewrite Hc in H.
    destruct (informers (fw_factory w) !! t) eqn:Et; [destruct H as [_ ->]; split; [done|apply factory_later_refl]|].
    destruct H as [Hi ->]. split; [by apply new_informer_inv|]. split; [by apply insert_subseteq|done].
  - pose proof (StartWithContext_spec ctx w Hinv) as H. unfold wp in H. rewrite Hc in H.
    destruct (shuttingDown (fw_factory w)) eqn:Es; [subst w'; split; [done|apply factory_later_refl]|]. split; [apply H|].
    destruct H as [_ Hf _ _ _ _]. split; [by rewrite Hf|congruence].
  - injection Hc as <-. split; [by destruct Hinv|]. by split.
  - injection Hc as <-. split; [by destruct Hinv|]. by split.
  - assert (l1 ++ l2 ⊆+ fw_running w) as Hsub.
    { rewrite Hl. apply submseteq_app; [done|]. by apply submseteq_cons. }
    split; [|by split]. destruct Hinv as [H1 H2 H3 H4 H5 H6]. split; try done. by etrans.
Qed.

Lemma fsteps_inv w w' : factory_inv w → rtc fstep w w' → factory_inv w' ∧ factory_later w w'.
Proof.
  intros Hinv Hs. induction Hs as [w|w w1 w2 H1 _ IH]; [split; [done|apply factory_later_refl]|].
  destruct (fstep_inv w w1 Hinv H1) as [Hinv1 [Hf1 Hs1]]. destruct (IH Hinv1) as [Hinv2 [Hf2 Hs2]].
  split; [done|]. split; [by etrans|]. intros Hd. destruct (Hs1 Hd) as (Hd1 & Hu1 & Hr1).
  destruct (Hs2 Hd1) as (Hd2 & Hu2 & Hr2). split_and!; [done|congruence|by etrans].
Qed.

(** *** WaitForCacheSync *)
Lemma filter_fold (P : string → bool) (l : list (string * loc)) (m : gmap string loc) :
  NoDup l.*1 → (∀ t, t ∈ l.*1 → m !! t = None) →
  foldl (λ m '(t, i), if P t then <[t := i]> m else m) m l = filter (λ p, P p.1 = true) (list_to_map l) ∪ m.
Proof.
  revert m. induction l as [|[t i] l IH]; intros m Hnd Hm; cbn [foldl list_to_map foldr].
  { by rewrite map_filter_empty, (left_id_L ∅ _). }
  rewrite fmap_cons in Hnd. apply NoDup_cons in Hnd as [Ht Hnd]. cbn [fst] in Ht.
  assert (list_to_map l !! t = (None : option loc)) as Hl by by apply not_elem_of_list_to_map_1.
  cbn [fst snd uncurry]. destruct (P t) eqn:E.
  - rewrite IH; [|done|].
    + rewrite map_filter_insert_True by done. rewrite <- insert_union_r by by rewrite map_lookup_filter, Hl.
      apply insert_union_l.
    + intros t' Hin. rewrite lookup_insert_ne by set_solver. apply Hm. set_solver.
  - rewrite IH; [|done|intros t' Hin; apply Hm; set_solver].
    rewrite map_filter_insert_False by (cbn [fst]; congruence). by rewrite delete_id.
Qed.

Lemma waited_informers_eq w :
  waited_informers w = filter (λ p, is_started (fw_factory w) p.1 = true) (informers (fw_factory w)).
Proof.
  unfold waited_informers. rewrite (filter_fold (is_started (fw_factory w))).
  - by rewrite list_to_map_to_list, (right_id_L ∅ _).
  - apply NoDup_fst_map_to_list.
  - intros t _. apply lookup_empty.
Qed.

Lemma sync_loop_spec (HasSynced : loc → bool) l : ∀ r,
  NoDup l.*1 →
  let r' := foldl (sync_body HasSynced) r l in
  (∀ t, r'.1 !! t = match list_to_map (M := gmap string loc) l !! t with Some i => Some (HasSynced i) | None => r.1 !! t end)
  ∧ (r'.2 = true ↔ r.2 = true ∨ ∃ t i, (t, i) ∈ l ∧ HasSynced i = false).
Proof.
  induction l as [|[t i] l IH]; intros r Hnd; cbn [foldl].
  { split; [done|]. split; [auto|]. intros [?|(? & ? & ?%elem_of_nil & _)]; done. }
  rewrite fmap_cons in Hnd. apply NoDup_cons in Hnd as [Ht Hnd]. cbn [fst] in Ht.
  destruct (IH (sync_body HasSynced r (t, i)) Hnd) as [H1 H2]. split.
  - intros t'. rewrite H1. cbn [list_to_map foldr sync_body fst snd uncurry]. rewrite !lookup_insert.
    destruct (decide (t = t')) as [<- |]; [|done]. apply not_elem_of_list_to_map_1 in Ht. by rewrite Ht.
  - rewrite H2. cbn [sync_body fst snd]. destruct (HasSynced i) eqn:E; cbn [negb].
    + split; [intros [?|(t' & i' & Hin & Hf)]; [by left|right; exists t', i'; split; [by right|done]]|].
      intros [?|(t' & i' & [[= -> ->]|Hin]%elem_of_cons & Hf)]; [by left|congruence|right; by exists t', i'].
    + split; [intros _; right; exists t, i; split; [by left|done]|by left].
Qed.

Lemma sync_result_spec waited HasSynced cause :
  let r := sync_result waited HasSynced cause in
  r.1 = HasSynced <$> waited
  ∧ r.2 = (if r.2 is Some _ then Some cause else None)
  ∧ (r.2 = None ↔ ∀ t i, waited !! t = Some i → HasSynced i = true).
Proof.
  unfold sync_result. destruct (sync_loop_spec HasSynced (map_to_list waited) (∅, false) (NoDup_fst_map_to_list _)) as [H1 H2].
  destruct (foldl _ (∅, false) _) as [synced failed].
  cbn [fst snd] in *. split_and!.
  - apply map_eq. intros t. rewrite H1, list_to_map_to_list, lookup_fmap. by destruct (waited !! t).
  - by destruct failed.
  - setoid_rewrite elem_of_map_to_list in H2. destruct failed.
    + split; [done|]. intros Hall. destruct (proj1 H2 eq_refl) as [?|(t & i & Hi & Hf)]; [done|].
      by rewrite (Hall t i Hi) in Hf.
    + split; [|done]. intros _ t i Hi. destruct (HasSynced i) eqn:Hs; [done|].
      exfalso. assert (false = true); [|done]. apply H2. right. by exists t, i.
Qed.

(** ** Properties *)
(** C25: at any moment of any concurrent use of a factory, each informer has
    been run at most once, and exactly the informers of started types have been
    run; an object type keeps the informer it was first given; after [Shutdown]
    has begun nothing is started any more, so once its wait is over no informer
    runs or ever will. *)
Theorem factory_runs_once c resync options w :
  Forall option_ok options → rtc fstep (fstart c resync options) w →
  NoDup (fw_runs w).*1
  ∧ (∀ r, r ∈ fw_running w → r ∈ fw_runs w)
  ∧ (∀ t i, informers (fw_factory w) !! t = Some i → (i ∈ (fw_runs w).*1 ↔ is_started (fw_factory w) t = true))
  ∧ ∀ w', rtc fstep w w' →
      (∀ t i, informers (fw_factory w) !! t = Some i → informers (fw_factory w') !! t = Some i)
      ∧ (shuttingDown (fw_factory w) = true → fw_runs w' = fw_runs w
         ∧ (wg_Wait_returns w → wg_Wait_returns w')).
Proof.
  intros Hopts Hs. destruct (fsteps_inv _ _ (fstart_inv c resync options Hopts) Hs) as [Hinv _].
  pose proof Hinv as [_ Hinj Hruns _ Honce Hrunning]. split_and!; [done| | |].
  - intros r Hr. by eapply elem_of_submseteq.
  - intros t i Hi. rewrite Hruns. split; [|by exists t]. intros (t' & Hi' & Ht'). by rewrite (Hinj t t' i).
  - intros w' Hs'. destruct (fsteps_inv w w' Hinv Hs') as [_ [Hsub Hd]]. split.
    + intros t i Hi. by eapply lookup_weaken.
    + intros Hsd. destruct (Hd Hsd) as (_ & Hr & Hrun). split; [done|]. unfold wg_Wait_returns. intros Hn.
      rewrite Hn in Hrun. by apply submseteq_nil_r in Hrun.
Qed.

(** [Start] runs, with its context, exactly the registered informers that
    were not running, and then [WaitForCacheSync] waits for every registered
    informer and reports for each whether it has synced, with an error exactly
    when one has not.  On a factory that is shutting down [Start] does
    nothing. *)
Theorem Start_WaitForCacheSync c resync options w ctx :
  Forall option_ok options → rtc fstep (fstart c resync options) w →
  wp (StartWithContext ctx) (λ _ w',
    if shuttingDown (fw_factory w) then w' = w
    else waited_informers w' = informers (fw_factory w)
      ∧ (∃ new, fw_runs w' = new ++ fw_runs w ∧ (∀ r, r ∈ new → r.2 = ctx)
         ∧ ∀ i, i ∈ new.*1 ↔ (i ∉ (fw_runs w).*1) ∧ ∃ t, informers (fw_factory w) !! t = Some i)
      ∧ ∀ HasSynced cause, let r := sync_result (waited_informers w') HasSynced cause in
          r.1 = HasSynced <$> informers (fw_factory w)
          ∧ (r.2 = None ↔ ∀ t i, informers (fw_factory w) !! t = Some i → HasSynced i = true)) w.
Proof.
  intros Hopts Hs. destruct (fsteps_inv _ _ (fstart_inv c resync options Hopts) Hs) as [Hinv _].
  eapply wp_mono; [by apply StartWithContext_spec|]. intros [] w' Hp.
  destruct (shuttingDown (fw_factory w)); [done|]. destruct Hp as [Hinv' Hf Hc Hsd Hst (new & Hr & Hg & Hn)].
  assert (∀ t, is_Some (informers (fw_factory w) !! t) → is_started (fw_factory w') t = true) as Hall.
  { intros t [i Hi]. apply Hst. right. apply list_elem_of_fmap. exists (t, i). by rewrite elem_of_map_to_list. }
  assert (waited_informers w' = informers (fw_factory w)) as Hw.
  { rewrite waited_informers_eq, Hf. apply map_filter_id. intros t i Hi. apply Hall. by eexists. }
  split_and!; [done| |].
  - exists new. split_and!; [done..|]. intros i. pose proof (fi_runs w' Hinv' i) as Hi. rewrite Hr, fmap_app, elem_of_app, Hf in Hi.
    pose proof (fi_once w' Hinv') as Hnd. rewrite Hr, fmap_app in Hnd. apply NoDup_app in Hnd as (_ & Hdis & _). split.
    + intros Hin. split; [by apply Hdis|]. destruct (proj1 Hi (or_introl Hin)) as (t & ? & _). by exists t.
    + intros (Hno & t & Ht). destruct (proj2 Hi) as [?|?]; [|done|done]. exists t. split; [done|]. apply Hall. by eexists.
  - intros HasSynced cause. rewrite Hw. destruct (sync_result_spec (informers (fw_factory w)) HasSynced cause) as (? & _ & ?).
    done.
Qed.

(** [InformerFor] gives the type's informer, or makes it: with the factory's
    client, the type's custom resync period or else the default one, and the
    factory's transform; asking again gives the same one.  [ForResource] knows
    queues only and gives the informer that [Scheduling().V1().Queues()] gives,
    which lists queues with the factory's client and list options. *)
Theorem InformerFor_shared t newFunc w gvr :
  let queues := Queues (V1 (Scheduling (fw_factory w))) in
  wp (InformerFor t newFunc) (λ i w',
    informers (fw_factory w') !! t = Some i
    ∧ (is_Some (informers (fw_factory w) !! t) → w' = w)
    ∧ (informers (fw_factory w) !! t = None → fw_cells w !! i = None ∧ fw_cells w' = <[i := configured w newFunc t]> (fw_cells w))
    ∧ ∀ newFunc', InformerFor t newFunc' w' = Ret (i, w')) w
  ∧ wp (ForResource gvr) (λ r w', match r with
      | inl (i, _) => gvr = (GroupName, Version, "queues") ∧ queueInformer_Informer queues w = Ret (i, w')
      | inr _ => gvr ≠ (GroupName, Version, "queues") ∧ w' = w
      end) w
  ∧ ∀ name opts,
      ListFunc (informer_ListWatch (configured w (defaultInformer queues name) t)) opts
      = Queues_List (client (fw_factory w)) Background (tweaked (tweakListOptions (fw_factory w)) opts).
Proof.
  intros queues. split_and!.
  - eapply wp_mono; [apply InformerFor_spec|]. intros i w' H.
    destruct (informers (fw_factory w) !! t) as [i'|] eqn:E.
    + destruct H as [-> ->]. split_and!; [done|done|done|intros; by apply InformerFor_again].
    + destruct H as [Hi ->]. cbn [fw_factory fw_cells informers set_informers].
      assert (<[t := i]> (informers (fw_factory w)) !! t = Some i) as Hl by apply lookup_insert_eq.
      split_and!; [done|by intros []|done|intros; by apply InformerFor_again].
  - unfold ForResource. case_decide as Hg; [|by apply wp_ret]. rewrite wp_bind, wp_get, wp_bind. fold queues.
    eapply wp_mono; [apply wp_result; apply InformerFor_spec|].
    intros i w' [_ Hr]. by apply wp_ret.
  - intros name opts. unfold configured. by destruct (transform (fw_factory w)).
Qed.

(** The queue informer's requests go through its client with the tweaked list
    options, and its metrics are under the group "scheduling" (the API group is
    [GroupName]). *)
Lemma NewQueueInformer_requests c options :
  let x := NewQueueInformerWithOptions c options in
  (∀ opts, ListFunc (informer_ListWatch x) opts = Queues_List c Background (tweaked (TweakListOptions options) opts))
  ∧ (∀ ctx opts, WatchFuncWithContext (informer_ListWatch x) ctx opts = Queues_Watch c ctx (tweaked (TweakListOptions options) opts))
  ∧ informer_resync x = ResyncPeriod options
  ∧ informer_identifier x = WithResource (opt_InformerName options) ("scheduling", "v1", "queues")
  ∧ GroupName ≠ "scheduling".
Proof. done. Qed.

End machine.

(** ** A concrete factory
    The synchronizer's use: the queue informer is made, the factory is started
    and then shut down while the informer still runs. *)
Section witnesses.
#[local] Instance c_cache : CacheOps := {|
  Client := string; Context := string; Background := "background"; ListOptions := string;
  ListResult := string * string * string; WatchResult := string * string * string;
  Queues_List c ctx opts := (c, ctx, opts); Queues_Watch c ctx opts := (c, ctx, opts);
  TransformFunc := string; InformerName := string; Identifier := string;
  WithResource name gvr := gvr.2; Indexers := string; NamespaceIndexers := "namespace";
  GVR_String gvr := gvr.2;
|}.

Definition i_w0 : fworld := fstart ("client" : @Client c_cache) 0 [].
Definition i_step {A} (m : st fworld A) (w : fworld) : fworld := match m w with Ret (_, w') => w' | Panic => w end.
Definition i_w1 : fworld := i_step (InformerFor "*v1.Queue" (defaultInformer (mkQueueInformer None) None)) i_w0.
Definition i_w2 : fworld := i_step (StartWithContext ("ctx" : @Context c_cache)) i_w1.
Definition i_w3 : fworld := i_step Shutdown_mark i_w2.

Lemma i_steps1 : rtc fstep i_w0 i_w1.
Proof.
  eapply rtc_once, (fs_InformerFor "*v1.Queue" (defaultInformer (mkQueueInformer None) None) 1%positive). reflexivity.
Qed.

Lemma i_steps3 : rtc fstep i_w0 i_w3.
Proof.
  etrans; [exact i_steps1|].
  eapply (rtc_l _ _ i_w2); [eapply (fs_Start (CO := c_cache) "ctx"); reflexivity|].
  eapply rtc_once, fs_Shutdown. reflexivity.
Qed.

Lemma factory_runs_once_witness :
  fw_runs i_w3 = [(1%positive, "ctx" : @Context c_cache)] ∧ NoDup (fw_runs i_w3).*1
  ∧ ∀ w', rtc fstep i_w3 w' → fw_runs w' = [(1%positive, "ctx" : @Context c_cache)].
Proof.
  destruct (factory_runs_once ("client" : @Client c_cache) 0 [] i_w3 (List.Forall_nil _) i_steps3) as (H1 & _ & _ & H2).
  split; [reflexivity|]. split; [exact H1|]. intros w' Hs. exact (proj1 (proj2 (H2 w' Hs) eq_refl)).
Defined.

Lemma Start_WaitForCacheSync_witness :
  ∃ w', StartWithContext ("ctx" : @Context c_cache) i_w1 = Ret (tt, w')
    ∧ waited_informers w' = {[ "*v1.Queue" := 1%positive ]}
    ∧ (sync_result (waited_informers w') (λ _, true) (ErrNew "canceled")).2 = None.
Proof.
  pose proof (Start_WaitForCacheSync ("client" : @Client c_cache) 0 [] i_w1 ("ctx" : @Context c_cache) (List.Forall_nil _) i_steps1) as H.
  unfold wp in H. destruct (StartWithContext ("ctx" : @Context c_cache) i_w1) as [[[] w']|]; [|destruct H].
  exists w'. cbn iota in H. destruct H as (H1 & _ & H2). split; [reflexivity|]. split; [exact H1|].
  apply (H2 (λ _, true) (ErrNew "canceled")). reflexivity.
Defined.
End witnesses.
