(* ===== verification/Clients.v ===== *)
(** * Clients: the generated clientset

    [client/clientset/scheduling]: the clientset for a REST configuration is a
    typed client for queues and a discovery client that share one HTTP client
    and one rate limiter.  A [rest.Config] is a value, copied where the code
    copies it; the fields that are not read here are one opaque field.  [QPS]
    is a [float32], compared as in [SpecFloat].  Building REST, HTTP and
    discovery clients is Kubernetes code. *)

From stdpp Require Import base tactics option list strings.
From Stdlib Require Import ZArith Lia Floats.SpecFloat.
From S2P Require Import Prelude.
From S2P Require Import Api.

Class RestTypes := {
  HttpClient : Type;
  RestClient : Type;
  DiscoveryClient : Type;
  (** [flowcontrol.RateLimiter] *)
  RateLimiter : Type;
  (** [runtime.NegotiatedSerializer] *)
  Serializer : Type;
  (** the other fields of [rest.Config] *)
  ConfigRest : Type;
}.

Section config.
Context {RT : RestTypes}.

(** [rest.Config] *)
Record Config := mkConfig {
  UserAgent : string;
  config_RateLimiter : option RateLimiter;
  QPS : spec_float;
  Burst : Z;
  config_GroupVersion : option (string * string);
  APIPath : string;
  NegotiatedSerializer : option Serializer;
  config_rest : ConfigRest;
}.
End config.

Class RestOps {RT : RestTypes} := {
  DefaultKubernetesUserAgent : string;
  HTTPClientFor : Config → HttpClient + go_error;
  NewTokenBucketRateLimiter : spec_float → Z → RateLimiter;
  RESTClientForConfigAndClient : Config → HttpClient → RestClient + go_error;
  NewDiscoveryClientForConfigAndClient : Config → HttpClient → DiscoveryClient + go_error;
  NewDiscoveryClient : RestClient → DiscoveryClient;
  (** [rest.CodecFactoryForGeneratedClient(scheme.Scheme, scheme.Codecs).WithoutConversion()] *)
  GeneratedSerializer : Serializer;
}.

Section clients.
Context {RT : RestTypes} {RO : RestOps}.

(** ** The typed client *)
Record SchedulingV1Client := mkSchedulingV1Client { restClient : RestClient }.

Definition set_UserAgent (s : string) (c : Config) : Config :=
  mkConfig s (config_RateLimiter c) (QPS c) (Burst c) (config_GroupVersion c) (APIPath c) (NegotiatedSerializer c) (config_rest c).

Definition setConfigDefaults (c : Config) : Config :=
  let c := mkConfig (UserAgent c) (config_RateLimiter c) (QPS c) (Burst c) (Some (GroupName, Version)) "/apis"
             (Some GeneratedSerializer) (config_rest c) in
  if decide (UserAgent c = "") then set_UserAgent DefaultKubernetesUserAgent c else c.

Definition typed_NewForConfigAndClient (c : Config) (h : HttpClient) : SchedulingV1Client + go_error :=
  let config := setConfigDefaults c in
  match RESTClientForConfigAndClient config h with
  | inr err => inr err
  | inl client => inl (mkSchedulingV1Client client)
  end.
Definition typed_NewForConfig (c : Config) : SchedulingV1Client + go_error :=
  let config := setConfigDefaults c in
  match HTTPClientFor config with
  | inr err => inr err
  | inl httpClient => typed_NewForConfigAndClient config httpClient
  end.
Definition typed_NewForConfigOrDie (c : Config) : outcome SchedulingV1Client :=
  match typed_NewForConfig c with inl client => Ret client | inr _ => Panic end.
Definition typed_New (c : RestClient) : SchedulingV1Client := mkSchedulingV1Client c.
Definition typed_RESTClient (c : option SchedulingV1Client) : option RestClient := restClient <$> c.

(** ** The clientset *)
Record Clientset := mkClientset { clientset_DiscoveryClient : DiscoveryClient; schedulingV1 : SchedulingV1Client }.
Definition Clientset_SchedulingV1 (c : option Clientset) : outcome SchedulingV1Client :=
  match c with Some c => Ret (schedulingV1 c) | None => Panic end.
Definition Clientset_Discovery (c : option Clientset) : option DiscoveryClient := clientset_DiscoveryClient <$> c.

Definition burst_required : go_error :=
  ErrNew "burst is required to be greater than 0 when RateLimiter is not set and QPS is set to greater than 0".
Definition positive (q : spec_float) : bool := SFltb (S754_zero false) q.

(** The second half of [NewForConfigAndClient]. *)
Definition make_clients (c : Config) (httpClient : HttpClient) : Clientset + go_error :=
  match typed_NewForConfigAndClient c httpClient with
  | inr err => inr err
  | inl typed =>
      match NewDiscoveryClientForConfigAndClient c httpClient with
      | inr err => inr err
      | inl discovery => inl (mkClientset discovery typed)
      end
  end.
Definition set_RateLimiter (l : RateLimiter) (c : Config) : Config :=
  mkConfig (UserAgent c) (Some l) (QPS c) (Burst c) (config_GroupVersion c) (APIPath c) (NegotiatedSerializer c) (config_rest c).

Definition NewForConfigAndClient (c : Config) (httpClient : HttpClient) : Clientset + go_error :=
  if bool_decide (is_Some (config_RateLimiter c)) || negb (positive (QPS c)) then make_clients c httpClient
  else if (Burst c <=? 0)%Z then inr burst_required
  else make_clients (set_RateLimiter (NewTokenBucketRateLimiter (QPS c) (Burst c)) c) httpClient.
Definition default_UserAgent (c : Config) : Config :=
  if decide (UserAgent c = "") then set_UserAgent DefaultKubernetesUserAgent c else c.
Definition NewForConfig (c : Config) : Clientset + go_error :=
  let c := default_UserAgent c in
  match HTTPClientFor c with
  | inr err => inr err
  | inl httpClient => NewForConfigAndClient c httpClient
  end.
Definition NewForConfigOrDie (c : Config) : outcome Clientset :=
  match NewForConfig c with inl cs => Ret cs | inr _ => Panic end.
Definition clientset_New (c : RestClient) : Clientset := mkClientset (NewDiscoveryClient c) (typed_New c).

Lemma make_clients_spec c h :
  match make_clients c h with
  | inl cs => RESTClientForConfigAndClient (setConfigDefaults c) h = inl (restClient (schedulingV1 cs))
      ∧ NewDiscoveryClientForConfigAndClient c h = inl (clientset_DiscoveryClient cs)
  | inr err => RESTClientForConfigAndClient (setConfigDefaults c) h = inr err
      ∨ NewDiscoveryClientForConfigAndClient c h = inr err
  end.
Proof.
  unfold make_clients, typed_NewForConfigAndClient.
  destruct (RESTClientForConfigAndClient _ _); [|by left].
  destruct (NewDiscoveryClientForConfigAndClient _ _); [done|by right].
Qed.

(** What the typed client's configuration keeps of the clientset's. *)
Lemma setConfigDefaults_spec c :
  config_GroupVersion (setConfigDefaults c) = Some (GroupName, Version) ∧ APIPath (setConfigDefaults c) = "/apis"
  ∧ config_RateLimiter (setConfigDefaults c) = config_RateLimiter c
  ∧ UserAgent (setConfigDefaults c) = if decide (UserAgent c = "") then DefaultKubernetesUserAgent else UserAgent c.
Proof. unfold setConfigDefaults. cbn [UserAgent]. by case_decide. Qed.

Lemma default_UserAgent_spec c :
  UserAgent (default_UserAgent c) = (if decide (UserAgent c = "") then DefaultKubernetesUserAgent else UserAgent c)
  ∧ config_RateLimiter (default_UserAgent c) = config_RateLimiter c ∧ QPS (default_UserAgent c) = QPS c
  ∧ Burst (default_UserAgent c) = Burst c.
Proof. unfold default_UserAgent. by case_decide. Qed.

(** The limiter of both clients. *)
Definition limiter (c : Config) : option RateLimiter :=
  match config_RateLimiter c with
  | Some l => Some l
  | None => if positive (QPS c) then Some (NewTokenBucketRateLimiter (QPS c) (Burst c)) else None
  end.

(** What the constructor for [c] may return. *)
Definition clientset_made (c : Config) (r : Clientset + go_error) : Prop :=
  match r with
  | inl cs => ∃ h c1 c2,
      HTTPClientFor (default_UserAgent c) = inl h
      ∧ RESTClientForConfigAndClient c1 h = inl (restClient (schedulingV1 cs))
      ∧ NewDiscoveryClientForConfigAndClient c2 h = inl (clientset_DiscoveryClient cs)
      ∧ config_GroupVersion c1 = Some (GroupName, Version) ∧ APIPath c1 = "/apis"
      ∧ config_RateLimiter c1 = config_RateLimiter c2 ∧ UserAgent c1 = UserAgent c2
      ∧ (DefaultKubernetesUserAgent ≠ "" → UserAgent c1 ≠ "")
      ∧ config_RateLimiter c1 = limiter c
      ∧ (config_RateLimiter c = None → positive (QPS c) = true → (0 < Burst c)%Z)
  | inr err =>
      (∃ c', HTTPClientFor c' = inr err)
      ∨ (config_RateLimiter c = None ∧ positive (QPS c) = true ∧ (Burst c ≤ 0)%Z ∧ err = burst_required)
      ∨ (∃ c' h, RESTClientForConfigAndClient c' h = inr err)
      ∨ ∃ c' h, NewDiscoveryClientForConfigAndClient c' h = inr err
  end.

(** A clientset is made exactly when the HTTP client is, the rate limit is
    possible (a limiter given, no limit asked for, or a positive burst) and both
    clients can be made; the two then use the same HTTP client, the same user
    agent (never empty when Kubernetes' default is not) and the same limiter,
    the configured one or a new one of the configured rate. *)
Theorem NewForConfig_correct c : clientset_made c (NewForConfig c).
Proof.
  unfold NewForConfig. destruct (default_UserAgent_spec c) as (Hu & Hl & Hq & Hb).
  set (c0 := default_UserAgent c) in *. destruct (HTTPClientFor c0) as [h|err] eqn:Eh; [|left; by exists c0].
  assert (∀ c', config_RateLimiter c' = limiter c → UserAgent c' = UserAgent c0 →
    (config_RateLimiter c = None → positive (QPS c) = true → (0 < Burst c)%Z) → clientset_made c (make_clients c' h)) as Hmake.
  { intros c' Hl' Hu' Hburst. pose proof (make_clients_spec c' h) as Hm.
    destruct (setConfigDefaults_spec c') as (H1 & H2 & H3 & H4). rewrite Hu' in H4.
    destruct (make_clients c' h) as [cs|err]; [|right; right; destruct Hm; [left|right]; by eexists _, h].
    destruct Hm. exists h, (setConfigDefaults c'), c'.
    assert (UserAgent (setConfigDefaults c') = UserAgent c0) as Hsame.
    { rewrite H4, Hu. by repeat case_decide. }
    split_and!; try done; [congruence| |congruence].
    intros Hne. rewrite Hsame, Hu. by destruct (decide (UserAgent c = "")). }
  unfold NewForConfigAndClient. rewrite Hl, Hq, Hb.
  destruct (config_RateLimiter c) as [l|] eqn:El; cbn [orb].
  - rewrite bool_decide_true by by eexists. apply Hmake; [by rewrite Hl; unfold limiter; rewrite El|done|done].
  - rewrite bool_decide_false by by intros []. cbn [orb]. destruct (positive (QPS c)) eqn:Ep; cbn [negb].
    + destruct (Z.leb_spec (Burst c) 0); [right; left; split_and!; done|].
      apply Hmake; [unfold limiter; by rewrite El, Ep|done|intros; lia].
    + apply Hmake; [by rewrite Hl; unfold limiter; rewrite El, Ep|done|done].
Qed.
End clients.
