(* ===== verification/Startup.v ===== *)
(** * Startup: construction of the plugin and the first events

    [NewPlugin], [NewSynchronizer] and [NewClusterResourceTracker], their error
    paths included, and what the manager holds after the informers' first
    events.  [NewSynchronizer] waits for the queue informer's cache before it
    registers the pod handlers, but not for the queue handlers themselves
    ([AddEventHandler]'s registration is dropped): the notifications of the two
    informers come from different goroutines and interleave. *)

From stdpp Require Import base tactics option list gmap strings sorting.
From Stdlib Require Import ZArith Lia.
From S2P Require Import Prelude.
From S2P Require Import External.
From S2P Require Import Concrete.
From S2P Require Import Resources.
From S2P Require Import Api.
From S2P Require Import Pods.
From S2P Require Import Match.
From S2P Require Import Store.
From S2P Require Import StoreFacts.
From S2P Require Import Quota.
From S2P Require Import Queue.
From S2P Require Import Manager.
From S2P Require Import QueueFacts.
From S2P Require Import ManagerFacts.
From S2P Require Import ManagerProps.
From S2P Require Import Cycle.
From S2P Require Import Aggregator.
From S2P Require Import Synchronizer.
From S2P Require Import State.
From S2P Require Import Plugin.
From S2P Require Import Informers.
From S2P Require Import Clients.

#[local] Arguments pod_queue : simpl never.

(** ** The first events *)
Section initial.
Context {T : ApiTypes} {Q : QuantityOps} {P : PodOps} {L : SelectorOps} {QL : QuantityLaws}.
Implicit Types (V : ManagerV) (ev : event).

(** The informers' first lists arrive as additions. *)
Definition initial ev : Prop :=
  match ev with EvAddQueue (AnyQueue _) | EvAddPod (AnyPod _) => True | _ => False end.
Definition adds_queue (n : string) ev : Prop :=
  match ev with EvAddQueue (AnyQueue q) => queueObj_Name q = n | _ => False end.
(** Later news of a known pod. *)
Definition news ev : Prop :=
  match ev with EvUpdatePod _ (AnyPod _) | EvDeletePod (AnyPod _) => True | _ => False end.

Lemma initial_no_nil ev : initial ev → no_nil ev = true.
Proof. by destruct ev as [[]| |[]|[]| |[]]. Qed.
Lemma news_no_nil ev : news ev → no_nil ev = true.
Proof. by destruct ev as [[]| |[]|[]| |[]]. Qed.

Lemma add_queue_held V q n :
  held_uids (event_effect (EvAddQueue (AnyQueue q)) V) n =
    if decide (queueObj_Name q = n) then ∅ else held_uids V n.
Proof.
  unfold held_uids. cbn [event_effect]. rewrite lookup_insert. case_decide; [|done].
  cbn. by rewrite dom_empty_L.
Qed.

Lemma initial_held n evs : ∀ V,
  Forall initial evs → Forall (λ ev, ¬ adds_queue n ev) evs → is_Some (V !! n) →
  let V' := foldl (λ V ev, event_effect ev V) V evs in
  ∀ u, u ∈ held_uids V' n ↔
    u ∈ held_uids V n ∨ ∃ p, EvAddPod (AnyPod p) ∈ evs ∧ pod_queue (Some p) = Some n ∧ u = pod_UID p.
Proof.
  induction evs as [|ev evs IH]; intros V Hin Hno Hs V' u; subst V'; cbn [foldl].
  { split; [auto|]. intros [?|(p & ?%elem_of_nil & _)]; done. }
  apply Forall_cons in Hin as [Hev Hin]. apply Forall_cons in Hno as [Hne Hno].
  destruct ev as [[]| | |[|p| | |]| |]; try done.
  - assert (queueObj_Name queue ≠ n) as Hq by done. rewrite IH; [|done..|].
    + rewrite add_queue_held, decide_False by done. split; intros [?|(p & Hp & ?)]; auto; right; exists p.
      * split; [by right|done].
      * apply elem_of_cons in Hp as [?|?]; [done|]. done.
    + cbn [event_effect]. by rewrite lookup_insert_ne.
  - rewrite IH; [|done..|].
    + cbn [event_effect as_Pod]. rewrite add_held. split.
      * intros [[?|(? & _ & ->)]|(p' & ? & ?)]; [by left|right; exists p; split; [by left|done]|].
        right. exists p'. split; [by right|done].
      * intros [?|(p' & [[= ->]|?]%elem_of_cons & ? & ->)]; [by left; left|by left; right|].
        right. by exists p'.
    + cbn [event_effect as_Pod]. by rewrite add_some.
Qed.

Lemma news_held n evs : ∀ V, Forall news evs →
  held_uids (foldl (λ V ev, event_effect ev V) V evs) n ⊆ held_uids V n.
Proof.
  induction evs as [|ev evs IH]; intros V Hev; cbn [foldl]; [done|].
  apply Forall_cons in Hev as [Hev Hevs]. etrans; [by apply IH|]. intros u.
  destruct ev as [| | | |old [|p| | |]|[|p| | |]]; try done; cbn [event_effect as_Pod].
  - destruct (releases _ _); [|done]. rewrite del_held. by intros [].
  - rewrite del_held. by intros [].
Qed.

(** C23: the order of the first notifications decides what a queue records:
    exactly its pods whose addition was handled after the queue's own.  A pod
    handled before is not recorded, and no later update or deletion of pods
    makes up for it. *)
Theorem initial_sync before after q later :
  Forall initial (before ++ after) → Forall news later →
  Forall (λ ev, ¬ adds_queue (queueObj_Name q) ev) after →
  wp (m ← NewManager; st_for (before ++ EvAddQueue (AnyQueue q) :: after) (handle m) ;; mret m) (λ m h,
    wf h ∧ ∃ V, view_mgr h m = Some V
    ∧ (∀ u, u ∈ held_uids V (queueObj_Name q) ↔
         ∃ p, EvAddPod (AnyPod p) ∈ after ∧ pod_queue (Some p) = Some (queueObj_Name q) ∧ u = pod_UID p)
    ∧ wp (st_for later (handle m)) (λ _ h', ∃ V', view_mgr h' m = Some V'
         ∧ held_uids V' (queueObj_Name q) ⊆ held_uids V (queueObj_Name q)) h) empty_heap.
Proof.
  intros Hinit Hlater Hno. apply wp_bind. eapply wp_mono; [apply NewManager_spec; auto with golib|].
  intros m h1 [_ [Hwf1 Hv1 _ _]]. apply wp_bind. set (evs := before ++ EvAddQueue (AnyQueue q) :: after).
  assert (Forall initial evs) as Hevs.
  { apply Forall_app in Hinit as [? ?]. apply Forall_app. split; [done|]. by constructor. }
  eapply wp_mono; [apply (handle_all_spec m evs h1 ∅); [done..|by eapply Forall_impl, initial_no_nil]|].
  intros _ h2 [Hwf2 Hv2 _ _]. apply wp_ret. split; [done|]. eexists. split; [exact Hv2|]. split.
  - intros u. unfold evs. rewrite foldl_app. cbn [foldl]. apply Forall_app in Hinit as [_ Hafter].
    rewrite initial_held; [|done..|].
    + rewrite add_queue_held, decide_True by done. split; [by intros [?%elem_of_empty|?]|by right].
    + cbn [event_effect]. rewrite lookup_insert_eq. by eexists.
  - eapply wp_mono; [apply (handle_all_spec m later h2); [done..|by eapply Forall_impl, news_no_nil]|].
    intros _ h3 [_ Hv3 _ _]. eexists. split; [exact Hv3|]. by apply news_held.
Qed.
End initial.

(** ** Construction *)
Section construction.
Context {T : ApiTypes} {Q : QuantityOps} {P : PodOps} {L : SelectorOps} {CO : CacheOps} {RT : RestTypes} {RO : RestOps}.

(** The three functions of [cache.ResourceEventHandlerFuncs]. *)
Record ResourceEventHandlerFuncs (S : Type) := mkFuncs {
  AddFunc : any → st S unit;
  UpdateFunc : any → any → st S unit;
  DeleteFunc : any → st S unit;
}.
Arguments mkFuncs {S} _ _ _.
Arguments AddFunc {S} _ _.

Definition queue_handlers (queueMgr : loc) : ResourceEventHandlerFuncs heap :=
  mkFuncs (addQueue queueMgr) (updateQueue queueMgr) (deleteQueue queueMgr).
Definition pod_handlers (queueMgr : loc) : ResourceEventHandlerFuncs heap :=
  mkFuncs (addPod queueMgr) (updatePod queueMgr) (deletePod queueMgr).
Definition node_handlers : ResourceEventHandlerFuncs NodeAggregator := mkFuncs addNode updateNode deleteNode.

(** What construction asks of the informers and the run time, in order: handlers
    (for pods under a filter), the starts and waits of the queue factory (with
    the informers it waits for) and of the scheduler's own factory, and the
    goroutine of the status loop. *)
Inductive setup_call :=
| AddQueueHandler (informer : loc) (handler : ResourceEventHandlerFuncs heap)
| AddPodHandler (filter : any → bool) (handler : ResourceEventHandlerFuncs heap)
| AddNodeHandler (handler : ResourceEventHandlerFuncs NodeAggregator)
| SchedStart
| SchedWait (waited : gmap string loc)
| CoreStart
| CoreWait
| GoStatusUpdateLoop.

Record setup_world := mkSetup { se_heap : heap; se_sched : fworld; se_calls : list setup_call }.

Definition setup_heap {A} (m : st heap A) : st setup_world A := λ w,
  match m (se_heap w) with Ret (a, h) => Ret (a, mkSetup h (se_sched w) (se_calls w)) | Panic => Panic end.
Definition setup_sched {A} (m : st fworld A) : st setup_world A := λ w,
  match m (se_sched w) with Ret (a, f) => Ret (a, mkSetup (se_heap w) f (se_calls w)) | Panic => Panic end.
Definition do_call (c : setup_call) : st setup_world unit :=
  st_modify (λ w, mkSetup (se_heap w) (se_sched w) (se_calls w ++ [c])).

(** What [AddEventHandler] answers for queues, pods and nodes. *)
Variables (queue_err pod_err node_err : option go_error).
Variable ctx : Context.

Definition NewClusterResourceTracker : st setup_world (NodeAggregator + go_error) :=
  counter ← st_lift (NewNodeAllocatableAggregator []);
  do_call (AddNodeHandler node_handlers) ;;
  match node_err with
  | Some err => mret (inr err)
  | None => do_call CoreStart ;; do_call CoreWait ;; mret (inl counter)
  end.

Record Synchronizer := mkSynchronizer { syn_queueMgr : loc; syn_resTracker : option NodeAggregator }.

Definition NewSynchronizer (queueMgr : loc) : st setup_world (Synchronizer + go_error) :=
  let syn := mkSynchronizer queueMgr None in
  w ← st_get;
  queueInformer ← setup_sched (queueInformer_Informer (Queues (V1 (Scheduling (fw_factory (se_sched w))))));
  do_call (AddQueueHandler queueInformer (queue_handlers queueMgr)) ;;
  match queue_err with
  | Some err => mret (inr err)
  | None =>
      setup_sched (StartWithContext ctx) ;; do_call SchedStart ;;
      w ← st_get; do_call (SchedWait (waited_informers (se_sched w))) ;;
      do_call (AddPodHandler podFilter (pod_handlers queueMgr)) ;;
      match pod_err with
      | Some err => mret (inr err)
      | None =>
          do_call CoreStart ;; do_call CoreWait ;;
          tracker ← NewClusterResourceTracker;
          match tracker with
          | inr err => mret (inr err)
          | inl resTracker =>
              do_call GoStatusUpdateLoop ;;
              mret (inl (mkSynchronizer (syn_queueMgr syn) (Some resTracker)))
          end
      end
  end.

(** [NewPlugin]: [decoded] is what [DecodeInto] makes of the raw arguments,
    [async] the feature gate, [as_Client] the clientset as a
    [scheduling.Interface]. *)
Variable decoded : QuotaAwarePreemptionArgs + go_error.
Variable as_Client : Clientset → Client.

Definition NewPlugin (kubeConfig : Config) (async : bool) : st setup_world (Plugin + go_error) :=
  match decoded with
  | inr err => mret (inr err)
  | inl args =>
      queueMgr ← setup_heap NewManager;
      match NewForConfig kubeConfig with
      | inr err => mret (inr err)
      | inl schedClientset =>
          st_modify (λ w, mkSetup (se_heap w)
            (mkFWorld (NewSharedInformerFactory (as_Client schedClientset) 0) ∅ [] [] []) (se_calls w)) ;;
          syn ← NewSynchronizer queueMgr;
          match syn with
          | inr err => mret (inr err)
          | inl queueSynchronizer => mret (inl (mkPlugin queueMgr async args))
          end
      end
  end.

(** *** Properties *)
(** Everything that construction does, when nothing fails. *)
Definition all_calls (queueMgr queueInformer : loc) : list setup_call :=
  [AddQueueHandler queueInformer (queue_handlers queueMgr); SchedStart; SchedWait {[ "*v1.Queue" := queueInformer ]};
   AddPodHandler podFilter (pod_handlers queueMgr); CoreStart; CoreWait;
   AddNodeHandler node_handlers; CoreStart; CoreWait; GoStatusUpdateLoop].

(** Where the first failing registration stops it. *)
Definition calls_done : nat :=
  match queue_err, pod_err, node_err with Some _, _, _ => 1 | _, Some _, _ => 4 | _, _, Some _ => 7 | _, _, _ => 10 end.
Fixpoint first_error (l : list (option go_error)) : option go_error :=
  match l with [] => None | Some e :: _ => Some e | None :: l => first_error l end.

Definition new_sched (cs : Clientset) : fworld :=
  mkFWorld (NewSharedInformerFactory (as_Client cs) 0) ∅ [] [] [].
Definition queue_informer (c : Client) : SharedIndexInformer := defaultInformer (mkQueueInformer None) None c 0.

Definition made_synchronizer (queueMgr : loc) : Synchronizer :=
  mkSynchronizer queueMgr (Some (mkAggregator ∅ gomap_make node_Allocatable)).

(** The queue informer is the first one of a new factory. *)
Definition made_sched (cs : Clientset) : fworld :=
  mkFWorld (set_informers {[ "*v1.Queue" := 1%positive ]} (fw_factory (new_sched cs)))
    {[ 1%positive := queue_informer (as_Client cs) ]} [] [] [].
Definition started_sched (cs : Clientset) : fworld :=
  mkFWorld (set_started {[ "*v1.Queue" := true ]} (fw_factory (made_sched cs))) (fw_cells (made_sched cs))
    [(1%positive, ctx)] [(1%positive, ctx)] [].

Lemma NewSynchronizer_spec queueMgr cs h :
  NewSynchronizer queueMgr (mkSetup h (new_sched cs) []) =
    Ret (match first_error [queue_err; pod_err; node_err] with
         | Some err => inr err
         | None => inl (made_synchronizer queueMgr)
         end,
      mkSetup h (match queue_err with Some _ => made_sched cs | None => started_sched cs end)
        (take calls_done (all_calls queueMgr 1))).
Proof. unfold calls_done, NewSynchronizer, NewClusterResourceTracker. destruct queue_err, pod_err, node_err; reflexivity. Qed.

(** C24: [NewPlugin] fails with the first error among decoding the arguments,
    making the clients and registering the three handlers, and then has done
    nothing past that point: no status loop runs.  Otherwise the plugin has the
    decoded arguments and a new, empty manager, which all handlers are bound to;
    the queue informer runs and its cache was waited for before the pod handlers
    were registered, and the status loop starts last, with a tracker. *)
Theorem NewPlugin_correct kubeConfig async h sched :
  wf h →
  wp (NewPlugin kubeConfig async) (λ r s,
    let decode_err := match decoded with inr err => Some err | inl _ => None end in
    let client_err := match NewForConfig kubeConfig with inr err => Some err | inl _ => None end in
    match first_error [decode_err; client_err] with
    | Some err => r = inr err ∧ se_calls s = []
    | None => ∃ m cs, NewForConfig kubeConfig = inl cs ∧ h_mgr h !! m = None ∧ view_mgr (se_heap s) m = Some ∅
        ∧ se_calls s = take calls_done (all_calls m 1)
        ∧ fw_cells (se_sched s) = {[ 1%positive := queue_informer (as_Client cs) ]}
        ∧ match first_error [queue_err; pod_err; node_err] with
          | Some err => r = inr err ∧ GoStatusUpdateLoop ∉ se_calls s
          | None => ∃ args, decoded = inl args ∧ r = inl (mkPlugin m async args)
              ∧ fw_running (se_sched s) = [(1%positive, ctx)]
          end
    end
    ∧ wf (se_heap s) ∧ ∀ m', is_Some (h_mgr h !! m') → view_mgr (se_heap s) m' = view_mgr h m')
  (mkSetup h sched []).
Proof.
  intros Hwf. unfold NewPlugin. destruct decoded as [args|err]; [|by apply wp_ret].
  rewrite wp_bind. unfold setup_heap, wp at 1. cbn [se_heap se_sched se_calls].
  pose proof (NewManager_spec h Hwf) as Hm. unfold wp in Hm. destruct (NewManager h) as [[m h1]|]; [|done].
  destruct Hm as [Hfresh [Hwf1 Hv1 Hf1 _]].
  assert (∀ m', is_Some (h_mgr h !! m') → view_mgr h1 m' = view_mgr h m') as Hframe.
  { intros m' [M HM]. apply Hf1. congruence. }
  destruct (NewForConfig kubeConfig) as [cs|err] eqn:Ecs; cbn [first_error]; [|by apply wp_ret].
  rewrite wp_bind, wp_modify, wp_bind. cbn [se_heap se_sched se_calls]. unfold wp at 1.
  fold (new_sched cs). rewrite NewSynchronizer_spec. cbn [se_heap]. unfold calls_done.
  destruct queue_err, pod_err, node_err; cbn [first_error]; apply wp_ret; cbn [se_heap se_sched se_calls];
    (split; [|done]); exists m, cs; (split_and!; try done; try by eexists); cbn; set_solver.
Qed.
End construction.

(** ** Concrete runs *)
Section witnesses.
#[local] Existing Instances c_api c_quantity c_quantity_laws c_pods c_selector c_cache.

(** The pod "p1" of queue "q" is seen before "q": it is never recorded. *)
Lemma initial_sync_witness :
  ∃ m h V, (m ← NewManager; st_for [EvAddPod (AnyPod ex_pod); EvAddQueue (AnyQueue ex_obj)] (handle m) ;; mret m)
      empty_heap = Ret (m, h)
    ∧ view_mgr h m = Some V ∧ pod_queue (Some ex_pod) = Some "q" ∧ is_Some (V !! "q") ∧ held_uids V "q" ⊆ ∅.
Proof.
  pose proof (initial_sync [EvAddPod (AnyPod ex_pod)] [] ex_obj []) as H. unfold wp at 1 in H. cbn [app] in H.
  assert (match (m ← NewManager; st_for [EvAddPod (AnyPod ex_pod); EvAddQueue (AnyQueue ex_obj)] (handle m) ;; mret m)
    empty_heap with Ret (m, h) => bool_decide (is_Some (view_mgr h m ≫= (.!! "q"))) | Panic => false end = true) as Hs
    by (vm_compute; reflexivity).
  destruct ((m ← NewManager; st_for [EvAddPod (AnyPod ex_pod); EvAddQueue (AnyQueue ex_obj)] (handle m) ;; mret m)
    empty_heap) as [[m h]|]; [|discriminate Hs].
  destruct H as (_ & V & HV & Hheld & _); [repeat constructor|constructor|constructor|].
  exists m, h, V. split; [reflexivity|]. split; [exact HV|]. split; [vm_compute; reflexivity|]. split.
  - rewrite HV in Hs. exact (bool_decide_eq_true_1 _ Hs).
  - intros u Hu. destruct (proj1 (Hheld u) Hu) as (p & []%elem_of_nil & _).
Defined.

#[local] Instance c_rest : RestTypes := {|
  HttpClient := string; RestClient := string; DiscoveryClient := string; RateLimiter := Z; Serializer := string;
  ConfigRest := unit;
|}.
#[local] Instance c_rest_ops : RestOps := {|
  DefaultKubernetesUserAgent := "agent"; HTTPClientFor c := inl "http" : @HttpClient c_rest + go_error;
  NewTokenBucketRateLimiter q b := b : @RateLimiter c_rest;
  RESTClientForConfigAndClient c h := inl (APIPath c) : @RestClient c_rest + go_error;
  NewDiscoveryClientForConfigAndClient c h := inl "discovery" : @DiscoveryClient c_rest + go_error;
  NewDiscoveryClient r := "discovery" : @DiscoveryClient c_rest; GeneratedSerializer := "json" : @Serializer c_rest;
|}.
Definition c_config : Config := mkConfig "" None (SpecFloat.S754_zero false) 0 None "" None (tt : @ConfigRest c_rest).
Definition c_as_Client (cs : Clientset) : @Client c_cache := "client".
Definition c_args : QuotaAwarePreemptionArgs := mkArgs (mkArgsPreemptionConfig None).
Definition c_NewPlugin (pod_err : option go_error) : st setup_world (Plugin + go_error) :=
  NewPlugin None pod_err None ("ctx" : @Context c_cache) (inl c_args) c_as_Client c_config true.
Definition c_setup : setup_world := mkSetup empty_heap (new_sched c_as_Client (clientset_New ("rest" : @RestClient c_rest))) [].

(** Without errors the plugin is made; when the pod handlers cannot be
    registered, that error is returned and the status loop never starts. *)
Lemma NewPlugin_correct_witness :
  (∃ p s, c_NewPlugin None c_setup = Ret (inl p, s) ∧ plugin_args p = c_args ∧ length (se_calls s) = 10%nat)
  ∧ ∃ s, c_NewPlugin (Some (ErrNew "no pods")) c_setup = Ret (inr (ErrNew "no pods"), s)
      ∧ GoStatusUpdateLoop ∉ se_calls s.
Proof.
  split.
  - pose proof (NewPlugin_correct None None None ("ctx" : @Context c_cache) (inl c_args) c_as_Client c_config true
      empty_heap (new_sched c_as_Client (clientset_New ("rest" : @RestClient c_rest))) wf_empty) as H.
    unfold wp in H. unfold c_NewPlugin, c_setup. destruct (NewPlugin _ _ _ _ _ _ _ _ _) as [[r s]|]; [|destruct H].
    destruct H as [(m & cs & _ & _ & _ & Hc & _ & args & Ha & Hr & _) _]. injection Ha as <-.
    exists (mkPlugin m true c_args), s. split; [rewrite Hr; reflexivity|]. split; [reflexivity|].
    rewrite Hc. reflexivity.
  - pose proof (NewPlugin_correct None (Some (ErrNew "no pods")) None ("ctx" : @Context c_cache) (inl c_args) c_as_Client
      c_config true empty_heap (new_sched c_as_Client (clientset_New ("rest" : @RestClient c_rest))) wf_empty) as H.
    unfold wp in H. unfold c_NewPlugin, c_setup. destruct (NewPlugin _ _ _ _ _ _ _ _ _) as [[r s]|]; [|destruct H].
    destruct H as [(m & cs & _ & _ & _ & _ & _ & Hr & Hg) _]. exists s. split; [rewrite Hr; reflexivity|exact Hg].
Defined.
End witnesses.
