(* ===== verification/Entry.v ===== *)
(** * Entry: where the framework enters the plugin

    Registration under the plugin's name, the factory, [PostFilter], and the
    configuration with defaults of [internal/kubesched].  The registry, the
    framework's preemption evaluator and the Kubernetes scheme are parameters. *)

From stdpp Require Import base tactics option list gmap strings sorting.
From Stdlib Require Import ZArith Lia.
From S2P Require Import Prelude.
From S2P Require Import External.
From S2P Require Import Resources.
From S2P Require Import Api.
From S2P Require Import Pods.
From S2P Require Import Match.
From S2P Require Import Store.
From S2P Require Import Quota.
From S2P Require Import Queue.
From S2P Require Import Manager.
From S2P Require Import State.
From S2P Require Import Plugin.
From S2P Require Import Informers.
From S2P Require Import Clients.
From S2P Require Import Startup.

(** ** Registration *)
Section registration.
Context {T : ApiTypes} {Q : QuantityOps} {P : PodOps} {L : SelectorOps} {CO : CacheOps} {RT : RestTypes} {RO : RestOps}.
Variables (queue_err pod_err node_err : option go_error) (ctx : Context).
Variables (decoded : QuotaAwarePreemptionArgs + go_error) (as_Client : Clientset → Client).
(** [feature.NewSchedulerFeaturesFromGates(DefaultFeatureGate)], of which the
    plugin reads [EnableAsyncPreemption]. *)
Variable default_async : bool.

Definition PluginFactory (kubeConfig : Config) : st setup_world (Plugin + go_error) :=
  NewPlugin queue_err pod_err node_err ctx decoded as_Client kubeConfig default_async.

(** [runtime.Registry.Register] and [app.WithPlugin]. *)
Definition factory : Type := Config → st setup_world (Plugin + go_error).
Context {Registry AppOption : Type}.
Variables (registry_Register : Registry → string → factory → Registry * option go_error)
  (app_WithPlugin : string → factory → AppOption).
Definition Plugin_Register (registry : Registry) : Registry * option go_error := registry_Register registry PluginName PluginFactory.
Definition WithPlugin : AppOption := app_WithPlugin PluginName PluginFactory.
End registration.

(** ** PostFilter *)
Section postfilter.
Context {T : ApiTypes} {Q : QuantityOps} {P : PodOps} {L : SelectorOps} {F : FrameworkOps}.
Context {O : Type} {C : CycleStateOps (StateData O)}.
Context {Result NodeToStatus : Type}.

(** The fields of [preemptor]; the cycle state is the world's, the handle a
    class. *)
Record preemptor := mkPreemptor { preemptor_cfg : ArgsPreemptionConfig }.

(** [NewEvaluator(name, handle, preemptor, executor).Preempt]: the framework
    drives the preemptor. *)
Variable Preempt : string → preemptor → Pod → NodeToStatus → st world (Result * Status).

Definition Name : string := PluginName.
Definition PostFilter (plugin : Plugin) (pod : Pod) (m : NodeToStatus) : st world (Result * Status) :=
  Preempt Name (mkPreemptor (args_Preemption (plugin_args plugin))) pod m.
End postfilter.

(** ** The scheduler's configuration *)
Section configuration.
(** [KubeSchedulerConfiguration], external and internal: the type metadata and
    the rest, and the scheme's defaulting and conversion; a failed conversion
    may have written part of its result. *)
Context {ConfigV1 ConfigApi : Type}.
Record Versioned (A : Type) := mkVersioned { APIVersion : string; Kind : string; versioned_rest : A }.
Arguments mkVersioned {A} _ _ _.
Arguments APIVersion {A} _.
Arguments Kind {A} _.
Arguments versioned_rest {A} _.
Variables (scheme_Default : Versioned ConfigV1 → Versioned ConfigV1)
  (scheme_Convert : Versioned ConfigV1 → Versioned ConfigApi * option go_error)
  (configv1_SchemeGroupVersion : string).

Definition KubeSchedulerConfigurationKind : string := "KubeSchedulerConfiguration".

Definition ToConfigAPIWithDefaults (cfg : Versioned ConfigV1) : Versioned ConfigApi * option go_error :=
  let cfg := scheme_Default cfg in
  let cfg := if decide (APIVersion cfg = "") then mkVersioned configv1_SchemeGroupVersion (Kind cfg) (versioned_rest cfg) else cfg in
  let cfg := if decide (Kind cfg = "") then mkVersioned (APIVersion cfg) KubeSchedulerConfigurationKind (versioned_rest cfg) else cfg in
  let '(apiCfg, err) := scheme_Convert cfg in
  match err with
  | Some err => (apiCfg, Some err)
  | None => (mkVersioned (APIVersion cfg) (Kind cfg) (versioned_rest apiCfg), None)
  end.

(** Without an error, the result keeps the version and kind of the defaulted
    configuration where it has them, and is never without a kind; its other
    fields are the converted ones. *)
Theorem ToConfigAPIWithDefaults_correct cfg :
  let d := scheme_Default cfg in
  let '(r, err) := ToConfigAPIWithDefaults cfg in
  (err = None → Kind r ≠ "" ∧ (Kind d ≠ "" → Kind r = Kind d)
     ∧ APIVersion r = if decide (APIVersion d = "") then configv1_SchemeGroupVersion else APIVersion d)
  ∧ ∃ cfg', versioned_rest cfg' = versioned_rest d ∧ err = (scheme_Convert cfg').2
      ∧ versioned_rest r = versioned_rest (scheme_Convert cfg').1.
Proof.
  cbv zeta. unfold ToConfigAPIWithDefaults. set (d := scheme_Default cfg).
  destruct (decide (APIVersion d = "")) as [Ha|Ha]; cbn [APIVersion Kind versioned_rest];
    (destruct (decide (Kind d = "")) as [Hk|Hk]); cbn [APIVersion Kind versioned_rest];
    match goal with |- context [scheme_Convert ?c] =>
      destruct (scheme_Convert c) as [r [err|]] eqn:E; (split; [|exists c; by rewrite E]) end;
    by intros.
Qed.
End configuration.
