(* ===== verification/Schemes.v ===== *)
(** * Schemes: registration of the API types, the typed client, fakes and the command

    [register.go] of both API packages and of the clientsets' schemes, the typed
    queue client, its lister and its fakes, the entry points of the informer
    factory that are built on those of file [Informers], the read-only set
    interface and the command's [main].  [runtime.Scheme], the generic clients and the testing
    package are Kubernetes code: parameters, with what they document as laws. *)

From stdpp Require Import base tactics option list gmap strings.
From Stdlib Require Import ZArith Lia.
From S2P Require Import Prelude.
From S2P Require Import Store.
From S2P Require Import Api.
From S2P Require Import Informers.
From S2P Require Import Clients.

(** ** Schemes *)

(** [schema.GroupVersion], and its resources and kinds. *)
Record GroupVersion := mkGroupVersion { gv_Group : string; gv_Version : string }.
#[global] Instance GroupVersion_eq_dec : EqDecision GroupVersion.
Proof. solve_decision. Defined.
Definition WithResource (gv : GroupVersion) (resource : string) : string * string * string := (gv_Group gv, gv_Version gv, resource).
Definition WithKind (gv : GroupVersion) (kind : string) : string * string * string := (gv_Group gv, gv_Version gv, kind).
Definition GroupResource (gvr : string * string * string) : string * string := (gvr.1.1, gvr.2).

Class SchemeOps := {
  Scheme : Type;
  NewScheme : Scheme;
  (** [scheme.AddKnownTypes(gv, types...)], the types by their Go names *)
  AddKnownTypes : Scheme → GroupVersion → list string → Scheme;
  (** [metav1.AddToGroupVersion] *)
  AddToGroupVersion : Scheme → GroupVersion → Scheme;
  (** [SchemeBuilder.AddToScheme]: the functions one after the other *)
  Builder_AddToScheme : list (Scheme → Scheme * option go_error) → Scheme → Scheme * option go_error;
  (** [scheme.Recognizes] *)
  Recognizes : Scheme → string * string * string → bool;
  CodecFactory : Type;
  NewCodecFactory : Scheme → CodecFactory;
  ParameterCodec : Type;
  NewParameterCodec : Scheme → ParameterCodec;
}.

Class SchemeLaws {SO : SchemeOps} : Prop := {
  known_types s gv types gvk :
    Recognizes (AddKnownTypes s gv types) gvk = true ↔ (∃ t, t ∈ types ∧ gvk = WithKind gv t) ∨ Recognizes s gvk = true;
  known_group s gv gvk : Recognizes s gvk = true → Recognizes (AddToGroupVersion s gv) gvk = true;
  builder_nil s : Builder_AddToScheme [] s = (s, None);
  builder_cons f fs s : Builder_AddToScheme (f :: fs) s =
    match f s with (s', Some err) => (s', Some err) | (s', None) => Builder_AddToScheme fs s' end;
}.

Section schemes.
Context {SO : SchemeOps}.

(** apis/scheduling/v1/register.go *)
Definition v1_SchemeGroupVersion : GroupVersion := mkGroupVersion GroupName Version.
Definition addKnownTypes (scheme : Scheme) : Scheme * option go_error :=
  let scheme := AddKnownTypes scheme v1_SchemeGroupVersion ["Queue"; "QueueList"] in
  (AddToGroupVersion scheme v1_SchemeGroupVersion, None).
Definition AddToScheme : Scheme → Scheme * option go_error := Builder_AddToScheme [addKnownTypes].
Definition Resource (resource : string) : string * string := GroupResource (WithResource v1_SchemeGroupVersion resource).

(** apis/config: the plugin's arguments *)
Definition config_GroupName : string := "config.scheduling.kaschnit.github.io".
Definition config_SchemeGroupVersion : GroupVersion := mkGroupVersion config_GroupName "v1".
Definition config_addKnownTypes (scheme : Scheme) : Scheme * option go_error :=
  let scheme := AddKnownTypes scheme config_SchemeGroupVersion ["QuotaAwarePreemptionArgs"] in
  (AddToGroupVersion scheme config_SchemeGroupVersion, None).
Definition config_AddToScheme : Scheme → Scheme * option go_error := Builder_AddToScheme [config_addKnownTypes].

(** The clientsets' schemes, as package initialisation leaves them; [Must]
    panics on an error.  The scheme of the fakes is made by the same code. *)
Definition clientset_AddToScheme : Scheme → Scheme * option go_error := Builder_AddToScheme [AddToScheme].
Definition scheme_init (scheme : Scheme) : outcome Scheme :=
  let scheme := AddToGroupVersion scheme (mkGroupVersion "" "v1") in
  match clientset_AddToScheme scheme with
  | (_, Some err) => Panic
  | (scheme, None) => Ret scheme
  end.
Definition clientset_Scheme : outcome Scheme := scheme_init NewScheme.
Definition fake_scheme : outcome Scheme := scheme_init NewScheme.

Context {SL : SchemeLaws}.

Lemma AddToScheme_spec s gvk :
  (AddToScheme s).2 = None
  ∧ (gvk = WithKind v1_SchemeGroupVersion "Queue" ∨ gvk = WithKind v1_SchemeGroupVersion "QueueList" ∨ Recognizes s gvk = true
     → Recognizes (AddToScheme s).1 gvk = true).
Proof.
  unfold AddToScheme. rewrite builder_cons. unfold addKnownTypes. rewrite builder_nil. split; [done|].
  intros H. apply known_group, known_types. destruct H as [-> |[-> |?]]; [left..|by right];
    eexists; (split; [|reflexivity]); set_solver.
Qed.

(** Registration never fails, so package initialisation does not panic; a scheme
    then recognises what it did before and the registered kinds: queues and
    their lists, or the plugin's arguments. *)
Theorem schemes_registered s gvk :
  (∃ s', scheme_init s = Ret s'
     ∧ (gvk = WithKind v1_SchemeGroupVersion "Queue" ∨ gvk = WithKind v1_SchemeGroupVersion "QueueList" ∨ Recognizes s gvk = true
        → Recognizes s' gvk = true))
  ∧ (config_AddToScheme s).2 = None
  ∧ (gvk = WithKind config_SchemeGroupVersion "QuotaAwarePreemptionArgs" ∨ Recognizes s gvk = true
     → Recognizes (config_AddToScheme s).1 gvk = true).
Proof.
  split; [|unfold config_AddToScheme; rewrite builder_cons; unfold config_addKnownTypes; rewrite builder_nil; split; [done|]].
  - unfold scheme_init, clientset_AddToScheme. rewrite builder_cons.
    set (s0 := AddToGroupVersion s _). destruct (AddToScheme_spec s0 gvk) as [He Hr].
    destruct (AddToScheme s0) as [s' err]. simpl in *. subst err. rewrite builder_nil. exists s'. split; [done|].
    intros H. apply Hr. destruct H as [?|[?|?]]; [by left|by right; left|right; right]. by apply known_group.
  - intros H. apply known_group, known_types. destruct H as [-> |?]; [left|by right].
    eexists. split; [|reflexivity]. set_solver.
Qed.
End schemes.

(** ** The typed queue client and the lister *)
Section typed.
Context {SO : SchemeOps} {RT : RestTypes}.

(** [gentype.NewClientWithList(resource, client, codec, namespace, ...)]: the
    client's methods are the generic ones. *)
Record ClientWithList := mkClientWithList {
  cl_resource : string;
  cl_client : option RestClient;
  cl_codec : ParameterCodec;
  cl_namespace : string;
}.
Definition newQueues (codec : ParameterCodec) (c : option SchedulingV1Client) : ClientWithList :=
  mkClientWithList "queues" (typed_RESTClient c) codec "".
Definition Client_Queues (codec : ParameterCodec) (c : option SchedulingV1Client) : ClientWithList := newQueues codec c.

(** [listers.New(indexer, resource)]: lists and gets from the indexer, not found
    errors name the resource. *)
Record ResourceIndexer (Indexer : Type) := mkResourceIndexer { ri_indexer : Indexer; ri_resource : string * string }.
Definition NewQueueLister {Indexer} (indexer : Indexer) : ResourceIndexer Indexer := mkResourceIndexer _ indexer (Resource "queue").
End typed.

(** ** Fakes *)
Class TestingOps {SO : SchemeOps} := {
  Object : Type;
  ObjectTracker : Type;
  NewObjectTracker : Scheme → CodecFactory → ObjectTracker;
  Tracker_Add : ObjectTracker → Object → ObjectTracker * option go_error;
  Action : Type;
  Action_GetResource : Action → string * string * string;
  Action_GetNamespace : Action → string;
  WatchListOptions : Type;
  WatchListOptions_zero : WatchListOptions;
  (** the options of an action that is a [WatchActionImpl] *)
  as_WatchAction : Action → option WatchListOptions;
  WatchInterface : Type;
  Tracker_Watch : ObjectTracker → string * string * string → string → WatchListOptions → WatchInterface + go_error;
  (** [testing.ObjectReaction] *)
  Reaction : Type;
  ObjectReaction : ObjectTracker → Reaction;
}.

Section fakes.
Context {SO : SchemeOps} {TO : TestingOps}.

(** A watch reaction: whether the action is handled, with a watch or an error. *)
Definition WatchReaction : Type := Action → bool * option WatchInterface * option go_error.

(** [testing.Fake]: the reactors, with the verbs and resources they match. *)
Record Fake := mkFake {
  fake_reactors : list (string * string * Reaction);
  fake_watch_reactors : list (string * WatchReaction);
}.

(** [testing.Fake] values are shared through pointers. *)
Abbreviation fakes := (gmap loc Fake).

Record FakeClientset := mkFakeClientset {
  fake_Fake : loc;
  fake_discovery : loc;
  fake_tracker : ObjectTracker;
}.
Record FakeSchedulingV1 := mkFakeSchedulingV1 { fsv1_Fake : loc }.

Definition watch_reaction (o : ObjectTracker) : WatchReaction := λ action,
  let opts := match as_WatchAction action with Some opts => opts | None => WatchListOptions_zero end in
  let gvr := Action_GetResource action in
  let ns := Action_GetNamespace action in
  match Tracker_Watch o gvr ns opts with
  | inr err => (false, None, None)
  | inl watch => (true, Some watch, None)
  end.

Fixpoint add_objects (o : ObjectTracker) (objects : list Object) : outcome ObjectTracker :=
  match objects with
  | [] => mret o
  | obj :: objects =>
      match Tracker_Add o obj with
      | (_, Some err) => Panic
      | (o, None) => add_objects o objects
      end
  end.

Definition update_fake (l : loc) (f : Fake → Fake) : st fakes unit :=
  h ← st_get; x ← st_some (h !! l); st_put (<[l := f x]> h).
Definition AddReactor (verb resource : string) (r : Reaction) (f : Fake) : Fake :=
  mkFake (fake_reactors f ++ [(verb, resource, r)]) (fake_watch_reactors f).
Definition AddWatchReactor (resource : string) (r : WatchReaction) (f : Fake) : Fake :=
  mkFake (fake_reactors f) (fake_watch_reactors f ++ [(resource, r)]).

Definition NewSimpleClientset (scheme : Scheme) (objects : list Object) : st fakes FakeClientset :=
  o ← st_lift (add_objects (NewObjectTracker scheme (NewCodecFactory scheme)) objects);
  h ← st_get;
  let l := fresh (dom h) in
  st_put (<[l := mkFake [] []]> h) ;;
  let cs := mkFakeClientset l l o in
  update_fake (fake_Fake cs) (AddReactor "*" "*" (ObjectReaction o)) ;;
  update_fake (fake_Fake cs) (AddWatchReactor "*" (watch_reaction o)) ;;
  mret cs.

Definition Fake_Discovery (c : FakeClientset) : loc := fake_discovery c.
Definition Fake_Tracker (c : FakeClientset) : ObjectTracker := fake_tracker c.
Definition IsWatchListSemanticsUnSupported (c : FakeClientset) : bool := true.
Definition Fake_SchedulingV1 (c : FakeClientset) : FakeSchedulingV1 := mkFakeSchedulingV1 (fake_Fake c).

(** [gentype.NewFakeClientWithList], by what identifies it, and the fake it is for. *)
Record FakeQueues := mkFakeQueues {
  fq_fake : loc;
  fq_namespace : string;
  fq_resource : string * string * string;
  fq_kind : string * string * string;
  fq_Fake : FakeSchedulingV1;
}.
Definition newFakeQueues (fake : FakeSchedulingV1) : FakeQueues :=
  mkFakeQueues (fsv1_Fake fake) "" (WithResource v1_SchemeGroupVersion "queues") (WithKind v1_SchemeGroupVersion "Queue") fake.
Definition Fake_Queues (c : FakeSchedulingV1) : FakeQueues := newFakeQueues c.
(** A nil [rest.RESTClient] in an interface. *)
Definition Fake_RESTClient {RT : RestTypes} (c : FakeSchedulingV1) : option RestClient := None.

Lemma add_objects_ok o objects o' :
  add_objects o objects = Ret o' → foldl (λ o obj, (Tracker_Add o obj).1) o objects = o'.
Proof.
  induction objects as [|obj objects IH] in o |- *; simpl; [by intros [= ->]|].
  destruct (Tracker_Add o obj) as [o1 [err|]]; simpl; [done|]. apply IH.
Qed.

Lemma update_fake_eq l f x (h : fakes) : update_fake l f (<[l := x]> h) = Ret (tt, <[l := f x]> h).
Proof.
  unfold update_fake, mbind, st_bind, st_get. rewrite lookup_insert_eq. cbn.
  unfold st_put. by rewrite insert_insert_eq.
Qed.

(** [NewSimpleClientset] panics exactly when an object cannot be added.
    Otherwise the queue clients of the new clientset, its discovery client and
    the clientset itself share one new fake, which answers everything from the
    tracker with all the objects; no other fake changes. *)
Theorem NewSimpleClientset_correct scheme objects (h : fakes) :
  let o := NewObjectTracker scheme (NewCodecFactory scheme) in
  match NewSimpleClientset scheme objects h with
  | Panic => add_objects o objects = Panic
  | Ret (cs, h') => h !! fake_Fake cs = None
      ∧ fake_tracker cs = foldl (λ o obj, (Tracker_Add o obj).1) o objects
      ∧ h' = <[fake_Fake cs := mkFake [("*", "*", ObjectReaction (fake_tracker cs))] [("*", watch_reaction (fake_tracker cs))]]> h
      ∧ fq_fake (Fake_Queues (Fake_SchedulingV1 cs)) = fake_Fake cs ∧ Fake_Discovery cs = fake_Fake cs
  end.
Proof.
  intros o. unfold NewSimpleClientset, mbind, st_bind, st_lift, st_get, st_put.
  destruct (add_objects _ objects) as [o'|] eqn:E; [|done]. apply add_objects_ok in E.
  cbn beta iota. set (l := fresh (dom h)). assert (h !! l = None) as Hl.
  { apply not_elem_of_dom. apply is_fresh. }
  clearbody l. cbn [fake_Fake]. rewrite !update_fake_eq. cbn beta iota.
  unfold mret, st_ret. cbn [fake_Fake fake_tracker]. done.
Qed.
End fakes.

(** ** Informers, independent of a factory or by resource *)
Section informer_access.
Context {SO : SchemeOps} {CO : CacheOps} {Indexer GenericLister StopCh : Type}.
Variables (GetIndexer : SharedIndexInformer → Indexer) (NewGenericLister : Indexer → string * string → GenericLister).
(** [wait.ContextForChannel] *)
Variable ContextForChannel : StopCh → Context.

Definition NewQueueInformer (c : Client) (resyncPeriod : Z) (indexers : Indexers) : SharedIndexInformer :=
  NewQueueInformerWithOptions c (mkInformerOptions resyncPeriod indexers None None).
Definition NewFilteredQueueInformer (c : Client) (resyncPeriod : Z) (indexers : Indexers)
    (tweak : option TweakListOptionsFunc) : SharedIndexInformer :=
  NewQueueInformerWithOptions c (mkInformerOptions resyncPeriod indexers None tweak).

(** The parts of the path [Scheduling().V1()]. *)
Definition group_New (namespace : string) (tweak : option TweakListOptionsFunc) : group := mkGroup namespace tweak.
Definition version_New (namespace : string) (tweak : option TweakListOptionsFunc) : version := mkVersion namespace tweak.

Definition factory_InformerName (f : sharedInformerFactory) : option InformerName := informerName f.
Definition Start (stopCh : StopCh) : st fworld unit := StartWithContext (ContextForChannel stopCh).

(** The whole wait, of which [HasSynced] and [cause] are what the informers and
    the context answer once [cache.WaitFor] has returned. *)
Definition WaitForCacheSyncWithContext (HasSynced : loc → bool) (cause : go_error) : st fworld SyncResult :=
  w ← st_get; mret (sync_result (waited_informers w) HasSynced cause).
Definition WaitForCacheSync (HasSynced : loc → bool) (cause : go_error) : st fworld (gmap string bool) :=
  result ← WaitForCacheSyncWithContext HasSynced cause; mret result.1.

(** The queue informer's lister, over the shared informer's indexer. *)
Definition queueInformer_Lister (q : queueInformer) : st fworld (ResourceIndexer Indexer) :=
  i ← queueInformer_Informer q;
  w ← st_get; informer ← st_some (fw_cells w !! i);
  mret (NewQueueLister (GetIndexer informer)).

(** What [ForResource] returns: the informer and the resource. *)
Record genericInformer := mkGenericInformer { gi_informer : loc; gi_resource : string * string }.
Definition genericInformer_Informer (f : genericInformer) : loc := gi_informer f.
Definition genericInformer_Lister (f : genericInformer) : st fworld GenericLister :=
  w ← st_get; informer ← st_some (fw_cells w !! genericInformer_Informer f);
  mret (NewGenericLister (GetIndexer informer) (gi_resource f)).

(** In a factory whose informers are all allocated, asking for queues by
    resource or by type gives the same shared informer, and both listers, which
    never panic, read that informer's indexer. *)
Theorem listers_share_informer w :
  factory_inv w →
  wp (ForResource (GroupName, Version, "queues")) (λ r w1,
    ∃ i x, r = inl (i, (GroupName, "queues")) ∧ fw_cells w1 !! i = Some x
      ∧ queueInformer_Lister (Queues (V1 (Scheduling (fw_factory w1)))) w1 = Ret (NewQueueLister (GetIndexer x), w1)
      ∧ genericInformer_Lister (mkGenericInformer i (GroupName, "queues")) w1
          = Ret (NewGenericLister (GetIndexer x) (GroupName, "queues"), w1)) w.
Proof.
  intros Hinv. unfold ForResource. rewrite decide_True by done. rewrite wp_bind, wp_get, wp_bind.
  unfold queueInformer_Informer at 1. rewrite wp_bind, wp_get.
  eapply wp_mono; [apply InformerFor_spec|]. intros i w1 Hi. apply wp_ret.
  assert (informers (fw_factory w1) !! "*v1.Queue" = Some i ∧ is_Some (fw_cells w1 !! i)) as [Hi1 [x Hx]].
  { destruct (informers (fw_factory w) !! "*v1.Queue") as [i'|] eqn:E.
    - destruct Hi as [-> ->]. split; [done|]. by eapply fi_cells.
    - destruct Hi as [_ ->]. cbn [fw_factory fw_cells set_informers informers]. rewrite !lookup_insert_eq. by split; [|eexists]. }
  exists i, x. split; [done|]. split; [done|]. split.
  - unfold queueInformer_Lister, queueInformer_Informer, mbind, st_bind, st_get. cbn beta iota.
    rewrite (InformerFor_again _ i) by done. cbn beta iota. by rewrite Hx.
  - unfold genericInformer_Lister, mbind, st_bind, st_get. cbn beta iota. cbn [genericInformer_Informer gi_informer]. by rewrite Hx.
Qed.
End informer_access.

(** ** The command *)
Section command.
Context {AppOption Command : Type}.
(** [app.NewSchedulerCommand], [cli.Run] and [quotaawarepreempt.WithPlugin()]
    (file [Entry]); the result is the exit status given to [os.Exit]. *)
Variables (NewSchedulerCommand : list AppOption → Command) (cli_Run : Command → Z) (with_plugin : AppOption).
Definition main : Z :=
  let command := NewSchedulerCommand [with_plugin] in
  let exitStatus := cli_Run command in
  exitStatus.
End command.

(** ** [setutil.ReadOnlySet]

    The methods of a set that do not change it, for a type of sets of
    Kubernetes' package [sets]. *)
Class ReadOnlySet (Set_ A : Type) := {
  Has : Set_ → A → bool;
  HasAll : Set_ → list A → bool;
  HasAny : Set_ → list A → bool;
  set_Clone : Set_ → Set_;
  set_Difference : Set_ → Set_ → Set_;
  SymmetricDifference : Set_ → Set_ → Set_;
  set_Union : Set_ → Set_ → Set_;
  Intersection : Set_ → Set_ → Set_;
  IsSuperset : Set_ → Set_ → bool;
  set_Equal : Set_ → Set_ → bool;
  UnsortedList : Set_ → list A;
  set_Len : Set_ → nat;
}.
