(* ===== verification/Kubetest.v ===== *)
(** * Kubetest: [internal/kubetest], the managers of test objects

    Creation, deletion and waiting for nodes, pods, priority classes and queues
    in a test cluster.  The API server is a parameter: a server answers each
    request as it likes, given the requests before it.  The state is the list
    of requests sent. *)

From stdpp Require Import base tactics option list gmap strings pretty.
From Stdlib Require Import ZArith Lia.
From S2P Require Import Prelude.
From S2P Require Import External.
From S2P Require Import Concrete.
From S2P Require Import Api.
From S2P Require Import Pods.

(** ** Kubernetes objects, with the fields that the test support reads or writes *)

(** [corev1.NodeCondition] *)
Record NodeCondition := mkNodeCondition { ncond_Type : string; ncond_Status : string }.

(** [corev1.Taint] *)
Record Taint := mkTaint { taint_Key : string; taint_Value : string; taint_Effect : string }.

(** [schedulingv1.PriorityClass] of Kubernetes *)
Record PriorityClass := mkPriorityClass {
  pc_Name : string;
  pc_Value : Z;
  pc_PreemptionPolicy : option string;
}.

(** [metav1.DeleteOptions] and [metav1.ListOptions] *)
Record DeleteOptions := mkDeleteOptions { GracePeriodSeconds : option Z; PropagationPolicy : option string }.
Record ListOptions := mkListOptions { opts_LabelSelector : string }.

Definition NodeReady : string := "Ready".
Definition DeletePropagationBackground : string := "Background".
Definition MergePatchType : string := "application/merge-patch+json".

(** [time.Duration], in nanoseconds. *)
Definition Millisecond : Z := 1000000.
Definition Second : Z := 1000 * Millisecond.

Section objects.
Context {T : ApiTypes}.

(** [corev1.Node] *)
Record NodeObj := mkNodeObj {
  nodeObj_Name : string;
  nodeObj_Annotations : gomap string;
  nodeObj_Labels : gomap string;
  nodeObj_ProviderID : string;
  nodeObj_Taints : list Taint;
  nodeObj_Conditions : list NodeCondition;
  nodeObj_Allocatable : gomap Quantity;
}.

(** The requests sent to the API server. *)
Inductive request {Bytes GetOptions : Type} :=
| NodeCreate (node : NodeObj)
| NodeList (opts : ListOptions)
| NodePatch (name : string) (typ : string) (data : Bytes)
| NodeDeleteCollection (opts : DeleteOptions) (list : ListOptions)
| PodCreate (namespace : string) (pod : Pod)
| PodGet (namespace name : string) (opts : GetOptions)
| PodList (namespace : string) (opts : ListOptions)
| PodDeleteCollection (namespace : string) (opts : DeleteOptions) (list : ListOptions)
| PCCreate (pc : PriorityClass)
| PCDeleteCollection (opts : DeleteOptions) (list : ListOptions)
| QueueCreate (queue : QueueObj)
| QueueDeleteCollection (opts : DeleteOptions) (list : ListOptions)
| NamespaceCreate (name : string)
| NamespaceDelete (name : string) (opts : DeleteOptions)
(** the shutdowns of the two informer factories *)
| InformersShutdown
| DynInformersShutdown.
End objects.
Arguments request {T} Bytes GetOptions.

(** The server's answers, from the requests before; and the other code that the
    managers call. *)
Class ApiServer {T : ApiTypes} (Bytes GetOptions : Type) := {
  on_NodeCreate : list (request Bytes GetOptions) → NodeObj → NodeObj + go_error;
  on_NodeList : list (request Bytes GetOptions) → ListOptions → list NodeObj + go_error;
  on_NodePatch : list (request Bytes GetOptions) → string → Bytes → NodeObj + go_error;
  on_PodCreate : list (request Bytes GetOptions) → string → Pod → Pod + go_error;
  on_PodGet : list (request Bytes GetOptions) → string → string → GetOptions → Pod + go_error;
  on_PodList : list (request Bytes GetOptions) → string → ListOptions → list Pod + go_error;
  on_PCCreate : list (request Bytes GetOptions) → PriorityClass → PriorityClass + go_error;
  on_QueueCreate : list (request Bytes GetOptions) → QueueObj → QueueObj + go_error;
  (** deletions, of collections and of a namespace, and its creation *)
  on_Delete : list (request Bytes GetOptions) → option go_error;
  on_NamespaceCreate : list (request Bytes GetOptions) → option go_error;
  (** [json.Marshal] of the patch that sets [spec.taints] *)
  marshal_taints : list Taint → Bytes + go_error;
  NewUUID : list (request Bytes GetOptions) → string;
  (** [wait.PollUntilContextTimeout] with interval, timeout and "immediate" *)
  PollUntilContextTimeout : Z → Z → bool → st (list (request Bytes GetOptions)) (bool * option go_error) →
    st (list (request Bytes GetOptions)) (option go_error);
  MustParse : string → outcome Quantity;
  (** [corev1.Container] with a name, an image and requests *)
  mkContainer : string → string → gomap Quantity → Container;
}.

(** The runs of a polled condition: again and again until it is done, fails or
    the time is over, and at least once. *)
Inductive polled {S} (cond : st S (bool * option go_error)) : S → option go_error → S → Prop :=
| polled_done s s' : cond s = Ret ((true, None), s') → polled cond s None s'
| polled_error s b e s' : cond s = Ret ((b, Some e), s') → polled cond s (Some e) s'
| polled_timeout s e s' : cond s = Ret ((false, None), s') → polled cond s (Some e) s'
| polled_again s s1 r s' : cond s = Ret ((false, None), s1) → polled cond s1 r s' → polled cond s r s'.

(** What [PollUntilContextTimeout] documents for immediate polling. *)
Class PollLaws {T : ApiTypes} {Bytes GetOptions} {A : ApiServer Bytes GetOptions} : Prop := {
  poll_immediate interval timeout cond log :
    (∀ log, cond log ≠ Panic) →
    ∃ r log', PollUntilContextTimeout interval timeout true cond log = Ret (r, log') ∧ polled cond log r log';
}.

Section managers.
Context {T : ApiTypes} {Bytes GetOptions : Type} {A : ApiServer Bytes GetOptions}.
Abbreviation log := (list (request Bytes GetOptions)).

(** One request. *)
Definition send {R} (req : request Bytes GetOptions) (answer : log → R) : st log R :=
  λ l, Ret (answer l, l ++ [req]).

(** Options of the deletions: at once, in the background. *)
Definition delete_now : DeleteOptions := mkDeleteOptions (Some 0%Z) (Some DeletePropagationBackground).
Definition kwok_nodes : ListOptions := mkListOptions "type=kwok".
Definition everything : ListOptions := mkListOptions "".

(** *** nodes.go *)
Definition NewKWOKNode (name : string) : NodeObj := {|
  nodeObj_Name := name;
  nodeObj_Annotations := Some {[ "kwok.x-k8s.io/node" := "fake" ]};
  nodeObj_Labels := Some {[ "type" := "kwok" ]};
  nodeObj_ProviderID := "kwok://fake-node";
  nodeObj_Taints := [];
  nodeObj_Conditions := [];
  nodeObj_Allocatable := None;
|}.

Definition worker_name (i : nat) : string := "worker-" +:+ pretty i.

Definition CreateNodes_body (acc : list NodeObj * option go_error) (i : nat)
    : st log ((list NodeObj * option go_error) + False) :=
  let '(nodes, errs) := acc in
  let nodeToCreate := NewKWOKNode (worker_name i) in
  createdNode ← send (NodeCreate nodeToCreate) (λ l, on_NodeCreate l nodeToCreate);
  match createdNode with
  | inr err => mret (inl (nodes, errors_Join errs (Some err)))
  | inl createdNode => mret (inl (nodes ++ [createdNode], errs))
  end.

(** [make] panics on a negative capacity. *)
Definition CreateNodes (count : Z) : st log (list NodeObj * option go_error) :=
  if (count <? 0)%Z then st_panic
  else
    r ← st_loop (seq 0 (Z.to_nat count)) CreateNodes_body ([], None);
    match r with inl r => mret r | inr no => False_rect _ no end.

Record WaitOpts := mkWaitOpts { PollInterval : Z; Timeout : Z }.

(** The defaults of an options value, for zero fields. *)
Definition wait_defaults (interval timeout : Z) (opts : WaitOpts) : WaitOpts :=
  let opts := if (PollInterval opts =? 0)%Z then mkWaitOpts interval (Timeout opts) else opts in
  if (Timeout opts =? 0)%Z then mkWaitOpts (PollInterval opts) timeout else opts.

Definition not_ready_taint (tnt : Taint) : bool := bool_decide (taint_Key tnt = "node.kubernetes.io/not-ready").

(** What is done for a node once a ready condition of it is found: [None], or an error. *)
Definition remove_not_ready (node : NodeObj) : st log (option go_error) :=
  let updatedTaints := filter (λ tnt, not_ready_taint tnt = false) (nodeObj_Taints node) in
  if (length updatedTaints <? length (nodeObj_Taints node))%nat then
    match marshal_taints updatedTaints with
    | inr err => mret (Some err)
    | inl patch =>
        r ← send (NodePatch (nodeObj_Name node) MergePatchType patch) (λ l, on_NodePatch l (nodeObj_Name node) patch);
        match r with inr err => mret (Some err) | inl _ => mret None end
    end
  else mret None.

Definition is_ready_cond (cond : NodeCondition) : bool :=
  bool_decide (ncond_Type cond = NodeReady) && bool_decide (ncond_Status cond = ConditionTrue).

(** The loop over a node's conditions, left at the first that says ready. *)
Fixpoint conditions_loop (node : NodeObj) (conds : list NodeCondition) (readyCount : nat) : st log (nat + go_error) :=
  match conds with
  | [] => mret (inl readyCount)
  | cond :: conds =>
      if is_ready_cond cond then
        err ← remove_not_ready node;
        match err with
        | Some err => mret (inr err)
        | None => mret (inl (S readyCount))
        end
      else conditions_loop node conds readyCount
  end.

Definition WaitForNodesReady_cond : st log (bool * option go_error) :=
  nodes ← send (NodeList kwok_nodes) (λ l, on_NodeList l kwok_nodes);
  match nodes with
  | inr err => mret (false, Some err)
  | inl items =>
      r ← st_loop items (λ readyCount node, conditions_loop node (nodeObj_Conditions node) readyCount) 0%nat;
      match r with
      | inr err => mret (false, Some err)
      | inl readyCount => mret (bool_decide (readyCount = length items), None)
      end
  end.

Definition WaitForNodesReady (opts : WaitOpts) : st log (option go_error) :=
  let opts := wait_defaults (500 * Millisecond) (10 * Second) opts in
  PollUntilContextTimeout (PollInterval opts) (Timeout opts) true WaitForNodesReady_cond.

Definition CreateAndWaitForReady (count : Z) (opts : WaitOpts) : st log (list NodeObj * option go_error) :=
  '(nodes, err) ← CreateNodes count;
  match err with
  | Some err => mret (nodes, Some err)
  | None =>
      err ← WaitForNodesReady opts;
      match err with
      | Some err => mret (nodes, Some err)
      | None => mret (nodes, None)
      end
  end.

Definition GetAllocatableByNode : st log (gomap (gomap Quantity) * option go_error) :=
  nodeList ← send (NodeList kwok_nodes) (λ l, on_NodeList l kwok_nodes);
  match nodeList with
  | inr err => mret (None, Some err)
  | inl items =>
      let result := foldl (λ result node, <[nodeObj_Name node := nodeObj_Allocatable node]> result) ∅ items in
      mret (Some result, None)
  end.

Definition NodeMgr_DeleteAll : st log (option go_error) :=
  send (NodeDeleteCollection delete_now kwok_nodes) on_Delete.

Definition DeleteAllWait_cond : st log (bool * option go_error) :=
  nodeList ← send (NodeList kwok_nodes) (λ l, on_NodeList l kwok_nodes);
  match nodeList with
  | inr err => mret (false, Some err)
  | inl items => mret (bool_decide (length items = 0%nat), None)
  end.

Definition DeleteAllWait (opts : WaitOpts) : st log (option go_error) :=
  let opts := wait_defaults (250 * Millisecond) (30 * Second) opts in
  err ← NodeMgr_DeleteAll;
  match err with
  | Some err => mret (Some err)
  | None => PollUntilContextTimeout (PollInterval opts) (Timeout opts) true DeleteAllWait_cond
  end.

(** *** pods.go *)
Record PodManager := mkPodManager { podMgr_namespace : string }.
Definition NewPodManager (namespace : string) : PodManager := mkPodManager namespace.

(** envtest_context.go *)
Definition SchedulerName : string := "kaschnit-scheduler".

Definition PodMgr_Create (mgr : PodManager) (opts : list PodOption) : st log (Pod + go_error) :=
  let opts := [Pods.WithNamespace (podMgr_namespace mgr); WithSchedulerName SchedulerName] ++ opts in
  l ← st_get;
  pod ← st_lift (pods_New (NewUUID l) opts);
  send (PodCreate (podMgr_namespace mgr) pod) (λ l, on_PodCreate l (podMgr_namespace mgr) pod).

Definition PodMgr_Get (mgr : PodManager) (name : string) (opts : GetOptions) : st log (Pod + go_error) :=
  send (PodGet (podMgr_namespace mgr) name opts) (λ l, on_PodGet l (podMgr_namespace mgr) name opts).

Definition PodMgr_List (mgr : PodManager) (opts : ListOptions) : st log (list Pod + go_error) :=
  send (PodList (podMgr_namespace mgr) opts) (λ l, on_PodList l (podMgr_namespace mgr) opts).

Definition PodMgr_DeleteAll (mgr : PodManager) : st log (option go_error) :=
  send (PodDeleteCollection (podMgr_namespace mgr) delete_now everything) on_Delete.

(** [{cpu: 1, memory: 1Gi}]: [resource.MustParse] panics on what is no quantity. *)
Definition dummy_requests : outcome (gmap string Quantity) :=
  cpu ← MustParse "1";
  memory ← MustParse "1Gi";
  mret (<["memory" := memory]> {["cpu" := cpu]}).

(** The option; its default amounts are parsed when it is made. *)
Definition WithDummyContainer (requests : gomap Quantity) : outcome PodOption :=
  requests ← match requests with Some m => Ret m | None => dummy_requests end;
  mret ((λ p, Ret (Pod_update p (pod_Name p) (pod_Namespace p) (pod_SchedulerName p)
    (pod_PriorityClassName p) (pod_Labels p) [mkContainer "test-container" "fake-image" (Some requests)])) : PodOption).

(** *** pc.go *)
Definition NewPC (name : string) (value : Z) (preempt : bool) : PriorityClass :=
  let preemptionPolicy := if preempt then PreemptLowerPriority else PreemptNever in
  mkPriorityClass name value (Some preemptionPolicy).

Definition PCMgr_Create_body (createdPCs : list PriorityClass) (pc : PriorityClass)
    : st log (list PriorityClass + list PriorityClass * option go_error) :=
  createdPC ← send (PCCreate pc) (λ l, on_PCCreate l pc);
  match createdPC with
  | inr err => mret (inr (createdPCs, Some err))
  | inl createdPC => mret (inl (createdPCs ++ [createdPC]))
  end.

Definition PCMgr_Create (pcs : list PriorityClass) : st log (list PriorityClass * option go_error) :=
  r ← st_loop pcs PCMgr_Create_body [];
  match r with inl createdPCs => mret (createdPCs, None) | inr r => mret r end.

Definition PCMgr_DeleteAll : st log (option go_error) :=
  send (PCDeleteCollection delete_now everything) on_Delete.

(** *** queues.go *)
Definition QueueMgr_Create_body (createdQs : list QueueObj) (q : QueueObj)
    : st log (list QueueObj + list QueueObj * option go_error) :=
  createdQ ← send (QueueCreate q) (λ l, on_QueueCreate l q);
  match createdQ with
  | inr err => mret (inr (createdQs, Some err))
  | inl createdQ => mret (inl (createdQs ++ [createdQ]))
  end.

Definition QueueMgr_Create (queues : list QueueObj) : st log (list QueueObj * option go_error) :=
  r ← st_loop queues QueueMgr_Create_body [];
  match r with inl createdQs => mret (createdQs, None) | inr r => mret r end.

Definition QueueMgr_DeleteAll : st log (option go_error) :=
  send (QueueDeleteCollection delete_now everything) on_Delete.
End managers.

(** ** Creation *)
Section creation.
Context {T : ApiTypes} {Bytes GetOptions : Type} {A : ApiServer Bytes GetOptions}.
Abbreviation log := (list (request Bytes GetOptions)).

(** The server's answers to creations one after the other. *)
Fixpoint answers {X} (req : X → request Bytes GetOptions) (on : log → X → X + go_error) (l : log) (xs : list X)
    : list (X + go_error) :=
  match xs with
  | [] => []
  | x :: xs => on l x :: answers req on (l ++ [req x]) xs
  end.

Definition created {X} (a : X + go_error) : option X := match a with inl x => Some x | inr _ => None end.
Definition failure {X} (a : X + go_error) : option go_error := match a with inl _ => None | inr e => Some e end.

Lemma answers_length {X} req on l (xs : list X) : length (answers req on l xs) = length xs.
Proof. induction xs as [|x xs IH] in l |- *; simpl; auto. Qed.

(** The error that the loop over the nodes accumulates. *)
Definition joined {X} (errs : option go_error) (ans : list (X + go_error)) : option go_error :=
  foldl (λ errs a, match failure a with Some e => errors_Join errs (Some e) | None => errs end) errs ans.

Lemma joined_None {X} errs (ans : list (X + go_error)) :
  joined errs ans = None ↔ errs = None ∧ Forall (λ a, is_Some (created a)) ans.
Proof.
  induction ans as [|[x|e] ans IH] in errs |- *; cbn [joined foldl failure].
  - split; [intros ->; by split; [|constructor]|by intros [-> _]].
  - fold (joined errs ans). rewrite IH, Forall_cons. cbn [created]. split; [intros [-> ?]|tauto].
    split; [done|]. split; [by eexists|done].
  - fold (joined (errors_Join errs (Some e)) ans). rewrite IH, Forall_cons. cbn [created]. split.
    + intros [H _]. by destruct errs.
    + by intros (_ & [? [=]] & _).
Qed.

Lemma joined_Is {X} errs (ans : list (X + go_error)) e target :
  errors_Is e target = true → (inr e ∈ ans ∨ ∃ e0, errs = Some e0 ∧ errors_Is e0 target = true) →
  ∃ j, joined errs ans = Some j ∧ errors_Is j target = true.
Proof.
  intros He. induction ans as [|a ans IH] in errs |- *; cbn [joined foldl].
  { intros [[]%elem_of_nil|H]; done. }
  intros Hin. apply IH. rewrite elem_of_cons in Hin.
  destruct Hin as [[<-|Hin]|(e0 & -> & He0)]; [right|by left|right]; cbn [failure].
  - apply (errors_JoinAll_Is [errs; Some e] e); [set_solver|done].
  - destruct (failure a) as [e1|]; [|by exists e0]. apply (errors_JoinAll_Is [Some e0; Some e1] e0); [set_solver|done].
Qed.

(** Everything was made when as many objects came back as were asked for. *)
Lemma all_created {X} (ans : list (X + go_error)) :
  length (omap created ans) = length ans ↔ Forall (λ a, is_Some (created a)) ans.
Proof.
  assert ((length (omap created ans) ≤ length ans)%nat ∧
    (length (omap created ans) = length ans ↔ Forall (λ a, is_Some (created a)) ans)) as [_ H]; [|exact H].
  induction ans as [|a ans [Hle IH]]; [by split; [|split; [constructor|]]|].
  rewrite Forall_cons, <- IH. cbn [omap list_omap length]. destruct (created a) as [x|]; cbn [length].
  - split; [lia|]. split; [split; [by eexists|lia]|lia].
  - split; [lia|]. split; [lia|]. by intros [[? [=]] _].
Qed.

Definition new_nodes (n : nat) : list NodeObj := NewKWOKNode ∘ worker_name <$> seq 0 n.

Lemma CreateNodes_body_eq acc errs i l :
  let node := NewKWOKNode (worker_name i) in
  let a := on_NodeCreate l node in
  CreateNodes_body (acc, errs) i l =
    Ret (inl (acc ++ omap created [a], joined errs [a]), l ++ [NodeCreate node]).
Proof.
  cbv zeta. unfold CreateNodes_body, mbind, st_bind, send.
  destruct (on_NodeCreate l (NewKWOKNode (worker_name i))) as [node|e]; cbn [joined foldl failure omap list_omap created].
  - done.
  - unfold mret, st_ret. by rewrite app_nil_r.
Qed.

Lemma joined_app {X} errs (l1 l2 : list (X + go_error)) : joined errs (l1 ++ l2) = joined (joined errs l1) l2.
Proof. apply foldl_app. Qed.

Lemma CreateNodes_loop idx : ∀ acc errs l,
  let nodes := NewKWOKNode ∘ worker_name <$> idx in
  let ans := answers NodeCreate on_NodeCreate l nodes in
  st_loop idx CreateNodes_body (acc, errs) l =
    Ret (inl (acc ++ omap created ans, joined errs ans), l ++ (NodeCreate <$> nodes)).
Proof.
  induction idx as [|i idx IH]; intros acc errs l; cbv zeta.
  { cbn. unfold mret, st_ret. by rewrite !app_nil_r. }
  cbn [st_loop fmap list_fmap]. set (node := NewKWOKNode (worker_name i)).
  unfold mbind, st_bind. rewrite CreateNodes_body_eq. cbv beta iota zeta. fold node. rewrite IH. cbv zeta.
  replace ((NewKWOKNode ∘ worker_name) i) with node by done. cbn [answers].
  generalize (on_NodeCreate l node). intros a. generalize (answers NodeCreate on_NodeCreate (l ++ [NodeCreate node]) (NewKWOKNode ∘ worker_name <$> idx)).
  intros rest. change (a :: rest) with ([a] ++ rest). rewrite (omap_app created [a] rest), (joined_app errs [a] rest).
  by rewrite <- !app_assoc.
Qed.

(** [CreateNodes] asks for each of [count] nodes, "worker-0" on, whatever fails:
    it returns the nodes that were made, and an error exactly when one was not,
    which is each of the errors that the server gave. *)
Theorem CreateNodes_correct count l :
  (0 ≤ count)%Z →
  let ans := answers NodeCreate on_NodeCreate l (new_nodes (Z.to_nat count)) in
  ∃ errs, CreateNodes count l = Ret ((omap created ans, errs), l ++ (NodeCreate <$> new_nodes (Z.to_nat count)))
    ∧ (errs = None ↔ Z.of_nat (length (omap created ans)) = count)
    ∧ ∀ e target, inr e ∈ ans → errors_Is e target = true →
        ∃ j, errs = Some j ∧ errors_Is j target = true.
Proof.
  intros Hc ans. exists (joined None ans). unfold CreateNodes.
  destruct (Z.ltb_spec count 0); [lia|]. split_and!.
  - unfold mbind, st_bind. rewrite CreateNodes_loop. cbv zeta. done.
  - assert (length ans = Z.to_nat count) as Hlen.
    { unfold ans, new_nodes. by rewrite answers_length, length_fmap, length_seq. }
    rewrite joined_None, <- all_created. split; [intros [_ ?]|intros ?; split; [done|]]; lia.
  - intros e target Hin He. apply (joined_Is None ans e target He). by left.
Qed.
(** A creation loop that stops at the first failure. *)
Definition create_body {X} (req : X → request Bytes GetOptions) (on : log → X → X + go_error)
    (made : list X) (x : X) : st log (list X + list X * option go_error) :=
  r ← send (req x) (λ l, on l x);
  match r with inr err => mret (inr (made, Some err)) | inl y => mret (inl (made ++ [y])) end.

Lemma create_body_eq {X} (req : X → request Bytes GetOptions) on made x l :
  create_body req on made x l =
    Ret (match on l x with inl y => inl (made ++ [y]) | inr e => inr (made, Some e) end, l ++ [req x]).
Proof. unfold create_body, send, mbind, st_bind. by destruct (on l x). Qed.

(** The objects made before the first failure, with that failure, and the number of requests. *)
Fixpoint until_failure {X} (ans : list (X + go_error)) : list X * option go_error * nat :=
  match ans with
  | [] => ([], None, 0%nat)
  | inr e :: _ => ([], Some e, 1%nat)
  | inl x :: ans => let '(made, err, n) := until_failure ans in (x :: made, err, S n)
  end.

Lemma create_loop {X} (req : X → request Bytes GetOptions) on xs : ∀ made l,
  let '(more, err, n) := until_failure (answers req on l xs) in
  st_loop xs (create_body req on) made l =
    Ret (match err with Some _ => inr (made ++ more, err) | None => inl (made ++ more) end, l ++ (req <$> take n xs)).
Proof.
  induction xs as [|x xs IH]; intros made l; cbn [answers until_failure st_loop].
  { unfold mret, st_ret. cbn. by rewrite !app_nil_r. }
  unfold mbind, st_bind. rewrite create_body_eq. destruct (on l x) as [y|e]; cbn [until_failure].
  - specialize (IH (made ++ [y]) (l ++ [req x])).
    destruct (until_failure (answers req on (l ++ [req x]) xs)) as [[more err] n].
    rewrite IH. cbn [take fmap list_fmap]. by rewrite <- !app_assoc.
  - unfold mret, st_ret. cbn. by rewrite app_nil_r.
Qed.

Lemma until_failure_spec {X} (ans : list (X + go_error)) :
  let '(made, err, n) := until_failure ans in
  match err with
  | None => ans = inl <$> made ∧ n = length ans
  | Some e => n = S (length made) ∧ ∃ rest, ans = (inl <$> made) ++ inr e :: rest
  end.
Proof.
  induction ans as [|[x|e] ans IH]; cbn [until_failure]; [done| |by split; [|exists ans]].
  destruct (until_failure ans) as [[made [e|]] n].
  - destruct IH as [-> [rest ->]]. split; [done|]. by exists rest.
  - destruct IH as [-> ->]. by split.
Qed.

(** Priority classes and queues are created in order up to the first failure;
    what was made until then is returned with that error, and nothing further is
    asked for. *)
Theorem Create_stops_at_failure (pcs : list PriorityClass) (queues : list QueueObj) (l : log) :
  (let '(made, err, n) := until_failure (answers PCCreate on_PCCreate l pcs) in
   PCMgr_Create pcs l = Ret ((made, err), l ++ (PCCreate <$> take n pcs))
   ∧ (err = None → length made = length pcs) ∧ (err ≠ None → n = S (length made)))
  ∧ (let '(made, err, n) := until_failure (answers QueueCreate on_QueueCreate l queues) in
   QueueMgr_Create queues l = Ret ((made, err), l ++ (QueueCreate <$> take n queues))
   ∧ (err = None → length made = length queues) ∧ (err ≠ None → n = S (length made))).
Proof.
  assert (∀ X (req : X → request Bytes GetOptions) on xs,
    let '(made, err, n) := until_failure (answers req on l xs) in
    (err = None → length made = length xs) ∧ (err ≠ None → n = S (length made))) as Hlen.
  { intros X req on xs. pose proof (until_failure_spec (answers req on l xs)) as H.
    pose proof (answers_length req on l xs) as Hl.
    destruct (until_failure _) as [[made [e|]] n].
    - split; [done|]. by destruct H.
    - split; [|done]. intros _. destruct H as [H _]. rewrite H, length_fmap in Hl. done. }
  split.
  - pose proof (create_loop PCCreate on_PCCreate pcs [] l) as H. specialize (Hlen _ PCCreate on_PCCreate pcs).
    destruct (until_failure _) as [[made err] n]. split; [|done].
    change PCMgr_Create_body with (create_body PCCreate on_PCCreate) in *. unfold PCMgr_Create, mbind, st_bind.
    change PCMgr_Create_body with (create_body PCCreate on_PCCreate). rewrite H. by destruct err.
  - pose proof (create_loop QueueCreate on_QueueCreate queues [] l) as H. specialize (Hlen _ QueueCreate on_QueueCreate queues).
    destruct (until_failure _) as [[made err] n]. split; [|done].
    change QueueMgr_Create_body with (create_body QueueCreate on_QueueCreate) in *. unfold QueueMgr_Create, mbind, st_bind.
    change QueueMgr_Create_body with (create_body QueueCreate on_QueueCreate). rewrite H. by destruct err.
Qed.

(** The pod manager creates in its own namespace, for the test scheduler; an
    option may override both in the pod.  It panics only where an option does. *)
Theorem PodMgr_Create_correct mgr opts (l : log) :
  match PodMgr_Create mgr opts l with
  | Panic => pods_New (NewUUID l) ([Pods.WithNamespace (podMgr_namespace mgr); WithSchedulerName SchedulerName] ++ opts) = Panic
  | Ret (r, l') => ∃ pod, l' = l ++ [PodCreate (podMgr_namespace mgr) pod]
      ∧ r = on_PodCreate l (podMgr_namespace mgr) pod
      ∧ (opts = [] → pod_Name pod = NewUUID l ∧ pod_Namespace pod = podMgr_namespace mgr
           ∧ pod_SchedulerName pod = SchedulerName)
  end.
Proof.
  unfold PodMgr_Create, mbind, st_bind, st_get, st_lift, send.
  destruct (pods_New (NewUUID l) _) as [pod|] eqn:E; [|done].
  exists pod. split_and!; [done|done|]. intros ->. by injection E as <-.
Qed.
End creation.

(** ** Waiting *)
Section waiting.
Context {T : ApiTypes} {Bytes GetOptions : Type} {A : ApiServer Bytes GetOptions}.
Abbreviation log := (list (request Bytes GetOptions)).

Definition node_ready (node : NodeObj) : bool := existsb is_ready_cond (nodeObj_Conditions node).

(** The taints to set on a node that is ready and still has a not-ready taint. *)
Definition untaint (node : NodeObj) : option (string * list Taint) :=
  if node_ready node && existsb not_ready_taint (nodeObj_Taints node)
  then Some (nodeObj_Name node, filter (λ tnt, not_ready_taint tnt = false) (nodeObj_Taints node))
  else None.

(** The patches for [work], up to the first that fails. *)
Inductive patched : log → list (string * list Taint) → option go_error → log → Prop :=
| patched_nil l : patched l [] None l
| patched_marshal l name taints work e : marshal_taints taints = inr e → patched l ((name, taints) :: work) (Some e) l
| patched_refused l name taints work data e :
    marshal_taints taints = inl data → on_NodePatch l name data = inr e →
    patched l ((name, taints) :: work) (Some e) (l ++ [NodePatch name MergePatchType data])
| patched_next l name taints work data node err l' :
    marshal_taints taints = inl data → on_NodePatch l name data = inl node →
    patched (l ++ [NodePatch name MergePatchType data]) work err l' →
    patched l ((name, taints) :: work) err l'.

Lemma filter_shorter (tnts : list Taint) :
  (length (filter (λ tnt, not_ready_taint tnt = false) tnts) <? length tnts)%nat = existsb not_ready_taint tnts.
Proof.
  induction tnts as [|t tnts IH]; [done|]. rewrite filter_cons. simpl.
  pose proof (length_filter (λ tnt, not_ready_taint tnt = false) tnts) as Hle.
  destruct (not_ready_taint t); simpl.
  - apply Nat.ltb_lt. lia.
  - rewrite <- IH. done.
Qed.

Lemma remove_not_ready_spec node (l : log) :
  node_ready node = true →
  ∃ err l', remove_not_ready node l = Ret (err, l')
    ∧ ∀ work err' l'', (match err with Some _ => err' = err ∧ l'' = l' | None => patched l' work err' l'' end) →
        patched l (option_list (untaint node) ++ work) err' l''.
Proof.
  intros Hr. unfold remove_not_ready, untaint. rewrite filter_shorter, Hr. cbn [andb].
  destruct (existsb not_ready_taint (nodeObj_Taints node)); cbn [option_list app].
  2:{ exists None, l. by split. }
  set (taints := filter _ _). destruct (marshal_taints taints) as [data|e] eqn:Em.
  2:{ exists (Some e), l. split; [done|]. intros work err' l'' [-> ->]. by apply patched_marshal. }
  unfold send, mbind, st_bind. destruct (on_NodePatch l (nodeObj_Name node) data) as [node'|e] eqn:Ep.
  - eexists None, _. split; [done|]. intros work err' l'' Hp. by eapply patched_next.
  - eexists (Some e), _. split; [done|]. intros work err' l'' [-> ->]. by eapply patched_refused.
Qed.

Lemma conditions_loop_spec node conds n (l : log) :
  conditions_loop node conds n l =
    if existsb is_ready_cond conds then
      (err ← remove_not_ready node; match err with Some err => mret (inr err) | None => mret (inl (S n)) end) l
    else Ret (inl n, l).
Proof.
  induction conds as [|c conds IH]; [done|]. cbn [conditions_loop existsb].
  destruct (is_ready_cond c); [done|]. exact IH.
Qed.

Definition ready_number (nodes : list NodeObj) : nat := length (filter (λ node, node_ready node = true) nodes).

Lemma nodes_loop_spec nodes : ∀ n (l : log),
  ∃ r l', st_loop nodes (λ n node, conditions_loop node (nodeObj_Conditions node) n) n l = Ret (r, l')
    ∧ patched l (omap untaint nodes) (match r with inl _ => None | inr e => Some e end) l'
    ∧ ∀ n', r = inl n' → n' = (n + ready_number nodes)%nat.
Proof.
  induction nodes as [|node nodes IH]; intros n l; cbn [st_loop].
  { exists (inl n), l. split_and!; [done|constructor|]. intros n' [= <-]. unfold ready_number. simpl. lia. }
  unfold mbind at 1, st_bind at 1. rewrite conditions_loop_spec. fold (node_ready node).
  replace (omap untaint (node :: nodes)) with (option_list (untaint node) ++ omap untaint nodes)
    by (cbn [omap list_omap]; by destruct (untaint node)).
  unfold ready_number. rewrite filter_cons. fold (ready_number nodes). destruct (node_ready node) eqn:Hr.
  - destruct (remove_not_ready_spec node l Hr) as (err & l1 & He & Hp). unfold mbind, st_bind. rewrite He.
    destruct err as [e|]; unfold mret, st_ret.
    + exists (inr e), l1. split_and!; [done| |done]. by apply Hp.
    + destruct (IH (S n) l1) as (r & l' & -> & Hpr & Hn). exists r, l'. split_and!; [done|by apply Hp|].
      intros n' Hn'. rewrite decide_True by done. cbn [length]. fold (ready_number nodes). rewrite (Hn n' Hn'). lia.
  - destruct (IH n l) as (r & l' & -> & Hpr & Hn). exists r, l'. split_and!; [done| |].
    + unfold untaint. rewrite Hr. done.
    + rewrite decide_False by done. exact Hn.
Qed.
Lemma ready_all nodes :
  bool_decide (ready_number nodes = length nodes) = forallb node_ready nodes.
Proof.
  unfold ready_number. induction nodes as [|node nodes IH]; [done|].
  pose proof (length_filter (λ node, node_ready node = true) nodes) as Hle.
  rewrite filter_cons. simpl. destruct (node_ready node); simpl.
  - rewrite <- IH. apply bool_decide_ext. lia.
  - apply bool_decide_eq_false. lia.
Qed.

(** One look at the nodes: their number of ready ones decides, and the ready
    ones lose their not-ready taints, up to the first failure. *)
Lemma WaitForNodesReady_cond_spec (l : log) :
  ∃ b err l', WaitForNodesReady_cond l = Ret ((b, err), l') ∧
    match on_NodeList l kwok_nodes with
    | inr e => b = false ∧ err = Some e ∧ l' = l ++ [NodeList kwok_nodes]
    | inl nodes => patched (l ++ [NodeList kwok_nodes]) (omap untaint nodes) err l'
        ∧ b = match err with None => forallb node_ready nodes | Some _ => false end
    end.
Proof.
  unfold WaitForNodesReady_cond, send, mbind, st_bind.
  destruct (on_NodeList l kwok_nodes) as [nodes|e]; [|by eexists _, _, _].
  destruct (nodes_loop_spec nodes 0 (l ++ [NodeList kwok_nodes])) as (r & l' & -> & Hp & Hn).
  destruct r as [n|e]; eexists _, _, l'; (split; [done|]); (split; [exact Hp|]); [|done].
  rewrite (Hn n eq_refl). apply ready_all.
Qed.

(** A condition that always answers "not yet" before it is done. *)
Lemma polled_nil {S} (cond : st S (bool * option go_error)) s r s' :
  polled cond s r s' → r = None → ∃ s0, cond s0 = Ret ((true, None), s').
Proof. induction 1; intros Hr; [by eexists|discriminate..|by auto]. Qed.

Context {PL : PollLaws}.

(** [WaitForNodesReady] returns; without an error, the nodes of its last look
    were all ready, and each not-ready taint that one of them still had was
    taken away by a patch that the server accepted. *)
Theorem WaitForNodesReady_correct opts (l : log) :
  ∃ r l', WaitForNodesReady opts l = Ret (r, l') ∧
    (r = None → ∃ l0 nodes, on_NodeList l0 kwok_nodes = inl nodes
       ∧ (∀ node, node ∈ nodes → node_ready node = true)
       ∧ patched (l0 ++ [NodeList kwok_nodes]) (omap untaint nodes) None l').
Proof.
  unfold WaitForNodesReady. set (o := wait_defaults _ _ opts).
  destruct (poll_immediate (PollInterval o) (Timeout o) WaitForNodesReady_cond l) as (r & l' & Hrun & Hp).
  { intros l0. by destruct (WaitForNodesReady_cond_spec l0) as (b & err & l1 & -> & _). }
  exists r, l'. split; [done|]. intros Hr. destruct (polled_nil _ _ _ _ Hp Hr) as [l0 Hl0].
  destruct (WaitForNodesReady_cond_spec l0) as (b & err & l1 & He & Hc). rewrite He in Hl0. injection Hl0 as -> -> ->.
  exists l0. destruct (on_NodeList l0 kwok_nodes) as [nodes|e]; [|by destruct Hc].
  exists nodes. destruct Hc as [Hpt Hall]. split_and!; [done| |done].
  intros node Hin. symmetry in Hall. rewrite forallb_forall in Hall. apply Hall. by apply list_elem_of_In.
Qed.

Lemma DeleteAllWait_cond_spec (l : log) :
  ∃ b err, DeleteAllWait_cond l = Ret ((b, err), l ++ [NodeList kwok_nodes])
    ∧ (b = true → on_NodeList l kwok_nodes = inl []) ∧ (b = true → err = None).
Proof.
  unfold DeleteAllWait_cond, send, mbind, st_bind.
  destruct (on_NodeList l kwok_nodes) as [[|node nodes]|e]; by eexists _, _.
Qed.

Lemma polled_lists l r (l' : log) :
  polled DeleteAllWait_cond l r l' → ∃ k, l' = l ++ replicate (S k) (NodeList kwok_nodes).
Proof.
  assert (∀ l l' b err, DeleteAllWait_cond l = Ret ((b, err), l') → l' = l ++ [NodeList kwok_nodes]) as Hone.
  { intros l0 l1 b err He. destruct (DeleteAllWait_cond_spec l0) as (b' & err' & He' & _). congruence. }
  induction 1 as [l l' H%Hone|l b e l' H%Hone|l e l' H%Hone|l l1 r l' H%Hone _ [k IH]]; subst; [by exists 0%nat..|].
  exists (S k). by rewrite <- app_assoc.
Qed.

(** [DeleteAllWait] asks for the deletion once; when that is refused it returns
    the error, else it looks at the nodes until it sees none: without an error,
    the last look showed none. *)
Theorem DeleteAllWait_correct opts (l : log) :
  let l1 := l ++ [NodeDeleteCollection delete_now kwok_nodes] in
  ∃ r l', DeleteAllWait opts l = Ret (r, l') ∧
    match on_Delete l with
    | Some err => r = Some err ∧ l' = l1
    | None => (∃ k, l' = l1 ++ replicate (S k) (NodeList kwok_nodes))
        ∧ (r = None → ∃ l0, l' = l0 ++ [NodeList kwok_nodes] ∧ on_NodeList l0 kwok_nodes = inl [])
    end.
Proof.
  intros l1. unfold DeleteAllWait, NodeMgr_DeleteAll, send, mbind, st_bind. fold l1.
  destruct (on_Delete l) as [err|]; [by eexists _, _|]. set (o := wait_defaults _ _ opts).
  destruct (poll_immediate (PollInterval o) (Timeout o) DeleteAllWait_cond l1) as (r & l' & Hrun & Hp).
  { intros l0. by destruct (DeleteAllWait_cond_spec l0) as (b & err & -> & _). }
  exists r, l'. split; [done|]. split; [by eapply polled_lists|].
  intros Hr. destruct (polled_nil _ _ _ _ Hp Hr) as [l0 Hl0].
  destruct (DeleteAllWait_cond_spec l0) as (b & err & He & Hb & _). rewrite He in Hl0. injection Hl0 as -> -> <-.
  exists l0. by split; [|apply Hb].
Qed.

(** Zero fields of the options take the defaults, others are kept. *)
Lemma wait_defaults_spec interval timeout opts :
  interval ≠ 0%Z → timeout ≠ 0%Z →
  PollInterval (wait_defaults interval timeout opts) = (if decide (PollInterval opts = 0%Z) then interval else PollInterval opts)
  ∧ Timeout (wait_defaults interval timeout opts) = (if decide (Timeout opts = 0%Z) then timeout else Timeout opts)
  ∧ PollInterval (wait_defaults interval timeout opts) ≠ 0%Z ∧ Timeout (wait_defaults interval timeout opts) ≠ 0%Z.
Proof.
  intros Hi Ht. unfold wait_defaults.
  destruct (Z.eqb_spec (PollInterval opts) 0) as [E1|E1]; cbn [Timeout PollInterval];
    destruct (Z.eqb_spec (Timeout opts) 0) as [E2|E2]; cbn [Timeout PollInterval];
    (destruct (decide _); [|done]) || (destruct (decide _); [done|]); repeat case_decide; try done.
Qed.

(** The node of several readings that has the name last gives its amounts. *)
Lemma GetAllocatableByNode_spec (l : log) :
  GetAllocatableByNode l = Ret (match on_NodeList l kwok_nodes with
    | inr err => (None, Some err)
    | inl nodes => (Some (list_to_map (reverse ((λ n, (nodeObj_Name n, nodeObj_Allocatable n)) <$> nodes))), None)
    end, l ++ [NodeList kwok_nodes]).
Proof.
  unfold GetAllocatableByNode, send, mbind, st_bind. destruct (on_NodeList l kwok_nodes) as [nodes|err]; [|done].
  unfold mret, st_ret. do 4 f_equal.
  induction nodes as [|n nodes IH] using rev_ind; [done|].
  rewrite foldl_app, fmap_app, reverse_app, IH. done.
Qed.
End waiting.

(** ** The properties at a concrete server *)
Section witnesses.
#[local] Existing Instances c_api.
Abbreviation klog := (list (request (list Taint) unit)).

(** A node that is ready and has a not-ready taint, until that is patched away;
    deleted nodes are gone at the second look. *)
Definition k_node (taints : list Taint) : NodeObj :=
  mkNodeObj "n1" None None "kwok://n1" taints [mkNodeCondition NodeReady ConditionTrue] None.
Definition k_tainted : NodeObj := k_node [mkTaint "node.kubernetes.io/not-ready" "" "NoSchedule"; mkTaint "gpu" "" "NoSchedule"].

Definition k_nodes (l : klog) : list NodeObj :=
  let seen f := existsb f l in
  if seen (λ r, match r with NodeDeleteCollection _ _ => true | _ => false end) then
    if seen (λ r, match r with NodeList _ => true | _ => false end) then [] else [k_tainted]
  else if seen (λ r, match r with NodePatch _ _ _ => true | _ => false end) then [k_node [mkTaint "gpu" "" "NoSchedule"]]
  else [k_tainted].

(** Four looks at most. *)
Fixpoint k_poll (n : nat) (cond : st klog (bool * option go_error)) : st klog (option go_error) := λ l,
  match cond l with
  | Ret ((true, None), l') => Ret (None, l')
  | Ret ((_, Some e), l') => Ret (Some e, l')
  | Ret ((false, None), l') => match n with O => Ret (Some (ErrNew "timed out"), l') | S n => k_poll n cond l' end
  | Panic => Panic
  end.

#[local] Instance k_server : ApiServer (list Taint) unit := {|
  on_NodeCreate _ n := inl n; on_NodeList l _ := inl (k_nodes l); on_NodePatch _ _ taints := inl (k_node taints);
  on_PodCreate _ _ p := inl p; on_PodGet _ _ _ _ := inr (ErrNew "not found"); on_PodList _ _ _ := inl [];
  on_PCCreate _ p := inl p; on_QueueCreate _ q := inl q; on_Delete _ := None; on_NamespaceCreate _ := None;
  marshal_taints := inl; NewUUID _ := "0001"; PollUntilContextTimeout _ _ _ := k_poll 3;
  MustParse _ := Ret 1%Z; mkContainer _ _ _ := [];
|}.

#[local] Instance k_poll_laws : PollLaws (A := k_server).
Proof.
  constructor. intros interval timeout cond l Hc. cbn [PollUntilContextTimeout k_server].
  generalize 3%nat as n. intros n. induction n as [|n IH] in l |- *; cbn [k_poll];
    specialize (Hc l) as Hcl; destruct (cond l) as [[[[] [e|]] l']|] eqn:E; try done;
    try (eexists _, _; split; [done|]; by econstructor).
  destruct (IH l') as (r & l2 & -> & Hp). exists r, l2. split; [done|]. by eapply polled_again.
Qed.

Lemma WaitForNodesReady_correct_witness :
  ∃ l' l0 nodes, WaitForNodesReady (mkWaitOpts 0 0) [] = Ret (None, l')
    ∧ l' = [NodeList kwok_nodes; NodePatch "n1" MergePatchType [mkTaint "gpu" "" "NoSchedule"]]
    ∧ on_NodeList l0 kwok_nodes = inl nodes ∧ (∀ node, node ∈ nodes → node_ready node = true)
    ∧ patched (l0 ++ [NodeList kwok_nodes]) (omap untaint nodes) None l'.
Proof.
  destruct (WaitForNodesReady_correct (mkWaitOpts 0 0) []) as (r & l' & Hrun & H).
  assert (r = None) as -> by (vm_compute in Hrun; injection Hrun as <- _; reflexivity).
  destruct (H eq_refl) as (l0 & nodes & H1 & H2 & H3). exists l', l0, nodes.
  refine (conj Hrun (conj _ (conj H1 (conj H2 H3)))). vm_compute in Hrun. injection Hrun as <-. reflexivity.
Defined.
End witnesses.
