(* ===== verification/TestContext.v ===== *)
(** * TestContext: [internal/kubetest/envtest_context.go]

    The context of a scheduler test: everything it is made of, in the order in
    which it is made, and its clean-up.  Kubernetes' and KWOK's constructors are
    parameters; the scheduler's configuration and the plugin's registration are
    those of file [Entry], the queue clientset that of file [Clients], the
    managers those of file [Kubetest]. *)

From stdpp Require Import base tactics option list gmap strings.
From Stdlib Require Import ZArith Lia.
From S2P Require Import Prelude.
From S2P Require Import External.
From S2P Require Import Concrete.
From S2P Require Import Resources.
From S2P Require Import Api.
From S2P Require Import Pods.
From S2P Require Import Match.
From S2P Require Import State.
From S2P Require Import Plugin.
From S2P Require Import Informers.
From S2P Require Import Clients.
From S2P Require Import Startup.
From S2P Require Import Entry.
From S2P Require Import Kubetest.

(** ** StartEnvTest *)
Section envtest.
Context {Environment : Type}.
(** [envtest.Environment{CRDInstallOptions: {Paths: paths}}] and its [Start]. *)
Variables (new_Environment : list string → Environment) (Environment_Start : Environment → Environment * option go_error).

(** A cleaned absolute path is its list of names; [filepath.Dir] drops the last. *)
Definition filepath_Dir (path : list string) : list string := take (pred (length path)) path.
Definition path_string (path : list string) : string := foldr (λ name s, "/" +:+ name +:+ s) "" path.

(** [thisFile]: what [runtime.Caller(0)] says. *)
Definition StartEnvTest (thisFile : option (list string)) : option Environment * option go_error :=
  match thisFile with
  | None => (None, Some (ErrNew "failed to locate root directory"))
  | Some thisFile =>
      let rootDir := filepath_Dir (filepath_Dir (filepath_Dir thisFile)) in
      let testEnv := new_Environment
        [path_string rootDir +:+ "/charts/kaschnit-scheduler/templates/scheduling.kaschnit.github.io_queues.yaml"] in
      let '(testEnv, err) := Environment_Start testEnv in
      match err with Some err => (Some testEnv, Some err) | None => (Some testEnv, None) end
  end.
End envtest.

(** ** Kubernetes' and KWOK's types and constructors *)
Class EnvTypes := {
  K8sClient : Type; DynClient : Type; KWOKClient : Type; APIGroupResources : Type; RESTMapper : Type;
  InformerFactory : Type; DynInformerFactory : Type; Stage : Type; KWOKController : Type; KubeScheduler : Type;
  Registry : Type; ApiProfile : Type;
}.

(** [kubeschedcfgv1.KubeSchedulerProfile]: the plugins enabled and disabled at
    all extension points. *)
Record SchedulerProfile := mkSchedulerProfile {
  profile_SchedulerName : option string;
  profile_MultiPoint_Enabled : list string;
  profile_MultiPoint_Disabled : list string;
}.
(** [kubeschedcfgv1.KubeSchedulerConfiguration], its metadata aside *)
Record SchedulerConfigV1 := mkSchedulerConfigV1 { v1_Profiles : list SchedulerProfile }.

Section records.
Context {ET : EnvTypes}.

(** The internal configuration, with the fields that are handed on. *)
Record SchedulerConfig := mkSchedulerConfig {
  api_Profiles : list ApiProfile;
  PercentageOfNodesToScore : option Z;
  PodMaxBackoffSeconds : Z;
  PodInitialBackoffSeconds : Z;
  Parallelism : Z;
}.

(** [kwokctrl.Config] *)
Record KWOKConfig := mkKWOKConfig {
  kwok_TypedClient : K8sClient;
  kwok_TypedKwokClient : KWOKClient;
  kwok_RESTMapper : RESTMapper;
  ManageNodesWithAnnotationSelector : string;
  CIDR : string;
  NodeLeaseDurationSeconds : Z;
  NodeIP : string;
  PodPlayStageParallelism : Z;
  NodePlayStageParallelism : Z;
  NodeLeaseParallelism : Z;
  EnablePodCache : bool;
  LocalStages : list (string * string * list Stage);
}.

(** The options of [scheduler.New]. *)
Record SchedulerOptions {RT : RestTypes} := mkSchedulerOptions {
  ComponentConfigVersion : string;
  opt_KubeConfig : Config;
  OutOfTreeRegistry : Registry;
  opt_Profiles : list ApiProfile;
  opt_PercentageOfNodesToScore : option Z;
  opt_PodMaxBackoffSeconds : Z;
  opt_PodInitialBackoffSeconds : Z;
  opt_PodMaxInUnschedulablePodsDuration : Z;
  opt_Parallelism : Z;
}.
End records.

Class EnvOps {T : ApiTypes} {ET : EnvTypes} {RT : RestTypes} {CO : CacheOps} := {
  kubernetes_NewForConfig : Config → K8sClient + go_error;
  dynamic_NewForConfig : Config → DynClient + go_error;
  GetAPIGroupResources : K8sClient → APIGroupResources + go_error;
  NewDiscoveryRESTMapper : APIGroupResources → RESTMapper;
  kwokclient_NewForConfig : Config → KWOKClient + go_error;
  (** [kwokcfg.UnmarshalWithType], on the stages "node init", "pod ready", "pod
      complete" and "pod delete" of KWOK *)
  UnmarshalStage : string → Stage + go_error;
  kwokctrl_NewController : KWOKConfig → KWOKController + go_error;
  KWOKController_Start : KWOKController → option go_error;
  NewInformerFactory : K8sClient → InformerFactory;
  NewDynamicSharedInformerFactory : DynClient → DynInformerFactory;
  scheduler_New : K8sClient → InformerFactory → DynInformerFactory → SchedulerOptions → KubeScheduler + go_error;
  empty_Registry : Registry;
  registry_Register : Registry → string → factory → Registry * option go_error;
  SchemeGroupVersion : string;
  scheme_Default : Versioned SchedulerConfigV1 → Versioned SchedulerConfigV1;
  scheme_Convert : Versioned SchedulerConfigV1 → Versioned SchedulerConfig * option go_error;
  DefaultPodMaxInUnschedulablePodsDuration : Z;
  defaultpreemption_Name : string;
  (** ["test-" + strconv.FormatInt(time.Now().UnixNano(), 36)] *)
  now_base36 : string;
}.

(** What construction starts and asks for, in order. *)
Inductive env_event :=
| KWOKStarted
| InformersStarted
| InformersSynced
| DynInformersStarted
| DynInformersSynced
| NamespaceAsked (name : string).

Section context.
Context {T : ApiTypes} {Q : QuantityOps} {P : PodOps} {L : SelectorOps} {CO : CacheOps}.
Context {RT : RestTypes} {RO : RestOps} {ET : EnvTypes} {EO : EnvOps}.

(** What the plugin's factory needs (file [Startup]); it is only handed on here. *)
Variables (queue_err pod_err node_err : option go_error) (ctx : Context).
Variables (decoded : QuotaAwarePreemptionArgs + go_error) (as_Client : Clientset → Client) (default_async : bool).

Abbreviation setup A := (st (list env_event) A).
Definition event (e : env_event) : setup unit := st_modify (λ es, es ++ [e]).

(** A constructor that may fail; on an error the enclosing function returns it. *)
Definition try {A B} (r : A + go_error) (k : A → setup (B + go_error)) : setup (B + go_error) :=
  match r with inl a => k a | inr err => mret (inr err) end.

Definition newKWOKContoller (k8sClient : K8sClient) (kwokClient : KWOKClient) (restMapper : RESTMapper)
    : setup (KWOKController + go_error) :=
  try (UnmarshalStage "node init") (λ nodeInitStage,
  try (UnmarshalStage "pod ready") (λ podReadyStage,
  try (UnmarshalStage "pod complete") (λ podCompleteStage,
  try (UnmarshalStage "pod delete") (λ podDeleteStage,
  try (kwokctrl_NewController {|
      kwok_TypedClient := k8sClient;
      kwok_TypedKwokClient := kwokClient;
      kwok_RESTMapper := restMapper;
      ManageNodesWithAnnotationSelector := "kwok.x-k8s.io/node=fake";
      CIDR := "10.0.0.0/24";
      NodeLeaseDurationSeconds := 40;
      NodeIP := "10.0.0.1";
      PodPlayStageParallelism := 32;
      NodePlayStageParallelism := 32;
      NodeLeaseParallelism := 4;
      EnablePodCache := true;
      LocalStages := [("v1", "Node", [nodeInitStage]); ("v1", "Pod", [podReadyStage; podCompleteStage; podDeleteStage])];
    |}) (λ kwokController,
  match KWOKController_Start kwokController with
  | Some err => mret (inr err)
  | None => event KWOKStarted ;; mret (inl kwokController)
  end))))).

Definition newKubeSchedulerConfig : Versioned SchedulerConfig * option go_error :=
  ToConfigAPIWithDefaults scheme_Default scheme_Convert SchemeGroupVersion
    (mkVersioned _ SchemeGroupVersion "KubeSchedulerConfiguration"
       (mkSchedulerConfigV1 [mkSchedulerProfile (Some SchedulerName) [PluginName] [defaultpreemption_Name]])).

Definition newPluginRegistry : Registry * option go_error :=
  let '(pluginRegistry, err) :=
    Plugin_Register queue_err pod_err node_err ctx decoded as_Client default_async registry_Register empty_Registry in
  match err with Some err => (pluginRegistry, Some err) | None => (pluginRegistry, None) end.

(** A result with an error, as a sum: callers ignore the result on an error. *)
Definition checked {A} (r : A * option go_error) : A + go_error :=
  match r.2 with Some err => inr err | None => inl r.1 end.

Definition newKubeScheduler (k8sConfig : Config) (k8sClient : K8sClient) (infFactory : InformerFactory)
    (dynInfFactory : DynInformerFactory) : setup (KubeScheduler + go_error) :=
  try (checked newKubeSchedulerConfig) (λ cfg,
  try (checked newPluginRegistry) (λ pluginRegistry,
  try (scheduler_New k8sClient infFactory dynInfFactory {|
    ComponentConfigVersion := "kubescheduler.config.k8s.io/v1";
    opt_KubeConfig := k8sConfig;
    OutOfTreeRegistry := pluginRegistry;
    opt_Profiles := api_Profiles (versioned_rest _ cfg);
    opt_PercentageOfNodesToScore := PercentageOfNodesToScore (versioned_rest _ cfg);
    opt_PodMaxBackoffSeconds := PodMaxBackoffSeconds (versioned_rest _ cfg);
    opt_PodInitialBackoffSeconds := PodInitialBackoffSeconds (versioned_rest _ cfg);
    opt_PodMaxInUnschedulablePodsDuration := DefaultPodMaxInUnschedulablePodsDuration;
    opt_Parallelism := Parallelism (versioned_rest _ cfg);
  |}) (λ kubeScheduler, mret (inl kubeScheduler)))).

(** The fields of [SchedulerContext]; the informer factories are pointers that
    [CleanUp] compares with nil. *)
Record SchedulerContext := mkSchedulerContext {
  tCtx_Namespace : string;
  tCtx_K8sCfg : Config;
  tCtx_K8sClient : K8sClient;
  tCtx_DynClient : DynClient;
  tCtx_SchedulingClient : Clientset;
  tCtx_KWOKClient : KWOKClient;
  tCtx_InformerFactory : option InformerFactory;
  tCtx_DynInformerFactory : option DynInformerFactory;
  tCtx_RESTMapper : RESTMapper;
  tCtx_Scheduler : KubeScheduler;
  tCtx_PodMgr : PodManager;
  tCtx_KWOKController : KWOKController;
}.

(** [ns_err]: the API server's answer to the creation of the namespace. *)
Definition NewSchedulerContext (ns_err : string → option go_error) (k8sConfig : Config)
    : setup (SchedulerContext + go_error) :=
  try (kubernetes_NewForConfig k8sConfig) (λ k8sClient,
  try (dynamic_NewForConfig k8sConfig) (λ dynClient,
  try (GetAPIGroupResources k8sClient) (λ apiGroupResources,
  let restMapper := NewDiscoveryRESTMapper apiGroupResources in
  try (kwokclient_NewForConfig k8sConfig) (λ kwokClient,
  kwokCtrl ← newKWOKContoller k8sClient kwokClient restMapper;
  try kwokCtrl (λ kwokCtrl,
  try (NewForConfig k8sConfig) (λ schedulingClient,
  let infFactory := NewInformerFactory k8sClient in
  event InformersStarted ;; event InformersSynced ;;
  let dynInfFactory := NewDynamicSharedInformerFactory dynClient in
  event DynInformersStarted ;; event DynInformersSynced ;;
  kubeScheduler ← newKubeScheduler k8sConfig k8sClient infFactory dynInfFactory;
  try kubeScheduler (λ kubeScheduler,
  let nsName := now_base36 in
  event (NamespaceAsked nsName) ;;
  match ns_err nsName with
  | Some err => mret (inr err)
  | None => mret (inl {|
      tCtx_Namespace := nsName;
      tCtx_K8sCfg := k8sConfig;
      tCtx_K8sClient := k8sClient;
      tCtx_DynClient := dynClient;
      tCtx_SchedulingClient := schedulingClient;
      tCtx_KWOKClient := kwokClient;
      tCtx_InformerFactory := Some infFactory;
      tCtx_DynInformerFactory := Some dynInfFactory;
      tCtx_RESTMapper := restMapper;
      tCtx_Scheduler := kubeScheduler;
      tCtx_PodMgr := NewPodManager nsName;
      tCtx_KWOKController := kwokCtrl;
    |})
  end))))))).

(** *** CleanUp *)
Section cleanup.
Context {Bytes GetOptions : Type} {A : ApiServer Bytes GetOptions}.

Definition shutdown {F} (factory : option F) (req : request Bytes GetOptions) : st (list (request Bytes GetOptions)) unit :=
  match factory with Some _ => send req (λ _, tt) | None => mret tt end.

(** The arguments of [errors.Join] are evaluated in order, all of them. *)
Definition CleanUp (tCtx : SchedulerContext) : st (list (request Bytes GetOptions)) (option go_error) :=
  e1 ← PodMgr_DeleteAll (tCtx_PodMgr tCtx);
  e2 ← QueueMgr_DeleteAll;
  e3 ← PCMgr_DeleteAll;
  e4 ← DeleteAllWait (mkWaitOpts 0 0);
  e5 ← send (NamespaceDelete (tCtx_Namespace tCtx) delete_now) on_Delete;
  let errs := errors_JoinAll [e1; e2; e3; e4; e5] in
  shutdown (tCtx_InformerFactory tCtx) InformersShutdown ;;
  shutdown (tCtx_DynInformerFactory tCtx) DynInformersShutdown ;;
  mret errs.
End cleanup.
(** ** Properties *)

(** Everything that construction starts and asks for. *)
Definition all_events : list env_event :=
  [KWOKStarted; InformersStarted; InformersSynced; DynInformersStarted; DynInformersSynced; NamespaceAsked now_base36].

(** Why construction may fail after the first [n] of these. *)
Definition fails_after (ns_err : string → option go_error) (k8sConfig : Config) (err : go_error) (n : nat) : Prop :=
  match n with
  | 0%nat => kubernetes_NewForConfig k8sConfig = inr err ∨ dynamic_NewForConfig k8sConfig = inr err
      ∨ kwokclient_NewForConfig k8sConfig = inr err
      ∨ (∃ c, GetAPIGroupResources c = inr err) ∨ (∃ stage, UnmarshalStage stage = inr err)
      ∨ (∃ cfg, kwokctrl_NewController cfg = inr err) ∨ ∃ ctrl, KWOKController_Start ctrl = Some err
  | 1%nat => NewForConfig k8sConfig = inr err
  | 5%nat => checked newKubeSchedulerConfig = inr err ∨ checked newPluginRegistry = inr err
      ∨ ∃ c f d opts, scheduler_New c f d opts = inr err
  | 6%nat => ns_err now_base36 = Some err
  | _ => False
  end.

(** The scheduler runs the plugin's profile, with the plugin registered. *)
Definition scheduler_made (k8sConfig : Config) (tCtx : SchedulerContext) : Prop :=
  ∃ cfg registry opts, checked newKubeSchedulerConfig = inl cfg ∧ checked newPluginRegistry = inl registry
    ∧ OutOfTreeRegistry opts = registry ∧ opt_Profiles opts = api_Profiles (versioned_rest _ cfg)
    ∧ opt_KubeConfig opts = k8sConfig ∧ opt_Parallelism opts = Parallelism (versioned_rest _ cfg)
    ∧ scheduler_New (tCtx_K8sClient tCtx) (NewInformerFactory (tCtx_K8sClient tCtx))
        (NewDynamicSharedInformerFactory (tCtx_DynClient tCtx)) opts = inl (tCtx_Scheduler tCtx).

Lemma wp_try {A B} (r : A + go_error) (k : A → setup (B + go_error)) (K : B + go_error → list env_event → Prop) es :
  (∀ a, r = inl a → wp (k a) K es) → (∀ err, r = inr err → K (inr err) es) → wp (try r k) K es.
Proof. unfold try. destruct r; intros H1 H2; [by apply H1|by apply wp_ret, H2]. Qed.

Lemma newKWOKContoller_spec k8sClient kwokClient restMapper es :
  wp (newKWOKContoller k8sClient kwokClient restMapper) (λ r es',
    match r with
    | inl ctrl => es' = es ++ [KWOKStarted] ∧ ∃ cfg, kwokctrl_NewController cfg = inl ctrl
        ∧ kwok_TypedClient cfg = k8sClient ∧ kwok_TypedKwokClient cfg = kwokClient ∧ kwok_RESTMapper cfg = restMapper
    | inr err => es' = es ∧ ((∃ stage, UnmarshalStage stage = inr err)
        ∨ (∃ cfg, kwokctrl_NewController cfg = inr err) ∨ ∃ ctrl, KWOKController_Start ctrl = Some err)
    end) es.
Proof.
  unfold newKWOKContoller.
  do 4 (apply wp_try; [intros ? _|intros err E; split; [done|left; by eexists]]).
  apply wp_try; [intros ctrl E|intros err E; split; [done|right; left; by eexists]].
  destruct (KWOKController_Start ctrl) as [err|] eqn:Es.
  - apply wp_ret. split; [done|]. right; right. by eexists.
  - apply wp_bind, wp_modify, wp_ret. split; [done|]. by eexists.
Qed.

(** The scheduler is made last, before the namespace. *)
Lemma newKubeScheduler_spec k8sConfig c f d es :
  wp (newKubeScheduler k8sConfig c f d) (λ r es', es' = es ∧
    match r with
    | inl sched => ∃ cfg registry opts, checked newKubeSchedulerConfig = inl cfg ∧ checked newPluginRegistry = inl registry
        ∧ OutOfTreeRegistry opts = registry ∧ opt_Profiles opts = api_Profiles (versioned_rest _ cfg)
        ∧ opt_KubeConfig opts = k8sConfig ∧ opt_Parallelism opts = Parallelism (versioned_rest _ cfg)
        ∧ scheduler_New c f d opts = inl sched
    | inr err => fails_after (λ _, None) k8sConfig err 5
    end) es.
Proof.
  unfold newKubeScheduler.
  apply wp_try; [intros cfg Ec|intros err E; split; [done|by left]].
  apply wp_try; [intros registry Er|intros err E; split; [done|by right; left]].
  apply wp_try; [intros sched Es|intros err E; split; [done|right; right; by eexists _, _, _, _]].
  apply wp_ret. split; [done|]. exists cfg, registry. eexists.
  refine (conj Ec (conj Er (conj _ (conj _ (conj _ (conj _ Es)))))); reflexivity.
Qed.

(** [NewSchedulerContext] makes everything or returns the first error, and then
    nothing past the failed step has been started: in particular a namespace is
    only asked for once the scheduler stands.  On success all parts share the
    clients made, and the pods' manager works in the new namespace. *)
Theorem NewSchedulerContext_correct ns_err k8sConfig :
  wp (NewSchedulerContext ns_err k8sConfig) (λ r es,
    match r with
    | inl tCtx => es = all_events ∧ ns_err now_base36 = None
        ∧ tCtx_Namespace tCtx = now_base36 ∧ podMgr_namespace (tCtx_PodMgr tCtx) = now_base36
        ∧ kubernetes_NewForConfig k8sConfig = inl (tCtx_K8sClient tCtx)
        ∧ NewForConfig k8sConfig = inl (tCtx_SchedulingClient tCtx)
        ∧ is_Some (tCtx_InformerFactory tCtx) ∧ is_Some (tCtx_DynInformerFactory tCtx)
        ∧ scheduler_made k8sConfig tCtx
    | inr err => ∃ n, es = take n all_events ∧ fails_after ns_err k8sConfig err n
    end) [].
Proof.
  unfold NewSchedulerContext.
  apply wp_try; [intros k8sClient Ek|intros err E; exists 0%nat; split; [done|by left]].
  apply wp_try; [intros dynClient Ed|intros err E; exists 0%nat; split; [done|by right; left]].
  apply wp_try; [intros res Er|intros err E; exists 0%nat; split; [done|do 3 right; left; by eexists]].
  apply wp_try; [intros kwokClient Ew|intros err E; exists 0%nat; split; [done|by do 2 right; left]].
  apply wp_bind. eapply wp_mono; [apply newKWOKContoller_spec|]. intros kwokCtrl es1 Hk.
  apply wp_try; [intros ctrl ->|intros err ->; exists 0%nat; destruct Hk as [-> Hk]; split; [done|by do 4 right]].
  destruct Hk as [-> _].
  apply wp_try; [intros schedulingClient Es|intros err E; by exists 1%nat].
  do 4 (apply wp_bind, wp_modify). apply wp_bind. eapply wp_mono; [apply newKubeScheduler_spec|].
  intros kubeScheduler es2 [-> Hs].
  apply wp_try; [intros sched ->|intros err ->; by exists 5%nat].
  apply wp_bind, wp_modify. destruct (ns_err now_base36) as [err|] eqn:En; apply wp_ret; [by exists 6%nat|].
  split_and!; try done; by eexists.
Qed.

Section cleanup_facts.
Context {Bytes GetOptions : Type} {A : ApiServer Bytes GetOptions} {PL : PollLaws}.

(** The deletions that a clean-up begins with. *)
Definition deletions (tCtx : SchedulerContext) : list (request Bytes GetOptions) :=
  [PodDeleteCollection (podMgr_namespace (tCtx_PodMgr tCtx)) delete_now everything;
   QueueDeleteCollection delete_now everything; PCDeleteCollection delete_now everything].
Definition shutdowns (tCtx : SchedulerContext) : list (request Bytes GetOptions) :=
  (if tCtx_InformerFactory tCtx is Some _ then [InformersShutdown] else [])
  ++ (if tCtx_DynInformerFactory tCtx is Some _ then [DynInformersShutdown] else []).

Lemma shutdown_eq {F} (f : option F) (req : request Bytes GetOptions) l :
  shutdown f req l = Ret (tt, l ++ (if f is Some _ then [req] else [])).
Proof. destruct f; [done|]. unfold shutdown, mret, st_ret. by rewrite app_nil_r. Qed.

(** C39: whatever fails, [CleanUp] asks for all five deletions in order (pods,
    queues, priority classes, nodes, of which it waits to see none, and the
    namespace) and then shuts the informer factories down.  Its error joins those
    of the five; without one, every deletion was accepted and no node was left. *)
Theorem CleanUp_correct tCtx (l : list (request Bytes GetOptions)) :
  ∃ k e4,
    let l1 := l ++ deletions tCtx in
    let l4 := l1 ++ NodeDeleteCollection delete_now kwok_nodes :: replicate k (NodeList kwok_nodes) in
    let errs := [on_Delete l; on_Delete (l ++ take 1 (deletions tCtx)); on_Delete (l ++ take 2 (deletions tCtx)); e4; on_Delete l4] in
    CleanUp tCtx l = Ret (errors_JoinAll errs, l4 ++ NamespaceDelete (tCtx_Namespace tCtx) delete_now :: shutdowns tCtx)
    ∧ (∀ err, on_Delete l1 = Some err → e4 = Some err ∧ k = 0%nat)
    ∧ (errors_JoinAll errs = None ↔ Forall (λ e, e = None) errs)
    ∧ (e4 = None → on_Delete l1 = None ∧ ∃ l0, l4 = l0 ++ [NodeList kwok_nodes] ∧ on_NodeList l0 kwok_nodes = inl []).
Proof.
  destruct (DeleteAllWait_correct (mkWaitOpts 0 0) (l ++ deletions tCtx)) as (e4 & l4 & Hrun & Hcase).
  assert (∃ k, l4 = (l ++ deletions tCtx) ++ NodeDeleteCollection delete_now kwok_nodes :: replicate k (NodeList kwok_nodes)
    ∧ (∀ err, on_Delete (l ++ deletions tCtx) = Some err → e4 = Some err ∧ k = 0%nat)
    ∧ (e4 = None → on_Delete (l ++ deletions tCtx) = None
        ∧ ∃ l0, l4 = l0 ++ [NodeList kwok_nodes] ∧ on_NodeList l0 kwok_nodes = inl [])) as (k & Hl4 & Hrefused & Hnone).
  { destruct (on_Delete (l ++ deletions tCtx)) as [err|].
    - exists 0%nat. destruct Hcase as [-> ->]. split_and!; [done| |done]. by intros err' [= ->].
    - destruct Hcase as [[k ->] Hdone]. exists (S k). rewrite <- app_assoc. split_and!; [done|done|]. intros He.
      split; [done|]. by rewrite app_assoc; apply Hdone. }
  exists k, e4. cbv zeta. rewrite <- Hl4. split_and!; [|done|apply errors_JoinAll_None|done].
  unfold CleanUp, PodMgr_DeleteAll, QueueMgr_DeleteAll, PCMgr_DeleteAll.
  unfold send at 1 2 3 4, mbind, st_bind. cbn beta iota.
  replace (((l ++ [_]) ++ [_]) ++ [_]) with (l ++ deletions tCtx) by by rewrite <- !app_assoc.
  rewrite Hrun, !shutdown_eq. unfold mret, st_ret. rewrite <- !app_assoc. done.
Qed.
End cleanup_facts.
End context.

(** ** The properties at a concrete server *)
Section witnesses.
#[local] Existing Instances c_api c_rest k_server k_poll_laws.
#[local] Instance w_env : EnvTypes := {|
  K8sClient := unit; DynClient := unit; KWOKClient := unit; APIGroupResources := unit; RESTMapper := unit;
  InformerFactory := unit; DynInformerFactory := unit; Stage := unit; KWOKController := unit; KubeScheduler := unit;
  Registry := unit; ApiProfile := unit;
|}.

Definition w_ctx : SchedulerContext := mkSchedulerContext "ns1" c_config (tt : @K8sClient w_env) (tt : @DynClient w_env)
  (mkClientset ("discovery" : @DiscoveryClient c_rest) (mkSchedulingV1Client ("rest" : @RestClient c_rest))) (tt : @KWOKClient w_env)
  (Some (tt : @InformerFactory w_env)) None (tt : @RESTMapper w_env) (tt : @KubeScheduler w_env) (NewPodManager "ns1")
  (tt : @KWOKController w_env).

(** The node is gone at the second look. *)
Lemma CleanUp_correct_witness :
  ∃ l, CleanUp w_ctx [] = Ret (None, l) ∧ length l = 8%nat ∧ ∃ l0, on_NodeList l0 kwok_nodes = inl [].
Proof.
  destruct (CleanUp_correct w_ctx []) as (k & e4 & Hrun & _ & Herr & Hlast).
  assert (∃ l, CleanUp w_ctx [] = Ret (None, l) ∧ length l = 8%nat) as (l & Hl & Hlen) by (eexists; split; vm_compute; reflexivity).
  rewrite Hl in Hrun. injection Hrun as Hnone _. symmetry in Hnone. apply Herr in Hnone.
  destruct (Hlast (proj1 (Forall_lookup _ _) Hnone 3%nat e4 eq_refl)) as [_ (l0 & _ & H0)].
  exists l. split; [exact Hl|]. split; [exact Hlen|]. exists l0. exact H0.
Defined.
End witnesses.
