(* ===== verification/Kassert.v ===== *)
(** * Kassert: [internal/kassert], the tests' assertions on pods

    An assertion works on the state of a test and may end it ([FailNow]).  The
    assertion library is a parameter: what it documents of each function is a
    condition under which the function does nothing, and that the test has
    failed otherwise ([checks]).  Each assertion of the package is shown to check
    a condition on pods. *)

From stdpp Require Import base tactics option list gmap strings.
From Stdlib Require Import ZArith Lia.
From S2P Require Import Prelude.
From S2P Require Import External.
From S2P Require Import Concrete.
From S2P Require Import Kubetest.

(** ** Tests *)

(** [TestingT], with the observation whether the test has failed. *)
Class TestState := { TState : Type; Failed : TState → bool }.

(** Code of a test: [None] when [FailNow] has ended it. *)
Definition test {TS : TestState} (A : Type) : Type := TState → option A * TState.

#[global] Instance test_ret {TS : TestState} : MRet test := λ A a t, (Some a, t).
#[global] Instance test_bind {TS : TestState} : MBind test := λ A B f m t,
  match m t with (Some a, t') => f a t' | (None, t') => (None, t') end.

Section checks.
Context {TS : TestState}.

(** The assertion passes without any effect when [P], and fails the test otherwise. *)
Record checks (a : test unit) (P : bool) : Prop := mkChecks {
  checks_pass : P = true → ∀ t, a t = (Some tt, t);
  checks_fail : P = false → ∀ t, Failed (a t).2 = true;
  checks_keep : ∀ t, Failed t = true → Failed (a t).2 = true;
}.

Lemma checks_then a b P R : checks a P → checks b R → checks (a ;; b) (P && R).
Proof.
  intros [Ap Af Ak] [Bp Bf Bk].
  assert (∀ t, Failed (a t).2 = true → Failed ((a ;; b) t).2 = true) as Hstill.
  { intros t Ht. unfold mbind, test_bind. destruct (a t) as [[[]|] t']; [by apply Bk|done]. }
  split.
  - intros [HP HR]%andb_true_iff t. unfold mbind, test_bind. by rewrite Ap, Bp.
  - intros [HP|HR]%andb_false_iff t; [by apply Hstill, Af|].
    unfold mbind, test_bind. specialize (Af). destruct P.
    + rewrite Ap by done. by apply Bf.
    + specialize (Af eq_refl t). destruct (a t) as [[[]|] t']; [by apply Bk|done].
  - intros t Ht. by apply Hstill, Ak.
Qed.

Lemma checks_ret : checks (mret tt) true.
Proof. by split. Qed.

Lemma checks_ext a P R : P = R → checks a P → checks a R.
Proof. by intros ->. Qed.

(** The condition is checked only if the first one passes. *)
Lemma checks_guard a b P R : checks a P → (P = true → checks b R) → (P = false → ∀ t, (a t).1 = None) →
  checks (a ;; b) (P && R).
Proof.
  intros Ha Hb Hstop. destruct P; [by apply checks_then; [|apply Hb]|]. destruct Ha as [_ Af Ak]. simpl.
  assert (∀ t, (a ;; b) t = (None, (a t).2)) as Hab.
  { intros t. unfold mbind, test_bind. specialize (Hstop eq_refl t). destruct (a t) as [[]]; simpl in *; [done|done]. }
  split; [done|intros _ t; rewrite Hab; by apply Af|intros t Ht; rewrite Hab; by apply Ak].
Qed.
End checks.

(** [for _, pod := range pods { ... }] *)
Fixpoint test_for {TS : TestState} {A} (l : list A) (f : A → test unit) : test unit :=
  match l with [] => mret tt | x :: l => f x ;; test_for l f end.

Lemma checks_for {TS : TestState} {A} (l : list A) f (P : A → bool) :
  (∀ x, checks (f x) (P x)) → checks (test_for l f) (forallb P l).
Proof. intros Hf. induction l as [|x l IH]; simpl; [apply checks_ret|by apply checks_then]. Qed.

(** ** [testify] *)
Class Testify {TS : TestState} := {
  (** with the message's format and its arguments *)
  assert_True : bool → list string → test unit;
  assert_NotEmpty : string → string → test unit;
  assert_Empty : string → string → test unit;
  assert_Equal : string → string → string → test unit;
  assert_Contains : list string → string → string → test unit;
  assert_Condition : bool → string → test unit;
  (** the argument says whether the pointer or slice is not nil *)
  require_NotNil : bool → string → test unit;
  T_Helper : test unit;
  (** the condition, run until it passes; timeout and interval *)
  require_EventuallyWithT : test unit → Z → Z → test unit;
  apierrors_IsNotFound : option go_error → bool;
}.

Class TestifyLaws {TS : TestState} {TF : Testify} : Prop := {
  true_checks b msg : checks (assert_True b msg) b;
  not_empty_checks s msg : checks (assert_NotEmpty s msg) (negb (bool_decide (s = "")));
  empty_checks s msg : checks (assert_Empty s msg) (bool_decide (s = ""));
  equal_checks a b msg : checks (assert_Equal a b msg) (bool_decide (a = b));
  contains_checks l x msg : checks (assert_Contains l x msg) (bool_decide (x ∈ l));
  condition_checks b msg : checks (assert_Condition b msg) b;
  not_nil_checks b msg : checks (require_NotNil b msg) b;
  not_nil_stops msg t : (require_NotNil false msg t).1 = None;
  helper_checks : checks T_Helper true;
}.

Definition PodScheduled : string := "PodScheduled".
Definition ConditionFalse : string := "False".
Definition PodReasonUnschedulable : string := "Unschedulable".

Section kassert.
Context {T : ApiTypes} {TS : TestState} {TF : Testify}.

(** *** eventually.go *)
Record EventuallyConfig := mkEventuallyConfig { ev_Timeout : Z; ev_PollInterval : Z }.
Definition EventuallyConfigOpt : Type := EventuallyConfig → EventuallyConfig.

Definition newEventuallyConfig (opts : list EventuallyConfigOpt) : EventuallyConfig :=
  let cfg := mkEventuallyConfig (3 * Second) (250 * Millisecond) in
  foldl (λ cfg opt, opt cfg) cfg opts.

Definition WithPollInterval (pollInterval : Z) : EventuallyConfigOpt := λ ec, mkEventuallyConfig (ev_Timeout ec) pollInterval.
Definition WithTimeout (timeout : Z) : EventuallyConfigOpt := λ ec, mkEventuallyConfig timeout (ev_PollInterval ec).

Definition Eventually (condition : test unit) (opts : list EventuallyConfigOpt) : test unit :=
  T_Helper ;;
  let cfg := newEventuallyConfig opts in
  require_EventuallyWithT condition (ev_Timeout cfg) (ev_PollInterval cfg).

(** *** generic_resource.go *)
Definition IsErrNotFound (err : option go_error) (msg : list string) : test unit :=
  T_Helper ;;
  let msg := if (length msg =? 0)%nat then ["Resource should not exist"] else msg in
  assert_True (apierrors_IsNotFound err) msg.

(** Objects by their UIDs; [None] is nil, for the object or for the slice. *)
Definition ObjectInListByUID (obj : option UID) (objs : option (list UID)) : test unit :=
  require_NotNil (bool_decide (is_Some obj)) "Expected obj to be non-nil" ;;
  require_NotNil (bool_decide (is_Some objs)) "Expected objs list to be non-nil" ;;
  let objIDs := default [] objs in
  match obj with
  | Some uid => assert_Contains objIDs uid "Expected object ID %s in list: %s"
  | None => λ t, (None, t)
  end.

(** *** pods.go *)
Definition PodNominatedForNode (pod : Pod) (node : string) : test unit :=
  T_Helper ;;
  assert_NotEmpty (pod_NominatedNodeName pod) "Pod should have nominatedNode" ;;
  assert_Equal node (pod_NominatedNodeName pod) ("Pod's nominated node should be " +:+ node).

Definition PodNominatedForOneOfNodes (pod : Pod) (nodes : list string) : test unit :=
  T_Helper ;;
  assert_NotEmpty (pod_NominatedNodeName pod) "Pod should have nominatedNode" ;;
  assert_Contains nodes (pod_NominatedNodeName pod)
    ("Pod's nominated node should be one of: [" +:+ String.concat " " nodes +:+ "]").

(** [PodRunning] of the package; the API constant has the same name. *)
Definition assert_PodRunning (pod : Pod) : test unit :=
  T_Helper ;;
  assert_Equal PodRunning (pod_Phase pod) "Pod should be running" ;;
  assert_NotEmpty (pod_NodeName pod) "Running pod should have spec.nodeName".

Definition PodRunningOnNode (pod : Pod) (nodeName : string) : test unit :=
  T_Helper ;;
  assert_PodRunning pod ;;
  assert_Equal nodeName (pod_NodeName pod) "Pod does not have expected spec.NodeName".

(** A nil list ends the test. *)
Definition PodListAllRunning (pods : option (list Pod)) : test unit :=
  T_Helper ;;
  require_NotNil (bool_decide (is_Some pods)) "Pods list should not be nil" ;;
  test_for (default [] pods) assert_PodRunning.

Definition unschedulable_cond (cond : PodCondition) : bool :=
  bool_decide (cond_Type cond = PodScheduled) && bool_decide (cond_Status cond = ConditionFalse)
    && bool_decide (cond_Reason cond = PodReasonUnschedulable).

Definition PodUnschedulable (pod : Pod) : test unit :=
  T_Helper ;;
  assert_Equal PodPending (pod_Phase pod) "Pod should be pending" ;;
  assert_Empty (pod_NodeName pod) "Pod should not have spec.nodeName" ;;
  assert_Condition (existsb unschedulable_cond (pod_Conditions pod)) "Pod should have unschedulable condition".

Definition PodInPodListByUID (pod : option Pod) (podList : option (list Pod)) : test unit :=
  require_NotNil (bool_decide (is_Some podList)) "podList should not be nil" ;;
  let objs := (λ p, pod_UID p) <$> default [] podList in
  ObjectInListByUID (pod_UID <$> pod) (Some objs).

(** ** What they check *)
Context {TL : TestifyLaws}.

Lemma object_in_list_checks obj objs :
  checks (ObjectInListByUID obj objs)
    (match obj, objs with Some uid, Some l => bool_decide (uid ∈ l) | _, _ => false end).
Proof.
  unfold ObjectInListByUID. destruct obj as [uid|].
  - apply (checks_then _ _ true _); [exact (not_nil_checks true _)|].
    destruct objs as [l|].
    + apply (checks_then _ _ true _); [exact (not_nil_checks true _)|]. apply contains_checks.
    + exact (checks_then _ _ false _ (not_nil_checks false _) (contains_checks _ _ _)).
  - apply (checks_guard _ _ false false); [exact (not_nil_checks false _)|done|intros _ t; apply not_nil_stops].
Qed.

(** Every assertion on pods passes, leaving the test as it was, exactly when
    its condition holds, and fails the test otherwise: nominated for (one of) the
    nodes; running, on the node; unschedulable (pending, unbound, and marked so by
    the scheduler); a member of the list by UID.  Nil lists and pods fail. *)
Theorem pod_assertions_correct (pod : Pod) (node : string) (nodes : list string) (opod : option Pod) (pods : option (list Pod)) :
  let running p := bool_decide (PodRunning = pod_Phase p) && negb (bool_decide (pod_NodeName p = "")) in
  checks (PodNominatedForNode pod node) (bool_decide (node = pod_NominatedNodeName pod ∧ node ≠ ""))
  ∧ checks (PodNominatedForOneOfNodes pod nodes)
      (bool_decide (pod_NominatedNodeName pod ∈ nodes ∧ pod_NominatedNodeName pod ≠ ""))
  ∧ checks (assert_PodRunning pod) (running pod)
  ∧ checks (PodRunningOnNode pod node) (running pod && bool_decide (node = pod_NodeName pod))
  ∧ checks (PodListAllRunning pods) (match pods with Some l => forallb running l | None => false end)
  ∧ checks (PodUnschedulable pod) (bool_decide (PodPending = pod_Phase pod) && bool_decide (pod_NodeName pod = "")
      && existsb unschedulable_cond (pod_Conditions pod))
  ∧ checks (PodInPodListByUID opod pods)
      (match opod, pods with Some p, Some l => bool_decide (pod_UID p ∈ pod_UID <$> l) | _, _ => false end).
Proof.
  intros running.
  assert (∀ a P, checks a P → checks (T_Helper ;; a) P) as Hhelp.
  { intros a P Ha. apply (checks_then _ _ true P); [apply helper_checks|done]. }
  assert (∀ p, checks (assert_PodRunning p) (running p)) as Hrun.
  { intros p. apply Hhelp, checks_then; [apply equal_checks|apply not_empty_checks]. }
  split_and!.
  - eapply checks_ext; [|apply Hhelp, checks_then; [apply not_empty_checks|apply equal_checks]].
    rewrite <- bool_decide_not, <- bool_decide_and. apply bool_decide_ext. naive_solver.
  - eapply checks_ext; [|apply Hhelp, checks_then; [apply not_empty_checks|apply contains_checks]].
    rewrite <- bool_decide_not, <- bool_decide_and. apply bool_decide_ext. naive_solver.
  - apply Hrun.
  - apply Hhelp, checks_then; [apply Hrun|apply equal_checks].
  - apply Hhelp. destruct pods as [l|].
    + apply (checks_then _ _ true _); [exact (not_nil_checks true _)|]. by apply checks_for.
    + apply (checks_then _ _ false true); [exact (not_nil_checks false _)|apply checks_ret].
  - rewrite <- andb_assoc. apply Hhelp, checks_then; [apply equal_checks|]. apply checks_then; [apply empty_checks|apply condition_checks].
  - unfold PodInPodListByUID. destruct pods as [l|].
    + eapply checks_ext; [|apply checks_then; [exact (not_nil_checks true _)|apply object_in_list_checks]].
      by destruct opod.
    + eapply checks_ext; [|apply checks_then; [exact (not_nil_checks false _)|apply object_in_list_checks]].
      by destruct opod.
Qed.

(** Options are applied in order, over a timeout of three seconds and a poll
    every quarter of a second: each field is what the last option on it says. *)
Lemma newEventuallyConfig_last opts timeout interval :
  newEventuallyConfig [] = mkEventuallyConfig (3 * Second) (250 * Millisecond)
  ∧ ev_Timeout (newEventuallyConfig (opts ++ [WithTimeout timeout])) = timeout
  ∧ ev_PollInterval (newEventuallyConfig (opts ++ [WithTimeout timeout])) = ev_PollInterval (newEventuallyConfig opts)
  ∧ ev_PollInterval (newEventuallyConfig (opts ++ [WithPollInterval interval])) = interval
  ∧ ev_Timeout (newEventuallyConfig (opts ++ [WithPollInterval interval])) = ev_Timeout (newEventuallyConfig opts).
Proof. unfold newEventuallyConfig. rewrite !foldl_app. done. Qed.
End kassert.
