(* ===== verification/Regions.v ===== *)
(** * Regions: what code can reach in the heap

    A region is a set of heap cells.  Code whose arguments lie in a region, in a
    heap where the region's cells refer to cells of the region only, reads
    and writes inside of it; what it makes lies where its allocations
    lie.  [conf] states this of an action together with a second fact: an action
    that makes nothing depends on its region alone.  The rules below follow the
    primitives of file [Store], the lemmas the methods of the package. *)

From stdpp Require Import base tactics option list gmap strings sorting.
From Stdlib Require Import ZArith Lia.
From S2P Require Import Prelude.
From S2P Require Import External.
From S2P Require Import Resources.
From S2P Require Import Match.
From S2P Require Import Store.
From S2P Require Import Quota.
From S2P Require Import Queue.
From S2P Require Import Manager.

(** ** Cells *)
Inductive key :=
| KMgr (m : loc)
| KQueue (q : loc)
| KQuota (t : loc)
| KRes (r : loc).

#[global] Instance key_eq_dec : EqDecision key.
Proof. solve_decision. Defined.

Section cells.
Context {T : ApiTypes}.

Inductive cell :=
| CMgr (M : Manager)
| CQueue (qu : Queue)
| CQuota (qo : Quota)
| CRes (m : gmap string Quantity).

Definition get (h : heap) (k : key) : option cell :=
  match k with
  | KMgr l => CMgr <$> h_mgr h !! l
  | KQueue l => CQueue <$> h_queue h !! l
  | KQuota l => CQuota <$> h_quota h !! l
  | KRes l => CRes <$> h_res h !! l
  end.

(** The cells that a cell refers to. *)
Definition refs (c : cell) (k : key) : Prop :=
  match c, k with
  | CMgr M, KQueue q => ∃ n, queueByName M !! n = Some q
  | CQueue qu, KQuota t => queue_quota qu = Some t
  | CQuota qo, KRes r => quota_max qo = Some r ∨ quota_used qo = Some r
  | _, _ => False
  end.

Definition region : Type := key → Prop.
Definition compl (G : region) : region := λ k, ¬ G k.

Implicit Types (G N : region) (h : heap) (k : key).

Definition cell_in G (c : cell) : Prop := ∀ k, refs c k → G k.

(** A pointer, nil or into the region. *)
Definition ptr_in G (K : loc → key) (o : option loc) : Prop := ∀ l, o = Some l → G (K l).

Definition closed G h : Prop := ∀ k c, G k → get h k = Some c → cell_in G c.

(** The cells made between [h] and [h'] lie in [N]. *)
Definition fresh_in N h h' : Prop := ∀ k, get h k = None → is_Some (get h' k) → N k.

Definition mono h h' : Prop := ∀ k, is_Some (get h k) → is_Some (get h' k).

Definition agree G h h' : Prop := ∀ k, G k → get h k = get h' k.

Definition unchanged G N h h' : Prop := ∀ k, ¬ G k → ¬ N k → get h' k = get h k.

(** [h'] is [h] with the cell [c] at [k]. *)
Definition writes k (c : cell) h h' : Prop :=
  ∀ k', get h' k' = if decide (k' = k) then Some c else get h k'.

Local Ltac write_cases l l' :=
  destruct (decide (l = l')) as [<-|Hne];
  [by rewrite lookup_insert_eq, decide_True|rewrite lookup_insert_ne, decide_False by congruence; done].

Lemma writes_mgr l M h : writes (KMgr l) (CMgr M) h (set_mgr l M h).
Proof.
  intros [l'|l'|l'|l']; simpl; try done.
  write_cases l l'.
Qed.

Lemma writes_queue l qu h : writes (KQueue l) (CQueue qu) h (set_queue l qu h).
Proof.
  intros [l'|l'|l'|l']; simpl; try done.
  write_cases l l'.
Qed.

Lemma writes_quota l qo h : writes (KQuota l) (CQuota qo) h (set_quota l qo h).
Proof.
  intros [l'|l'|l'|l']; simpl; try done.
  write_cases l l'.
Qed.

Lemma writes_res l m h : writes (KRes l) (CRes m) h (set_res l m h).
Proof.
  intros [l'|l'|l'|l']; simpl; try done.
  write_cases l l'.
Qed.

Lemma writes_mono k c h h' : writes k c h h' → mono h h'.
Proof. intros Hw k' Hk. rewrite Hw. by case_decide; [eexists|]. Qed.

Lemma mono_refl h : mono h h.
Proof. by intros k. Qed.

Lemma mono_trans h1 h2 h3 : mono h1 h2 → mono h2 h3 → mono h1 h3.
Proof. intros H1 H2 k Hk. by apply H2, H1. Qed.

(** *** Actions that free nothing *)
Definition mono_st {A} (m : st heap A) : Prop := ∀ h b h', m h = Ret (b, h') → mono h h'.

Lemma mono_ret {A} (a : A) : mono_st (mret a).
Proof. intros h b h' [= _ <-]. apply mono_refl. Qed.

Lemma bind_Ret {S A B} (m : st S A) (f : A → st S B) s b s' :
  (m ≫= f) s = Ret (b, s') → ∃ a s1, m s = Ret (a, s1) ∧ f a s1 = Ret (b, s').
Proof. unfold mbind, st_bind. destruct (m s) as [[a s1]|]; [|done]. by exists a, s1. Qed.

Lemma mono_bind {A B} (m : st heap A) (f : A → st heap B) :
  mono_st m → (∀ a, mono_st (f a)) → mono_st (m ≫= f).
Proof.
  intros Hm Hf h b h' (a & h1 & H1 & H2)%bind_Ret. eapply mono_trans; [by eapply Hm|by eapply Hf].
Qed.

Lemma mono_some {A} (o : option A) : mono_st (st_some o).
Proof. intros h b h' Hm. destruct o; [|done]. injection Hm as _ <-. apply mono_refl. Qed.

Lemma mono_lift {A} (o : outcome A) : mono_st (st_lift o).
Proof. intros h b h' Hm. unfold st_lift in Hm. destruct o; [|done]. injection Hm as _ <-. apply mono_refl. Qed.

Lemma mono_get : mono_st st_get.
Proof. intros h b h' [= _ <-]. apply mono_refl. Qed.

Lemma mono_modify f : (∀ h, ∃ k c, writes k c h (f h)) → mono_st (st_modify f).
Proof. intros Hf h b h' [= _ <-]. destruct (Hf h) as (k & c & Hw). by eapply writes_mono. Qed.

Lemma mono_for {X} (l : list X) (f : X → st heap unit) : (∀ x, mono_st (f x)) → mono_st (st_for l f).
Proof. intros Hf. induction l as [|x l IH]; simpl; [apply mono_ret|by apply mono_bind]. Qed.
End cells.

(** Everything but loops. *)
Ltac mono_step :=
  lazymatch goal with
  | |- mono_st (mret _) => apply mono_ret
  | |- mono_st (_ ≫= _) => apply mono_bind; [|intros ?]
  | |- mono_st (st_some _) => apply mono_some
  | |- mono_st (st_lift _) => apply mono_lift
  | |- mono_st st_get => apply mono_get
  | |- mono_st (st_modify (set_mgr _ _)) => apply mono_modify; intros ?; eexists _, _; apply writes_mgr
  | |- mono_st (st_modify (set_queue _ _)) => apply mono_modify; intros ?; eexists _, _; apply writes_queue
  | |- mono_st (st_modify (set_quota _ _)) => apply mono_modify; intros ?; eexists _, _; apply writes_quota
  | |- mono_st (st_modify (set_res _ _)) => apply mono_modify; intros ?; eexists _, _; apply writes_res
  | |- mono_st (st_for _ _) => apply mono_for; intros ?
  | |- mono_st (match ?x with _ => _ end) => destruct x
  | |- mono_st (let '(_, _) := ?x in _) => destruct x
  | |- mono_st (load_mgr _) => unfold load_mgr
  | |- mono_st (load_queue _) => unfold load_queue
  | |- mono_st (load_quota _) => unfold load_quota
  | |- mono_st (load_res _) => unfold load_res
  | |- mono_st (update_res _ _) => unfold update_res
  | |- mono_st (store_mgr _ _) => unfold store_mgr
  | |- mono_st (store_queue _ _) => unfold store_queue
  | |- mono_st (store_quota _ _) => unfold store_quota
  | |- mono_st (alloc_mgr _) => unfold alloc_mgr
  | |- mono_st (alloc_queue _) => unfold alloc_queue
  | |- mono_st (alloc_quota _) => unfold alloc_quota
  | |- mono_st (alloc_res _) => unfold alloc_res
  end.
Ltac mono_solve := repeat first [mono_step | progress cbv zeta].

(** ** Confinement *)
Section conf.
Context {T : ApiTypes} {Q : QuantityOps} {P : PodOps} {L : SelectorOps}.

(** The code's region, where it makes new cells, and whether it may. *)
Variables (al : bool) (G N : region).
Hypothesis G_N : G = N ∨ ∀ k, G k → N k → False.

Definition conf {A} (R : A → Prop) (m : st heap A) : Prop := ∀ h b h',
  m h = Ret (b, h') → closed G h → closed N h → fresh_in N h h' →
  closed G h' ∧ closed N h' ∧ unchanged G N h h' ∧ R b
  ∧ (al = false → ∀ h2, agree G h h2 → ∃ h2', m h2 = Ret (b, h2') ∧ agree G h' h2').

(** Actions that change nothing. *)
Lemma conf_read {A} (R : A → Prop) (m : st heap A) :
  (∀ h b h', m h = Ret (b, h') → h' = h ∧ (closed G h → R b) ∧ ∀ h2, agree G h h2 → m h2 = Ret (b, h2)) →
  conf R m.
Proof.
  intros Hm h b h' Hb HG HN _. destruct (Hm h b h' Hb) as (-> & HR & Hloc). split_and!; [done|done| |by apply HR|].
  - by intros k _ _.
  - intros _ h2 Ha. exists h2. split; [by apply Hloc|done].
Qed.

Lemma conf_mono {A} (R R' : A → Prop) m : (∀ a, R a → R' a) → conf R m → conf R' m.
Proof.
  intros HR Hm h b h' Hb HG HN Hf. destruct (Hm h b h' Hb HG HN Hf) as (? & ? & ? & ? & ?). by auto 10.
Qed.

Lemma conf_ret {A} (R : A → Prop) a : R a → conf R (mret a).
Proof. intros HR. apply conf_read. intros h b h' [= <- <-]. by split_and!. Qed.

Lemma conf_bind {A B} (R1 : A → Prop) (R : B → Prop) m f :
  conf R1 m → (∀ a, R1 a → conf R (f a)) → mono_st m → (∀ a, mono_st (f a)) → conf R (m ≫= f).
Proof.
  intros Hm Hf Hm1 Hm2 h b h' Hb HG HN Hfr. pose proof Hb as (a & h1 & H1 & H2)%bind_Ret.
  assert (fresh_in N h h1) as Hf1.
  { intros k Hk Hs. apply (Hfr k Hk). by eapply Hm2. }
  destruct (Hm h a h1 H1 HG HN Hf1) as (HG1 & HN1 & Hu1 & Ha & Hl1).
  assert (fresh_in N h1 h') as Hf2.
  { intros k Hk Hs. apply (Hfr k); [|done]. destruct (get h k) eqn:E; [|done].
    destruct (Hm1 h a h1 H1 k) as [? ?]; [by eexists|congruence]. }
  destruct (Hf a Ha h1 b h' H2 HG1 HN1 Hf2) as (HG2 & HN2 & Hu2 & HR & Hl2). split_and!; [done|done| |done|].
  - intros k HkG HkN. by rewrite (Hu2 k), (Hu1 k).
  - intros Hal h2 Hagr. destruct (Hl1 Hal h2 Hagr) as (h3 & He & Hagr3).
    destruct (Hl2 Hal h3 Hagr3) as (h4 & He' & Hagr4). exists h4. split; [|done].
    unfold mbind, st_bind. by rewrite He.
Qed.

Lemma conf_lift {A} (o : outcome A) : conf (λ _, True) (st_lift o).
Proof.
  apply conf_read. intros h b h' Hb. unfold st_lift in *. destruct o; [|done]. injection Hb as <- <-. by split_and!.
Qed.

Lemma conf_some {A} (R : A → Prop) o : (∀ a, o = Some a → R a) → conf R (st_some o).
Proof.
  intros HR. apply conf_read. intros h b h' Hb. unfold st_some in *. destruct o; [|done]. injection Hb as <- <-.
  split_and!; [done|by auto|done].
Qed.

(** A load, of each kind. *)
Lemma conf_load {A} (m : st heap A) (c : A → cell) k :
  G k → (∀ h b h', m h = Ret (b, h') ↔ get h k = Some (c b) ∧ h' = h) → conf (λ b, cell_in G (c b)) m.
Proof.
  intros Hk Hm. apply conf_read. intros h b h' [Hg ->]%Hm. split_and!; [done|by intros HG; eapply HG|].
  intros h2 Ha. apply Hm. by rewrite <- (Ha k Hk).
Qed.

Lemma conf_load_mgr l : G (KMgr l) → conf (λ M, cell_in G (CMgr M)) (load_mgr l).
Proof.
  intros Hl. apply (conf_load _ CMgr (KMgr l)); [done|]. intros h b h'. unfold load_mgr, mbind, st_bind, st_get, st_some. simpl.
  destruct (h_mgr h !! l); simpl; split; [by intros [= -> ->]|by intros [[= ->] ->]|done|by intros [[=] _]].
Qed.

Lemma conf_load_queue l : G (KQueue l) → conf (λ qu, cell_in G (CQueue qu)) (load_queue l).
Proof.
  intros Hl. apply (conf_load _ CQueue (KQueue l)); [done|]. intros h b h'. unfold load_queue, mbind, st_bind, st_get, st_some. simpl.
  destruct (h_queue h !! l); simpl; split; [by intros [= -> ->]|by intros [[= ->] ->]|done|by intros [[=] _]].
Qed.

Lemma conf_load_quota l : G (KQuota l) → conf (λ qo, cell_in G (CQuota qo)) (load_quota l).
Proof.
  intros Hl. apply (conf_load _ CQuota (KQuota l)); [done|]. intros h b h'. unfold load_quota, mbind, st_bind, st_get, st_some. simpl.
  destruct (h_quota h !! l); simpl; split; [by intros [= -> ->]|by intros [[= ->] ->]|done|by intros [[=] _]].
Qed.

Lemma res_val_agree r h h2 : ptr_in G KRes r → agree G h h2 → res_val h r = res_val h2 r.
Proof.
  intros Hr Ha. destruct r as [l|]; [|done]. specialize (Ha (KRes l) (Hr l eq_refl)). simpl in *.
  unfold res_val. simpl. by destruct (h_res h !! l), (h_res h2 !! l); simplify_eq/=.
Qed.

Lemma conf_load_res r : ptr_in G KRes r → conf (λ _, True) (load_res r).
Proof.
  intros Hr. apply conf_read. intros h b h' [= <- <-]. split_and!; [done|done|].
  intros h2 Ha. unfold load_res, mbind, st_bind, st_get. simpl. by rewrite (res_val_agree r h h2).
Qed.

(** A store into the region. *)
Lemma conf_write k c f :
  (∀ h, writes k c h (f h)) → G k → cell_in G c → conf (λ _, True) (st_modify f).
Proof.
  intros Hf Hk Hc h b h' [= <- <-] HG HN _. pose proof (Hf h) as Hw. split_and!; [| | |done|].
  - intros k' c' Hk'. rewrite Hw. case_decide; [by intros [= <-]|by eauto].
  - intros k' c' Hk'. rewrite Hw. case_decide as Heq; [|by eauto]. intros [= <-]. subst k'.
    destruct G_N as [<- |Hd]; [done|by destruct (Hd k)].
  - intros k' HkG _. rewrite Hw. case_decide; [by subst|done].
  - intros _ h2 Ha. eexists. split; [done|]. intros k' Hk'. rewrite Hw, (Hf h2 k'). case_decide; [done|by apply Ha].
Qed.

Lemma conf_store_mgr l M : G (KMgr l) → cell_in G (CMgr M) → conf (λ _, True) (store_mgr l M).
Proof. apply (conf_write (KMgr l) (CMgr M)). apply writes_mgr. Qed.
Lemma conf_store_queue l qu : G (KQueue l) → cell_in G (CQueue qu) → conf (λ _, True) (store_queue l qu).
Proof. apply (conf_write (KQueue l) (CQueue qu)). apply writes_queue. Qed.
Lemma conf_store_quota l qo : G (KQuota l) → cell_in G (CQuota qo) → conf (λ _, True) (store_quota l qo).
Proof. apply (conf_write (KQuota l) (CQuota qo)). apply writes_quota. Qed.
Lemma conf_store_res l m : G (KRes l) → conf (λ _, True) (st_modify (set_res l m)).
Proof. intros Hl. apply (conf_write (KRes l) (CRes m)); [apply writes_res|done|by intros k]. Qed.

(** An allocation, where the code may make cells. *)
Lemma conf_alloc {A} (m : st heap A) (R : A → Prop) c :
  al = true → cell_in N c →
  (∀ h, ∃ k b h', m h = Ret (b, h') ∧ get h k = None ∧ writes k c h h' ∧ (N k → R b)) → conf R m.
Proof.
  intros Hal Hc Hm h b h' Hb HG HN Hf. destruct (Hm h) as (k & b0 & h0 & Hb0 & Hk & Hw & HR).
  rewrite Hb0 in Hb. injection Hb as -> ->.
  assert (N k) as HNk. { apply Hf; [done|]. rewrite Hw, decide_True by done. by eexists. }
  split_and!; [| | |by apply HR|congruence].
  - intros k' c' Hk'. rewrite Hw. case_decide as Heq; [|by eauto]. intros [= <-]. subst k'.
    destruct G_N as [-> |Hd]; [done|by destruct (Hd k)].
  - intros k' c' Hk'. rewrite Hw. case_decide; [by intros [= <-]|by eauto].
  - intros k' _ HkN. rewrite Hw. case_decide; [by subst|done].
Qed.

Lemma conf_alloc_mgr M : al = true → cell_in N (CMgr M) → conf (λ l, N (KMgr l)) (alloc_mgr M).
Proof.
  intros Hal HM. apply (conf_alloc _ _ (CMgr M)); [done..|]. intros h. exists (KMgr (fresh (dom (h_mgr h)))), (fresh (dom (h_mgr h))), (set_mgr (fresh (dom (h_mgr h))) M h).
  split; [reflexivity|]. split; [|split; [apply writes_mgr|by auto]]. simpl.
  by rewrite (proj1 (not_elem_of_dom _ _) (is_fresh (dom (h_mgr h)))).
Qed.

Lemma conf_alloc_queue qu : al = true → cell_in N (CQueue qu) → conf (λ l, N (KQueue l)) (alloc_queue qu).
Proof.
  intros Hal Hq. apply (conf_alloc _ _ (CQueue qu)); [done..|]. intros h. exists (KQueue (fresh (dom (h_queue h)))), (fresh (dom (h_queue h))), (set_queue (fresh (dom (h_queue h))) qu h).
  split; [reflexivity|]. split; [|split; [apply writes_queue|by auto]]. simpl.
  by rewrite (proj1 (not_elem_of_dom _ _) (is_fresh (dom (h_queue h)))).
Qed.

Lemma conf_alloc_quota qo : al = true → cell_in N (CQuota qo) → conf (λ l, N (KQuota l)) (alloc_quota qo).
Proof.
  intros Hal Hq. apply (conf_alloc _ _ (CQuota qo)); [done..|]. intros h. exists (KQuota (fresh (dom (h_quota h)))), (fresh (dom (h_quota h))), (set_quota (fresh (dom (h_quota h))) qo h).
  split; [reflexivity|]. split; [|split; [apply writes_quota|by auto]]. simpl.
  by rewrite (proj1 (not_elem_of_dom _ _) (is_fresh (dom (h_quota h)))).
Qed.

Lemma conf_alloc_res r : al = true → conf (ptr_in N KRes) (alloc_res r).
Proof.
  intros Hal. destruct r as [m|]; [|by apply conf_ret; intros l].
  apply (conf_alloc _ _ (CRes m)); [done|by intros k|]. intros h. exists (KRes (fresh (dom (h_res h)))), (Some (fresh (dom (h_res h)))), (set_res (fresh (dom (h_res h))) m h).
  split; [reflexivity|]. split; [|split; [apply writes_res|by intros Hl l [= <-]]]. simpl.
  by rewrite (proj1 (not_elem_of_dom _ _) (is_fresh (dom (h_res h)))).
Qed.

Lemma conf_update_res r f : ptr_in G KRes r → conf (λ _, True) (update_res r f).
Proof.
  intros Hr. unfold update_res. eapply conf_bind; [by apply conf_load_res|intros m _|mono_solve|intros; mono_solve].
  eapply conf_bind; [apply conf_lift|intros m' _|mono_solve|intros; mono_solve].
  destruct r as [l|]; [|by apply conf_ret]. destruct m' as [m'|]; [|by apply conf_ret]. by apply conf_store_res, Hr.
Qed.

Lemma conf_for {X} (l : list X) f : (∀ x, x ∈ l → conf (λ _, True) (f x)) → (∀ x, mono_st (f x)) → conf (λ _, True) (st_for l f).
Proof.
  intros Hf Hm. induction l as [|x l IH]; simpl; [by apply conf_ret|].
  eapply conf_bind; [by apply Hf; left|intros _ _; apply IH; intros; apply Hf; by right|apply Hm|].
  intros _. by apply mono_for.
Qed.

(** ** The methods of the package *)

(** The rest of a method after a load. *)
Ltac conf_load_then x Hx :=
  lazymatch goal with
  | |- conf _ (load_mgr _ ≫= _) => eapply conf_bind; [by apply conf_load_mgr|intros x Hx; cbn beta in Hx|mono_solve|intros; mono_solve]
  | |- conf _ (load_queue _ ≫= _) => eapply conf_bind; [by apply conf_load_queue|intros x Hx; cbn beta in Hx|mono_solve|intros; mono_solve]
  | |- conf _ (load_quota _ ≫= _) => eapply conf_bind; [by apply conf_load_quota|intros x Hx; cbn beta in Hx|mono_solve|intros; mono_solve]
  end.

Lemma quota_refs qo : cell_in G (CQuota qo) ↔ ptr_in G KRes (quota_max qo) ∧ ptr_in G KRes (quota_used qo).
Proof.
  split.
  - intros Hc. split; intros l Hl; apply Hc; simpl; auto.
  - intros [H1 H2] [] Hr; try done. destruct Hr; [by apply H1|by apply H2].
Qed.

Lemma queue_refs qu : cell_in G (CQueue qu) ↔ ptr_in G KQuota (queue_quota qu).
Proof. split; [intros Hc l Hl; by apply Hc|intros Hq [] Hr; try done; by apply Hq]. Qed.

Lemma mgr_refs M : cell_in G (CMgr M) ↔ ∀ n, ptr_in G KQueue (queueByName M !! n).
Proof. split; [intros Hc n l Hl; apply Hc; by exists n|intros Hq [] Hr; try done; destruct Hr as [n Hn]; by apply (Hq n)]. Qed.

(** *** quota.go *)
Lemma conf_AddPod_body ql pod : G (KQuota ql) → conf (λ _, True) (Quota_AddPod_body ql pod).
Proof.
  intros Hq. unfold Quota_AddPod_body. destruct pod as [p|]; [|by apply conf_ret]. conf_load_then x Hx.
  apply quota_refs in Hx as [Hm Hu].
  destruct (quota_podsByID x !! pod_UID p); [by apply conf_ret|].
  eapply conf_bind; [by apply conf_store_quota; [done|apply quota_refs]|intros ? _|mono_solve|intros; mono_solve].
  by apply conf_update_res.
Qed.

Lemma conf_DeletePod_body ql pod : G (KQuota ql) → conf (λ _, True) (Quota_DeletePod_body ql pod).
Proof.
  intros Hq. unfold Quota_DeletePod_body. destruct pod as [p|]; [|by apply conf_ret]. conf_load_then x Hx.
  apply quota_refs in Hx as [Hm Hu].
  destruct (quota_podsByID x !! pod_UID p); [|by apply conf_ret].
  eapply conf_bind; [by apply conf_store_quota; [done|apply quota_refs]|intros ? _|mono_solve|intros; mono_solve].
  by apply conf_update_res.
Qed.

Lemma conf_Quota_Max ql : G (KQuota ql) → conf (ptr_in G KRes) (Quota_Max (Some ql)).
Proof. intros Hq. unfold Quota_Max. conf_load_then x Hx. apply conf_ret. apply quota_refs in Hx as [Hm Hu]. done. Qed.

Lemma conf_Quota_Used ql : G (KQuota ql) → conf (ptr_in G KRes) (Quota_Used (Some ql)).
Proof. intros Hq. unfold Quota_Used. conf_load_then x Hx. apply conf_ret. apply quota_refs in Hx as [Hm Hu]. done. Qed.

Lemma conf_Quota_SetMax ql max : G (KQuota ql) → ptr_in G KRes max → conf (λ _, True) (Quota_SetMax (Some ql) max).
Proof.
  intros Hq Hm. unfold Quota_SetMax. conf_load_then x Hx. apply quota_refs in Hx as [_ Hu].
  apply conf_store_quota; [done|]. by apply quota_refs.
Qed.

Lemma conf_Quota_ContainsPod ql pod : G (KQuota ql) → conf (λ _, True) (Quota_ContainsPod (Some ql) pod).
Proof.
  intros Hq. unfold Quota_ContainsPod. conf_load_then x Hx.
  eapply conf_bind; [by apply (conf_some (λ _, True))|intros ? _|mono_solve|intros; mono_solve]. by apply conf_ret.
Qed.

Lemma conf_Quota_WouldPutOverMax ql request : G (KQuota ql) → conf (λ _, True) (Quota_WouldPutOverMax (Some ql) request).
Proof.
  intros Hq. unfold Quota_WouldPutOverMax. conf_load_then x Hx.
  apply quota_refs in Hx as [Hm Hu].
  eapply conf_bind; [by apply conf_load_res|intros ? _|mono_solve|intros; mono_solve].
  eapply conf_bind; [by apply conf_load_res|intros ? _|mono_solve|intros; mono_solve].
  eapply conf_bind; [by apply conf_lift|intros ? _|mono_solve|intros; mono_solve]. by apply conf_ret.
Qed.

Lemma conf_stringNoLock {I : ImmutMap} {SS : SliceSort} q :
  ptr_in G KQuota q → conf (λ _, True) (Quota_stringNoLock q).
Proof.
  intros Hq. unfold Quota_stringNoLock. destruct q as [ql|]; [|by apply conf_ret]. specialize (Hq ql eq_refl). conf_load_then x Hx.
  apply quota_refs in Hx as [Hm Hu].
  eapply conf_bind; [by apply conf_load_res|intros ? _|mono_solve|intros; mono_solve].
  eapply conf_bind; [by apply conf_load_res|intros ? _|mono_solve|intros; mono_solve]. by apply conf_ret.
Qed.

Lemma conf_Quota_Clone ql : al = true → G (KQuota ql) → conf (ptr_in N KQuota) (Quota_Clone (Some ql)).
Proof.
  intros Hal Hq. unfold Quota_Clone. conf_load_then x Hx.
  apply quota_refs in Hx as [Hm Hu].
  eapply conf_bind; [by apply conf_load_res|intros ? _|mono_solve|intros; mono_solve].
  eapply conf_bind; [by apply conf_alloc_res|intros mx Hmx|mono_solve|intros; mono_solve].
  eapply conf_bind; [by apply conf_load_res|intros ? _|mono_solve|intros; mono_solve].
  eapply conf_bind; [by apply conf_alloc_res|intros us Hus|mono_solve|intros; mono_solve].
  eapply conf_bind; [apply conf_alloc_quota; [done|]|intros l Hl|mono_solve|intros; mono_solve].
  - intros [] Hr; try done. destruct Hr; [by apply Hmx|by apply Hus].
  - apply conf_ret. by intros l' [= <-].
Qed.

(** *** queue.go *)
Lemma conf_Queue_Quota l : G (KQueue l) → conf (ptr_in G KQuota) (Queue_Quota (Some l)).
Proof. intros Hq. unfold Queue_Quota. conf_load_then x Hx. apply conf_ret. by apply queue_refs in Hx. Qed.

Lemma conf_Queue_reads l pod : G (KQueue l) →
  conf (λ _, True) (Queue_Name (Some l)) ∧ conf (λ _, True) (Queue_PreemptionConfig (Some l))
  ∧ conf (λ _, True) (Queue_CanPodBePreemptedByOthers (Some l) pod) ∧ conf (λ _, True) (Queue_Labels (Some l)).
Proof.
  intros Hq. split_and!.
  - unfold Queue_Name. conf_load_then x Hx. by apply conf_ret.
  - unfold Queue_PreemptionConfig. conf_load_then x Hx. by apply conf_ret.
  - unfold Queue_CanPodBePreemptedByOthers. destruct pod as [p|]; [|by apply conf_ret]. conf_load_then x Hx.
    case_match; [by apply conf_ret|]. case_match; [by apply conf_ret|].
    eapply conf_bind; [by apply conf_lift|intros ? _|mono_solve|intros; mono_solve]. by case_match; apply conf_ret.
  - unfold Queue_Labels. conf_load_then x Hx. by case_match; apply conf_ret.
Qed.

Lemma conf_With l ls cfg : G (KQueue l) →
  conf (λ _, True) (WithLabels ls (Some l)) ∧ conf (λ _, True) (WithPreemptionConfig cfg (Some l)).
Proof.
  intros Hq. split; [unfold WithLabels|unfold WithPreemptionConfig]; cbv zeta; conf_load_then x Hx;
    (apply conf_store_queue; [done|]); apply queue_refs; by apply queue_refs in Hx.
Qed.

(** A new queue over a new quota, before its options. *)
Lemma conf_new_queue name : al = true →
  conf (λ q, N (KQueue q)) (quota ← NewQuota None; alloc_queue (mkQueue name (Some quota) (Some gomap_make) PreemptionConfig_zero)).
Proof.
  intros Hal. eapply conf_bind.
  - unfold NewQuota. eapply conf_bind; [by apply conf_alloc_res|intros us Hus|mono_solve|intros; mono_solve].
    apply conf_alloc_quota; [done|]. intros [] Hr; try done. destruct Hr; [done|by apply Hus].
  - intros t Ht. apply conf_alloc_queue; [done|]. intros [] Hr; try done. by injection Hr as ->.
  - unfold NewQuota. mono_solve.
  - intros. mono_solve.
Qed.

(** *** manager.go *)
Lemma conf_GetByName m n : G (KMgr m) → conf (ptr_in G KQueue) (Manager_GetByName m n).
Proof. intros Hm. unfold Manager_GetByName. conf_load_then x Hx. apply conf_ret. exact (proj1 (mgr_refs _) Hx n). Qed.

Lemma conf_insert m n q : G (KMgr m) → G (KQueue q) → conf (λ _, True) (Manager_insert m n q).
Proof.
  intros Hm Hq. unfold Manager_insert. conf_load_then x Hx. apply conf_store_mgr; [done|]. apply mgr_refs. simpl.
  intros n' l [[_ <-]|[_ Hl]]%lookup_insert_Some; [done|]. exact (proj1 (mgr_refs _) Hx n' l Hl).
Qed.

Lemma conf_Delete m n : G (KMgr m) → conf (λ _, True) (Manager_Delete m n).
Proof.
  intros Hm. unfold Manager_Delete. conf_load_then x Hx. apply conf_store_mgr; [done|]. apply mgr_refs. simpl.
  intros n' l [_ Hl]%lookup_delete_Some. exact (proj1 (mgr_refs _) Hx n' l Hl).
Qed.
End conf.

(** The rest of a method after a load. *)
Ltac conf_load_first x Hx :=
  lazymatch goal with
  | |- conf _ _ _ _ (load_mgr _ ≫= _) => eapply conf_bind; [apply conf_load_mgr|intros x Hx; cbn beta in Hx|mono_solve|intros; mono_solve]
  | |- conf _ _ _ _ (load_quota _ ≫= _) => eapply conf_bind; [apply conf_load_quota|intros x Hx; cbn beta in Hx|mono_solve|intros; mono_solve]
  end.
