(* ===== verification/Snapshots.v ===== *)
(** * Snapshots: what a clone taken amid other goroutines shows

    A clone is made in several critical sections, so it is not the manager of one
    moment.  But nothing in it is made up: its names are those that the manager
    had at one moment, and each of its queues has the fields that the queue had at
    some moment and the amounts and pods that the queue's quota had at some moment.
    [sees] follows the code of the clone from action to action, while the other
    goroutines change the heap outside the region of the goroutine's own cells. *)

From stdpp Require Import base tactics option list gmap strings.
From Stdlib Require Import ZArith Lia.
From S2P Require Import Prelude.
From S2P Require Import External.
From S2P Require Import Resources.
From S2P Require Import Api.
From S2P Require Import Match.
From S2P Require Import Store.
From S2P Require Import StoreFacts.
From S2P Require Import Quota.
From S2P Require Import Queue.
From S2P Require Import Manager.
From S2P Require Import Regions.
From S2P Require Import Threads.
From S2P Require Import ThreadFacts.
From S2P Require Import Locking.

(** ** Cells that stay *)
Section kept.
Context {T : ApiTypes}.
Implicit Types (h : heap) (Z : region) (l tl : loc).

Definition kept h h' : Prop := ∀ k c, get h k = Some c → get h' k = Some c.

Lemma kept_refl h : kept h h.
Proof. by intros k c. Qed.
Lemma kept_trans h1 h2 h3 : kept h1 h2 → kept h2 h3 → kept h1 h3.
Proof. intros H1 H2 k c Hk. by apply H2, H1. Qed.

Lemma kept_writes k c h h' : get h k = None → writes k c h h' → kept h h'.
Proof. intros Hk Hw k' c' Hk'. rewrite Hw, decide_False; [done|]. intros ->. congruence. Qed.

(** The quota, or the queue, at the location has this value. *)
Definition quota_shows h tl (q : QuotaV) : Prop :=
  ∃ qo, h_quota h !! tl = Some qo ∧ (∀ k, refs (CQuota qo) k → is_Some (get h k)) ∧ q = view_quota h qo.

Definition shows h l (v : QueueV) : Prop :=
  ∃ qu tl q, h_queue h !! l = Some qu ∧ queue_quota qu = Some tl ∧ quota_shows h tl q
    ∧ v = mkQueueV (queue_name qu) q (queue_labels qu) (queue_preemptionCfg qu).

Lemma shows_view h l v : shows h l v → view_queue h l = Some v.
Proof. intros (qu & tl & q & Hq & Ht & (qo & Ho & _ & ->) & ->). apply view_queue_Some. by exists qu, tl, qo. Qed.

(** Values stay when the cells that they are made of do. *)
Lemma quota_shows_same h h' tl q :
  (∀ c, get h (KQuota tl) = Some c → get h' (KQuota tl) = Some c) →
  (∀ qo k, h_quota h !! tl = Some qo → refs (CQuota qo) k → get h' k = get h k) →
  quota_shows h tl q → quota_shows h' tl q.
Proof.
  intros Hq Hr (qo & Ho & Hrefs & ->). exists qo. specialize (Hq (CQuota qo)). simpl in Hq. rewrite Ho in Hq.
  specialize (Hr qo). assert (h_quota h' !! tl = Some qo) as Ho'.
  { specialize (Hq eq_refl). by destruct (h_quota h' !! tl); simplify_eq/=. }
  split; [done|]. split; [intros k Hk; rewrite (Hr k Ho Hk); by apply Hrefs|].
  assert (∀ ref, (∀ l, ref = Some l → refs (CQuota qo) (KRes l)) → res_val h' ref = res_val h ref) as Hres.
  { intros [l|] Hl; [|done]. specialize (Hr (KRes l) Ho (Hl l eq_refl)). simpl in Hr. unfold res_val. simpl.
    by destruct (h_res h' !! l), (h_res h !! l); simplify_eq/=. }
  unfold view_quota. by rewrite !Hres by (intros l Hl; simpl; auto).
Qed.

Lemma quota_shows_kept h h' tl q : kept h h' → quota_shows h tl q → quota_shows h' tl q.
Proof.
  intros Hk Hs. pose proof Hs as (qo & Ho & Hrefs & _). apply (quota_shows_same h h'); [by apply Hk| |done].
  intros qo' k Ho' Hr. simplify_eq. destruct (Hrefs k Hr) as [c Hc]. by rewrite Hc, (Hk k c Hc).
Qed.

Lemma shows_kept h h' l v : kept h h' → shows h l v → shows h' l v.
Proof.
  intros Hk (qu & tl & q & Hq & Ht & Hs & ->). exists qu, tl, q. split_and!; [|done|by eapply quota_shows_kept|done].
  specialize (Hk (KQueue l) (CQueue qu)). simpl in Hk. rewrite Hq in Hk. specialize (Hk eq_refl).
  by destruct (h_queue h' !! l); simplify_eq/=.
Qed.

Lemma quota_shows_agree Z h h' tl q :
  closed Z h' → agree Z h h' → Z (KQuota tl) → quota_shows h tl q → quota_shows h' tl q.
Proof.
  intros HZ Ha Ht. apply quota_shows_same; [intros c; by rewrite (Ha _ Ht)|].
  intros qo k Ho Hr. symmetry. apply Ha. apply (HZ (KQuota tl) (CQuota qo)); [done| |done].
  rewrite <- (Ha _ Ht). simpl. by rewrite Ho.
Qed.

Lemma shows_agree Z h h' l v :
  closed Z h' → agree Z h h' → Z (KQueue l) → shows h l v → shows h' l v.
Proof.
  intros HZ Ha Hl (qu & tl & q & Hq & Ht & Hs & ->).
  assert (get h' (KQueue l) = Some (CQueue qu)) as Hq' by (rewrite <- (Ha _ Hl); simpl; by rewrite Hq).
  assert (Z (KQuota tl)) as Htl by (by apply (HZ (KQueue l) (CQueue qu))).
  exists qu, tl, q. split_and!; [|done|by eapply quota_shows_agree|done].
  simpl in Hq'. by destruct (h_queue h' !! l); simplify_eq/=.
Qed.

(** *** Allocation *)
Lemma alloc_res_kept r h ref h' :
  alloc_res r h = Ret (ref, h') → kept h h' ∧ res_val h' ref = r ∧ ∀ l, ref = Some l → is_Some (get h' (KRes l)).
Proof.
  destruct r as [m|]; cbn [alloc_res]; [|intros [= <- <-]; by split; [apply kept_refl|]]. set (l := fresh (dom (h_res h))).
  intros Hb. assert (ref = Some l ∧ h' = set_res l m h) as [-> ->] by (by injection Hb as <- <-).
  assert (get h (KRes l) = None) as Hl by (simpl; unfold l; by rewrite (proj1 (not_elem_of_dom _ _) (is_fresh (dom (h_res h))))).
  split; [by eapply kept_writes, writes_res|]. unfold res_val. simpl. rewrite lookup_insert_eq. split; [done|].
  intros l' [= <-]. simpl. rewrite lookup_insert_eq. by eexists.
Qed.

Lemma alloc_mgr_kept M h l h' :
  alloc_mgr M h = Ret (l, h') → kept h h' ∧ h_mgr h' !! l = Some M.
Proof.
  set (l0 := fresh (dom (h_mgr h))). intros Hb. assert (l = l0 ∧ h' = set_mgr l0 M h) as [-> ->] by (by injection Hb as <- <-).
  split; [|apply lookup_insert_eq]. eapply kept_writes, writes_mgr. simpl. unfold l0.
  by rewrite (proj1 (not_elem_of_dom _ _) (is_fresh (dom (h_mgr h)))).
Qed.

Lemma alloc_queue_kept qu h l h' :
  alloc_queue qu h = Ret (l, h') → kept h h' ∧ h_queue h' !! l = Some qu ∧ get h (KQueue l) = None.
Proof.
  set (l0 := fresh (dom (h_queue h))). intros Hb. assert (l = l0 ∧ h' = set_queue l0 qu h) as [-> ->] by (by injection Hb as <- <-).
  assert (get h (KQueue l0) = None) as Hl by (simpl; unfold l0; by rewrite (proj1 (not_elem_of_dom _ _) (is_fresh (dom (h_queue h))))).
  split; [by eapply kept_writes, writes_queue|]. split; [apply lookup_insert_eq|done].
Qed.

Lemma alloc_quota_kept qo h l h' :
  alloc_quota qo h = Ret (l, h') → kept h h' ∧ h_quota h' !! l = Some qo ∧ get h (KQuota l) = None.
Proof.
  set (l0 := fresh (dom (h_quota h))). intros Hb. assert (l = l0 ∧ h' = set_quota l0 qo h) as [-> ->] by (by injection Hb as <- <-).
  assert (get h (KQuota l0) = None) as Hl by (simpl; unfold l0; by rewrite (proj1 (not_elem_of_dom _ _) (is_fresh (dom (h_quota h))))).
  split; [by eapply kept_writes, writes_quota|]. split; [apply lookup_insert_eq|done].
Qed.
End kept.

(** ** The code of the clone *)
Section clone.
Context {T : ApiTypes} {Q : QuantityOps} {P : PodOps} {L : SelectorOps} {QL : QuantityLaws}.
Implicit Types (h : heap) (V : ManagerV).

Lemma load_quota_Ret l h qo h' : load_quota l h = Ret (qo, h') → h_quota h !! l = Some qo ∧ h' = h.
Proof. intros (h0 & h1 & [= <- <-] & Hb)%bind_Ret. destruct (h_quota h !! l); [|done]. by injection Hb as <- <-. Qed.
Lemma load_queue_Ret l h qu h' : load_queue l h = Ret (qu, h') → h_queue h !! l = Some qu ∧ h' = h.
Proof. intros (h0 & h1 & [= <- <-] & Hb)%bind_Ret. destruct (h_queue h !! l); [|done]. by injection Hb as <- <-. Qed.
Lemma load_mgr_Ret l h M h' : load_mgr l h = Ret (M, h') → h_mgr h !! l = Some M ∧ h' = h.
Proof. intros (h0 & h1 & [= <- <-] & Hb)%bind_Ret. destruct (h_mgr h !! l); [|done]. by injection Hb as <- <-. Qed.

(** The quota's clone has the quota's value, in cells of its own. *)
Lemma Quota_Clone_shows tl h b h' :
  wf h → Quota_Clone (Some tl) h = Ret (b, h') →
  kept h h' ∧ ∃ qo tl', h_quota h !! tl = Some qo ∧ b = Some tl' ∧ get h (KQuota tl') = None
    ∧ quota_shows h' tl' (view_quota h qo).
Proof.
  intros Hwf Hb. unfold Quota_Clone, load_res in Hb.
  apply bind_Ret in Hb as (qo' & h1 & [Ho ->]%load_quota_Ret & Hb).
  destruct (wf_quota_used h Hwf tl qo' Ho) as (ul & mu & Hu & Hmu).
  apply bind_Ret in Hb as (mx & h1 & [= <- <-] & Hb). rewrite Resources_Clone_eq in Hb.
  apply bind_Ret in Hb as (mx' & h1 & Hmx & Hb). apply alloc_res_kept in Hmx as (Hk1 & Hmx & Hr1).
  apply bind_Ret in Hb as (us & h2 & [= <- <-] & Hb). rewrite Resources_Clone_eq in Hb.
  apply bind_Ret in Hb as (us' & h2 & Hus & Hb). apply alloc_res_kept in Hus as (Hk2 & Hus & Hr2).
  apply bind_Ret in Hb as (tl' & h3 & Hl & [= <- <-]). apply alloc_quota_kept in Hl as (Hk3 & Hl & Hn).
  assert (kept h h2) as Hk by by eapply kept_trans. split; [by eapply kept_trans|]. exists qo', tl'.
  split_and!; [done|done| |].
  { destruct (get h (KQuota tl')) as [c|] eqn:E; [|done]. by rewrite (Hk _ _ E) in Hn. }
  assert (∀ ref ha hb, kept ha hb → (∀ l, ref = Some l → is_Some (get ha (KRes l))) → res_val hb ref = res_val ha ref) as Hres.
  { intros [l|] ha hb Hab Hl'; [|done]. destruct (Hl' l eq_refl) as [c Hc]. pose proof (Hab _ _ Hc) as Hc'. simpl in Hc, Hc'.
    unfold res_val. simpl. by destruct (h_res ha !! l), (h_res hb !! l); simplify_eq/=. }
  exists (mkQuota mx' us' (quota_podsByID qo')). split; [done|]. split.
  - intros [| | |l] Hr; simpl in Hr; try done. destruct Hr as [Hr|Hr].
    + destruct (Hr1 l Hr) as [c Hc]. exists c. by apply Hk3, Hk2.
    + destruct (Hr2 l Hr) as [c Hc]. exists c. by apply Hk3.
  - unfold view_quota. cbn [quota_max quota_used quota_podsByID]. f_equal.
    + rewrite (Hres mx' h1 h3), Hmx; [done|by eapply kept_trans|done].
    + rewrite (Hres us' h2 h3), Hus; [|done|done]. symmetry. apply (Hres _ h h1); [done|].
      intros l Hl'. rewrite Hu in Hl'. injection Hl' as <-. simpl. rewrite Hmu. by eexists.
Qed.

(** *** From action to action *)
Section sees.
Variables (S : heap → Prop) (Z : region).

(** The goroutine makes its cells in [Z], the others leave [Z] alone; its actions
    happen in heaps of [S].  Then at the end [K] holds of its result. *)
Fixpoint sees {B} (p : proc heap lock B) (K : B → heap → Prop) h : Prop :=
  match p with
  | Done b => K b h
  | Act _ act k => ∀ h1 b h2, agree Z h h1 → S h1 → wf h1 → closed Z h1 → act h1 = Ret (b, h2) → fresh_in Z h1 h2 →
      sees (k b) K h2
  | Acquire _ _ k | Release _ _ k => sees k K h
  end.

Lemma sees_bind {A B} (p : proc heap lock A) (f : A → proc heap lock B) K h :
  sees p (λ a, sees (f a) K) h → sees (p ≫= f) K h.
Proof.
  unfold mbind, proc_mbind. induction p as [a|X fp act k IH|md l k IH|md l k IH] in h |- *; simpl; auto.
  intros Hp h1 b h2 Ha HS Hwf HZ Hb Hf. by apply IH, (Hp h1 b h2).
Qed.

Lemma sees_with_lock {A} md l (p : proc heap lock A) K h : sees p K h → sees (with_lock md l p) K h.
Proof. intros Hp. by apply (sees_bind p (λ a, Release md l (Done a)) K). Qed.

Lemma sees_mono {A} (p : proc heap lock A) (K K' : A → heap → Prop) h :
  (∀ a h, K a h → K' a h) → sees p K h → sees p K' h.
Proof. intros HK. induction p as [a|X fp act k IH|md l k IH|md l k IH] in h |- *; simpl; eauto. Qed.

(** A fact that stays while others run and while the goroutine makes cells. *)
Definition stays (R : heap → Prop) : Prop :=
  (∀ h h', closed Z h' → agree Z h h' → R h → R h') ∧ ∀ h h', kept h h' → R h → R h'.

(** What the queue at [ql] showed: its fields at one moment, its quota's value at one. *)
Definition seen_queue (ql : loc) (v : QueueV) : Prop :=
  ∃ h0 qu tl h1 qo, S h0 ∧ h_queue h0 !! ql = Some qu ∧ queue_quota qu = Some tl
    ∧ S h1 ∧ h_quota h1 !! tl = Some qo
    ∧ v = mkQueueV (queue_name qu) (view_quota h1 qo) (queue_labels qu) (queue_preemptionCfg qu).

(** The clone of a queue. *)
Definition copied ql l h : Prop := Z (KQueue l) ∧ ∃ v, shows h l v ∧ seen_queue ql v.

Lemma copied_stays ql l : stays (copied ql l).
Proof.
  split; intros h h' H1.
  - intros H2 (HZ & v & Hv & Hs). split; [done|]. exists v. split; [by eapply shows_agree|done].
  - intros (HZ & v & Hv & Hs). split; [done|]. exists v. split; [by eapply shows_kept|done].
Qed.

Lemma sees_Queue_Clone ql (R : heap → Prop) h :
  stays R → R h → sees (go_Queue_Clone (Some ql)) (λ r h, ∃ l, r = Some l ∧ copied ql l h ∧ R h) h.
Proof.
  intros [Ra Rk] HR. unfold go_Queue_Clone. apply sees_with_lock, sees_bind.
  intros h1 qu h1' Ha1 HS1 Hwf1 HZ1 Hb _. cbn [sees].
  apply load_queue_Ret in Hb as [Hqu ->]. apply sees_bind. apply (Ra h h1 HZ1 Ha1) in HR.
  destruct (queue_quota qu) as [tl|] eqn:Ht; cbn [go_Quota_Clone].
  2:{ destruct (wf_queue_quota h1 Hwf1 ql qu Hqu) as (tl & qo & ? & _). congruence. }
  apply sees_with_lock. intros h2 b h3 Ha2 HS2 Hwf2 HZ2 Hb Hf2. cbn [sees].
  apply Quota_Clone_shows in Hb as (Hk & qo & tl' & Ho & -> & Hn & Hs); [|done].
  apply (Ra h1 h2 HZ2 Ha2), (Rk h2 h3 Hk) in HR. apply sees_bind.
  assert (Z (KQuota tl')) as Htl' by (apply Hf2; [done|]; destruct Hs as (qo' & Ho' & _); simpl; rewrite Ho'; by eexists).
  intros h4 l h5 Ha3 _ _ HZ3 Hb Hf3. cbn [sees]. apply alloc_queue_kept in Hb as (Hk5 & Hl & Hnl).
  exists l. split; [done|]. split; [|by apply (Rk h4 h5 Hk5), (Ra h3 h4 HZ3 Ha3)]. split.
  - apply Hf3; [done|]. simpl. rewrite Hl. by eexists.
  - eexists. split.
    + eexists _, tl', _. split_and!; [exact Hl|done| |done]. eapply quota_shows_kept; [exact Hk5|]. by eapply quota_shows_agree.
    + exists h1, qu, tl, h2, qo. by split_and!.
Qed.

(** The clones of the queues that the loop has been through. *)
Lemma sees_clone_queues items : ∀ C h (R : heap → Prop),
  stays R → R h → NoDup items.*1 →
  sees (go_clone_queues items C) (λ C' h, R h ∧ (∀ n ql, (n, ql) ∈ items → ∃ l, C' !! n = Some l ∧ copied ql l h)
    ∧ ∀ n, n ∉ items.*1 → C' !! n = C !! n) h.
Proof.
  induction items as [|[n ql] items IH]; intros C h R HR Hh Hnd; cbn [go_clone_queues].
  { split; [done|]. split; [by intros ? ? []%elem_of_nil|done]. }
  apply NoDup_cons in Hnd as [Hn Hnd]. apply sees_bind. eapply sees_mono; [|by apply (sees_Queue_Clone ql R)].
  intros r h1 (l & -> & Hl & Hh1). apply sees_bind. intros h2 l' h3 Ha _ _ HZ [= <- <-] _. cbn [sees].
  pose proof HR as [Ra Rk]. apply (Ra h1 h2 HZ Ha) in Hh1. apply (proj1 (copied_stays ql l) h1 h2 HZ Ha) in Hl.
  eapply sees_mono; [|apply (IH _ h2 (λ h, R h ∧ copied ql l h)); [|done|done]].
  - intros C' h4 ((HR4 & Hl4) & Hin & Hout). cbn [fst fmap list_fmap]. split; [done|]. split.
    + intros n' ql' [[= -> ->]|Hin']%elem_of_cons; [|by apply Hin]. exists l. split; [|done].
      by rewrite Hout, lookup_insert_eq.
    + intros n' [Hne Hn']%not_elem_of_cons. by rewrite Hout, lookup_insert_ne.
  - split; intros ha hb; [intros H1 H2 [HRa Hla]|intros H1 [HRa Hla]]; (split; [by eauto|]).
    + by apply (proj1 (copied_stays ql l) ha hb H1 H2).
    + by apply (proj2 (copied_stays ql l) ha hb H1).
Qed.

(** The value is the manager's: its names at one moment, its queues as they were seen. *)
Definition seen_manager m V : Prop :=
  ∃ h0 M, S h0 ∧ h_mgr h0 !! m = Some M ∧
    ∀ n, match queueByName M !! n with
         | Some ql => ∃ v, V !! n = Some v ∧ seen_queue ql v
         | None => V !! n = None
         end.

(** The clone's value, made of cells of the region. *)
Definition clone_of m mc h : Prop :=
  ∃ M', h_mgr h !! mc = Some M' ∧ (∀ n l, queueByName M' !! n = Some l → Z (KQueue l) ∧ ∃ v, shows h l v)
    ∧ seen_manager m (omap (view_queue h) (queueByName M')).

Lemma sees_Manager_Clone m h : sees (go_Manager_Clone m) (λ mc h, clone_of m mc h) h.
Proof.
  unfold go_Manager_Clone. apply sees_bind, sees_with_lock. intros h1 C h1' _ HS1 _ HZ1 Hb _. cbn [sees].
  apply bind_Ret in Hb as (M & h2 & [HM ->]%load_mgr_Ret & [= <- <-]). apply sees_bind.
  eapply sees_mono; [|apply (sees_clone_queues _ _ h1 (λ _, True)); [by split|done|apply NoDup_fst_map_to_list]].
  intros C' h3 (_ & Hin & Hout). intros h4 mc h5 Ha _ _ HZ Hb _. cbn [sees].
  apply alloc_mgr_kept in Hb as [Hk Hmc].
  assert (∀ n ql, queueByName M !! n = Some ql → ∃ l, C' !! n = Some l ∧ copied ql l h5) as Hcopied.
  { intros n ql Hn. destruct (Hin n ql) as (l & Hl & Hc); [by apply elem_of_map_to_list|]. exists l. split; [done|].
    by apply (proj2 (copied_stays ql l) h4 h5 Hk), (proj1 (copied_stays ql l) h3 h4 HZ Ha). }
  assert (∀ n, queueByName M !! n = None → C' !! n = None) as Hnone.
  { intros n Hn. rewrite Hout; [done|]. intros ([n' l] & -> & Hl%elem_of_map_to_list)%list_elem_of_fmap. simpl in Hn. congruence. }
  exists (mkManager C'). split; [done|]. cbn [queueByName]. split.
  - intros n l Hl. destruct (queueByName M !! n) as [ql|] eqn:E; [|rewrite (Hnone n E) in Hl; done].
    destruct (Hcopied n ql E) as (l' & Hl' & Hz & v & Hv & _). simplify_eq. split; [done|by exists v].
  - exists h1, M. split_and!; [done|done|]. intros n. rewrite lookup_omap. destruct (queueByName M !! n) as [ql|] eqn:E.
    + destruct (Hcopied n ql E) as (l' & -> & _ & v & Hv & Hs). exists v. split; [by apply shows_view|done].
    + by rewrite Hnone.
Qed.

(** Other goroutines leave the clone as it is. *)
Lemma clone_of_agree m mc h h' : closed Z h' → agree Z h h' → Z (KMgr mc) → clone_of m mc h → clone_of m mc h'.
Proof.
  intros HZ Ha Hmc (M & HM & Hq & Hs). exists M.
  assert (h_mgr h' !! mc = Some M) as HM'.
  { pose proof (Ha _ Hmc) as Hget. simpl in Hget. rewrite HM in Hget. by destruct (h_mgr h' !! mc); simplify_eq/=. }
  assert (∀ n l, queueByName M !! n = Some l → ∃ v, shows h l v ∧ shows h' l v) as Hboth.
  { intros n l Hl. destruct (Hq n l Hl) as (HZl & v & Hv). exists v. split; [done|by eapply shows_agree]. }
  split; [done|]. split; [intros n l Hl; split; [by apply (Hq n l)|destruct (Hboth n l Hl) as (v & _ & ?); by exists v]|].
  assert (omap (view_queue h') (queueByName M) = omap (view_queue h) (queueByName M)) as ->; [|done].
  apply map_eq. intros n. rewrite !lookup_omap. destruct (queueByName M !! n) as [l|] eqn:E; [|done]. simpl.
  destruct (Hboth n l E) as (v & Hv & Hv'). by rewrite (shows_view _ _ _ Hv), (shows_view _ _ _ Hv').
Qed.
End sees.
End clone.
