(* ===== verification/Isolation.v ===== *)
(** * Isolation: the operations of the package stay in their regions

    The judgement of file [Regions], for the operations with their locks:
    [pconf] follows a goroutine's code from action to action, [call_conf] is the
    result for every operation: with arguments in a region it touches and changes
    objects of the region only and makes new ones where it may. *)

From stdpp Require Import base tactics option list gmap strings sorting relations.
From Stdlib Require Import ZArith Lia.
From S2P Require Import Prelude.
From S2P Require Import External.
From S2P Require Import Resources.
From S2P Require Import Api.
From S2P Require Import Match.
From S2P Require Import Store.
From S2P Require Import Quota.
From S2P Require Import Queue.
From S2P Require Import Manager.
From S2P Require Import Regions.
From S2P Require Import Threads.
From S2P Require Import ThreadFacts.
From S2P Require Import Locking.
From S2P Require Import LockingFacts.

Section code.
Context {T : ApiTypes} {Q : QuantityOps} {P : PodOps} {L : SelectorOps}.

(** ** Nothing is ever freed *)
Fixpoint pmono {A} (p : proc heap lock A) : Prop :=
  match p with
  | Done _ => True
  | Act _ act k => mono_st act ∧ ∀ b, pmono (k b)
  | Acquire _ _ k | Release _ _ k => pmono k
  end.

Lemma pmono_bind {A B} (p : proc heap lock A) (f : A → proc heap lock B) :
  pmono p → (∀ a, pmono (f a)) → pmono (p ≫= f).
Proof.
  unfold mbind, proc_mbind. intros Hp Hf. induction p as [a|X fp act k IH|md l k IH|md l k IH]; simpl in *; auto.
  destruct Hp. split; auto.
Qed.

Lemma pmono_with_lock {A} md l (p : proc heap lock A) : pmono p → pmono (with_lock md l p).
Proof. intros Hp. by apply (pmono_bind p). Qed.

Lemma pmono_for {X} (l : list X) (f : X → proc heap lock unit) : (∀ x, pmono (f x)) → pmono (proc_for l f).
Proof. intros Hf. induction l as [|x l IH]; simpl; [done|by apply pmono_bind]. Qed.

Ltac pmono_step :=
  lazymatch goal with
  | |- pmono (mret _) => exact I
  | |- pmono (_ ≫= _) => apply pmono_bind; [|intros ?]
  | |- pmono (critical _ _ _) => apply pmono_with_lock
  | |- pmono (atomic _ _) => split; [|by intros ?]
  | |- pmono (with_lock _ _ _) => apply pmono_with_lock
  | |- pmono (proc_for _ _) => apply pmono_for; intros ?
  | |- pmono (match ?x with _ => _ end) => destruct x
  end.

Lemma Quota_mono ql pods max pod r :
  mono_st (st_for pods (Quota_AddPod_body ql)) ∧ mono_st (st_for pods (Quota_DeletePod_body ql))
  ∧ mono_st (Quota_Max (Some ql)) ∧ mono_st (Quota_SetMax (Some ql) max) ∧ mono_st (Quota_Used (Some ql))
  ∧ mono_st (Quota_ContainsPod (Some ql) pod) ∧ mono_st (Quota_WouldPutOverMax (Some ql) r) ∧ mono_st (Quota_Clone (Some ql)).
Proof.
  split_and!.
  - apply mono_for. intros x. unfold Quota_AddPod_body. mono_solve.
  - apply mono_for. intros x. unfold Quota_DeletePod_body. mono_solve.
  - unfold Quota_Max. mono_solve.
  - unfold Quota_SetMax. mono_solve.
  - unfold Quota_Used. mono_solve.
  - unfold Quota_ContainsPod. mono_solve.
  - unfold Quota_WouldPutOverMax. mono_solve.
  - unfold Quota_Clone. mono_solve.
Qed.

Lemma stringNoLock_mono {I : ImmutMap} {SS : SliceSort} q : mono_st (Quota_stringNoLock q).
Proof. unfold Quota_stringNoLock. mono_solve. Qed.

Lemma Queue_mono l ls cfg :
  mono_st (Queue_Name (Some l)) ∧ mono_st (Queue_Quota (Some l)) ∧ mono_st (Queue_PreemptionConfig (Some l))
  ∧ (∀ pod, mono_st (Queue_CanPodBePreemptedByOthers (Some l) pod)) ∧ mono_st (Queue_Labels (Some l))
  ∧ mono_st (WithLabels ls (Some l)) ∧ mono_st (WithPreemptionConfig cfg (Some l)).
Proof.
  split_and!.
  - unfold Queue_Name. mono_solve.
  - unfold Queue_Quota. mono_solve.
  - unfold Queue_PreemptionConfig. mono_solve.
  - intros pod. unfold Queue_CanPodBePreemptedByOthers. mono_solve.
  - unfold Queue_Labels. mono_solve.
  - unfold WithLabels. mono_solve.
  - unfold WithPreemptionConfig. mono_solve.
Qed.

Lemma Manager_mono m n q :
  mono_st (Manager_GetByName m n) ∧ mono_st (Manager_insert m n q) ∧ mono_st (Manager_Delete m n) ∧ mono_st NewManager.
Proof.
  split_and!; [unfold Manager_GetByName|unfold Manager_insert|unfold Manager_Delete|unfold NewManager]; mono_solve.
Qed.

Lemma go_Quota_pmono q pods r max :
  pmono (go_Quota_AddPodIfNotPresent q pods) ∧ pmono (go_Quota_DeletePodIfPresent q pods) ∧ pmono (go_Quota_Max q)
  ∧ pmono (go_Quota_SetMax q max) ∧ pmono (go_Quota_Used q) ∧ pmono (go_Quota_WouldPutOverMax q r) ∧ pmono (go_Quota_Clone q).
Proof.
  split_and!;
    [unfold go_Quota_AddPodIfNotPresent|unfold go_Quota_DeletePodIfPresent|unfold go_Quota_Max|unfold go_Quota_SetMax
    |unfold go_Quota_Used|unfold go_Quota_WouldPutOverMax|unfold go_Quota_Clone];
    repeat pmono_step; by apply (Quota_mono _ pods max None r).
Qed.

Lemma go_Queue_Quota_pmono q : pmono (go_Queue_Quota q).
Proof. unfold go_Queue_Quota. repeat pmono_step. by apply (Queue_mono _ None PreemptionConfig_zero). Qed.

Lemma go_ApplyOpts_pmono q opts : pmono (go_Queue_ApplyOpts q opts).
Proof.
  unfold go_Queue_ApplyOpts, go_opt. repeat pmono_step; [mono_solve| | |].
  - by apply (go_Quota_pmono _ [] None).
  - by eapply (Queue_mono _ _ PreemptionConfig_zero).
  - by eapply (Queue_mono _ None _).
Qed.

Lemma go_New_pmono n opts : pmono (go_Queue_New n opts).
Proof. unfold go_Queue_New, NewQuota. repeat pmono_step; [mono_solve|apply go_ApplyOpts_pmono]. Qed.

Lemma go_clone_queues_pmono items : ∀ C, pmono (go_clone_queues items C).
Proof.
  induction items as [|[n l] items IH]; intros C; [done|]. cbn [go_clone_queues]. unfold go_Queue_Clone.
  repeat pmono_step; [mono_solve|by apply (go_Quota_pmono _ [] None None)|mono_solve|mono_solve|apply IH].
Qed.

Lemma go_call_pmono {B} (c : qcall B) : pmono (go_call c).
Proof.
  assert (∀ m n, pmono (go_Manager_GetByName m n)) as Hget.
  { intros m n. unfold go_Manager_GetByName. repeat pmono_step. by apply (Manager_mono m n 1%positive). }
  destruct c; cbn [go_call].
  all: try (by apply (go_Quota_pmono _ pods None None)); try (by apply (go_Quota_pmono q [] request None));
    try (by apply (go_Quota_pmono q [] None max)); try (by apply (go_Quota_pmono q [] None None)).
  all: try apply go_ApplyOpts_pmono; try apply Hget; try apply go_Queue_Quota_pmono.
  - repeat pmono_step. apply (Manager_mono 1%positive "" 1%positive).
  - repeat pmono_step. mono_solve.
  - unfold go_Manager_Put. repeat pmono_step; [apply go_New_pmono|apply (Manager_mono qm name)].
  - unfold go_Manager_Update. repeat pmono_step;
      [apply (Manager_mono qm name 1%positive)|apply go_ApplyOpts_pmono|apply go_New_pmono|apply (Manager_mono qm name)].
  - unfold go_Manager_Delete. repeat pmono_step. apply (Manager_mono qm name 1%positive).
  - unfold go_Manager_Get. repeat pmono_step. apply Hget.
  - unfold go_Manager_AddPodIfNotPresent. repeat pmono_step;
      [apply Hget|apply go_Queue_Quota_pmono|by apply (go_Quota_pmono _ _ None None)].
  - unfold go_Manager_DeletePodIfPresent. repeat pmono_step;
      [apply Hget|apply go_Queue_Quota_pmono|by apply (go_Quota_pmono _ _ None None)].
  - unfold go_Manager_Clone. repeat pmono_step; [mono_solve|apply go_clone_queues_pmono|mono_solve].
  - unfold go_Queue_Name. repeat pmono_step. by apply (Queue_mono _ None PreemptionConfig_zero).
  - unfold go_Queue_PreemptionConfig. repeat pmono_step. by apply (Queue_mono _ None PreemptionConfig_zero).
  - unfold go_Queue_CanPodBePreemptedByOthers. repeat pmono_step. by apply (Queue_mono _ None PreemptionConfig_zero).
  - unfold go_Queue_Labels. repeat pmono_step. by apply (Queue_mono _ None PreemptionConfig_zero).
  - unfold go_Quota_DeletePodsFunc. repeat pmono_step; [mono_solve|by apply (go_Quota_pmono _ _ None None)].
  - unfold go_Quota_ContainsPod. repeat pmono_step. by eapply (Quota_mono _ [] None _ None).
  - unfold go_Manager_range. repeat pmono_step. mono_solve.
  - unfold go_Quota_UsedMap. repeat pmono_step; [by apply (go_Quota_pmono _ [] None None)|mono_solve].
  - unfold go_Quota_MaxMap. repeat pmono_step; [by apply (go_Quota_pmono _ [] None None)|mono_solve].
  - unfold go_Quota_String. repeat pmono_step; [by apply (go_Quota_pmono _ [] None None)|apply stringNoLock_mono].
  - by split.
Qed.

Lemma goroutine_pmono {A} (p : client A) : pmono (goroutine p).
Proof. induction p as [a|B c k IH]; [done|]. cbn [goroutine]. apply pmono_bind; [apply go_call_pmono|done]. Qed.
End code.

(** ** Staying in a region *)
Definition lock_in {T : ApiTypes} (G : region) (l : lock) : Prop :=
  match l with
  | LMgr m | OMgr m => G (KMgr m)
  | LQueue q => G (KQueue q)
  | LQuota q | OQuota q => G (KQuota q)
  end.

Section confined.
Context {T : ApiTypes} {Q : QuantityOps} {P : PodOps} {L : SelectorOps}.

(** The code's region and the one where it makes new cells (as in file
    [Regions]), and whether it reads objects without their locks. *)
Variables (al : bool) (G N : region) (raw : Prop).
Hypothesis G_N : G = N ∨ ∀ k, G k → N k → False.

Definition touchable (l : lock) : Prop := lock_in G l ∧ (is_Some (unguarded l) → raw).

Fixpoint pconf {A} (R : A → Prop) (p : proc heap lock A) : Prop :=
  match p with
  | Done a => R a
  | Act fp act k => (∀ x, x ∈ fp → touchable x.1) ∧ conf al G N (λ b, pconf R (k b)) act
  | Acquire _ _ k | Release _ _ k => pconf R k
  end.

Lemma pconf_mono {A} (R R' : A → Prop) p : (∀ a, R a → R' a) → pconf R p → pconf R' p.
Proof.
  intros HR. induction p as [a|X fp act k IH|md l k IH|md l k IH]; simpl; auto.
  intros [Hfp Ha]. split; [done|]. eapply conf_mono, Ha. auto.
Qed.

Lemma pconf_bind {A B} (R1 : A → Prop) (R : B → Prop) (p : proc heap lock A) (f : A → proc heap lock B) :
  pconf R1 p → (∀ a, R1 a → pconf R (f a)) → pconf R (p ≫= f).
Proof.
  unfold mbind, proc_mbind. intros Hp Hf. induction p as [a|X fp act k IH|md l k IH|md l k IH]; simpl in *; auto.
  destruct Hp as [Hfp Ha]. split; [done|]. eapply conf_mono, Ha. auto.
Qed.

Lemma pconf_with_lock {A} (R : A → Prop) md l p : pconf R p → pconf R (with_lock md l p).
Proof. intros Hp. by apply (pconf_bind R R p). Qed.

Lemma pconf_atomic {A} (R : A → Prop) fp act :
  (∀ x, x ∈ fp → touchable x.1) → conf al G N R act → pconf R (atomic fp act).
Proof. done. Qed.

Lemma touchable_one l md : lock_in G l → unguarded l = None → ∀ x : lock * mode, x ∈ [(l, md)] → touchable x.1.
Proof. intros Hl Hu x ->%list_elem_of_singleton. split; [done|]. simpl. rewrite Hu. by intros []. Qed.

Lemma touchable_raw l md : lock_in G l → raw → ∀ x : lock * mode, x ∈ [(l, md)] → touchable x.1.
Proof. intros Hl Hr x ->%list_elem_of_singleton. by split. Qed.

Lemma touchable_nil : ∀ x : lock * mode, x ∈ [] → touchable x.1.
Proof. by intros x ?%elem_of_nil. Qed.

Lemma pconf_critical {A} (R : A → Prop) md l act :
  lock_in G l → unguarded l = None → conf al G N R act → pconf R (critical md l act).
Proof. intros Hl Hu Ha. apply pconf_with_lock, pconf_atomic; [by apply touchable_one|done]. Qed.

Lemma pconf_for {X} (l : list X) (f : X → proc heap lock unit) :
  (∀ x, x ∈ l → pconf (λ _, True) (f x)) → pconf (λ _, True) (proc_for l f).
Proof.
  intros Hf. induction l as [|x l IH]; simpl; [done|]. eapply pconf_bind; [apply Hf; by left|].
  intros _ _. apply IH. intros y Hy. apply Hf. by right.
Qed.

(** *** Quotas *)
Definition opt_in (o : queue_opt) : Prop := match o with OptQuotaMax max => ptr_in G KRes max | _ => True end.

Lemma go_Quota_conf q pods r max :
  ptr_in G KQuota q → ptr_in G KRes max →
  pconf (λ _, True) (go_Quota_AddPodIfNotPresent q pods) ∧ pconf (λ _, True) (go_Quota_DeletePodIfPresent q pods)
  ∧ pconf (ptr_in G KRes) (go_Quota_Max q) ∧ pconf (λ _, True) (go_Quota_SetMax q max)
  ∧ pconf (ptr_in G KRes) (go_Quota_Used q) ∧ pconf (λ _, True) (go_Quota_WouldPutOverMax q r)
  ∧ (∀ pod, pconf (λ _, True) (go_Quota_ContainsPod q pod)).
Proof.
  intros Hq Hmx. destruct q as [ql|]; [|by split_and!; intros; try done; intros ? ?]. specialize (Hq ql eq_refl).
  split_and!; try intros pod.
  - unfold go_Quota_AddPodIfNotPresent. case_match; [done|]. apply pconf_critical; [done..|].
    apply conf_for; [intros x _; by apply conf_AddPod_body|]. intros x. unfold Quota_AddPod_body. mono_solve.
  - unfold go_Quota_DeletePodIfPresent. case_match; [done|]. apply pconf_critical; [done..|].
    apply conf_for; [intros x _; by apply conf_DeletePod_body|]. intros x. unfold Quota_DeletePod_body. mono_solve.
  - apply pconf_critical; [done..|]. by apply conf_Quota_Max.
  - apply pconf_critical; [done..|]. by apply conf_Quota_SetMax.
  - apply pconf_critical; [done..|]. by apply conf_Quota_Used.
  - apply pconf_critical; [done..|]. by apply conf_Quota_WouldPutOverMax.
  - apply pconf_critical; [done..|]. by apply conf_Quota_ContainsPod.
Qed.

Lemma go_Quota_Clone_conf q : al = true → ptr_in G KQuota q → pconf (ptr_in N KQuota) (go_Quota_Clone q).
Proof.
  intros Hal Hq. destruct q as [ql|]; [|by intros ? ?]. apply pconf_critical; [by apply Hq|done|].
  by apply conf_Quota_Clone; [..|apply Hq].
Qed.

Lemma go_DeletePodsFunc_conf {I : ImmutMap} q pr : ptr_in G KQuota q → pconf (λ _, True) (go_Quota_DeletePodsFunc q pr).
Proof.
  intros Hq. unfold go_Quota_DeletePodsFunc. destruct q as [ql|]; [|done]. destruct pr as [pr|]; [|done].
  apply (pconf_bind (λ _, True)).
  - apply pconf_critical; [by apply Hq|done|]. conf_load_first x Hx; [by apply Hq|]. by apply conf_ret.
  - intros pods _. by apply (go_Quota_conf _ _ None None).
Qed.

(** *** Queues *)
Lemma go_Queue_conf q pod : ptr_in G KQueue q →
  pconf (λ _, True) (go_Queue_Name q) ∧ pconf (ptr_in G KQuota) (go_Queue_Quota q)
  ∧ pconf (λ _, True) (go_Queue_PreemptionConfig q) ∧ pconf (λ _, True) (go_Queue_CanPodBePreemptedByOthers q pod)
  ∧ pconf (λ _, True) (go_Queue_Labels q).
Proof.
  intros Hq. destruct q as [l|]; [|by split_and!; try done; intros ? ?]. specialize (Hq l eq_refl).
  pose proof (conf_Queue_reads al G N l pod Hq) as (H1 & H2 & H3 & H4). split_and!.
  - by apply pconf_critical.
  - apply pconf_critical; [done..|]. by apply conf_Queue_Quota.
  - by apply pconf_critical.
  - unfold go_Queue_CanPodBePreemptedByOthers. destruct pod; [|done]. by apply pconf_critical.
  - by apply pconf_critical.
Qed.

Lemma go_opt_conf o l : G (KQueue l) → opt_in o → pconf (λ _, True) (go_opt o (Some l)).
Proof.
  intros Hl Ho. unfold go_opt. destruct o as [mx|ls|cfg].
  - eapply pconf_bind; [apply pconf_atomic; [by apply touchable_one|by apply conf_load_queue]|].
    intros qu Hqu. apply (go_Quota_conf _ [] None mx); [|done]. by apply queue_refs in Hqu.
  - apply pconf_atomic; [by apply touchable_one|]. by apply (conf_With al G N G_N l ls PreemptionConfig_zero).
  - apply pconf_atomic; [by apply touchable_one|]. by apply (conf_With al G N G_N l None cfg).
Qed.

Lemma go_ApplyOpts_conf q opts :
  ptr_in G KQueue q → (∀ o, o ∈ opts → opt_in o) → pconf (λ _, True) (go_Queue_ApplyOpts q opts).
Proof.
  intros Hq Ho. unfold go_Queue_ApplyOpts. destruct q as [l|]; [|done]. apply pconf_with_lock, pconf_for.
  intros o Hin. apply go_opt_conf; [by apply Hq|by apply Ho].
Qed.

Lemma go_New_conf n opts :
  al = true → G = N → (∀ o, o ∈ opts → opt_in o) → pconf (λ q, G (KQueue q)) (go_Queue_New n opts).
Proof.
  intros Hal HGN Ho. unfold go_Queue_New. eapply pconf_bind.
  - apply pconf_atomic; [apply touchable_nil|by apply conf_new_queue].
  - intros q Hq. cbn beta in Hq. rewrite <- HGN in Hq.
    eapply pconf_bind; [apply go_ApplyOpts_conf; [by intros ? [= <-]|done]|done].
Qed.

Lemma go_Queue_Clone_conf q : al = true → ptr_in G KQueue q → pconf (ptr_in N KQueue) (go_Queue_Clone q).
Proof.
  intros Hal Hq. unfold go_Queue_Clone. destruct q as [l|]; [|by intros ? ?]. specialize (Hq l eq_refl).
  apply pconf_with_lock. eapply pconf_bind; [apply pconf_atomic; [by apply touchable_one|by apply conf_load_queue]|].
  intros qu Hqu. eapply pconf_bind; [apply go_Quota_Clone_conf; [done|by apply queue_refs in Hqu]|].
  intros t Ht. eapply pconf_bind.
  - apply pconf_atomic; [by apply touchable_one|]. apply conf_alloc_queue; [done..|]. by apply queue_refs.
  - intros l' Hl'. by intros ? [= <-].
Qed.

(** *** Managers *)
Lemma go_GetByName_conf m n : G (KMgr m) → pconf (ptr_in G KQueue) (go_Manager_GetByName m n).
Proof. intros Hm. apply pconf_critical; [done..|]. by apply conf_GetByName. Qed.

Lemma go_route_conf m n err (method : option loc → proc heap lock unit) :
  G (KMgr m) → (∀ q, ptr_in G KQuota q → pconf (λ _, True) (method q)) →
  pconf (λ _, True) (q ← go_Manager_GetByName m n;
      match q with
      | None => mret (Some (queue_does_not_exist err n))
      | Some _ => quota ← go_Queue_Quota q; method quota ;; mret None
      end).
Proof.
  intros Hm Hmeth. eapply pconf_bind; [by apply go_GetByName_conf|]. intros q Hq. destruct q as [l|]; [|done].
  eapply pconf_bind; [by apply (go_Queue_conf _ None)|]. intros t Ht.
  eapply pconf_bind; [by apply Hmeth|done].
Qed.

Lemma go_clone_queues_conf items : ∀ C,
  al = true → (∀ n l, (n, l) ∈ items → G (KQueue l)) →
  pconf (λ C', ∀ n l, C' !! n = Some l → N (KQueue l) ∨ ((n ∉ items.*1) ∧ C !! n = Some l)) (go_clone_queues items C).
Proof.
  induction items as [|[n l] items IH]; intros C Hal Hit.
  { intros n l Hl. right. split; [by apply not_elem_of_nil|done]. }
  cbn [go_clone_queues]. eapply pconf_bind.
  { apply go_Queue_Clone_conf; [done|]. intros ? [= <-]. by apply (Hit n), elem_of_cons; left. }
  intros q Hq. eapply (pconf_bind (λ l', N (KQueue l'))).
  { apply pconf_atomic; [apply touchable_nil|]. apply conf_some. intros a ->. by apply Hq. }
  intros l' Hl'. eapply pconf_mono; [|apply IH; [done|]]; cbn beta.
  - intros C' HC n' l2 Hn'. destruct (HC n' l2 Hn') as [?|[Hni Hl]]; [by left|].
    apply lookup_insert_Some in Hl as [[<- <-]|[Hne Hl]]; [by left|]. right. split; [|done]. simpl.
    rewrite not_elem_of_cons. by split.
  - intros n' l2 Hin. apply (Hit n'), elem_of_cons. by right.
Qed.

Lemma go_Manager_Clone_conf m : al = true → G (KMgr m) → pconf (λ c, N (KMgr c)) (go_Manager_Clone m).
Proof.
  intros Hal Hm. unfold go_Manager_Clone. eapply (pconf_bind (λ C, ∀ n, ptr_in G KQueue (C !! n))).
  { apply pconf_critical; [done..|]. conf_load_first x Hx; [done|]. apply conf_ret. exact (proj1 (mgr_refs _ _) Hx). }
  intros C HC. eapply pconf_bind; [apply go_clone_queues_conf; [done|]|].
  { intros n l Hin%elem_of_map_to_list. by apply (HC n). }
  intros C' HC'. apply pconf_atomic; [apply touchable_nil|]. apply conf_alloc_mgr; [done..|].
  apply mgr_refs. intros n l Hl. destruct (HC' n l Hl) as [?|[Hni Hl']]; [done|]. destruct Hni.
  apply list_elem_of_fmap. exists (n, l). split; [done|]. by apply elem_of_map_to_list.
Qed.

(** *** Every operation *)
Lemma go_Put_conf m n opts :
  al = true → G = N → G (KMgr m) → (∀ o, o ∈ opts → opt_in o) → pconf (λ _, True) (go_Manager_Put m n opts).
Proof.
  intros Hal HGN Hm Ho. apply pconf_with_lock. eapply pconf_bind; [by apply go_New_conf|]. intros q Hq.
  apply pconf_atomic; [by apply touchable_one|]. by apply conf_insert.
Qed.

Lemma go_Update_conf m n opts :
  al = true → G = N → G (KMgr m) → (∀ o, o ∈ opts → opt_in o) → pconf (λ _, True) (go_Manager_Update m n opts).
Proof.
  intros Hal HGN Hm Ho. unfold go_Manager_Update. case_match; [done|]. apply pconf_with_lock.
  eapply pconf_bind; [apply pconf_atomic; [by apply touchable_one|by apply conf_GetByName]|]. intros q Hq.
  destruct q as [q|]; [by apply go_ApplyOpts_conf|]. eapply pconf_bind; [by apply go_New_conf|]. intros q' Hq'.
  apply pconf_atomic; [by apply touchable_one|]. by apply conf_insert.
Qed.

Lemma go_range_conf m : raw → G (KMgr m) → pconf (λ b, ∀ l, l ∈ b → G (KQueue l)) (go_Manager_range m).
Proof.
  intros Hraw Hm. apply pconf_atomic; [by apply touchable_raw|]. conf_load_first x Hx; [done|]. apply conf_ret.
  intros l ([n l'] & -> & Hin%elem_of_map_to_list)%list_elem_of_fmap. by apply (proj1 (mgr_refs _ _) Hx n).
Qed.

Lemma go_UsedMap_conf q : raw → ptr_in G KQuota q → pconf (λ _, True) (go_Quota_UsedMap q).
Proof.
  intros Hraw Hq. unfold go_Quota_UsedMap. eapply pconf_bind; [by apply (go_Quota_conf q [] None None)|]. intros r Hr.
  apply pconf_atomic; [|by apply conf_load_res]. destruct q as [ql|]; [apply touchable_raw; [by apply Hq|done]|apply touchable_nil].
Qed.

Lemma go_String_conf {I : ImmutMap} {SS : SliceSort} q :
  raw → al = true → G = N → ptr_in G KQuota q → pconf (λ _, True) (go_Quota_String q).
Proof.
  intros Hraw Hal HGN Hq. unfold go_Quota_String. eapply pconf_bind; [by apply go_Quota_Clone_conf|]. intros c Hc.
  cbn beta in Hc. rewrite <- HGN in Hc. apply pconf_atomic; [|by apply conf_stringNoLock].
  destruct c as [cl|]; [apply touchable_raw; [by apply Hc|done]|apply touchable_nil].
Qed.

Lemma go_MaxMap_conf q : ptr_in G KQuota q → pconf (λ _, True) (go_Quota_MaxMap q).
Proof.
  intros Hq. unfold go_Quota_MaxMap. eapply pconf_bind; [by apply (go_Quota_conf q [] None None)|]. intros r Hr.
  apply pconf_atomic; [apply touchable_nil|by apply conf_load_res].
Qed.
End confined.

(** The operations that make objects, and those that link them to objects of
    their arguments or use them at once. *)
Definition makes {T : ApiTypes} {B} (c : qcall B) : Prop :=
  match c with QNewManager | QMakeResources _ | QPut _ _ _ | QUpdate _ _ _ | QClone _ | QString _ => True | _ => False end.
Definition mixes {T : ApiTypes} {B} (c : qcall B) : Prop :=
  match c with QPut _ _ _ | QUpdate _ _ _ | QString _ => True | _ => False end.

(** Arguments in the region; results in the region, or among the new cells. *)
Definition args_in {T : ApiTypes} (G : region) {B} (c : qcall B) : Prop :=
  match c with
  | QNewManager | QMakeResources _ | QNil _ => True
  | QPut m _ opts | QUpdate m _ opts => G (KMgr m) ∧ ∀ o, o ∈ opts → opt_in G o
  | QDelete m _ | QGetByName m _ | QGet m _ | QClone m | QAddPod m _ | QDeletePod m _ | QRange m => G (KMgr m)
  | QApplyOpts q opts => ptr_in G KQueue q ∧ ∀ o, o ∈ opts → opt_in G o
  | QName q | QQuota q | QPreemptionConfig q | QCanPodBePreempted q _ | QLabels q => ptr_in G KQueue q
  | QQuotaAdd q _ | QQuotaDelete q _ | QQuotaDeleteFunc q _ | QMax q | QUsed q | QWouldPutOverMax q _
  | QContainsPod q _ | QUsedMap q | QMaxMap q | QString q => ptr_in G KQuota q
  | QSetMax q max => ptr_in G KQuota q ∧ ptr_in G KRes max
  end.

Definition result_in {T : ApiTypes} (G N : region) {B} (c : qcall B) : B → Prop :=
  match c with
  | QNewManager | QClone _ => λ m, N (KMgr m)
  | QMakeResources _ => ptr_in N KRes
  | QMax _ | QUsed _ => ptr_in G KRes
  | QGetByName _ _ | QGet _ _ => ptr_in G KQueue
  | QQuota _ => ptr_in G KQuota
  | QRange _ => λ b, ∀ l, l ∈ b → G (KQueue l)
  | _ => λ _, True
  end.

Section calls.
Context {T : ApiTypes} {Q : QuantityOps} {P : PodOps} {L : SelectorOps}.

Lemma call_conf al (G N : region) (raw : Prop) {B} (c : qcall B) :
  (G = N ∨ ∀ k, G k → N k → False) → (mixes c → G = N) → (makes c → al = true) → (raw_call c → raw) →
  args_in G c → pconf al G N raw (result_in G N c) (go_call c).
Proof.
  intros HGN Hmix Hmk Hraw Hargs.
  destruct c; cbn [go_call mixes makes raw_call args_in result_in] in *.
  - apply pconf_atomic; [apply touchable_nil|]. apply conf_alloc_mgr; [done|by apply Hmk|]. apply mgr_refs. by intros n l.
  - apply pconf_atomic; [apply touchable_nil|]. by apply conf_alloc_res; [|apply Hmk].
  - destruct Hargs. apply go_Put_conf; auto.
  - destruct Hargs. apply go_Update_conf; auto.
  - apply pconf_critical; [done..|]. by apply conf_Delete.
  - by apply go_GetByName_conf.
  - unfold go_Manager_Get. destruct pod as [p|]; [|by intros ? ?]. case_match; [by apply go_GetByName_conf|by intros ? ?].
  - unfold go_Manager_AddPodIfNotPresent. destruct pod as [p|]; [|done]. case_match; [|done].
    apply (go_route_conf al G N raw _ _ _ (λ t, go_Quota_AddPodIfNotPresent t _)); [done|].
    intros t Ht. by apply (go_Quota_conf al G N raw HGN t _ None None).
  - unfold go_Manager_DeletePodIfPresent. destruct pod as [p|]; [|done]. case_match; [|done].
    apply (go_route_conf al G N raw _ _ _ (λ t, go_Quota_DeletePodIfPresent t _)); [done|].
    intros t Ht. by apply (go_Quota_conf al G N raw HGN t _ None None).
  - apply go_Manager_Clone_conf; auto.
  - destruct Hargs. by apply go_ApplyOpts_conf.
  - by apply (go_Queue_conf al G N raw q None).
  - by apply (go_Queue_conf al G N raw q None).
  - by apply (go_Queue_conf al G N raw q None).
  - by apply (go_Queue_conf al G N raw q pod).
  - by apply (go_Queue_conf al G N raw q None).
  - by apply (go_Quota_conf al G N raw HGN q pods None None).
  - by apply (go_Quota_conf al G N raw HGN q pods None None).
  - by apply go_DeletePodsFunc_conf.
  - by apply (go_Quota_conf al G N raw HGN q [] None None).
  - destruct Hargs. by apply (go_Quota_conf al G N raw HGN q [] None max).
  - by apply (go_Quota_conf al G N raw HGN q [] None None).
  - by apply (go_Quota_conf al G N raw HGN q [] None None).
  - by apply (go_Quota_conf al G N raw HGN q [] request None).
  - by apply go_range_conf; [apply Hraw|].
  - by apply go_UsedMap_conf; [..|apply Hraw|].
  - by apply go_MaxMap_conf.
  - by apply go_String_conf; [..|apply Hraw|apply Hmk|apply Hmix|].
  - apply pconf_atomic; [apply touchable_nil|]. by intros h b h2 [=].
Qed.
End calls.
