(* ===== verification/Observers.v ===== *)
(** * Observers: programs that take clones and read them without locks

    A goroutine's objects are those that it makes.  Unless it publishes them no other
    goroutine ever gets hold of them: in every interleaving the others
    stay outside of the region of cells that it allocates.  Hence its unlocked
    reads of its own objects do not race, its clones change only by its own
    hand, and after it has taken a clone it computes as if it were alone. *)

From stdpp Require Import base tactics option list gmap strings sorting relations.
From Stdlib Require Import ZArith Lia.
From S2P Require Import Prelude.
From S2P Require Import External.
From S2P Require Import Concrete.
From S2P Require Import Resources.
From S2P Require Import Api.
From S2P Require Import Match.
From S2P Require Import Store.
From S2P Require Import StoreFacts.
From S2P Require Import Quota.
From S2P Require Import Queue.
From S2P Require Import Manager.
From S2P Require Import ManagerProps.
From S2P Require Import Threads.
From S2P Require Import ThreadFacts.
From S2P Require Import Locking.
From S2P Require Import LockingFacts.
From S2P Require Import LockSafety.
From S2P Require Import LockMethods.
From S2P Require Import ConcurrencyProps.
From S2P Require Import Regions.
From S2P Require Import Snapshots.
From S2P Require Import Isolation.

Section programs.
Context {T : ApiTypes} {Q : QuantityOps} {P : PodOps} {L : SelectorOps}.
Implicit Types (G Z : region) (h : heap).

(** ** Programs *)

(** All the program's objects come from the region: its arguments lie in it, if
    the results of its calls do. *)
Fixpoint given {A} G (p : client A) : Prop :=
  match p with
  | CReturn _ => True
  | CCall c k => args_in G c ∧ ∀ b, result_in G G c b → given G (k b)
  end.

(** The program gets at objects only from what there is at the start and from
    its own calls. *)
Definition uses {A} h (p : client A) : Prop := ∀ G, (∀ k, is_Some (get h k) → G k) → given G p.

(** The program makes objects in [Z] and publishes none of them: each call works
    either on the region alone or outside of it, where it only makes new objects in
    it; only what is in the region is read without a lock. *)
Fixpoint observes {A} Z (p : client A) : Prop :=
  match p with
  | CReturn _ => True
  | CCall c k =>
      (args_in Z c ∧ ∀ b, result_in Z Z c b → observes Z (k b)) ∨
      (args_in (compl Z) c ∧ ¬ mixes c ∧ ¬ raw_call c ∧ ∀ b, result_in (compl Z) Z c b → observes Z (k b))
  end.

Definition observer {A} h (p : client A) : Prop := ∀ Z, (∀ k, Z k → get h k = None) → observes Z p.

Lemma given_conf {A} G (p : client A) : given G p → pconf true G G True (λ _, True) (goroutine p).
Proof.
  induction p as [a|B c k IH]; [done|]. cbn [goroutine given]. intros [Ha Hk]. eapply pconf_bind.
  - apply (call_conf true G G True c); auto.
  - intros b Hb. by apply IH, Hk.
Qed.

Lemma args_all {B} (c : qcall B) : args_in (λ _, True) c.
Proof.
  assert (∀ (opts : list queue_opt) o, o ∈ opts → opt_in (λ _, True) o) as Ho by by intros opts [] _.
  destruct c; cbn [args_in]; split_and?; try done; apply Ho.
Qed.

Lemma locked_conf {A} (p : client A) : locked_only p → pconf true (λ _, True) (λ _, True) False (λ _, True) (goroutine p).
Proof.
  induction p as [a|B c k IH]; [done|]. cbn [goroutine reads_ok]. intros [Hraw Hk]. eapply pconf_bind.
  - apply (call_conf true (λ _, True) (λ _, True) False c); auto.
    apply args_all.
  - intros b _. by apply IH, Hk.
Qed.

(** *** The same of code *)
Fixpoint ob {A} Z (p : proc heap lock A) : Prop :=
  match p with
  | Done _ => True
  | Act fp act k =>
      (∀ x, x ∈ fp → is_Some (unguarded x.1) → lock_in Z x.1) ∧
      ∀ h b h', act h = Ret (b, h') → closed Z h → closed (compl Z) h → fresh_in Z h h' →
        closed Z h' ∧ closed (compl Z) h' ∧ ob Z (k b)
  | Acquire _ _ k | Release _ _ k => ob Z k
  end.

Lemma ob_bind {A B} al Z G raw (R : A → Prop) (p : proc heap lock A) (f : A → proc heap lock B) :
  G = Z ∨ G = compl Z → (raw → G = Z) → pconf al G Z raw R p → (∀ a, R a → ob Z (f a)) → ob Z (p ≫= f).
Proof.
  unfold mbind, proc_mbind. intros HG Hraw Hp Hf.
  induction p as [a|X fp act k IH|md l k IH|md l k IH]; simpl in *; auto.
  destruct Hp as [Hfp Ha]. split.
  - intros x Hx Hu. destruct (Hfp x Hx) as [Hl Hr]. by rewrite <- (Hraw (Hr Hu)).
  - intros h b h' Hb HZ HC Hf'.
    assert (closed G h) as HGh by (destruct HG as [-> | ->]; done).
    destruct (Ha h b h' Hb HGh HZ Hf') as (HG' & HZ' & Hu & Hk & _). split; [done|]. split; [|by apply IH].
    destruct HG as [-> | ->]; [|done].
    intros k' c Hk' Hg. apply (HC k' c Hk'). by rewrite <- (Hu k' Hk' Hk').
Qed.

Lemma observes_ob {A} Z (p : client A) : observes Z p → ob Z (goroutine p).
Proof.
  induction p as [a|B c k IH]; [done|]. cbn [goroutine observes]. intros [[Ha Hk]|(Ha & Hm & Hr & Hk)].
  - eapply (ob_bind true Z Z True); [by left|done|apply (call_conf true Z Z True c); auto|]. intros b Hb. by apply IH, Hk.
  - eapply (ob_bind true Z (compl Z) False); [by right|done|apply (call_conf true (compl Z) Z False c)|].
    + right. by intros k' ? ?.
    + done.
    + done.
    + done.
    + done.
    + intros b Hb. by apply IH, Hk.
Qed.

(** ** Steps *)

(** What a step does with a goroutine's code and the heap. *)
Definition proc_step {A} (p : proc heap lock A) h (p' : proc heap lock A) h' : Prop :=
  match p with
  | Done _ => False
  | Act fp act k => ∃ b, act h = Ret (b, h') ∧ p' = k b
  | Acquire _ _ k => h' = h ∧ (p' = k ∨ p' = p)
  | Release _ _ k => h' = h ∧ p' = k
  end.

Lemma thread_proc_step {A} ts (t t' : thread heap lock A) h h' :
  thread_step ts t h = Some (t', h') → proc_step (code t) h (code t') h'.
Proof.
  unfold thread_step. destruct (code t) as [a|B fp act k|md l k|md l k] eqn:Hc; [done|..]; cbn [proc_step].
  - destruct (act h) as [[b h1]|]; [|done]. intros [= <- <-]. by exists b.
  - destruct md; [|destruct (pending t)]; case_bool_decide; intros Hs; try discriminate Hs; injection Hs as <- <-; auto.
  - destruct (unhold (l, md) (held t)); [|done]. by intros [= <- <-].
Qed.

Lemma pmono_step {A} (p p' : proc heap lock A) h h' : pmono p → proc_step p h p' h' → mono h h' ∧ pmono p'.
Proof.
  destruct p as [a|B fp act k|md l k|md l k]; cbn [pmono proc_step].
  - done.
  - intros [Ha Hk] (b & Hb & ->). split; [by eapply Ha|done].
  - intros Hk [-> [-> | ->]]; (split; [apply mono_refl|done]).
  - intros Hk [-> ->]. split; [apply mono_refl|done].
Qed.

Lemma pconf_step {A} al G N raw (R : A → Prop) p p' h h' :
  pconf al G N raw R p → proc_step p h p' h' → closed G h → closed N h → fresh_in N h h' →
  pconf al G N raw R p' ∧ closed G h' ∧ closed N h' ∧ unchanged G N h h'.
Proof.
  destruct p as [a|B fp act k|md l k|md l k]; cbn [proc_step].
  - done.
  - intros [_ Ha] (b & Hb & ->) HG HN Hf. destruct (Ha h b h' Hb HG HN Hf) as (? & ? & ? & ? & _). done.
  - intros Hk [-> [-> | ->]] HG HN _; by split_and!.
  - intros Hk [-> ->] HG HN _; by split_and!.
Qed.

Lemma ob_step {A} Z (p p' : proc heap lock A) h h' :
  ob Z p → proc_step p h p' h' → closed Z h → closed (compl Z) h → fresh_in Z h h' →
  ob Z p' ∧ closed Z h' ∧ closed (compl Z) h'.
Proof.
  destruct p as [a|B fp act k|md l k|md l k]; cbn [proc_step].
  - done.
  - intros [_ Ha] (b & Hb & ->) HZ HC Hf. destruct (Ha h b h' Hb HZ HC Hf) as (? & ? & ?). done.
  - intros Hk [-> [-> | ->]] HZ HC _; by split_and!.
  - intros Hk [-> ->] HZ HC _; by split_and!.
Qed.
End programs.

(** ** Runs *)
Section runs.
Context {T : ApiTypes} {Q : QuantityOps} {P : PodOps} {L : SelectorOps} {A : Type}.
Implicit Types (Z : region) (c : config heap lock A) (t : thread heap lock A).

(** One step of goroutine [i]. *)
Definition step_of (i : nat) c c' : Prop :=
  ∃ t t', c.2 !! i = Some t ∧ thread_step c.2 t c.1 = Some (t', c'.1) ∧ c'.2 = <[i := t']> c.2.

Lemma cstep_step_of c c' : cstep c c' ↔ ∃ i, step_of i c c'.
Proof.
  split.
  - intros Hs. destruct Hs as [h ts i t t' h' Ht Hs]. exists i, t, t'. done.
  - intros (i & t & t' & Ht & Hs & Hc). destruct c as [h ts], c' as [h' ts']; simpl in *. subst ts'. by econstructor.
Qed.

(** The same, where goroutine [j] makes its cells in [Z] and the others do not. *)
Definition step_in Z j i c c' : Prop :=
  step_of i c c' ∧ fresh_in (if decide (i = j) then Z else compl Z) c.1 c'.1.

Definition zstep Z j c c' : Prop := ∃ i, step_in Z j i c c'.

Definition nothing_freed c : Prop := ∀ i t, c.2 !! i = Some t → pmono (code t).

Lemma step_of_inv i c c' : step_of i c c' →
  ∃ t t', c.2 !! i = Some t ∧ c'.2 !! i = Some t' ∧ proc_step (code t) c.1 (code t') c'.1
    ∧ ∀ k, k ≠ i → c'.2 !! k = c.2 !! k.
Proof.
  intros (t & t' & Ht & Hs & Hc). exists t, t'. rewrite Hc.
  rewrite list_lookup_insert_eq by by eapply lookup_lt_Some. split_and!; [done|done|by eapply thread_proc_step|].
  intros k Hk. by rewrite list_lookup_insert_ne.
Qed.

Lemma step_of_mono i c c' : nothing_freed c → step_of i c c' → mono c.1 c'.1 ∧ nothing_freed c'.
Proof.
  intros Hn (t & t' & Ht & Ht' & Hp & Hrest)%step_of_inv.
  destruct (pmono_step _ _ _ _ (Hn i t Ht) Hp) as [Hm Hk]. split; [done|].
  intros k tk Hk'. destruct (decide (k = i)) as [->|Hne]; [by simplify_eq|]. rewrite Hrest in Hk' by done. by eapply Hn.
Qed.

(** The region may grow by cells that are there already. *)
Lemma zsteps_weaken Z D j c c2 :
  rtc (zstep Z j) c c2 → nothing_freed c → (∀ k, D k → is_Some (get c.1 k)) → rtc (zstep (λ k, Z k ∨ D k) j) c c2.
Proof.
  induction 1 as [c|c c1 c2 (i & Hs & Hf) _ IH]; intros Hn HD; [apply rtc_refl|].
  destruct (step_of_mono i c c1 Hn Hs) as [Hm Hn1]. eapply rtc_l; [|apply IH; [done|by auto]].
  exists i. split; [done|]. intros k Hk Hk1. specialize (Hf k Hk Hk1).
  case_decide; [by left|]. intros [?|Hd]; [done|]. destruct (HD k Hd). congruence.
Qed.

(** Every run of goroutine [j] has the region of the cells that it makes in it. *)
Lemma prophecy j c c2 :
  rtc cstep c c2 → nothing_freed c → ∃ Z, (∀ k, Z k → get c.1 k = None) ∧ rtc (zstep Z j) c c2.
Proof.
  induction 1 as [c|c c1 c2 [i Hs]%cstep_step_of _ IH]; intros Hn; [exists (λ _, False); split; [done|apply rtc_refl]|].
  destruct (step_of_mono i c c1 Hn Hs) as [Hm Hn1]. destruct (IH Hn1) as (Z & HZ & Hr).
  destruct (decide (i = j)) as [->|Hne].
  - set (D k := get c.1 k = None ∧ is_Some (get c1.1 k)). exists (λ k, Z k ∨ D k). split.
    + intros k [Hk|[? _]]; [|done]. destruct (get c.1 k) eqn:E; [|done]. destruct (Hm k) as [? ?]; [by eexists|].
      by rewrite (HZ k Hk) in *.
    + eapply rtc_l; [|apply zsteps_weaken; [done|done|by intros k [_ ?]]].
      exists j. split; [done|]. rewrite decide_True by done. intros k H1 H2. by right.
  - exists Z. split.
    + intros k Hk. destruct (get c.1 k) eqn:E; [|done]. destruct (Hm k) as [? ?]; [by eexists|]. by rewrite (HZ k Hk) in *.
    + eapply rtc_l; [|done]. exists i. split; [done|]. rewrite decide_False by done.
      intros k _ [x Hx] Hk. by rewrite (HZ k Hk) in Hx.
Qed.

(** ** Isolation along a run *)
Record isolated Z j c : Prop := mkIsolated {
  iso_in : closed Z c.1;
  iso_out : closed (compl Z) c.1;
  iso_others i t : c.2 !! i = Some t → i ≠ j → pconf true (compl Z) (compl Z) True (λ _, True) (code t);
}.

Lemma isolated_other Z j i c c' :
  isolated Z j c → i ≠ j → step_in Z j i c c' → isolated Z j c' ∧ agree Z c.1 c'.1.
Proof.
  intros [Hin Hout Hoth] Hne [Hs Hf]. rewrite decide_False in Hf by done.
  apply step_of_inv in Hs as (t & t' & Ht & Ht' & Hp & Hrest).
  destruct (pconf_step _ _ _ _ _ _ _ _ _ (Hoth i t Ht Hne) Hp Hout Hout Hf) as (Hk & Hout' & _ & Hu).
  assert (agree Z c.1 c'.1) as Ha by (intros k Hk'; symmetry; by apply Hu; unfold compl; auto).
  split; [|done]. split; [|done|].
  - intros k x Hk' Hx. apply (Hin k x Hk'). by rewrite (Ha k Hk').
  - intros k tk Hk' Hkj. destruct (decide (k = i)) as [->|Hki]; [by simplify_eq|]. rewrite Hrest in Hk' by done. by eapply Hoth.
Qed.

(** A step of the goroutine itself that keeps both regions closed. *)
Lemma isolated_own Z j c c' :
  isolated Z j c → step_of j c c' → closed Z c'.1 → closed (compl Z) c'.1 → isolated Z j c'.
Proof.
  intros [_ _ Hoth] (t & t' & Ht & Ht' & Hp & Hrest)%step_of_inv Hin Hout. split; [done|done|].
  intros k tk Hk Hkj. rewrite Hrest in Hk by done. by eapply Hoth.
Qed.

Definition observing Z j c : Prop := isolated Z j c ∧ ∀ t, c.2 !! j = Some t → ob Z (code t).

Lemma observing_step Z j c c' : observing Z j c → zstep Z j c c' → observing Z j c'.
Proof.
  intros [Hiso Hob] [i Hs]. destruct (decide (i = j)) as [->|Hne].
  - destruct Hs as [Hs Hf]. rewrite decide_True in Hf by done.
    pose proof Hs as (t & t' & Ht & Ht' & Hp & _)%step_of_inv.
    destruct (ob_step Z _ _ _ _ (Hob t Ht) Hp) as (Hk & HZ & HC); [apply Hiso|apply Hiso|done|].
    split; [by eapply isolated_own|]. intros t2 Ht2. by simplify_eq.
  - destruct (isolated_other Z j i c c' Hiso Hne Hs) as [Hiso' _]. split; [done|].
    destruct Hs as [(t & t' & Ht & Ht' & Hp & Hrest)%step_of_inv _]. intros t2 Ht2. rewrite Hrest in Ht2 by done. by apply Hob.
Qed.

Lemma observing_steps Z j c c' : observing Z j c → rtc (zstep Z j) c c' → observing Z j c'.
Proof. intros Hc Hr. induction Hr; eauto using observing_step. Qed.
End runs.

(** ** A clone, and then nobody else *)
Section alone.
Context {T : ApiTypes} {Q : QuantityOps} {P : PodOps} {L : SelectorOps} {QL : QuantityLaws} {A : Type}.
Implicit Types (Z : region) (c : config heap lock A) (h : heap).

(** Code that makes nothing does the same in any heap that agrees on its region. *)
Lemma pconf_step_alone {B} Z raw (R : B → Prop) p p' h h' h0 :
  pconf false Z Z raw R p → proc_step p h p' h' → closed Z h → fresh_in Z h h' → agree Z h h0 →
  ∃ h0', unlocked p h0 = unlocked p' h0' ∧ agree Z h' h0'.
Proof.
  destruct p as [a|X fp act k|md l k|md l k]; cbn [proc_step unlocked].
  - done.
  - intros [_ Ha] (b & Hb & ->) HZ Hf Hagr. destruct (Ha h b h' Hb HZ HZ Hf) as (_ & _ & _ & _ & Hl).
    destruct (Hl eq_refl h0 Hagr) as (h0' & He & Hagr'). exists h0'. split; [|done].
    unfold mbind, st_bind. by rewrite He.
  - intros Hk [-> [-> | ->]] _ _ Hagr; by exists h0.
  - intros Hk [-> ->] _ _ Hagr. by exists h0.
Qed.

Lemma bind_step {B C} (p : proc heap lock B) (f : B → proc heap lock C) q h h' :
  proc_step (p ≫= f) h q h' → (∃ b, p = Done b) ∨ ∃ p', proc_step p h p' h' ∧ q = p' ≫= f.
Proof.
  destruct p as [b|X fp act k|md l k|md l k]; unfold mbind, proc_mbind; simpl; intros H; [by left; exists b|right..].
  - destruct H as (b & Hb & ->). exists (k b). split; [by exists b|done].
  - destruct H as [-> [-> | ->]]; eexists; (split; [split; [done|]|]); [by left|done|by right|done].
  - destruct H as [-> ->]. by exists k.
Qed.

(** Goroutine [j] is about to run the rest [p] of its program. *)
Definition at_program j (p : client A) c : Prop := ∃ t, c.2 !! j = Some t ∧ code t = goroutine p.
Definition ended j c : Prop := ∃ t a, c.2 !! j = Some t ∧ code t = Done a.

(** Goroutine [j] is in the middle of a call that makes nothing, with arguments of its own. *)
Definition calling Z j {B} (q : qcall B) (k : B → client A) h0 c : Prop :=
  isolated Z j c ∧ ∃ t p h1, c.2 !! j = Some t ∧ code t = p ≫= (λ b, goroutine (k b))
    ∧ pconf false Z Z True (result_in Z Z q) p ∧ seq_call q h0 = unlocked p h1 ∧ agree Z c.1 h1.

(** It is between two calls, and its objects are as in [h0]. *)
Definition alone_at Z j (p : client A) h0 c : Prop := isolated Z j c ∧ at_program j p c ∧ agree Z c.1 h0.

Lemma calling_step Z j {B} (q : qcall B) (k : B → client A) h0 c c' :
  calling Z j q k h0 c → zstep Z j c c' →
  (∃ b h1, seq_call q h0 = Ret (b, h1) ∧ result_in Z Z q b ∧ alone_at Z j (k b) h1 c) ∨ calling Z j q k h0 c'.
Proof.
  intros [Hiso (t & p & h1 & Ht & Hc & Hp & Hun & Hagr)] [i Hs]. destruct (decide (i = j)) as [->|Hne].
  - destruct Hs as [Hs Hf]. rewrite decide_True in Hf by done.
    pose proof Hs as (t1 & t' & Ht1 & Ht' & Hst & _)%step_of_inv. rewrite Ht in Ht1. injection Ht1 as <-.
    rewrite Hc in Hst. destruct (bind_step _ _ _ _ _ Hst) as [[b ->]|(p' & Hst' & Hc')].
    + left. exists b, h1. do 3 (split; [done|]). split; [by exists t|done].
    + right. destruct (pconf_step _ _ _ _ _ _ _ _ _ Hp Hst' (iso_in _ _ _ Hiso) (iso_in _ _ _ Hiso) Hf) as (Hp' & HZ' & _ & Hu).
      destruct (pconf_step_alone Z _ _ _ _ _ _ h1 Hp Hst' (iso_in _ _ _ Hiso) Hf Hagr) as (h1' & Hun' & Hagr').
      split; [|exists t', p', h1'; by rewrite Hun]. eapply isolated_own; [done|done|done|].
      intros x y Hk2 Hx. apply (iso_out _ _ _ Hiso x y Hk2). by rewrite <- (Hu x Hk2 Hk2).
  - right. destruct (isolated_other Z j i c c' Hiso Hne Hs) as [Hiso' Hsame]. split; [done|].
    destruct Hs as [(ti & t' & Hti & Ht' & _ & Hrest)%step_of_inv _]. exists t, p, h1. rewrite Hrest by done.
    split_and!; [done..|]. intros x Hx. rewrite <- (Hsame x Hx). by apply Hagr.
Qed.

(** A call that makes nothing gives what it gives alone, and leaves the objects
    as it does alone. *)
Lemma call_alone Z j {B} (q : qcall B) (k : B → client A) h0 c c2 :
  args_in Z q → ¬ makes q → alone_at Z j (CCall q k) h0 c → rtc (zstep Z j) c c2 → ended j c2 →
  ∃ c1 b h1, rtc (zstep Z j) c c1 ∧ rtc (zstep Z j) c1 c2
    ∧ seq_call q h0 = Ret (b, h1) ∧ result_in Z Z q b ∧ alone_at Z j (k b) h1 c1.
Proof.
  intros Ha Hm (Hiso & (t & Ht & Hc) & Hagr) Hr Hend.
  assert (calling Z j q k h0 c) as Hcall.
  { split; [done|]. exists t, (go_call q), h0. rewrite alone_call. split_and!; [done|done| |done|done].
    apply call_conf; auto; by intros ?. }
  clear Hiso Ht Hc Hagr. clear t. induction Hr as [c|c c1 c2 Hs Hr IH].
  - destruct Hcall as [Hiso (t & p & h1 & Ht & Hc & Hp & Hun & Hagr)]. destruct Hend as (t' & a & Ht' & Ha').
    rewrite Ht in Ht'. injection Ht' as <-. rewrite Hc in Ha'. destruct p as [b| | |]; try done. exists c, b, h1.
    split_and!; [apply rtc_refl|apply rtc_refl|done|done|]. split; [done|]. split; [by exists t|done].
  - destruct (calling_step Z j q k h0 c c1 Hcall Hs) as [(b & h1 & ? & ? & ?)|Hcall'].
    + exists c, b, h1. split_and!; [apply rtc_refl|by eapply rtc_l|done..].
    + destruct (IH Hend Hcall') as (c' & b & h1 & Hr1 & Hrest). exists c', b, h1. split; [by eapply rtc_l|done].
Qed.

(** The program [p] does as [p'] does, with arguments of its own and making
    nothing, and goes on with [f]. *)
Inductive prefix Z {B} (f : B → client A) : client A → client B → Prop :=
| prefix_done b : prefix Z f (f b) (CReturn b)
| prefix_call X (q : qcall X) k k' :
    args_in Z q → ¬ makes q → (∀ x, result_in Z Z q x → prefix Z f (k x) (k' x)) →
    prefix Z f (CCall q k) (CCall q k').

Lemma prefix_alone Z j {B} (f : B → client A) p p' : prefix Z f p p' → ∀ h0 c c2,
  alone_at Z j p h0 c → rtc (zstep Z j) c c2 → ended j c2 →
  ∃ c1 b h1, rtc (zstep Z j) c c1 ∧ rtc (zstep Z j) c1 c2
    ∧ run_client p' h0 = Ret (b, h1) ∧ alone_at Z j (f b) h1 c1.
Proof.
  induction 1 as [b|X q k k' Ha Hm _ IH]; intros h0 c c2 Hc Hr Hend.
  { exists c, b, h0. split_and!; [apply rtc_refl|done|done|done]. }
  destruct (call_alone Z j q k h0 c c2 Ha Hm Hc Hr Hend) as (c1 & x & h1 & Hr1 & Hr2 & Hq & Hx & Hc1).
  destruct (IH x Hx h1 c1 c2 Hc1 Hr2 Hend) as (c3 & b & h3 & Hr3 & Hr4 & Hp & Hc3).
  exists c3, b, h3. split_and!; [by etrans|done| |done]. cbn [run_client].
  unfold mbind, st_bind. by rewrite Hq.
Qed.

(** What follows the last of a program's calls decides its result. *)
Fixpoint returns (R : A → Prop) (p : client A) : Prop :=
  match p with CReturn a => R a | CCall q k => ∀ b, returns R (k b) end.

Fixpoint ends (R : A → Prop) (p : proc heap lock A) : Prop :=
  match p with
  | Done a => R a
  | Act _ _ k => ∀ b, ends R (k b)
  | Acquire _ _ k | Release _ _ k => ends R k
  end.

Lemma returns_ends R p : returns R p → ends R (goroutine p).
Proof.
  induction p as [a|B q k IH]; [done|]. cbn [goroutine returns]. intros Hk. unfold mbind, proc_mbind.
  induction (go_call q) as [b|X fp act k' IHp|md l k' IHp|md l k' IHp]; simpl; auto.
Qed.

Lemma ends_run R j p c c2 t2 a :
  returns R p → at_program j p c → rtc cstep c c2 → c2.2 !! j = Some t2 → code t2 = Done a → R a.
Proof.
  intros HR (t & Ht & Hc) Hr Ht2 Ha. apply returns_ends in HR. rewrite <- Hc in HR. clear p Hc.
  revert t Ht HR Ht2. induction Hr as [c|c c1 c2 [i Hs]%cstep_step_of _ IH]; intros t Ht HR Ht2.
  - rewrite Ht in Ht2. injection Ht2 as ->. by rewrite Ha in HR.
  - destruct (step_of_inv i c c1 Hs) as (ti & ti' & Hti & Hti' & Hst & Hrest).
    destruct (decide (i = j)) as [->|Hne]; [|apply (IH t); [by rewrite Hrest|done|done]].
    rewrite Ht in Hti. injection Hti as <-. refine (IH ti' Hti' _ Ht2). clear -HR Hst.
    destruct (code t) as [b|X fp act k|md l k|md l k]; cbn [proc_step ends] in *.
    + done.
    + by destruct Hst as (b & _ & ->).
    + destruct Hst as [_ [-> | ->]]; exact HR.
    + by destruct Hst as [_ ->].
Qed.

(** *** While the clone is taken *)

(** [S]: heaps in which the goroutine's actions happen. *)
Definition taking S Z j m (k : loc → client A) c : Prop :=
  isolated Z j c ∧ ∃ t p h0, c.2 !! j = Some t ∧ code t = p ≫= (λ b, goroutine (k b))
    ∧ pconf true (compl Z) Z False (λ mc, Z (KMgr mc)) p ∧ sees S Z p (clone_of S Z m) h0 ∧ agree Z h0 c.1.

Definition taken S Z j m (k : loc → client A) c mc : Prop :=
  alone_at Z j (k mc) c.1 c ∧ Z (KMgr mc) ∧ clone_of S Z m mc c.1.

Lemma sees_step S Z {B} (p p' : proc heap lock B) K h0 h h' :
  sees S Z p K h0 → agree Z h0 h → S h → wf h → closed Z h → proc_step p h p' h' → fresh_in Z h h' →
  ∃ h0', sees S Z p' K h0' ∧ agree Z h0' h'.
Proof.
  destruct p as [b|X fp act k|md l k|md l k]; cbn [sees proc_step]; intros Hs Ha HS Hwf HZ Hst Hf.
  - done.
  - destruct Hst as (b & Hb & ->). exists h'. split; [by apply (Hs h)|done].
  - destruct Hst as [-> [-> | ->]]; by exists h0.
  - destruct Hst as [-> ->]. by exists h0.
Qed.

Lemma taking_end S Z j m k c mc t h0 :
  isolated Z j c → c.2 !! j = Some t → code t = goroutine (k mc) → Z (KMgr mc) → clone_of S Z m mc h0 → agree Z h0 c.1 →
  taken S Z j m k c mc.
Proof.
  intros Hiso Ht Hc Hmc Hcl Ha. split; [|split; [done|]].
  - split; [done|]. split; [by exists t|done].
  - eapply clone_of_agree; [apply Hiso|done..].
Qed.

Lemma taking_step S Z j m k c c' :
  S c.1 → wf c.1 → taking S Z j m k c → zstep Z j c c' → (∃ mc, taken S Z j m k c mc) ∨ taking S Z j m k c'.
Proof.
  intros HS Hwf [Hiso (t & p & h0 & Ht & Hc & Hp & Hs0 & Ha)] [i Hs]. destruct (decide (i = j)) as [->|Hne].
  - destruct Hs as [Hs Hf]. rewrite decide_True in Hf by done.
    pose proof Hs as (t1 & t' & Ht1 & Ht' & Hst & _)%step_of_inv. rewrite Ht in Ht1. injection Ht1 as <-.
    rewrite Hc in Hst. destruct (bind_step _ _ _ _ _ Hst) as [[mc ->]|(p' & Hst' & Hc')].
    + left. exists mc. by eapply taking_end.
    + right. destruct (pconf_step _ _ _ _ _ _ _ _ _ Hp Hst' (iso_out _ _ _ Hiso) (iso_in _ _ _ Hiso) Hf) as (Hp' & Hout & Hin & _).
      destruct (sees_step S Z p p' _ h0 c.1 c'.1 Hs0 Ha HS Hwf (iso_in _ _ _ Hiso) Hst' Hf) as (h0' & Hs0' & Ha').
      split; [by eapply isolated_own|]. by exists t', p', h0'.
  - right. destruct (isolated_other Z j i c c' Hiso Hne Hs) as [Hiso' Hsame]. split; [done|].
    destruct Hs as [(ti & t' & Hti & Ht' & _ & Hrest)%step_of_inv _]. exists t, p, h0. rewrite Hrest by done.
    split_and!; [done..|]. intros x Hx. rewrite (Ha x Hx). by apply Hsame.
Qed.

(** Once the goroutine is at its end, it had taken its clone at some moment. *)
Lemma taking_run S Z j m k c c2 :
  rtc (zstep Z j) c c2 → (∀ c', rtc (zstep Z j) c c' → rtc (zstep Z j) c' c2 → S c'.1 ∧ wf c'.1) →
  taking S Z j m k c → ended j c2 →
  ∃ c1 mc, rtc (zstep Z j) c c1 ∧ rtc (zstep Z j) c1 c2 ∧ taken S Z j m k c1 mc.
Proof.
  induction 1 as [c|c c1 c2 Hs Hr IH]; intros Hheaps Htk Hend.
  - destruct Htk as [Hiso (t & p & h0 & Ht & Hc & Hp & Hs0 & Ha)]. destruct Hend as (t2 & a & Ht2 & Hdone).
    rewrite Ht in Ht2. injection Ht2 as ->. rewrite Hc in Hdone.
    destruct p as [mc| | |]; try done. exists c, mc. split_and!; [apply rtc_refl|apply rtc_refl|by eapply taking_end].
  - destruct (Hheaps c (rtc_refl _ _) (rtc_l _ _ _ _ Hs Hr)) as [HS Hwf].
    destruct (taking_step S Z j m k c c1 HS Hwf Htk Hs) as [[mc Hmc]|Htk1].
    + exists c, mc. split_and!; [apply rtc_refl|by eapply rtc_l|done].
    + destruct IH as (c' & mc & H1 & H2 & H3); [|done..|].
      { intros c' H1 H2. apply Hheaps; [by eapply rtc_l|done]. }
      exists c', mc. split_and!; [by eapply rtc_l|done|done].
Qed.

(** The same from the moment on when it is about to take the clone. *)
Lemma clone_run S Z j m k c c2 :
  isolated Z j c → at_program j (CCall (QClone m) k) c → ¬ Z (KMgr m) →
  rtc (zstep Z j) c c2 → (∀ c', rtc (zstep Z j) c c' → rtc (zstep Z j) c' c2 → S c'.1 ∧ wf c'.1) → ended j c2 →
  ∃ c1 mc, rtc (zstep Z j) c c1 ∧ rtc (zstep Z j) c1 c2 ∧ taken S Z j m k c1 mc.
Proof.
  intros Hiso (t & Ht & Hc) Hm Hr Hheaps Hend. apply (taking_run S Z j m k c c2 Hr Hheaps); [|done].
  split; [done|]. exists t, (go_call (QClone m)), c.1. split_and!; [done|done| |apply sees_Manager_Clone|done].
  apply (call_conf true (compl Z) Z False (QClone m)); [by right|done|done|done|exact Hm].
Qed.
End alone.

(** ** Goroutines of the package *)
Section any_run.
Context {T : ApiTypes} {Q : QuantityOps} {P : PodOps} {L : SelectorOps} {QL : QuantityLaws}.
Variable req : requests.
Implicit Types (Z : region) (h : heap).

(** In a well-formed heap the cells refer to cells. *)
Lemma refs_allocated h k c k' : wf h → get h k = Some c → refs c k' → is_Some (get h k').
Proof.
  intros Hwf Hk Hr.
  destruct k as [l|l|l|l]; simpl in Hk; apply fmap_Some in Hk as (x & Hx & ->); destruct k' as [l'|l'|l'|l']; simpl in Hr; try done.
  - destruct Hr as [n Hn]. destruct (wf_mgr_queue h Hwf _ _ _ _ Hx Hn) as (qu & Hqu & _). simpl. by rewrite Hqu.
  - destruct (wf_queue_quota h Hwf _ _ Hx) as (tl & qo & Ht & Ho). simplify_eq/=. by rewrite Ho.
  - destruct (wf_refs_allocated h l x Hwf Hx) as [Hm Hu]. simpl.
    destruct Hr as [Hr|Hr]; [destruct (Hm _ Hr) as [m ->]|destruct (Hu _ Hr) as [m ->]]; by eexists.
Qed.

Lemma closed_start Z h : wf h → (∀ k, Z k → get h k = None) → closed Z h ∧ closed (compl Z) h.
Proof.
  intros Hwf HZ. split.
  - intros k c Hk Hg. by rewrite (HZ k Hk) in Hg.
  - intros k c _ Hg k' Hr Hk'. destruct (refs_allocated h k c k' Hwf Hg Hr) as [x Hx]. by rewrite (HZ k' Hk') in Hx.
Qed.

Lemma start_lookup {A} h (ps : list (client A)) i t :
  (start h ps).2 !! i = Some t ↔ ∃ p, ps !! i = Some p ∧ t = spawn (goroutine p).
Proof.
  simpl. rewrite list_lookup_fmap, fmap_Some. split.
  - intros (q & Hq & ->). apply list_lookup_fmap_Some in Hq as (p & -> & Hp). by exists p.
  - intros (p & Hp & ->). exists (goroutine p). by rewrite list_lookup_fmap, Hp.
Qed.

Lemma start_nothing_freed {A} h (ps : list (client A)) : nothing_freed (start h ps).
Proof. intros i t (p & _ & ->)%start_lookup. apply goroutine_pmono. Qed.

Lemma start_isolated {A} Z j h (ps : list (client A)) :
  wf h → (∀ k, Z k → get h k = None) → (∀ p, p ∈ ps → uses h p) → isolated Z j (start h ps).
Proof.
  intros Hwf HZ Hps. destruct (closed_start Z h Hwf HZ). split; [done|done|].
  intros i t (p & Hp & ->)%start_lookup _. apply given_conf, Hps; [by eapply list_elem_of_lookup_2|].
  intros k [x Hx] Hk. by rewrite (HZ k Hk) in Hx.
Qed.

(** Code that is locked stays so. *)
Lemma guarded_steps {A} j (c c' : config heap lock A) :
  rtc cstep c c' →
  (∀ t, c.2 !! j = Some t → pconf true (λ _, True) (λ _, True) False (λ _, True) (code t)) →
  ∀ t, c'.2 !! j = Some t → pconf true (λ _, True) (λ _, True) False (λ _, True) (code t).
Proof.
  induction 1 as [c|c c1 c' [i Hs]%cstep_step_of _ IH]; [done|]. intros Hc. apply IH. intros t1 Ht1.
  apply step_of_inv in Hs as (t & t' & Ht & Ht' & Hp & Hrest).
  destruct (decide (j = i)) as [->|Hne]; [|apply Hc; by rewrite <- Hrest].
  rewrite Ht' in Ht1. injection Ht1 as <-. by eapply (pconf_step true (λ _, True) (λ _, True) False); [by apply Hc|done|..].
Qed.

Lemma pconf_touches {A} al G N raw (R : A → Prop) (t : thread heap lock A) x :
  pconf al G N raw R (code t) → x ∈ touches t → lock_in G x.1 ∧ (is_Some (unguarded x.1) → raw).
Proof.
  unfold touches. destruct (code t); try by intros _ ?%elem_of_nil. intros [Hfp _] Hx. by apply Hfp.
Qed.

Lemma ob_touches {A} Z (t : thread heap lock A) x :
  ob Z (code t) → x ∈ touches t → is_Some (unguarded x.1) → lock_in Z x.1.
Proof.
  unfold touches. destruct (code t); try by intros _ ?%elem_of_nil. intros [Hfp _] Hx. by apply Hfp.
Qed.

Lemma lock_in_object Z l l' : unguarded l' = Some l → lock_in Z l' → lock_in Z l.
Proof. by destruct l'; intros [= <-]. Qed.

(** Unlocked reads are safe as the scheduler uses them.  Let the goroutines
    get at objects from what there was at the start and from their own calls,
    and let each one either touch objects only under their locks, or be an
    observer: publish none of the objects that it makes, and read without the
    lock none but those.  Then no two of them are ever about to touch the
    same object, with a lock or without, with one of them writing it. *)
Lemma observers_do_not_race {A} h (ps : list (client A)) h1 ts1 :
  heap_inv req h → (∀ p, p ∈ ps → client_ok req p h ∧ uses h p ∧ (locked_only p ∨ observer h p)) →
  rtc cstep (start h ps) (h1, ts1) → ¬ races ts1.
Proof.
  intros Hi Hps Hr Hrace.
  destruct (reached req h ps _ Hi ltac:(intros p Hin; apply (Hps p Hin)) Hr) as [_ Hok].
  destruct (races_raw _ _ _ _ Hok Hrace) as (i & j & ti & tj & l & l' & Hne & Hti & Htj & Hl & Hl' & Hun & _).
  destruct (prophecy j _ _ Hr (start_nothing_freed h ps)) as (Z & HZ & Hz). simpl in HZ.
  assert (isolated Z j (start h ps)) as Hiso0.
  { apply start_isolated; [apply Hi|done|]. intros p Hin. apply (Hps p Hin). }
  assert (∃ p, ps !! j = Some p) as [p Hp].
  { apply lookup_lt_is_Some. apply lookup_lt_Some in Htj. assert (length ts1 = length (start h ps).2) as Hlen.
    { clear -Hr. change ts1 with (h1, ts1).2. induction Hr as [|c c1 c2 Hs _ IH]; [done|]. rewrite IH.
      apply cstep_step_of in Hs as (? & ? & ? & _ & _ & ->). by rewrite length_insert. }
    simpl in Hlen. rewrite !length_fmap in Hlen. lia. }
  destruct (Hps p) as (_ & Hu & [Hlk|Hob]); [by eapply list_elem_of_lookup_2| |].
  - assert (is_Some (unguarded l')) as Hs by by eexists.
    eapply (pconf_touches _ _ _ False _ tj (l', Rd)); [|done|done]. eapply (guarded_steps j); [exact Hr| |done].
    intros t (p' & Hp' & ->)%start_lookup. simplify_eq. by apply locked_conf.
  - assert (observing Z j (start h ps)) as Hobs.
    { split; [done|]. intros t (p' & Hp' & ->)%start_lookup. simplify_eq. by apply observes_ob, Hob. }
    destruct (observing_steps Z j _ _ Hobs Hz) as [[_ _ Hoth] Hoj].
    assert (lock_in Z l') as Hin by (apply (ob_touches Z tj (l', Rd)); [by apply Hoj|done|by eexists]).
    destruct (pconf_touches _ _ _ _ _ ti (l, Wr) (Hoth i ti Hti Hne) Hl) as [Hout _].
    apply (lock_in_object Z l l' Hun) in Hin. destruct l; simpl in *; done.
Qed.

(** The start of a run, for one of its goroutines. *)
Lemma start_run {A} h (ps : list (client A)) j p c :
  heap_inv req h → (∀ q, q ∈ ps → client_ok req q h ∧ uses h q) → ps !! j = Some p → rtc cstep (start h ps) c →
  ∃ Z, (∀ x, Z x → get h x = None) ∧ rtc (zstep Z j) (start h ps) c ∧ isolated Z j (start h ps)
    ∧ nothing_freed (start h ps) ∧ at_program j p (start h ps).
Proof.
  intros Hi Hps Hj Hr. destruct (prophecy j _ _ Hr (start_nothing_freed h ps)) as (Z & HZ & Hz). exists Z.
  split_and!; [done|done| |apply start_nothing_freed|].
  - apply start_isolated; [apply Hi|done|]. intros q Hin. apply (Hps q Hin).
  - exists (spawn (goroutine p)). split; [|done]. apply start_lookup. by eexists.
Qed.

Lemma zsteps_run {A} Z j (c c' : config heap lock A) : rtc (zstep Z j) c c' → rtc cstep c c'.
Proof.
  intros Hc. induction Hc as [|c c1 c' [i [Hs _]] _ IH]; [apply rtc_refl|].
  eapply rtc_l; [|exact IH]. apply cstep_step_of. by exists i.
Qed.

(** The heap of a moment between two configurations. *)
Definition moment {A} (c0 c2 : config heap lock A) h : Prop := ∃ ts, rtc cstep c0 (h, ts) ∧ rtc cstep (h, ts) c2.

(** A goroutine that takes a clone, in any run, goes on as if it were alone: as
    long as its calls make nothing and have arguments of its own, their results
    are those of the sequential code from the heap of the moment when it had
    its clone.  That clone shows what the manager and its queues were at moments
    of the run, and its used amounts are accounted for. *)
Lemma clone_then_alone {A B} Z j m (k : loc → client A) (f : loc → B → client A) (k' : loc → client B) h (ps : list (client A)) c c2 :
  heap_inv req h → (∀ p, p ∈ ps → client_ok req p h) → rtc cstep (start h ps) c →
  isolated Z j c → at_program j (CCall (QClone m) k) c → ¬ Z (KMgr m) →
  (∀ mc, Z (KMgr mc) → prefix Z (f mc) (k mc) (k' mc)) →
  rtc (zstep Z j) c c2 → ended j c2 →
  ∃ c1 mc h1 V b h2, rtc (zstep Z j) c1 c2 ∧ rtc cstep (start h ps) c1
    ∧ wf h1 ∧ view_mgr h1 mc = Some V ∧ seen_manager (moment (start h ps) c2) m V ∧ accounts req V
    ∧ run_client (k' mc) h1 = Ret (b, h2) ∧ alone_at Z j (f mc b) h2 c1.
Proof.
  intros Hi Hps Hr Hiso Hat Hm Hk Hz Hend.
  destruct (clone_run (moment (start h ps) c2) Z j m k c c2 Hiso Hat Hm Hz) as ([h1 ts1] & mc & H1 & H2 & Hal & Hmc & Hcl); [|done|].
  { intros [h' ts'] Hz1%zsteps_run Hz2%zsteps_run. split; [exists ts'; split; [by etrans|done]|].
    apply (reached_inv req h ps h' ts' Hi Hps). by etrans. }
  destruct (prefix_alone Z j (f mc) _ _ (Hk mc Hmc) h1 _ c2 Hal H2 Hend) as (c3 & b & h3 & H3 & H4 & Hb & Hc3).
  assert (rtc cstep (start h ps) (h1, ts1)) as Hr1 by (etrans; [exact Hr|by eapply zsteps_run]).
  pose proof (reached_inv req h ps h1 ts1 Hi Hps Hr1) as Hi1. destruct Hcl as (M & HM & _ & Hseen). simpl in HM, Hseen.
  assert (view_mgr h1 mc = Some (omap (view_queue h1) (queueByName M))) as HV by (unfold view_mgr; by rewrite HM).
  exists c3, mc, h1, (omap (view_queue h1) (queueByName M)), b, h3.
  split_and!; [done| |apply Hi1|done|done|by apply (heap_inv_ok req h1 mc)|done|done].
  etrans; [exact Hr1|by eapply zsteps_run].
Qed.
End any_run.
