(* ===== verification/Frozen.v ===== *)
(** * Frozen: objects that nobody changes

    The snapshot that [PreFilter] leaves is only cloned while the candidates of a
    preemption are tried at once.  A goroutine keeps off a region of old objects when
    it only takes clones of the managers in it and for the rest works outside: if
    all goroutines do, the region is the same at every moment of the run, and
    every clone of a manager in it has the manager's own value. *)

From stdpp Require Import base tactics option list gmap strings sorting relations.
From Stdlib Require Import ZArith Lia.
From S2P Require Import Prelude.
From S2P Require Import External.
From S2P Require Import Resources.
From S2P Require Import Api.
From S2P Require Import Match.
From S2P Require Import Store.
From S2P Require Import StoreFacts.
From S2P Require Import Quota.
From S2P Require Import Queue.
From S2P Require Import Manager.
From S2P Require Import Regions.
From S2P Require Import Snapshots.
From S2P Require Import Threads.
From S2P Require Import ThreadFacts.
From S2P Require Import Locking.
From S2P Require Import LockingFacts.
From S2P Require Import LockSafety.
From S2P Require Import LockMethods.
From S2P Require Import ConcurrencyProps.
From S2P Require Import Isolation.
From S2P Require Import Observers.

(** ** Cloning changes no cell *)
Section keeping.
Context {T : ApiTypes} {Q : QuantityOps} {P : PodOps} {L : SelectorOps} {QL : QuantityLaws}.
Implicit Types (h : heap) (W : region).

Definition kept_st {A} (m : st heap A) : Prop := ∀ h b h', m h = Ret (b, h') → kept h h'.

Lemma kept_bind {A B} (m : st heap A) (f : A → st heap B) :
  kept_st m → (∀ a, kept_st (f a)) → kept_st (m ≫= f).
Proof.
  intros Hm Hf h b h' (a & h1 & H1 & H2)%bind_Ret. eapply kept_trans; [by eapply Hm|by eapply Hf].
Qed.

Lemma kept_ret {A} (a : A) : kept_st (mret a).
Proof. intros h b h' [= _ <-]. apply kept_refl. Qed.
Lemma kept_some {A} (o : option A) : kept_st (st_some o).
Proof. intros h b h' Hm. destruct o; [|done]. injection Hm as _ <-. apply kept_refl. Qed.
Lemma kept_get : kept_st st_get.
Proof. intros h b h' [= _ <-]. apply kept_refl. Qed.
Lemma kept_loads l : kept_st (load_quota l) ∧ kept_st (load_queue l) ∧ kept_st (load_mgr l) ∧ ∀ r, kept_st (load_res r).
Proof.
  split_and!; [..|intros r]; (apply kept_bind; [apply kept_get|intros h]); [apply kept_some..|apply kept_ret].
Qed.

Lemma kept_Quota_Clone l : kept_st (Quota_Clone (Some l)).
Proof.
  unfold Quota_Clone. apply kept_bind; [apply kept_loads|]. intros qo.
  assert (∀ r (f : option loc → st heap (option loc)), (∀ l, kept_st (f l)) →
    kept_st (m ← load_res r; m' ← alloc_res (Resources_Clone m); f m')) as Hclone.
  { intros r f Hf. apply kept_bind; [by apply (kept_loads 1%positive)|]. intros m. apply kept_bind; [|done].
    intros h b h' Hb. by apply alloc_res_kept in Hb as [? _]. }
  apply Hclone. intros mx. apply Hclone. intros us. apply kept_bind; [|intros tl; apply kept_ret].
  intros h b h' Hb. by apply alloc_quota_kept in Hb as [? _].
Qed.

(** Code all of whose actions leave the cells alone. *)
Fixpoint pkept {A} (p : proc heap lock A) : Prop :=
  match p with
  | Done _ => True
  | Act _ act k => kept_st act ∧ ∀ b, pkept (k b)
  | Acquire _ _ k | Release _ _ k => pkept k
  end.

Lemma pkept_bind {A B} (p : proc heap lock A) (f : A → proc heap lock B) :
  pkept p → (∀ a, pkept (f a)) → pkept (p ≫= f).
Proof.
  unfold mbind, proc_mbind. intros Hp Hf. induction p as [a|X fp act k IH|md l k IH|md l k IH]; simpl in *; auto.
  destruct Hp. split; auto.
Qed.

Lemma pkept_with_lock {A} md l (p : proc heap lock A) : pkept p → pkept (with_lock md l p).
Proof. intros Hp. by apply (pkept_bind p). Qed.
Lemma pkept_atomic {A} fp (act : st heap A) : kept_st act → pkept (atomic fp act).
Proof. by intros Ha. Qed.

Lemma go_Manager_Clone_pkept m : pkept (go_Manager_Clone m).
Proof.
  unfold go_Manager_Clone. apply pkept_bind.
  { apply pkept_with_lock, pkept_atomic, kept_bind; [apply kept_loads|]. intros M. apply kept_ret. }
  intros C. apply pkept_bind.
  - generalize C at 2. induction (map_to_list C) as [|[n l] items IH]; intros C'; [done|]. cbn [go_clone_queues].
    apply pkept_bind; [|intros q; apply pkept_bind; [apply pkept_atomic, kept_some|intros l'; apply IH]].
    apply pkept_with_lock, pkept_bind; [apply pkept_atomic, kept_loads|]. intros qu. apply pkept_bind.
    + destruct (queue_quota qu); [|done]. apply pkept_with_lock, pkept_atomic, kept_Quota_Clone.
    + intros quota. apply pkept_bind; [|done]. apply pkept_atomic. intros h b h' Hb. by apply alloc_queue_kept in Hb as [? _].
  - intros C'. apply pkept_atomic. intros h b h' Hb. by apply alloc_mgr_kept in Hb as [? _].
Qed.

(** ** A region of old cells *)
Record frozen W h : Prop := mkFrozen {
  fr_in : closed W h;
  fr_out : closed (compl W) h;
  fr_there k : W k → is_Some (get h k);
}.

Lemma frozen_agree W h h' : frozen W h → agree W h h' → closed (compl W) h' → frozen W h'.
Proof.
  intros [Hin _ Hth] Ha Hout. split; [|done|].
  - intros k c Hk Hc. apply (Hin k c Hk). by rewrite (Ha k Hk).
  - intros k Hk. rewrite <- (Ha k Hk). by apply Hth.
Qed.

Lemma fresh_outside W h h' : frozen W h → fresh_in (compl W) h h'.
Proof. intros Hf k Hk _ Hin. destruct (fr_there _ _ Hf k Hin). congruence. Qed.

(** Code that leaves the region alone. *)
Fixpoint leaves {A} W (p : proc heap lock A) : Prop :=
  match p with
  | Done _ => True
  | Act _ act k => ∀ h b h', act h = Ret (b, h') → frozen W h → frozen W h' ∧ agree W h h' ∧ leaves W (k b)
  | Acquire _ _ k | Release _ _ k => leaves W k
  end.

(** It works outside of it. *)
Lemma leaves_outside {A B} W (R : A → Prop) (p : proc heap lock A) (f : A → proc heap lock B) :
  pconf true (compl W) (compl W) True R p → (∀ a, R a → leaves W (f a)) → leaves W (p ≫= f).
Proof.
  unfold mbind, proc_mbind. intros Hp Hf.
  induction p as [a|X fp act k IH|md l k IH|md l k IH]; simpl in *; auto.
  destruct Hp as [_ Ha]. intros h b h' Hb Hfr.
  destruct (Ha h b h' Hb (fr_out _ _ Hfr) (fr_out _ _ Hfr) (fresh_outside _ _ h' Hfr)) as (Hout & _ & Hu & Hk & _).
  assert (agree W h h') as Hag by (intros k' Hk'; symmetry; by apply Hu; unfold compl; auto).
  split; [by eapply frozen_agree|]. split; [done|]. by apply IH.
Qed.

(** Or it takes a clone of what is in it. *)
Lemma leaves_clone {A B} W (R : A → Prop) (p : proc heap lock A) (f : A → proc heap lock B) :
  pkept p → pconf true W (compl W) False R p → (∀ a, R a → leaves W (f a)) → leaves W (p ≫= f).
Proof.
  unfold mbind, proc_mbind. intros Hkept Hp Hf.
  induction p as [a|X fp act k IH|md l k IH|md l k IH]; simpl in *; auto.
  destruct Hp as [_ Ha], Hkept as [Hkact Hkk]. intros h b h' Hb Hfr.
  destruct (Ha h b h' Hb (fr_in _ _ Hfr) (fr_out _ _ Hfr) (fresh_outside _ _ h' Hfr)) as (_ & Hout & _ & Hk & _).
  assert (agree W h h') as Hag.
  { intros k' Hk'. destruct (fr_there _ _ Hfr k' Hk') as [c Hc]. by rewrite Hc, (Hkact h b h' Hb k' c Hc). }
  split; [by eapply frozen_agree|]. split; [done|]. by apply IH.
Qed.

(** *** Programs *)
Definition clones W {B} (c : qcall B) : Prop := match c with QClone m => W (KMgr m) | _ => False end.

(** The program works outside of the region, its clones of what is in it apart. *)
Fixpoint keeps_off {A} W (p : client A) : Prop :=
  match p with
  | CReturn _ => True
  | CCall c k =>
      (args_in (compl W) c ∧ ∀ b, result_in (compl W) (compl W) c b → keeps_off W (k b)) ∨
      (clones W c ∧ ∀ b, result_in W (compl W) c b → keeps_off W (k b))
  end.

Lemma given_keeps_off {A} W (p : client A) : given (compl W) p → keeps_off W p.
Proof. induction p as [a|B c k IH]; [done|]. intros [Ha Hk]. left. auto. Qed.

Lemma keeps_off_leaves {A} W (p : client A) : keeps_off W p → leaves W (goroutine p).
Proof.
  induction p as [a|B c k IH]; [done|]. cbn [goroutine keeps_off]. intros [[Ha Hk]|[Hc Hk]].
  - eapply leaves_outside; [apply (call_conf true (compl W) (compl W) True c); auto|]. auto.
  - eapply (leaves_clone W (result_in W (compl W) c)); [..|by auto].
    + destruct c; try done. apply go_Manager_Clone_pkept.
    + destruct c; try done. apply (call_conf true W (compl W) False (QClone qm)); [|done..]. right. by intros k' ? ?.
Qed.

(** *** Runs *)
Definition all_leave {A} W (c : config heap lock A) : Prop :=
  frozen W c.1 ∧ ∀ i t, c.2 !! i = Some t → leaves W (code t).

Lemma leaves_step {A} W (p p' : proc heap lock A) h h' :
  leaves W p → proc_step p h p' h' → frozen W h → frozen W h' ∧ agree W h h' ∧ leaves W p'.
Proof.
  destruct p as [a|B fp act k|md l k|md l k]; cbn [leaves proc_step].
  - done.
  - intros Ha (b & Hb & ->). by apply Ha.
  - intros Hk [-> [-> | ->]] Hf; by split_and!.
  - intros Hk [-> ->] Hf. by split_and!.
Qed.

Lemma all_leave_steps {A} W (c c' : config heap lock A) :
  rtc cstep c c' → all_leave W c → all_leave W c' ∧ agree W c.1 c'.1.
Proof.
  induction 1 as [c|c c1 c' [i Hs]%cstep_step_of _ IH]; intros [Hf Hall]; [by split|].
  apply step_of_inv in Hs as (t & t' & Ht & Ht' & Hp & Hrest).
  destruct (leaves_step W _ _ _ _ (Hall i t Ht) Hp Hf) as (Hf1 & Ha1 & Hl1).
  destruct IH as [IH1 IH2].
  - split; [done|]. intros j tj Hj. destruct (decide (j = i)) as [->|Hne]; [by simplify_eq|].
    rewrite Hrest in Hj by done. by eapply Hall.
  - split; [done|]. intros k Hk. by rewrite (Ha1 k Hk), (IH2 k Hk).
Qed.

(** The region is the same at every moment. *)
Lemma frozen_moments {A} W h (ps : list (client A)) c2 h' :
  frozen W h → (∀ p, p ∈ ps → keeps_off W p) → moment (start h ps) c2 h' → agree W h h'.
Proof.
  intros Hf Hps (ts & Hr & _). apply (all_leave_steps W (start h ps) (h', ts) Hr). split; [done|].
  intros i t (p & Hp & ->)%start_lookup. apply keeps_off_leaves, Hps. by eapply list_elem_of_lookup_2.
Qed.

(** *** Values *)
Lemma frozen_lookups W h h' : agree W h h' →
  (∀ l, W (KMgr l) → h_mgr h' !! l = h_mgr h !! l) ∧ (∀ l, W (KQueue l) → h_queue h' !! l = h_queue h !! l)
  ∧ (∀ l, W (KQuota l) → h_quota h' !! l = h_quota h !! l) ∧ (∀ l, W (KRes l) → h_res h' !! l = h_res h !! l).
Proof.
  intros Ha. split_and!; intros l Hl; specialize (Ha _ Hl); simpl in Ha.
  - destruct (h_mgr h !! l), (h_mgr h' !! l); by simplify_eq/=.
  - destruct (h_queue h !! l), (h_queue h' !! l); by simplify_eq/=.
  - destruct (h_quota h !! l), (h_quota h' !! l); by simplify_eq/=.
  - destruct (h_res h !! l), (h_res h' !! l); by simplify_eq/=.
Qed.

Lemma frozen_refs W h k c k' : frozen W h → W k → get h k = Some c → refs c k' → W k'.
Proof. intros Hf Hk Hc Hr. by apply (fr_in _ _ Hf k c). Qed.

Lemma frozen_quota W h h' tl qo :
  frozen W h → agree W h h' → W (KQuota tl) → h_quota h !! tl = Some qo → view_quota h' qo = view_quota h qo.
Proof.
  intros Hf Ha Ht Ho. destruct (frozen_lookups W h h' Ha) as (_ & _ & _ & Hres).
  assert (∀ ref, (∀ l, ref = Some l → refs (CQuota qo) (KRes l)) → res_val h' ref = res_val h ref) as Hval.
  { intros [l|] Hl; [|done]. unfold res_val. simpl. rewrite Hres; [done|].
    apply (frozen_refs W h (KQuota tl) (CQuota qo)); [done|done|simpl; by rewrite Ho|by apply Hl]. }
  unfold view_quota. by rewrite !Hval by (intros l Hl; simpl; auto).
Qed.

(** A clone of a manager of the region shows the manager's value. *)
Lemma seen_frozen (S : heap → Prop) W h m V :
  frozen W h → W (KMgr m) → (∀ h', S h' → agree W h h') → seen_manager S m V → view_mgr h m = Some V.
Proof.
  intros Hf Hm HS (h0 & M & H0 & HM & Hn). destruct (frozen_lookups W h h0 (HS h0 H0)) as (Hmgr & _). rewrite Hmgr in HM by done.
  unfold view_mgr. rewrite HM. cbn. f_equal. apply map_eq. intros n.
  specialize (Hn n). rewrite lookup_omap. destruct (queueByName M !! n) as [ql|] eqn:En; [|done].
  destruct Hn as (v & Hv & h1 & qu & tl & h2 & qo & H1 & Hqu & Ht & H2 & Ho & ->). rewrite Hv. cbn.
  assert (W (KQueue ql)) as Wq by (apply (frozen_refs W h (KMgr m) (CMgr M)); [done|done|simpl; by rewrite HM|by exists n]).
  destruct (frozen_lookups W h h1 (HS h1 H1)) as (_ & Hq & _). rewrite Hq in Hqu by done.
  assert (W (KQuota tl)) as Wt by (apply (frozen_refs W h (KQueue ql) (CQueue qu)); [done|done|simpl; by rewrite Hqu|done]).
  destruct (frozen_lookups W h h2 (HS h2 H2)) as (_ & _ & Hto & _). rewrite Hto in Ho by done.
  apply view_queue_Some. exists qu, tl, qo. split_and!; [done..|]. f_equal. apply (frozen_quota W h h2 tl); auto.
Qed.

(** The manager keeps its value. *)
Lemma frozen_view W h h' m V :
  frozen W h → W (KMgr m) → agree W h h' → wf h → view_mgr h m = Some V → view_mgr h' m = Some V.
Proof.
  intros Hf Hm Ha Hwf HV. pose proof HV as (M & HM & ->)%view_mgr_Some.
  destruct (frozen_lookups W h h' Ha) as (Hmgr & Hq & Ht & _). unfold view_mgr. rewrite Hmgr, HM by done. cbn. f_equal.
  apply map_eq. intros n. rewrite !lookup_omap. destruct (queueByName M !! n) as [ql|] eqn:En; [|done]. cbn.
  assert (W (KQueue ql)) as Wq by (apply (frozen_refs W h (KMgr m) (CMgr M)); [done|done|simpl; by rewrite HM|by exists n]).
  destruct (wf_mgr_queue h Hwf _ _ _ _ HM En) as (qu & Hqu & _).
  destruct (wf_queue_quota h Hwf _ _ Hqu) as (tl & qo & Hqt & Ho).
  assert (W (KQuota tl)) as Wt by (apply (frozen_refs W h (KQueue ql) (CQueue qu)); [done|done|simpl; by rewrite Hqu|done]).
  transitivity (Some (mkQueueV (queue_name qu) (view_quota h qo) (queue_labels qu) (queue_preemptionCfg qu))).
  - apply view_queue_Some. exists qu, tl, qo. rewrite Hq, Ht by done. split_and!; [done..|]. f_equal. symmetry. by apply (frozen_quota W h h' tl).
  - symmetry. apply view_queue_Some. by exists qu, tl, qo.
Qed.
End keeping.

(** ** Deciding whether a list of cells is such a region *)
Section deciding.
Context {T : ApiTypes}.
Implicit Types (h : heap) (W : list key).

Definition opt_key (K : loc → key) (o : option loc) : list key := match o with Some l => [K l] | None => [] end.

Definition cell_refs (c : cell) : list key :=
  match c with
  | CMgr M => KQueue <$> (map_to_list (queueByName M)).*2
  | CQueue qu => opt_key KQuota (queue_quota qu)
  | CQuota qo => opt_key KRes (quota_max qo) ++ opt_key KRes (quota_used qo)
  | CRes _ => []
  end.

Lemma refs_listed c k : refs c k → k ∈ cell_refs c.
Proof.
  destruct c as [M|qu|qo|m], k as [l|l|l|l]; simpl; try done.
  - intros [n Hn]. apply list_elem_of_fmap_2, list_elem_of_fmap. exists (n, l). split; [done|]. by apply elem_of_map_to_list.
  - intros ->. by left.
  - rewrite elem_of_app. intros [-> | ->]; [left|right]; by left.
Qed.

(** The locations with an object, of each kind. *)
Definition all_keys h : list key :=
  (KMgr <$> (map_to_list (h_mgr h)).*1) ++ (KQueue <$> (map_to_list (h_queue h)).*1)
  ++ (KQuota <$> (map_to_list (h_quota h)).*1) ++ (KRes <$> (map_to_list (h_res h)).*1).

Lemma allocated_listed h k : is_Some (get h k) → k ∈ all_keys h.
Proof.
  assert (∀ (X : Type) (m : gmap loc X) (K : loc → key) l, is_Some (m !! l) → K l ∈ K <$> (map_to_list m).*1) as Hin.
  { intros X m K l [x Hx]. apply list_elem_of_fmap_2, list_elem_of_fmap. exists (l, x). split; [done|]. by apply elem_of_map_to_list. }
  unfold all_keys. rewrite !elem_of_app. intros Hk. destruct k as [l|l|l|l]; simpl in Hk; apply fmap_is_Some in Hk; auto 6.
Qed.

Definition frozen_b W h : bool :=
  forallb (λ k, bool_decide (k ∈ all_keys h)) W
  && forallb (λ k, match get h k with
       | Some c => forallb (λ k', eqb (bool_decide (k ∈ W)) (bool_decide (k' ∈ W))) (cell_refs c)
       | None => false
       end) (all_keys h).

Lemma frozen_b_sound W h : frozen_b W h = true → frozen (λ k, k ∈ W) h.
Proof.
  intros [H1 H2]%andb_true_iff. rewrite forallb_forall in H1, H2.
  assert (∀ k c k', get h k = Some c → refs c k' → (k ∈ W ↔ k' ∈ W)) as Hrefs.
  { intros k c k' Hc Hr%refs_listed. specialize (H2 k). rewrite Hc in H2.
    assert (List.In k (all_keys h)) as Hk by (apply list_elem_of_In, allocated_listed; by eexists).
    specialize (H2 Hk). rewrite forallb_forall in H2. apply list_elem_of_In in Hr. apply H2, eqb_prop in Hr.
    by rewrite <- (bool_decide_eq_true (k ∈ W)), Hr, bool_decide_eq_true. }
  split.
  - intros k c Hk Hc k' Hr. by rewrite <- (Hrefs k c k' Hc Hr).
  - intros k c Hk Hc k' Hr Hin. apply Hk. by rewrite (Hrefs k c k' Hc Hr).
  - intros k Hk. specialize (H1 k ltac:(by apply list_elem_of_In)). apply bool_decide_eq_true, list_elem_of_In in H1.
    specialize (H2 k H1). destruct (get h k); [by eexists|done].
Qed.
End deciding.
