(* ===== verification/DryRuns.v ===== *)
(** * DryRuns: the simulation of preemption on a node, as a goroutine

    The framework tries the nodes for victims at once, each in a goroutine of its
    own, with a clone of the cycle state and hence of the queue snapshot.
    Here [SelectVictimsOnNode] is a program of file [Locking]: its calls of the
    queue package one after the other, with the node, the victims and the
    cycle state as the goroutine's own values.  Run alone it is the code of
    file [Preemptor]. *)

From stdpp Require Import base tactics option list gmap strings sorting relations.
From Stdlib Require Import ZArith Lia.
From S2P Require Import Prelude.
From S2P Require Import External.
From S2P Require Import Resources.
From S2P Require Import Api.
From S2P Require Import Pods.
From S2P Require Import Match.
From S2P Require Import PdbEval.
From S2P Require Import Store.
From S2P Require Import StoreFacts.
From S2P Require Import Quota.
From S2P Require Import Queue.
From S2P Require Import Manager.
From S2P Require Import ManagerProps.
From S2P Require Import Evaluator.
From S2P Require Import State.
From S2P Require Import Plugin.
From S2P Require Import Preemptor.
From S2P Require Import PreemptorFacts.
From S2P Require Import ValueEquiv.
From S2P Require Import VictimSelection.
From S2P Require Import Threads.
From S2P Require Import ThreadFacts.
From S2P Require Import Locking.
From S2P Require Import LockingFacts.
From S2P Require Import LockSafety.
From S2P Require Import LockMethods.
From S2P Require Import ConcurrencyProps.
From S2P Require Import Regions.
From S2P Require Import Isolation.
From S2P Require Import Observers.

(** What a selection returns: the victims, how many violate a budget, and a status. *)
Abbreviation selection := (list Pod * Z * Status)%type.

Section programs.
Context {T : ApiTypes} {Q : QuantityOps} {P : PodOps} {L : SelectorOps} {F : FrameworkOps}.
Context {I : ImmutMap} {SS : SliceSort}.
Context {O : Type} {C : CycleStateOps (StateData O)}.
Variable fmt_state : StateData O → string.

(** The framework's runs of the plugins' extension points [AddPod] and
    [RemovePod], as programs: what follows gets the status and the cycle state. *)
Class RunPrograms := {
  run_program {A} : bool → CycleState → Pod → PodInfo → NodeInfo → (Status → CycleState → client A) → client A;
}.
Context {R : RunOps} {RP : RunPrograms}.

(** A computation that touches no object, or panics. *)
Definition lift {A B} (o : outcome B) (k : B → client A) : client A :=
  match o with Ret b => k b | Panic => CCall (QNil B) k end.

(** The plugin's own extension points, [AddPod] and [RemovePod]. *)
Definition extension {A} (add : bool) (s : CycleState) (pi : PodInfo) (k : Status → CycleState → client A) : client A :=
  match ReadQueueSnapshot fmt_state s with
  | inr err => k (NewStatus Error [error_Error err]) s
  | inl sn =>
      CCall ((if add then QAddPod else QDeletePod) (QueueMgr sn) (Some (PodInfo_GetPod pi))) (λ _, k (NewStatus Success [""]) s)
  end.

(** *** The evaluator *)
Definition new_evaluator {A} (c : loc) (preemptor : Pod) (k : PreemptionEvaluator → client A) : client A :=
  CCall (QGet c (Some preemptor)) (λ q, k (mkEvaluator c (Some preemptor) q (PodPriority preemptor))).

(** Guards one after the other. *)
Definition unless {A} (o : outcome bool) (k : bool → client A) (next : client A) : client A :=
  lift o (λ b, if negb b then k false else next).

Definition is_allowed {A} (pe : PreemptionEvaluator) (victim : Pod) (k : bool → client A) : client A :=
  match pe_preemptor pe, pe_preemptorQ pe with
  | Some preemptor, Some preemptorQ =>
      if (pe_preemptorPrio pe <=? PodPriority victim)%Z then k false
      else
        CCall (QPreemptionConfig (Some preemptorQ)) (λ preemptorCfg,
        if negb (CanPreempt (Preempts preemptorCfg)) then k false
        else
          unless (LabelMatcher_Matches (FromPods (Preempts preemptorCfg)) (pod_Labels preemptor)) k
          (unless (LabelMatcher_Matches (ToPods (Preempts preemptorCfg)) (pod_Labels victim)) k
          (CCall (QGet (pe_queueMgr pe) (Some victim)) (λ victimQ,
           match victimQ with
           | None => k false
           | Some _ =>
               CCall (QPreemptionConfig victimQ) (λ toPreemptionCfg,
               if negb (CanBePreempted (PreemptedBy toPreemptionCfg)) then k false
               else
                 unless (LabelMatcher_Matches (ToPods (PreemptedBy toPreemptionCfg)) (pod_Labels victim)) k
                 (unless (LabelMatcher_Matches (FromPods (PreemptedBy toPreemptionCfg)) (pod_Labels preemptor)) k (k true)))
           end))))
  | _, _ => k false
  end.

(** *** Potential victims *)
Fixpoint potential_allowed {A} (pe : PreemptionEvaluator) (infos victims : list PodInfo) (k : list PodInfo → client A) : client A :=
  match infos with
  | [] => k victims
  | info :: infos =>
      is_allowed pe (PodInfo_GetPod info) (λ allowed,
      if negb allowed then potential_allowed pe infos victims k else potential_allowed pe infos (victims ++ [info]) k)
  end.

Fixpoint potential_vanilla {A} (c : loc) (prio : Z) (infos victims : list PodInfo) (k : list PodInfo → client A) : client A :=
  match infos with
  | [] => k victims
  | info :: infos =>
      CCall (QGet c (Some (PodInfo_GetPod info))) (λ victimQ,
      match victimQ with
      | Some _ => potential_vanilla c prio infos victims k
      | None =>
          if (prio <=? PodPriority (PodInfo_GetPod info))%Z then potential_vanilla c prio infos victims k
          else potential_vanilla c prio infos (victims ++ [info]) k
      end)
  end.

Definition potential_victims {A} (pod : Pod) (c : loc) (node : NodeInfo) (k : list PodInfo → client A) : client A :=
  new_evaluator c pod (λ pe,
  if IsConfiguredForPreemption pe then potential_allowed pe (NodeInfo_GetPods node) [] k
  else potential_vanilla c (PodPriority pod) (NodeInfo_GetPods node) [] k).

(** *** The simulation's own values *)
Record local := mkLocal { lo_state : CycleState; lo_node : NodeInfo; lo_victims : list Pod }.

(** The status of an extension point as an error. *)
Definition status_error (status : Status) : option go_error :=
  if negb (Status_IsSuccess status) then Some (Status_AsError status) else None.

Definition remove_pod {A} (pod : Pod) (pi : PodInfo) (l : local) (k : option go_error → local → client A) : client A :=
  match NodeInfo_RemovePod (lo_node l) (PodInfo_GetPod pi) with
  | inr err => k (Some err) l
  | inl node =>
      run_program false (lo_state l) pod pi node (λ status s, k (status_error status) (mkLocal s node (lo_victims l)))
  end.

Definition add_pod {A} (pod : Pod) (pi : PodInfo) (l : local) (k : option go_error → local → client A) : client A :=
  let node := NodeInfo_AddPodInfo (lo_node l) pi in
  run_program true (lo_state l) pod pi node (λ status s, k (status_error status) (mkLocal s node (lo_victims l))).

Fixpoint remove_pods {A} (pod : Pod) (pis : list PodInfo) (l : local) (k : option go_error → local → client A) : client A :=
  match pis with
  | [] => k None l
  | pi :: pis =>
      remove_pod pod pi l (λ err l, match err with Some err => k (Some err) l | None => remove_pods pod pis l k end)
  end.

Definition over_max {A} (podQ : option loc) (requestedRes : Resources) (k : bool → client A) : client A :=
  match podQ with
  | None => k false
  | Some _ => CCall (QQuota podQ) (λ quota, CCall (QWouldPutOverMax quota requestedRes) k)
  end.

Definition condemn_pod {A} (pod : Pod) (pi : PodInfo) (l : local) (k : bool * option go_error → local → client A) : client A :=
  remove_pod pod pi l (λ err l,
  match err with
  | Some err => k (false, Some err) l
  | None => k (false, None) (mkLocal (lo_state l) (lo_node l) (lo_victims l ++ [PodInfo_GetPod pi]))
  end).

(** The filters look at the cycle state and the node, at no queue: what the framework
    adds for nominated pods it adds to further clones, which it drops. *)
Definition filters (pod : Pod) (l : local) : Status :=
  RunFilterPluginsWithNominatedPods (mkWorld empty_heap (lo_state l)) pod (lo_node l).

Definition reprieve_pod {A} (pod : Pod) (podQ : option loc) (requestedRes : Resources) (pi : PodInfo) (l : local)
    (k : bool * option go_error → local → client A) : client A :=
  add_pod pod pi l (λ err l,
  match err with
  | Some err => k (false, Some err) l
  | None =>
      if negb (Status_IsSuccess (filters pod l)) then condemn_pod pod pi l k
      else over_max podQ requestedRes (λ over, if over : bool then condemn_pod pod pi l k else k (true, None) l)
  end).

Fixpoint reprieve_pods {A} (pod : Pod) (podQ : option loc) (requestedRes : Resources) (pis : list PodInfo) (condemned : Z)
    (l : local) (k : Z * option go_error → local → client A) : client A :=
  match pis with
  | [] => k (condemned, None) l
  | pi :: pis =>
      reprieve_pod pod podQ requestedRes pi l (λ r l,
      match r.2 with
      | Some err => k (condemned, Some err) l
      | None => reprieve_pods pod podQ requestedRes pis (if negb r.1 then condemned + 1 else condemned)%Z l k
      end)
  end.

Definition reprieve_potential {A} (pod : Pod) (podQ : option loc) (requestedRes : Resources) (potentialVictims : list PodInfo)
    (pdbs : list PodDisruptionBudget) (l : local) (k : selection → local → client A) : client A :=
  let potentialVictims :=
    slices_SortFunc (λ a b, CompareImportanceDesc (PodInfo_GetPod a) (PodInfo_GetPod b)) potentialVictims in
  lift (CheckPodRemovalViolations potentialVictims pdbs) (λ pdbViolationEval,
  reprieve_pods pod podQ requestedRes (ViolatingPods pdbViolationEval) 0 l (λ r l,
  match r.2 with
  | Some err => k ([], 0%Z, AsStatus err) l
  | None =>
      reprieve_pods pod podQ requestedRes (NonViolatingPods pdbViolationEval) 0 l (λ r' l,
      match r'.2 with
      | Some err => k ([], 0%Z, AsStatus err) l
      | None => k (slices_SortFunc CompareImportanceDesc (lo_victims l), r.1, NewStatus Success []) l
      end)
  end)).

(** Once the potential victims are off the node. *)
Definition select_removed {A} (pod : Pod) (pdbs : list PodDisruptionBudget) (c : loc) (potentialVictims : list PodInfo)
    (err : option go_error) (l : local) (k : selection + option loc → local → client A) : client A :=
  match err with
  | Some err => k (inl ([], 0%Z, AsStatus err)) l
  | None =>
      let status := filters pod l in
      if negb (Status_IsSuccess status) then k (inl ([], 0%Z, status)) l
      else
        CCall (QGet c (Some pod)) (λ podQ,
        over_max podQ (FromPodReq (Some pod)) (λ over,
        if over : bool then k (inr podQ) l
        else reprieve_potential pod podQ (FromPodReq (Some pod)) potentialVictims pdbs l (λ r, k (inl r))))
  end.

(** [SelectVictimsOnNode], up to its decision: what it returns, or that the
    preemptor's queue would exceed its maximum, which takes a message with a
    clone of the quota. *)
Definition select_decide {A} (pod : Pod) (pdbs : list PodDisruptionBudget) (l : local)
    (k : selection + option loc → local → client A) : client A :=
  match ReadQueueSnapshot fmt_state (lo_state l) with
  | inr err => k (inl ([], 0%Z, NewStatus Unschedulable ["Failed to read queueSnapshot from cycleState"])) l
  | inl queueSnapshot =>
      potential_victims pod (QueueMgr queueSnapshot) (lo_node l) (λ potentialVictims,
      if (length potentialVictims =? 0)%nat then
        k (inl ([], 0%Z, NewStatus UnschedulableAndUnresolvable
          ["No victims found on node " +:+ node_Name (NodeInfo_Node (lo_node l)) +:+ " for preemptor pod " +:+ pod_Name pod])) l
      else
        remove_pods pod potentialVictims l (λ err l,
        select_removed pod pdbs (QueueMgr queueSnapshot) potentialVictims err l k))
  end.

Definition select_finish {A} (k : selection → client A) (d : selection + option loc) : client A :=
  match d with
  | inl r => k r
  | inr podQ =>
      CCall (QQuota podQ) (λ quota,
      CCall (QString quota) (λ quotaString,
      k ([], 0%Z, NewStatus Unschedulable
        ["Not eligible for preemption because queue exceeds after preemption (quota=" +:+ quotaString +:+ ")"])))
  end.

(** A goroutine's dry run: the cycle state is cloned, and with it the snapshot;
    [dr_state] is that clone without the snapshot, [dr_node] the copy of the node. *)
Record dry_run := mkDryRun { dr_pod : Pod; dr_pdbs : list PodDisruptionBudget; dr_node : NodeInfo; dr_state : CycleState }.

Definition dry_local (d : dry_run) (c : loc) : local :=
  mkLocal (WriteQueueSnapshot (dr_state d) (mkSnapshot c)) (dr_node d) [].

Definition dry_rest {A} (d : dry_run) (k : selection → client A) (c : loc) : client A :=
  select_decide (dr_pod d) (dr_pdbs d) (dry_local d c) (λ r _, select_finish k r).

Definition dry_program {A} (snap : loc) (d : dry_run) (k : selection → client A) : client A :=
  CCall (QClone snap) (dry_rest d k).
End programs.

(** ** Run alone, the programs are the code *)
Section alone.
Context {T : ApiTypes} {Q : QuantityOps} {P : PodOps} {L : SelectorOps} {F : FrameworkOps}.
Context {I : ImmutMap} {SS : SliceSort}.
Context {O : Type} {C : CycleStateOps (StateData O)}.
Variable fmt_state : StateData O → string.
Context {R : RunOps} {RP : RunPrograms}.
Implicit Types (h : heap) (c : loc).

Lemma lift_alone {A B} (o : outcome B) (k : B → client A) h :
  run_client (lift o k) h = (b ← st_lift o; run_client (k b)) h.
Proof. by destruct o. Qed.

Lemma unless_alone {A} o k (next : client A) h :
  run_client (unless o k next) h = (b ← st_lift o; if negb b then run_client (k false) else run_client next) h.
Proof. destruct o as [[]|]; done. Qed.

(** A step of the program on the left, and of the code on the right. *)
Ltac same_step :=
  lazymatch goal with
  | |- run_client (CCall _ _) _ = _ => rewrite run_call, <- ?st_assoc; apply st_bind_ext; [done|intros ? ?]
  | |- run_client (lift _ _) _ = _ => rewrite lift_alone, <- ?st_assoc; apply st_bind_ext; [done|intros ? ?]
  | |- run_client (unless _ _ _) _ = _ =>
      rewrite unless_alone, <- ?st_assoc; apply st_bind_ext; [done|intros [] ?; cbn [negb]; [|done]]
  | |- run_client (if ?b then _ else _) _ = _ => destruct b; [try done|try done]
  | |- run_client (match ?o with Some _ => _ | None => _ end) _ = _ => destruct o; [try done|try done]
  end.

Lemma new_evaluator_alone {A} c pod (k : _ → client A) h :
  run_client (new_evaluator c pod k) h = (pe ← NewPreemptionEvaluator c (Some pod); run_client (k pe)) h.
Proof. unfold new_evaluator, NewPreemptionEvaluator. by same_step. Qed.

Lemma is_allowed_alone {A} pe victim (k : _ → client A) h :
  run_client (is_allowed pe victim k) h = (b ← IsPreemptionAllowed pe (Some victim); run_client (k b)) h.
Proof.
  unfold is_allowed, IsPreemptionAllowed. destruct (pe_preemptor pe) as [p|], (pe_preemptorQ pe) as [q|]; [|done..].
  by repeat same_step.
Qed.

Lemma potential_alone {A} pe infos : ∀ victims (k : _ → client A) h,
  run_client (potential_allowed pe infos victims k) h = (l ← potential_loop pe infos victims; run_client (k l)) h.
Proof.
  induction infos as [|info infos IH]; intros victims k h; [done|]. cbn [potential_allowed potential_loop].
  rewrite is_allowed_alone, <- st_assoc. apply st_bind_ext; [done|]. intros [] h'; apply IH.
Qed.

Lemma potential_vanilla_alone {A} c prio infos : ∀ victims (k : _ → client A) h,
  run_client (potential_vanilla c prio infos victims k) h = (l ← potential_loop_vanilla c prio infos victims; run_client (k l)) h.
Proof.
  induction infos as [|info infos IH]; intros victims k h; [done|]. cbn [potential_vanilla potential_loop_vanilla].
  same_step. case_match; [apply IH|]. case_match; apply IH.
Qed.

Lemma potential_victims_alone {A} pod c node (k : _ → client A) h :
  run_client (potential_victims pod c node k) h = (l ← findPotentialVictims pod (mkSnapshot c) node; run_client (k l)) h.
Proof.
  unfold potential_victims, findPotentialVictims. cbn [QueueMgr]. rewrite new_evaluator_alone, <- st_assoc.
  apply st_bind_ext; [done|]. intros pe h'. destruct (IsConfiguredForPreemption pe); [apply potential_alone|apply potential_vanilla_alone].
Qed.

(** The plugin's own extension points run so. *)
Lemma extension_alone {A} add pod pi n (k : Status → CycleState → client A) h s :
  run_client (extension fmt_state add s pi k) h
  = match (if add then Plugin_AddPod fmt_state pod pi n else Plugin_RemovePod fmt_state pod pi n) (mkWorld h s) with
    | Ret (status, w) => run_client (k status (w_state w)) (w_heap w)
    | Panic => Panic
    end.
Proof.
  unfold extension, Plugin_AddPod, Plugin_RemovePod. destruct add; rewrite st_bind_eq; cbn [st_get w_state];
    (destruct (ReadQueueSnapshot fmt_state s) as [sn|err]; [|done]);
    rewrite run_call, !st_bind_eq; unfold on_heap; cbn [seq_call w_heap w_state].
  - by destruct (Manager_AddPodIfNotPresent _ _ h) as [[e h1]|].
  - by destruct (Manager_DeletePodIfPresent _ _ h) as [[e h1]|].
Qed.

(** *** With the simulation's values *)
Definition sim_of h (l : local) : sim := mkSim (mkWorld h (lo_state l)) (lo_node l) (lo_victims l).
Definition local_of (s : sim) : local := mkLocal (w_state (sim_world s)) (sim_node s) (sim_victims s).
Definition heap_of (s : sim) : heap := w_heap (sim_world s).

Lemma sim_of_of s : sim_of (heap_of s) (local_of s) = s.
Proof. by destruct s as [[] ? ?]. Qed.

(** What follows a step of the simulation. *)
Definition go_on {A B} (r : outcome (B * sim)) (k : B → local → client A) : outcome (A * heap) :=
  match r with Ret (b, s) => run_client (k b (local_of s)) (heap_of s) | Panic => Panic end.

Lemma go_on_bind {A B B'} (m : st sim B) (f : B → st sim B') s (k : B' → local → client A) (k' : B → local → client A) :
  (∀ b s', run_client (k' b (local_of s')) (heap_of s') = go_on (f b s') k) → go_on (m s) k' = go_on ((x ← m; f x) s) k.
Proof. intros Hk. rewrite st_bind_eq. destruct (m s) as [[b s']|]; [|done]. apply Hk. Qed.

(** The framework's runs of extension points, as code and as programs; its
    filters do not look at the queues. *)
Class RunAlone : Prop := {
  run_alone {A} (add : bool) s pod pi n (k : Status → CycleState → client A) h :
    run_client (run_program add s pod pi n k) h
    = match (if add then RunPreFilterExtensionAddPod pod pi n else RunPreFilterExtensionRemovePod pod pi n) (mkWorld h s) with
      | Ret (status, w) => run_client (k status (w_state w)) (w_heap w)
      | Panic => Panic
      end;
  filters_heap h s pod n :
    RunFilterPluginsWithNominatedPods (mkWorld h s) pod n = RunFilterPluginsWithNominatedPods (mkWorld empty_heap s) pod n;
}.
Context {RA : RunAlone}.

Lemma filters_of s pod : RunFilterPluginsWithNominatedPods (sim_world s) pod (sim_node s) = filters pod (local_of s).
Proof. destruct s as [[h s] n v]. apply filters_heap. Qed.

Lemma remove_pod_alone {A} pod pi s (k : _ → _ → client A) :
  run_client (remove_pod pod pi (local_of s) k) (heap_of s) = go_on (removePod pod pi s) k.
Proof.
  destruct s as [[h s] n v]. unfold remove_pod, removePod. cbn [local_of heap_of lo_node lo_state lo_victims sim_world sim_node sim_victims w_heap w_state].
  rewrite st_bind_eq. cbn [st_get sim_node]. destruct (NodeInfo_RemovePod n (PodInfo_GetPod pi)) as [node|err]; [|done].
  rewrite run_alone, !st_bind_eq. cbn [st_put sim_world sim_victims]. rewrite st_bind_eq. unfold in_world. cbn [sim_world sim_node sim_victims].
  destruct (RunPreFilterExtensionRemovePod pod pi node (mkWorld h s)) as [[status w]|]; [|done].
  unfold status_error. by destruct (Status_IsSuccess status).
Qed.

Lemma add_pod_alone {A} pod pi s (k : _ → _ → client A) :
  run_client (add_pod pod pi (local_of s) k) (heap_of s) = go_on (Preemptor.addPod pod pi s) k.
Proof.
  destruct s as [[h s] n v]. unfold add_pod, Preemptor.addPod. cbn [local_of heap_of lo_node lo_state lo_victims sim_world sim_node sim_victims w_heap w_state].
  rewrite st_bind_eq. cbn [st_get sim_node].
  rewrite run_alone, !st_bind_eq. cbn [st_put sim_world sim_victims]. rewrite st_bind_eq. unfold in_world. cbn [sim_world sim_node sim_victims].
  destruct (RunPreFilterExtensionAddPod pod pi _ (mkWorld h s)) as [[status w]|]; [|done].
  unfold status_error. by destruct (Status_IsSuccess status).
Qed.

Lemma remove_pods_alone {A} pod pis : ∀ s (k : _ → _ → client A),
  run_client (remove_pods pod pis (local_of s) k) (heap_of s) = go_on (remove_all pod pis s) k.
Proof.
  induction pis as [|pi pis IH]; intros s k; [done|]. cbn [remove_pods remove_all]. rewrite remove_pod_alone.
  apply go_on_bind. intros [err|] s'; [done|apply IH].
Qed.

Lemma in_heap_alone {A B} (m : st heap B) s (k : B → local → client A) :
  (b ← m; run_client (k b (local_of s))) (heap_of s) = go_on (in_world (on_heap m) s) k.
Proof. destruct s as [[h s] n v]. unfold in_world, on_heap, mbind, st_bind. cbn. by destruct (m h) as [[b h']|]. Qed.

Lemma over_alone {A} podQ req s (k : bool → local → client A) :
  run_client (over_max podQ req (λ b, k b (local_of s))) (heap_of s) = go_on (over_quota podQ req s) k.
Proof.
  unfold over_max, over_quota. destruct podQ as [ql|]; [|done]. rewrite <- in_heap_alone. by repeat same_step.
Qed.

Lemma condemn_alone {A} pod pi s (k : _ → _ → client A) :
  run_client (condemn_pod pod pi (local_of s) k) (heap_of s) = go_on (condemn pod pi s) k.
Proof. unfold condemn_pod, condemn. rewrite remove_pod_alone. apply go_on_bind. by intros [err|] s'. Qed.

Lemma reprieve_pod_alone {A} pod podQ req pi s (k : _ → _ → client A) :
  run_client (reprieve_pod pod podQ req pi (local_of s) k) (heap_of s) = go_on (maybeReprievePod pod podQ req pi s) k.
Proof.
  unfold reprieve_pod, maybeReprievePod. rewrite add_pod_alone. apply go_on_bind. intros [err|] s'; [done|].
  rewrite st_bind_eq. cbn [st_get]. rewrite filters_of. cbv zeta. destruct (negb _); [apply condemn_alone|].
  rewrite (over_alone podQ req s' (λ over l, if over then condemn_pod pod pi l k else k (true, None) l)).
  apply go_on_bind. intros [] s2; [apply condemn_alone|done].
Qed.

Lemma reprieve_pods_alone {A} pod podQ req pis : ∀ condemned s (k : _ → _ → client A),
  run_client (reprieve_pods pod podQ req pis condemned (local_of s) k) (heap_of s)
  = go_on (reprieve_all pod podQ req pis condemned s) k.
Proof.
  induction pis as [|pi pis IH]; intros condemned s k; [done|]. cbn [reprieve_pods reprieve_all].
  rewrite reprieve_pod_alone. apply go_on_bind. intros [reprieved [err|]] s'; [done|apply IH].
Qed.

Lemma reprieve_potential_alone {A} pod podQ req vs pdbs s (k : _ → _ → client A) :
  run_client (reprieve_potential pod podQ req vs pdbs (local_of s) k) (heap_of s)
  = go_on (reprieve_victims pod podQ req vs pdbs s) k.
Proof.
  unfold reprieve_potential, reprieve_victims. cbv zeta. rewrite (st_bind_eq (st_lift _)). unfold st_lift.
  destruct (CheckPodRemovalViolations _ pdbs) as [ev|]; [|done]. cbn [lift].
  rewrite reprieve_pods_alone. apply go_on_bind. intros [n [err|]] s'; [done|]. cbn [snd fst].
  rewrite reprieve_pods_alone. apply go_on_bind. by intros [n' [err|]] s2.
Qed.
(** The whole selection. *)
Lemma select_alone {A} pod pdbs s (k : selection → client A) :
  run_client (select_decide fmt_state pod pdbs (local_of s) (λ r _, select_finish k r)) (heap_of s)
  = go_on (SelectVictimsOnNode fmt_state pod pdbs s) (λ r _, k r).
Proof.
  unfold select_decide, SelectVictimsOnNode. rewrite st_bind_eq. cbn [st_get].
  change (w_state (sim_world s)) with (lo_state (local_of s)).
  destruct (ReadQueueSnapshot fmt_state (lo_state (local_of s))) as [[c]|err]; [|done]. cbn [QueueMgr].
  rewrite potential_victims_alone.
  rewrite (in_heap_alone _ s (λ pvs l, if (length pvs =? 0)%nat
    then select_finish k (inl ([], 0%Z, NewStatus UnschedulableAndUnresolvable
      ["No victims found on node " +:+ node_Name (NodeInfo_Node (lo_node (local_of s))) +:+ " for preemptor pod " +:+ pod_Name pod]))
    else remove_pods pod pvs l (λ err l, select_removed pod pdbs c pvs err l (λ r _, select_finish k r)))).
  apply go_on_bind. intros pvs s1. case_match; [done|].
  rewrite remove_pods_alone. apply go_on_bind. intros [err|] s2; [done|]. cbn [select_removed]. rewrite st_bind_eq. cbn [st_get].
  rewrite filters_of. cbv zeta. case_match; [done|]. rewrite run_call.
  rewrite (in_heap_alone _ s2 (λ podQ l, over_max podQ (FromPodReq (Some pod)) (λ over,
    if over : bool then select_finish k (inr podQ)
    else reprieve_potential pod podQ (FromPodReq (Some pod)) pvs pdbs l (λ r _, select_finish k (inl r))))).
  apply go_on_bind. intros podQ s3.
  rewrite (over_alone podQ _ s3 (λ over l, if over : bool then select_finish k (inr podQ)
    else reprieve_potential pod podQ (FromPodReq (Some pod)) pvs pdbs l (λ r _, select_finish k (inl r)))).
  apply go_on_bind. intros [] s4; [|apply reprieve_potential_alone]. cbn [select_finish].
  transitivity (go_on (in_world (on_heap (quota ← Queue_Quota podQ; Quota_String quota)) s4)
    (λ quotaString _, k ([], 0%Z, NewStatus Unschedulable
      ["Not eligible for preemption because queue exceeds after preemption (quota=" +:+ quotaString +:+ ")"]))).
  - rewrite <- in_heap_alone. by repeat same_step.
  - apply go_on_bind. by intros str s5.
Qed.
(** A dry run: the framework's clone of the cycle state, then the selection. *)
Definition dry_code (s : QueueSnapshotState) (d : dry_run) : st heap selection := λ h,
  match QueueSnapshotState_Clone s h with
  | Ret (s, h) =>
      match SelectVictimsOnNode fmt_state (dr_pod d) (dr_pdbs d)
        (mkSim (mkWorld h (WriteQueueSnapshot (dr_state d) s)) (dr_node d) []) with
      | Ret (r, s) => Ret (r, heap_of s)
      | Panic => Panic
      end
  | Panic => Panic
  end.

Lemma dry_rest_alone {A} d (k : selection → client A) c h :
  run_client (dry_rest fmt_state d k c) h
  = go_on (SelectVictimsOnNode fmt_state (dr_pod d) (dr_pdbs d)
      (mkSim (mkWorld h (WriteQueueSnapshot (dr_state d) (mkSnapshot c))) (dr_node d) [])) (λ r _, k r).
Proof. rewrite <- select_alone. done. Qed.

Lemma dry_alone {A} snap d (k : selection → client A) h :
  run_client (dry_program fmt_state snap d k) h = (r ← dry_code (mkSnapshot snap) d; run_client (k r)) h.
Proof.
  unfold dry_program, dry_code, QueueSnapshotState_Clone. cbn [QueueMgr]. rewrite run_call, !st_bind_eq. cbn [seq_call].
  destruct (Manager_Clone snap h) as [[c h1]|]; [|done]. cbn [mret st_ret]. rewrite dry_rest_alone.
  by destruct (SelectVictimsOnNode _ _ _ _) as [[r s]|].
Qed.
End alone.

(** ** The programs work on the snapshot that they are given *)

(** A judgement of two programs that calls with arguments in the region keep, as long
    as they make nothing and what follows satisfies it for results in the region. *)
Definition calls_both {T : ApiTypes} {A B} (Z : region) (J : client A → client B → Prop) : Prop :=
  ∀ X (q : qcall X) k k', args_in Z q → ¬ makes q → (∀ x, result_in Z Z q x → J (k x) (k' x)) → J (CCall q k) (CCall q k').

Section owned.
Context {T : ApiTypes} {Q : QuantityOps} {P : PodOps} {L : SelectorOps} {F : FrameworkOps}.
Context {I : ImmutMap} {SS : SliceSort}.
Context {O : Type} {C : CycleStateOps (StateData O)}.
Context {fmt_state : StateData O → string}.
Context {R : RunOps} {RP : RunPrograms}.
Implicit Types (Z : region) (c : loc).

(** The plugin's entry of the cycle state is the snapshot [c]. *)
Definition snapshot_is (s : CycleState) c : Prop := ReadQueueSnapshot fmt_state s = inl (mkSnapshot c).

(** The extension points that the framework runs touch no queue objects but the
    snapshot's, make none, and leave the plugin's entry alone. *)
Class RunOwned : Prop := {
  run_both {A B} Z (J : client A → client B → Prop) add s c pod pi n k k' :
    calls_both Z J → snapshot_is s c → Z (KMgr c) → (∀ status s', snapshot_is s' c → J (k status s') (k' status s')) →
    J (run_program add s pod pi n k) (run_program add s pod pi n k');
}.
(** The plugin's own extension points touch the snapshot alone. *)
Lemma extension_both {A B} Z (J : client A → client B → Prop) add s c pi k k' :
  calls_both Z J → snapshot_is s c → Z (KMgr c) → (∀ status s', snapshot_is s' c → J (k status s') (k' status s')) →
  J (extension fmt_state add s pi k) (extension fmt_state add s pi k').
Proof.
  intros HJ Hs Hc Hk. unfold extension. rewrite Hs. destruct add; (apply HJ; [done|by intros []|]); intros e _; by apply Hk.
Qed.

Context {RW : RunOwned}.

Section both.
Context {A B : Type} (Z : region) (J : client A → client B → Prop) (c : loc).
Hypothesis HJ : calls_both Z J.
Hypothesis Hc : Z (KMgr c).

Ltac both := apply HJ; [done|by intros []|].

Lemma lift_both {X} (o : outcome X) k k' : (∀ x, J (k x) (k' x)) → J (lift o k) (lift o k').
Proof. intros Hk. destruct o; [apply Hk|]. both. intros x _. apply Hk. Qed.

Lemma unless_both o k k' next next' : (∀ x, J (k x) (k' x)) → J next next' → J (unless o k next) (unless o k' next').
Proof. intros Hk Hn. apply lift_both. intros []; [exact Hn|apply Hk]. Qed.

(** The evaluator knows the snapshot and its preemptor's queue in it. *)
Definition evaluator_in (pe : PreemptionEvaluator) : Prop := Z (KMgr (pe_queueMgr pe)) ∧ ptr_in Z KQueue (pe_preemptorQ pe).

Lemma is_allowed_both pe victim k k' :
  evaluator_in pe → (∀ b, J (k b) (k' b)) → J (is_allowed pe victim k) (is_allowed pe victim k').
Proof.
  intros [Hm Hq] Hk. unfold is_allowed. destruct (pe_preemptor pe) as [p|], (pe_preemptorQ pe) as [q|]; [|done..].
  case_match; [done|]. both. intros cfg _. case_match; [done|]. apply unless_both; [done|]. apply unless_both; [done|].
  both. intros victimQ HvQ. destruct victimQ; [|done]. both. intros cfg' _. case_match; [done|].
  apply unless_both; [done|]. by apply unless_both.
Qed.

Lemma potential_victims_both pod node k k' :
  (∀ l, J (k l) (k' l)) → J (potential_victims pod c node k) (potential_victims pod c node k').
Proof.
  intros Hk. unfold potential_victims, new_evaluator. both. intros q Hq.
  set (pe := mkEvaluator _ _ _ _). assert (evaluator_in pe) as Hpe by done. clearbody pe. generalize (@nil PodInfo) as vs.
  destruct (IsConfiguredForPreemption pe); induction (NodeInfo_GetPods node) as [|i infos IH]; intros vs;
    cbn [potential_allowed potential_vanilla]; [done| |done|].
  - apply is_allowed_both; [done|]. intros []; apply IH.
  - both. intros vQ _. destruct vQ; [apply IH|]. case_match; apply IH.
Qed.

(** The simulation's cycle state still has the snapshot. *)
Definition local_in (l : local) : Prop := snapshot_is (lo_state l) c.

Abbreviation follows k k' := (∀ x l, local_in l → J (k x l) (k' x l)).

Lemma remove_pod_both pod pi l k k' : local_in l → follows k k' → J (remove_pod pod pi l k) (remove_pod pod pi l k').
Proof.
  intros Hl Hk. unfold remove_pod. case_match; [|by apply Hk]. apply (run_both Z J _ _ c); [done|exact Hl|done|]. intros st s' Hs'. by apply Hk.
Qed.

Lemma add_pod_both pod pi l k k' : local_in l → follows k k' → J (add_pod pod pi l k) (add_pod pod pi l k').
Proof. intros Hl Hk. unfold add_pod. cbv zeta. apply (run_both Z J _ _ c); [done|exact Hl|done|]. intros st s' Hs'. by apply Hk. Qed.

Lemma remove_pods_both pod pis : ∀ l k k', local_in l → follows k k' → J (remove_pods pod pis l k) (remove_pods pod pis l k').
Proof.
  induction pis as [|pi pis IH]; intros l k k' Hl Hk; cbn [remove_pods]; [by apply Hk|].
  apply remove_pod_both; [done|]. intros [err|] l' Hl'; [by apply Hk|by apply IH].
Qed.

Lemma over_both podQ req k k' : ptr_in Z KQueue podQ → (∀ b, J (k b) (k' b)) → J (over_max podQ req k) (over_max podQ req k').
Proof. intros Hq Hk. unfold over_max. destruct podQ; [|done]. both. intros t Ht. both. intros b _. apply Hk. Qed.

Lemma condemn_both pod pi l k k' : local_in l → follows k k' → J (condemn_pod pod pi l k) (condemn_pod pod pi l k').
Proof. intros Hl Hk. apply remove_pod_both; [done|]. intros [err|] l' Hl'; by apply Hk. Qed.

Lemma reprieve_pods_both pod podQ req pis : ptr_in Z KQueue podQ → ∀ condemned l k k', local_in l → follows k k' →
  J (reprieve_pods pod podQ req pis condemned l k) (reprieve_pods pod podQ req pis condemned l k').
Proof.
  intros Hq. induction pis as [|pi pis IH]; intros condemned l k k' Hl Hk; cbn [reprieve_pods]; [by apply Hk|].
  assert (follows (λ (r : bool * option go_error) l, match r.2 with
      | Some err => k (condemned, Some err) l
      | None => reprieve_pods pod podQ req pis (if negb r.1 then condemned + 1 else condemned)%Z l k end)
    (λ r l, match r.2 with
      | Some err => k' (condemned, Some err) l
      | None => reprieve_pods pod podQ req pis (if negb r.1 then condemned + 1 else condemned)%Z l k' end)) as Hnext.
  { intros [b [err|]] l' Hl'; [by apply Hk|by apply IH]. }
  unfold reprieve_pod. apply add_pod_both; [done|]. intros [err|] l' Hl'; [by apply Hnext|].
  case_match; [by apply condemn_both|]. apply over_both; [done|]. intros []; [by apply condemn_both|by apply Hnext].
Qed.

Lemma reprieve_potential_both pod podQ req vs pdbs l k k' :
  ptr_in Z KQueue podQ → local_in l → follows k k' →
  J (reprieve_potential pod podQ req vs pdbs l k) (reprieve_potential pod podQ req vs pdbs l k').
Proof.
  intros Hq Hl Hk. unfold reprieve_potential. cbv zeta. apply lift_both. intros ev.
  apply reprieve_pods_both; [done|done|]. intros [n [err|]] l1 Hl1; [by apply Hk|].
  apply reprieve_pods_both; [done|done|]. intros [n' [err|]] l2 Hl2; by apply Hk.
Qed.

(** A decision that needs a message has the preemptor's queue. *)
Definition decision_in (d : selection + option loc) : Prop := match d with inl _ => True | inr podQ => ptr_in Z KQueue podQ end.

Lemma select_both pod pdbs l k k' :
  local_in l → (∀ d l, decision_in d → local_in l → J (k d l) (k' d l)) →
  J (select_decide fmt_state pod pdbs l k) (select_decide fmt_state pod pdbs l k').
Proof.
  intros Hl Hk. unfold select_decide. rewrite Hl. cbn [QueueMgr].
  apply potential_victims_both. intros vs. case_match; [by apply Hk|].
  apply remove_pods_both; [done|]. intros [err|] l1 Hl1; cbn [select_removed]; [by apply Hk|]. cbv zeta. case_match; [by apply Hk|].
  both. intros podQ Hq. apply over_both; [done|]. intros []; [by apply Hk|].
  apply reprieve_potential_both; [done|done|]. intros r l2 Hl2. by apply Hk.
Qed.
End both.

(** *** The judgements of files [Isolation] and [Observers] *)
Context {CL : CycleStateLaws (StateData O)}.

Lemma dry_local_in d c : local_in c (dry_local d c).
Proof. apply ReadQueueSnapshot_write. Qed.

Lemma calls_given {A} G : calls_both G (λ p (_ : client unit), @given T A G p).
Proof. by intros X q k k' Ha _ Hk. Qed.
Lemma calls_observes {A} Z : calls_both Z (λ p (_ : client unit), @observes T A Z p).
Proof. intros X q k k' Ha _ Hk. by left. Qed.
Lemma calls_prefix {A B} Z (f : B → client A) : calls_both Z (prefix Z f).
Proof. intros X q k k' Ha Hm Hk. by constructor. Qed.

(** A judgement of a single program that keeps calls keeps the whole simulation. *)
Lemma dry_rest_in {A} Z (J : client A → Prop) d k c :
  (∀ X (q : qcall X) k, args_in Z q → (∀ x, result_in Z Z q x → J (k x)) → J (CCall q k)) →
  Z (KMgr c) → (∀ r, J (k r)) → J (dry_rest fmt_state d k c).
Proof.
  intros HJ Hc Hk. unfold dry_rest.
  apply (select_both Z (λ p (_ : client unit), J p) c) with (k' := λ _ _, CReturn tt); [|done|apply dry_local_in|].
  { intros X q k1 k2 Ha _ Hk1. by apply HJ. }
  intros [r|podQ] l Hd _; cbn [select_finish]; [apply Hk|]. apply HJ; [exact Hd|]. intros t Ht.
  apply HJ; [exact Ht|]. intros str _. apply Hk.
Qed.

(** Its own calls, as far as the decision, leave the rest to the decision's continuation. *)
Lemma dry_rest_prefix {A} Z d (k : _ → client A) c :
  Z (KMgr c) → prefix Z (select_finish k) (dry_rest fmt_state d k c)
    (select_decide fmt_state (dr_pod d) (dr_pdbs d) (dry_local d c) (λ r _, CReturn r)).
Proof.
  intros Hc. apply (select_both Z _ c (calls_prefix Z _)); [done|apply dry_local_in|]. intros r l _ _. apply prefix_done.
Qed.
End owned.

(** ** The programs call the package properly *)
Section known.
Context {T : ApiTypes} {Q : QuantityOps} {P : PodOps} {L : SelectorOps} {QL : QuantityLaws} {F : FrameworkOps}.
Context {I : ImmutMap} {SS : SliceSort} {LL : SelectorLaws} {SL : SliceSortLaws}.
Context {O : Type} {C : CycleStateOps (StateData O)} {CL : CycleStateLaws (StateData O)}.
Context {fmt_state : StateData O → string}.
Context {R : RunOps} {RP : RunPrograms}.
Variable req : requests.
Implicit Types (h : heap) (c : loc).

Abbreviation ok_from := (ok_from req).
Abbreviation snapshot_is := (snapshot_is (fmt_state := fmt_state)).
Abbreviation local_in := (local_in (fmt_state := fmt_state)).

(** So do the runs of extension points, with the snapshot and with pods that
    keep their requests if these are fixed. *)
Class RunKnown : Prop := {
  run_known {A} add s c pod pi n (k : Status → CycleState → client A) h :
    snapshot_is s c → mgr_known c h → pod_fits req (Some (PodInfo_GetPod pi)) →
    (∀ status s', snapshot_is s' c → ok_from (k status s') h) → ok_from (run_program add s pod pi n k) h;
}.
(** The plugin's own extension points do. *)
Lemma extension_known {A} add s c pi (k : Status → CycleState → client A) h :
  snapshot_is s c → mgr_known c h → pod_fits req (Some (PodInfo_GetPod pi)) →
  (∀ status s', snapshot_is s' c → ok_from (k status s') h) → ok_from (extension fmt_state add s pi k) h.
Proof.
  intros Hs Hm Hp Hk. unfold extension. rewrite Hs.
  destruct add; (apply ok_call; [intros h' Hg; split; [by eapply mgr_later|done]|]); intros e h' _ Hg _;
    apply (ok_from_later _ _ h h' Hg), Hk, Hs.
Qed.

Context {RK : RunKnown}.

Definition pods_ok (pis : list PodInfo) : Prop := ∀ pi, pi ∈ pis → pod_fits req (Some (PodInfo_GetPod pi)).

Section steps.
Context {A : Type} (c : loc).

(** The guards have made sure that the matcher is there. *)
Lemma unless_known m ls (k : _ → client A) next h :
  is_Some m → (∀ b, ok_from (k b) h) → ok_from next h → ok_from (unless (LabelMatcher_Matches m ls) k next) h.
Proof. intros [s ->] Hk Hn. cbn. destruct (Selector_Matches s ls); [exact Hn|apply Hk]. Qed.

Lemma rule_matchers rule : CanPreempt rule = true ∨ CanBePreempted rule = true → is_Some (FromPods rule) ∧ is_Some (ToPods rule).
Proof. intros [H|H]; apply andb_true_iff in H as [H1 H2]; by apply bool_decide_eq_true in H1, H2. Qed.

Lemma is_allowed_known pe victim (k : _ → client A) h :
  mgr_known (pe_queueMgr pe) h → queue_known (pe_preemptorQ pe) h → (∀ b, ok_from (k b) h) →
  ok_from (is_allowed pe victim k) h.
Proof.
  intros Hm Hq Hk. unfold is_allowed. destruct (pe_preemptor pe) as [p|], (pe_preemptorQ pe) as [q|]; [|done..].
  case_match; [done|]. apply ok_call; [later|]. intros cfg h1 _ Hg1 _.
  destruct (CanPreempt (Preempts cfg)) eqn:Hcan; cbn [negb]; [|later].
  destruct (rule_matchers _ (or_introl Hcan)). apply unless_known; [done|later|]. apply unless_known; [done|later|].
  apply ok_call; [later|]. intros victimQ h2 _ Hg2 HvQ. assert (grows h h2) as Hg by by etrans.
  destruct victimQ; [|later]. apply ok_call; [later|]. intros cfg' h3 _ Hg3 _. assert (grows h h3) as Hg' by by etrans.
  destruct (CanBePreempted (PreemptedBy cfg')) eqn:Hcan'; cbn [negb]; [|later].
  destruct (rule_matchers _ (or_intror Hcan')). apply unless_known; [done|later|]. apply unless_known; [done|later|later].
Qed.

(** The potential victims are pods of the node. *)
Lemma potential_victims_known pod node (k : _ → client A) h :
  mgr_known c h → (∀ l, l `sublist_of` NodeInfo_GetPods node → ok_from (k l) h) → ok_from (potential_victims pod c node k) h.
Proof.
  intros Hm Hk. unfold potential_victims, new_evaluator. apply ok_call; [later|]. intros q h1 _ Hg Hq.
  set (pe := mkEvaluator _ _ _ _). apply (mgr_later c h h1 Hg) in Hm.
  assert (mgr_known (pe_queueMgr pe) h1 ∧ queue_known (pe_preemptorQ pe) h1) as [Hpm Hpq] by done. clearbody pe.
  assert (∀ l, l `sublist_of` [] ++ NodeInfo_GetPods node → ok_from (k l) h1) as Hk1 by later. clear Hk Hg Hq.
  assert (∀ (i : PodInfo) vs infos, (∀ l, l `sublist_of` vs ++ i :: infos → ok_from (k l) h1) →
    (∀ l, l `sublist_of` vs ++ infos → ok_from (k l) h1) ∧ ∀ l, l `sublist_of` (vs ++ [i]) ++ infos → ok_from (k l) h1) as Hsub.
  { intros i vs infos Hl. split; intros l Hs; apply Hl; (etrans; [exact Hs|]); [|by rewrite <- app_assoc].
    apply sublist_app; [done|by apply sublist_cons]. }
  revert Hk1. generalize (@nil PodInfo) as vs.
  destruct (IsConfiguredForPreemption pe); induction (NodeInfo_GetPods node) as [|i infos IH]; intros vs Hk;
    cbn [potential_allowed potential_vanilla]; [apply Hk; by rewrite app_nil_r| |apply Hk; by rewrite app_nil_r|];
    destruct (Hsub i vs infos Hk) as [Hno Hyes].
  - apply is_allowed_known; [done|done|]. intros []; by apply IH.
  - apply ok_call; [later|]. intros vQ h2 _ Hg _. apply (ok_from_later _ _ h1 h2 Hg).
    destruct vQ; [by apply IH|]. case_match; by apply IH.
Qed.

Lemma remove_pod_known pod pi l (k : _ → _ → client A) h :
  local_in c l → mgr_known c h → pod_fits req (Some (PodInfo_GetPod pi)) →
  (∀ err l, local_in c l → ok_from (k err l) h) → ok_from (remove_pod pod pi l k) h.
Proof.
  intros Hl Hm Hp Hk. unfold remove_pod. case_match; [|by apply Hk].
  apply (run_known _ _ c); [done|done|done|]. intros st s' Hs'. by apply Hk.
Qed.

Lemma remove_pods_known pod pis : pods_ok pis → ∀ l (k : _ → _ → client A) h,
  local_in c l → mgr_known c h → (∀ err l, local_in c l → ok_from (k err l) h) → ok_from (remove_pods pod pis l k) h.
Proof.
  intros Hp. induction pis as [|pi pis IH]; intros l k h Hl Hm Hk; cbn [remove_pods]; [by apply Hk|].
  apply remove_pod_known; [done|done|apply Hp; by left|]. intros [err|] l1 Hl1; [by apply Hk|].
  apply IH; [|done..]. intros pi' Hin. apply Hp. by right.
Qed.

Lemma over_known podQ r (k : bool → client A) h :
  queue_known podQ h → (∀ b, ok_from (k b) h) → ok_from (over_max podQ r k) h.
Proof.
  intros Hq Hk. unfold over_max. destruct podQ; [|done]. apply ok_call; [later|]. intros t h1 _ Hg1 Ht.
  apply ok_call; [later|]. intros b h2 _ Hg2 _. assert (grows h h2) by by etrans. later.
Qed.

Lemma condemn_known pod pi l (k : _ → _ → client A) h :
  local_in c l → mgr_known c h → pod_fits req (Some (PodInfo_GetPod pi)) →
  (∀ r l, local_in c l → ok_from (k r l) h) → ok_from (condemn_pod pod pi l k) h.
Proof. intros Hl Hm Hp Hk. apply remove_pod_known; [done..|]. intros [err|] l1 Hl1; by apply Hk. Qed.

Lemma reprieve_pods_known pod podQ r pis : pods_ok pis → ∀ condemned l (k : _ → _ → client A) h,
  local_in c l → mgr_known c h → queue_known podQ h → (∀ x l, local_in c l → ok_from (k x l) h) →
  ok_from (reprieve_pods pod podQ r pis condemned l k) h.
Proof.
  intros Hp. induction pis as [|pi pis IH]; intros condemned l k h Hl Hm Hq Hk; cbn [reprieve_pods]; [by apply Hk|].
  assert (pods_ok pis) as Hpis by (intros pi' Hin; apply Hp; by right). specialize (IH Hpis).
  assert (pod_fits req (Some (PodInfo_GetPod pi))) as Hpi by (apply Hp; by left).
  unfold reprieve_pod, add_pod. cbv zeta. apply (run_known _ _ c); [done..|]. intros st s' Hs'.
  destruct (status_error st) as [err|]; [by apply Hk|].
  case_match; [apply condemn_known; [done..|]; intros [b [err|]] l1 Hl1; [by apply Hk|by apply IH]|].
  apply over_known; [done|]. intros []; [apply condemn_known; [done..|]; intros [b [err|]] l1 Hl1; [by apply Hk|by apply IH]|].
  by apply IH.
Qed.
End steps.

(** *** The whole selection *)
Lemma budgets_fewer pdbs n n' : n' ≤ n → budgets_in_range pdbs n → budgets_in_range pdbs n'.
Proof. intros Hle Hb. eapply Forall_impl; [exact Hb|]. intros pdb [H1 H2]. unfold int32_range in *. split; lia. Qed.

(** The same for the queue that a decision names. *)
Definition decision_known (d : selection + option loc) h : Prop := match d with inl _ => True | inr podQ => queue_known podQ h end.

Lemma reprieve_potential_known {A} c pod podQ r pvs pdbs l (k : _ → _ → client A) h :
  pods_ok pvs → budgets_in_range pdbs (length pvs) → local_in c l → mgr_known c h → queue_known podQ h →
  (∀ x l, local_in c l → ok_from (k x l) h) → ok_from (reprieve_potential pod podQ r pvs pdbs l k) h.
Proof.
  intros Hp Hb Hl Hm Hq Hk. unfold reprieve_potential. cbv zeta.
  set (pvs' := slices_SortFunc _ pvs). assert (pvs' ≡ₚ pvs) as Hperm by apply sort_perm.
  rewrite CheckPodRemovalViolations_split by by rewrite Hperm.
  pose proof (split_violations_perm pdbs [] pvs') as Hsplit.
  destruct (split_violations pdbs [] pvs') as [vs ns]. cbn [lift ViolatingPods NonViolatingPods fst snd] in *.
  assert (∀ pi, pi ∈ vs ++ ns → pod_fits req (Some (PodInfo_GetPod pi))) as Hall.
  { intros pi. rewrite Hsplit, Hperm. apply Hp. }
  apply (reprieve_pods_known c); [|done..|].
  { intros pi Hin. apply Hall, elem_of_app. by left. }
  intros [n [err|]] l1 Hl1; [by apply Hk|]. apply (reprieve_pods_known c); [|done..|].
  { intros pi Hin. apply Hall, elem_of_app. by right. }
  intros [n' [err|]] l2 Hl2; by apply Hk.
Qed.

Lemma select_known {A} c pod pdbs l (k : _ → _ → client A) h :
  pods_ok (NodeInfo_GetPods (lo_node l)) → budgets_in_range pdbs (length (NodeInfo_GetPods (lo_node l))) →
  local_in c l → mgr_known c h →
  (∀ d l h', grows h h' → decision_known d h' → ok_from (k d l) h') →
  ok_from (select_decide fmt_state pod pdbs l k) h.
Proof.
  intros Hp Hb Hl Hm Hk. unfold select_decide. rewrite Hl. cbn [QueueMgr].
  apply potential_victims_known; [done|]. intros pvs Hsub.
  assert (pods_ok pvs) as Hpvs by (intros pi Hin; apply Hp; by eapply elem_of_sublist).
  apply sublist_length in Hsub. case_match; [by apply Hk|].
  apply (remove_pods_known c); [done..|]. intros [err|] l1 Hl1; cbn [select_removed]; [by apply Hk|]. cbv zeta.
  case_match; [by apply Hk|]. apply ok_call; [later|]. intros podQ h1 _ Hg Hq.
  apply over_known; [done|]. intros []; [by apply Hk|].
  apply (reprieve_potential_known c); [done|by eapply budgets_fewer|done|later|done|]. intros x l2 _. by apply Hk.
Qed.

(** A dry run is in order: the node's pods keep their requests if these are
    fixed, and no budget leaves [int32]. *)
Definition dry_ok (d : dry_run) : Prop :=
  pods_ok (NodeInfo_GetPods (dr_node d)) ∧ budgets_in_range (dr_pdbs d) (length (NodeInfo_GetPods (dr_node d))).

Lemma dry_program_known {A} snap d (k : _ → client A) h :
  dry_ok d → mgr_known snap h → (∀ r, ok_from (k r) h) → ok_from (dry_program fmt_state snap d k) h.
Proof.
  intros [Hp Hb] Hm Hk. apply ok_call; [later|]. intros c h1 _ Hg Hc. unfold dry_rest.
  apply (select_known c); [done|done|apply dry_local_in|done|]. intros [x|podQ] l h2 Hg2 Hd; cbn [select_finish].
  - apply (ok_from_later _ _ h); [by etrans|apply Hk].
  - cbn [decision_known] in Hd. apply ok_call; [later|]. intros t h3 _ Hg3 Ht. apply ok_call; [later|]. intros str h4 _ Hg4 _.
    apply (ok_from_later _ _ h); [|apply Hk]. do 3 (etrans; [eassumption|]). done.
Qed.
End known.

(** ** What a dry run answers *)
Section answers.
Context {T : ApiTypes} {Q : QuantityOps} {P : PodOps} {L : SelectorOps} {F : FrameworkOps}.
Context {I : ImmutMap} {SS : SliceSort} {QL : QuantityLaws} {NL : NodeInfoLaws} {FL : FrameworkLaws}.
Context {LL : SelectorLaws} {SL : SliceSortLaws}.
Context {O : Type} {C : CycleStateOps (StateData O)} {CL : CycleStateLaws (StateData O)} {H : HandleOps} {R : RunOps}.
Context {fmt_state : StateData O → string} {RL : RunLaws (fmt_state := fmt_state)}.
Context {RP : RunPrograms} {RA : RunAlone} {RW : RunOwned (fmt_state := fmt_state)}.
Implicit Types (V : ManagerV) (h : heap) (c : loc) (d : dry_run).

Lemma results_all {B} (q : qcall B) b : result_in (λ _, True) (λ _, True) q b.
Proof. by destruct q; cbn [result_in]; intros. Qed.

(** The program runs as its prefix does, and then the rest. *)
Lemma prefix_run {A B} (f : B → client A) p p' : prefix (λ _, True) f p p' → ∀ h,
  run_client p h = (b ← run_client p'; run_client (f b)) h.
Proof.
  induction 1 as [b|X q k k' _ _ _ IH]; intros h; [done|]. rewrite run_call, run_call_bind, !st_bind_eq.
  destruct (seq_call q h) as [[x h1]|]; [|done]. apply IH, results_all.
Qed.

(** The decision, then the message. *)
Lemma decide_then_finish {A} d (k : selection → client A) c h :
  run_client (dry_rest fmt_state d k c) h
  = (r ← run_client (select_decide fmt_state (dr_pod d) (dr_pdbs d) (dry_local d c) (λ r _, CReturn r));
     run_client (select_finish k r)) h.
Proof. by apply prefix_run, dry_rest_prefix. Qed.

(** What the framework makes sure of: the clone of the cycle state is in step with
    the node, whose pods are distinct, and the preemptor's queue has no negative maximum. *)
Record dry_ready V d : Prop := mkDryReady {
  dd_sync c : in_sync (lo_state (dry_local d c)) (dr_node d);
  dd_nodup : NoDup (uid <$> NodeInfo_GetPods (dr_node d));
  dd_max : max_nonneg V (dr_pod d);
  dd_budgets : budgets_in_range (dr_pdbs d) (length (NodeInfo_GetPods (dr_node d)));
}.

(** The greedy selection on the snapshot's value. *)
Definition dry_selected V d (r : selection) : Prop :=
  ∃ c s', selected (fmt_state := fmt_state) V (dr_pod d) (dr_pdbs d) (NodeInfo_Node (dr_node d))
    (NodeInfo_GetPods (dr_node d)) (mkSnapshot c) s' r.

Lemma selected_message V d msg msg' :
  dry_selected V d ([], 0%Z, NewStatus Unschedulable [msg]) → dry_selected V d ([], 0%Z, NewStatus Unschedulable [msg']).
Proof.
  assert (∀ st code msgs, st = NewStatus code msgs → Status_Code st = code) as Hcode by (intros ? ? ? ->; apply status_new_code).
  intros (c & s' & Hs). exists c, s'.
  inversion Hs as [msg0 Hne E|err Hne Hh E|status Hne Hf Hp E|msg0 Hne Hp Ho E|vs ns k1 c1 k c2 Hne Hfit Hsplit E1 E2 Hpods HV E].
  - apply Hcode in E. by rewrite status_new_code in E.
  - apply Hcode in E. by rewrite status_as_code in E.
  - apply sel_filter; [done| |done]. apply not_true_iff_false. rewrite status_success, status_new_code. done.
  - by apply sel_quota.
  - exfalso. assert (NewStatus Success [] = NewStatus Unschedulable [msg]) as Hs' by congruence.
    apply Hcode in Hs'. by rewrite status_new_code in Hs'.
Qed.

(** Whatever the message, the decision on a clone leads to the greedy selection. *)
Lemma dry_answer {A} V d c h r h' (f : selection → A) :
  wf h → view_mgr h c = Some V → dry_ready V d →
  run_client (select_decide fmt_state (dr_pod d) (dr_pdbs d) (dry_local d c) (λ r _, CReturn r)) h = Ret (r, h') →
  returns (λ a, ∃ x, a = f x ∧ dry_selected V d x) (select_finish (λ x, CReturn (f x)) r).
Proof.
  intros Hwf HV [Hsync Hnd Hmax Hb] Hr.
  pose proof (decide_then_finish d CReturn c h) as Hrun. rewrite (dry_rest_alone fmt_state d CReturn c h), st_bind_eq, Hr in Hrun.
  set (s := mkSim (mkWorld h (WriteQueueSnapshot (dr_state d) (mkSnapshot c))) (dr_node d) []) in Hrun.
  assert (wp (SelectVictimsOnNode fmt_state (dr_pod d) (dr_pdbs d)) (λ r _, dry_selected V d r) s) as Hsel.
  { eapply wp_mono; [apply (SelectVictimsOnNode_spec _ _ s (mkSnapshot c) V)|]; try done.
    - apply (dry_local_in d c).
    - apply (Hsync c).
    - eapply budgets_fewer; [|exact Hb]. apply sublist_length, sublist_filter.
    - intros x s' [Hx _]. by exists c, s'. }
  unfold wp in Hsel. destruct (SelectVictimsOnNode _ _ _ s) as [[x s']|]; [|done]. cbn [go_on run_client mret st_ret] in Hrun.
  destruct r as [r|podQ]; cbn [select_finish returns run_client mret st_ret] in *.
  - injection Hrun as Hx _. subst x. by exists r.
  - intros t str. eexists. split; [done|]. rewrite st_bind_eq in Hrun.
    destruct (seq_call _ h') as [[t1 h1]|]; [|done]. rewrite st_bind_eq in Hrun.
    destruct (seq_call _ h1) as [[str1 h2]|]; [|done]. injection Hrun as Hx _. subst x. by eapply selected_message.
Qed.
End answers.
