(* ===== verification/Callers.v ===== *)
(** * Callers: the program's goroutines that use the queue package

    The callers of the package as programs of file [Locking]: the informers'
    handlers, the status loop, the scheduler's calls of the plugin and the
    dry runs of file [DryRuns].  Run alone they are the code of files [Synchronizer],
    [Plugin] and [Preemptor]; all of them call the package properly, and none
    publishes the snapshots that it takes. *)

From stdpp Require Import base tactics option list gmap strings sorting relations.
From Stdlib Require Import ZArith Lia.
From S2P Require Import Prelude.
From S2P Require Import External.
From S2P Require Import Concrete.
From S2P Require Import Resources.
From S2P Require Import Api.
From S2P Require Import Pods.
From S2P Require Import Match.
From S2P Require Import PdbEval.
From S2P Require Import Store.
From S2P Require Import StoreFacts.
From S2P Require Import Quota.
From S2P Require Import Queue.
From S2P Require Import Manager.
From S2P Require Import QueueFacts.
From S2P Require Import ManagerFacts.
From S2P Require Import ManagerProps.
From S2P Require Import State.
From S2P Require Import Plugin.
From S2P Require Import PluginFacts.
From S2P Require Import Preemptor.
From S2P Require Import Aggregator.
From S2P Require Import Synchronizer.
From S2P Require Import Threads.
From S2P Require Import ThreadFacts.
From S2P Require Import Locking.
From S2P Require Import LockingFacts.
From S2P Require Import LockSafety.
From S2P Require Import LockMethods.
From S2P Require Import ConcurrencyProps.
From S2P Require Import Regions.
From S2P Require Import Snapshots.
From S2P Require Import Isolation.
From S2P Require Import Observers.
From S2P Require Import Frozen.
From S2P Require Import DryRuns.

Section programs.
Context {T : ApiTypes} {Q : QuantityOps} {P : PodOps} {L : SelectorOps} {F : FrameworkOps}.
Context {I : ImmutMap} {SS : SliceSort} {H : HandleOps}.
Context {O : Type} {C : CycleStateOps (StateData O)} {R : RunOps} {RP : RunPrograms}.
Context {Bytes : Type}.
Variable json_Marshal : QueueObj → Bytes + go_error.
Variable fmt_state : StateData O → string.

(** ** The informers' handlers *)

(** [queue_options], with the map of maxima that the handler has made. *)
Definition queue_opts (queueObj : QueueObj) (max : option loc) : list queue_opt :=
  let '(preemptionCfg, _) := NewPreemptionConfigFromSpec (queueSpec_Preemption (queueObj_Spec queueObj)) in
  [OptQuotaMax max; OptLabels (Some (queueObj_Labels queueObj)); OptPreemptionConfig preemptionCfg].

Definition queue_max (queueObj : QueueObj) : Resources :=
  FromResourceList (quotaSpec_Max (queueSpec_Quota (queueObj_Spec queueObj))).

(** One notification, then the rest of the goroutine.  The queue handlers read the
    fields of a nil pointer when the object is of another type. *)
Definition handler {A} (m : loc) (ev : event) (k : client A) : client A :=
  match ev with
  | EvAddQueue obj =>
      match as_Queue obj with
      | Some q => CCall (QMakeResources (queue_max q)) (λ max, CCall (QPut m (queueObj_Name q) (queue_opts q max)) (λ _, k))
      | None => CCall (QNil unit) (λ _, k)
      end
  | EvUpdateQueue _ obj =>
      match as_Queue obj with
      | Some q => CCall (QMakeResources (queue_max q)) (λ max, CCall (QUpdate m (queueObj_Name q) (queue_opts q max)) (λ _, k))
      | None => CCall (QNil unit) (λ _, k)
      end
  | EvDeleteQueue obj =>
      match as_Queue obj with Some q => CCall (QDelete m (queueObj_Name q)) (λ _, k) | None => CCall (QNil unit) (λ _, k) end
  | EvAddPod obj => CCall (QAddPod m (as_Pod obj)) (λ _, k)
  | EvUpdatePod oldObj newObj =>
      if IsTerminal (as_Pod oldObj) || IsNonTerminal (as_Pod newObj) then k
      else CCall (QDeletePod m (as_Pod newObj)) (λ _, k)
  | EvDeletePod obj => CCall (QDeletePod m (as_Pod obj)) (λ _, k)
  end.

(** The goroutine of an informer handles its notifications one by one. *)
Definition informer {A} (m : loc) (evs : list event) (k : client A) : client A := foldr (handler m) k evs.

(** ** The status loop *)

(** The body of the loop over the clone's queues; [patches] are the ones sent so far. *)
Fixpoint status_queues {A} (clusterTotalRes : gmap ResourceName Quantity) (qs : list loc) (patches : list (string * Bytes))
    (k : list (string * Bytes) → client A) : client A :=
  match qs with
  | [] => k patches
  | q :: qs =>
      CCall (QQuota (Some q)) (λ quota,
      CCall (QMaxMap quota) (λ max,
      CCall (QQuota (Some q)) (λ quota,
      CCall (QUsedMap quota) (λ used,
      let effectiveMax := take_min (Some clusterTotalRes) max in
      match json_Marshal (status_object (Resources_ToResourceList effectiveMax) (Resources_ToResourceList used)) with
      | inr err => status_queues clusterTotalRes qs patches k
      | inl patchBytes =>
          CCall (QName (Some q)) (λ name, status_queues clusterTotalRes qs (patches ++ [(name, patchBytes)]) k)
      end))))
  end.

Definition status_rest {A} (clusterTotalRes : gmap ResourceName Quantity) (k : list (string * Bytes) → client A) (clone : loc) : client A :=
  CCall (QRange clone) (λ qs, status_queues clusterTotalRes qs [] k).

Definition status_tick {A} (m : loc) (clusterTotalRes : gmap ResourceName Quantity) (k : list (string * Bytes) → client A) : client A :=
  CCall (QClone m) (status_rest clusterTotalRes k).

(** [statusUpdateLoop]: a tick every time the timer fires, with the total of
    that moment, until the context is done; all patches, in order. *)
Fixpoint statusUpdateLoop {A} (m : loc) (totals : list (gmap ResourceName Quantity)) (patches : list (string * Bytes))
    (k : list (string * Bytes) → client A) : client A :=
  match totals with
  | [] => k patches
  | clusterTotalRes :: totals =>
      status_tick m clusterTotalRes (λ ps, statusUpdateLoop m totals (patches ++ ps) k)
  end.

(** ** The scheduler's calls *)

Definition count_nominated {A} (c : loc) (podQ : option loc) (pod : Pod) (nomPodInfo : PodInfo) (k : client A) : client A :=
  let nom := PodInfo_GetPod nomPodInfo in
  if bool_decide (pod_UID nom = pod_UID pod) then k
  else if (PodPriority nom <? PodPriority pod)%Z then k
  else
    CCall (QGet c (Some nom)) (λ nomQ,
    match nomQ with
    | None => k
    | Some _ =>
        CCall (QName nomQ) (λ nomName,
        CCall (QName podQ) (λ podName,
        if negb (bool_decide (nomName = podName)) then k
        else CCall (QQuota podQ) (λ quota, CCall (QQuotaAdd quota [Some nom]) (λ _, k))))
    end).

Definition count_nodes {A} (c : loc) (podQ : option loc) (pod : Pod) (nodeList : list NodeInfo) (k : client A) : client A :=
  foldr (λ node k, foldr (count_nominated c podQ pod) k (NominatedPodsForNode (node_Name (NodeInfo_Node node)))) k nodeList.

(** [PreFilter] once it has its snapshot, up to its decision: a status, or that
    the queue, of the given quota, would exceed its maximum. *)
Definition admission {A} (pod : Pod) (c : loc) (k : Status + option loc * option loc → client A) : client A :=
  CCall (QGet c (Some pod)) (λ podQ,
  match podQ with
  | None => k (inl (NewStatus Success []))
  | Some _ =>
      match NodeInfos_List with
      | inr err => k (inl (NewStatus Error ["Error getting the node list: " +:+ error_Error err]))
      | inl nodeList =>
          count_nodes c podQ pod nodeList
            (CCall (QQuota podQ) (λ quota,
             CCall (QWouldPutOverMax quota (FromPodReq (Some pod))) (λ over,
             if over : bool then k (inr (podQ, quota)) else k (inl (NewStatus Success [""])))))
      end
  end).

(** The message, which takes another clone of the quota. *)
Definition unschedulable {A} (pod : Pod) (podQ quota : option loc) (k : Status → client A) : client A :=
  CCall (QName podQ) (λ name,
  CCall (QString quota) (λ quotaString,
  k (NewStatus Unschedulable
    ["Not eligible for scheduling because queue " +:+ name +:+ " exceeds quota (quota="
       +:+ quotaString +:+ ", requested=" +:+ Resources_String (FromPodReq (Some pod)) +:+ ")"]))).

Definition prefilter_decide {A} (pod : Pod) (k : Status → client A) (d : Status + option loc * option loc) : client A :=
  match d with
  | inl status => k status
  | inr (podQ, quota) => unschedulable pod podQ quota k
  end.

Definition prefilter_rest {A} (pod : Pod) (k : loc → Status → client A) (c : loc) : client A :=
  admission pod c (prefilter_decide pod (k c)).

Definition prefilter {A} (m : loc) (pod : Pod) (k : loc → Status → client A) : client A :=
  CCall (QClone m) (prefilter_rest pod k).

(** The calls of the plugin, in the order that the framework decides; [snap] is
    the snapshot in the cycle state, which [AddPod] and [RemovePod] change,
    and [Clone] of the cycle state copies.  The goroutine reports the statuses of
    [PreFilter] and [Reserve]. *)
Inductive plugin_call :=
| CallPreFilter (pod : Pod)
| CallAddPod (podToSchedule : Pod) (podInfo : PodInfo) (nodeInfo : NodeInfo)
| CallRemovePod (podToSchedule : Pod) (podInfo : PodInfo) (nodeInfo : NodeInfo)
| CallCloneState
| CallReserve (pod : Pod) (nodeName : string)
| CallUnreserve (pod : Pod) (nodeName : string).

Definition added_status (err : option go_error) : Status :=
  match err with
  | Some err => NewStatus Error [error_Error err]
  | None => NewStatus Success [""]
  end.

Fixpoint scheduler {A} (m : loc) (snap : option loc) (calls : list plugin_call) (statuses : list Status)
    (k : list Status → client A) : client A :=
  match calls with
  | [] => k statuses
  | CallPreFilter pod :: calls => prefilter m pod (λ c status, scheduler m (Some c) calls (statuses ++ [status]) k)
  | CallAddPod _ podInfo _ :: calls =>
      match snap with
      | Some c => CCall (QAddPod c (Some (PodInfo_GetPod podInfo))) (λ _, scheduler m snap calls statuses k)
      | None => scheduler m snap calls statuses k
      end
  | CallRemovePod _ podInfo _ :: calls =>
      match snap with
      | Some c => CCall (QDeletePod c (Some (PodInfo_GetPod podInfo))) (λ _, scheduler m snap calls statuses k)
      | None => scheduler m snap calls statuses k
      end
  | CallCloneState :: calls =>
      match snap with
      | Some c => CCall (QClone c) (λ c', scheduler m (Some c') calls statuses k)
      | None => scheduler m snap calls statuses k
      end
  | CallReserve pod _ :: calls =>
      CCall (QAddPod m (Some pod)) (λ err, scheduler m snap calls (statuses ++ [added_status err]) k)
  | CallUnreserve pod _ :: calls => CCall (QDeletePod m (Some pod)) (λ _, scheduler m snap calls statuses k)
  end.

(** ** The goroutines *)
Inductive report :=
| Handled
| Patched (patches : list (string * Bytes))
| Scheduled (statuses : list Status)
| Selected (result : selection).

(** A dry run begins when its snapshot is there: the framework starts the dry
    runs of a cycle after its [PreFilter]. *)
Inductive caller :=
| Informer (evs : list event)
| StatusLoop (totals : list (gmap ResourceName Quantity))
| Scheduler (calls : list plugin_call)
| DryRun (snap : loc) (d : dry_run).

Definition program (m : loc) (c : caller) : client report :=
  match c with
  | Informer evs => informer m evs (CReturn Handled)
  | StatusLoop totals => statusUpdateLoop m totals [] (λ ps, CReturn (Patched ps))
  | Scheduler calls => scheduler m None calls [] (λ ss, CReturn (Scheduled ss))
  | DryRun snap d => dry_program fmt_state snap d (λ r, CReturn (Selected r))
  end.
End programs.

(** ** Where the programs get their objects *)
Section regions.
Context {T : ApiTypes} {Q : QuantityOps} {P : PodOps} {L : SelectorOps} {F : FrameworkOps}.
Context {I : ImmutMap} {SS : SliceSort} {H : HandleOps}.
Context {O : Type} {C : CycleStateOps (StateData O)} {CL : CycleStateLaws (StateData O)} {R : RunOps} {RP : RunPrograms}.
Context {Bytes : Type}.
Variable json_Marshal : QueueObj → Bytes + go_error.
Context {fmt_state : StateData O → string} {RW : RunOwned (fmt_state := fmt_state)}.
Implicit Types (G Z : region).

Lemma queue_opts_in G q max : ptr_in G KRes max → ∀ o, o ∈ queue_opts q max → opt_in G o.
Proof.
  intros Hm o. unfold queue_opts. destruct (NewPreemptionConfigFromSpec _) as [cfg err].
  by intros [->|[->|[->|[]%elem_of_nil]%elem_of_cons]%elem_of_cons]%elem_of_cons.
Qed.

Lemma informer_given {A} G m evs (k : client A) : G (KMgr m) → given G k → given G (informer m evs k).
Proof.
  intros Hm Hk. induction evs as [|ev evs IH]; [done|]. cbn [informer foldr]. destruct ev; cbn [handler].
  - case_match; [|done]. split; [done|]. intros max Hmax. split; [|done]. split; [done|by apply queue_opts_in].
  - case_match; [|done]. split; [done|]. intros max Hmax. split; [|done]. split; [done|by apply queue_opts_in].
  - case_match; [|done]. by split.
  - by split.
  - case_match; [done|]. by split.
  - by split.
Qed.

Lemma informer_locked {A} m evs (k : client A) : locked_only k → locked_only (informer m evs k).
Proof.
  intros Hk. induction evs as [|ev evs IH]; [done|]. cbn [informer foldr].
  destruct ev; cbn [handler]; repeat case_match; try done; by repeat split.
Qed.

(** A judgement of programs that a call with arguments in the region keeps, if
    what follows satisfies it for every result in the region. *)
Definition calls_in {A} G (J : client A → Prop) : Prop :=
  ∀ B (c : qcall B) k, args_in G c → (∀ b, result_in G G c b → J (k b)) → J (CCall c k).

Lemma given_calls {A} G : calls_in G (@given T A G).
Proof. by intros B c k Ha Hk. Qed.
Lemma observes_calls {A} Z : calls_in Z (@observes T A Z).
Proof. intros B c k Ha Hk. by left. Qed.

Section on_clone.
Context {A : Type} (G : region) (J : client A → Prop).
Hypothesis HJ : calls_in G J.

Lemma status_queues_in total qs : ∀ ps k,
  (∀ q, q ∈ qs → G (KQueue q)) → (∀ ps, J (k ps)) → J (status_queues json_Marshal total qs ps k).
Proof.
  induction qs as [|q qs IH]; intros ps k Hqs Hk; cbn [status_queues]; [done|].
  assert (ptr_in G KQueue (Some q)) as Hq by (intros ? [= <-]; apply Hqs; by left).
  assert (∀ ps, J (status_queues json_Marshal total qs ps k)) as Hrest.
  { intros ps'. apply IH; [|done]. intros q' Hin. apply Hqs. by right. }
  apply HJ; [done|]. intros t1 Ht1. apply HJ; [done|]. intros mx _.
  apply HJ; [done|]. intros t2 Ht2. apply HJ; [done|]. intros us _.
  cbv zeta. destruct (json_Marshal _); [|done]. by apply HJ.
Qed.

Lemma status_rest_in total k c : G (KMgr c) → (∀ ps, J (k ps)) → J (status_rest json_Marshal total k c).
Proof. intros Hc Hk. apply HJ; [done|]. intros qs Hqs. by apply status_queues_in. Qed.

Lemma count_nominated_in c podQ pod nom k :
  G (KMgr c) → ptr_in G KQueue podQ → J k → J (count_nominated c podQ pod nom k).
Proof.
  intros Hc Hq Hk. unfold count_nominated. do 2 (case_match; [done|]).
  apply HJ; [done|]. intros nomQ HnomQ. destruct nomQ; [|done].
  apply HJ; [done|]. intros n1 _. apply HJ; [done|]. intros n2 _. case_match; [done|].
  apply HJ; [done|]. intros t Ht. by apply HJ.
Qed.

Lemma count_nodes_in c podQ pod nodes k :
  G (KMgr c) → ptr_in G KQueue podQ → J k → J (count_nodes c podQ pod nodes k).
Proof.
  intros Hc Hq Hk. unfold count_nodes. induction nodes as [|node nodes IH]; cbn [foldr]; [done|].
  induction (NominatedPodsForNode _) as [|nom noms IHn]; cbn [foldr]; [exact IH|]. by apply count_nominated_in.
Qed.

Lemma prefilter_rest_in (pod : Pod) k c :
  G (KMgr c) → (∀ s, J (k c s)) → J (prefilter_rest pod k c).
Proof.
  intros Hc Hk. unfold prefilter_rest, admission. apply HJ; [done|]. intros podQ Hq. destruct podQ as [ql|]; [|apply Hk].
  destruct NodeInfos_List as [nodes|]; [|apply Hk]. apply count_nodes_in; [done|done|].
  apply HJ; [done|]. intros t Ht. apply HJ; [done|]. intros over _. destruct over; [|apply Hk].
  apply HJ; [done|]. intros nm _. apply HJ; [done|]. intros str _. apply Hk.
Qed.
End on_clone.

Lemma status_loop_given {A} G m totals : ∀ ps (k : _ → client A),
  G (KMgr m) → (∀ ps, given G (k ps)) → given G (statusUpdateLoop json_Marshal m totals ps k).
Proof.
  induction totals as [|tot totals IH]; intros ps k Hm Hk; cbn [statusUpdateLoop]; [done|].
  split; [done|]. intros c Hc. apply (status_rest_in G _ (given_calls G)); [done|]. intros ps'. by apply IH.
Qed.

Lemma status_loop_observes {A} Z m totals : ∀ ps (k : _ → client A),
  ¬ Z (KMgr m) → (∀ ps, observes Z (k ps)) → observes Z (statusUpdateLoop json_Marshal m totals ps k).
Proof.
  induction totals as [|tot totals IH]; intros ps k Hm Hk; cbn [statusUpdateLoop]; [done|].
  right. split_and!; [done|by intros []|by intros []|]. intros c Hc.
  apply (status_rest_in Z _ (observes_calls Z)); [done|]. intros ps'. by apply IH.
Qed.

Lemma scheduler_given {A} G m calls : ∀ snap ss (k : _ → client A),
  G (KMgr m) → ptr_in G KMgr snap → (∀ ss, given G (k ss)) → given G (scheduler m snap calls ss k).
Proof.
  induction calls as [|call calls IH]; intros snap ss k Hm Hs Hk; cbn [scheduler]; [done|]. destruct call.
  - split; [done|]. intros c Hc. apply (prefilter_rest_in G _ (given_calls G)); [done|].
    intros s. apply IH; [done| |done]. by intros ? [= <-].
  - destruct snap as [c|]; [|by apply IH]. split; [by apply Hs|]. intros ? _. by apply IH.
  - destruct snap as [c|]; [|by apply IH]. split; [by apply Hs|]. intros ? _. by apply IH.
  - destruct snap as [c|]; [|by apply IH]. split; [by apply Hs|]. intros c' Hc'. apply IH; [done| |done]. by intros ? [= <-].
  - split; [done|]. intros ? _. by apply IH.
  - split; [done|]. intros ? _. by apply IH.
Qed.

Lemma scheduler_observes {A} Z m calls : ∀ snap ss (k : _ → client A),
  ¬ Z (KMgr m) → ptr_in Z KMgr snap → (∀ ss, observes Z (k ss)) → observes Z (scheduler m snap calls ss k).
Proof.
  induction calls as [|call calls IH]; intros snap ss k Hm Hs Hk; cbn [scheduler]; [done|].
  assert (∀ B (c : qcall B) (f : B → client A), args_in (compl Z) c → ¬ mixes c → ¬ raw_call c →
    (∀ b, result_in (compl Z) Z c b → observes Z (f b)) → observes Z (CCall c f)) as Hout by (intros; by right).
  destruct call.
  - apply Hout; [done|by intros []|by intros []|]. intros c Hc.
    apply (prefilter_rest_in Z _ (observes_calls Z)); [done|].
    intros s. apply IH; [done| |done]. by intros ? [= <-].
  - destruct snap as [c|]; [|by apply IH]. left. split; [by apply Hs|]. intros ? _. by apply IH.
  - destruct snap as [c|]; [|by apply IH]. left. split; [by apply Hs|]. intros ? _. by apply IH.
  - destruct snap as [c|]; [|by apply IH]. left. split; [by apply Hs|]. intros c' Hc'. apply IH; [done| |done]. by intros ? [= <-].
  - apply Hout; [done|by intros []|by intros []|]. intros ? _. by apply IH.
  - apply Hout; [done|by intros []|by intros []|]. intros ? _. by apply IH.
Qed.

Lemma dry_rest_given {A} G d (k : _ → client A) c : G (KMgr c) → (∀ r, given G (k r)) → given G (dry_rest fmt_state d k c).
Proof. intros Hc Hk. by apply (dry_rest_in G). Qed.

Lemma dry_program_observes {A} Z snap d (k : _ → client A) :
  ¬ Z (KMgr snap) → (∀ r, observes Z (k r)) → observes Z (dry_program fmt_state snap d k).
Proof.
  intros Hs Hk. right. split_and!; [done|by intros []|by intros []|]. intros c Hc.
  apply (dry_rest_in Z); [|done|done]. intros X q k' Ha Hk'. by left.
Qed.

(** A manager that exists at the start lies in every region of old objects. *)
Definition managers_there h m (c : caller) : Prop :=
  is_Some (h_mgr h !! m) ∧ match c with DryRun snap _ => is_Some (h_mgr h !! snap) | _ => True end.

Lemma program_uses m c h : managers_there h m c → uses h (program json_Marshal fmt_state m c).
Proof.
  intros [[M HM] Hs] G HG. assert (G (KMgr m)) as Hm by (apply HG; simpl; by rewrite HM).
  destruct c; cbn [program].
  - by apply informer_given.
  - by apply status_loop_given.
  - by apply scheduler_given.
  - destruct Hs as [Ms HMs]. split; [apply HG; simpl; by rewrite HMs|]. intros c Hc. by apply dry_rest_given.
Qed.

Lemma program_reads m c h : managers_there h m c →
  locked_only (program json_Marshal fmt_state m c) ∨ observer h (program json_Marshal fmt_state m c).
Proof.
  intros [Hm Hs]. assert (∀ (Z : region) m, is_Some (h_mgr h !! m) → (∀ k, Z k → get h k = None) → ¬ Z (KMgr m)) as Hold.
  { intros Z m' [M HM] HZ Hin. specialize (HZ _ Hin). simpl in HZ. by rewrite HM in HZ. }
  destruct c; cbn [program].
  - left. by apply informer_locked.
  - right. intros Z HZ. apply status_loop_observes; [by apply Hold|done].
  - right. intros Z HZ. apply scheduler_observes; [by apply Hold|done|done].
  - right. intros Z HZ. apply dry_program_observes; [by apply Hold|done].
Qed.

(** Away from a region that it does not know, and which a dry run may clone from. *)
Lemma program_keeps_off W m c : ¬ W (KMgr m) → (∀ snap d, c = DryRun snap d → W (KMgr snap) ∨ ¬ W (KMgr snap)) →
  keeps_off W (program json_Marshal fmt_state m c).
Proof.
  intros Hm Hs. destruct c as [evs|totals|calls|snap d]; cbn [program].
  - by apply given_keeps_off, informer_given.
  - by apply given_keeps_off, status_loop_given.
  - by apply given_keeps_off, scheduler_given.
  - destruct (Hs snap d eq_refl) as [Hin|Hout].
    + right. split; [done|]. intros c Hc. by apply given_keeps_off, dry_rest_given.
    + apply given_keeps_off. split; [done|]. intros c Hc. by apply dry_rest_given.
Qed.
End regions.

(** ** The programs know their objects *)
Section knowledge.
Context {T : ApiTypes} {Q : QuantityOps} {P : PodOps} {L : SelectorOps} {QL : QuantityLaws} {F : FrameworkOps}.
Context {I : ImmutMap} {SS : SliceSort} {LL : SelectorLaws} {SL : SliceSortLaws} {H : HandleOps}.
Context {O : Type} {C : CycleStateOps (StateData O)} {CL : CycleStateLaws (StateData O)} {R : RunOps} {RP : RunPrograms}.
Context {Bytes : Type}.
Variable json_Marshal : QueueObj → Bytes + go_error.
Variable req : requests.
Context {fmt_state : StateData O → string} {RK : RunKnown (fmt_state := fmt_state) req}.
Implicit Types (h : heap).

Abbreviation ok := (client_ok req).
Abbreviation ok_from := (ok_from req).

Lemma queue_opts_known q max h : opt_known (OptQuotaMax max) h → opts_known (queue_opts q max) h.
Proof.
  intros Hm o. unfold queue_opts. destruct (NewPreemptionConfigFromSpec _) as [cfg err].
  by intros [->|[->|[->|[]%elem_of_nil]%elem_of_cons]%elem_of_cons]%elem_of_cons.
Qed.

(** The pods of an event, or of a call of the plugin. *)
Definition event_pods (ev : event) : list (option Pod) :=
  match ev with EvAddPod obj | EvUpdatePod _ obj | EvDeletePod obj => [as_Pod obj] | _ => [] end.
Definition call_pods (c : plugin_call) : list (option Pod) :=
  match c with
  | CallAddPod _ pi _ | CallRemovePod _ pi _ => [Some (PodInfo_GetPod pi)]
  | CallReserve p _ | CallUnreserve p _ => [Some p]
  | CallPreFilter _ | CallCloneState => []
  end.

(** A notification of a queue carries a queue, and pods keep their requests if
    these are fixed. *)
Definition event_ok (ev : event) : Prop := no_nil ev = true ∧ ∀ pod, pod ∈ event_pods ev → pod_fits req pod.

(** Putting and updating a queue, with a maximum made just before. *)
Lemma put_ok {A} m q (k : client A) h :
  mgr_known m h → ok_from k h →
  ok_from (CCall (QMakeResources (queue_max q)) (λ max, CCall (QPut m (queueObj_Name q) (queue_opts q max)) (λ _, k))) h
  ∧ ok_from (CCall (QMakeResources (queue_max q)) (λ max, CCall (QUpdate m (queueObj_Name q) (queue_opts q max)) (λ _, k))) h.
Proof.
  intros Hm Hk. split; (apply ok_call; [done|]; intros max h1 _ Hg Hmax; apply ok_call; [|later]);
    intros h2 Hg2; (split; [eauto using mgr_later|]); apply queue_opts_known; by eapply opt_known_stable.
Qed.

Lemma informer_ok {A} m evs (k : client A) h :
  mgr_known m h → Forall (event_ok) evs → ok_from k h → ok_from (informer m evs k) h.
Proof.
  intros Hm Hevs Hk. induction Hevs as [|ev evs [Hnil Hp] _ Hr]; [done|]. cbn [informer foldr].
  destruct ev as [obj|old obj|obj|obj|old obj|obj]; cbn [handler]; cbn [event_pods no_nil] in *.
  - destruct (as_Queue obj); [|done]. by apply put_ok.
  - destruct (as_Queue obj); [|done]. by apply put_ok.
  - destruct (as_Queue obj); [|done]. apply ok_call; [later|later].
  - apply ok_call; [|later]. intros h' Hg. split; [eauto using mgr_later|apply Hp; by left].
  - case_match; [done|]. apply ok_call; [|later]. intros h' Hg. split; [eauto using mgr_later|apply Hp; by left].
  - apply ok_call; [|later]. intros h' Hg. split; [eauto using mgr_later|apply Hp; by left].
Qed.

Lemma status_queues_ok {A} total qs : ∀ ps (k : _ → client A) h,
  (∀ q, q ∈ qs → queue_known (Some q) h) → (∀ ps, ok_from (k ps) h) → ok_from (status_queues json_Marshal total qs ps k) h.
Proof.
  induction qs as [|q qs IH]; intros ps k h Hqs Hk; cbn [status_queues]; [done|].
  assert (queue_known (Some q) h) as Hq by (apply Hqs; by left).
  assert (∀ ps, ok_from (status_queues json_Marshal total qs ps k) h) as Hrest.
  { intros ps'. apply IH; [|done]. intros q' Hin. apply Hqs. by right. }
  apply ok_call; [later|]. intros t1 h1 _ Hg1 Ht1. apply ok_call; [later|]. intros mx h2 _ Hg2 _.
  apply ok_call; [later|]. intros t2 h3 _ Hg3 Ht2. apply ok_call; [later|]. intros us h4 _ Hg4 _.
  assert (grows h h4) as Hg by (do 3 (etrans; [eassumption|]); done). cbv zeta.
  destruct (json_Marshal _); [|later]. apply ok_call; [later|]. later.
Qed.

Lemma status_loop_ok {A} m totals : ∀ ps (k : _ → client A) h,
  mgr_known m h → (∀ ps, ok_from (k ps) h) → ok_from (statusUpdateLoop json_Marshal m totals ps k) h.
Proof.
  induction totals as [|tot totals IH]; intros ps k h Hm Hk; cbn [statusUpdateLoop]; [done|].
  apply ok_call; [later|]. intros c h1 _ Hg1 Hc. apply ok_call; [later|]. intros qs h2 _ Hg2 Hqs.
  assert (grows h h2) as Hg by by etrans.
  apply status_queues_ok; [done|]. intros ps'. apply IH; [eauto using mgr_later|]. later.
Qed.

Lemma count_nominated_ok {A} c podQ pod nom (k : client A) h :
  mgr_known c h → queue_known podQ h → pod_fits req (Some (PodInfo_GetPod nom)) → ok_from k h →
  ok_from (count_nominated c podQ pod nom k) h.
Proof.
  intros Hc Hq Hp Hk. unfold count_nominated. do 2 (case_match; [done|]).
  apply ok_call; [later|]. intros nomQ h1 _ Hg1 Hn. destruct nomQ; [|later].
  apply ok_call; [later|]. intros n1 h2 _ Hg2 _. assert (grows h h2) as Hg by by etrans.
  apply ok_call; [later|]. intros n2 h3 _ Hg3 _. assert (grows h h3) as Hg' by by etrans.
  case_match; [later|]. apply ok_call; [later|]. intros t h4 _ Hg4 Ht.
  apply ok_call; [|].
  - intros h5 Hg5. split; [later|]. by intros pod' ->%list_elem_of_singleton.
  - intros _ h5 _ Hg5 _. eapply ok_from_later, Hk. do 2 (etrans; [eassumption|]). done.
Qed.

(** The pods that the framework has nominated keep their requests. *)
Definition nominated_ok : Prop := ∀ node nom, nom ∈ NominatedPodsForNode node → pod_fits req (Some (PodInfo_GetPod nom)).

Lemma count_nodes_ok {A} c podQ pod nodes (k : client A) h :
  nominated_ok → mgr_known c h → queue_known podQ h → ok_from k h → ok_from (count_nodes c podQ pod nodes k) h.
Proof.
  intros Hnom Hc Hq Hk. unfold count_nodes. induction nodes as [|node nodes IH]; cbn [foldr]; [done|].
  specialize (Hnom (node_Name (NodeInfo_Node node))).
  induction (NominatedPodsForNode _) as [|nom noms IHn]; cbn [foldr]; [exact IH|].
  apply count_nominated_ok; [done|done|apply Hnom; by left|]. apply IHn. intros n' Hn'. apply Hnom. by right.
Qed.

Lemma prefilter_ok {A} m pod (k : _ → _ → client A) h :
  nominated_ok → mgr_known m h → (∀ c s h', grows h h' → mgr_known c h' → ok_from (k c s) h') → ok_from (prefilter m pod k) h.
Proof.
  intros Hnom Hm Hk. apply ok_call; [later|]. intros c h1 _ Hg1 Hc.
  apply ok_call; [later|]. intros podQ h2 _ Hg2 Hq.
  assert (grows h h2) as Hg by by etrans. assert (mgr_known c h2) as Hc2 by eauto using mgr_later.
  destruct podQ as [ql|]; [|by apply Hk]. destruct NodeInfos_List as [nodes|]; [|by apply Hk].
  apply count_nodes_ok; [done|done|done|]. apply ok_call; [later|]. intros t h3 _ Hg3 Ht.
  apply ok_call; [later|]. intros over h4 _ Hg4 _.
  assert (grows h2 h4) as Hg24 by by etrans. assert (grows h h4) as Hg' by by etrans.
  assert (mgr_known c h4) as Hc4 by eauto using mgr_later.
  destruct over; [|by apply Hk]. apply ok_call; [later|]. intros nm h5 _ Hg5 _.
  apply ok_call; [later|]. intros str h6 _ Hg6 _.
  assert (grows h4 h6) by by etrans. apply Hk; [by etrans|eauto using mgr_later].
Qed.

Lemma scheduler_ok {A} m calls : nominated_ok → ∀ snap ss (k : _ → client A) h,
  mgr_known m h → (∀ c, snap = Some c → mgr_known c h) → (∀ c pod, c ∈ calls → pod ∈ call_pods c → pod_fits req pod) →
  (∀ ss, ok_from (k ss) h) → ok_from (scheduler m snap calls ss k) h.
Proof.
  intros Hnom. induction calls as [|call calls IH]; intros snap ss k h Hm Hs Hp Hk; cbn [scheduler]; [done|].
  assert (∀ pod, pod ∈ call_pods call → pod_fits req pod) as Hp1 by (intros pod; apply Hp; by left).
  assert (∀ snap ss h', grows h h' → (∀ c, snap = Some c → mgr_known c h') →
    ok_from (scheduler m snap calls ss k) h') as Hrest.
  { intros snap' ss' h' Hg Hs'. apply IH; [eauto using mgr_later|done| |later].
    intros c pod Hc. apply Hp. by right. }
  assert (∀ h', grows h h' → ∀ c, snap = Some c → mgr_known c h') as Hs' by (intros h' Hg c ->; eapply mgr_later; eauto).
  destruct call; cbn [call_pods] in Hp1.
  - apply prefilter_ok; [done|done|]. intros c s h' Hg Hc. apply Hrest; [done|]. by intros ? [= <-].
  - destruct snap as [c|]; [|by apply Hrest]. apply ok_call; [|eauto]. intros h' Hg. split; [eauto|apply Hp1; by left].
  - destruct snap as [c|]; [|by apply Hrest]. apply ok_call; [|eauto]. intros h' Hg. split; [eauto|apply Hp1; by left].
  - destruct snap as [c|]; [|by apply Hrest]. apply ok_call; [intros; cbn [call_pre]; eauto|].
    intros c' h' _ Hg Hc'. apply Hrest; [done|]. by intros ? [= <-].
  - apply ok_call; [|eauto]. intros h' Hg. split; [eauto using mgr_later|apply Hp1; by left].
  - apply ok_call; [|eauto]. intros h' Hg. split; [eauto using mgr_later|apply Hp1; by left].
Qed.

(** What a caller gets from outside is in order. *)
Definition caller_ok (c : caller) : Prop :=
  match c with
  | Informer evs => Forall event_ok evs
  | StatusLoop _ => True
  | Scheduler calls => ∀ c pod, c ∈ calls → pod ∈ call_pods c → pod_fits req pod
  | DryRun _ d => dry_ok req d
  end.

Lemma program_ok m c h : nominated_ok → managers_there h m c → caller_ok c → ok (program json_Marshal fmt_state m c) h.
Proof.
  intros Hnom [Hm Hs] Hc. destruct c as [evs|totals|calls|snap d]; cbn [program caller_ok] in *.
  - apply (informer_ok m evs _ h); [done|done| |done]. by intros h' _.
  - apply (status_loop_ok m totals [] _ h); [done| |done]. by intros ps h' _.
  - apply (scheduler_ok m calls Hnom None [] _ h); [done|done|done| |done]. by intros ss h' _.
  - apply (dry_program_known req snap d _ h); [done|done| |done]. by intros r h' _.
Qed.
End knowledge.

(** ** Run alone, the programs are the sequential code *)
Section alone.
Context {T : ApiTypes} {Q : QuantityOps} {P : PodOps} {L : SelectorOps} {F : FrameworkOps}.
Context {I : ImmutMap} {SS : SliceSort} {H : HandleOps}.
Implicit Types (h : heap) (m : loc).

Lemma load_res_eq l h : load_res l h = Ret (res_val h l, h).
Proof. done. Qed.

(** *** The informers *)
Lemma queue_options_eq obj :
  queue_options obj = (max ← alloc_res (queue_max obj); mret (opt_fun <$> queue_opts obj max)).
Proof. unfold queue_options, queue_opts, queue_max. by destruct (NewPreemptionConfigFromSpec _). Qed.

Lemma handler_alone {A} m ev (k : client A) h :
  run_client (handler m ev k) h = (handle m ev;; run_client k) h.
Proof.
  assert (∀ obj (f : list QueueOption → st heap unit) h,
    (max ← alloc_res (queue_max obj); _ ← f (opt_fun <$> queue_opts obj max); run_client k) h
    = ((opts ← queue_options obj; f opts);; run_client k) h) as Hput.
  { intros obj f h'. rewrite queue_options_eq. unfold mbind, st_bind. by destruct (alloc_res _ _) as [[]|]. }
  assert (∀ B (f : st heap B), (_ ← f; run_client k) h = ((_ ← f; mret tt);; run_client k) h) as Hdrop.
  { intros B f. unfold mbind, st_bind. by destruct (f h) as [[]|]. }
  destruct ev as [obj|old obj|obj|obj|old obj|obj]; cbn [handler handle].
  - unfold addQueue. destruct (as_Queue obj) as [q|]; [|done]. apply Hput.
  - unfold updateQueue. destruct (as_Queue obj) as [q|]; [|done]. apply Hput.
  - unfold deleteQueue. by destruct (as_Queue obj) as [q|].
  - apply Hdrop.
  - unfold updatePod. destruct (_ || _); [done|]. apply Hdrop.
  - apply Hdrop.
Qed.

Lemma informer_alone {A} m evs (k : client A) :
  ∀ h, run_client (informer m evs k) h = (st_for evs (handle m);; run_client k) h.
Proof.
  induction evs as [|ev evs IH]; intros h; [done|]. cbn [informer foldr st_for]. rewrite handler_alone. rewrite <- st_assoc. by apply st_bind_ext.
Qed.

(** *** The status loop *)
Section status.
Context {QL : QuantityLaws} {Bytes : Type}.
Variable json_Marshal : QueueObj → Bytes + go_error.

Lemma syn_heap_eq {A B} (f : st heap A) (g : A → st (syn_world (Bytes := Bytes)) B) h tr ps :
  (x ← syn_heap A f; g x) (mkSynWorld h tr ps)
  = match f h with Ret (x, h') => g x (mkSynWorld h' tr ps) | Panic => Panic end.
Proof. unfold mbind, st_bind, syn_heap. cbn [sw_heap sw_tracker sw_patches]. by destruct (f h) as [[]|]. Qed.

Lemma status_queues_alone mt qs : ∀ ps (w : syn_world (Bytes := Bytes)) base, sw_patches w = base ++ ps →
  yield_all qs (status_body json_Marshal (Some mt)) w
  = match run_client (status_queues json_Marshal mt qs ps CReturn) (sw_heap w) with
    | Ret (ps', h') => Ret (tt, mkSynWorld h' (sw_tracker w) (base ++ ps'))
    | Panic => Panic
    end.
Proof.
  induction qs as [|q qs IH]; intros ps [h tr patches] base Hps; simpl in Hps; subst patches; [done|].
  cbn [yield_all status_queues sw_heap sw_tracker]. rewrite st_bind_eq. unfold status_body at 1.
  rewrite syn_heap_eq, run_call, st_bind_eq. cbn [seq_call].
  destruct (Queue_Quota (Some q) h) as [[quota h1]|]; [|done].
  rewrite syn_heap_eq, run_call, !st_bind_eq. cbn [seq_call]. rewrite st_bind_eq.
  destruct (Quota_Max quota h1) as [[mx h2]|]; [|done].
  rewrite syn_heap_eq, !load_res_eq, st_bind_eq. unfold st_lift. rewrite TakeMinExisting_ret.
  rewrite syn_heap_eq, run_call, st_bind_eq. cbn [seq_call].
  destruct (Queue_Quota (Some q) h2) as [[quota' h3]|]; [|done].
  rewrite syn_heap_eq, run_call, !st_bind_eq. cbn [seq_call]. rewrite st_bind_eq.
  destruct (Quota_Used quota' h3) as [[us h4]|]; [|done].
  rewrite syn_heap_eq, !load_res_eq. cbv zeta.
  destruct (json_Marshal _) as [data|err].
  - rewrite syn_heap_eq, run_call, st_bind_eq. cbn [seq_call].
    destruct (Queue_Name (Some q) h4) as [[name h5]|]; [|done].
    unfold Patch, st_modify. rewrite st_bind_eq. cbn [sw_heap sw_tracker sw_patches mret st_ret negb].
    rewrite (IH (ps ++ [(name, data)]) _ base); [done|]. cbn [sw_patches]. by rewrite <- app_assoc.
  - cbn [mret st_ret negb]. by rewrite (IH ps _ base).
Qed.

(** One turn of the status goroutine is one tick of the loop. *)
Lemma status_tick_alone m mt (w : syn_world (Bytes := Bytes)) : total (sw_tracker w) = Some mt →
  statusUpdate json_Marshal m w
  = match run_client (status_tick json_Marshal m mt CReturn) (sw_heap w) with
    | Ret (ps, h') => Ret (tt, mkSynWorld h' (sw_tracker w) (sw_patches w ++ ps))
    | Panic => Panic
    end.
Proof.
  destruct w as [h tr patches]. cbn [sw_heap sw_tracker sw_patches]. intros Ht.
  assert (syn_tracker ClusterResourceTracker_GetTotal (mkSynWorld h tr patches)
    = Ret (Some mt, mkSynWorld h tr patches)) as Htot.
  { unfold syn_tracker, ClusterResourceTracker_GetTotal, NodeAggregator_GetTotal. cbn [sw_heap sw_tracker sw_patches].
    rewrite st_bind_eq. cbn [st_get]. by rewrite Ht, Resources_Clone_eq. }
  unfold statusUpdate. rewrite st_bind_eq, Htot. clear Htot. unfold Manager_QueueIter, status_tick, status_rest.
  rewrite syn_heap_eq, run_call, st_bind_eq. cbn [seq_call].
  destruct (Manager_Clone m h) as [[c h1]|]; [|done].
  rewrite syn_heap_eq, run_call, !st_bind_eq. cbn [seq_call]. rewrite st_bind_eq.
  destruct (load_mgr c h1) as [[M h2]|]; [|done].
  apply (status_queues_alone mt _ [] (mkSynWorld h2 tr patches)). cbn [sw_patches]. by rewrite app_nil_r.
Qed.

(** What follows gets the patches. *)
Lemma status_tick_bind {A} m mt (k : _ → client A) h :
  run_client (status_tick json_Marshal m mt k) h
  = (ps ← run_client (status_tick json_Marshal m mt CReturn); run_client (k ps)) h.
Proof.
  unfold status_tick. rewrite run_call, run_call_bind. apply st_bind_ext; [done|]. clear h. intros c h.
  unfold status_rest. rewrite run_call, run_call_bind. apply st_bind_ext; [done|]. clear h. intros qs.
  assert (∀ ps h, run_client (status_queues json_Marshal mt qs ps k) h
    = (ps ← run_client (status_queues json_Marshal mt qs ps CReturn); run_client (k ps)) h) as Hqs; [|by apply Hqs].
  induction qs as [|q qs IH]; intros ps h; [done|]. cbn [status_queues].
  rewrite run_call, run_call_bind. apply st_bind_ext; [done|]. clear h. intros t1 h.
  rewrite run_call, run_call_bind. apply st_bind_ext; [done|]. clear h. intros mx h.
  rewrite run_call, run_call_bind. apply st_bind_ext; [done|]. clear h. intros t2 h.
  rewrite run_call, run_call_bind. apply st_bind_ext; [done|]. clear h. intros us h. cbv zeta.
  destruct (json_Marshal _); [|by apply IH].
  rewrite run_call, run_call_bind. apply st_bind_ext; [done|]. clear h. intros nm h. by apply IH.
Qed.

(** The ticks of the loop, each with the total of its moment. *)
Definition set_total (mt : gmap ResourceName Quantity) : st (syn_world (Bytes := Bytes)) unit :=
  syn_tracker (st_modify (λ na, mkAggregator (nodeIDs na) (Some mt) (getNodeRes na))).

Definition status_ticks m (totals : list (gmap ResourceName Quantity)) : st (syn_world (Bytes := Bytes)) unit :=
  st_for totals (λ mt, set_total mt;; statusUpdate json_Marshal m).

Lemma status_loop_alone {A} (f : list (string * Bytes) → A) m totals : ∀ base ps h tr,
  match run_client (statusUpdateLoop json_Marshal m totals ps (λ ps, CReturn (f ps))) h with
  | Ret (a, h') => ∃ ps' tr', a = f ps' ∧ status_ticks m totals (mkSynWorld h tr (base ++ ps)) = Ret (tt, mkSynWorld h' tr' (base ++ ps'))
  | Panic => status_ticks m totals (mkSynWorld h tr (base ++ ps)) = Panic
  end.
Proof.
  induction totals as [|mt totals IH]; intros base ps h tr; [by exists ps, tr|].
  set (tr1 := mkAggregator (nodeIDs tr) (Some mt) (getNodeRes tr)).
  assert (status_ticks m (mt :: totals) (mkSynWorld h tr (base ++ ps))
    = (_ ← statusUpdate json_Marshal m; status_ticks m totals) (mkSynWorld h tr1 (base ++ ps))) as ->.
  { unfold status_ticks. cbn [st_for]. by rewrite <- st_assoc. }
  rewrite st_bind_eq, (status_tick_alone m mt) by done. cbn [statusUpdateLoop sw_heap sw_tracker sw_patches].
  rewrite status_tick_bind, st_bind_eq.
  destruct (run_client _ h) as [[ps1 h1]|]; [|done]. rewrite <- app_assoc. apply IH.
Qed.
End status.

(** *** The scheduler *)
Lemma count_nominated_alone {A} c podQ pod nom (k : client A) h :
  run_client (count_nominated c podQ pod nom k) h = (PreFilter_nominated c podQ pod nom;; run_client k) h.
Proof.
  unfold count_nominated, PreFilter_nominated. do 2 (case_match; [done|]).
  rewrite run_call, !st_bind_eq. cbn [seq_call]. destruct (Manager_Get _ _ _) as [[[nomQ|] h1]|]; [|done|done].
  rewrite run_call, !st_bind_eq. cbn [seq_call]. destruct (Queue_Name _ h1) as [[n1 h2]|]; [|done].
  rewrite run_call, !st_bind_eq. cbn [seq_call]. destruct (Queue_Name _ h2) as [[n2 h3]|]; [|done].
  case_match; [done|]. rewrite run_call, !st_bind_eq. cbn [seq_call]. by destruct (Queue_Quota _ h3) as [[t h4]|].
Qed.

Lemma count_nodes_alone {A} c podQ pod nodes (k : client A) : ∀ h,
  run_client (count_nodes c podQ pod nodes k) h = (PreFilter_count c podQ pod nodes;; run_client k) h.
Proof.
  unfold count_nodes, PreFilter_count. induction nodes as [|node nodes IH]; intros h; [done|]. cbn [foldr st_for].
  rewrite <- st_assoc.
  transitivity ((st_for (NominatedPodsForNode (node_Name (NodeInfo_Node node))) (PreFilter_nominated c podQ pod);;
    run_client (foldr (λ node k, foldr (count_nominated c podQ pod) k (NominatedPodsForNode (node_Name (NodeInfo_Node node)))) k nodes)) h);
    [|by apply st_bind_ext].
  clear IH. revert h. induction (NominatedPodsForNode _) as [|nom noms IHn]; intros h; [done|]. cbn [foldr st_for].
  rewrite count_nominated_alone, <- st_assoc. by apply st_bind_ext.
Qed.

Lemma count_nodes_bind {A B} c podQ pod nodes (k : client A) (g : A → st heap B) h :
  (x ← run_client (count_nodes c podQ pod nodes k); g x) h = (PreFilter_count c podQ pod nodes;; x ← run_client k; g x) h.
Proof. rewrite st_bind_eq, count_nodes_alone, <- st_bind_eq. symmetry. apply st_assoc. Qed.

Lemma admission_alone {A} pod c (k : _ → client A) h :
  run_client (admission pod c k) h = (d ← run_client (admission pod c CReturn); run_client (k d)) h.
Proof.
  unfold admission. rewrite run_call, run_call_bind. apply st_bind_ext; [done|]. clear h. intros [ql|] h; [|done].
  destruct NodeInfos_List as [nodes|]; [|done]. rewrite count_nodes_alone.
  rewrite count_nodes_bind. apply st_bind_ext; [done|]. clear h. intros _ h.
  rewrite run_call, run_call_bind. apply st_bind_ext; [done|]. clear h. intros t h.
  rewrite run_call, run_call_bind. apply st_bind_ext; [done|]. by intros [] h'.
Qed.

(** The decision, then the message. *)
Lemma body_alone pod c h :
  PreFilter_body c pod h = (d ← run_client (admission pod c CReturn); run_client (prefilter_decide pod CReturn d)) h.
Proof.
  rewrite <- admission_alone. unfold PreFilter_body, admission. cbv zeta. rewrite run_call.
  apply st_bind_ext; [done|]. clear h. intros [ql|] h; [|done]. destruct NodeInfos_List as [nodes|]; [|done].
  rewrite count_nodes_alone. apply st_bind_ext; [done|]. clear h. intros _ h.
  rewrite run_call. apply st_bind_ext; [done|]. clear h. intros t h.
  rewrite run_call. apply st_bind_ext; [done|]. by intros [] h'.
Qed.

Lemma prefilter_alone {A} m pod (k : _ → _ → client A) h :
  run_client (prefilter m pod k) h = (c ← Manager_Clone m; s ← PreFilter_body c pod; run_client (k c s)) h.
Proof.
  unfold prefilter. rewrite run_call. cbn [seq_call]. apply st_bind_ext; [done|]. clear h. intros c h.
  unfold prefilter_rest. rewrite admission_alone.
  symmetry. rewrite st_bind_eq, body_alone, <- st_bind_eq, <- st_assoc. symmetry. apply st_bind_ext; [done|]. clear h. intros [s|[podQ quota]] h; [done|].
  cbn [prefilter_decide]. unfold unschedulable. rewrite run_call, run_call_bind. apply st_bind_ext; [done|]. clear h. intros nm h.
  rewrite run_call, run_call_bind. by apply st_bind_ext.
Qed.

Section calls.
Context {O : Type} {C : CycleStateOps (StateData O)} {CL : CycleStateLaws (StateData O)}.
Variable fmt_state : StateData O → string.
Variable plugin : Plugin.
Implicit Types (w : world (C := C)).

(** [Clone] of the cycle state, as far as the plugin's entry goes. *)
Definition clone_state : st world unit :=
  w ← st_get;
  match ReadQueueSnapshot fmt_state (w_state w) with
  | inl s =>
      s' ← on_heap (QueueSnapshotState_Clone s);
      st_modify (λ w, mkWorld (w_heap w) (WriteQueueSnapshot (w_state w) s'))
  | inr _ => mret tt
  end.

Definition plugin_step (c : plugin_call) : st world (list Status) :=
  match c with
  | CallPreFilter pod => status ← PreFilter plugin pod; mret [status]
  | CallAddPod pod podInfo nodeInfo => _ ← Plugin_AddPod fmt_state pod podInfo nodeInfo; mret []
  | CallRemovePod pod podInfo nodeInfo => _ ← Plugin_RemovePod fmt_state pod podInfo nodeInfo; mret []
  | CallCloneState => clone_state;; mret []
  | CallReserve pod nodeName => status ← Reserve plugin pod nodeName; mret [status]
  | CallUnreserve pod nodeName => Unreserve plugin pod nodeName;; mret []
  end.

(** The plugin's methods, called one after the other. *)
Fixpoint plugin_run (calls : list plugin_call) (statuses : list Status) : st world (list Status) :=
  match calls with
  | [] => mret statuses
  | c :: calls => ss ← plugin_step c; plugin_run calls (statuses ++ ss)
  end.

Definition snap_of (s : CycleState) : option loc :=
  match ReadQueueSnapshot fmt_state s with inl s => Some (QueueMgr s) | inr _ => None end.

(** The results agree, and so do the heaps. *)
Definition same_run {A B} (f : A → B) (r : outcome (B * heap)) (r' : outcome (A * world (C := C))) : Prop :=
  match r, r' with
  | Ret (b, h), Ret (a, w) => b = f a ∧ h = w_heap w
  | Panic, Panic => True
  | _, _ => False
  end.

Lemma on_heap_eq {A B} (f : st heap A) (g : A → st world B) h s :
  (x ← on_heap f; g x) (mkWorld h s) = match f h with Ret (x, h') => g x (mkWorld h' s) | Panic => Panic end.
Proof. unfold mbind, st_bind, on_heap. cbn [w_heap w_state]. by destruct (f h) as [[]|]. Qed.

Lemma snap_of_write s c : snap_of (WriteQueueSnapshot s (mkSnapshot c)) = Some c.
Proof. unfold snap_of. by rewrite ReadQueueSnapshot_write. Qed.

Lemma PreFilter_eq pod h s :
  PreFilter plugin pod (mkWorld h s)
  = match (c ← Manager_Clone (plugin_queueMgr plugin); status ← PreFilter_body c pod; mret (c, status)) h with
    | Ret ((c, status), h') => Ret (status, mkWorld h' (WriteQueueSnapshot s (mkSnapshot c)))
    | Panic => Panic
    end.
Proof.
  unfold PreFilter, NewQueueSnapshotState. rewrite on_heap_eq, !st_bind_eq.
  destruct (Manager_Clone _ h) as [[c h1]|]; [|done]. cbn [mret st_ret QueueMgr]. rewrite on_heap_eq, st_bind_eq.
  by destruct (PreFilter_body c pod h1) as [[st h2]|].
Qed.

(** [AddPod] and [RemovePod], without their statuses. *)
Lemma on_snapshot_eq {X} (f : loc → st heap X) (e : go_error → Status) (st : Status) h s :
  (_ ← (w ← st_get;
        match ReadQueueSnapshot fmt_state (w_state w) with
        | inr err => mret (e err)
        | inl sn => on_heap (f (QueueMgr sn));; mret st
        end); mret []) (mkWorld h s)
  = match snap_of s with
    | Some c => match f c h with Ret (_, h') => Ret ([] : list Status, mkWorld h' s) | Panic => Panic end
    | None => Ret ([], mkWorld h s)
    end.
Proof.
  unfold snap_of. rewrite !st_bind_eq. cbn [st_get w_state]. destruct (ReadQueueSnapshot fmt_state s) as [sn|]; [|done].
  rewrite on_heap_eq. by destruct (f _ h) as [[x h1]|].
Qed.

(** The scheduler's goroutine does what the plugin's methods do. *)
Lemma scheduler_alone {B} (f : list Status → B) calls : ∀ statuses h s,
  same_run f (run_client (scheduler (plugin_queueMgr plugin) (snap_of s) calls statuses (λ ss, CReturn (f ss))) h)
    (plugin_run calls statuses (mkWorld h s)).
Proof.
  induction calls as [|call calls IH]; intros ss h s; [done|]. cbn [plugin_run scheduler]. rewrite st_bind_eq.
  assert (∀ h, same_run f (run_client (scheduler (plugin_queueMgr plugin) (snap_of s) calls ss (λ ss, CReturn (f ss))) h)
    (plugin_run calls (ss ++ []) (mkWorld h s))) as Hsame by (intros h'; rewrite app_nil_r; apply IH).
  destruct call as [pod|pod pi ni|pod pi ni| |pod n|pod n]; cbn [plugin_step].
  - rewrite prefilter_alone, !st_bind_eq, PreFilter_eq, st_bind_eq.
    destruct (Manager_Clone _ h) as [[c h1]|]; [|done]. rewrite !st_bind_eq.
    destruct (PreFilter_body c pod h1) as [[st h2]|]; [|done]. cbn [mret st_ret]. rewrite <- (snap_of_write s c). apply IH.
  - unfold Plugin_AddPod. rewrite (on_snapshot_eq (λ c, Manager_AddPodIfNotPresent c _)).
    destruct (snap_of s) as [c|] eqn:Hs; [|apply Hsame]. rewrite run_call, st_bind_eq. cbn [seq_call].
    destruct (Manager_AddPodIfNotPresent _ _ h) as [[e h1]|]; [|done]. apply Hsame.
  - unfold Plugin_RemovePod. rewrite (on_snapshot_eq (λ c, Manager_DeletePodIfPresent c _)).
    destruct (snap_of s) as [c|] eqn:Hs; [|apply Hsame]. rewrite run_call, st_bind_eq. cbn [seq_call].
    destruct (Manager_DeletePodIfPresent _ _ h) as [[e h1]|]; [|done]. apply Hsame.
  - unfold clone_state. rewrite !st_bind_eq. cbn [st_get w_state]. unfold snap_of in Hsame |- *.
    destruct (ReadQueueSnapshot fmt_state s) as [sn|]; [|apply Hsame].
    rewrite on_heap_eq. unfold QueueSnapshotState_Clone. rewrite run_call, !st_bind_eq. cbn [seq_call].
    destruct (Manager_Clone _ h) as [[c h1]|]; [|done]. cbn [mret st_ret st_modify w_heap w_state].
    rewrite app_nil_r, <- (snap_of_write s c). apply IH.
  - unfold Reserve. rewrite run_call, <- st_assoc, on_heap_eq, st_bind_eq. cbn [seq_call].
    destruct (Manager_AddPodIfNotPresent _ _ h) as [[e h1]|]; [|done]. destruct e; apply IH.
  - unfold Unreserve. rewrite run_call, <- st_assoc, on_heap_eq, st_bind_eq. cbn [seq_call].
    destruct (Manager_DeletePodIfPresent _ _ h) as [[e h1]|]; [|done]. apply Hsame.
Qed.
End calls.
End alone.

