(* ===== verification/System.v ===== *)
(** * System: the program's goroutines together

    Any number of informers, status loops, scheduling goroutines and dry runs work
    on one queue manager, in any interleaving of their steps: they neither crash
    nor race nor get stuck, and each status report, admission decision and
    dry run is the one that the sequential code gives for a snapshot, whose used
    amounts are accounted for where the pods' requests are fixed. *)

From stdpp Require Import base tactics option list gmap strings sorting relations.
From Stdlib Require Import ZArith Lia.
From S2P Require Import Prelude.
From S2P Require Import External.
From S2P Require Import Concrete.
From S2P Require Import Resources.
From S2P Require Import Api.
From S2P Require Import Pods.
From S2P Require Import Match.
From S2P Require Import PdbEval.
From S2P Require Import Store.
From S2P Require Import StoreFacts.
From S2P Require Import Quota.
From S2P Require Import Queue.
From S2P Require Import Manager.
From S2P Require Import QueueFacts.
From S2P Require Import ManagerFacts.
From S2P Require Import ManagerProps.
From S2P Require Import State.
From S2P Require Import Plugin.
From S2P Require Import PluginFacts.
From S2P Require Import Preemptor.
From S2P Require Import Evaluator.
From S2P Require Import VictimSelection.
From S2P Require Import VictimProps.
From S2P Require Import Aggregator.
From S2P Require Import Synchronizer.
From S2P Require Import Threads.
From S2P Require Import ThreadFacts.
From S2P Require Import Locking.
From S2P Require Import LockingFacts.
From S2P Require Import LockSafety.
From S2P Require Import LockMethods.
From S2P Require Import ConcurrencyProps.
From S2P Require Import Regions.
From S2P Require Import Snapshots.
From S2P Require Import Isolation.
From S2P Require Import Observers.
From S2P Require Import Frozen.
From S2P Require Import DryRuns.
From S2P Require Import Callers.

(** ** The goroutines and the code *)
Section sequential.
Context {T : ApiTypes} {Q : QuantityOps} {P : PodOps} {L : SelectorOps} {QL : QuantityLaws} {F : FrameworkOps}.
Context {I : ImmutMap} {SS : SliceSort} {H : HandleOps}.
Context {O : Type} {C : CycleStateOps (StateData O)} {CL : CycleStateLaws (StateData O)} {Bytes : Type}.
Context {RO : RunOps} {RP : RunPrograms} {RA : RunAlone}.
Variable json_Marshal : QueueObj → Bytes + go_error.
Variable fmt_state : StateData O → string.

(** The two models of the callers agree: run alone, the goroutines are the
    sequential definitions, results, heaps and panics alike: an informer's goroutine is the event handlers one after the
    other, the status goroutine is the loop's ticks with the patches that they send,
    a scheduling goroutine is the plugin's methods on the cycle state, with
    the statuses that [PreFilter] and [Reserve] return. *)
Lemma callers_sequential m plugin :
  (∀ evs h,
    run_client (program json_Marshal fmt_state m (Informer evs)) h = (st_for evs (handle m);; mret Handled) h)
  ∧ (∀ totals w,
      match run_client (program json_Marshal fmt_state m (StatusLoop totals)) (sw_heap w) with
      | Ret (a, h') => ∃ ps tr, a = Patched ps
          ∧ status_ticks json_Marshal m totals w = Ret (tt, mkSynWorld h' tr (sw_patches w ++ ps))
      | Panic => status_ticks json_Marshal m totals w = Panic
      end)
  ∧ (∀ calls h s, snap_of fmt_state s = None →
      same_run Scheduled (run_client (program json_Marshal fmt_state (plugin_queueMgr plugin) (Scheduler calls)) h)
        (plugin_run fmt_state plugin calls [] (mkWorld h s)))
  ∧ ∀ snap d h,
      run_client (program json_Marshal fmt_state m (DryRun snap d)) h
      = (r ← dry_code fmt_state (mkSnapshot snap) d; mret (Selected r)) h.
Proof.
  split_and!.
  - intros evs h. exact (informer_alone m evs (CReturn Handled) h).
  - intros totals [h tr patches]. cbn [sw_heap sw_patches].
    pose proof (status_loop_alone json_Marshal Patched m totals patches [] h tr) as Hs. by rewrite app_nil_r in Hs.
  - intros calls h s Hs. cbn [program]. rewrite <- Hs. apply scheduler_alone.
  - intros snap d h. cbn [program]. by rewrite dry_alone.
Qed.
End sequential.

(** ** Every interleaving *)
Section any_run.
Context {T : ApiTypes} {Q : QuantityOps} {P : PodOps} {L : SelectorOps} {QL : QuantityLaws} {F : FrameworkOps} {FL : FrameworkLaws}.
Context {I : ImmutMap} {SS : SliceSort} {LL : SelectorLaws} {SL : SliceSortLaws} {H : HandleOps}.
Context {O : Type} {C : CycleStateOps (StateData O)} {CL : CycleStateLaws (StateData O)} {RO : RunOps} {RP : RunPrograms}.
Context {Bytes : Type}.
Variable json_Marshal : QueueObj → Bytes + go_error.
Variable req : requests.
Context {fmt_state : StateData O → string}.
Context {RW : RunOwned (fmt_state := fmt_state)} {RK : RunKnown (fmt_state := fmt_state) req}.
Implicit Types (h : heap) (m : loc) (V : ManagerV) (Z : region).

(** *** What the goroutines do with their clones *)
Lemma status_queues_prefix {A} Z total qs : ∀ ps (k : _ → client A), (∀ q, q ∈ qs → Z (KQueue q)) →
  prefix Z k (status_queues json_Marshal total qs ps k) (status_queues json_Marshal total qs ps CReturn).
Proof.
  induction qs as [|q qs IH]; intros ps k Hqs; cbn [status_queues]; [apply (prefix_done Z k ps)|].
  assert (ptr_in Z KQueue (Some q)) as Hq by (intros ? [= <-]; apply Hqs; by left).
  assert (∀ q, q ∈ qs → Z (KQueue q)) as Hqs' by (intros q' Hin; apply Hqs; by right).
  constructor; [done|by intros []|]. intros t1 Ht1. constructor; [done|by intros []|]. intros mx _.
  constructor; [done|by intros []|]. intros t2 Ht2. constructor; [done|by intros []|]. intros us _. cbv zeta.
  destruct (json_Marshal _); [|by apply IH]. constructor; [done|by intros []|]. intros nm _. by apply IH.
Qed.

Lemma status_rest_prefix {A} Z total (k : _ → client A) c : Z (KMgr c) →
  prefix Z k (status_rest json_Marshal total k c) (status_rest json_Marshal total CReturn c).
Proof. intros Hc. constructor; [done|by intros []|]. intros qs Hqs. by apply status_queues_prefix. Qed.

Lemma count_nodes_prefix {A B} Z c podQ pod nodes (f : B → client A) k k' :
  Z (KMgr c) → ptr_in Z KQueue podQ → prefix Z f k k' →
  prefix Z f (count_nodes c podQ pod nodes k) (count_nodes c podQ pod nodes k').
Proof.
  intros Hc Hq Hk. unfold count_nodes. induction nodes as [|node nodes IH]; cbn [foldr]; [done|].
  induction (NominatedPodsForNode _) as [|nom noms IHn]; cbn [foldr]; [exact IH|].
  unfold count_nominated. do 2 (case_match; [exact IHn|]).
  constructor; [done|by intros []|]. intros nomQ HnomQ. destruct nomQ; [|exact IHn].
  constructor; [done|by intros []|]. intros n1 _. constructor; [done|by intros []|]. intros n2 _. case_match; [exact IHn|].
  constructor; [done|by intros []|]. intros t Ht. constructor; [done|by intros []|]. intros _ _. exact IHn.
Qed.

Lemma admission_prefix {A} Z pod c (k : _ → client A) : Z (KMgr c) → prefix Z k (admission pod c k) (admission pod c CReturn).
Proof.
  intros Hc. constructor; [done|by intros []|]. intros podQ Hq. destruct podQ as [ql|]; [|apply prefix_done].
  destruct NodeInfos_List as [nodes|err]; [|apply (prefix_done Z k (inl _))]. apply count_nodes_prefix; [done|done|].
  constructor; [done|by intros []|]. intros t Ht. constructor; [done|by intros []|]. intros [] _; apply prefix_done.
Qed.

(** *** What they compute from them *)

(** A status report that is right for an accounted snapshot, of which [R] holds. *)
Definition right_report (R : ManagerV → Prop) (total : gmap ResourceName Quantity) (ps : list (string * Bytes)) : Prop :=
  ∃ V, R V ∧ accounts req V ∧ NoDup ps.*1
    ∧ ∀ n data, (n, data) ∈ ps ↔ ∃ v, V !! n = Some v ∧ json_Marshal (status_of (Some total) v) = inl data.

Lemma status_rest_alone (R : ManagerV → Prop) mt c h V ps h' :
  wf h → view_mgr h c = Some V → R V → accounts req V →
  run_client (status_rest json_Marshal mt CReturn c) h = Ret (ps, h') → right_report R mt ps.
Proof.
  intros Hwf HV HR HVa. destruct (view_mgr_mgr h c V HV) as [M HM]. unfold status_rest. rewrite run_call. cbn [seq_call].
  rewrite <- st_assoc, st_bind_eq. unfold load_mgr. rewrite st_bind_eq. cbn [st_get]. rewrite HM. cbn [st_some mret st_ret].
  rewrite st_bind_eq. cbn [mret st_ret]. intros Hrun.
  assert (∀ n ql, queueByName M !! n = Some ql → ∃ v, view_queue h ql = Some v ∧ v_name v = n) as HC.
  { intros n ql Hn. pose proof (view_mgr_lookup h c M V n Hwf HM HV) as Hl. rewrite Hn in Hl.
    destruct Hl as (v & _ & Hv & Hname). by exists v. }
  assert (∀ ql, ql ∈ (map_to_list (queueByName M)).*2 → is_Some (view_queue h ql)) as Hqs.
  { intros ql ([n ql'] & -> & Hin%elem_of_map_to_list)%list_elem_of_fmap. destruct (HC n ql' Hin) as (v & Hv & _). by exists v. }
  set (w := mkSynWorld h (mkAggregator ∅ (Some mt) node_Allocatable) ([] : list (string * Bytes))).
  pose proof (status_loop json_Marshal mt (view_queue h) _ w (λ ql Hql, conj (Hqs ql Hql) eq_refl)) as Hloop.
  unfold wp in Hloop. rewrite (status_queues_alone json_Marshal mt _ [] w [] eq_refl) in Hloop. cbn [sw_heap w] in Hloop.
  rewrite Hrun in Hloop. injection Hloop as _ Hps. cbn [app sw_patches w] in Hps. subst ps.
  exists V. split; [done|]. split; [done|]. apply view_mgr_Some in HV as (M' & HM' & ->). rewrite HM in HM'. injection HM' as <-.
  apply patches_names, HC.
Qed.

Lemma prefilter_status_msg pod V msg msg' :
  prefilter_status pod V (NewStatus Unschedulable [msg]) → prefilter_status pod V (NewStatus Unschedulable [msg']).
Proof.
  unfold prefilter_status. destruct (mgrV_get V _), NodeInfos_List;
    try (intros Hs%(f_equal Status_Code); rewrite !status_new_code in Hs; discriminate Hs).
  case_match; [by eexists|]. intros Hs%(f_equal Status_Code). rewrite !status_new_code in Hs. discriminate Hs.
Qed.

(** The status that follows a decision, whatever the message. *)
Lemma admission_status pod c h V d h' :
  wf h → view_mgr h c = Some V → run_client (admission pod c CReturn) h = Ret (d, h') →
  ∀ (R : Status → Prop), (∀ s, prefilter_status pod V s → R s) → returns R (prefilter_decide pod CReturn d).
Proof.
  intros Hwf HV Hd R HR. pose proof (PreFilter_body_spec h c V pod Hwf HV) as Hb. unfold wp in Hb.
  rewrite body_alone, st_bind_eq, Hd in Hb. destruct d as [s|[podQ quota]]; cbn [prefilter_decide returns run_client mret st_ret] in *.
  { apply HR, Hb. }
  unfold unschedulable in *. intros nm str. apply HR. rewrite run_call, st_bind_eq in Hb.
  destruct (seq_call _ h') as [[nm' h2]|]; [|done]. rewrite run_call, st_bind_eq in Hb.
  destruct (seq_call _ h2) as [[str' h3]|]; [|done]. destruct Hb as (_ & _ & _ & Hs). by eapply prefilter_status_msg.
Qed.

(** *** In a run *)
Lemma programs_ok h m (callers : list caller) :
  nominated_ok req → Forall (managers_there h m) callers → Forall (caller_ok req) callers →
  ∀ p, p ∈ program json_Marshal fmt_state m <$> callers → client_ok req p h ∧ uses h p ∧ (locked_only p ∨ observer h p).
Proof.
  intros Hnom Hm Hcs p (c & -> & Hc)%list_elem_of_fmap.
  eapply Forall_forall in Hm, Hcs; [|done..]. split_and!; [|by apply program_uses|by apply program_reads]. by apply program_ok.
Qed.

(** The goroutine of the status loop, from any moment on between two ticks. *)
Lemma status_loop_run Z j m h (progs : list (client report)) totals c2 t a :
  heap_inv req h → (∀ p, p ∈ progs → client_ok req p h) → ¬ Z (KMgr m) →
  c2.2 !! j = Some t → code t = Done a → ∀ ps c,
  rtc cstep (start h progs) c → isolated Z j c →
  at_program j (statusUpdateLoop json_Marshal m totals ps (λ ps, CReturn (Patched ps))) c →
  rtc (zstep Z j) c c2 →
  ∃ pss, a = Patched (ps ++ concat pss)
    ∧ Forall2 (right_report (seen_manager (moment (start h progs) c2) m)) totals pss.
Proof.
  intros Hi Hps Hm Ht Ha. induction totals as [|mt totals IH]; intros ps c Hr Hiso Hat Hz.
  { exists []. split; [|done]. simpl. rewrite app_nil_r. symmetry.
    refine (ends_run (eq (Patched ps)) j (CReturn (Patched ps)) c c2 t a eq_refl Hat _ Ht Ha). by eapply zsteps_run. }
  cbn [statusUpdateLoop] in Hat. unfold status_tick in Hat.
  destruct (clone_then_alone req Z j m _ (λ _ ps', statusUpdateLoop json_Marshal m totals (ps ++ ps') (λ ps, CReturn (Patched ps)))
    (status_rest json_Marshal mt CReturn) h progs c c2 Hi Hps Hr Hiso Hat Hm)
    as (c1 & mc & h1 & V & ps1 & h2 & Hz1 & Hr1 & Hwf1 & HV & Hseen & HVa & Hrun & Hiso1 & Hat1 & _).
  { intros mc Hmc. by apply status_rest_prefix. }
  { done. }
  { by exists t, a. }
  destruct (IH _ c1 Hr1 Hiso1 Hat1 Hz1) as (pss & -> & Hpss). exists (ps1 :: pss). split.
  - cbn [concat]. by rewrite <- app_assoc.
  - constructor; [|done]. by eapply status_rest_alone.
Qed.

(** The manager of the start is not among the objects that a goroutine makes. *)
Lemma old_manager Z h m m' (callers : list caller) j c :
  (∀ x, Z x → get h x = None) → Forall (managers_there h m) callers → callers !! j = Some c →
  m' = m ∨ (∃ d, c = DryRun m' d) → ¬ Z (KMgr m').
Proof.
  intros HZ Hth Hj Hm' Hin. eapply Forall_lookup_1 in Hth as [Hm Hs]; [|exact Hj].
  assert (is_Some (h_mgr h !! m')) as [M HM] by (destruct Hm' as [-> |[d ->]]; done).
  specialize (HZ _ Hin). simpl in HZ. by rewrite HM in HZ.
Qed.

(** C6: the program's goroutines together.  Any number of informers, status loops,
    scheduling goroutines and dry runs work on one manager, in any
    interleaving of their steps: none of them crashes, no two race, the heap
    stays well-formed, no schedule is infinite, and from every moment on all of
    them can be brought to their ends.  The conditions: the informers' queue
    notifications carry queues (the tombstone of a missed deletion makes the
    handler panic), the managers that the goroutines are given exist, and no
    disruption budget leaves [int32] in a dry run.  Pods may be resized in
    place; only where nobody resizes any ([req] fixes the requests of each UID,
    in the notifications, the plugin's calls, the nominations and the nodes) does
    it also follow that every manager's used amounts are, at every moment, the
    sum of the requests of its recorded pods. *)
Theorem system_safe h m (callers : list caller) h1 ts1 :
  heap_inv req h → Forall (managers_there h m) callers → nominated_ok req → Forall (caller_ok req) callers →
  rtc cstep (start h (program json_Marshal fmt_state m <$> callers)) (h1, ts1) →
  (∀ t, t ∈ ts1 → ¬ crashes h1 t) ∧ ¬ races ts1
  ∧ wf h1 ∧ (∀ m' V, view_mgr h1 m' = Some V → accounts req V)
  ∧ Acc (flip cstep) (h1, ts1) ∧ (finished (h1, ts1) ∨ ∃ c, cstep (h1, ts1) c)
  ∧ ∃ c, rtc cstep (h1, ts1) c ∧ finished c.
Proof.
  intros Hi Hm Hnom Hcs Hr. pose proof (programs_ok h m callers Hnom Hm Hcs) as Hps.
  assert (∀ p, p ∈ program json_Marshal fmt_state m <$> callers → client_ok req p h) as Hok by (intros p Hp; apply (Hps p Hp)).
  pose proof (reached_inv req h _ h1 ts1 Hi Hok Hr) as Hi1. split_and!.
  - intros t. by apply (reached_no_crash req h (program json_Marshal fmt_state m <$> callers)).
  - by apply (observers_do_not_race req h (program json_Marshal fmt_state m <$> callers) h1).
  - apply Hi1.
  - intros m' V. by apply heap_inv_ok.
  - apply schedules_terminate.
  - by apply (reached_progress req h (program json_Marshal fmt_state m <$> callers)).
  - by apply (reached_progress req h (program json_Marshal fmt_state m <$> callers)).
Qed.

(** C7: under the conditions of [system_safe], a status loop that runs beside
    informers, schedulers, dry runs and other status loops, in any interleaving,
    sends in each of its ticks, in order, exactly the reports of a snapshot of
    the manager: one patch per queue whose status can be marshalled, with the
    queue's used amounts and its effective maximum.  The snapshot's names are
    the manager's at a moment of the run, each queue shows the fields and the
    quota that it had at moments of the run, and its used amounts are, if
    requests are fixed, the sum of those of the pods recorded then. *)
Theorem status_reports_right h m (callers : list caller) j totals h1 ts1 t a :
  heap_inv req h → Forall (managers_there h m) callers → nominated_ok req → Forall (caller_ok req) callers →
  callers !! j = Some (StatusLoop totals) →
  rtc cstep (start h (program json_Marshal fmt_state m <$> callers)) (h1, ts1) → ts1 !! j = Some t → code t = Done a →
  ∃ pss, a = Patched (concat pss) ∧ Forall2 (λ total ps, ∃ V,
    seen_manager (moment (start h (program json_Marshal fmt_state m <$> callers)) (h1, ts1)) m V
    ∧ accounts req V ∧ NoDup ps.*1
    ∧ ∀ n data, (n, data) ∈ ps ↔ ∃ v, V !! n = Some v ∧ json_Marshal (status_of (Some total) v) = inl data) totals pss.
Proof.
  intros Hi Hm Hnom Hcs Hj Hr Ht Ha. pose proof (programs_ok h m callers Hnom Hm Hcs) as Hps.
  destruct (start_run req h (program json_Marshal fmt_state m <$> callers) j (program json_Marshal fmt_state m (StatusLoop totals)) (h1, ts1) Hi)
    as (Z & HZ & Hz & Hiso & Hn & Hat); [|by rewrite list_lookup_fmap, Hj|done|].
  { intros p Hp. destruct (Hps p Hp) as (? & ? & _). done. }
  apply (status_loop_run Z j m h _ totals (h1, ts1) t a Hi ltac:(intros p Hp; apply (Hps p Hp)) (old_manager Z h m m callers j _ HZ Hm Hj (or_introl eq_refl)) Ht Ha [] _
    (rtc_refl _ _) Hiso Hat Hz).
Qed.

(** C8: under the same conditions, a [PreFilter] that runs beside informers,
    status loops, dry runs and other scheduling goroutines, in any
    interleaving, decides as the sequential [PreFilter] does on a snapshot of
    the manager, whose queues show what the manager's were at moments of the
    run: it admits the pod exactly when the snapshot's queue, with the nominated
    pods counted in, has room for it. *)
Theorem PreFilter_admission_right h m (callers : list caller) j pod h1 ts1 t a :
  heap_inv req h → Forall (managers_there h m) callers → nominated_ok req → Forall (caller_ok req) callers →
  callers !! j = Some (Scheduler [CallPreFilter pod]) →
  rtc cstep (start h (program json_Marshal fmt_state m <$> callers)) (h1, ts1) → ts1 !! j = Some t → code t = Done a →
  ∃ V status, a = Scheduled [status]
    ∧ seen_manager (moment (start h (program json_Marshal fmt_state m <$> callers)) (h1, ts1)) m V
    ∧ accounts req V ∧ prefilter_status pod V status.
Proof.
  intros Hi Hm Hnom Hcs Hj Hr Ht Ha. pose proof (programs_ok h m callers Hnom Hm Hcs) as Hps.
  destruct (start_run req h (program json_Marshal fmt_state m <$> callers) j (program json_Marshal fmt_state m (Scheduler [CallPreFilter pod])) (h1, ts1) Hi)
    as (Z & HZ & Hz & Hiso & Hn & Hat); [|by rewrite list_lookup_fmap, Hj|done|].
  { intros p Hp. destruct (Hps p Hp) as (? & ? & _). done. }
  cbn [program scheduler app] in Hat. unfold prefilter in Hat.
  set (fin := λ status : Status, CReturn (Scheduled (Bytes := Bytes) [status])).
  destruct (clone_then_alone req Z j m (prefilter_rest pod (λ _, fin)) (λ _, prefilter_decide pod fin) (λ c, admission pod c CReturn)
    h (program json_Marshal fmt_state m <$> callers) _ (h1, ts1) Hi ltac:(intros p Hp; apply (Hps p Hp)) (rtc_refl _ _) Hiso Hat (old_manager Z h m m callers j _ HZ Hm Hj (or_introl eq_refl)))
    as (c1 & mc & h2 & V & d & h3 & Hz1 & _ & Hwf & HV & Hseen & HVa & Hrun & _ & Hat1 & _).
  { intros mc Hmc. by apply admission_prefix. }
  { done. }
  { by exists t, a. }
  assert (returns (λ a, ∃ status, a = Scheduled [status] ∧ prefilter_status pod V status) (prefilter_decide pod fin d)) as Hret.
  { pose proof (admission_status pod mc h2 V d h3 Hwf HV Hrun (prefilter_status pod V) (λ s Hs, Hs)) as Hs.
    destruct d as [s|[q tl]]; cbn [prefilter_decide returns] in *; [by exists s|]. intros nm str. eexists. split; [done|]. exact (Hs nm str). }
  destruct (ends_run _ j _ c1 (h1, ts1) t a Hret Hat1) as (status & -> & Hs); [by eapply zsteps_run|done|done|].
  by exists V, status.
Qed.
End any_run.

(** ** Dry runs, in every interleaving *)
Section dry_runs.
Context {T : ApiTypes} {Q : QuantityOps} {P : PodOps} {L : SelectorOps} {QL : QuantityLaws}.
Context {F : FrameworkOps} {FL : FrameworkLaws} {NL : NodeInfoLaws}.
Context {I : ImmutMap} {SS : SliceSort} {LL : SelectorLaws} {SL : SliceSortLaws} {H : HandleOps}.
Context {O : Type} {C : CycleStateOps (StateData O)} {CL : CycleStateLaws (StateData O)} {RO : RunOps} {RP : RunPrograms}.
Context {Bytes : Type}.
Variable json_Marshal : QueueObj → Bytes + go_error.
Variable req : requests.
Context {fmt_state : StateData O → string} {RL : RunLaws (fmt_state := fmt_state)}.
Context {RA : RunAlone} {RW : RunOwned (fmt_state := fmt_state)} {RK : RunKnown (fmt_state := fmt_state) req}.
Implicit Types (h : heap) (m : loc) (V : ManagerV) (W : region).

(** The snapshot's objects, which no other object of the heap refers to. *)
Record snapshot_region W h m snap : Prop := mkSnapshotRegion {
  sr_frozen : frozen W h;
  sr_snap : W (KMgr snap);
  sr_manager : ¬ W (KMgr m);
}.

(** C9: under the same conditions, the candidates of a preemption, tried at once,
    do not disturb each other.  Goroutines that simulate the preemption on
    their nodes, each on a clone of the cycle's snapshot that it takes meanwhile,
    run beside each other and beside informers, status loops and other
    scheduling goroutines, in any interleaving.  Each of them answers with the
    greedy selection on the value that the snapshot had at the start, and the
    snapshot still has that value at the end. *)
Theorem dry_runs_right h m (callers : list caller) W `{!∀ k, Decision (W k)} j snap d V h1 ts1 t a :
  heap_inv req h → Forall (managers_there h m) callers → nominated_ok req → Forall (caller_ok req) callers →
  snapshot_region W h m snap → view_mgr h snap = Some V → dry_ready (fmt_state := fmt_state) V d →
  callers !! j = Some (DryRun snap d) →
  rtc cstep (start h (program json_Marshal fmt_state m <$> callers)) (h1, ts1) → ts1 !! j = Some t → code t = Done a →
  (∃ r, a = Selected (Bytes := Bytes) r ∧ dry_selected (fmt_state := fmt_state) V d r) ∧ view_mgr h1 snap = Some V.
Proof.
  intros Hi Hm Hnom Hcs [Hfr Hsn Hmn] HV Hd Hj Hr Ht Ha.
  pose proof (programs_ok json_Marshal req h m callers Hnom Hm Hcs) as Hps.
  set (progs := program json_Marshal fmt_state m <$> callers) in *.
  assert (∀ h', moment (start h progs) (h1, ts1) h' → agree W h h') as Hstay.
  { intros h'. apply frozen_moments; [done|]. intros p (c & -> & _)%list_elem_of_fmap.
    apply (program_keeps_off json_Marshal); [done|]. intros s d' _. destruct (decide (W (KMgr s))); auto. }
  destruct (start_run req h progs j (program json_Marshal fmt_state m (DryRun snap d)) (h1, ts1) Hi)
    as (Z & HZ & Hz & Hiso & Hn & Hat); [|by unfold progs; rewrite list_lookup_fmap, Hj|done|].
  { intros p Hp. destruct (Hps p Hp) as (? & ? & _). done. }
  cbn [program] in Hat. unfold dry_program in Hat.
  set (fin := λ r : selection, CReturn (Selected (Bytes := Bytes) r)) in Hat.
  destruct (clone_then_alone req Z j snap (dry_rest fmt_state d fin) (λ _, select_finish fin)
    (λ c, select_decide fmt_state (dr_pod d) (dr_pdbs d) (dry_local d c) (λ r _, CReturn r))
    h progs _ (h1, ts1) Hi ltac:(intros p Hp; apply (Hps p Hp)) (rtc_refl _ _) Hiso Hat
    (old_manager Z h m snap callers j _ HZ Hm Hj (or_intror (ex_intro _ d eq_refl))))
    as (c1 & mc & h2 & V' & r & h3 & Hz1 & _ & Hwf & HV' & Hseen & _ & Hrun & _ & Hat1 & _).
  { intros mc Hmc. by apply dry_rest_prefix. }
  { done. }
  { by exists t, a. }
  pose proof (seen_frozen _ W h snap V' Hfr Hsn Hstay Hseen) as Hsame. rewrite HV in Hsame. injection Hsame as <-.
  split.
  - apply (ends_run _ j _ c1 (h1, ts1) t a (dry_answer V d mc h2 r h3 Selected Hwf HV' Hd Hrun) Hat1); [|done|done].
    by eapply zsteps_run.
  - apply (frozen_view W h); [done|done| |apply Hi|done]. apply Hstay. exists ts1. split; [done|apply rtc_refl].
Qed.
End dry_runs.

(** ** The properties at a concrete heap *)
Section witnesses.
#[local] Existing Instances c_api c_quantity c_quantity_laws c_pods c_pods_laws c_selector c_selector_laws
  c_framework c_framework_laws c_node_laws c_immut c_sort c_sort_laws.
#[local] Existing Instances x_cycle x_cycle_laws x_run x_laws.

(** The plugin is the only one with extension points. *)
#[local] Instance s_programs : RunPrograms := {|
  run_program A add s pod pi n k := extension x_fmt add s pi k;
|}.
#[local] Instance s_alone : RunAlone.
Proof. split; [intros; apply extension_alone|reflexivity]. Qed.
#[local] Instance s_owned : RunOwned (fmt_state := x_fmt).
Proof. split. intros A B Z J add s c pod pi n k k'. apply extension_both. Qed.
#[local] Instance s_known req : RunKnown (fmt_state := x_fmt) req.
Proof. split. intros A add s c pod pi n k h. apply extension_known. Qed.

(** One node, to which a pod of queue "q" with priority 7 is nominated. *)
Definition s_nom : @Pod c_api := c_pod "nom" "q" 7 [("cpu", 4%Z)].
#[local] Instance s_handle : HandleOps := {|
  NodeInfos_List := inl [((c_node "n1" [("cpu", 100%Z)], []) : @NodeInfo c_api c_framework)];
  NodeInfos_Get name := (None, Some (ErrNew "not found"));
  NominatedPodsForNode name := [s_nom : @PodInfo c_api c_framework];
  IsPodRunningPreemption u := false;
|}.

Definition s_plugin : Plugin := mkPlugin 1 true (mkArgs (mkArgsPreemptionConfig None)).

(** The live manager is at 1; at 2 is the clone that a [PreFilter] has left. *)
Definition s_heap : heap := match Manager_Clone 1 ex_heap_p with Ret (_, h) => h | Panic => empty_heap end.
Definition s_world : world := mkWorld s_heap (∅ : gmap string (StateData unit)).

Definition s_req (u : UID) (n : ResourceName) : Z :=
  qty (FromPodReq (Some (if bool_decide (u = "nom") then s_nom else if bool_decide (u = "v1") then x_v1
    else if bool_decide (u = "v2") then x_v2 else ex_pod))) n.

Definition s_marshal (q : QueueObj) : QueueObj + go_error := inl q.

(** Preemption on the node of file [VictimProps]. *)
Definition s_dry : dry_run := mkDryRun ex_pod [] x_node (∅ : gmap string (StateData unit)).

(** A pod is added while a status report is made, a pod is looked at for
    admission and two candidates are tried for victims. *)
Definition s_callers : list caller :=
  [Informer [EvAddPod (AnyPod ex_pod)]; StatusLoop [ex_m]; Scheduler [CallPreFilter ex_pod]; DryRun 2 s_dry; DryRun 2 s_dry].
Definition s_start : config heap lock (report (Bytes := QueueObj)) := start s_heap (program s_marshal x_fmt 1 <$> s_callers).
Definition s_end : config heap lock report := take_turns (mjoin (replicate 250 [0; 1; 3; 2; 4]%nat)) s_start.

Lemma s_wf : wf s_heap.
Proof.
  apply (reachable_ok s_req). eapply (reach_clone _ ex_heap_p 1%positive 2%positive);
    [apply ex_reachable_p|vm_compute; by eexists|vm_compute; reflexivity].
Qed.

Lemma s_inv : heap_inv (Some s_req) s_heap.
Proof.
  split; [apply s_wf|]. intros tl qo Hq.
  assert (∃ mx, view_quota s_heap qo = mkQuotaV mx gomap_make ∅) as [mx ->]; [|apply good_empty].
  apply elem_of_map_to_list in Hq. vm_compute in Hq.
  repeat (apply elem_of_cons in Hq as [[= -> ->]|Hq]; [eexists; vm_compute; reflexivity|]).
  by apply elem_of_nil in Hq.
Qed.

Lemma s_nominated : nominated_ok (Some s_req).
Proof. intros node nom ->%list_elem_of_singleton p n [= <-]. unfold s_req. by rewrite bool_decide_true. Qed.

Lemma s_pod_ok p : p = ex_pod ∨ p = x_v1 ∨ p = x_v2 → pod_ok s_req (Some p).
Proof. intros [-> |[-> | ->]] q n [= <-]; reflexivity. Qed.

Lemma s_dry_ok : dry_ok (Some s_req) s_dry.
Proof.
  split; [|constructor]. intros pi [->|[->|[]%elem_of_nil]%elem_of_cons]%elem_of_cons; apply s_pod_ok; auto.
Qed.

Lemma s_callers_ok : Forall (caller_ok (Some s_req)) s_callers.
Proof.
  constructor; [|constructor; [exact I|constructor; [|constructor; [|constructor; [|constructor]]]]]; try exact s_dry_ok.
  - constructor; [|constructor]. split; [reflexivity|]. intros pod ->%list_elem_of_singleton. apply s_pod_ok. by left.
  - intros c pod ->%list_elem_of_singleton []%elem_of_nil.
Qed.

Lemma s_there : Forall (managers_there s_heap 1) s_callers.
Proof.
  assert (is_Some (h_mgr s_heap !! 1%positive) ∧ is_Some (h_mgr s_heap !! 2%positive)) as [H1 H2] by (vm_compute; split; by eexists).
  repeat constructor; assumption.
Qed.

Lemma s_steps : rtc cstep s_start (s_end.1, s_end.2).
Proof. rewrite <- surjective_pairing. apply take_turns_steps. Qed.

(** The same, and an informer that adds a pod and deletes it after a resize. *)
Definition s_resizers : list caller := Informer [EvAddPod (AnyPod ex_pod); EvDeletePod (AnyPod ex_resized)] :: s_callers.
Definition s_end2 : config heap lock (report (Bytes := QueueObj)) :=
  take_turns (mjoin (replicate 60 [0; 1; 3; 2; 4; 5]%nat)) (start s_heap (program s_marshal x_fmt 1 <$> s_resizers)).

Lemma s_steps2 : rtc cstep (start s_heap (program s_marshal x_fmt 1 <$> s_resizers)) (s_end2.1, s_end2.2).
Proof. rewrite <- surjective_pairing. apply take_turns_steps. Qed.

Lemma s_unfixed c : caller_ok (Some s_req) c → caller_ok None c.
Proof.
  destruct c as [evs|totals|calls|snap d]; simpl; [|done| |by intros [_ Hb]].
  - intros Hevs. eapply Forall_impl; [exact Hevs|]. by intros ev [Hnil _].
  - done.
Qed.

Lemma s_resizers_ok : Forall (caller_ok None) s_resizers.
Proof.
  constructor; [|eapply Forall_impl; [exact s_callers_ok|]; apply s_unfixed].
  constructor; [by split|]. constructor; [by split|]. constructor.
Qed.

Lemma s_there2 : Forall (managers_there s_heap 1) s_resizers.
Proof. constructor; [|exact s_there]. split; [|exact I]. vm_compute. by eexists. Qed.

(** With fixed requests the amounts are right at the end; with a resize all the
    rest holds in the middle of a run. *)
Lemma system_safe_witness :
  (¬ races s_end.2 ∧ wf s_end.1 ∧ ∀ V, view_mgr s_end.1 1 = Some V → accountedV s_req V)
  ∧ (∀ t, t ∈ s_end2.2 → ¬ crashes s_end2.1 t) ∧ ¬ races s_end2.2
  ∧ ∃ c, rtc cstep (s_end2.1, s_end2.2) c ∧ finished c.
Proof.
  pose proof (system_safe s_marshal (Some s_req) s_heap 1 s_callers s_end.1 s_end.2 s_inv s_there s_nominated s_callers_ok s_steps)
    as (_ & H1 & H2 & H3 & _).
  split; [exact (conj H1 (conj H2 (H3 1%positive)))|].
  pose proof (system_safe s_marshal None s_heap 1 s_resizers s_end2.1 s_end2.2 (conj s_wf (λ _ _ _, I)) s_there2
    (λ _ _ _, I) s_resizers_ok s_steps2) as (H4 & H5 & _ & _ & _ & _ & H6).
  exact (conj H4 (conj H5 H6)).
Defined.

(** Both queues are reported. *)
Lemma status_reports_right_witness :
  ∃ ps V, NoDup ps.*1 ∧ ps.*1 = ["q"; "r"] ∧ seen_manager (moment s_start (s_end.1, s_end.2)) 1 V ∧ accountedV s_req V
    ∧ ∀ n data, (n, data) ∈ ps ↔ ∃ v, V !! n = Some v ∧ s_marshal (status_of (Some ex_m) v) = inl data.
Proof.
  destruct (s_end.2 !! 1%nat) as [t|] eqn:Ht; [|vm_compute in Ht; discriminate Ht].
  assert (∃ ps, code t = Done (Patched ps) ∧ ps.*1 = ["q"; "r"]) as (ps & Hps & Hnames).
  { vm_compute in Ht. injection Ht as <-. eexists. split; reflexivity. }
  destruct (status_reports_right s_marshal (Some s_req) s_heap 1 s_callers 1%nat [ex_m] s_end.1 s_end.2 t (Patched ps)
    s_inv s_there s_nominated s_callers_ok eq_refl s_steps Ht Hps) as (pss & Ha & Hall).
  destruct pss as [|ps1 [|ps2 pss]]; [inversion Hall| |inversion Hall as [|? ? ? ? ? Hno]; inversion Hno].
  cbn [concat] in Ha. rewrite app_nil_r in Ha. injection Ha as ->.
  assert (Hone := proj1 (Forall2_cons _ _ _ _ _) Hall). destruct Hone as [(V & Hseen & HV & Hnd & Hin) _].
  exists ps1, V. exact (conj Hnd (conj Hnames (conj Hseen (conj HV Hin)))).
Defined.

(** The queue has room, the nominated pod counted in. *)
Lemma PreFilter_admission_right_witness :
  ∃ V, seen_manager (moment s_start (s_end.1, s_end.2)) 1 V ∧ accountedV s_req V
    ∧ prefilter_status ex_pod V (NewStatus Success [""]).
Proof.
  destruct (s_end.2 !! 2%nat) as [t|] eqn:Ht; [|vm_compute in Ht; discriminate Ht].
  assert (code t = Done (Scheduled (Bytes := QueueObj) [NewStatus Success [""]])) as Hs.
  { vm_compute in Ht. injection Ht as <-. reflexivity. }
  destruct (PreFilter_admission_right s_marshal (Some s_req) s_heap 1 s_callers 2%nat ex_pod s_end.1 s_end.2 t _
    s_inv s_there s_nominated s_callers_ok eq_refl s_steps Ht Hs) as (V & status & Ha & Hseen & HV & Hst).
  injection Ha as <-. exists V. exact (conj Hseen (conj HV Hst)).
Defined.

(** Both candidates answer that "v1" is the victim, as in file [VictimProps]. *)
Definition s_region : list key := [KMgr 2; KQueue 3; KQueue 4; KQuota 3; KQuota 4; KRes 4; KRes 5; KRes 6].

Lemma s_apart : snapshot_region (λ k, k ∈ s_region) s_heap 1 2.
Proof.
  split.
  - apply frozen_b_sound. vm_compute. reflexivity.
  - by left.
  - apply (bool_decide_eq_true_1 (_ ∉ _)). vm_compute. reflexivity.
Qed.

Lemma s_ready : dry_ready (fmt_state := x_fmt) ex_V_p s_dry.
Proof.
  pose proof x_ready as [_ _ _ _ _ Hnd Hmax _]. split; [by intros c|exact Hnd|exact Hmax|constructor].
Qed.

Lemma dry_runs_right_witness :
  ∃ r, (∀ i, i = 3%nat ∨ i = 4%nat → code <$> s_end.2 !! i = Some (Done (Selected r))) ∧ pod_UID <$> r.1.1 = ["v1"]
    ∧ dry_selected (fmt_state := x_fmt) ex_V_p s_dry r ∧ view_mgr s_end.1 2 = Some ex_V_p.
Proof.
  destruct (s_end.2 !! 3%nat) as [t|] eqn:Ht; [|vm_compute in Ht; discriminate Ht].
  assert (∃ r, code t = Done (Selected (Bytes := QueueObj) r) ∧ pod_UID <$> r.1.1 = ["v1"]
    ∧ code <$> s_end.2 !! 4%nat = Some (Done (Selected r))) as (r & Hs & Hv & H4).
  { vm_compute in Ht. injection Ht as <-. eexists. split; [reflexivity|]. split; vm_compute; reflexivity. }
  destruct (dry_runs_right s_marshal (Some s_req) s_heap 1 s_callers (λ k, k ∈ s_region) 3%nat 2%positive s_dry ex_V_p
    s_end.1 s_end.2 t _ s_inv s_there s_nominated s_callers_ok s_apart eq_refl s_ready eq_refl s_steps Ht Hs)
    as ((r' & Ha & Hsel) & HV).
  injection Ha as <-. exists r. split; [|exact (conj Hv (conj Hsel HV))].
  intros i [-> | ->]; [rewrite Ht; cbn; by rewrite Hs|exact H4].
Defined.
End witnesses.
